(* ===== verification/_CoqProject ===== *)
-Q . S2P
Prelude.v
Paths.v
Utf8.v
Migrate.v
StoreOpen.v
AdminServer.v
PathDeny.v
PathWalk.v
PathSound.v
Json.v
JsonRound.v
Trust.v
Schema.v
Events.v
Event.v
Deliveries.v
ToolAttempts.v
DeadLetters.v
Sessions.v
Identities.v
Turns.v
Config.v
Stream.v
Admin.v
Surface.v
StoreSpec.v
StoreInv.v
StoreOps.v
Env.v
Engine.v
Teardown.v
Resend.v
Sweep.v
Recovery.v
InFlight.v
Router.v
RouterStop.v
Restart.v
Ingest.v
Gateway.v
Supervise.v
SessionManager.v
Relay.v
Typing.v
TurnHandler.v
Healthy.v
Answer.v
Drain.v
Daemon.v
Assembly.v
Neighbours.v
Overlap.v
Shutdown.v
