(* ===== verification/Prelude.v ===== *)
(** * APPROACH: a verification development for the personal agent harness

    APPROACH (src/README.md) is a daemon that receives messages from chat
    channels, queues them durably in SQLite, runs one agent-engine turn per
    message, and delivers the replies.  Everything it promises hangs on the
    store: an event is in exactly one state, a reply is written before it is
    sent, and whatever fails leaves a state a restart or a human can pick up.
    This library models the program as executable definitions and proves it.

    ** Parts, and how they call each other

    Foundations:
    - [Prelude]: results, the state-and-error monad, tables, int64, generic
      lemmas.  [Paths]: path/filepath, lexically.  [Utf8]: Go strings as bytes
      and runes.  [Json], [JsonRound]: encoding/json's reading of the documents
      the program decodes, its writing, and the round trip.

    The store (internal/store):
    - [Migrate] (migrate.go): the migration runner over what SQLite does with a
      text.  [StoreOpen] (store.go): Open, as a sequence of calls.
    - [Schema]: the SQLite tables of internal/store/migrations as finite maps,
      the error values, and the store monad: a [world] is a database and a
      stream saying which statements fail; a transaction that fails rolls back.
    - [Events], [Deliveries], [ToolAttempts], [DeadLetters], [Sessions],
      [Identities], [Turns]: one definition per exported operation, the SQL
      guards as boolean functions of the row.
    - [StoreSpec]: the abstract store: a step relation [astep] with one
      constructor per legal change of a row, and the refinement of every
      operation to it.  [StoreInv]: what any history of operations keeps.
      [StoreOps]: what each operation answers.

    Policy:
    - [Trust] (internal/trust/trust.go): levels, the channel clamp, the session
      floor.  [Config] (internal/config): defaults, presence, validators and the
      policy matrix, over a decoded TOML document.
    - [PathDeny], [PathWalk], [PathSound] (internal/policy/pathdeny.go): the
      rules on one path, the walks of the recursive-read verdict over a file
      tree with links, and what an allowance contains.

    Outside world and coordination:
    - [Env]: what lies above the store: clock, context, platform, and the trace
      of effects that left the process.  Programs above the store are written
      against the class [StoreAccess]; [exclusive] is the store a goroutine has
      to itself, [Overlap.shared] one that others move between its calls.
    - [Surface], [Resend], [Sweep] (delivery/surface.go, resend.go): notices,
      the outbox pump and its repair sweep.  [Recovery] (recovery/recovery.go):
      the verdict on a failed turn.
    - [InFlight] (delivery/inflight.go) and [Router] (router/router.go):
      goroutines as step relations, one step per atomic section.  [RouterStop]:
      the wind-down Wait blocks on.

    Engine and sessions:
    - [Stream], [Engine] (internal/engine): the stream collector, the argument
      list, turn accounting and error classes over a spawned child.  [Teardown]
      (engine.go, run): the child's process group, its pipes and signals beside
      os/exec's goroutines, as steps.
    - [SessionManager] (internal/session): pinning, first turns, resumes,
      rotation, degradation, over a parameter for the Engine interface.

    The adapter and the handler:
    - [Event] (event/event.go): the payload and its JSON.  [Ingest]
      (cli/ingest.go, discord/normalize.go): normalization, the trust stamp, the
      receipt.  [Gateway] (discord/discord.go): the connection loop, the
      subscription boundary and the handler gate.  [Supervise]: the same loop as
      a goroutine beside the handshake, the reaper and discordgo, which is the
      class [discordgo] with the laws [discordgoOk].
    - [Relay] (adapter/discord/relay.go, send.go): the chunker, Send and the
      streaming relay, over arbitrary platform answers.  [Typing]: its keepalive
      goroutine.
    - [TurnHandler] (cli/turn.go): the router's handler.  It is written against
      two interfaces, as the code is: the class [turnRelay] with its law
      [turnRelayOk], which [discord_relay] implements, and a runner, which
      [session_runner] implements with SessionManager's Turn.

    The process:
    - [Admin] (admin/admin.go, the clients of cli): one request and its reply,
      from the client's arguments to the line it reads back.
      [AdminServer] (admin/admin.go): daemon ownership, the listener and its
      drain, as steps of many processes on one machine.
    - [Daemon] (cli/daemon.go): startup, wiring, hooks, shutdown and exit codes.
      [Shutdown]: the goroutines behind its last phases, from Rebuild to the
      close of the store, as steps.
      [Assembly]: the parts as the daemon wires them.  [Restart]: boot and the
      pump's first pass over whatever the last daemon left.  [Healthy], [Answer]:
      what the parts answer while nothing fails, and the handler's turn and the
      pump's next pass composed from them.  [Drain]: one drain running the
      handler on the events it pops, and a restart followed through its drains.
      [Neighbours]: what a turn may do to the store and what it needs of all
      others, and that everyone keeps to it.  [Overlap]: the handler among them.

    A message's path: [Gateway.admits], [Ingest.discordIngest] (which stamps the
    trust and calls [Events.InsertEvent] through [Router.Persist_insert]),
    [Router.Enqueue], a drain's [Router.dispatch_stamp], then
    [TurnHandler.productionTurn], which runs [SessionManager.Turn] over
    [Engine.engine_run], composes with [Deliveries.InsertDeliveries], and sends
    through [Relay.FinishJournaled] or leaves the rows to [Resend.Pump]; a
    failure goes to [Recovery].

    ** What the theorems show

    - The assembled daemon: the engine is given only words of a sender the
      configuration lists as owner, on a channel that may carry an owner
      ([Assembly.owner_words]); the levels it stamps are the configuration's
      ([Daemon.seeded_trust]); it acquires its resources in order and releases
      each whatever fails ([Daemon.daemon_phases]); however its goroutines
      interleave it comes down whole, the store last
      ([Shutdown.shutdown_joins]); an operator's requeue puts
      the event back on its thread ([Daemon.manual_requeue]); each admin request
      does what its verb says and nothing else ([Admin.admin_verbs]); there is
      one daemon per state directory, wherever processes die
      ([AdminServer.one_daemon]); a healthy restart settles whatever the
      last daemon left ([Restart.restart_settles]) and, whatever order the
      threads take their turns in, comes to rest ([Drain.restart_to_rest]); and
      in a healthy process a message of the owner's is answered, by the turn's
      own relay or by the pump behind it ([Assembly.owner_answered]).
    - The store: it opens only over a private, unlinked path with the asked
      pragmas ([StoreOpen.Open_posture]) and a schema migrated all or nothing
      ([Migrate.migrate_atomic]); every operation, whatever statements fail, is
      a sequence of legal steps ([StoreSpec.store_refines]); any history keeps
      the queue, the outbox, the session registry and the journal well formed
      ([StoreInv.store_invariant]) and only grows ([StoreInv.history_grows]);
      and each operation answers what its callers rely on ([StoreOps]).
    - Ordering: one turn per thread at a time, in receipt order, with no lost
      wakeup ([Router.dispatch_serial_in_order]); a restart parks what was
      running and requeues the rest ([Router.Rebuild_recovers]); shutdown starts
      nothing and ends ([RouterStop.Wait_returns]); the pump sends
      each target's rows in order and stops a target at its first failure
      ([Resend]); acks and sends exclude each other per target ([InFlight]).
    - Turns: every exit of the handler is a durable state and no reply is lost
      ([TurnHandler.productionTurn_exits]), also while everyone else uses the
      store between its calls ([Overlap.turns_overlap]); while nothing fails, no turn leaves
      its event in processing, holds a claim, or leaves a row of its reply
      without waking the pump ([Answer.turn_settles]); a turn spawns the engine where the
      registry says and nowhere else ([SessionManager.Turn_engine_discipline]);
      a failed turn lands ([Recovery.HandleEngineFailure_lands]); what a child
      reported is recorded whether or not it failed ([Engine.turn_recorded]),
      and does not depend on how its output was cut ([Stream.stream_chunking]);
      and a child comes down with its whole group, within a bounded number of
      the daemon's own steps ([Teardown.turn_tears_down]).
    - Inbound: a payload reads back as written ([Event.payload_read_back]), a
      receipt means a row and a place in the queue
      ([Ingest.discordIngest_receipt]), direct messages and subscribed channels
      only ([Gateway.boundary_fails_closed]), and the connection loop stops at
      what cannot heal and waits before retrying what can
      ([Gateway.Run_disciplined]), and with all its goroutines leaves no
      connection unwatched and no wakeup lost ([Supervise.Run_supervised]).
    - Delivery: chunks lose nothing, acks align with rows, the visibility bit is
      honest, Send acks only what was accepted where it was addressed ([Relay]);
      a quiet relay types no more ([Typing.typing_ends]).
    - Policy: [Config.Parse_decides] lists exactly the accepted documents,
      [Config.effective_policy] what an action resolves to; the denylist is the
      one written down ([PathDeny.denylist_shape]) and an allowed directory
      contains no denied file, by any spelling ([PathSound.DeniedDir_contains]).

    Seven theorems show faults: [Resend.pump_repeats_requeued_reply],
    [PathSound.climbing_link_escapes], [AdminServer.late_watcher_unlinks],
    [Shutdown.refusal_closes_under_turns], and of [Teardown]
    [straggler_outlives_turn], [clean_exit_misfiled] and
    [success_recorded_as_timeout].

    ** Conventions

    Fuel and bounds: [Utf8.decode_runes] runs on the number of bytes (each round
    consumes one), [Json.json_parse] on twice the document's length, the chunker
    on the number of runes, [Sessions.chain_set] on the number of rows (proved to
    reach the fixed point), [Resend.Pump] on the number of passes asked about,
    [Gateway.run_loop] on the gateway's answers, [PathWalk.inspect] on the number
    of directories (each is walked once), name resolution and link spellings on
    the kernel's and the code's own caps.
    Row ids and instants are unbounded integers except where the code multiplies
    them: [SessionManager.rotation_due] wraps at 64 bits.  Faults, cancellations,
    platform answers, random bytes and the clock are arbitrary parameters, so a
    theorem holds for every one of them.

    The step relations need no fuel; where they end, a measure bounds the steps
    ([Shutdown.rank], [Teardown.exec_rank], [Supervise.run_rank]).

    Not modelled: logging; the text of errors, and what an err reply says behind
    its verdict; interference inside one store call ([Overlap] moves the store
    between calls, and the claim table of [InFlight] is there the turn's own
    view); how the operating system delivers a signal; wall-clock deadlines,
    which are steps that may come at any time; the deadlines of admin
    connections; the gateway session and REST calls, which belong to discordgo;
    TOML decoding and SQLite itself; a recursive-read walk while the tree
    changes under it. *)
From stdpp Require Export base tactics gmap strings list fin_maps sorting pretty.
From Stdlib Require Export ZArith Lia Ascii.

#[global] Set Default Goal Selector "!".

(** ** Results and the state-and-error monad *)

(** Go's [(value, error)] pair: a call either delivers its value or an
    error, never both. *)
Inductive result (E A : Type) : Type :=
| Ok (a : A)
| Err (e : E).
Arguments Ok {E A} a.
Arguments Err {E A} e.

Definition is_ok {E A} (r : result E A) : bool :=
  match r with Ok _ => true | Err _ => false end.

(** A computation over a state [S] that may fail with an [E].  A failed
    computation still returns its state: Go code that returns an error does
    not undo what it already wrote. *)
Definition M (S E A : Type) : Type := S → result E A * S.

#[global] Instance M_ret {S E} : MRet (M S E) := λ A a s, (Ok a, s).
#[global] Instance M_bind {S E} : MBind (M S E) := λ A B f m s,
  match m s with
  | (Ok a, s') => f a s'
  | (Err e, s') => (Err e, s')
  end.

Definition fail {S E A} (e : E) : M S E A := λ s, (Err e, s).

(** [try m] hands the error to the caller: [if err := m(); err != nil]. *)
Definition try {S E A} (m : M S E A) : M S E (result E A) := λ s,
  let '(r, s') := m s in (Ok r, s').

(** ** Machine integers *)

Definition int64_min : Z := (- 2 ^ 63)%Z.
Definition int64_max : Z := (2 ^ 63 - 1)%Z.

(** Go's two's-complement wrap-around at a signed 64-bit width. *)
Definition wrap64 (x : Z) : Z := ((x + 2 ^ 63) mod 2 ^ 64 - 2 ^ 63)%Z.

Definition in_int64 (x : Z) : Prop := (int64_min ≤ x ≤ int64_max)%Z.

(** ** Tables keyed by an integer row id *)

(** The rows of a table in id order: SQL's [ORDER BY id]. *)
Definition row_le {A} (p q : Z * A) : Prop := (p.1 ≤ q.1)%Z.
#[global] Instance row_le_dec {A} : RelDecision (@row_le A) :=
  λ p q, Z.le_dec p.1 q.1.

Definition sorted_rows {A} (m : gmap Z A) : list (Z * A) :=
  merge_sort row_le (map_to_list m).

(** [EXISTS (SELECT 1 FROM t WHERE p)]. *)
Definition exists_row {K A} `{Countable K} (p : A → bool) (m : gmap K A) : bool :=
  existsb (λ kv : K * A, p kv.2) (map_to_list m).

(** [SELECT count( * ) FROM t WHERE p]. *)
Definition count_rows {K A} `{Countable K} (p : A → bool) (m : gmap K A) : Z :=
  Z.of_nat (length (List.filter (λ kv : K * A, p kv.2) (map_to_list m))).

(** The rowid SQLite assigns to a row inserted into an [INTEGER PRIMARY KEY]
    table without an explicit id: one more than the largest in use. *)
Definition max_id {A} (m : gmap Z A) : Z :=
  map_fold (λ k _ acc, Z.max k acc) 0%Z m.
Definition next_id {A} (m : gmap Z A) : Z := (max_id m + 1)%Z.

(** ** Lemmas: monad *)

Section monad.
Context {S E : Type}.

Lemma bind_ok {A B} (m : M S E A) (f : A → M S E B) s a s' :
  m s = (Ok a, s') → (m ≫= f) s = f a s'.
Proof. intros H. unfold mbind, M_bind. by rewrite H. Qed.

Lemma bind_err {A B} (m : M S E A) (f : A → M S E B) s e s' :
  m s = (Err e, s') → (m ≫= f) s = (Err e, s').
Proof. intros H. unfold mbind, M_bind. by rewrite H. Qed.

Lemma bind_assoc {A B C} (m : M S E A) (f : A → M S E B) (g : B → M S E C) s :
  ((m ≫= f) ≫= g) s = (m ≫= (λ a, f a ≫= g)) s.
Proof. unfold mbind, M_bind. by destruct (m s) as [[a|e] s']. Qed.

Lemma bind_inv {A B} (m : M S E A) (f : A → M S E B) s r s'' :
  (m ≫= f) s = (r, s'') →
  (∃ a s', m s = (Ok a, s') ∧ f a s' = (r, s'')) ∨
  (∃ e, m s = (Err e, s'') ∧ r = Err e).
Proof.
  unfold mbind, M_bind. destruct (m s) as [[a|e] s'] eqn:Hm; intros H.
  - left. eauto.
  - right. simplify_eq. eauto.
Qed.
End monad.

(** ** Lemmas: machine integers *)

Lemma wrap64_id x : in_int64 x → wrap64 x = x.
Proof.
  unfold in_int64, wrap64, int64_min, int64_max. intros Hx.
  rewrite Z.mod_small; lia.
Qed.

Lemma wrap64_range x : in_int64 (wrap64 x).
Proof.
  unfold in_int64, wrap64, int64_min, int64_max.
  pose proof (Z.mod_pos_bound (x + 2 ^ 63) (2 ^ 64)). lia.
Qed.

(** ** Lemmas: strings *)

#[global] Instance string_append_assoc : Assoc (=) String.append.
Proof.
  intros s t u. induction s as [|c s IH]; [done|].
  change (String c (s +:+ (t +:+ u)) = String c ((s +:+ t) +:+ u)). by rewrite IH.
Qed.

(** ** Lemmas: tables *)

Lemma exists_row_true {K A} `{Countable K} (p : A → bool) (m : gmap K A) :
  exists_row p m = true ↔ ∃ k x, m !! k = Some x ∧ p x = true.
Proof.
  unfold exists_row. rewrite existsb_exists. split.
  - intros [[k x] [Hin Hp]]. exists k, x. split; [|done].
    apply elem_of_map_to_list. by apply list_elem_of_In.
  - intros (k & x & Hk & Hp). exists (k, x). split; [|done].
    apply list_elem_of_In. by apply elem_of_map_to_list.
Qed.

Lemma exists_row_false {K A} `{Countable K} (p : A → bool) (m : gmap K A) :
  exists_row p m = false ↔ ∀ k x, m !! k = Some x → p x = false.
Proof.
  rewrite <-not_true_iff_false, exists_row_true. split.
  - intros Hn k x Hk. destruct (p x) eqn:Hp; [|done]. destruct Hn. eauto.
  - intros Hf (k & x & Hk & Hp). by rewrite (Hf _ _ Hk) in Hp.
Qed.

Lemma max_id_ge {A} (m : gmap Z A) k x : m !! k = Some x → (k ≤ max_id m)%Z.
Proof.
  unfold max_id. revert k x.
  apply (map_fold_weak_ind (λ r m, ∀ k x, m !! k = Some x → (k ≤ r)%Z)).
  - intros k x Hk. by rewrite lookup_empty in Hk.
  - intros i y m' r Hi IH k x Hk. apply lookup_insert_Some in Hk.
    destruct Hk as [[-> _]|[_ Hk]]; [lia|]. specialize (IH _ _ Hk). lia.
Qed.

Lemma next_id_gt {A} (m : gmap Z A) k x : m !! k = Some x → (k < next_id m)%Z.
Proof. intros Hk. unfold next_id. apply max_id_ge in Hk. lia. Qed.

Lemma next_id_fresh {A} (m : gmap Z A) : m !! next_id m = None.
Proof.
  destruct (m !! next_id m) as [x|] eqn:Hx; [|done].
  apply next_id_gt in Hx. lia.
Qed.

Lemma max_id_nonneg {A} (m : gmap Z A) : (0 ≤ max_id m)%Z.
Proof.
  unfold max_id. apply (map_fold_weak_ind (λ r _, (0 ≤ r)%Z)); intros; lia.
Qed.

Lemma next_id_pos {A} (m : gmap Z A) : (0 < next_id m)%Z.
Proof. unfold next_id. pose proof (max_id_nonneg m). lia. Qed.

Lemma elem_of_sorted_rows {A} (m : gmap Z A) k x :
  (k, x) ∈ sorted_rows m ↔ m !! k = Some x.
Proof.
  unfold sorted_rows. rewrite merge_sort_Permutation. apply elem_of_map_to_list.
Qed.

Lemma NoDup_sorted_rows_fst {A} (m : gmap Z A) : NoDup (sorted_rows m).*1.
Proof.
  unfold sorted_rows. rewrite merge_sort_Permutation. apply NoDup_fst_map_to_list.
Qed.

#[global] Instance row_le_total {A} : Total (@row_le A).
Proof. intros [x ?] [y ?]. unfold row_le. simpl. lia. Qed.

#[global] Instance row_le_trans {A} : Transitive (@row_le A).
Proof. intros [x ?] [y ?] [z ?]. unfold row_le. simpl. lia. Qed.

Lemma StronglySorted_sorted_rows {A} (m : gmap Z A) :
  StronglySorted (λ p q : Z * A, (p.1 < q.1)%Z) (sorted_rows m).
Proof.
  assert (Hs : StronglySorted row_le (sorted_rows m)).
  { apply StronglySorted_merge_sort; apply _. }
  assert (Hn := NoDup_sorted_rows_fst m).
  induction Hs as [|[k x] l Hs IH Hall]; [constructor|].
  csimpl in Hn. apply NoDup_cons in Hn as [Hk Hn].
  constructor; [by apply IH|].
  rewrite Forall_forall in Hall |- *. intros [k' x'] Hin. simpl.
  specialize (Hall _ Hin). unfold row_le in Hall. simpl in Hall.
  assert (k ≠ k'); [|lia]. intros ->. apply Hk.
  apply list_elem_of_fmap. by exists (k', x').
Qed.

(** ** Tables: unique columns and growth *)

(** A UNIQUE column [f] of a table. *)
Definition unique_on {K A B} `{Countable K} (f : A → B) (m : gmap K A) : Prop :=
  ∀ i j x y, m !! i = Some x → m !! j = Some y → f x = f y → i = j.

(** Every row of [m] is still in [m'], related by [R]: rows are updated but
    never deleted. *)
Definition map_grows {K A} `{Countable K} (R : A → A → Prop) (m m' : gmap K A) : Prop :=
  ∀ k x, m !! k = Some x → ∃ y, m' !! k = Some y ∧ R x y.

Section tables.
Context {K A : Type} `{Countable K}.
Implicit Types m : gmap K A.

Lemma unique_on_fresh {B} (f : A → B) m i x :
  unique_on f m → (∀ k y, m !! k = Some y → f y ≠ f x) → unique_on f (<[i := x]> m).
Proof.
  intros Hu Hf j k y z Hj Hk Heq.
  apply lookup_insert_Some in Hj as [[-> <-]|[Hj1 Hj]];
    apply lookup_insert_Some in Hk as [[-> <-]|[Hk1 Hk]]; [done| | |by eapply Hu].
  - by destruct (Hf _ _ Hk).
  - by destruct (Hf _ _ Hj).
Qed.

Lemma unique_on_update {B} (f : A → B) m i x y :
  unique_on f m → m !! i = Some y → f x = f y → unique_on f (<[i := x]> m).
Proof.
  intros Hu Hi Hf j k z w Hj Hk Heq.
  apply lookup_insert_Some in Hj as [[-> <-]|[Hj1 Hj]];
    apply lookup_insert_Some in Hk as [[-> <-]|[Hk1 Hk]]; [done| | |by eapply Hu].
  - eapply Hu; [done..|congruence].
  - eapply Hu; [done..|congruence].
Qed.

Lemma map_grows_refl (R : A → A → Prop) m : Reflexive R → map_grows R m m.
Proof. intros ? k x Hk. eauto. Qed.

Lemma map_grows_trans (R : A → A → Prop) m1 m2 m3 :
  Transitive R → map_grows R m1 m2 → map_grows R m2 m3 → map_grows R m1 m3.
Proof.
  intros ? H1 H2 k x Hk. destruct (H1 _ _ Hk) as (y & Hy & ?).
  destruct (H2 _ _ Hy) as (z & Hz & ?). exists z. split; [done|]. by etrans.
Qed.

Lemma map_grows_insert (R : A → A → Prop) m i x :
  Reflexive R → (∀ y, m !! i = Some y → R y x) → map_grows R m (<[i := x]> m).
Proof.
  intros ? HR k y Hk. destruct (decide (k = i)) as [->|?].
  - exists x. rewrite lookup_insert_eq. eauto.
  - exists y. by rewrite lookup_insert_ne.
Qed.

Lemma map_Forall_update (P : K → A → Prop) m i x :
  map_Forall P m → P i x → map_Forall P (<[i := x]> m).
Proof. intros. by apply map_Forall_insert_2. Qed.
End tables.

(** A row past every other one comes last in id order. *)
Lemma sorted_rows_insert_last {A} (m : gmap Z A) k x :
  (∀ i y, m !! i = Some y → (i < k)%Z) →
  sorted_rows (<[k := x]> m) = sorted_rows m ++ [(k, x)].
Proof.
  intros Hlt. assert (Hk : m !! k = None).
  { destruct (m !! k) as [y|] eqn:Hy; [|done]. apply Hlt in Hy. lia. }
  apply (StronglySorted_unique_strong (λ p q : Z * A, (p.1 < q.1)%Z)).
  - intros [i y] [j z] _ _; simpl; lia.
  - apply StronglySorted_sorted_rows.
  - assert (Hin : ∀ p, p ∈ sorted_rows m → (p.1 < k)%Z).
    { intros [i y] Hp%elem_of_sorted_rows. by eapply Hlt. }
    assert (Hs := StronglySorted_sorted_rows m).
    induction Hs as [|p l Hs IH Hall]; simpl; [by repeat constructor|].
    constructor; [apply IH; intros q Hq; apply Hin; by right|].
    apply Forall_app. split; [done|]. repeat constructor. apply Hin. by left.
  - unfold sorted_rows. rewrite !merge_sort_Permutation, map_to_list_insert by done.
    by rewrite Permutation_cons_append.
Qed.

(** ** Strings: a suffix without separators is unambiguous *)

Fixpoint str_mem (c : ascii) (s : string) : bool :=
  match s with
  | EmptyString => false
  | String c' s' => Ascii.eqb c c' || str_mem c s'
  end.

Lemma str_mem_app c s t : str_mem c (s +:+ t) = str_mem c s || str_mem c t.
Proof. induction s as [|c' s IH]; simpl; [done|]. by rewrite IH, orb_assoc. Qed.

Lemma str_split_last c s t a b :
  str_mem c a = false → str_mem c b = false →
  s +:+ String c a = t +:+ String c b → s = t ∧ a = b.
Proof.
  intros Ha Hb. revert t. induction s as [|x s IH]; intros [|y t]; simpl; intros Heq; simplify_eq.
  - done.
  - by rewrite str_mem_app in Ha; simpl in Ha; rewrite Ascii.eqb_refl, orb_true_r in Ha.
  - by rewrite str_mem_app in Hb; simpl in Hb; rewrite Ascii.eqb_refl, orb_true_r in Hb.
  - destruct (IH t) as [-> ->]; done.
Qed.

(** A decimal numeral has no colon. *)
Lemma pretty_N_char_no_colon n : Ascii.eqb ":"%char (pretty_N_char n) = false.
Proof. destruct n as [|p]; [done|]. by do 4 (destruct p as [p|p|]; try done). Qed.

Lemma pretty_N_no_colon (n : N) : str_mem ":"%char (pretty n) = false.
Proof.
  assert (Hgo : ∀ x s, str_mem ":"%char s = false → str_mem ":"%char (pretty_N_go x s) = false).
  { intros x. induction (N.lt_wf_0 x) as [x _ IH]. intros s Hs.
    assert (x = 0 ∨ 0 < x)%N as [->|Hx] by lia; [by rewrite pretty_N_go_0|].
    rewrite pretty_N_go_step by done. apply IH; [apply N.div_lt; lia|].
    cbn [str_mem]. by rewrite pretty_N_char_no_colon, Hs. }
  unfold pretty, pretty_N. case_decide; [done|]. by apply Hgo.
Qed.

Lemma pretty_Z_no_colon (z : Z) : str_mem ":"%char (pretty z) = false.
Proof.
  unfold pretty, pretty_Z. destruct z; [done|apply pretty_N_no_colon|].
  apply (pretty_N_no_colon (N.pos p)).
Qed.
