(* ===== verification/Paths.v ===== *)
(** * Slash-separated paths (Go's path/filepath on Unix)

    The daemon derives its layout from a state directory and the path policy
    judges spellings, both through filepath's lexical functions.  They are
    modelled here on strings; an absolute clean path is also kept as the list
    of its names, and the lemmas say the two views agree. *)
From S2P Require Import Prelude.

(** ** Definitions *)

(** strings.Split(s, slash). *)
Fixpoint split (s : string) : list string :=
  match s with
  | EmptyString => [""%string]
  | String c s' =>
      if Ascii.eqb "/" c then ""%string :: split s'
      else match split s' with
           | seg :: rest => String c seg :: rest
           | [] => [String c ""]
           end
  end.

(** strings.Join(segs, slash). *)
Definition join (segs : list string) : string := String.concat "/" segs.

Definition IsAbs (p : string) : bool := String.prefix "/" p.

(** One element of Clean's loop; [out] is the path so far, last name first. *)
Definition clean_step (rooted : bool) (out : list string) (seg : string) : list string :=
  if bool_decide (seg = ""%string) || bool_decide (seg = "."%string) then out
  else if bool_decide (seg = ".."%string) then
    match out with
    | [] => if rooted then [] else [".."%string]
    | s :: out' => if bool_decide (s = ".."%string) then ".."%string :: out else out'
    end
  else seg :: out.

Definition Clean (p : string) : string :=
  let rooted := IsAbs p in
  let names := rev (fold_left (clean_step rooted) (split p) []) in
  if rooted then ("/" +:+ join names)%string
  else match names with [] => "."%string | _ => join names end.

(** Empty leading elements are skipped. *)
Fixpoint Join (elems : list string) : string :=
  match elems with
  | [] => ""%string
  | e :: elems' => if bool_decide (e = ""%string) then Join elems' else Clean (join elems)
  end.

Definition Dir (p : string) : string :=
  match split p with
  | [_] => Clean ""
  | segs => Clean (join (removelast segs) +:+ "/")
  end.

(** ** Absolute clean paths as lists of names *)

Definition name (s : string) : Prop :=
  s ≠ ""%string ∧ s ≠ "."%string ∧ s ≠ ".."%string ∧ str_mem "/" s = false.
Definition names (l : list string) : Prop := Forall name l.

Definition render (l : list string) : string := ("/" +:+ join l)%string.

(** Where following [segs] from [base] leads, on names alone. *)
Definition lex (base segs : list string) : list string :=
  rev (fold_left (clean_step true) segs (rev base)).

(** What is left of [p] below [base]. *)
Fixpoint below (base p : list string) : option (list string) :=
  match base, p with
  | [], _ => Some p
  | b :: base', x :: p' => if bool_decide (b = x) then below base' p' else None
  | _, [] => None
  end.

(** ** Lemmas *)

Lemma split_ne s : split s ≠ [].
Proof. destruct s as [|c s]; [done|]. cbn [split]. by destruct (Ascii.eqb "/" c), (split s). Qed.

Lemma join_cons a b l : join (a :: b :: l) = (a +:+ "/" +:+ join (b :: l))%string.
Proof. done. Qed.

Lemma split_noslash s : str_mem "/" s = false → split s = [s].
Proof.
  induction s as [|c s IH]; [done|]. cbn [split str_mem].
  destruct (Ascii.eqb "/" c); [done|]. intros H. by rewrite (IH H).
Qed.

Lemma split_sep s t : split (s +:+ "/" +:+ t) = split s ++ split t.
Proof.
  induction s as [|c s IH]; [done|].
  change (String c s +:+ "/" +:+ t)%string with (String c (s +:+ "/" +:+ t)). cbn [split].
  rewrite IH. destruct (Ascii.eqb "/" c); [done|].
  by destruct (split s) as [|x rest] eqn:Hs; [destruct (split_ne s)|].
Qed.

Lemma split_app s t : str_mem "/" s = false → split (s +:+ "/" +:+ t) = s :: split t.
Proof. intros H. by rewrite split_sep, split_noslash. Qed.

Lemma split_seg_noslash s seg : seg ∈ split s → str_mem "/" seg = false.
Proof.
  revert seg. induction s as [|c s IH]; intros seg; cbn [split].
  { intros Hin. apply list_elem_of_singleton in Hin. by subst. }
  destruct (Ascii.eqb "/" c) eqn:Hc.
  - rewrite elem_of_cons. intros [->|Hin]; [done|by apply IH].
  - destruct (split s) as [|x rest] eqn:Hs; [by destruct (split_ne s)|].
    rewrite elem_of_cons. intros [->|Hin].
    + cbn [str_mem]. rewrite Hc. apply IH. by left.
    + apply IH. by right.
Qed.

Lemma names_noslash l s : names l → s ∈ l → str_mem "/" s = false.
Proof. unfold names. rewrite Forall_forall. intros H Hin. by apply H. Qed.

Lemma split_join l : l ≠ [] → (∀ s, s ∈ l → str_mem "/" s = false) → split (join l) = l.
Proof.
  induction l as [|a [|b l] IH]; intros Hne Hl; [done| |].
  - apply split_noslash, Hl. by left.
  - rewrite join_cons, split_app by (apply Hl; by left). f_equal. apply IH; [done|].
    intros s Hs. apply Hl. by right.
Qed.

Lemma join_split s : join (split s) = s.
Proof.
  induction s as [|c s IH]; [done|]. cbn [split]. destruct (Ascii.eqb "/" c) eqn:Hc.
  - apply Ascii.eqb_eq in Hc as <-. destruct (split s) as [|x rest] eqn:Hs; [by destruct (split_ne s)|].
    rewrite join_cons. by rewrite IH.
  - destruct (split s) as [|x rest]; [by rewrite <-IH|]. destruct rest as [|y rest].
    + by rewrite <-IH.
    + rewrite join_cons in IH |- *. by rewrite <-IH.
Qed.

(** A step over a proper name, and over nothing. *)
Lemma clean_step_name rooted out seg : name seg → clean_step rooted out seg = seg :: out.
Proof. intros (H1 & H2 & H3 & _). unfold clean_step. by rewrite !bool_decide_false. Qed.

Lemma clean_names rooted l out : names l → fold_left (clean_step rooted) l out = rev l ++ out.
Proof.
  intros Hl. revert out. induction Hl as [|x l Hx Hl IH]; intros out; [done|].
  cbn [fold_left]. rewrite clean_step_name by done. rewrite IH. simpl. by rewrite <-(assoc_L app).
Qed.

Lemma lex_names base l : names l → lex base l = base ++ l.
Proof.
  intros Hl. unfold lex. rewrite clean_names by done. by rewrite rev_app_distr, !rev_involutive.
Qed.

Lemma lex_app base l k : lex base (l ++ k) = lex (lex base l) k.
Proof. unfold lex. by rewrite fold_left_app, rev_involutive. Qed.

Lemma lex_nil base : lex base [] = base.
Proof. apply rev_involutive. Qed.

Lemma clean_step_ok out seg : names out → str_mem "/" seg = false → names (clean_step true out seg).
Proof.
  intros Ho Hs. unfold clean_step. repeat case_bool_decide; cbn [orb]; try done.
  - destruct out as [|x out]; [done|]. apply Forall_cons in Ho as [(? & ? & ? & ?) Ho].
    by rewrite bool_decide_false.
  - by apply Forall_cons.
Qed.

Lemma names_rev l : names l → names (rev l).
Proof. unfold names. rewrite !Forall_forall. intros H x Hx. apply H. by apply list_elem_of_In, in_rev, list_elem_of_In. Qed.

Lemma lex_ok base segs :
  names base → (∀ s, s ∈ segs → str_mem "/" s = false) → names (lex base segs).
Proof.
  intros Hb Hs. apply names_rev. apply names_rev in Hb. revert Hb. generalize (rev base).
  induction segs as [|x segs IH]; intros out Ho; [done|]. cbn [fold_left]. apply IH.
  - intros s ?. apply Hs. by right.
  - apply clean_step_ok; [done|]. apply Hs. by left.
Qed.

Lemma lex_split_ok base s : names base → names (lex base (split s)).
Proof. intros Hb. apply lex_ok; [done|]. intros seg. apply split_seg_noslash. Qed.

(** *** The strings and the names agree *)

Lemma string_app_nil s : (s +:+ "")%string = s.
Proof. induction s as [|c s IH]; [done|]. change (String c (s +:+ "") = String c s). by rewrite IH. Qed.

Lemma split_render l : names l → split (render l) = "" :: (if l is [] then [""] else l)%string.
Proof.
  intros Hl. unfold render. change ("/" +:+ join l)%string with ("" +:+ "/" +:+ join l)%string.
  rewrite split_app by done. f_equal. destruct l as [|a l]; [done|].
  apply split_join; [done|]. intros s. by apply names_noslash.
Qed.

Lemma Clean_rooted s : Clean ("/" +:+ s) = render (lex [] (split s)).
Proof.
  unfold Clean. change ("/" +:+ s)%string with ("" +:+ "/" +:+ s)%string.
  rewrite split_app by done. unfold IsAbs. by destruct s.
Qed.

Lemma IsAbs_rooted p : IsAbs p = true → ∃ s, p = ("/" +:+ s)%string.
Proof.
  destruct p as [|c p]; [done|]. unfold IsAbs. cbn [String.prefix].
  destruct (Ascii.ascii_dec "/" c) as [<-|]; [|done]. intros _. by exists p.
Qed.

Lemma lex_empty base segs : lex base (""%string :: segs) = lex base segs.
Proof. done. Qed.

Lemma Clean_render l : names l → Clean (render l) = render l.
Proof.
  intros Hl. unfold render at 1. rewrite Clean_rooted. destruct l as [|a l]; [done|].
  rewrite split_join; [|done|intros s; by apply names_noslash].
  by rewrite lex_names by done.
Qed.

(** An absolute path cleans to names; cleaning is done once. *)
Lemma Clean_abs p : IsAbs p = true → ∃ l, names l ∧ Clean p = render l.
Proof.
  intros (s & ->)%IsAbs_rooted. exists (lex [] (split s)). split; [|apply Clean_rooted].
  apply lex_split_ok. constructor.
Qed.

Lemma Clean_idem p : IsAbs p = true → Clean (Clean p) = Clean p.
Proof. intros (l & Hl & ->)%Clean_abs. by apply Clean_render. Qed.

Lemma render_inj l k : names l → names k → render l = render k → l = k.
Proof.
  intros Hl Hk Heq. pose proof (split_render l Hl) as H1. rewrite Heq, split_render in H1 by done.
  destruct l as [|a l], k as [|b k]; simplify_eq; try done.
  - apply Forall_cons in Hk as [[? _] _]. done.
  - apply Forall_cons in Hl as [[? _] _]. done.
Qed.

(** Joining and cleaning a spelling onto a clean path follows its elements. *)
Lemma Clean_onto l s : names l → Clean (render l +:+ "/" +:+ s) = render (lex l (split s)).
Proof.
  intros Hl. unfold render at 1.
  replace (("/" +:+ join l) +:+ "/" +:+ s)%string with ("/" +:+ (join l +:+ "/" +:+ s))%string
    by (by rewrite !(assoc_L String.append)).
  rewrite Clean_rooted, split_sep, lex_app. f_equal. f_equal. destruct l as [|a l]; [done|].
  rewrite split_join; [by rewrite lex_names|done|intros x; by apply names_noslash].
Qed.

Lemma render_ne l : render l ≠ ""%string.
Proof. discriminate. Qed.

Lemma Join_onto l s : names l → Join [render l; s] = render (lex l (split s)).
Proof. intros Hl. cbn [Join]. rewrite bool_decide_false by apply render_ne. exact (Clean_onto l s Hl). Qed.

Lemma Join_name l n : names l → name n → Join [render l; n] = render (l ++ [n]).
Proof.
  intros Hl Hn. rewrite Join_onto by done. f_equal. rewrite split_noslash by apply Hn.
  apply lex_names. by apply Forall_singleton.
Qed.

Lemma Dir_name l n : names l → name n → Dir (render (l ++ [n])) = render l.
Proof.
  intros Hl Hn. assert (names (l ++ [n])) as Hln by (apply Forall_app; by rewrite Forall_singleton).
  unfold Dir. rewrite split_render by done. destruct l as [|a l]; [done|].
  cbn [app]. change (""%string :: a :: l ++ [n]) with ((""%string :: a :: l) ++ [n]).
  rewrite removelast_last. change (join (""%string :: a :: l)) with (render (a :: l)).
  etrans; [exact (Clean_onto (a :: l) "" Hl)|]. f_equal. apply (lex_nil (a :: l)).
Qed.

(** *** Containment *)

Lemma below_spec base p rest : below base p = Some rest ↔ p = base ++ rest.
Proof.
  revert p. induction base as [|b base IH]; intros p; simpl.
  { split; [by intros [= ->]|by intros ->]. }
  destruct p as [|x p]; [done|]. case_bool_decide as Hb.
  - subst. rewrite IH. split; [by intros ->|by intros [= ->]].
  - split; [done|]. intros [= -> _]. done.
Qed.
