(* ===== verification/Utf8.v ===== *)
(** * Go strings as bytes and runes

    A Go string is a byte string.  [range], [[]rune(s)] and
    [utf8.RuneCountInString] decode it as UTF-8, one replacement rune (U+FFFD)
    per invalid byte; [string(runes)] encodes it back. *)
From S2P Require Import Prelude.
From Stdlib Require Import Ascii.
Local Open Scope Z_scope.

(** ** Definitions *)

Definition byte_of (c : ascii) : Z := Z.of_N (N_of_ascii c).
Definition ascii_of (b : Z) : ascii := ascii_of_N (Z.to_N b).

Fixpoint bytes (s : string) : list Z :=
  match s with
  | EmptyString => []
  | String c s' => byte_of c :: bytes s'
  end.

Fixpoint of_bytes (bs : list Z) : string :=
  match bs with
  | [] => EmptyString
  | b :: bs' => String (ascii_of b) (of_bytes bs')
  end.

Definition is_byte (b : Z) : Prop := 0 ≤ b < 256.

Definition rune_error : Z := 65533.

Definition between (lo hi b : Z) : bool := Z.leb lo b && Z.leb b hi.
Definition cont (b : Z) : bool := between 128 191 b.

(** The bounds on the second byte of a three- or four-byte sequence exclude
    overlong forms, surrogates and values past U+10FFFF. *)
Definition second3 (b0 b1 : Z) : bool :=
  if Z.eqb b0 224 then between 160 191 b1
  else if Z.eqb b0 237 then between 128 159 b1
  else between 128 191 b1.
Definition second4 (b0 b1 : Z) : bool :=
  if Z.eqb b0 240 then between 144 191 b1
  else if Z.eqb b0 244 then between 128 143 b1
  else between 128 191 b1.

(** [utf8.DecodeRune]: the rune and how many bytes it took; an invalid prefix
    is [RuneError] of width 1. *)
Definition decode_rune (bs : list Z) : option (Z * list Z) :=
  match bs with
  | [] => None
  | b0 :: r =>
      if between 0 127 b0 then Some (b0, r)
      else if between 194 223 b0 then
        match r with
        | b1 :: r1 => if cont b1 then Some ((b0 - 192) * 64 + (b1 - 128), r1)
                      else Some (rune_error, r)
        | [] => Some (rune_error, r)
        end
      else if between 224 239 b0 then
        match r with
        | b1 :: b2 :: r2 =>
            if second3 b0 b1 && cont b2
            then Some ((b0 - 224) * 4096 + (b1 - 128) * 64 + (b2 - 128), r2)
            else Some (rune_error, r)
        | _ => Some (rune_error, r)
        end
      else if between 240 244 b0 then
        match r with
        | b1 :: b2 :: b3 :: r3 =>
            if second4 b0 b1 && cont b2 && cont b3
            then Some ((b0 - 240) * 262144 + (b1 - 128) * 4096
                       + (b2 - 128) * 64 + (b3 - 128), r3)
            else Some (rune_error, r)
        | _ => Some (rune_error, r)
        end
      else Some (rune_error, r)
  end.

(** A Unicode scalar value. *)
Definition scalar (r : Z) : bool := between 0 55295 r || between 57344 1114111 r.

(** [utf8.AppendRune]: a value that is not a scalar encodes as U+FFFD. *)
Definition encode_rune (r : Z) : list Z :=
  if negb (scalar r) then [239; 191; 189]
  else if Z.leb r 127 then [r]
  else if Z.leb r 2047 then [192 + r / 64; 128 + r mod 64]
  else if Z.leb r 65535 then [224 + r / 4096; 128 + r / 64 mod 64; 128 + r mod 64]
  else [240 + r / 262144; 128 + r / 4096 mod 64; 128 + r / 64 mod 64; 128 + r mod 64].

(** Decoding a whole byte string; the fuel is its length. *)
Fixpoint decode_runes (fuel : nat) (bs : list Z) : list Z :=
  match fuel with
  | O => []
  | S fuel' =>
      match decode_rune bs with
      | None => []
      | Some (r, bs') => r :: decode_runes fuel' bs'
      end
  end.

(** [[]rune(s)] and [string(rs)]. *)
Definition runes (s : string) : list Z :=
  let bs := bytes s in decode_runes (length bs) bs.
Definition string_of_runes (rs : list Z) : string :=
  of_bytes (concat (map encode_rune rs)).

(** [utf8.RuneCountInString]. *)
Definition rune_count (s : string) : Z := Z.of_nat (length (runes s)).

(** ** Lemmas *)

Lemma byte_of_is_byte c : is_byte (byte_of c).
Proof.
  unfold is_byte, byte_of. pose proof (N_ascii_bounded c). lia.
Qed.

Lemma ascii_of_byte_of c : ascii_of (byte_of c) = c.
Proof. unfold ascii_of, byte_of. rewrite N2Z.id. apply ascii_N_embedding. Qed.

Lemma byte_of_ascii_of b : is_byte b → byte_of (ascii_of b) = b.
Proof.
  unfold is_byte, ascii_of, byte_of. intros Hb.
  rewrite N_ascii_embedding; lia.
Qed.

Lemma of_bytes_bytes s : of_bytes (bytes s) = s.
Proof. induction s as [|c s IH]; simpl; [done|]. by rewrite ascii_of_byte_of, IH. Qed.

Lemma bytes_of_bytes bs : Forall is_byte bs → bytes (of_bytes bs) = bs.
Proof.
  induction 1 as [|b bs Hb _ IH]; simpl; [done|]. by rewrite byte_of_ascii_of, IH.
Qed.

Lemma bytes_Forall s : Forall is_byte (bytes s).
Proof. induction s; simpl; constructor; auto using byte_of_is_byte. Qed.

Lemma bytes_app s t : bytes (s +:+ t) = bytes s ++ bytes t.
Proof. induction s as [|c s IH]; simpl; [done|]. by rewrite IH. Qed.

Lemma of_bytes_app bs cs : of_bytes (bs ++ cs) = of_bytes bs +:+ of_bytes cs.
Proof. induction bs as [|b bs IH]; simpl; [done|]. by rewrite IH. Qed.

Lemma between_spec lo hi b : between lo hi b = true ↔ lo ≤ b ≤ hi.
Proof. unfold between. rewrite andb_true_iff, !Z.leb_le. lia. Qed.

Lemma between_false lo hi b : between lo hi b = false ↔ ¬ (lo ≤ b ≤ hi).
Proof. rewrite <-between_spec. by destruct (between lo hi b). Qed.

Ltac utf8_bool :=
  repeat match goal with
  | H : negb _ = true |- _ => apply negb_true_iff in H
  | H : negb _ = false |- _ => apply negb_false_iff in H
  | H : _ && _ = true |- _ => apply andb_true_iff in H as [? ?]
  | H : _ && _ = false |- _ => apply andb_false_iff in H as [?|?]
  | H : _ || _ = true |- _ => apply orb_true_iff in H as [?|?]
  | H : _ || _ = false |- _ => apply orb_false_iff in H as [? ?]
  | H : between _ _ _ = true |- _ => apply between_spec in H
  | H : between _ _ _ = false |- _ => apply between_false in H
  | H : Z.leb _ _ = true |- _ => apply Z.leb_le in H
  | H : Z.leb _ _ = false |- _ => apply Z.leb_gt in H
  | H : Z.eqb _ _ = true |- _ => apply Z.eqb_eq in H
  | H : Z.eqb _ _ = false |- _ => apply Z.eqb_neq in H
  end.

Lemma encode_rune_bytes r : Forall is_byte (encode_rune r).
Proof.
  unfold encode_rune, scalar, is_byte.
  repeat case_match; utf8_bool; repeat constructor; try lia;
    Z.to_euclidean_division_equations; lia.
Qed.

Lemma string_of_runes_bytes rs :
  bytes (string_of_runes rs) = concat (map encode_rune rs).
Proof.
  unfold string_of_runes. apply bytes_of_bytes.
  induction rs as [|r rs IH]; simpl; [constructor|].
  apply Forall_app. auto using encode_rune_bytes.
Qed.

Lemma between_true_2 lo hi b : lo ≤ b ≤ hi → between lo hi b = true.
Proof. apply between_spec. Qed.
Lemma between_false_2 lo hi b : ¬ (lo ≤ b ≤ hi) → between lo hi b = false.
Proof. apply between_false. Qed.

(** Discharge the range tests of a decoder on bytes given by arithmetic. *)
Ltac decide_ranges :=
  repeat (first
    [ rewrite between_false_2 by (Z.to_euclidean_division_equations; lia)
    | rewrite between_true_2 by (Z.to_euclidean_division_equations; lia)
    | rewrite (proj2 (Z.eqb_neq _ _)) by (Z.to_euclidean_division_equations; lia)
    | rewrite (proj2 (Z.eqb_eq _ _)) by (Z.to_euclidean_division_equations; lia) ];
    simpl).

Lemma second3_encoded r :
  2048 ≤ r ≤ 65535 → scalar r = true →
  second3 (224 + r / 4096) (128 + r / 64 mod 64) = true.
Proof.
  intros Hr Hs. unfold second3, scalar in *.
  repeat case_match; utf8_bool; apply between_true_2;
    Z.to_euclidean_division_equations; lia.
Qed.

Lemma second4_encoded r :
  65536 ≤ r ≤ 1114111 →
  second4 (240 + r / 262144) (128 + r / 4096 mod 64) = true.
Proof.
  intros Hr. unfold second4.
  repeat case_match; utf8_bool; apply between_true_2;
    Z.to_euclidean_division_equations; lia.
Qed.

(** Decoding undoes encoding, whatever follows. *)
Lemma decode_encode_rune r bs :
  scalar r = true → decode_rune (encode_rune r ++ bs) = Some (r, bs).
Proof.
  intros Hs. unfold encode_rune. rewrite Hs. simpl.
  destruct (Z.leb r 127) eqn:H1; [|destruct (Z.leb r 2047) eqn:H2;
    [|destruct (Z.leb r 65535) eqn:H3]]; utf8_bool; simpl.
  - assert (0 ≤ r) by (unfold scalar in Hs; utf8_bool; lia).
    by rewrite between_true_2 by lia.
  - unfold cont. decide_ranges. do 2 f_equal. Z.to_euclidean_division_equations; lia.
  - assert (0 ≤ r) by lia. pose proof (second3_encoded r) as Hs3.
    unfold cont. decide_ranges. rewrite Hs3 by (done || lia). simpl.
    decide_ranges. do 2 f_equal. Z.to_euclidean_division_equations; lia.
  - assert (r ≤ 1114111) by (unfold scalar in Hs; utf8_bool; lia).
    pose proof (second4_encoded r) as Hs4.
    unfold cont. decide_ranges. rewrite Hs4 by lia. simpl.
    decide_ranges. do 2 f_equal. Z.to_euclidean_division_equations; lia.
Qed.

Lemma encode_rune_nonempty r : encode_rune r ≠ [].
Proof. unfold encode_rune. repeat case_match; done. Qed.

(** Every decoded rune is a scalar value and consumes at least one byte. *)
Lemma decode_rune_scalar bs r bs' :
  Forall is_byte bs → decode_rune bs = Some (r, bs') →
  scalar r = true ∧ (length bs' < length bs)%nat ∧ Forall is_byte bs'.
Proof.
  unfold decode_rune, cont, second3, second4, rune_error, scalar, is_byte. intros Hb Hd.
  destruct bs as [|b0 bs]; [done|].
  repeat match goal with
  | H : context [match ?x with _ => _ end] |- _ => destruct x eqn:?; simplify_eq
  end; rewrite ?Forall_cons in *; destruct_and?; split_and!; simpl; try lia;
  try assumption; try reflexivity; utf8_bool; apply orb_true_iff; rewrite !between_spec; lia.
Qed.

Lemma decode_runes_scalar fuel bs :
  Forall is_byte bs → Forall (λ r, scalar r = true) (decode_runes fuel bs).
Proof.
  revert bs. induction fuel as [|fuel IH]; intros bs Hb; simpl; [constructor|].
  destruct (decode_rune bs) as [[r bs']|] eqn:Hd; [|constructor].
  apply decode_rune_scalar in Hd as (? & ? & ?); [|done]. constructor; auto.
Qed.

Lemma runes_scalar s : Forall (λ r, scalar r = true) (runes s).
Proof. apply decode_runes_scalar, bytes_Forall. Qed.

Lemma decode_runes_encode rs fuel :
  Forall (λ r, scalar r = true) rs →
  (length (concat (map encode_rune rs)) ≤ fuel)%nat →
  decode_runes fuel (concat (map encode_rune rs)) = rs.
Proof.
  intros Hs. revert fuel. induction Hs as [|r rs Hr Hs IH]; intros fuel Hf; simpl in *.
  { by destruct fuel. }
  rewrite length_app in Hf.
  assert (length (encode_rune r) ≠ 0%nat).
  { pose proof (encode_rune_nonempty r). by destruct (encode_rune r). }
  destruct fuel as [|fuel]; [lia|]. simpl. rewrite decode_encode_rune by done.
  f_equal. apply IH. lia.
Qed.

(** [[]rune(string(rs)) = rs] for scalar values. *)
Lemma runes_string_of_runes rs :
  Forall (λ r, scalar r = true) rs → runes (string_of_runes rs) = rs.
Proof.
  intros Hs. unfold runes. rewrite string_of_runes_bytes.
  by apply decode_runes_encode.
Qed.

(** Valid UTF-8: the strings [string(rs)] produces. *)
Definition valid_utf8 (s : string) : Prop := string_of_runes (runes s) = s.

Lemma valid_utf8_of_runes rs :
  Forall (λ r, scalar r = true) rs → valid_utf8 (string_of_runes rs).
Proof. intros Hs. unfold valid_utf8. by rewrite runes_string_of_runes. Qed.

Lemma string_of_runes_app rs rs' :
  string_of_runes (rs ++ rs') = string_of_runes rs +:+ string_of_runes rs'.
Proof. unfold string_of_runes. by rewrite map_app, concat_app, of_bytes_app. Qed.

Lemma valid_utf8_app a b : valid_utf8 a → valid_utf8 b → valid_utf8 (a +:+ b).
Proof.
  intros <- <-. rewrite <-string_of_runes_app. apply valid_utf8_of_runes.
  apply Forall_app. split; apply runes_scalar.
Qed.

(** ** Trimming *)

(** The UTF-8 encodings of unicode.IsSpace. *)
Definition space_encodings : list (list Z) :=
  map encode_rune ([9; 10; 11; 12; 13; 32; 133; 160; 5760] ++ [8192; 8193; 8194; 8195; 8196; 8197;
    8198; 8199; 8200; 8201; 8202; 8232; 8233; 8239; 8287; 12288]).

Fixpoint strip_prefix (p bs : list Z) : option (list Z) :=
  match p, bs with
  | [], _ => Some bs
  | x :: p', b :: bs' => if Z.eqb x b then strip_prefix p' bs' else None
  | _ :: _, [] => None
  end.

(** Without one leading encoding of the list. *)
Fixpoint strip_any (ps : list (list Z)) (bs : list Z) : option (list Z) :=
  match ps with
  | [] => None
  | p :: ps' => match strip_prefix p bs with Some r => Some r | None => strip_any ps' bs end
  end.

Fixpoint trim_left (fuel : nat) (ps : list (list Z)) (bs : list Z) : list Z :=
  match fuel with
  | O => bs
  | S fuel' => match strip_any ps bs with Some r => trim_left fuel' ps r | None => bs end
  end.

(** [strings.TrimSpace]: a space at the end is one whose encoding ends the
    string.  Every round removes a byte at least. *)
Definition TrimSpace (s : string) : string :=
  let bs := bytes s in
  let l := trim_left (length bs) space_encodings bs in
  of_bytes (rev (trim_left (length l) (map (@rev Z) space_encodings) (rev l))).

Example TrimSpace_ex :
  TrimSpace (of_bytes ([32; 194; 160] ++ bytes "a b" ++ [227; 128; 128; 10])) = "a b"%string.
Proof. vm_compute. reflexivity. Qed.

(** Bytes that no space encoding starts, and none ends, with. *)
Lemma strip_any_None ps b bs :
  Forall (λ p, hd_error p ≠ Some b ∧ p ≠ []) ps → strip_any ps (b :: bs) = None.
Proof.
  induction 1 as [|p ps [Hp Hn] _ IH]; [done|]. simpl. destruct p as [|x p]; [done|]. simpl.
  rewrite (proj2 (Z.eqb_neq x b)); [done|]. simpl in Hp. congruence.
Qed.

(** A string of ASCII graphic bytes is trimmed to itself. *)
Lemma TrimSpace_graphic s : Forall (λ b, 33 ≤ b ≤ 126) (bytes s) → TrimSpace s = s.
Proof.
  intros Hg. unfold TrimSpace. set (bs := bytes s) in *.
  assert (Hfirst : ∀ ps, forallb (λ p, match p with x :: _ => Z.ltb x 33 || Z.ltb 126 x | [] => false end) ps = true →
    ∀ b, 33 ≤ b ≤ 126 → Forall (λ p, hd_error p ≠ Some b ∧ p ≠ []) ps).
  { intros ps Hps b Hb. apply Forall_forall. intros p Hp%list_elem_of_In. rewrite forallb_forall in Hps.
    specialize (Hps p Hp). destruct p as [|x p]; [done|]. split; [|done]. intros [= ->].
    apply orb_true_iff in Hps as [?%Z.ltb_lt|?%Z.ltb_lt]; lia. }
  pose proof (Hfirst space_encodings eq_refl) as Hsp.
  pose proof (Hfirst (map (@rev Z) space_encodings) eq_refl) as Hspr.
  assert (Hid : ∀ ps l, (∀ b, 33 ≤ b ≤ 126 → Forall (λ p, hd_error p ≠ Some b ∧ p ≠ []) ps) →
     Forall (λ b, 33 ≤ b ≤ 126) l → ∀ n, trim_left n ps l = l).
  { intros ps l Hps Hl n. destruct n as [|n]; [done|]. cbn [trim_left].
    destruct l as [|b l].
    - destruct (strip_any ps []) eqn:Hs; [|done]. exfalso.
      specialize (Hps 33 ltac:(lia)). revert Hs. induction Hps as [|p ps [Hp Hn] _ IH]; [done|].
      simpl. destruct p; [done|]. simpl. auto.
    - rewrite strip_any_None; [done|]. apply Hps. by inversion Hl. }
  rewrite (Hid _ bs Hsp Hg). rewrite (Hid _ (rev bs) Hspr) by (by apply Forall_rev).
  rewrite rev_involutive. apply of_bytes_bytes.
Qed.

(** ** Lower case and substrings *)

(** [strings.ToLower] as far as ASCII results go: the letters, and the two
    runes outside ASCII whose lower case is inside it. *)
Definition lower_rune (r : Z) : Z :=
  if between 65 90 r then r + 32
  else if Z.eqb r 304 then 105
  else if Z.eqb r 8490 then 107
  else r.
Definition lower_runes (s : string) : list Z := map lower_rune (runes s).

(** [strings.Contains] of an ASCII needle, on the runes. *)
Fixpoint contains (needle rs : list Z) : bool :=
  match strip_prefix needle rs with
  | Some _ => true
  | None => match rs with [] => false | _ :: rs' => contains needle rs' end
  end.
