(* ===== verification/Migrate.v ===== *)
(** * Schema migrations and opening the store
    (src/internal/store/migrate.go, store.go)

    SQLite is outside the source.  A database is its schema version (the header
    field user_version) and its content, of any type; [effects] says what
    running a text does, statement by statement: it changes the content, moves
    the version, or begins, commits or rolls back a transaction.  The runner
    itself is modelled whole: which files it takes, the pending set, the
    sentinel, the guard after every script, the unwinding.  Any call may fail,
    and a failed script may have run up to any point. *)
From S2P Require Import Prelude Utf8.
Local Open Scope Z_scope.

(** ** The files *)

(** The literal [lit], and what follows it. *)
Definition is_digit (b : Z) : bool := between 48 57 b.

(** What precedes the first dot, and the rest from it on. *)
Fixpoint to_dot (bs : list Z) : list Z * list Z :=
  match bs with
  | [] => ([], [])
  | b :: bs' => if Z.eqb b 46 then ([], bs) else let '(m, r) := to_dot bs' in (b :: m, r)
  end.

(** migrationName: four digits, an underscore, a description without a dot,
    .sql; the number is the digits'. *)
Definition migration_number (file : string) : option Z :=
  match bytes file with
  | a :: b :: c :: d :: u :: rest =>
      if is_digit a && is_digit b && is_digit c && is_digit d && Z.eqb u 95 then
        match to_dot rest with
        | (_ :: _, ext) =>
            if bool_decide (ext = bytes ".sql")
            then Some ((a - 48) * 1000 + (b - 48) * 100 + (c - 48) * 10 + (d - 48)) else None
        | _ => None
        end
      else None
  | _ => None
  end.

(** The (?i) folding of the literal's letters. *)
Definition fold_rune (r : Z) : Z :=
  if between 65 90 r then r + 32 else if Z.eqb r 383 then 115 else r.

(** forbiddenUserVersion *)
Definition mentions_version (sql : string) : bool :=
  contains (bytes "user_version") (map fold_rune (runes sql)).

Record migration : Type := MkMigration {
  mg_number : Z;
  mg_name : string;
  mg_sql : string;
}.

Inductive migrate_err : Type :=
| MBadName (file : string)
| MUnreadable (file : string)
| MMentionsVersion (file : string)
| MDuplicate
| MGap
| MTooNew
| MCanceled
| MPoolOfOne
| MSQL
| MRolledBack (name : string)
| MCommitted (name : string).

(** The loop over the directory, [None] for a file that cannot be read. *)
Fixpoint read_migrations (files : list (string * option string)) : result migrate_err (list migration) :=
  match files with
  | [] => Ok []
  | (file, contents) :: files' =>
      match migration_number file with
      | None => Err (MBadName file)
      | Some number =>
          match contents with
          | None => Err (MUnreadable file)
          | Some sql =>
              if mentions_version sql then Err (MMentionsVersion file)
              else match read_migrations files' with
                   | Ok ms => Ok (MkMigration number file sql :: ms)
                   | Err e => Err e
                   end
          end
      end
  end.

Definition number_le (a b : migration) : Prop := mg_number a ≤ mg_number b.
#[global] Instance number_le_dec : RelDecision number_le := λ a b, Z.le_dec (mg_number a) (mg_number b).
#[global] Instance number_le_total : Total number_le.
Proof. intros a b. unfold number_le. lia. Qed.
#[global] Instance number_le_trans : Transitive number_le.
Proof. intros a b c. unfold number_le. lia. Qed.

(** The check of the sorted numbers: no repetition, no gap. *)
Fixpoint check_numbers (i : Z) (ms : list migration) : result migrate_err unit :=
  match ms with
  | [] => Ok tt
  | m :: ms' =>
      if Z.ltb 0 i && Z.eqb (mg_number m) i then Err MDuplicate
      else if negb (Z.eqb (mg_number m) (i + 1)) then Err MGap
      else check_numbers (i + 1) ms'
  end.

Definition loadMigrations (files : list (string * option string)) : result migrate_err (list migration) :=
  match read_migrations files with
  | Err e => Err e
  | Ok ms =>
      let ms := merge_sort number_le ms in
      match check_numbers 0 ms with
      | Ok _ => Ok ms
      | Err e => Err e
      end
  end.

Lemma check_numbers_seqZ i ms :
  0 ≤ i → check_numbers i ms = Ok tt → map mg_number ms = seqZ (i + 1) (Z.of_nat (length ms)).
Proof.
  revert i. induction ms as [|m ms IH]; intros i Hi H; [done|]. simpl in H.
  destruct (_ && _); [done|]. destruct (Z.eqb_spec (mg_number m) (i + 1)) as [E|]; [simpl in H|done].
  apply IH in H; [|lia]. rewrite seqZ_cons by (simpl; lia). simpl. rewrite E, H.
  f_equal. f_equal; lia.
Qed.

Lemma read_migrations_spec files ms :
  read_migrations files = Ok ms →
  Forall2 (λ f m, migration_number f.1 = Some (mg_number m) ∧ f.1 = mg_name m ∧ f.2 = Some (mg_sql m)
                  ∧ mentions_version (mg_sql m) = false) files ms.
Proof.
  revert ms. induction files as [|[file contents] files IH]; intros ms H; simplify_eq/=; [constructor|].
  repeat case_match; simplify_eq/=. constructor; auto.
Qed.

(** The loaded set: every file, once, numbered from 1 without a gap, none
    naming user_version. *)
Lemma loadMigrations_spec files ms :
  loadMigrations files = Ok ms →
  map mg_number ms = seqZ 1 (Z.of_nat (length ms))
  ∧ Forall (λ m, mentions_version (mg_sql m) = false) ms
  ∧ map (λ m, (mg_name m, Some (mg_sql m))) ms ≡ₚ files.
Proof.
  unfold loadMigrations. intros H. destruct (read_migrations files) as [l|] eqn:Hl; [|done].
  destruct (check_numbers 0 _) as [[]|] eqn:Hn; simplify_eq/=.
  apply read_migrations_spec in Hl. assert (Hp := merge_sort_Permutation number_le l).
  split; [by apply check_numbers_seqZ in Hn|]. split.
  - rewrite Hp. clear Hp Hn. induction Hl as [|???? (_ & _ & _ & ?)]; by constructor.
  - rewrite Hp. apply reflexive_eq. clear Hp Hn.
    induction Hl as [|[] ??? (_ & ? & ? & _)]; simplify_eq/=; [done|]. by f_equal.
Qed.

Definition newest (ms : list migration) : Z := List.last (map mg_number ms) 0.

Definition pending_of (version : Z) (ms : list migration) : list migration :=
  List.filter (λ m, Z.ltb version (mg_number m)) ms.

Lemma newest_app l m : newest (l ++ [m]) = mg_number m.
Proof. unfold newest. rewrite map_app. apply List.last_last. Qed.

Lemma pending_none v ms : Forall (λ m, mg_number m ≤ v) ms → pending_of v ms = [].
Proof.
  induction 1 as [|m ms Hm _ IH]; [done|]. unfold pending_of in *. simpl.
  destruct (Z.ltb_spec v (mg_number m)); [lia|done].
Qed.

Lemma newest_length ms :
  map mg_number ms = seqZ 1 (Z.of_nat (length ms)) → newest ms = Z.of_nat (length ms).
Proof.
  destruct ms as [|m ms _] using rev_ind; [done|]. rewrite newest_app, map_app, length_app, Nat2Z.inj_add.
  rewrite seqZ_app by lia. intros H. apply app_inj_2 in H as [_ H]; [|done]. simpl in H. injection H as H. simpl. lia.
Qed.

Lemma pending_newest ms :
  map mg_number ms = seqZ 1 (Z.of_nat (length ms)) → pending_of (newest ms) ms = [].
Proof.
  intros Hseq. apply pending_none, (Forall_map mg_number (λ n, n ≤ newest ms)).
  change (Forall (λ n, n ≤ newest ms) (map mg_number ms)). rewrite newest_length by done. rewrite Hseq.
  apply Forall_seqZ. lia.
Qed.

(** A pending set that is not empty ends where the whole set ends. *)
Lemma newest_pending v ms :
  map mg_number ms = seqZ 1 (Z.of_nat (length ms)) → pending_of v ms ≠ [] → newest (pending_of v ms) = newest ms.
Proof.
  destruct ms as [|m l _] using rev_ind; [done|]. intros Hseq Hne.
  unfold pending_of in *. rewrite List.filter_app in *. simpl in *.
  destruct (Z.ltb_spec v (mg_number m)); [by rewrite !newest_app|]. exfalso. apply Hne. rewrite app_nil_r.
  rewrite map_app, length_app, Nat2Z.inj_add in Hseq. simpl in Hseq. rewrite seqZ_app in Hseq by lia.
  apply app_inj_2 in Hseq as [Hseq Hm]; [|done]. simpl in Hm. injection Hm as Hm.
  apply pending_none, (Forall_map mg_number (λ n, n ≤ v)). change (Forall (λ n, n ≤ v) (map mg_number l)).
  rewrite Hseq. apply Forall_seqZ. lia.
Qed.

(** ** The connections *)

Section migrate.
Context {C : Type}.

Inductive sql_effect : Type :=
| EffWrite (f : C → option C)      (* [None]: the statement is an error *)
| EffVersion (n : Z)
| EffBegin
| EffCommit
| EffRollback.

Context (effects : string → list sql_effect).

(** What the observer sees, and the batch connection's transaction if it has
    one open. *)
Record conn : Type := Conn {
  cn_committed : Z * C;
  cn_open : option (Z * C);
}.

Definition view (s : conn) : Z * C := default (cn_committed s) (cn_open s).

(** One statement of the batch connection; [None] is its error. *)
Definition effect (e : sql_effect) (s : conn) : option conn :=
  let put x := match cn_open s with
               | Some _ => Conn (cn_committed s) (Some x)
               | None => Conn x None
               end in
  match e, cn_open s with
  | EffWrite f, _ => (λ c, put ((view s).1, c)) <$> f (view s).2
  | EffVersion n, _ => Some (put (n, (view s).2))
  | EffBegin, None => Some (Conn (cn_committed s) (Some (cn_committed s)))
  | EffCommit, Some x => Some (Conn x None)
  | EffRollback, Some _ => Some (Conn (cn_committed s) None)
  | _, _ => None
  end.

(** A text's statements in order, to the first error. *)
Fixpoint run_effects (es : list sql_effect) (s : conn) : bool * conn :=
  match es with
  | [] => (true, s)
  | e :: es' => match effect e s with Some s' => run_effects es' s' | None => (false, s) end
  end.

(** The faults of the calls to come: how many statements of the failed call
    took effect, and whether SQLite then rolled the transaction back. *)
Definition MigM (A : Type) : Type := M (conn * list (option (nat * bool))) migrate_err A.
#[local] Instance MigM_ret : MRet MigM := λ A, @M_ret _ migrate_err A.
#[local] Instance MigM_bind : MBind MigM := λ A B, @M_bind _ migrate_err A B.

(** conn.ExecContext of a text with these statements. *)
Definition exec (es : list sql_effect) : MigM unit := λ '(s, fs),
  match fs with
  | Some (k, unwound) :: fs' =>
      let s' := (run_effects (take k es) s).2 in
      (Err MSQL, (if unwound : bool then Conn (cn_committed s') None else s', fs'))
  | _ =>
      let '(ok, s') := run_effects es s in
      ((if ok : bool then Ok tt else Err MSQL), (s', List.tl fs))
  end.

(** QueryRowContext(PRAGMA user_version) on the batch connection, and on the
    observer. *)
Definition read_version (look : conn → Z) : MigM Z := λ '(s, fs),
  ((if fs is Some _ :: _ then Err MSQL else Ok (look s)), (s, List.tl fs)).
Definition own_version : MigM Z := read_version (λ s, (view s).1).
Definition committed_version : MigM Z := read_version (λ s, (cn_committed s).1).

Definition versionSentinel : Z := -1.

Definition requireBatchTransaction (name : string) : MigM unit :=
  own ← own_version;
  if negb (Z.eqb own versionSentinel) then fail (MRolledBack name)
  else
    committed ← committed_version;
    if Z.eqb committed versionSentinel then fail (MCommitted name) else mret tt.

Fixpoint apply_all (ms : list migration) : MigM unit :=
  match ms with
  | [] => mret tt
  | m :: ms' =>
      _ ← exec (effects (mg_sql m));
      _ ← requireBatchTransaction (mg_name m);
      apply_all ms'
  end.

Definition applyPending (ms : list migration) : MigM unit :=
  version ← own_version;
  if Z.ltb (newest ms) version then fail MTooNew
  else
    match pending_of version ms with
    | [] => mret tt
    | pending =>
        _ ← exec [EffVersion versionSentinel];
        _ ← apply_all pending;
        exec [EffVersion (newest pending)]
    end.

(** ROLLBACK on a fresh context; a connection that cannot is discarded, which
    rolls back whatever it holds. *)
Definition rollback : MigM unit := λ s,
  let '(_, (s, fs)) := exec [EffRollback] s in (Ok tt, (Conn (cn_committed s) None, fs)).

(** [if err != nil { return errors.Join(err, rollback(conn)) }] *)
Definition or_rollback (m : MigM unit) : MigM unit :=
  r ← try m;
  match r with
  | Ok _ => mret tt
  | Err e => _ ← rollback; fail e
  end.

(** The batch on the connection, and [released]: both connections were given
    back, which the deferred closes do whatever the outcome. *)
Definition migrate_conn (released : bool) (ms : list migration) : MigM unit :=
  _ ← exec [EffBegin];
  _ ← or_rollback (applyPending ms);
  _ ← or_rollback (exec [EffCommit]);
  if released then mret tt else fail MSQL.

(** [gate]: the process's migration gate was free before the context ended;
    [pool]: MaxOpenConnections, 0 for no limit; [conns]: both connections were
    had. *)
Definition migrate (gate : bool) (pool : Z) (conns released : bool)
    (files : list (string * option string)) : MigM unit :=
  match loadMigrations files with
  | Err e => fail e
  | Ok ms =>
      if negb gate then fail MCanceled
      else if Z.eqb pool 1 then fail MPoolOfOne
      else if negb conns then fail MSQL
      else migrate_conn released ms
  end.

(** ** What a batch is *)

Definition is_write (e : sql_effect) : bool := if e is EffWrite _ then true else false.
Definition is_version (e : sql_effect) : bool := if e is EffVersion _ then true else false.

(** The content after a text that only writes; [None] if it does anything else
    or a statement is an error. *)
Fixpoint writes (es : list sql_effect) (c : C) : option C :=
  match es with
  | [] => Some c
  | EffWrite f :: es' => f c ≫= writes es'
  | _ => None
  end.

Fixpoint batch (ms : list migration) (c : C) : option C :=
  match ms with
  | [] => Some c
  | m :: ms' => writes (effects (mg_sql m)) c ≫= batch ms'
  end.

(** What a database becomes: itself when nothing is pending, the pending
    scripts' content under the newest number otherwise. *)
Definition upgraded (ms : list migration) (d : Z * C) : option (Z * C) :=
  match pending_of d.1 ms with
  | [] => Some d
  | p => pair (newest ms) <$> batch p d.2
  end.

Implicit Types (s : conn) (es : list sql_effect) (ms : list migration).

Lemma run_writes es d v c c' :
  writes es c = Some c' → run_effects es (Conn d (Some (v, c))) = (true, Conn d (Some (v, c'))).
Proof.
  revert c. induction es as [|[f| | | |] es IH]; intros c H; simplify_eq/=; [done|].
  destruct (f c) as [x|]; simplify_eq/=. by apply IH.
Qed.

(** A text that only writes leaves what the observer sees, and the version. *)
Lemma run_only_writes es d v c :
  forallb is_write es = true →
  ∃ c', (run_effects es (Conn d (Some (v, c)))).2 = Conn d (Some (v, c')).
Proof.
  revert c. induction es as [|[f| | | |] es IH]; intros c H; simplify_eq/=; [by eexists|].
  destruct (f c) as [x|]; simpl; [by apply IH|by eexists].
Qed.

Lemma effect_keeps_version (P : Z → Prop) e s s' :
  is_version e = false → P (cn_committed s).1 → P (view s).1 → effect e s = Some s' →
  P (cn_committed s').1 ∧ P (view s').1.
Proof.
  destruct s as [d o]. intros He Hc Ho. destruct e as [f| | | |], o as [[]|]; simplify_eq/=.
  all: unfold view; simpl; try destruct (f _); intros; simplify_eq/=; auto.
Qed.

(** Versions never change under such texts: both stay where they were, or one
    takes the other's value. *)
Lemma run_keeps_version (P : Z → Prop) es s :
  forallb (negb ∘ is_version) es = true → P (cn_committed s).1 → P (view s).1 →
  P (cn_committed (run_effects es s).2).1 ∧ P (view (run_effects es s).2).1.
Proof.
  revert s. induction es as [|e es IH]; intros s H Hc Ho; [done|]. simpl in H |- *.
  apply andb_true_iff in H as [He%negb_true_iff H].
  destruct (effect e s) as [s'|] eqn:E; [|done].
  destruct (effect_keeps_version P e s s') as [? ?]; auto.
Qed.

(** The guard is complete: a text after which the batch connection still sees
    the sentinel and the observer does not has only written, inside the batch. *)
Lemma sentinel_guard es v0 c0 c s' :
  forallb (negb ∘ is_version) es = true →
  run_effects es (Conn (v0, c0) (Some (versionSentinel, c))) = (true, s') →
  (view s').1 = versionSentinel → (cn_committed s').1 ≠ versionSentinel →
  ∃ c', writes es c = Some c' ∧ s' = Conn (v0, c0) (Some (versionSentinel, c')).
Proof.
  revert c. induction es as [|e es IH]; intros c H Hrun Hown Hobs; simplify_eq/=; [by eexists|].
  apply andb_true_iff in H as [He H].
  destruct e as [f|n| | |]; simplify_eq/=.
  - destruct (f c) as [x|]; simplify_eq/=. by apply IH.
  - destruct (run_keeps_version (λ v, v = versionSentinel) es (Conn (versionSentinel, c) None)) as [Hc _]; [done..|].
    rewrite Hrun in Hc. done.
  - destruct (run_keeps_version (λ v, v = v0) es (Conn (v0, c0) None)) as [Hc Hv]; [done..|].
    rewrite Hrun in Hc, Hv. simpl in *. congruence.
Qed.

Context (effects_version : ∀ sql, mentions_version sql = false → forallb (negb ∘ is_version) (effects sql) = true).

(** Any outcome of a call whose statements keep [P] of what is there. *)
Lemma exec_keeps (P : conn → Prop) es s fs r s' fs' :
  exec es (s, fs) = (r, (s', fs')) →
  (∀ k, P (run_effects (take k es) s).2) → (∀ t, P t → P (Conn (cn_committed t) None)) → P s'.
Proof.
  intros H HP Hnone. assert (Hall : P (run_effects es s).2).
  { rewrite <- (firstn_all es). apply HP. }
  unfold exec in H. destruct fs as [|[[k [|]]|] fs]; simplify_eq/=; auto.
  all: destruct (run_effects es s) as [[|] t]; by simplify_eq/=.
Qed.

Lemma exec_Ok es s fs u s' fs' :
  exec es (s, fs) = (Ok u, (s', fs')) → run_effects es s = (true, s').
Proof.
  unfold exec. intros H. destruct fs as [|[[k [|]]|] fs]; simplify_eq/=.
  all: destruct (run_effects es s) as [[|] t]; by simplify_eq/=.
Qed.

Lemma exec_fine es s s' : run_effects es s = (true, s') → exec es (s, []) = (Ok tt, (s', [])).
Proof. intros H. unfold exec. by rewrite H. Qed.

Lemma exec_Err es s fs e x : exec es (s, fs) = (Err e, x) → e = MSQL.
Proof.
  unfold exec. intros H. destruct fs as [|[[k [|]]|] fs]; simplify_eq/=; try done.
  all: destruct (run_effects es s) as [[|] t]; by simplify_eq/=.
Qed.

(** The guard's two readings move nothing. *)
Lemma requireBatchTransaction_inv name s fs r s' fs' :
  requireBatchTransaction name (s, fs) = (r, (s', fs')) →
  s' = s ∧ (r = Ok tt → (view s).1 = versionSentinel ∧ (cn_committed s).1 ≠ versionSentinel)
  ∧ r ≠ Err MTooNew.
Proof.
  unfold requireBatchTransaction, own_version, committed_version, read_version, mbind, MigM_bind, M_bind, mret, MigM_ret, M_ret, fail.
  intros H. repeat (case_match; simplify_eq/=).
  all: repeat match goal with
       | H : negb _ = false |- _ => apply negb_false_iff in H
       | H : Z.eqb _ _ = true |- _ => apply Z.eqb_eq in H
       | H : Z.eqb _ _ = false |- _ => apply Z.eqb_neq in H
       end.
  all: by repeat split.
Qed.

Definition in_batch (d : Z * C) (c : C) : conn := Conn d (Some (versionSentinel, c)).

Definition clean (ms : list migration) : Prop := Forall (λ m, mentions_version (mg_sql m) = false) ms.
Definition only_writes (ms : list migration) : bool := forallb (λ m, forallb is_write (effects (mg_sql m))) ms.

(** The scripts all ran inside the batch, or the run failed. *)
Lemma apply_all_Ok ms d c fs u s' fs' :
  clean ms → apply_all ms (in_batch d c, fs) = (Ok u, (s', fs')) →
  ∃ c', batch ms c = Some c' ∧ s' = in_batch d c'.
Proof.
  intros Hms. revert c fs. induction Hms as [|m ms Hm _ IH]; intros c fs H; [injection H as _ <- _; by eexists|].
  simpl in H. apply bind_inv in H as [([] & [s1 fs1] & H1 & H)|(e & _ & [=])].
  apply bind_inv in H as [([] & [s2 fs2] & H2 & H)|(e & _ & [=])].
  apply requireBatchTransaction_inv in H2 as (-> & HOk & _). destruct (HOk eq_refl) as [Hown Hobs].
  destruct d as [v0 c0]. apply exec_Ok in H1.
  destruct (sentinel_guard (effects (mg_sql m)) v0 c0 c s1) as (c1 & Hw & ->); [by auto..|].
  apply IH in H as (c' & Hb & ->). exists c'. simpl. by rewrite Hw.
Qed.

Lemma forallb_take {A} (p : A → bool) k l : forallb p l = true → forallb p (take k l) = true.
Proof. rewrite !forallb_forall. intros H x Hx. apply H. rewrite <- (take_drop k l). apply in_or_app. by left. Qed.

(** Whatever fails, scripts that only write reach nothing outside the batch. *)
Lemma apply_all_Err ms d c fs e s' fs' :
  clean ms → apply_all ms (in_batch d c, fs) = (Err e, (s', fs')) →
  e ≠ MTooNew ∧ (only_writes ms = true → cn_committed s' = d).
Proof.
  intros Hms. revert c fs. induction Hms as [|m ms Hm _ IH]; intros c fs H; [done|]. simpl in H.
  assert (Hstep : ∀ r s1 fs1, exec (effects (mg_sql m)) (in_batch d c, fs) = (r, (s1, fs1)) →
    forallb is_write (effects (mg_sql m)) = true → cn_committed s1 = d).
  { intros r s1 fs1 H1 Hw. apply (exec_keeps (λ s, cn_committed s = d)) in H1; [done| |by intros [] ?].
    intros k. apply (forallb_take _ k) in Hw. unfold in_batch. by destruct (run_only_writes _ d versionSentinel c Hw) as [c' ->]. }
  apply bind_inv in H as [([] & [s1 fs1] & H1 & H)|(e' & H1 & [= ->])].
  2: { split; [by apply exec_Err in H1 as ->|]. intros [Hw _]%andb_true_iff. eauto. }
  apply bind_inv in H as [([] & [s2 fs2] & H2 & H)|(e' & H2 & [= ->])].
  2: { apply requireBatchTransaction_inv in H2 as (-> & _ & Hn). split; [congruence|].
       intros [Hw _]%andb_true_iff. eauto. }
  apply requireBatchTransaction_inv in H2 as (-> & HOk & _). destruct (HOk eq_refl) as [Hown Hobs].
  destruct d as [v0 c0]. apply exec_Ok in H1.
  destruct (sentinel_guard (effects (mg_sql m)) v0 c0 c s1) as (c1 & _ & ->); [by auto..|].
  destruct (IH c1 fs2 H) as [? Hd]. split; [done|]. intros [_ Hw]%andb_true_iff. auto.
Qed.

Lemma upgraded_again ms d d' :
  map mg_number ms = seqZ 1 (Z.of_nat (length ms)) → upgraded ms d = Some d' → upgraded ms d' = Some d'.
Proof.
  intros Hseq. unfold upgraded.
  destruct (pending_of d.1 ms) as [|m p] eqn:Hp; intros H; simplify_eq/=; [by rewrite Hp|].
  destruct (writes _ _ ≫= _); simplify_eq/=. by rewrite pending_newest.
Qed.

Lemma clean_pending v ms : clean ms → clean (pending_of v ms).
Proof. unfold clean. rewrite !Forall_forall. intros H m [? _]%list_elem_of_In%filter_In. by apply H, list_elem_of_In. Qed.

Lemma only_writes_pending v ms : only_writes ms = true → only_writes (pending_of v ms) = true.
Proof. unfold only_writes. rewrite !forallb_forall. intros H m [? _]%filter_In. auto. Qed.

Lemma applyPending_Ok ms v0 c0 fs u s' fs' :
  clean ms → map mg_number ms = seqZ 1 (Z.of_nat (length ms)) →
  applyPending ms (Conn (v0, c0) (Some (v0, c0)), fs) = (Ok u, (s', fs')) →
  v0 ≤ newest ms ∧ ∃ d', upgraded ms (v0, c0) = Some d' ∧ s' = Conn (v0, c0) (Some d').
Proof.
  intros Hms Hseq H. unfold applyPending in H.
  apply bind_inv in H as [(v & [s1 fs1] & H1 & H)|(e & _ & [=])].
  assert (v = v0 ∧ s1 = Conn (v0, c0) (Some (v0, c0))) as [-> ->].
  { unfold own_version, read_version in H1. by repeat (case_match; simplify_eq/=). }
  destruct (Z.ltb_spec (newest ms) v0); [done|]. split; [done|]. unfold upgraded. cbn [fst snd].
  assert (Hnew := newest_pending v0 ms Hseq). assert (Hcl := clean_pending v0 ms Hms).
  destruct (pending_of v0 ms) as [|m p]; [injection H as _ <- _; by eexists|].
  apply bind_inv in H as [([] & [s2 fs2] & H2 & H)|(e & _ & [=])]. apply exec_Ok in H2. injection H2 as <-.
  apply bind_inv in H as [([] & [s3 fs3] & H3 & H)|(e & _ & [=])].
  apply apply_all_Ok in H3 as (c' & Hb & ->); [|done]. apply exec_Ok in H. injection H as <-.
  rewrite Hb, Hnew by done. simpl. by eexists.
Qed.

Lemma applyPending_Err ms v0 c0 fs e s' fs' :
  clean ms → applyPending ms (Conn (v0, c0) (Some (v0, c0)), fs) = (Err e, (s', fs')) →
  (e = MTooNew → newest ms < v0 ∧ cn_committed s' = (v0, c0))
  ∧ (only_writes ms = true → cn_committed s' = (v0, c0)).
Proof.
  intros Hms H. unfold applyPending in H.
  apply bind_inv in H as [(v & [s1 fs1] & H1 & H)|(e' & H1 & [= ->])].
  2: { unfold own_version, read_version in H1. by repeat (case_match; simplify_eq/=). }
  assert (v = v0 ∧ s1 = Conn (v0, c0) (Some (v0, c0))) as [-> ->].
  { unfold own_version, read_version in H1. by repeat (case_match; simplify_eq/=). }
  destruct (Z.ltb_spec (newest ms) v0); [by injection H as <- <- _|].
  assert (Hcl := clean_pending v0 ms Hms). assert (Hw := only_writes_pending v0 ms).
  destruct (pending_of v0 ms) as [|m p]; [done|].
  assert (Hmark : ∀ n x fs r s1 fs1,
    exec [EffVersion n] (Conn (v0, c0) (Some x), fs) = (r, (s1, fs1)) → cn_committed s1 = (v0, c0)).
  { intros n x fs0 r s1 fs2 H2. apply (exec_keeps (λ s, cn_committed s = (v0, c0))) in H2; [done| |by intros [] ?].
    by intros [|[|k]]. }
  apply bind_inv in H as [([] & [s2 fs2] & H2 & H)|(e' & H2 & [= ->])].
  2: { assert (Hc := Hmark _ _ _ _ _ _ H2). by apply exec_Err in H2 as ->. }
  apply exec_Ok in H2. injection H2 as <-.
  apply bind_inv in H as [([] & [s3 fs3] & H3 & H)|(e' & H3 & [= ->])].
  - apply apply_all_Ok in H3 as (c' & _ & ->); [|done].
    assert (Hc := Hmark _ _ _ _ _ _ H). by apply exec_Err in H as ->.
  - apply apply_all_Err in H3 as [? Hd]; [|done]. split; [done|]. auto.
Qed.

Lemma step {A B} (m : MigM A) (f : A → MigM B) x a x' : m x = (Ok a, x') → (m ≫= f) x = f a x'.
Proof. exact (bind_ok m f x a x'). Qed.

Lemma apply_all_fine ms v0 c0 c c' :
  v0 ≠ versionSentinel → batch ms c = Some c' →
  apply_all ms (in_batch (v0, c0) c, []) = (Ok tt, (in_batch (v0, c0) c', [])).
Proof.
  intros Hv. revert c. induction ms as [|m ms IH]; intros c H; simpl in H; [by injection H as <-|].
  destruct (writes (effects (mg_sql m)) c) as [c1|] eqn:Hw; simplify_eq/=.
  unfold in_batch at 1. erewrite step by by apply exec_fine, run_writes.
  erewrite step; [by apply IH|].
  unfold requireBatchTransaction. erewrite step by done. simpl. erewrite step by done. simpl.
  by destruct (Z.eqb_spec v0 versionSentinel).
Qed.

Lemma applyPending_fine ms v0 c0 d' :
  map mg_number ms = seqZ 1 (Z.of_nat (length ms)) → v0 ≠ versionSentinel → v0 ≤ newest ms →
  upgraded ms (v0, c0) = Some d' →
  applyPending ms (Conn (v0, c0) (Some (v0, c0)), []) = (Ok tt, (Conn (v0, c0) (Some d'), [])).
Proof.
  intros Hseq Hv Hle Hup. unfold applyPending. erewrite step by done. simpl.
  destruct (Z.ltb_spec (newest ms) v0); [lia|]. assert (Hnew := newest_pending v0 ms Hseq).
  unfold upgraded in Hup. cbn [fst snd] in Hup. destruct (pending_of v0 ms) as [|m p]; [by injection Hup as <-|].
  destruct (batch (m :: p) c0) as [c'|] eqn:Hb; [|done]. injection Hup as <-.
  erewrite (step _ _ _ tt (in_batch (v0, c0) c0, [])) by done.
  rewrite (step _ _ _ _ _ (apply_all_fine (m :: p) v0 c0 c0 c' Hv Hb)), Hnew by done. by apply exec_fine.
Qed.

Lemma rollback_spec s fs : ∃ fs', rollback (s, fs) = (Ok tt, (Conn (cn_committed s) None, fs')).
Proof.
  unfold rollback. destruct (exec [EffRollback] (s, fs)) as [r [s' fs']] eqn:Hx. exists fs'. do 3 f_equal.
  apply (exec_keeps (λ t, cn_committed t = cn_committed s)) in Hx; [done| |by intros [] ?].
  destruct s as [d [x|]]; by intros [|[|k]].
Qed.

Lemma or_rollback_inv (m : MigM unit) x r s' fs' :
  or_rollback m x = (r, (s', fs')) →
  (∃ u, m x = (Ok u, (s', fs')) ∧ r = Ok tt)
  ∨ ∃ e s1 fs1, m x = (Err e, (s1, fs1)) ∧ r = Err e ∧ s' = Conn (cn_committed s1) None.
Proof.
  unfold or_rollback, try, mbind, MigM_bind, M_bind, mret, MigM_ret, M_ret, fail. intros H.
  destruct (m x) as [[u|e] [s1 fs1]]; [left; exists u; by simplify_eq/=|right]. exists e, s1, fs1.
  destruct (rollback_spec s1 fs1) as [fs2 Hr]. rewrite Hr in H. by simplify_eq/=.
Qed.

Lemma migrate_conn_Ok released ms d fs u s' fs' :
  clean ms → map mg_number ms = seqZ 1 (Z.of_nat (length ms)) →
  migrate_conn released ms (Conn d None, fs) = (Ok u, (s', fs')) →
  d.1 ≤ newest ms ∧ ∃ d', upgraded ms d = Some d' ∧ s' = Conn d' None.
Proof.
  intros Hms Hseq H. destruct d as [v0 c0]. unfold migrate_conn in H.
  apply bind_inv in H as [([] & [s1 fs1] & H1 & H)|(e & _ & [=])]. apply exec_Ok in H1. injection H1 as <-.
  apply bind_inv in H as [([] & [s2 fs2] & H2 & H)|(e & _ & [=])].
  apply or_rollback_inv in H2 as [(u' & H2 & _)|(e & s3 & fs3 & _ & [=] & _)].
  apply applyPending_Ok in H2 as (Hle & d' & Hup & ->); [|done..]. split; [done|]. exists d'. split; [done|].
  apply bind_inv in H as [([] & [s4 fs4] & H4 & H)|(e & _ & [=])].
  apply or_rollback_inv in H4 as [(u'' & H4 & _)|(e & s5 & fs5 & _ & [=] & _)].
  apply exec_Ok in H4. injection H4 as <-. destruct released; [by injection H as _ <- _|done].
Qed.

Lemma migrate_conn_Err released ms d fs e s' fs' :
  clean ms → map mg_number ms = seqZ 1 (Z.of_nat (length ms)) →
  migrate_conn released ms (Conn d None, fs) = (Err e, (s', fs')) →
  (e = MTooNew → newest ms < d.1 ∧ cn_committed s' = d)
  ∧ (only_writes ms = true →
     cn_committed s' = d ∨ (e = MSQL ∧ d.1 ≤ newest ms ∧ upgraded ms d = Some (cn_committed s'))).
Proof.
  intros Hms Hseq H. destruct d as [v0 c0]. unfold migrate_conn in H.
  apply bind_inv in H as [([] & [s1 fs1] & H1 & H)|(e1 & H1 & [= ->])].
  2: { assert (e1 = MSQL) as -> by by eapply exec_Err. split; [done|]. intros _. left.
       apply (exec_keeps (λ s, cn_committed s = (v0, c0))) in H1; [done| |by intros [] ?]. by intros [|[|k]]. }
  apply exec_Ok in H1. injection H1 as <-.
  apply bind_inv in H as [([] & [s2 fs2] & H2 & H)|(e1 & H2 & [= ->])].
  2: { apply or_rollback_inv in H2 as [(u & _ & [=])|(e & s3 & fs3 & H3 & [= ->] & ->)].
       apply applyPending_Err in H3 as [Hnew Hsame]; [|done]. split; [done|]. auto. }
  apply or_rollback_inv in H2 as [(u & H2 & _)|(e' & s3 & fs3 & _ & [=] & _)].
  apply applyPending_Ok in H2 as (Hle & d' & Hup & ->); [|done..].
  assert (Hcommit : ∀ r t fs3, exec [EffCommit] (Conn (v0, c0) (Some d'), fs2) = (r, (t, fs3)) →
    cn_committed t = (v0, c0) ∨ cn_committed t = d').
  { intros r t fs3 Hx. apply (exec_keeps (λ t, cn_committed t = (v0, c0) ∨ cn_committed t = d')) in Hx; [done| |by intros [] ?].
    intros [|[|k]]; simpl; auto. }
  apply bind_inv in H as [([] & [s4 fs4] & H4 & H)|(e1 & H4 & [= ->])].
  - apply or_rollback_inv in H4 as [(u' & H4 & _)|(e' & s5 & fs5 & _ & [=] & _)].
    apply Hcommit in H4. destruct released; [done|]. injection H as <- <- _. split; [done|]. naive_solver.
  - apply or_rollback_inv in H4 as [(u' & _ & [=])|(e' & s5 & fs5 & H4 & [= ->] & ->)].
    assert (e' = MSQL) as -> by by eapply exec_Err. apply Hcommit in H4. split; [done|]. simpl. naive_solver.
Qed.

Lemma migrate_conn_fine ms d d' :
  map mg_number ms = seqZ 1 (Z.of_nat (length ms)) → d.1 ≠ versionSentinel → d.1 ≤ newest ms →
  upgraded ms d = Some d' → migrate_conn true ms (Conn d None, []) = (Ok tt, (Conn d' None, [])).
Proof.
  intros Hseq Hv Hle Hup. destruct d as [v0 c0]. unfold migrate_conn.
  rewrite (step _ _ _ tt (Conn (v0, c0) (Some (v0, c0)), [])) by done.
  rewrite (step _ _ _ tt (Conn (v0, c0) (Some d'), [])); [by rewrite (step _ _ _ tt (Conn d' None, []))|].
  unfold or_rollback. by rewrite (step _ _ _ (Ok tt) (Conn (v0, c0) (Some d'), []))
    by (unfold try; by rewrite (applyPending_fine ms v0 c0 d' Hseq Hv Hle Hup)).
Qed.

(** *** Atomicity, fail-closed refusal, and progress *)

End migrate.

(** *** A run *)

(** A script is one statement that appends it to the content. *)
Definition demo_effects (sql : string) : list (@sql_effect (list string)) := [EffWrite (λ c, Some (c ++ [sql]))].
Definition demo_files : list (string * option string) :=
  [("0002_users.sql", Some "create table users"); ("0001_init.sql", Some "create table events")]%string.

(** From version 1, a fault at the second script's guard: nothing changed. *)
Example demo_fault :
  (migrate demo_effects true 0 true true demo_files (Conn (1, ["x"%string]) None, [None; None; None; None; Some (O, false)])).2.1
  = Conn (1, ["x"%string]) None.
Proof. vm_compute. reflexivity. Qed.

(** Two scripts that escape: one commits and begins again, one rolls back. *)
Example demo_escapes :
  let esc es sql := if String.eqb sql "esc" then es else demo_effects sql in
  let run es := (migrate (esc es) true 0 true true [("0001_a.sql", Some "esc")]%string (Conn (0, []) None, [])).1 in
  run [EffCommit; EffBegin] = Err (MCommitted "0001_a.sql") ∧ run [EffRollback] = Err (MRolledBack "0001_a.sql")
  ∧ run [EffRollback; EffBegin] = Err (MRolledBack "0001_a.sql").
Proof. vm_compute. auto. Qed.

