(* ===== verification/StoreOpen.v ===== *)
(** * Opening the store (src/internal/store/store.go)

    What the file system, the driver and the migrations answer is arbitrary and
    may depend on every call made so far; a run leaves the list of its calls. *)
From S2P Require Import Prelude Utf8 Paths Migrate.
Local Open Scope string_scope.

Inductive lstat_answer : Type :=
| LAbsent
| LFailed
| LStat (symlink : bool) (perm : Z).

Inductive create_answer : Type := Created | AlreadyExists | CreateFailed.

Inductive open_step : Type :=
| OpMkdirAll (dir : string) (perm : Z)
| OpLstat (path : string)
| OpCreateExcl (path : string) (perm : Z)
| OpCloseFile
| OpSQLOpen (dsn : string)
| OpPragma (name : string)
| OpMigrate
| OpCloseDB.

Record open_world : Type := MkOpenWorld {
  ow_mkdir : list open_step → bool;
  ow_lstat : list open_step → string → lstat_answer;
  ow_create : list open_step → create_answer;
  ow_close_file : list open_step → bool;
  ow_sql_open : list open_step → bool;
  ow_pragma : list open_step → string → option string;
  ow_migrate : list open_step → result migrate_err unit;
}.

Inductive open_err : Type :=
| OStore
| OSymlink (path : string)
| OMode (path : string) (got : Z)
| OPragma (name got : string)
| OMigrate (e : migrate_err).

Definition OpenM : Type → Type := M (list open_step) open_err.
#[global] Instance OpenM_ret : MRet OpenM := λ A, @M_ret _ _ A.
#[global] Instance OpenM_bind : MBind OpenM := λ A B, @M_bind _ _ A B.

(** One call: its answer, and the call recorded. *)
Definition call {A} (op : open_step) (answer : list open_step → A) : OpenM A :=
  λ tr, (Ok (answer tr), (tr ++ [op])%list).
Definition refuse_unless (ok : bool) (e : open_err) : OpenM unit := if ok then mret tt else fail e.

(** ** The data source name *)

(** url.PathEscape: what a path segment may hold stays, every other byte is
    written in hexadecimal. *)
Definition unescaped (b : Z) : bool :=
  between 97 122 b || between 65 90 b || between 48 57 b
  || bool_decide (b ∈ bytes "-_.~$&+=:@").
Definition hex_upper (n : Z) : Z := if Z.ltb n 10 then 48 + n else 55 + n.
Definition escape_byte (b : Z) : list Z :=
  if unescaped b then [b] else [37; hex_upper (b / 16); hex_upper (b mod 16)]%Z.
Definition PathEscape (s : string) : string := of_bytes (bytes s ≫= escape_byte).

Definition pragmas : string :=
  "_pragma=busy_timeout(5000)&_pragma=journal_mode(WAL)&_pragma=synchronous(NORMAL)&_pragma=foreign_keys(ON)".
Definition dsn_of (path : string) : string := "file:" +:+ PathEscape path +:+ "?" +:+ pragmas.

Lemma hex_upper_range n : (0 ≤ n < 16 → 48 ≤ hex_upper n ≤ 57 ∨ 65 ≤ hex_upper n ≤ 70)%Z.
Proof. unfold hex_upper. destruct (Z.ltb_spec n 10); lia. Qed.

(** No byte of an escaped byte is a question mark, or out of range. *)
Lemma escape_byte_fine b : is_byte b → Forall (λ x, is_byte x ∧ x ≠ 63%Z) (escape_byte b).
Proof.
  intros Hb. unfold escape_byte. destruct (unescaped b) eqn:Hu.
  - apply Forall_singleton. split; [done|]. intros ->. by vm_compute in Hu.
  - unfold is_byte in *. assert (H1 := hex_upper_range (b / 16)). assert (H2 := hex_upper_range (b mod 16)).
    assert (0 ≤ b / 16 < 16)%Z by (split; [apply Z.div_pos; lia|apply Z.div_lt_upper_bound; lia]).
    assert (0 ≤ b mod 16 < 16)%Z by (apply Z.mod_pos_bound; lia).
    repeat constructor; lia.
Qed.

Lemma str_mem_bytes c s : byte_of c ∉ bytes s → str_mem c s = false.
Proof.
  induction s as [|a s IH]; [done|]. simpl. intros [Hne Hs]%not_elem_of_cons.
  destruct (Ascii.eqb_spec c a) as [->|]; [done|]. by apply IH.
Qed.

Lemma PathEscape_no_query s : str_mem "?" (PathEscape s) = false.
Proof.
  apply str_mem_bytes. unfold PathEscape.
  assert (H : Forall (λ x, is_byte x ∧ x ≠ 63%Z) (bytes s ≫= escape_byte)).
  { apply Forall_bind. eapply Forall_impl; [apply bytes_Forall|]. apply escape_byte_fine. }
  rewrite bytes_of_bytes by (eapply Forall_impl; [exact H|]; by intros ? []).
  rewrite Forall_forall in H. by intros [_ []]%H.
Qed.

(** ** The posture *)

Section open.
Context (w : open_world).

Definition dir_mode : Z := 448.    (* 0o700 *)
Definition file_mode : Z := 384.   (* 0o600 *)

Definition requireMode (path : string) (want : Z) : OpenM unit :=
  info ← call (OpLstat path) (λ tr, ow_lstat w tr path);
  match info with
  | LAbsent | LFailed => fail OStore
  | LStat symlink perm =>
      if symlink then fail (OSymlink path)
      else if negb (Z.eqb perm want) then fail (OMode path perm)
      else mret tt
  end.

Fixpoint check_sidecars (path : string) (suffixes : list string) : OpenM unit :=
  match suffixes with
  | [] => mret tt
  | suffix :: rest =>
      info ← call (OpLstat (path +:+ suffix)) (λ tr, ow_lstat w tr (path +:+ suffix));
      _ ← match info with LAbsent => mret tt | _ => requireMode (path +:+ suffix) file_mode end;
      check_sidecars path rest
  end.

Definition posture : list (string * string) :=
  [("journal_mode", "wal"); ("synchronous", "1"); ("busy_timeout", "5000"); ("foreign_keys", "1")].

Fixpoint verifyPragmas (ps : list (string * string)) : OpenM unit :=
  match ps with
  | [] => mret tt
  | (name, want) :: ps' =>
      got ← call (OpPragma name) (λ tr, ow_pragma w tr name);
      match got with
      | None => fail OStore
      | Some got => if String.eqb got want then verifyPragmas ps' else fail (OPragma name got)
      end
  end.

(** [return nil, errors.Join(err, db.Close())] *)
Definition or_close (m : OpenM unit) : OpenM unit :=
  r ← try m;
  match r with
  | Ok _ => mret tt
  | Err e => _ ← call OpCloseDB (λ _, tt); fail e
  end.

Definition Migrate_run : OpenM unit :=
  r ← call OpMigrate (ow_migrate w);
  match r with Ok _ => mret tt | Err e => fail (OMigrate e) end.

(** Before SQLite touches anything. *)
Definition prepare (path : string) : OpenM unit :=
  let dir := Dir path in
  made ← call (OpMkdirAll dir dir_mode) (ow_mkdir w);
  _ ← refuse_unless made OStore;
  _ ← requireMode dir dir_mode;
  created ← call (OpCreateExcl path file_mode) (ow_create w);
  _ ← match created with
      | CreateFailed => fail OStore
      | AlreadyExists => mret tt
      | Created => closed ← call OpCloseFile (ow_close_file w); refuse_unless closed OStore
      end;
  _ ← requireMode path file_mode;
  check_sidecars path ["-wal"; "-shm"; "-journal"].

Definition connect (path : string) : OpenM unit :=
  opened ← call (OpSQLOpen (dsn_of path)) (ow_sql_open w);
  _ ← refuse_unless opened OStore;
  _ ← or_close (verifyPragmas posture);
  or_close Migrate_run.

Definition Open (path : string) : OpenM unit := _ ← prepare path; connect path.

(** ** Lemmas *)

Implicit Types (tr : list open_step).

(** A check made at some point of the run, and its answer. *)
Definition seen (tr : list open_step) (path : string) (answer : lstat_answer) : Prop :=
  ∃ pre post, tr = (pre ++ OpLstat path :: post)%list ∧ ow_lstat w pre path = answer.

Definition touches_db (op : open_step) : bool :=
  match op with OpSQLOpen _ | OpPragma _ | OpMigrate | OpCloseDB => true | _ => false end.

(** A run of [m] adds calls of the file system only and, if it succeeds, has
    shown [Q]. *)
Definition prepares (m : OpenM unit) (Q : list open_step → Prop) : Prop :=
  ∀ tr r tr', m tr = (r, tr') →
    ∃ ops, tr' = (tr ++ ops)%list ∧ forallb (negb ∘ touches_db) ops = true ∧ (r = Ok tt → Q tr').

Lemma seen_app tr ops path a : seen tr path a → seen (tr ++ ops) path a.
Proof. intros (pre & post & -> & ?). exists pre, (post ++ ops)%list. by rewrite <- app_assoc. Qed.

Definition lasting (Q : list open_step → Prop) : Prop := ∀ tr ops, Q tr → Q (tr ++ ops)%list.

Lemma prepares_ret (Q : list open_step → Prop) : (∀ tr, Q tr) → prepares (mret tt) Q.
Proof. intros HQ tr r tr' [= <- <-]. exists []. by rewrite app_nil_r. Qed.

Lemma prepares_fail e Q : prepares (fail e) Q.
Proof. intros tr r tr' [= <- <-]. exists []. by rewrite app_nil_r. Qed.

Lemma prepares_call {A} op (answer : list open_step → A) (f : A → OpenM unit) Q :
  touches_db op = false →
  (∀ a, prepares (f a) (λ tr, (∃ pre post, tr = (pre ++ op :: post)%list ∧ answer pre = a) → Q tr)) →
  prepares (call op answer ≫= f) Q.
Proof.
  intros Hop Hf tr r tr' H. apply (Hf (answer tr)) in H as (ops & -> & Hops & HQ).
  exists (op :: ops). rewrite <- app_assoc in *. simpl in *. rewrite Hop. split; [done|]. split; [done|].
  intros Hr. apply HQ; [done|]. by exists tr, ops.
Qed.

Lemma prepares_bind (m : OpenM unit) (f : unit → OpenM unit) P Q :
  lasting P → prepares m P → prepares (f tt) (λ tr, P tr → Q tr) → prepares (m ≫= f) Q.
Proof.
  intros HP Hm Hf tr r tr' H. apply bind_inv in H as [([] & tr1 & H1 & H2)|(e & H1 & ->)].
  - apply Hm in H1 as (ops & -> & Hops & H1). apply Hf in H2 as (ops' & -> & Hops' & H2).
    exists (ops ++ ops')%list. rewrite forallb_app, Hops, Hops', app_assoc.
    split; [done|]. split; [done|]. intros Hr. apply H2; [done|]. by apply HP, H1.
  - apply Hm in H1 as (ops & -> & Hops & _). exists ops. by split; [|split].
Qed.

Lemma prepares_mono m (P Q : list open_step → Prop) : prepares m P → (∀ tr, P tr → Q tr) → prepares m Q.
Proof. intros Hm HPQ tr r tr' H. apply Hm in H as (ops & -> & ? & ?). exists ops. auto. Qed.

Lemma requireMode_prepares path want :
  prepares (requireMode path want) (λ tr, seen tr path (LStat false want)).
Proof.
  apply prepares_call; [done|]. intros [| |[|] perm]; try apply prepares_fail.
  destruct (Z.eqb_spec perm want) as [->|]; [|apply prepares_fail]. by apply prepares_ret.
Qed.

Definition sidecar_fine (tr : list open_step) (sidecar : string) : Prop :=
  seen tr sidecar LAbsent ∨ seen tr sidecar (LStat false file_mode).

Lemma check_sidecars_prepares path suffixes :
  prepares (check_sidecars path suffixes) (λ tr, ∀ suffix, suffix ∈ suffixes → sidecar_fine tr (path +:+ suffix)).
Proof.
  induction suffixes as [|s l IH]; [apply prepares_ret; by intros ? ? ?%not_elem_of_nil|].
  apply prepares_call; [done|]. intros a.
  apply (prepares_bind _ _ (λ tr, a = LAbsent ∨ seen tr (path +:+ s) (LStat false file_mode))).
  - intros tr ops [->|]; [by left|right; by apply seen_app].
  - destruct a; [apply prepares_ret; auto|..]; (eapply prepares_mono; [apply requireMode_prepares|auto]).
  - eapply prepares_mono; [exact IH|]. simpl. intros tr Hl Hs Ha suffix [->|Hin]%elem_of_cons; [|auto].
    destruct Hs as [->|Hs]; [by left|by right].
Qed.

(** What is known when SQLite first sees the path. *)
Definition prepared (path : string) (tr : list open_step) : Prop :=
  seen tr (Dir path) (LStat false dir_mode) ∧ seen tr path (LStat false file_mode)
  ∧ ∀ suffix, suffix ∈ ["-wal"; "-shm"; "-journal"] → sidecar_fine tr (path +:+ suffix).

Lemma refuse_unless_prepares ok e (Q : list open_step → Prop) : (∀ tr, Q tr) → prepares (refuse_unless ok e) Q.
Proof. intros HQ. destruct ok; [by apply prepares_ret|apply prepares_fail]. Qed.

Lemma prepare_prepares path : prepares (prepare path) (prepared path).
Proof.
  unfold prepare, prepared. apply prepares_call; [done|]. intros made.
  apply (prepares_bind _ _ (λ _, True)); [done|by apply refuse_unless_prepares|].
  eapply (prepares_bind _ _ (λ tr, seen tr (Dir path) _)); [intros ???; by apply seen_app|apply requireMode_prepares|].
  apply prepares_call; [done|]. intros created. apply (prepares_bind _ _ (λ _, True)); [done| |].
  { destruct created; [|by apply prepares_ret|apply prepares_fail].
    apply prepares_call; [done|]. intros closed. by apply refuse_unless_prepares. }
  eapply (prepares_bind _ _ (λ tr, seen tr path _)); [intros ???; by apply seen_app|apply requireMode_prepares|].
  eapply prepares_mono; [apply check_sidecars_prepares|]. simpl. intros tr H1 H2 _ _ H3 _ _. done.
Qed.

Definition ask (ps : list (string * string)) : list open_step := map (λ p, OpPragma p.1) ps.

(** Every pragma of [ps] was read back as wanted, in order, after [tr]. *)
Fixpoint verified (tr : list open_step) (ps : list (string * string)) : Prop :=
  match ps with
  | [] => True
  | (name, want) :: ps' => ow_pragma w tr name = Some want ∧ verified (tr ++ [OpPragma name])%list ps'
  end.

Lemma verifyPragmas_spec ps tr r tr' :
  verifyPragmas ps tr = (r, tr') →
  (∃ ops, tr' = (tr ++ ops)%list) ∧ (r = Ok tt → tr' = (tr ++ ask ps)%list ∧ verified tr ps).
Proof.
  revert tr. induction ps as [|[name want] ps IH]; intros tr H; simpl in H.
  { injection H as <- <-. split; [exists []|]; by rewrite app_nil_r. }
  unfold call, mbind, OpenM_bind, M_bind, fail in H. simpl in H.
  destruct (ow_pragma w tr name) as [got|] eqn:Hg; [|injection H as <- <-; split; [by eexists|done]].
  simpl. destruct (String.eqb_spec got want) as [E|]; [|injection H as <- <-; split; [by eexists|done]].
  apply IH in H as ((ops & ->) & HOk). split; [exists (OpPragma name :: ops); by rewrite <- app_assoc|].
  intros Hr. destruct (HOk Hr) as [-> ?]. simpl.
  by rewrite <- app_assoc, Hg, E.
Qed.

Lemma or_close_inv (m : OpenM unit) tr r tr' :
  or_close m tr = (r, tr') →
  (r = Ok tt ∧ m tr = (Ok tt, tr')) ∨ ∃ e tr1, m tr = (Err e, tr1) ∧ r = Err e ∧ tr' = (tr1 ++ [OpCloseDB])%list.
Proof.
  unfold or_close, try, call, fail, mret, OpenM_ret, M_ret, mbind, OpenM_bind, M_bind. intros H.
  destruct (m tr) as [[[]|e] tr1]; [left; by injection H as <- <-|right; exists e, tr1; by injection H as <- <-].
Qed.

(** After the path was handed to SQLite: verified and migrated, or closed. *)
Definition connected (pre post : list open_step) (dsn : string) (r : result open_err unit) : Prop :=
  match r with
  | Ok _ => ow_sql_open w pre = true ∧ post = (ask posture ++ [OpMigrate])%list
            ∧ verified (pre ++ [OpSQLOpen dsn])%list posture
            ∧ ow_migrate w (pre ++ OpSQLOpen dsn :: ask posture)%list = Ok tt
  | Err _ => if ow_sql_open w pre then last post = Some OpCloseDB else post = []
  end.

Lemma Migrate_run_spec tr r tr' :
  Migrate_run tr = (r, tr') → tr' = (tr ++ [OpMigrate])%list ∧ (r = Ok tt → ow_migrate w tr = Ok tt).
Proof.
  unfold Migrate_run, call, fail, mret, OpenM_ret, M_ret, mbind, OpenM_bind, M_bind. simpl.
  destruct (ow_migrate w tr) as [[]|e]; intros H; injection H as <- <-; by split.
Qed.

Lemma connect_spec path tr r tr' :
  connect path tr = (r, tr') →
  ∃ post, tr' = (tr ++ OpSQLOpen (dsn_of path) :: post)%list ∧ connected tr post (dsn_of path) r.
Proof.
  unfold connected. intros H. set (dsn := dsn_of path) in *.
  change ((refuse_unless (ow_sql_open w tr) OStore ≫= λ _, or_close (verifyPragmas posture)
    ≫= λ _, or_close Migrate_run) (tr ++ [OpSQLOpen dsn])%list = (r, tr')) in H.
  destruct (ow_sql_open w tr).
  2: { change ((Err OStore, (tr ++ [OpSQLOpen dsn])%list) = (r, tr')) in H. injection H as <- <-. by exists []. }
  change ((or_close (verifyPragmas posture) ≫= λ _, or_close Migrate_run) (tr ++ [OpSQLOpen dsn])%list = (r, tr')) in H.
  apply bind_inv in H as [([] & tr1 & H1 & H)|(e & H1 & ->)].
  - apply or_close_inv in H1 as [[_ H1]|(e & tr2 & _ & [=] & _)].
    apply verifyPragmas_spec in H1 as [_ HOk]. destruct (HOk eq_refl) as [-> Hver].
    apply or_close_inv in H as [[-> H]|(e & tr2 & H & -> & ->)]; apply Migrate_run_spec in H as [-> Hm].
    all: rewrite <- !app_assoc in *; eexists; split; [done|].
    + by auto.
    + done.
  - apply or_close_inv in H1 as [[[=] _]|(e' & tr2 & H1 & [= ->] & ->)].
    apply verifyPragmas_spec in H1 as [(ops & ->) _]. rewrite <- !app_assoc. eexists. split; [done|]. apply last_snoc.
Qed.

(** C39: Opening the store.  SQLite is given the path only after the directory,
    the file and every sidecar present were each seen to be no symlink and at
    exactly 0700 and 0600, in calls that touch no database; and the name it is
    given holds no question mark but the one before the four pragmas, whatever
    the path holds.  A handle is returned only after those four were read back
    as asked and the migrations ran on it; and a handle that was opened but not
    returned was closed. *)
Theorem Open_posture path r tr :
  Open path [] = (r, tr) →
  str_mem "?" (PathEscape path) = false ∧
  ((forallb (negb ∘ touches_db) tr = true ∧ r ≠ Ok tt)
   ∨ ∃ pre post, tr = (pre ++ OpSQLOpen ("file:" +:+ PathEscape path +:+ "?" +:+ pragmas) :: post)%list
       ∧ forallb (negb ∘ touches_db) pre = true ∧ prepared path pre ∧ connected pre post (dsn_of path) r).
Proof.
  intros H. split; [apply PathEscape_no_query|].
  unfold Open in H. apply bind_inv in H as [([] & tr1 & H1 & H)|(e & H1 & ->)].
  - apply prepare_prepares in H1 as (pre & -> & Hpre & HQ). apply connect_spec in H as (post & -> & Hc). right.
    exists pre, post. simpl in *. auto.
  - apply prepare_prepares in H1 as (pre & -> & Hpre & _). by left.
Qed.
End open.

(** *** A run *)

(** A fresh state directory: only the database file is there, just created. *)
Definition demo_world : open_world :=
  MkOpenWorld (λ _, true)
    (λ _ p, if String.eqb p "/s/state" then LStat false dir_mode
            else if String.eqb p "/s/state/a?b.db" then LStat false file_mode else LAbsent)
    (λ _, Created) (λ _, true) (λ _, true)
    (λ _ n, snd <$> List.find (λ p, String.eqb p.1 n) posture) (λ _, Ok tt).

(** A sidecar left as a symlink: refused before SQLite sees the path. *)
Example demo_symlink :
  let w := MkOpenWorld (λ _, true)
    (λ _ p, if String.eqb p "/s/a.db-wal" then LStat true 511
            else if String.eqb p "/s" then LStat false dir_mode else LStat false file_mode)
    (λ _, AlreadyExists) (λ _, true) (λ _, true) (λ _ _, None) (λ _, Ok tt) in
  (Open w "/s/a.db" []).1 = Err (OSymlink "/s/a.db-wal").
Proof. vm_compute. reflexivity. Qed.

Lemma Open_posture_witness :
  ∃ tr, Open demo_world "/s/state/a?b.db" [] = (Ok tt, tr)
    ∧ (∃ pre post, tr = (pre ++ OpSQLOpen (dsn_of "/s/state/a?b.db") :: post)%list
         ∧ prepared demo_world "/s/state/a?b.db" pre).
Proof.
  destruct (Open demo_world "/s/state/a?b.db" []) as [r tr] eqn:H. exists tr.
  assert (T := Open_posture demo_world _ r tr H).
  assert (Hr : r = Ok tt) by by vm_compute in H; injection H as <- _. subst r. split; [done|].
  destruct T as [_ [[_ []]|(pre & post & Htr & _ & Hp & _)]]; [done|by exists pre, post].
Defined.
