(* ===== verification/AdminServer.v ===== *)
(** * Daemon ownership and the admin listener (src/internal/admin/admin.go)

    Processes share a lock file and a path.  Each process has at most one
    server; its main goroutine, its watcher and its connection handlers take
    turns with those of every other process, one step per system call, and a
    process may die between any two.  A listener unlinks its path by name when
    it is closed, whatever is there. *)
From S2P Require Import Prelude.
Local Open Scope Z_scope.

(** ** State *)

Inductive entry : Type :=
| Absent
| Socket (pid : nat)    (* bound by that process, which may be dead *)
| Foreign.              (* not a socket *)

Inductive phase : Type :=
| Owned                 (* New returned *)
| Stale                 (* claim saw a socket *)
| Cleared               (* claim returned *)
| Listening             (* bound, not yet owner-only *)
| Serving               (* the accept loop *)
| Ending (ok : bool)    (* left the loop: handlers.Wait *)
| Served (ok : bool)    (* Serve returned *)
| Closed.

#[global] Instance entry_eq_dec : EqDecision entry.
Proof. solve_decision. Defined.

Record Server : Type := MkServer {
  sv_phase : phase;
  sv_open : bool;        (* the listener *)
  sv_drain : bool;       (* s.drain closed, or the context canceled *)
  sv_watcher : bool;     (* the watcher goroutine runs *)
  sv_stopping : bool;
  sv_handlers : Z;
}.

Record machine : Type := Machine {
  mc_lock : option nat;
  mc_path : entry;
  mc_servers : gmap nat Server;
}.

Definition boot : machine := Machine None Absent ∅.

(** ** Operations *)

Definition maxSocketPath : Z := 103.

Definition set_phase (ph : phase) (s : Server) : Server :=
  MkServer ph (sv_open s) (sv_drain s) (sv_watcher s) (sv_stopping s) (sv_handlers s).
Definition put (p : nat) (s : Server) (m : machine) : machine :=
  Machine (mc_lock m) (mc_path m) (<[p := s]> (mc_servers m)).
Definition set_path (e : entry) (m : machine) : machine := Machine (mc_lock m) e (mc_servers m).

(** acquireLock: flock's answer, once the lock file is open; [None] is the
    error, which leaves the lock as it was. *)
Definition acquire (p : nat) (file : bool) (m : machine) : option machine :=
  if negb file then None
  else match mc_lock m with
       | None => Some (Machine (Some p) (mc_path m) (mc_servers m))
       | Some _ => None
       end.

(** New; a process makes one server. *)
Definition New (p : nat) (len : Z) (dir file : bool) (m : machine) : option machine :=
  if Z.ltb maxSocketPath len then None
  else if negb dir then None
  else
    match mc_servers m !! p with
    | Some _ => None
    | None => put p (MkServer Owned false false false false 0) <$> acquire p file m
    end.

Definition on (p : nat) (m : machine) (f : Server → option machine) : option machine := mc_servers m !! p ≫= f.

(** claim's Lstat, then its Remove. *)
Definition claim_look (p : nat) (lstat : bool) (m : machine) : option machine :=
  on p m (λ s,
    match sv_phase s with
    | Owned =>
        Some (put p (set_phase
          (if negb lstat then Served false
           else match mc_path m with Absent => Cleared | Socket _ => Stale | Foreign => Served false end) s) m)
    | _ => None
    end).

Definition claim_remove (p : nat) (remove : bool) (m : machine) : option machine :=
  on p m (λ s,
    match sv_phase s with
    | Stale =>
        if remove && negb (bool_decide (mc_path m = Absent))
        then Some (put p (set_phase Cleared s) (set_path Absent m))
        else Some (put p (set_phase (Served false) s) m)
    | _ => None
    end).

(** net.Listen: binding creates the path, which must be free. *)
Definition listen (p : nat) (ok : bool) (m : machine) : option machine :=
  on p m (λ s,
    match sv_phase s with
    | Cleared =>
        if ok && bool_decide (mc_path m = Absent)
        then Some (put p (MkServer Listening true (sv_drain s) false false 0) (set_path (Socket p) m))
        else Some (put p (set_phase (Served false) s) m)
    | _ => None
    end).

(** os.Chmod; on success the watcher starts, OnReady is called and the loop
    begins. *)
Definition chmod (p : nat) (ok : bool) (m : machine) : option machine :=
  on p m (λ s,
    match sv_phase s with
    | Listening =>
        if ok then Some (put p (MkServer Serving (sv_open s) (sv_drain s) true false (sv_handlers s)) m)
        else Some (put p (MkServer (Served false) false (sv_drain s) false false 0) (set_path Absent m))
    | _ => None
    end).

(** The drain verb, or the context's end. *)
Definition trigger (p : nat) (m : machine) : option machine :=
  on p m (λ s, Some (put p (MkServer (sv_phase s) (sv_open s) true (sv_watcher s) (sv_stopping s) (sv_handlers s)) m)).

(** The watcher: [stopping.Store(true)], then [listener.Close()]; or the exit
    channel. *)
Definition watch_stop (p : nat) (m : machine) : option machine :=
  on p m (λ s,
    if sv_watcher s && sv_drain s && negb (sv_stopping s)
    then Some (put p (MkServer (sv_phase s) (sv_open s) true true true (sv_handlers s)) m) else None).

Definition watch_close (p : nat) (m : machine) : option machine :=
  on p m (λ s,
    if sv_watcher s && sv_stopping s
    then Some (put p (MkServer (sv_phase s) false (sv_drain s) false true (sv_handlers s))
                 (if sv_open s then set_path Absent m else m)) else None).

Definition watch_exit (p : nat) (m : machine) : option machine :=
  on p m (λ s,
    match sv_phase s with
    | Served _ | Closed =>
        if sv_watcher s && negb (sv_stopping s)
        then Some (put p (MkServer (sv_phase s) (sv_open s) (sv_drain s) false false (sv_handlers s)) m) else None
    | _ => None
    end).

Definition accept (p : nat) (m : machine) : option machine :=
  on p m (λ s,
    match sv_phase s with
    | Serving => if sv_open s
                 then Some (put p (MkServer Serving true (sv_drain s) (sv_watcher s) (sv_stopping s) (sv_handlers s + 1)) m)
                 else None
    | _ => None
    end).

(** Accept's error: [stopping] decides what Serve will return. *)
Definition accept_fails (p : nat) (m : machine) : option machine :=
  on p m (λ s,
    match sv_phase s with
    | Serving => Some (put p (set_phase (Ending (sv_stopping s)) s) m)
    | _ => None
    end).

Definition handler_done (p : nat) (m : machine) : option machine :=
  on p m (λ s,
    if Z.ltb 0 (sv_handlers s)
    then Some (put p (MkServer (sv_phase s) (sv_open s) (sv_drain s) (sv_watcher s) (sv_stopping s) (sv_handlers s - 1)) m)
    else None).

(** handlers.Wait, then close(exit). *)
Definition serve_returns (p : nat) (m : machine) : option machine :=
  on p m (λ s,
    match sv_phase s with
    | Ending ok => if Z.eqb (sv_handlers s) 0 then Some (put p (set_phase (Served ok) s) m) else None
    | _ => None
    end).

Definition unlock (p : nat) (m : machine) : machine :=
  Machine (if bool_decide (mc_lock m = Some p) then None else mc_lock m) (mc_path m) (mc_servers m).

(** Close, which the daemon defers: after New alone, or after Serve. *)
Definition Close (p : nat) (m : machine) : option machine :=
  on p m (λ s,
    match sv_phase s with
    | Owned | Served _ => Some (put p (set_phase Closed s) (unlock p m))
    | _ => None
    end).

(** The process dies: flock goes with its holder, the path stays. *)
Definition die (p : nat) (m : machine) : option machine :=
  on p m (λ s, let m := unlock p m in Some (Machine (mc_lock m) (mc_path m) (delete p (mc_servers m)))).

(** Somebody else's file. *)
Definition litter (m : machine) : option machine :=
  match mc_path m with Absent => Some (set_path Foreign m) | _ => None end.

Inductive op : Type :=
| ONew (p : nat) (len : Z) (dir file : bool)
| OLook (p : nat) (ok : bool)
| ORemove (p : nat) (ok : bool)
| OListen (p : nat) (ok : bool)
| OChmod (p : nat) (ok : bool)
| OTrigger (p : nat)
| OWatchStop (p : nat)
| OWatchClose (p : nat)
| OWatchExit (p : nat)
| OAccept (p : nat)
| OAcceptFails (p : nat)
| OHandlerDone (p : nat)
| OServeReturns (p : nat)
| OClose (p : nat)
| ODie (p : nat)
| OLitter.

Definition run_op (o : op) : machine → option machine :=
  match o with
  | ONew p len dir file => New p len dir file
  | OLook p ok => claim_look p ok
  | ORemove p ok => claim_remove p ok
  | OListen p ok => listen p ok
  | OChmod p ok => chmod p ok
  | OTrigger p => trigger p
  | OWatchStop p => watch_stop p
  | OWatchClose p => watch_close p
  | OWatchExit p => watch_exit p
  | OAccept p => accept p
  | OAcceptFails p => accept_fails p
  | OHandlerDone p => handler_done p
  | OServeReturns p => serve_returns p
  | OClose p => Close p
  | ODie p => die p
  | OLitter => litter
  end.

Fixpoint run_ops (os : list op) (m : machine) : option machine :=
  match os with [] => Some m | o :: os' => run_op o m ≫= run_ops os' end.

(** Accept fails because its listener was closed, and for nothing else. *)
Definition by_close (o : op) (m : machine) : Prop :=
  match o with OAcceptFails p => ∀ s, mc_servers m !! p = Some s → sv_open s = false | _ => True end.

(** [tame]: in every step so far. *)
Inductive reach (tame : bool) : machine → Prop :=
| reach_boot : reach tame boot
| reach_step o m m' :
    reach tame m → (tame = true → by_close o m) → run_op o m = Some m' → reach tame m'.

(** ** Invariants *)

Definition closed (ph : phase) : bool := if ph is Closed then true else false.
Definition returned (ph : phase) : bool := match ph with Served _ | Closed => true | _ => false end.
Definition early (ph : phase) : bool := match ph with Owned | Stale | Cleared => true | _ => false end.

(** What one server's state allows, and needs of the machine. *)
Record server_ok (tame : bool) (lock : option nat) (path : entry) (p : nat) (s : Server) : Prop := {
  so_lock : closed (sv_phase s) = false → lock = Some p;
  so_early : early (sv_phase s) = true → sv_open s = false;
  so_bound : sv_phase s = Listening → sv_open s = true ∧ sv_watcher s = false;
  so_quiet : sv_phase s ≠ Serving → (∀ ok, sv_phase s ≠ Ending ok) → sv_handlers s = 0;
  so_count : 0 ≤ sv_handlers s;
  so_path : tame = true → closed (sv_phase s) = false → sv_open s = true → path = Socket p;
  so_watch : tame = true → sv_watcher s = true → sv_phase s = Serving ∧ sv_open s = true;
  so_alive : sv_phase s = Serving → sv_watcher s = true ∨ (sv_open s = false ∧ sv_stopping s = true);
}.

Definition machine_ok (tame : bool) (m : machine) : Prop :=
  map_Forall (server_ok tame (mc_lock m) (mc_path m)) (mc_servers m).

(** A server's step that leaves the others what they need. *)
Lemma ok_put tame p s m lock path :
  machine_ok tame m → server_ok tame lock path p s →
  (∀ q t, q ≠ p → mc_servers m !! q = Some t → server_ok tame (mc_lock m) (mc_path m) q t → server_ok tame lock path q t) →
  machine_ok tame (Machine lock path (<[p := s]> (mc_servers m))).
Proof.
  intros Hm Hs Hothers q t. simpl. intros [[<- <-]|[Hne Hq]]%lookup_insert_Some; [done|].
  apply Hothers; [done..|]. by apply Hm.
Qed.

(** Only the lock's holder can have what a step on the path disturbs. *)
Lemma ok_other tame p lock path path' q t :
  lock = Some p → q ≠ p → server_ok tame lock path q t → server_ok tame lock path' q t.
Proof.
  intros Hl Hne [Hlock ? ? ? ? ? ? ?]. split; auto. intros _ Hc _.
  specialize (Hlock Hc). congruence.
Qed.

Ltac opened H :=
  unfold on in H; apply bind_Some in H as ([ph op dr wa st ha] & Hs & H); simpl in H; repeat (case_match; try done);
  repeat match goal with H : _ && _ = true |- _ => apply andb_true_iff in H as [? ?] end; simplify_eq/=.

Ltac discharge := repeat match goal with
  | H : ?P → ?Q |- _ => let Hp := fresh in assert (Hp : P) by done; specialize (H Hp); clear Hp
  end.
Ltac split_ok :=
  intros [? ? ? ? ? ? ? ?]; simpl in *; split; simpl; intros; try done; try lia; try (by auto); discharge; subst; discharge;
  destruct_and?; try done; try congruence; auto.

(** A server that holds the lock, or leaves lock and path alone. *)
Lemma ok_local tame p s s' m :
  machine_ok tame m → mc_servers m !! p = Some s →
  (server_ok tame (mc_lock m) (mc_path m) p s → server_ok tame (mc_lock m) (mc_path m) p s') →
  machine_ok tame (put p s' m).
Proof. intros Hm Hs Hf. apply ok_put; auto. Qed.

Lemma ok_owner tame p s s' path m :
  machine_ok tame m → mc_servers m !! p = Some s →
  (tame = true → closed (sv_phase s) = false) →
  (server_ok tame (mc_lock m) (mc_path m) p s → server_ok tame (mc_lock m) path p s') →
  machine_ok tame (put p s' (set_path path m)).
Proof.
  intros Hm Hs Hc Hf. apply (ok_put tame p s' m); [done|by apply Hf, Hm|].
    intros q t Hne _ [Hlock ? ? ? ? ? ? ?]. split; auto. intros Ht Hcq _.
  assert (H := so_lock _ _ _ _ _ (Hm p s Hs) (Hc Ht)). specialize (Hlock Hcq). congruence.
Qed.

Lemma ok_unlock tame p q t m :
  q ≠ p → server_ok tame (mc_lock m) (mc_path m) q t → server_ok tame (mc_lock (unlock p m)) (mc_path m) q t.
Proof.
  intros Hne [Hl ? ? ? ? ? ? ?]. split; auto. intros Hc. simpl. rewrite (Hl Hc).
  destruct (bool_decide_reflect (Some q = Some p)); congruence.
Qed.

(** Close asks nothing of the machine: its server was early or returned. *)
Lemma ok_closed tame lock path lock' p s :
  server_ok tame lock path p s → sv_phase s ≠ Serving → (∀ ok, sv_phase s ≠ Ending ok) →
  server_ok tame lock' path p (set_phase Closed s).
Proof. intros [? ? ? ? ? ? ? ?] Hs He. split; simpl; intros; try done; auto. naive_solver. Qed.

Lemma machine_ok_step tame o m m' :
  machine_ok tame m → (tame = true → by_close o m) → run_op o m = Some m' → machine_ok tame m'.
Proof.
  intros Hm Ht H. destruct o as [p len dir file|p ok|p ok|p ok|p ok|p|p|p|p|p|p|p|p|p|p|]; simpl in H.
  - unfold New, acquire in H. repeat (case_match; try done). injection H as <-. apply (ok_put tame p _ m); [done|by split|].
    intros q t Hne _ [? ? ? ? ? ? ? ?]. split; naive_solver.
  - unfold claim_look in H. opened H. all: apply (ok_local tame p _ _ _ Hm Hs); split_ok.
  - unfold claim_remove in H. opened H.
    + apply (ok_owner tame p _ _ _ _ Hm Hs); [done|]. split_ok.
    + apply (ok_local tame p _ _ _ Hm Hs). split_ok.
  - unfold listen in H. opened H.
    + apply (ok_owner tame p _ _ _ _ Hm Hs); [done|]. split_ok.
    + apply (ok_local tame p _ _ _ Hm Hs). split_ok.
  - unfold chmod in H. opened H.
    + apply (ok_local tame p _ _ _ Hm Hs). split_ok.
    + apply (ok_owner tame p _ _ _ _ Hm Hs); [done|]. split_ok.
  - unfold trigger in H. opened H. apply (ok_local tame p _ _ _ Hm Hs). split_ok.
  - unfold watch_stop in H. opened H. apply (ok_local tame p _ _ _ Hm Hs). split_ok.
  - unfold watch_close in H. opened H.
    + apply (ok_owner tame p _ _ _ _ Hm Hs).
      * intros ->. destruct (Hm _ _ Hs) as [_ _ _ _ _ _ Hw _]. simpl in *. by destruct Hw as [-> _].
      * split_ok.
    + apply (ok_local tame p _ _ _ Hm Hs). split_ok.
  - unfold watch_exit in H. opened H. all: apply (ok_local tame p _ _ _ Hm Hs); split_ok.
  - unfold accept in H. opened H. apply (ok_local tame p _ _ _ Hm Hs). split_ok.
  - assert (Ho : tame = true → ∀ s, mc_servers m !! p = Some s → sv_open s = false) by done. clear Ht.
    unfold accept_fails in H. opened H. apply (ok_local tame p _ _ _ Hm Hs). intros [? ? ? ? ? ? Hw ?]. simpl in *.
    split; simpl; intros; try done; try (by auto); [by destruct (H0 st)|].
    destruct Hw as [_ Hw]; [done..|]. specialize (Ho H _ Hs). simpl in Ho. congruence.
  - unfold handler_done in H. opened H. apply (ok_local tame p _ _ _ Hm Hs). split_ok.
  - unfold serve_returns in H. opened H. apply (ok_local tame p _ _ _ Hm Hs). split_ok.
  - unfold Close in H. opened H. all: apply (ok_put tame p _ m); [done| |intros q t Hne _; exact (ok_unlock tame p q t m Hne)].
    all: by apply (ok_closed _ _ _ _ _ _ (Hm _ _ Hs)).
  - unfold die, on in H. apply bind_Some in H as (s & Hs & [= <-]).
    intros q t Hq. apply (lookup_delete_Some (mc_servers m)) in Hq as [Hne Hq].
    apply (ok_unlock tame p q t m); [done|]. by apply Hm.
  - unfold litter in H. destruct (mc_path m) eqn:Hp; [|done..]. injection H as <-.
    intros q t Hq. specialize (Hm q t Hq). destruct Hm. split; simpl; auto. intros. discharge. congruence.
Qed.

Lemma reach_ok tame m : reach tame m → machine_ok tame m.
Proof. induction 1; [by intros ? ? ?|]. by eapply machine_ok_step. Qed.

Lemma put_self p s m : mc_servers (put p s m) !! p = Some s.
Proof. apply lookup_insert_eq. Qed.

(** A drain lets every handler answer, then Serve returns. *)
Lemma handlers_end n p s m :
  mc_servers m !! p = Some s → sv_phase s = Ending true → sv_handlers s = Z.of_nat n →
  ∃ os m' s', run_ops os m = Some m' ∧ mc_servers m' !! p = Some s' ∧ sv_phase s' = Served true.
Proof.
  revert s m. induction n as [|n IH]; intros s m Hs Hph Hn.
  - exists [OServeReturns p]. simpl. unfold serve_returns, on. rewrite Hs. simpl. rewrite Hph, Hn. simpl.
    eexists _, _. split; [done|]. split; [apply put_self|done].
  - destruct (IH (MkServer (sv_phase s) (sv_open s) (sv_drain s) (sv_watcher s) (sv_stopping s) (sv_handlers s - 1))
                (put p (MkServer (sv_phase s) (sv_open s) (sv_drain s) (sv_watcher s) (sv_stopping s) (sv_handlers s - 1)) m))
      as (os & m' & s' & Hrun & ?); [apply put_self|done|simpl; lia|].
    exists (OHandlerDone p :: os), m', s'. split; [|done]. simpl. unfold handler_done, on. rewrite Hs. simpl.
    by destruct (Z.ltb_spec 0 (sv_handlers s)); [|lia].
Qed.

Lemma run_ops_app os os' m : run_ops (os ++ os') m = run_ops os m ≫= run_ops os'.
Proof. revert m. induction os as [|o os IH]; intros m; simpl; [done|]. destruct (run_op o m); [apply IH|done]. Qed.

(** The watcher closes the listener, if it has not. *)
Lemma drain_stops tame m p s :
  machine_ok tame m → mc_servers m !! p = Some s → sv_phase s = Serving → sv_drain s = true →
  ∃ os m' s', run_ops os m = Some m' ∧ mc_servers m' !! p = Some s' ∧ sv_phase s' = Serving
    ∧ sv_open s' = false ∧ sv_stopping s' = true ∧ sv_handlers s' = sv_handlers s.
Proof.
  intros Hm Hs Hph Hd. destruct s as [ph op dr wa st ha]. simpl in *. subst.
  destruct (so_alive _ _ _ _ _ (Hm p _ Hs) eq_refl) as [Hw|[Ho Hst]]; simpl in *; subst.
  2: { by eexists [], m, _. }
  destruct st.
  - exists [OWatchClose p]. simpl. unfold watch_close, on. rewrite Hs. simpl.
    eexists _, _. split; [done|]. split; [apply put_self|done].
  - exists [OWatchStop p; OWatchClose p]. simpl. unfold watch_stop, watch_close, on. rewrite Hs. simpl.
    rewrite lookup_insert_eq. simpl. eexists _, _. split; [done|]. split; [apply put_self|done].
Qed.

Lemma drain_ends tame m p s :
  machine_ok tame m → mc_servers m !! p = Some s → sv_phase s = Serving → sv_drain s = true →
  ∃ os m' s', run_ops os m = Some m' ∧ mc_servers m' !! p = Some s' ∧ sv_phase s' = Served true.
Proof.
  intros Hm Hs Hph Hd. assert (Hc := so_count _ _ _ _ _ (Hm p s Hs)).
  destruct (drain_stops tame m p s) as (os & m1 & s1 & Hrun & Hs1 & Hph1 & _ & Hst & Hha); [done..|].
  destruct (handlers_end (Z.to_nat (sv_handlers s)) p (set_phase (Ending true) s1) (put p (set_phase (Ending true) s1) m1))
    as (os' & m' & s' & Hrun' & Hs' & Hph'); [apply put_self|done|simpl; lia|].
  exists (os ++ OAcceptFails p :: os'), m', s'. split; [|done].
  rewrite run_ops_app, Hrun. simpl. unfold accept_fails, on. rewrite Hs1. simpl. by rewrite Hph1, Hst.
Qed.

(** A path left by a dead daemon, or none, is no obstacle to the next. *)
Lemma start_over m p :
  mc_lock m = None → mc_path m ≠ Foreign → mc_servers m !! p = None →
  ∃ os m' s, run_ops os m = Some m' ∧ mc_servers m' !! p = Some s ∧ sv_phase s = Serving
    ∧ sv_open s = true ∧ mc_path m' = Socket p.
Proof.
  destruct m as [l path ss]. simpl. intros -> Hpath Hp.
  exists (if path is Socket _ then [ONew p 0 true true; OLook p true; ORemove p true; OListen p true; OChmod p true]
          else [ONew p 0 true true; OLook p true; OListen p true; OChmod p true]).
  destruct path; [| |done].
  all: simpl; unfold New, acquire, claim_look, claim_remove, listen, chmod, on; simpl; rewrite Hp; simpl.
  all: repeat (rewrite lookup_insert_eq; simpl).
  all: eexists _, _; split; [done|]; split; [apply lookup_insert_eq|done].
Qed.

(** *** One daemon *)


(** *** A run *)

(** A server that dies while serving, and its successor on the stale socket. *)
Definition demo_run : list op :=
  [ONew 1 20 true true; OLook 1 true; OListen 1 true; OChmod 1 true; OAccept 1; ODie 1;
   ONew 2 20 true true; OLook 2 true; ORemove 2 true; OListen 2 true; OChmod 2 true].

Lemma reach_run tame os m m' :
  reach tame m → forallb (λ o, if o is OAcceptFails _ then negb tame else true) os = true →
  run_ops os m = Some m' → reach tame m'.
Proof.
  revert m. induction os as [|o os IH]; intros m Hm Ho H; simplify_eq/=; [done|].
  apply andb_true_iff in Ho as [Ho Hos]. apply bind_Some in H as (m1 & H1 & H).
  apply (IH m1); [|done..]. apply (reach_step tame o m); [done| |done]. intros ->. by destruct o.
Qed.


(** Accept fails by itself while the watcher has decided to close: Serve
    returns without waiting for it, Close gives the lock away, and the listener
    is closed late, unlinking by name the successor's socket, which serves on
    unreachable. *)
Theorem late_watcher_unlinks :
  ∃ m s, run_ops [ONew 1 20 true true; OLook 1 true; OListen 1 true; OChmod 1 true; OTrigger 1; OWatchStop 1;
                  OAcceptFails 1; OServeReturns 1; OClose 1;
                  ONew 2 20 true true; OLook 2 true; ORemove 2 true; OListen 2 true; OChmod 2 true;
                  OWatchClose 1] boot = Some m
    ∧ reach false m ∧ mc_servers m !! 2%nat = Some s ∧ sv_phase s = Serving ∧ sv_open s = true ∧ mc_path m = Absent.
Proof.
  match goal with |- ∃ _ _, run_ops ?l boot = _ ∧ _ => destruct (run_ops l boot) as [m|] eqn:Hrun end.
  2: by vm_compute in Hrun.
  assert (reach false m) by (eapply reach_run; [apply reach_boot| |exact Hrun]; done).
  exists m, (MkServer Serving true false true false 0). split; [done|]. split; [done|].
  vm_compute in Hrun. injection Hrun as <-. by vm_compute.
Qed.
