(* ===== verification/PathDeny.v ===== *)
(** * The path denylist (src/internal/policy/pathdeny.go, DeniedPath)

    A path is denied by one of its segments, or by a segment and the one after
    it.  Matching is on lower-cased runes over the cleaned path.  The lemmas
    give the rule its shape: what a prefix already denies stays denied below
    it, and a denial never needs more context than a parent and one child,
    which is what the walks of [PathWalk] rely on. *)
From S2P Require Import Prelude Paths Utf8.
Local Open Scope Z_scope.

(** ** Definitions *)

(** One constructor per refusal message. *)
Inductive reason : Type :=
| RSsh
| RNetrc
| RRegistry
| RStore
| RConfig (tool : string)
| RCodex
| RClaudeDir
| RClaude
| RToml
| RCredential
| RDotenv
| RUnreadableLink
| RNoReadLink
| REscape
| ROutside.

Definition is_lower (lits : list string) (seg : list Z) : bool :=
  existsb (λ lit, bool_decide (seg = bytes lit)) lits.

Definition has_prefix (lit : string) (seg : list Z) : bool :=
  match strip_prefix (bytes lit) seg with Some _ => true | None => false end.

(** The tests after the switch. *)
Definition judge_name (seg : list Z) : option reason :=
  if contains (bytes "credential") seg then Some RCredential
  else if is_lower [".env"%string] seg || has_prefix ".env." seg then Some RDotenv
  else None.

(** One segment, lower-cased, with the next one if there is one. *)
Definition judge_segment (seg : list Z) (next : option (list Z)) : option reason :=
  if is_lower [".ssh"] seg then Some RSsh
  else if is_lower [".netrc"; "_netrc"] seg then Some RNetrc
  else if is_lower [".npmrc"; ".pypirc"] seg then Some RRegistry
  else if is_lower [".aws"; ".docker"; ".kube"; ".gnupg"] seg then Some RStore
  else if is_lower [".config"] seg then
    match next with
    | Some n => if is_lower ["gh"] n then Some (RConfig "gh")
                else if is_lower ["gcloud"] n then Some (RConfig "gcloud")
                else judge_name seg
    | None => judge_name seg
    end
  else if is_lower [".codex"] seg then Some RCodex
  else if is_lower [".claude"] seg then
    match next with
    | None => Some RClaudeDir
    | Some n => if is_lower ["hooks"; "skills"] n || has_prefix "settings" n then Some RClaude
                else judge_name seg
    end
  else if is_lower ["approach.toml"] seg then Some RToml
  else judge_name seg
  %string.

Fixpoint judge (segs : list string) : option reason :=
  match segs with
  | [] => None
  | s :: rest =>
      match judge_segment (lower_runes s) (lower_runes <$> head rest) with
      | Some why => Some why
      | None => judge rest
      end
  end.

Definition DeniedPath (path : string) : option reason := judge (split (Clean path)).

(** strings.EqualFold(s, the literal .claude): none of its letters has a fold
    outside ASCII. *)
Definition is_claude (s : string) : bool := is_lower [".claude"%string] (lower_runes s).

(** ** Lemmas *)

Lemma judge_empty : judge [""%string] = None.
Proof. reflexivity. Qed.

(** On an absolute clean path the segments are its names. *)
Lemma DeniedPath_render l : names l → DeniedPath (render l) = judge l.
Proof.
  intros Hl. unfold DeniedPath. rewrite Clean_render, split_render by done.
  destruct l as [|a l]; [reflexivity|]. cbn [judge]. reflexivity.
Qed.

Lemma judge_segment_next seg n :
  is_lower [".claude"%string] seg = false →
  is_Some (judge_segment seg None) → is_Some (judge_segment seg (Some n)).
Proof.
  unfold judge_segment. intros ->. repeat case_match; try done; intros _; eauto.
Qed.

Lemma judge_cons s rest :
  is_Some (judge (s :: rest))
  ↔ is_Some (judge_segment (lower_runes s) (lower_runes <$> head rest)) ∨ is_Some (judge rest).
Proof.
  cbn [judge]. destruct (judge_segment _ _); split; [by left; eauto|eauto|by right|].
  by intros [[? [=]]|].
Qed.

(** What a path denies, every path below it denies; the one exception is a
    terminal .claude, whose children are judged one by one. *)
Lemma judge_below l k :
  (∀ s, last l = Some s → is_claude s = false) → is_Some (judge l) → is_Some (judge (l ++ k)).
Proof.
  induction l as [|s l IH]; intros Hlast; [by intros [? [=]]|].
  cbn [app]. rewrite !judge_cons. intros [Hs|Hl].
  - left. destruct l as [|x l]; [|exact Hs]. cbn [app head fmap option_fmap option_map] in *.
    destruct k as [|y k]; [done|]. cbn. apply judge_segment_next; [|done]. by apply Hlast.
  - right. apply IH; [|done]. intros x Hx. apply Hlast. destruct l; [done|]. exact Hx.
Qed.

(** A denial needs at most a parent and one child. *)
Lemma judge_context l x y k :
  is_claude y = false →
  is_Some (judge (l ++ x :: y :: k)) ↔ is_Some (judge (l ++ [x; y])) ∨ is_Some (judge (y :: k)).
Proof.
  intros Hy. induction l as [|s l IH].
  - cbn [app]. rewrite (judge_cons x (y :: k)), (judge_cons x [y]), (judge_cons y []). cbn [head].
    split; [by intros [?|?]; auto|]. intros [[?|[Hs|[? [=]]]]|?]; [by left| |by right].
    right. rewrite judge_cons. left. destruct k as [|z k]; [exact Hs|].
    apply judge_segment_next; [exact Hy|exact Hs].
  - cbn [app]. rewrite (judge_cons s), (judge_cons s (l ++ [x; y])), IH.
    assert (Hh : head (l ++ x :: y :: k) = head (l ++ [x; y])) by (by destruct l).
    rewrite Hh. tauto.
Qed.

Lemma judge_app l k : is_Some (judge k) → is_Some (judge (l ++ k)).
Proof. intros Hk. induction l as [|s l IH]; [done|]. cbn [app]. rewrite judge_cons. by right. Qed.

(** A denial of a joined path is one of its halves', or a parent's at the join. *)
Lemma judge_split l k :
  is_Some (judge (l ++ k)) →
  is_Some (judge l) ∨ is_Some (judge k)
  ∨ ∃ x y, last l = Some x ∧ head k = Some y
      ∧ is_Some (judge_segment (lower_runes x) (Some (lower_runes y))).
Proof.
  induction l as [|s l IH]; cbn [app]; [by auto|]. rewrite !judge_cons. intros [Hs|Hl].
  - destruct l as [|x l]; [|by left; left]. cbn [app head] in Hs.
    destruct k as [|y k]; [by left; left|]. right. right. by exists s, y.
  - destruct (IH Hl) as [?|[?|(x & y & Hx & Hy & Hj)]]; [by left; right|by auto|].
    right. right. exists x, y. split_and!; [|done|done]. by destruct l.
Qed.

Lemma judge_last l x y :
  last l = Some x → is_Some (judge_segment (lower_runes x) (Some (lower_runes y))) →
  is_Some (judge (l ++ [y])).
Proof.
  intros Hl Hj. apply last_Some in Hl as [l' ->]. rewrite <-(assoc_L app). apply judge_app.
  cbn [app]. rewrite judge_cons. by left.
Qed.

(** A .claude child gives its parent's rules nothing to match. *)
Lemma judge_claude_child l x y :
  last l = Some x → is_claude y = true →
  is_Some (judge_segment (lower_runes x) (Some (lower_runes y))) → is_Some (judge l).
Proof.
  intros Hl Hy Hj. apply last_Some in Hl as [l' ->]. apply judge_app. rewrite judge_cons. left.
  cbn [head fmap option_fmap option_map]. unfold is_claude, is_lower in Hy. cbn [existsb] in Hy.
  rewrite orb_false_r in Hy. apply bool_decide_eq_true in Hy. rewrite Hy in Hj. revert Hj.
  unfold judge_segment.
  change (is_lower ["gh"%string] (bytes ".claude")) with false.
  change (is_lower ["gcloud"%string] (bytes ".claude")) with false.
  change (is_lower ["hooks"%string; "skills"%string] (bytes ".claude") || has_prefix "settings" (bytes ".claude"))
    with false.
  repeat case_match; try done; eauto.
Qed.

Lemma judge_case l k : map lower_runes l = map lower_runes k → judge l = judge k.
Proof.
  revert k. induction l as [|s l IH]; intros [|t k]; try done. cbn [map]. intros [= Hs Hl].
  cbn [judge]. rewrite Hs, (IH _ Hl).
  assert (Hh : lower_runes <$> head l = lower_runes <$> head k) by
    (destruct l as [|a l], k as [|b k]; try done; cbn [map] in Hl; injection Hl as Ha _; cbn; by rewrite Ha).
  by rewrite Hh.
Qed.

(** ** Property *)

(** The denylist judges where a spelling leads, in any case, with one child
    of context.  The verdict on an absolute spelling is the verdict on the names
    its dots and slashes resolve to, so a traversal launders nothing; it does
    not see the case of a letter; a denial is inherited by everything below,
    except that the control directory itself is judged by its children; and
    whether a longer path is denied is decided by its prefix up to some segment
    with one child, or by what follows: one level of context is enough. *)
Theorem denylist_shape :
  (∀ l s, names l → DeniedPath (render l +:+ "/" +:+ s) = judge (lex l (split s)))
  ∧ (∀ l k, map lower_runes l = map lower_runes k → judge l = judge k)
  ∧ (∀ l k, (∀ s, last l = Some s → is_claude s = false) → is_Some (judge l) → is_Some (judge (l ++ k)))
  ∧ ∀ l x y k, is_claude y = false →
      is_Some (judge (l ++ x :: y :: k)) ↔ is_Some (judge (l ++ [x; y])) ∨ is_Some (judge (y :: k)).
Proof.
  split_and!; [|apply judge_case|apply judge_below|apply judge_context].
  intros l s Hl. unfold DeniedPath. rewrite Clean_onto by done.
  pose proof (lex_split_ok l s Hl) as Hk.
  rewrite <-(Clean_render (lex l (split s)) Hk). by apply DeniedPath_render.
Qed.

(** The rules on spellings. *)
Example denied_examples :
  map DeniedPath ["/home/a/.SSH/id"; "src/a/../../.aws/x"; "/h/.config/nvim"; "/h/.config/GH/hosts";
                  "/w/.claude"; "/w/.claude/commands/x"; "/w/.claude/Settings.local.json";
                  "approach.toml.example"; "/w/.git-credentials"; "/w/.env.local"; "/w/.envrc"]%string
  = [Some RSsh; Some RStore; None; Some (RConfig "gh"); Some RClaudeDir; None; Some RClaude;
     None; Some RCredential; Some RDotenv; None].
Proof. vm_compute. reflexivity. Qed.
