(* ===== verification/PathWalk.v ===== *)
(** * Recursive reads (src/internal/policy/pathdeny.go, DeniedDir)

    The file system is a finite tree that does not change while it is
    inspected: files, directories that may refuse to be listed, symlinks that
    may refuse to be read.  An absolute clean path is the list of its names
    ([Paths.render] gives its spelling).  [resolve] is the operating system's
    name resolution; [rootSpellings], the walk and [DeniedDir]'s queue are the
    code's.  A listing is in the order ReadDir returns it. *)
From S2P Require Import Prelude Paths Utf8 PathDeny.

(** ** The file system *)

Definition path : Type := list string.

Inductive node : Type :=
| NFile
| NDir (readable : bool) (entries : list (string * node))
| NLink (target : option string).

Definition is_dir (n : node) : bool := match n with NDir _ _ => true | _ => false end.

Fixpoint entry (c : string) (es : list (string * node)) : option node :=
  match es with
  | [] => None
  | (x, n) :: es' => if bool_decide (x = c) then Some n else entry c es'
  end.

(** os.Lstat below [n], which follows nothing. *)
Fixpoint lookup (n : node) (p : path) : option node :=
  match p with
  | [] => Some n
  | c :: p' =>
      match n with
      | NDir _ es => match entry c es with Some n' => lookup n' p' | None => None end
      | _ => None
      end
  end.

(** A tree whose entries have proper names. *)
Inductive tree_ok : node → Prop :=
| ok_file : tree_ok NFile
| ok_link t : tree_ok (NLink t)
| ok_dir b es : Forall (λ e, name e.1 ∧ tree_ok e.2) es → tree_ok (NDir b es).

Definition denied (p : path) : option reason := DeniedPath (render p).

(** Where a link at [at_] starts from. *)
Definition link_base (at_ : path) (target : string) : path := if IsAbs target then [] else at_.

Definition dot (c : string) : bool := bool_decide (c = ""%string) || bool_decide (c = "."%string).
Definition dotdot (c : string) : bool := bool_decide (c = ".."%string).

Section fs.
Context (tree : node).

(** Name resolution with a cap on the links followed. *)
Fixpoint resolve (links : nat) : path → list string → option path :=
  fix go (at_ : path) (rest : list string) {struct rest} : option path :=
    match rest with
    | [] => Some at_
    | c :: rest' =>
        if dot c then go at_ rest'
        else if dotdot c then go (removelast at_) rest'
        else match lookup tree (at_ ++ [c]) with
             | None => None
             | Some NFile => match rest' with [] => Some (at_ ++ [c]) | _ => None end
             | Some (NDir _ _) => go (at_ ++ [c]) rest'
             | Some (NLink None) => None
             | Some (NLink (Some t)) =>
                 match links with
                 | O => None
                 | S l => resolve l (link_base at_ t) (split t ++ rest')
                 end
             end
    end.

(** filepath.EvalSymlinks of an absolute path. *)
Definition EvalSymlinks (p : path) : option path := resolve 255 [] p.

(** rootSpellings' loop: [acc] are the spellings so far. *)
Fixpoint spell (links : nat) : path → list string → list path → option (list path) :=
  fix go (at_ : path) (rest : list string) (acc : list path) {struct rest} : option (list path) :=
    match rest with
    | [] => Some (acc ++ [at_])
    | c :: rest' =>
        if dot c then go at_ rest' acc
        else if dotdot c then go (removelast at_) rest' acc
        else match lookup tree (at_ ++ [c]) with
             | None => None
             | Some (NLink t) =>
                 match links, t with
                 | S l, Some t =>
                     let rest := split t ++ rest' in
                     spell l (link_base at_ t) rest (acc ++ [lex (link_base at_ t) rest])
                 | _, _ => None
                 end
             | Some _ => go (at_ ++ [c]) rest' acc
             end
    end.

Definition rootSpellings (root : path) : option (list path) := spell 255 [] root [root].

(** os.Stat under the kernel's own cap. *)
Context (os_links : nat).

Definition Stat (p : path) : option (path * node) :=
  match resolve os_links [] p with
  | None => None
  | Some q => match lookup tree q with Some n => Some (q, n) | None => None end
  end.

(** ** The walk *)

(** fs.WalkDir's calls below a node, in order; a listing that fails is a second
    call for the directory. *)
Inductive call : Type :=
| Visit (rel : path) (n : node)
| ReadError (rel : path).

Fixpoint calls (n : node) (rel : path) : list call :=
  Visit rel n ::
  match n with
  | NDir true es => flat_map (λ e : string * node, let '(c, m) := e in calls m (rel ++ [c])) es
  | NDir false _ => [ReadError rel]
  | _ => []
  end.

Record alias : Type := MkAlias {
  al_logical : path;
  al_rel : path;          (* targetRel; targetAbs is the walked root and this *)
}.

Record external : Type := MkExternal {
  ex_source : path;
  ex_logical : path;
  ex_target : path;
}.

Inductive found : Type :=
| FError
| FDenied (p : path) (why : reason).

Section walk.
Context (canReadLink : bool) (physicalRoot logicalRoot : path).

(** A symlink met by the walk: its lexical target is judged, and it is an alias
    in the tree or leaves it. *)
Definition visit_link (rel : path) (t : option string) (acc : list alias * list external)
    : found + list alias * list external :=
  let logical := logicalRoot ++ rel in
  let physical := physicalRoot ++ rel in
  match canReadLink, t with
  | false, _ => inl (FDenied physical RNoReadLink)
  | true, None => inl (FDenied physical RUnreadableLink)
  | true, Some t =>
      let target := lex (link_base (physicalRoot ++ removelast rel) t) (split t) in
      match denied target with
      | Some why => inl (FDenied physical why)
      | None =>
          match below physicalRoot target with
          | Some r => inr (acc.1 ++ [MkAlias logical r], acc.2)
          | None => inr (acc.1, acc.2 ++ [MkExternal physical logical target])
          end
      end
  end.

(** The verdict on an entry's own name, but for a real .claude directory. *)
Definition judge_entry (rel : path) (n : node) : option reason :=
  if is_dir n && match last rel with Some c => is_claude c | None => false end then None
  else denied (logicalRoot ++ rel).

(** The callback. *)
Definition visit (rel : path) (n : node) (acc : list alias * list external)
    : found + list alias * list external :=
  match rel with
  | [] => inr acc
  | _ =>
      match judge_entry rel n with
      | Some why => inl (FDenied (physicalRoot ++ rel) why)
      | None => match n with NLink t => visit_link rel t acc | _ => inr acc end
      end
  end.

Fixpoint run_calls (cs : list call) (acc : list alias * list external)
    : found + list alias * list external :=
  match cs with
  | [] => inr acc
  | ReadError _ :: _ => inl FError
  | Visit rel n :: cs' =>
      match visit rel n acc with
      | inl stop => inl stop
      | inr acc' => run_calls cs' acc'
      end
  end.
End walk.

(** The children of an aliased directory, under the alias. *)
Fixpoint alias_children (es : list (string * node)) (target logical : path) : option found :=
  match es with
  | [] => None
  | (c, n) :: es' =>
      if is_dir n && is_claude c then alias_children es' target logical
      else match denied (logical ++ [c]) with
           | Some why => Some (FDenied (target ++ [c]) why)
           | None => alias_children es' target logical
           end
  end.

(** os.DirFS at [base], at [rel] below it; only a directory has an entry named
    by a lone dot. *)
Definition aliasDenies (base rel logical : path) : option found :=
  match Stat (base ++ rel) with
  | None => Some FError
  | Some (_, NDir true es) => alias_children es (base ++ rel) logical
  | Some (_, NDir false _) => Some FError
  | Some _ => match rel with [] => Some FError | _ => None end
  end.

Fixpoint check_aliases (base : path) (al : list alias) : option found :=
  match al with
  | [] => None
  | a :: al' =>
      match aliasDenies base (al_rel a) (al_logical a) with
      | Some stop => Some stop
      | None => check_aliases base al'
      end
  end.

(** The walk of the directory at [physicalRoot], judged under [logicalRoot];
    os.DirFS of anything but a directory answers with an error. *)
Definition walkTreeLogical (canReadLink : bool) (physicalRoot logicalRoot : path) : found + list external :=
  match denied logicalRoot with
  | Some why => inl (FDenied logicalRoot why)
  | None =>
      match Stat physicalRoot with
      | Some (_, NDir _ _ as n) =>
          match run_calls canReadLink physicalRoot logicalRoot (calls n []) ([], []) with
          | inl stop => inl stop
          | inr (al, ex) =>
              match check_aliases physicalRoot al with
              | Some stop => inl stop
              | None => inr ex
              end
          end
      | _ => inl FError
      end
  end.

(** DeniedDescendant: nothing may leave the walked root. *)
Definition DeniedDescendant (canReadLink : bool) (root : path) : option found :=
  match walkTreeLogical canReadLink root root with
  | inl stop => Some stop
  | inr [] => None
  | inr (e :: _) => Some (FDenied (ex_source e) REscape)
  end.

(** ** DeniedDir *)

Fixpoint first_denied (ps : list path) : option reason :=
  match ps with
  | [] => None
  | p :: ps' => match denied p with Some why => Some why | None => first_denied ps' end
  end.

Section inspect.
Context (resolvedCwd : path).

(** What an external link adds to the queue. *)
Definition follow (e : external) : found + list (path * path) :=
  match rootSpellings (ex_source e) with
  | None => inl FError
  | Some sps =>
      let target := List.last sps [] in
      match below resolvedCwd target with
      | None => inl (FDenied (ex_source e) REscape)
      | Some _ =>
          match first_denied (ex_logical e :: sps) with
          | Some why => inl (FDenied (ex_source e) why)
          | None =>
              match Stat target with
              | None => inl FError
              | Some (_, NDir _ _) => inr ((target, ex_logical e) :: map (λ s, (target, s)) sps)
              | Some _ => inr []
              end
          end
      end
  end.

Fixpoint follow_all (exs : list external) : found + list (path * path) :=
  match exs with
  | [] => inr []
  | e :: exs' =>
      match follow e with
      | inl stop => inl stop
      | inr items =>
          match follow_all exs' with
          | inl stop => inl stop
          | inr items' => inr (items ++ items')
          end
      end
  end.

(** The queue.  [budget] bounds the directories walked; [None]: it ran out. *)
Fixpoint inspect (budget : nat) : list path → list (path * path) → option (option found) :=
  λ visited, fix go (queue : list (path * path)) : option (option found) :=
    match queue with
    | [] => Some None
    | (physical, logical) :: queue' =>
        if bool_decide (physical ∈ visited) then
          match aliasDenies physical [] logical with
          | Some stop => Some (Some stop)
          | None => go queue'
          end
        else
          match budget with
          | O => None
          | S b =>
              match walkTreeLogical true physical logical with
              | inl stop => Some (Some stop)
              | inr exs =>
                  match follow_all exs with
                  | inl stop => Some (Some stop)
                  | inr items => inspect b (physical :: visited) (queue' ++ items)
                  end
              end
          end
    end.
End inspect.

(** The read root under its other spellings. *)
Fixpoint check_spellings (sps : list path) (resolvedRoot : path) : option found :=
  match sps with
  | [] => None
  | s :: sps' =>
      if bool_decide (s = resolvedRoot) then check_spellings sps' resolvedRoot
      else match denied s with
           | Some why => Some (FDenied s why)
           | None =>
               match aliasDenies resolvedRoot [] s with
               | Some stop => Some stop
               | None => check_spellings sps' resolvedRoot
               end
           end
  end.

(** The directories of a tree, as paths. *)
Fixpoint dirs (n : node) (at_ : path) : list path :=
  match n with
  | NDir _ es => at_ :: flat_map (λ e : string * node, let '(c, m) := e in dirs m (at_ ++ [c])) es
  | _ => []
  end.

(** [wd]: the process's directory. *)
Definition DeniedDir (wd : path) (cwd root : string) : option (option found) :=
  let cwd := lex (if IsAbs cwd then [] else wd) (split cwd) in
  let root := lex (if IsAbs root then [] else cwd) (split root) in
  match denied root with
  | Some why => Some (Some (FDenied root why))
  | None =>
      match EvalSymlinks cwd, EvalSymlinks root with
      | Some resolvedCwd, Some resolvedRoot =>
          match below resolvedCwd resolvedRoot with
          | None => Some (Some (FDenied root ROutside))
          | Some _ =>
              match rootSpellings root with
              | None => Some (Some FError)
              | Some sps =>
                  match check_spellings sps resolvedRoot with
                  | Some stop => Some (Some stop)
                  | None => inspect resolvedCwd (S (length (dirs tree []))) [] [(resolvedRoot, resolvedRoot)]
                  end
              end
          end
      | _, _ => Some (Some FError)
      end
  end.
End fs.
