(* ===== verification/PathSound.v ===== *)
(** * What DeniedDir's verdict is worth

    [inspect] always ends within the number of directories; an allowed read
    stays inside the session's directory and clear of the denylist as long as
    no link climbs out of another link; and a link that does is the one way
    out. *)
From S2P Require Import Prelude Paths Utf8 PathDeny PathWalk.

(** ** The tree *)

Lemma lookup_app n p q : lookup n (p ++ q) = lookup n p ≫= λ m, lookup m q.
Proof.
  revert n. induction p as [|c p IH]; intros n; [done|]. cbn [app lookup].
  destruct n as [|b es|t]; [done| |done]. destruct (entry c es) as [m|]; [apply IH|done].
Qed.

Definition is_link (n : node) : bool := match n with NLink _ => true | _ => false end.

(** Everything above an entry is a directory. *)
Lemma lookup_prefix n p q m : lookup n (p ++ q) = Some m → q ≠ [] → ∃ b es, lookup n p = Some (NDir b es).
Proof.
  rewrite lookup_app. destruct (lookup n p) as [x|]; [|done]. cbn. intros Hm Hq.
  destruct q as [|c q]; [done|]. destruct x; try done. eauto.
Qed.

Lemma removelast_snoc {A} (l : list A) x : removelast (l ++ [x]) = l.
Proof. apply removelast_last. Qed.

(** The elements of a resolution that move it downwards. *)
Definition flat (segs : list string) : Prop := Forall (λ c, dotdot c = false) segs.
Definition downs (segs : list string) : list string := List.filter (λ c, negb (dot c)) segs.

Lemma dot_name c : name c → dot c = false ∧ dotdot c = false.
Proof. intros (H1 & H2 & H3 & _). unfold dot, dotdot. by rewrite !bool_decide_false. Qed.

Lemma names_flat l : names l → flat l ∧ downs l = l.
Proof.
  induction 1 as [|c l Hc _ [IH1 IH2]]; [by split; [constructor|]|]. destruct (dot_name c Hc) as [H1 H2]. split.
  - by apply Forall_cons.
  - unfold downs in *. cbn [List.filter]. rewrite H1. cbn [negb]. by rewrite IH2.
Qed.

Lemma entry_in c es m : entry c es = Some m → (c, m) ∈ es.
Proof.
  induction es as [|[x n] es IH]; [done|]. cbn [entry]. case_bool_decide as Hx.
  - intros [= ->]. subst. by left.
  - intros He. right. by apply IH.
Qed.

Lemma entries_ok b es c m : tree_ok (NDir b es) → (c, m) ∈ es → name c ∧ tree_ok m.
Proof. inversion 1 as [| |? ? Hall]; subst. rewrite Forall_forall in Hall. by intros Hin%Hall. Qed.

Lemma lookup_named n p m : tree_ok n → lookup n p = Some m → names p.
Proof.
  revert n. induction p as [|c p IH]; intros n Hn Hm; [constructor|]. cbn [lookup] in Hm.
  destruct n as [|b es|]; [done| |done]. destruct (entry c es) as [x|] eqn:He; [|done].
  destruct (entries_ok _ _ _ _ Hn (entry_in _ _ _ He)) as [Hc Hx].
  constructor; [done|]. by apply (IH x).
Qed.

(** Induction on a tree. *)
Section node_ind.
Context (P : node → Prop) (HF : P NFile) (HL : ∀ t, P (NLink t)).
Context (HD : ∀ b es, Forall (λ e, P e.2) es → P (NDir b es)).

Fixpoint tree_ind (n : node) : P n :=
  match n with
  | NFile => HF
  | NLink t => HL t
  | NDir b es =>
      HD b es ((fix go (es : list (string * node)) : Forall (λ e, P e.2) es :=
        match es with
        | [] => Forall_nil_2 _
        | e :: es' => Forall_cons_2 _ _ _ (tree_ind e.2) (go es')
        end) es)
  end.
End node_ind.

Section tree.
Context (tree : node).
Context (root_dir : is_dir tree = true) (tree_named : tree_ok tree).

Lemma named p n : lookup tree p = Some n → names p.
Proof. by apply lookup_named. Qed.

(** A path that goes through no link: an entry that is none itself. *)
Definition physical (p : path) : Prop := ∃ n, lookup tree p = Some n ∧ is_link n = false.
Definition directory (p : path) : Prop := ∃ b es, lookup tree p = Some (NDir b es).

Lemma directory_physical p : directory p → physical p.
Proof. intros (b & es & H). by exists (NDir b es). Qed.

Lemma directory_root : directory [].
Proof. unfold directory. destruct tree; [done| |done]. by eexists _, _. Qed.

Lemma directory_prefix p q : physical (p ++ q) → q ≠ [] → directory p.
Proof. intros (n & Hn & _) Hq. destruct (lookup_prefix _ _ _ _ Hn Hq) as (b & es & H). by exists b, es. Qed.

Lemma directory_up p : directory p → directory (removelast p).
Proof.
  intros Hp. destruct p as [|c p] using rev_ind; [done|]. rewrite removelast_snoc.
  by apply (directory_prefix p [c]); [apply directory_physical|].
Qed.

Lemma physical_up p : physical p → physical (removelast p).
Proof.
  intros Hp. destruct p as [|c p] using rev_ind; [done|]. rewrite removelast_snoc.
  by apply directory_physical, (directory_prefix p [c]).
Qed.

(** One step of a resolution. *)
Lemma resolve_cons links at_ c rest :
  resolve tree links at_ (c :: rest)
  = if dot c then resolve tree links at_ rest
    else if dotdot c then resolve tree links (removelast at_) rest
    else match lookup tree (at_ ++ [c]) with
         | None => None
         | Some NFile => match rest with [] => Some (at_ ++ [c]) | _ => None end
         | Some (NDir _ _) => resolve tree links (at_ ++ [c]) rest
         | Some (NLink None) => None
         | Some (NLink (Some t)) =>
             match links with O => None | S l => resolve tree l (link_base at_ t) (split t ++ rest) end
         end.
Proof. by destruct links. Qed.

Lemma resolve_nil links at_ : resolve tree links at_ [] = Some at_.
Proof. by destruct links. Qed.

Lemma spell_cons links at_ c rest acc :
  spell tree links at_ (c :: rest) acc
  = if dot c then spell tree links at_ rest acc
    else if dotdot c then spell tree links (removelast at_) rest acc
    else match lookup tree (at_ ++ [c]) with
         | None => None
         | Some (NLink t) =>
             match links, t with
             | S l, Some t =>
                 let rest := split t ++ rest in
                 spell tree l (link_base at_ t) rest (acc ++ [lex (link_base at_ t) rest])
             | _, _ => None
             end
         | Some _ => spell tree links (at_ ++ [c]) rest acc
         end.
Proof. by destruct links. Qed.

Lemma spell_nil links at_ acc : spell tree links at_ [] acc = Some (acc ++ [at_]).
Proof. by destruct links. Qed.

(** A resolution ends on a physical path, and so does a list of spellings. *)
Lemma link_base_directory at_ t : directory at_ → directory (link_base at_ t).
Proof. intros H. unfold link_base. destruct (IsAbs t); [apply directory_root|done]. Qed.

Lemma resolve_physical links : ∀ rest at_ p,
  directory at_ → resolve tree links at_ rest = Some p → physical p.
Proof.
  induction links as [links IHl] using lt_wf_ind. induction rest as [|c rest IH]; intros at_ p Hd.
  { rewrite resolve_nil. intros [= <-]. by apply directory_physical. }
  rewrite resolve_cons. destruct (dot c); [by apply IH|].
  destruct (dotdot c); [by apply IH, directory_up|].
  destruct (lookup tree (at_ ++ [c])) as [[|b es|[t|]]|] eqn:Hn; try done.
  - destruct rest; [|done]. intros [= <-]. by exists NFile.
  - apply IH. by exists b, es.
  - destruct links as [|l]; [done|]. apply (IHl l); [lia|by apply link_base_directory].
Qed.

Lemma spell_physical links : ∀ rest at_ acc sps,
  physical at_ → spell tree links at_ rest acc = Some sps → physical (List.last sps []) ∧ sps ≠ [].
Proof.
  induction links as [links IHl] using lt_wf_ind. induction rest as [|c rest IH]; intros at_ acc sps Hd.
  { rewrite spell_nil. intros [= <-]. rewrite last_last. split; [done|by destruct acc]. }
  rewrite spell_cons. destruct (dot c); [by apply IH|].
  destruct (dotdot c); [by apply IH, physical_up|].
  destruct (lookup tree (at_ ++ [c])) as [n|] eqn:Hn; [|done]. destruct n as [|b es|t].
  - apply IH. by exists NFile.
  - apply IH. by exists (NDir b es).
  - destruct links as [|l]; [done|]. destruct t as [t|]; [|done]. cbv zeta. apply (IHl l); [lia|].
    apply directory_physical, link_base_directory. destruct Hd as (n & Hn' & Hl).
    rewrite lookup_app, Hn' in Hn. cbn in Hn. destruct n; try done. by exists readable, entries.
Qed.

(** Both follow the same way: where both arrive, they agree. *)
Lemma spell_resolve links : ∀ l2 rest at_ acc sps p,
  spell tree links at_ rest acc = Some sps → resolve tree l2 at_ rest = Some p → List.last sps [] = p.
Proof.
  induction links as [links IHl] using lt_wf_ind. intros l2 rest. revert l2.
  induction rest as [|c rest IH]; intros l2 at_ acc sps p.
  { rewrite spell_nil, resolve_nil. intros [= <-] [= <-]. by rewrite last_last. }
  rewrite spell_cons, resolve_cons. destruct (dot c); [by apply IH|].
  destruct (dotdot c); [by apply IH|].
  destruct (lookup tree (at_ ++ [c])) as [[|b es|[t|]]|]; try done.
  - destruct rest; [|done]. rewrite spell_nil. intros [= <-] [= <-]. by rewrite last_last.
  - apply IH.
  - destruct links as [|l], l2 as [|l2]; try done. cbv zeta. apply (IHl l). lia.
Qed.

(** A physical path resolves to itself, whatever the cap. *)
Lemma resolve_to links p : ∀ at_ rest,
  names p → directory (at_ ++ p) → resolve tree links at_ (p ++ rest) = resolve tree links (at_ ++ p) rest.
Proof.
  induction p as [|c p IH]; intros at_ rest Hp Hd; [by rewrite app_nil_r|].
  apply Forall_cons in Hp as [Hc Hp]. destruct (dot_name c Hc) as [H1 H2].
  cbn [app]. rewrite resolve_cons, H1, H2.
  assert (Hat : directory (at_ ++ [c])).
  { destruct p as [|c' p]; [done|]. apply (directory_prefix (at_ ++ [c]) (c' :: p)); [|done].
    rewrite <-(assoc_L app). by apply directory_physical. }
  destruct Hat as (b & es & ->). replace (at_ ++ c :: p) with ((at_ ++ [c]) ++ p) in * by (by rewrite <-(assoc_L app)).
  by apply IH.
Qed.

Lemma resolve_physical_id links p : physical p → resolve tree links [] p = Some p.
Proof.
  intros Hp. destruct p as [|c p _] using rev_ind; [apply resolve_nil|].
  destruct Hp as (n & Hn & Hl). pose proof (named _ _ Hn) as Hnm. apply Forall_app in Hnm as [Hp Hc].
  rewrite Forall_singleton in Hc. destruct (dot_name c Hc) as [H1 H2].
  rewrite (resolve_to links p [] [c]); [|done|by apply (directory_prefix p [c]); [exists n|]].
  cbn [app]. rewrite resolve_cons, H1, H2, Hn. destruct n; [done|by rewrite resolve_nil|done].
Qed.

Lemma Stat_physical os_links p : physical p →
  Stat tree os_links p = match lookup tree p with Some n => Some (p, n) | None => None end.
Proof. intros Hp. unfold Stat. by rewrite resolve_physical_id. Qed.

(** ** The walk *)

Lemma dirs_lookup n p b es at_ : lookup n p = Some (NDir b es) → at_ ++ p ∈ dirs n at_.
Proof.
  revert n at_. induction p as [|c p IH]; intros n at_ Hp.
  - cbn in Hp. simplify_eq. rewrite app_nil_r. by left.
  - cbn [lookup] in Hp. destruct n as [|b' es'|]; [done| |done].
    destruct (entry c es') as [m|] eqn:He; [|done]. cbn [dirs]. right.
    apply list_elem_of_In, in_flat_map. exists (c, m). split; [by apply list_elem_of_In, entry_in|].
    apply list_elem_of_In. specialize (IH m (at_ ++ [c]) Hp). by rewrite <-(assoc_L app) in IH.
Qed.

Lemma calls_lookup n r m rel :
  (∀ rel', ReadError rel' ∉ calls n rel) → lookup n r = Some m → Visit (rel ++ r) m ∈ calls n rel.
Proof.
  revert n rel. induction r as [|c r IH]; intros n rel Hread Hm.
  - cbn in Hm. simplify_eq. rewrite app_nil_r. destruct m; by left.
  - cbn [lookup] in Hm. destruct n as [|b es|]; [done| |done].
    destruct (entry c es) as [x|] eqn:He; [|done].
    destruct b; [|destruct (Hread rel); cbn [calls]; right; by left].
    assert (Hin : ∀ k, k ∈ calls x (rel ++ [c]) → k ∈ calls (NDir true es) rel).
    { intros k Hk. cbn [calls]. right. apply list_elem_of_In, in_flat_map. exists (c, x).
      split; [by apply list_elem_of_In, entry_in|by apply list_elem_of_In]. }
    specialize (IH x (rel ++ [c])). rewrite <-(assoc_L app) in IH. apply Hin, IH; [|done].
    intros rel' Hr. by apply (Hread rel'), Hin.
Qed.

Section walk.
Context (v lroot : path).

(** What the callback let pass, and what it handed on. *)
Definition passed (rel : path) (n : node) (exs : list external) : Prop :=
  judge_entry lroot rel n = None
  ∧ ∀ lk, n = NLink lk → ∃ t, lk = Some t
      ∧ let target := lex (link_base (v ++ removelast rel) t) (split t) in
        denied target = None
        ∧ (is_Some (below v target) ∨ MkExternal (v ++ rel) (lroot ++ rel) target ∈ exs).

Lemma passed_mono rel n exs new : passed rel n exs → passed rel n (exs ++ new).
Proof.
  intros [H1 H2]. split; [done|]. intros lk Hlk. destruct (H2 lk Hlk) as (t & Ht & Hd & Hb).
  exists t. split; [done|]. split; [done|]. destruct Hb; [by left|]. right. apply elem_of_app. by left.
Qed.

Lemma visit_passed rel n acc acc' :
  visit true v lroot rel n acc = inr acc' →
  (∃ new, acc'.2 = acc.2 ++ new) ∧ (rel ≠ [] → passed rel n acc'.2).
Proof.
  assert (Hsame : ∃ new, acc.2 = acc.2 ++ new) by (exists []; by rewrite app_nil_r).
  unfold visit. destruct rel as [|c0 rel0]; [by intros [= <-]|].
  destruct (judge_entry lroot _ n) eqn:Hj; [done|].
  destruct n as [|b es|[t|]]; [by intros [= <-]; split; [|by split]..| |done].
  unfold visit_link. cbv zeta. destruct (denied (lex _ _)) eqn:Ht; [done|].
  destruct (below v _) as [r|] eqn:Hb; intros [= <-]; cbn [snd]; (split; [eauto|]); intros _;
    (split; [done|]); intros lk [= <-]; exists t; (split; [done|]); (split; [done|]).
  - left. rewrite Hb. eauto.
  - right. apply elem_of_app. right. by left.
Qed.

Lemma run_calls_passed cs : ∀ acc acc',
  run_calls true v lroot cs acc = inr acc' →
  (∃ new, acc'.2 = acc.2 ++ new) ∧ (∀ rel, ReadError rel ∉ cs)
  ∧ ∀ rel n, Visit rel n ∈ cs → rel ≠ [] → passed rel n acc'.2.
Proof.
  induction cs as [|[rel n|rel] cs IH]; intros acc acc'; cbn [run_calls]; [| |done].
  { intros [= <-]. split_and!; [by exists []; rewrite app_nil_r|by intros rel ?%elem_of_nil
      |by intros rel n ?%elem_of_nil]. }
  destruct (visit true v lroot rel n acc) as [stop|acc1] eqn:Hv; [done|]. intros Hr.
  destruct (visit_passed _ _ _ _ Hv) as [[new1 H1] Hp].
  destruct (IH _ _ Hr) as ([new2 H2] & Hre & Hall). rewrite H2, H1. split_and!.
  - exists (new1 ++ new2). by rewrite (assoc_L app).
  - intros r. rewrite elem_of_cons. intros [?|?]; [done|by destruct (Hre r)].
  - intros r m Hin Hne. rewrite <-H1, <-H2. apply elem_of_cons in Hin as [[= -> ->]|Hin]; [|by apply Hall].
    rewrite H2. by apply passed_mono, Hp.
Qed.

(** A walk that found nothing passed every entry of the tree. *)
Lemma walk_passed os_links exs :
  walkTreeLogical tree os_links true v lroot = inr exs → physical v →
  denied lroot = None ∧ directory v
  ∧ ∀ r m, r ≠ [] → lookup tree (v ++ r) = Some m → passed r m exs.
Proof.
  intros Hw Hphys. unfold walkTreeLogical in Hw. destruct (denied lroot) eqn:Hd; [done|].
  rewrite Stat_physical in Hw by done. destruct (lookup tree v) as [n|] eqn:Hn; [|done].
  destruct n as [|b es|]; [done| |done]. split; [done|]. split; [by exists b, es|].
  destruct (run_calls _ _ _ _ _) as [stop|[al ex]] eqn:Hr; [done|].
  destruct (check_aliases _ _ _ al); [done|]. injection Hw as <-.
  destruct (run_calls_passed _ _ _ Hr) as (_ & Hre & Hall). intros r m Hne Hm.
  apply Hall; [|done]. rewrite lookup_app, Hn in Hm. cbn in Hm.
  by apply (calls_lookup (NDir b es) r m []).
Qed.
End walk.

(** ** What a walked directory holds *)

Lemma denied_judge p n : lookup tree p = Some n → denied p = judge p.
Proof. intros Hn. unfold denied. apply DeniedPath_render. by eapply named. Qed.

Definition spared (p : path) (n : node) : Prop :=
  is_dir n = true ∧ ∃ c, last p = Some c ∧ is_claude c = true.
Definition safe (p : path) (n : node) : Prop := denied p = None ∨ spared p n.

Lemma judge_entry_None lroot rel n :
  rel ≠ [] → judge_entry lroot rel n = None → denied (lroot ++ rel) = None ∨ spared rel n.
Proof.
  intros Hne. unfold judge_entry, spared. destruct (last rel) as [c|] eqn:Hl.
  - destruct (is_dir n), (is_claude c) eqn:Hc; cbn [andb]; intros H; auto. right. eauto.
  - by apply last_None in Hl.
Qed.

Lemma alias_children_None es target logical :
  alias_children es target logical = None →
  ∀ c n, (c, n) ∈ es → denied (logical ++ [c]) = None ∨ spared [c] n.
Proof.
  induction es as [|[x m] es IH]; intros Ha c n; [by intros ?%elem_of_nil|].
  cbn [alias_children] in Ha. rewrite elem_of_cons.
  destruct (is_dir m && is_claude x) eqn:Hsp.
  - apply andb_true_iff in Hsp as [Hd Hc]. intros [[= -> ->]|Hin]; [|by apply IH].
    right. split; [done|]. by exists x.
  - destruct (denied (logical ++ [x])) eqn:Hden; [done|].
    intros [[= -> ->]|Hin]; [by left|by apply IH].
Qed.

(** The depth-one check of a directory under a spelling. *)
Lemma aliasDenies_None os_links v logical :
  physical v → aliasDenies tree os_links v [] logical = None →
  ∀ c n, lookup tree (v ++ [c]) = Some n → denied (logical ++ [c]) = None ∨ spared [c] n.
Proof.
  intros Hv Ha c n Hc. unfold aliasDenies in Ha. rewrite app_nil_r, Stat_physical in Ha by done.
  rewrite lookup_app in Hc. destruct (lookup tree v) as [x|]; [|done]. cbn in Hc.
  destruct x as [|b es|]; [done| |done]. destruct b; [|done].
  destruct (entry c es) as [m|] eqn:He; [|done]. injection Hc as <-.
  eapply alias_children_None; [exact Ha|]. by apply entry_in.
Qed.

Lemma spared_app l p n : spared p n → spared (l ++ p) n.
Proof.
  intros (Hd & c & Hc & Hcl). split; [done|]. exists c. split; [|done].
  apply last_Some in Hc as [p' ->]. rewrite (assoc_L app). apply last_snoc.
Qed.

(** Every entry of a walked directory is safe under its real path, whichever
    spelling the walk judged it under: the spelling's own context reaches one
    level, which the depth-one check covers. *)
Lemma walked_safe os_links v lroot exs :
  physical v → names lroot → walkTreeLogical tree os_links true v lroot = inr exs → denied v = None →
  (lroot = v ∨ aliasDenies tree os_links v [] v = None) →
  ∀ r n, lookup tree (v ++ r) = Some n → safe (v ++ r) n.
Proof.
  intros Hv Hlr Hw Hdv Hself r n Hn.
  destruct (walk_passed v lroot os_links exs Hw Hv) as (_ & (b & es & Hdir) & Hall).
  destruct (decide (r = [])) as [->|Hne]; [left; by rewrite app_nil_r|].
  destruct (Hall r n Hne Hn) as [Hj _].
  destruct (judge_entry_None lroot r n Hne Hj) as [Hl|Hsp]; [|right; by apply spared_app].
  unfold safe. rewrite (denied_judge _ _ Hn). destruct Hself as [->|Hself].
  { left. by rewrite <-(denied_judge _ _ Hn). }
  destruct (judge (v ++ r)) as [why|] eqn:Hvr; [exfalso|by left].
  rewrite (denied_judge _ _ Hdir) in Hdv.
  destruct (judge_split v r) as [[? Hs]|[Hs|(x & y & Hx & Hy & Hjs)]]; [by rewrite Hvr|congruence| |].
  - assert (Hnr : names (lroot ++ r)).
    { apply Forall_app. split; [done|]. apply named in Hn. by apply Forall_app in Hn as [_ ?]. }
    unfold denied in Hl. rewrite DeniedPath_render in Hl by done.
    destruct (judge_app lroot r Hs). congruence.
  - destruct r as [|c r]; [done|]. cbn in Hy. injection Hy as ->.
    assert (∃ m, lookup tree (v ++ [y]) = Some m) as [m Hm].
    { destruct r as [|z r]; [by exists n|].
      destruct (lookup_prefix tree (v ++ [y]) (z :: r) n) as (b' & es' & H'); [|done|by eexists].
      by rewrite <-(assoc_L app). }
    destruct (aliasDenies_None os_links v v Hv Hself y m Hm) as [Hd|(_ & c & [= <-] & Hc)].
    + rewrite (denied_judge _ _ Hm) in Hd. destruct (judge_last v x y Hx Hjs). congruence.
    + destruct (judge_claude_child v x y Hx Hc Hjs). congruence.
Qed.

(** ** The queue *)

Lemma names_app l k : names l → names k → names (l ++ k).
Proof. intros. by apply Forall_app. Qed.

Lemma calls_named n : ∀ rel, tree_ok n → names rel → ∀ r m, Visit r m ∈ calls n rel → names r.
Proof.
  induction n as [|t|b es IH] using tree_ind; intros rel Hok Hrel r m Hin.
  1,2: cbn in Hin; by apply elem_of_cons in Hin as [[= -> ->]|?%elem_of_nil].
  cbn [calls] in Hin. apply elem_of_cons in Hin as [[= -> ->]|Hin]; [done|]. destruct b.
  - apply list_elem_of_In, in_flat_map in Hin as ([c x] & He%list_elem_of_In & Hin%list_elem_of_In).
    destruct (entries_ok _ _ _ _ Hok He) as [Hc Hx]. rewrite Forall_forall in IH.
    apply (IH (c, x) He (rel ++ [c])) with m; [done| |done]. by apply names_app; [|constructor].
  - by apply elem_of_cons in Hin as [[=]|?%elem_of_nil].
Qed.

Definition link_named (e : external) : Prop := names (ex_source e) ∧ names (ex_logical e).

Lemma run_calls_named v lroot cs : ∀ acc acc',
  names v → names lroot → (∀ rel n, Visit rel n ∈ cs → names rel) → Forall link_named acc.2 →
  run_calls true v lroot cs acc = inr acc' → Forall link_named acc'.2.
Proof.
  induction cs as [|[rel n|rel] cs IH]; intros acc acc' Hv Hl Hcs Hacc; cbn [run_calls]; [by intros [= <-]| |done].
  destruct (visit true v lroot rel n acc) as [stop|acc1] eqn:Hvis; [done|].
  apply IH; [done|done|intros r m Hin; apply (Hcs r m); by right|].
  assert (Hrel : names rel) by (apply (Hcs rel n); by left).
  revert Hvis. unfold visit. destruct rel as [|c0 rel0]; [by intros [= <-]|].
  destruct (judge_entry _ _ _); [done|]. destruct n as [|b es|[t|]]; [by intros [= <-]..| |done].
  unfold visit_link. cbv zeta. destruct (denied _); [done|].
  destruct (below _ _); intros [= <-]; [done|]. apply Forall_app. split; [done|].
  apply Forall_singleton. split; by apply names_app.
Qed.

Lemma walk_named os_links v lroot exs :
  walkTreeLogical tree os_links true v lroot = inr exs → physical v → names lroot → Forall link_named exs.
Proof.
  intros Hw Hphys Hl. unfold walkTreeLogical in Hw. destruct (denied lroot); [done|].
  rewrite Stat_physical in Hw by done. destruct (lookup tree v) as [n|] eqn:Hn; [|done].
  destruct n as [|b es|]; [done| |done].
  destruct (run_calls _ _ _ _ _) as [stop|[al ex]] eqn:Hr; [done|].
  destruct (check_aliases _ _ _ al); [done|]. injection Hw as <-.
  assert (Hok : tree_ok (NDir b es)).
  { clear -tree_named Hn. revert Hn tree_named. generalize tree as n. induction v as [|c v IH]; intros n Hn Hok.
    - by injection Hn as ->.
    - cbn [lookup] in Hn. destruct n as [|b' es'|]; [done| |done].
      destruct (entry c es') as [x|] eqn:He; [|done].
      apply (IH x Hn). by apply (entries_ok _ _ _ _ Hok (entry_in _ _ _ He)). }
  eapply (run_calls_named v lroot _ ([], []) (al, ex)); [by eapply named|done| |constructor|exact Hr].
  intros rel m. by apply (calls_named (NDir b es) []); [|constructor].
Qed.

(** Spellings are made of names. *)
Definition slashless (segs : list string) : Prop := ∀ s, s ∈ segs → str_mem "/" s = false.

Lemma spell_named links : ∀ rest at_ acc sps,
  names at_ → slashless rest → Forall names acc →
  spell tree links at_ rest acc = Some sps → Forall names sps.
Proof.
  induction links as [links IHl] using lt_wf_ind. induction rest as [|c rest IH]; intros at_ acc sps Hat Hsl Hacc.
  { rewrite spell_nil. intros [= <-]. apply Forall_app. by split; [|apply Forall_singleton]. }
  assert (Hsl' : slashless rest) by (intros s ?; apply Hsl; by right).
  rewrite spell_cons. destruct (dot c); [by apply IH|].
  destruct (dotdot c).
  { apply IH; [|done|done]. destruct at_ as [|x l _] using rev_ind; [done|]. rewrite removelast_snoc.
    by apply Forall_app in Hat as [? _]. }
  destruct (lookup tree (at_ ++ [c])) as [n|] eqn:Hn; [|done]. destruct n as [|b es|t].
  1,2: apply IH; [by eapply named|done|done].
  destruct links as [|l]; [done|]. destruct t as [t|]; [|done]. cbv zeta.
  assert (Hb : names (link_base at_ t)) by (unfold link_base; destruct (IsAbs t); [constructor|done]).
  assert (Hr : slashless (split t ++ rest)).
  { intros s [Hs|Hs]%elem_of_app; [by apply (split_seg_noslash t)|by apply Hsl']. }
  apply (IHl l); [lia|done|done|]. apply Forall_app. split; [done|]. apply Forall_singleton.
  by apply lex_ok.
Qed.

Lemma spellings_named p sps : names p → rootSpellings tree p = Some sps → Forall names sps.
Proof.
  intros Hp. unfold rootSpellings. apply spell_named; [constructor| |by apply Forall_singleton].
  intros s. by apply names_noslash.
Qed.

Lemma spellings_last p sps : rootSpellings tree p = Some sps → physical (List.last sps []) ∧ sps ≠ [].
Proof. apply spell_physical, directory_physical, directory_root. Qed.

Section inspect.
Context (os_links : nat) (resolvedCwd : path).
Implicit Types (item : path * path).

Definition item_ok item : Prop := physical item.1 ∧ names item.2.

(** A queued item was dealt with: walked, or checked one level deep. *)
Definition walked item (exs : list external) : Prop :=
  walkTreeLogical tree os_links true item.1 item.2 = inr exs.
Definition checked item : Prop :=
  (∃ exs, walked item exs) ∨ aliasDenies tree os_links item.1 [] item.2 = None.

Lemma follow_items e items :
  link_named e → follow tree os_links resolvedCwd e = inr items → Forall item_ok items.
Proof.
  intros [Hs Hl]. unfold follow. destruct (rootSpellings tree (ex_source e)) as [sps|] eqn:Hsp; [|done].
  destruct (below _ _); [|done]. destruct (first_denied _); [done|].
  destruct (Stat _ _ _) as [[q n]|]; [|done]. destruct n; intros [= <-]; try constructor.
  - split; [by apply (spellings_last _ _ Hsp)|done].
  - apply Forall_fmap. eapply Forall_impl; [exact (spellings_named _ _ Hs Hsp)|]. intros s Hn.
    split; [by apply (spellings_last _ _ Hsp)|done].
Qed.

Lemma follow_all_items exs items :
  Forall link_named exs → follow_all tree os_links resolvedCwd exs = inr items →
  Forall item_ok items
  ∧ ∀ e, e ∈ exs → ∃ its, follow tree os_links resolvedCwd e = inr its ∧ ∀ it, it ∈ its → it ∈ items.
Proof.
  intros Hall. revert items. induction Hall as [|e exs He Hall IH]; intros items; cbn [follow_all].
  { intros [= <-]. split; [constructor|by intros e ?%elem_of_nil]. }
  destruct (follow _ _ _ e) as [|its] eqn:Hf; [done|].
  destruct (follow_all _ _ _ exs) as [|items'] eqn:Hfa; [done|]. intros [= <-].
  destruct (IH _ eq_refl) as [H1 H2]. split; [apply Forall_app; split; [by eapply follow_items|done]|].
  intros e' [->|Hin]%elem_of_cons.
  - exists its. split; [done|]. intros it ?. apply elem_of_app. by left.
  - destruct (H2 e' Hin) as (its' & ? & Hsub). exists its'. split; [done|]. intros it ?.
    apply elem_of_app. right. by apply Hsub.
Qed.

(** A walked directory hands its links on to the set [D]. *)
Definition closed (D : list path) (p : path) : Prop :=
  ∃ l exs, names l ∧ walked (p, l) exs
  ∧ ∀ e, e ∈ exs → ∃ its, follow tree os_links resolvedCwd e = inr its
      ∧ ∀ it, it ∈ its → it.1 ∈ D ∧ checked it.

Lemma inspect_cons budget visited p l queue :
  inspect tree os_links resolvedCwd budget visited ((p, l) :: queue)
  = if bool_decide (p ∈ visited) then
      match aliasDenies tree os_links p [] l with
      | Some stop => Some (Some stop)
      | None => inspect tree os_links resolvedCwd budget visited queue
      end
    else match budget with
         | O => None
         | S b =>
             match walkTreeLogical tree os_links true p l with
             | inl stop => Some (Some stop)
             | inr exs =>
                 match follow_all tree os_links resolvedCwd exs with
                 | inl stop => Some (Some stop)
                 | inr items => inspect tree os_links resolvedCwd b (p :: visited) (queue ++ items)
                 end
             end
         end.
Proof. by destruct budget. Qed.

(** The queue is always worked off, and an allowed one leaves a closed set. *)
Lemma inspect_spec budget : ∀ queue visited,
  Forall item_ok queue → NoDup visited → visited ⊆ dirs tree [] →
  (length (dirs tree []) < budget + length visited)%nat →
  ∃ r, inspect tree os_links resolvedCwd budget visited queue = Some r
  ∧ (r = None → ∃ D, visited ⊆ D ∧ (∀ it, it ∈ queue → it.1 ∈ D ∧ checked it)
       ∧ ∀ p, p ∈ D → p ∉ visited → closed D p).
Proof.
  induction budget as [|b IHb]; induction queue as [|[p l] queue IH]; intros visited Hq Hnd Hsub Hb.
  1,3: exists None; (split; [done|]); intros _; exists visited;
       (split_and!; [done|by intros it ?%elem_of_nil|by intros p ? ?]).
  { pose proof (submseteq_length _ _ (NoDup_submseteq _ _ Hnd Hsub)). lia. }
  rewrite inspect_cons. apply Forall_cons in Hq as [[Hp Hl] Hq]. cbn in Hp, Hl.
  case_bool_decide as Hin.
  - destruct (aliasDenies tree os_links p [] l) as [stop|] eqn:Ha; [by exists (Some stop)|].
    destruct (IH visited Hq Hnd Hsub Hb) as (r & Hr & Hclosed). exists r. split; [done|].
    intros Hnone. destruct (Hclosed Hnone) as (D & H1 & H2 & H3). exists D. split_and!; [done| |done].
    intros it [->|Hit]%elem_of_cons; [|by apply H2]. split; [by apply H1|by right].
  - destruct (walkTreeLogical tree os_links true p l) as [stop|exs] eqn:Hw; [by exists (Some stop)|].
    pose proof (walk_named os_links p l exs Hw Hp Hl) as Hnamed.
    destruct (follow_all tree os_links resolvedCwd exs) as [stop|items] eqn:Hf; [by exists (Some stop)|].
    destruct (follow_all_items _ _ Hnamed Hf) as [Hitems Heach].
    destruct (walk_passed p l os_links exs Hw Hp) as (_ & (bb & es & Hdir) & _).
    destruct (IHb (queue ++ items) (p :: visited)) as (r & Hr & Hclosed).
    { by apply Forall_app. }
    { by constructor. }
    { intros x [Hx|Hx]%elem_of_cons; [subst x; by apply (dirs_lookup tree p bb es [])|by apply Hsub]. }
    { cbn [length]. lia. }
    exists r. split; [done|]. intros Hnone. destruct (Hclosed Hnone) as (D & H1 & H2 & H3).
    exists D. assert (Hall : ∀ it, it ∈ items → it.1 ∈ D ∧ checked it).
    { intros it Hit. apply H2, elem_of_app. by right. }
    split_and!.
    + intros x Hx. apply H1. by right.
    + intros it [->|Hit]%elem_of_cons; [|apply H2, elem_of_app; by left].
      split; [apply H1; by left|]. left. by exists exs.
    + intros x Hx Hnv. destruct (decide (x = p)) as [->|Hne].
      * exists l, exs. split_and!; [done|done|]. intros e He. destruct (Heach e He) as (its & ? & Hsub').
        exists its. split; [done|]. intros it Hit. by apply Hall, Hsub'.
      * apply H3; [done|]. by intros [?|?]%elem_of_cons.
Qed.

(** ** Resolutions that stay *)

Lemma below_app base p rest : is_Some (below base p) → is_Some (below base (p ++ rest)).
Proof.
  intros [r Hr]. apply below_spec in Hr as ->. exists (r ++ rest). apply below_spec.
  by rewrite (assoc_L app).
Qed.

Lemma resolve_app l : ∀ xs at_ ys p,
  resolve tree l at_ (xs ++ ys) = Some p →
  ∃ q l', (l' ≤ l)%nat ∧ resolve tree l at_ xs = Some q ∧ resolve tree l' q ys = Some p.
Proof.
  induction l as [l IHl] using lt_wf_ind. induction xs as [|c xs IH]; intros at_ ys p; cbn [app].
  { intros H. exists at_, l. by rewrite resolve_nil. }
  rewrite !resolve_cons. destruct (dot c); [apply IH|]. destruct (dotdot c); [apply IH|].
  destruct (lookup tree (at_ ++ [c])) as [[|b es|[t|]]|]; [|apply IH| |done..].
  - destruct xs as [|x xs]; [|done]. destruct ys as [|y ys]; [|done]. cbn [app].
    intros [= <-]. exists (at_ ++ [c]), l. by rewrite resolve_nil.
  - destruct l as [|l]; [done|]. rewrite (assoc_L app). intros H.
    destruct (IHl l (Nat.lt_succ_diag_r l) _ _ _ _ H) as (q & l' & Hle & H1 & H2).
    exists q, l'. split; [lia|done].
Qed.

(** From a file nothing but dots lead on. *)
Lemma resolve_file l q segs p :
  lookup tree q = Some NFile → flat segs → resolve tree l q segs = Some p → p = q.
Proof.
  intros Hq. induction segs as [|c segs IH]; intros Hf; [rewrite resolve_nil; by intros [= <-]|].
  apply Forall_cons in Hf as [Hc Hf]. rewrite resolve_cons, Hc. destruct (dot c); [by apply IH|].
  by rewrite lookup_app, Hq.
Qed.

Lemma lex_flat base segs : flat segs → lex base segs = base ++ downs segs.
Proof.
  unfold flat, lex. intros Hf. enough (H : ∀ out, fold_left (clean_step true) segs out = rev (downs segs) ++ out).
  { by rewrite H, rev_app_distr, !rev_involutive. }
  induction Hf as [|c segs Hc Hf IH]; intros out; [done|]. cbn [fold_left]. rewrite IH.
  unfold downs. cbn [List.filter]. unfold clean_step. unfold dot in *. unfold dotdot in Hc.
  apply bool_decide_eq_false in Hc. destruct (bool_decide (c = ""%string) || bool_decide (c = "."%string));
    cbn [negb]; [done|]. rewrite (bool_decide_false (c = ".."%string)) by done. cbn [rev].
  by rewrite <-(assoc_L app).
Qed.

(** Leading dots and climbs resolve lexically from a directory. *)
Definition ups (segs : list string) : Prop := Forall (λ c, dot c = true ∨ dotdot c = true) segs.

Lemma lex_cons base c segs :
  names base →
  lex base (c :: segs) = if dot c then lex base segs
    else if dotdot c then lex (removelast base) segs else lex (base ++ [c]) segs.
Proof.
  intros Hb. unfold lex, dot, dotdot. cbn [fold_left]. unfold clean_step at 2.
  destruct (bool_decide (c = ""%string) || bool_decide (c = "."%string)); [done|].
  destruct (bool_decide (c = ".."%string)) eqn:Hc; [|by rewrite rev_app_distr].
  destruct base as [|x base _] using rev_ind; [done|]. rewrite rev_app_distr, removelast_snoc. cbn [rev app].
  apply Forall_app in Hb as [_ Hx]. rewrite Forall_singleton in Hx. destruct Hx as (_ & _ & Hx & _).
  by rewrite bool_decide_false.
Qed.

Lemma resolve_ups l us : ∀ base rest,
  ups us → directory base →
  resolve tree l base (us ++ rest) = resolve tree l (lex base us) rest ∧ directory (lex base us).
Proof.
  induction us as [|c us IH]; intros base rest Hu Hd; [by rewrite lex_nil|].
  apply Forall_cons in Hu as [Hc Hu]. cbn [app].
  rewrite resolve_cons, lex_cons by (destruct Hd as (? & ? & Hd); by eapply named).
  destruct (dot c) eqn:Hdot; [by apply IH|]. destruct Hc as [?|Hc]; [done|]. rewrite Hc.
  apply IH; [done|]. by apply directory_up.
Qed.

(** Going down through directories that are there. *)
Lemma resolve_down l a : ∀ base ns r rest,
  flat ns → downs ns = a ++ r → directory (base ++ a) →
  ∃ ns', flat ns' ∧ resolve tree l base (ns ++ rest) = resolve tree l (base ++ a) (ns' ++ rest).
Proof.
  induction a as [|c a IHa]; intros base ns r rest Hf Hds Hdir; [exists ns; by rewrite app_nil_r|].
  induction Hf as [|x ns Hx Hf IH]; [done|]. unfold downs in *. cbn [List.filter] in Hds.
  cbn [app]. rewrite resolve_cons, Hx. destruct (dot x) eqn:Hdot; cbn [negb] in Hds; [by apply IH|].
  injection Hds as -> Hds. clear IH.
  assert (Hat : directory (base ++ [c])).
  { destruct a as [|c' a]; [done|]. apply (directory_prefix (base ++ [c]) (c' :: a)); [|done].
    rewrite <-(assoc_L app). by apply directory_physical. }
  destruct Hat as (b & es & ->).
  destruct (IHa (base ++ [c]) ns r rest Hf Hds) as (ns' & Hf' & He).
  { by rewrite <-(assoc_L app). }
  exists ns'. split; [done|]. rewrite He. by rewrite <-(assoc_L app).
Qed.

(** ** A closed set holds every resolution *)

Definition plain (segs : list string) : Prop := ∃ us ns, segs = us ++ ns ∧ ups us ∧ flat ns.

Definition handed (D : list path) (src : path) : Prop :=
  ∃ e its, ex_source e = src ∧ follow tree os_links resolvedCwd e = inr its
  ∧ ∀ it, it ∈ its → it.1 ∈ D ∧ checked it.

(** A directory of the set, as a reader meets it. *)
Record haven (D : list path) (v : path) : Prop := Haven {
  hv_dir : directory v;
  hv_in : is_Some (below resolvedCwd v);
  hv_safe : ∀ r n, lookup tree (v ++ r) = Some n → safe (v ++ r) n;
  hv_links : ∀ r lk, r ≠ [] → lookup tree (v ++ r) = Some (NLink lk) → ∃ t, lk = Some t
    ∧ (is_Some (below v (lex (link_base (v ++ removelast r) t) (split t))) ∨ handed D (v ++ r));
}.

Lemma closed_haven D v :
  closed D v → physical v → is_Some (below resolvedCwd v) → denied v = None → checked (v, v) → haven D v.
Proof.
  intros (l & exs & Hl & Hw & Hf) Hv Hin Hden Hck. unfold walked in Hw. cbn in Hw.
  destruct (walk_passed v l os_links exs Hw Hv) as (_ & Hdir & Hall). split; [done|done| |].
  - destruct Hck as [[exs' Hw']|Ha].
    + eapply walked_safe; [done| |exact Hw'|done|by left]. destruct Hv as (n & Hn & _). by eapply named.
    + eapply walked_safe; [done|exact Hl|exact Hw|done|by right].
  - intros r lk Hne Hn. destruct (Hall r _ Hne Hn) as [_ Hlk]. destruct (Hlk lk eq_refl) as (t & -> & _ & Hb).
    exists t. split; [done|]. destruct Hb as [?|He]; [by left|right].
    destruct (Hf _ He) as (its & ? & ?). by exists (MkExternal (v ++ r) (l ++ r)
      (lex (link_base (v ++ removelast r) t) (split t))), its.
Qed.

Lemma first_denied_None ps : first_denied ps = None → Forall (λ p, denied p = None) ps.
Proof.
  induction ps as [|p ps IH]; [constructor|]. cbn [first_denied]. destruct (denied p) eqn:Hp; [done|].
  intros H. constructor; [done|by apply IH].
Qed.

(** Where a handed link leads: to another haven, or to a safe file. *)
Lemma handed_target D src T :
  (∀ p, p ∈ D → closed D p) → handed D src →
  (∀ sps, rootSpellings tree src = Some sps → List.last sps [] = T) →
  haven D T ∨ lookup tree T = Some NFile ∧ is_Some (below resolvedCwd T) ∧ denied T = None.
Proof.
  intros HD (e & its & <- & Hf & Hits) HT. unfold follow in Hf.
  destruct (rootSpellings tree (ex_source e)) as [sps|] eqn:Hsp; [|done].
  rewrite (HT sps eq_refl) in Hf. destruct (spellings_last _ _ Hsp) as [Hphys Hne].
  rewrite (HT sps eq_refl) in Hphys. destruct (below resolvedCwd T) as [r|] eqn:Hb; [|done].
  destruct (first_denied _) eqn:Hfd; [done|]. apply first_denied_None in Hfd.
  apply Forall_cons in Hfd as [_ Hfd].
  assert (HTin : T ∈ sps).
  { rewrite <-(HT sps eq_refl). destruct sps as [|s sps _] using rev_ind; [done|].
    rewrite last_last. apply elem_of_app. right. by left. }
  assert (Hden : denied T = None) by (rewrite Forall_forall in Hfd; by apply Hfd).
  rewrite Stat_physical in Hf by done. destruct Hphys as (n & Hn & Hl). rewrite Hn in Hf.
  destruct n as [|b es|]; [right; by split_and!| |done].
  injection Hf as <-. left.
  destruct (Hits (T, T)) as [HTD Hck].
  { right. apply list_elem_of_fmap. by exists T. }
  apply closed_haven; [by apply HD|by exists (NDir b es)|by rewrite Hb|done|done].
Qed.

Definition stays (p : path) : Prop :=
  is_Some (below resolvedCwd p) ∧ ∃ n, lookup tree p = Some n ∧ safe p n.

Lemma haven_stays D v rel n : haven D v → lookup tree (v ++ rel) = Some n → stays (v ++ rel).
Proof. intros [_ Hin Hs _] Hn. split; [by apply below_app|]. exists n. split; [done|by apply Hs]. Qed.

(** An in-tree link with a plain target resolves to somewhere in the tree. *)
Lemma plain_link l v base t rest :
  plain (split t) → directory base → directory v → is_Some (below v (lex base (split t))) → flat rest →
  ∃ rel segs, directory (v ++ rel) ∧ flat segs
    ∧ resolve tree l base (split t ++ rest) = resolve tree l (v ++ rel) segs.
Proof.
  intros (us & ns & Hsp & Hu & Hf) Hb Hv [r Hr]. apply below_spec in Hr. intros Hrest.
  rewrite Hsp, <-(assoc_L app). destruct (resolve_ups l us base (ns ++ rest) Hu Hb) as [-> Hd].
  rewrite Hsp, lex_app, lex_flat in Hr by done. apply app_eq_app in Hr as (k & [[Hk Hk2]|[Hk Hk2]]).
  - exists k, (ns ++ rest). rewrite <-Hk. split_and!; [done|by apply Forall_app|done].
  - destruct (resolve_down l k (lex base us) ns r rest Hf Hk2) as (ns' & Hf' & ->); [by rewrite <-Hk|].
    exists [], (ns' ++ rest). rewrite app_nil_r, <-Hk. split_and!; [done|by apply Forall_app|done].
Qed.

Context (plain_links : ∀ p t, lookup tree p = Some (NLink (Some t)) → plain (split t)).

Lemma resolve_stays D : (∀ p, p ∈ D → closed D p) → ∀ links segs v rel p,
  haven D v → directory (v ++ rel) → flat segs →
  resolve tree links (v ++ rel) segs = Some p → stays p.
Proof.
  intros HD. induction links as [links IHl] using lt_wf_ind.
  induction segs as [|c segs IH]; intros v rel p Hv Hd Hf.
  { rewrite resolve_nil. intros [= <-]. destruct Hd as (b & es & Hd). by eapply haven_stays. }
  apply Forall_cons in Hf as [Hc Hf]. rewrite resolve_cons, Hc. destruct (dot c) eqn:Hdot; [by apply IH|].
  destruct (lookup tree ((v ++ rel) ++ [c])) as [[|b es|[t|]]|] eqn:Hn; [| | |done..].
  - destruct segs; [|done]. intros [= <-]. rewrite <-(assoc_L app) in Hn |- *. by eapply haven_stays.
  - rewrite <-(assoc_L app) in *. apply IH; [done|by exists b, es|done].
  - destruct links as [|l]; [done|]. intros Hres.
    assert (Hn' := Hn). rewrite <-(assoc_L app) in Hn'.
    destruct (hv_links _ _ Hv (rel ++ [c]) _ ltac:(by destruct rel) Hn') as (t' & [= <-] & Hcase).
    rewrite removelast_snoc in Hcase. pose proof (link_base_directory (v ++ rel) t Hd) as Hbd.
    destruct Hcase as [Hb|Hh].
    + destruct (plain_link l v _ t segs (plain_links _ _ Hn) Hbd (hv_dir _ _ Hv) Hb Hf)
        as (rel' & segs' & Hd' & Hf' & He).
      rewrite He in Hres. by apply (IHl l (Nat.lt_succ_diag_r l) segs' v rel').
    + destruct (resolve_app _ _ _ _ _ Hres) as (q & l' & Hle & Hq & Hp).
      destruct (handed_target D _ q HD Hh) as [Hhv|(HqF & Hin & Hden)].
      * intros sps Hsp. eapply (spell_resolve 255 (S l) (v ++ rel ++ [c]) []); [exact Hsp|].
        rewrite (assoc_L app). destruct Hd as (b & es & Hd).
        rewrite (resolve_to (S l) (v ++ rel) [] [c]); [|by eapply named|by exists b, es].
        cbn [app]. by rewrite resolve_cons, Hdot, Hc, Hn, app_nil_r.
      * apply (IHl l' ltac:(lia) segs q []); [done| |done|]; rewrite app_nil_r; [apply Hhv|done].
      * rewrite (resolve_file l' q segs p HqF Hf Hp). split; [done|]. exists NFile. split; [done|by left].
Qed.
End inspect.
End tree.

(** ** Properties *)

Definition abs_of (wd : path) (s : string) : path := lex (if IsAbs s then [] else wd) (split s).

(** C33: DeniedDir always answers, and what it allows is contained.  Over any
    tree, whatever is asked, the queue is worked off within the number of
    directories, link cycles included.  When the answer is allowed and no link
    climbs out of a name it went through, then whatever a reader reaches from
    the read root by following names and links, in any number of hops, lies
    inside the session's resolved directory, and its real path is clear of the
    denylist, but for a control directory itself, whose children are judged one
    by one. *)
Theorem DeniedDir_contains tree os_links wd cwd root :
  is_dir tree = true → tree_ok tree → names wd →
  ∃ r, DeniedDir tree os_links wd cwd root = Some r
  ∧ (r = None → (∀ p t, lookup tree p = Some (NLink (Some t)) → plain (split t)) →
     ∃ rc rr, EvalSymlinks tree (abs_of wd cwd) = Some rc
       ∧ EvalSymlinks tree (abs_of (abs_of wd cwd) root) = Some rr
       ∧ ∀ links segs p, flat segs → resolve tree links rr segs = Some p →
           is_Some (below rc p)
           ∧ ∃ n, lookup tree p = Some n ∧ (denied p = None ∨ spared p n)).
Proof.
  intros Hdir Hok Hwd. unfold DeniedDir. fold (abs_of wd cwd). set (c := abs_of wd cwd).
  fold (abs_of c root). set (r0 := abs_of c root).
  destruct (denied r0) as [why|]; [by eexists|].
  destruct (EvalSymlinks tree c) as [rc|] eqn:Hrc; [|by eexists].
  destruct (EvalSymlinks tree r0) as [rr|] eqn:Hrr; [|by eexists].
  destruct (below rc rr) as [rel|] eqn:Hb; [|by eexists].
  destruct (rootSpellings tree r0) as [sps|]; [|by eexists].
  destruct (check_spellings tree os_links sps rr) as [stop|]; [by eexists|].
  pose proof (resolve_physical tree Hdir Hok 255 r0 [] rr (directory_root tree Hdir Hok) Hrr) as Hphys.
  assert (Hnrr : names rr) by (destruct Hphys as (n & Hn & _); by eapply named).
  rewrite inspect_cons, bool_decide_false by (by intros ?%elem_of_nil).
  destruct (walkTreeLogical tree os_links true rr rr) as [stop|exs] eqn:Hw; [by eexists|].
  pose proof (walk_named tree Hok os_links rr rr exs Hw Hphys Hnrr) as Hnamed.
  destruct (follow_all tree os_links rc exs) as [stop|items] eqn:Hf; [by eexists|].
  destruct (follow_all_items tree Hdir Hok os_links rc _ _ Hnamed Hf) as [Hitems Heach].
  destruct (walk_passed tree Hok rr rr os_links exs Hw Hphys) as (Hden & (b & es & Hrd) & _).
  destruct (inspect_spec tree Hdir Hok os_links rc (length (dirs tree [])) items [rr]) as (v & Hv & Hclosed).
  { done. }
  { apply NoDup_singleton. }
  { intros x ->%list_elem_of_singleton. by apply (dirs_lookup tree rr b es []). }
  { cbn [length]. lia. }
  exists v. split; [done|]. intros Hnone Hplain. destruct (Hclosed Hnone) as (D & H1 & H2 & H3).
  assert (Hrr_closed : closed tree os_links rc D rr).
  { exists rr, exs. split_and!; [done|done|]. intros e He. destruct (Heach e He) as (its & ? & Hsub).
    exists its. split; [done|]. intros it Hit. by apply H2, Hsub. }
  assert (HD : ∀ p, p ∈ D → closed tree os_links rc D p).
  { intros p Hp. destruct (decide (p = rr)) as [->|Hne]; [done|]. apply H3; [done|].
    by intros ?%list_elem_of_singleton. }
  exists rc, rr. split_and!; [done|done|]. intros links segs p Hflat Hres.
  apply (resolve_stays tree Hdir Hok os_links rc Hplain D HD links segs rr []); rewrite ?app_nil_r; [|by exists b, es|done|done].
  apply closed_haven; try done. left. by exists exs.
Qed.

(** DeniedDescendant draws the boundary at the walked root itself. *)
Theorem DeniedDescendant_contains tree os_links root links segs p :
  is_dir tree = true → tree_ok tree → physical tree root →
  (∀ p t, lookup tree p = Some (NLink (Some t)) → plain (split t)) →
  DeniedDescendant tree os_links true root = None →
  flat segs → resolve tree links root segs = Some p →
  is_Some (below root p) ∧ ∃ n, lookup tree p = Some n ∧ (denied p = None ∨ spared p n).
Proof.
  intros Hdir Hok Hphys Hplain Hd Hflat Hres. unfold DeniedDescendant in Hd.
  destruct (walkTreeLogical tree os_links true root root) as [stop|exs] eqn:Hw; [done|].
  destruct exs; [|done]. destruct (walk_passed tree Hok root root os_links [] Hw Hphys) as (Hden & Hrd & _).
  assert (Hnr : names root) by (destruct Hphys as (n & Hn & _); by eapply named).
  apply (resolve_stays tree Hdir Hok os_links root Hplain [] ltac:(by intros x ?%elem_of_nil)
    links segs root []); rewrite ?app_nil_r; try done.
  apply closed_haven; try done.
  - exists root, []. split_and!; [done|exact Hw|by intros e ?%elem_of_nil].
  - exists []. apply below_spec. by rewrite app_nil_r.
  - left. by exists [].
Qed.

(** *** Samples *)

(** The targets of a tree's links. *)
Fixpoint targets (n : node) : list string :=
  match n with
  | NFile => []
  | NDir _ es => flat_map (λ e : string * node, let '(_, m) := e in targets m) es
  | NLink t => option_list t
  end.

Lemma lookup_targets n p t : lookup n p = Some (NLink (Some t)) → t ∈ targets n.
Proof.
  revert n. induction p as [|c p IH]; intros n Hn; [injection Hn as ->; by left|]. cbn [lookup] in Hn.
  destruct n as [|b es|]; [done| |done]. destruct (entry c es) as [m|] eqn:He; [|done].
  cbn [targets]. apply list_elem_of_In, in_flat_map. exists (c, m).
  split; [by apply list_elem_of_In, entry_in|]. by apply list_elem_of_In, IH.
Qed.

Ltac tree_ok := repeat first [constructor | split]; vm_compute; congruence.

(** A workspace whose sources link to generated code beside them. *)
Definition workspace : node :=
  NDir true [("w", NDir true
    [("build", NDir true [("out", NFile)]);
     ("src", NDir true [("gen", NLink (Some "../build")); ("main", NFile)])])]%string.

Lemma workspace_ok : tree_ok workspace.
Proof. unfold workspace. tree_ok. Qed.

Lemma workspace_plain p t : lookup workspace p = Some (NLink (Some t)) → plain (split t).
Proof.
  intros Ht%lookup_targets. cbn in Ht. apply list_elem_of_singleton in Ht as ->.
  exists [".."%string], ["build"%string]. split_and!; [done|apply Forall_singleton; by right|by apply Forall_singleton].
Qed.

Lemma DeniedDir_contains_witness :
  DeniedDir workspace 40 [] "/w" "src" = Some None
  ∧ resolve workspace 40 ["w"; "src"]%string ["gen"; "out"]%string = Some ["w"; "build"; "out"]%string
  ∧ is_Some (below ["w"]%string ["w"; "build"; "out"]%string).
Proof.
  assert (Hd : DeniedDir workspace 40 [] "/w" "src" = Some None) by (vm_compute; reflexivity).
  assert (Hr : resolve workspace 40 ["w"; "src"]%string ["gen"; "out"]%string = Some ["w"; "build"; "out"]%string)
    by (vm_compute; reflexivity).
  split; [exact Hd|]. split; [exact Hr|].
  destruct (DeniedDir_contains workspace 40 [] "/w" "src" eq_refl workspace_ok (Forall_nil_2 _))
    as (r & Hr' & Hok). rewrite Hd in Hr'. injection Hr' as <-.
  destruct (Hok eq_refl workspace_plain) as (rc & rr & Hrc & Hrr & Hall).
  assert (rc = ["w"%string]) as -> by (vm_compute in Hrc; congruence).
  assert (rr = ["w"; "src"]%string) as -> by (vm_compute in Hrr; congruence).
  apply (Hall 40%nat ["gen"; "out"]%string); [|exact Hr]. repeat constructor; vm_compute; reflexivity.
Defined.

(** A link that climbs out of another link is judged where its spelling leads,
    and read where the file system leads: the one way out. *)
Definition climbing : node :=
  NDir true [("secret", NFile);
             ("w", NDir true [("a", NLink (Some "up/../secret")); ("secret", NFile); ("up", NLink (Some "."))])]%string.

Lemma climbing_link_escapes :
  DeniedDir climbing 40 [] "/w" "/w" = Some None
  ∧ EvalSymlinks climbing ["w"; "a"]%string = Some ["secret"]%string
  ∧ below ["w"]%string ["secret"]%string = None.
Proof. vm_compute. auto. Qed.

(** And the samples of the refusals: a chain that hides a control name, a link
    out of the session, a cycle that still ends, a directory nobody can list. *)
Example denied_dirs :
  let links es := NDir true [("etc", NDir true [("x", NFile)]); ("w", NDir true es)]%string in
  DeniedDir (links [("safe", NLink (Some ".config")); (".config", NLink (Some "conf"));
                    ("conf", NDir true [("gh", NFile)])]) 40 [] "/w" "/w/safe"
    = Some (Some (FDenied ["w"; "conf"; "gh"] (RConfig "gh")))
  ∧ DeniedDir (links [("out", NLink (Some "/etc"))]) 40 [] "/w" "."
    = Some (Some (FDenied ["w"; "out"] REscape))
  ∧ DeniedDir (links [("d", NDir true [("up", NLink (Some ".."))])]) 40 [] "/w" "d" = Some None
  ∧ DeniedDir (links [("d", NDir false [])]) 40 [] "/w" "/w" = Some (Some FError).
Proof. vm_compute. auto. Qed.
