(* ===== verification/Json.v ===== *)
(** * encoding/json as the program uses it

    [json_parse] is [json.Unmarshal]'s reading of a document: the grammar of
    RFC 8259 with nothing after the value, strings unquoted with invalid UTF-8
    and unpaired surrogates replaced by U+FFFD.  (The library's limit of 10000
    nesting levels is not modelled.)  [struct_decode] is the assignment of an
    object to a Go struct: keys match a field exactly or after case folding,
    unknown keys are skipped, the last duplicate wins, [null] leaves a string
    field alone, a value of the wrong type is an error.  [quote] and the
    [render] functions are [json.Marshal] with its default HTML escaping. *)
From Stdlib Require Import SpecFloat.
From S2P Require Import Prelude Utf8.
Local Open Scope Z_scope.

(** ** Values *)

Inductive json : Type :=
| JNull
| JBool (b : bool)
| JNum (lit : string)
| JStr (s : string)
| JArr (l : list json)
| JObj (fs : list (string * json)).

(** ** Reading *)

Definition is_ws (b : Z) : bool :=
  Z.eqb b 32 || Z.eqb b 9 || Z.eqb b 10 || Z.eqb b 13.

Fixpoint skip_ws (bs : list Z) : list Z :=
  match bs with
  | b :: r => if is_ws b then skip_ws r else bs
  | [] => []
  end.

Definition hex_digit (b : Z) : option Z :=
  if between 48 57 b then Some (b - 48)
  else if between 97 102 b then Some (b - 87)
  else if between 65 70 b then Some (b - 55)
  else None.

(** Four hex digits. *)
Definition hex4 (bs : list Z) : option (Z * list Z) :=
  match bs with
  | a :: b :: c :: d :: r =>
      match hex_digit a, hex_digit b, hex_digit c, hex_digit d with
      | Some a, Some b, Some c, Some d =>
          Some (a * 4096 + b * 256 + c * 16 + d, r)
      | _, _, _, _ => None
      end
  | _ => None
  end.

Definition simple_escape (c : Z) : option Z :=
  if Z.eqb c 34 || Z.eqb c 92 || Z.eqb c 47 then Some c
  else if Z.eqb c 98 then Some 8
  else if Z.eqb c 102 then Some 12
  else if Z.eqb c 110 then Some 10
  else if Z.eqb c 114 then Some 13
  else if Z.eqb c 116 then Some 9
  else None.

(** The rune after a backslash-u: a high surrogate followed by an escaped low
    surrogate is one rune, any other surrogate is U+FFFD. *)
Definition unquote_u (bs : list Z) : option (Z * list Z) :=
  match hex4 bs with
  | None => None
  | Some (hi, r) =>
      if between 55296 56319 hi then
        match r with
        | 92 :: 117 :: r' =>
            match hex4 r' with
            | Some (lo, r'') =>
                if between 56320 57343 lo
                then Some ((hi - 55296) * 1024 + (lo - 56320) + 65536, r'')
                else Some (rune_error, r)
            | None => None
            end
        | _ => Some (rune_error, r)
        end
      else if between 56320 57343 hi then Some (rune_error, r)
      else Some (hi, r)
  end.

(** The body of a string literal, after the opening quote. *)
Fixpoint unquote (fuel : nat) (bs : list Z) : option (list Z * list Z) :=
  match fuel with
  | O => None
  | S fuel' =>
      match bs with
      | [] => None
      | b :: r =>
          if Z.eqb b 34 then Some ([], r)
          else if Z.eqb b 92 then
            match r with
            | [] => None
            | c :: r' =>
                if Z.eqb c 117 then
                  match unquote_u r' with
                  | Some (u, r'') =>
                      match unquote fuel' r'' with
                      | Some (out, rest) => Some (encode_rune u ++ out, rest)
                      | None => None
                      end
                  | None => None
                  end
                else match simple_escape c with
                     | Some e =>
                         match unquote fuel' r' with
                         | Some (out, rest) => Some (e :: out, rest)
                         | None => None
                         end
                     | None => None
                     end
            end
          else if Z.ltb b 32 then None
          else match decode_rune bs with
               | Some (u, r') =>
                   match unquote fuel' r' with
                   | Some (out, rest) => Some (encode_rune u ++ out, rest)
                   | None => None
                   end
               | None => None
               end
      end
  end.

Fixpoint digits (bs : list Z) : list Z * list Z :=
  match bs with
  | b :: r => if between 48 57 b then let '(ds, r') := digits r in (b :: ds, r') else ([], bs)
  | [] => ([], [])
  end.

(** [-? int frac? exp?], keeping the literal. *)
Definition number (bs : list Z) : option (list Z * list Z) :=
  let '(sign, r) := match bs with 45 :: r => ([45], r) | _ => ([], bs) end in
  let int := match r with
             | 48 :: r' => Some ([48], r')
             | _ => let '(ds, r') := digits r in
                    match ds with [] => None | _ => Some (ds, r') end
             end in
  match int with
  | None => None
  | Some (ip, r1) =>
      let frac := match r1 with
                  | 46 :: r' => let '(ds, r'') := digits r' in
                                match ds with [] => None | _ => Some (46 :: ds, r'') end
                  | _ => Some ([], r1)
                  end in
      match frac with
      | None => None
      | Some (fp, r2) =>
          let expo := match r2 with
                      | e :: r' =>
                          if Z.eqb e 101 || Z.eqb e 69 then
                            let '(sg, r'') := match r' with
                                              | s :: t => if Z.eqb s 43 || Z.eqb s 45 then ([s], t) else ([], r')
                                              | [] => ([], r')
                                              end in
                            let '(ds, r3) := digits r'' in
                            match ds with [] => None | _ => Some (e :: sg ++ ds, r3) end
                          else Some ([], r2)
                      | [] => Some ([], r2)
                      end in
          match expo with
          | None => None
          | Some (ep, r3) => Some (sign ++ ip ++ fp ++ ep, r3)
          end
      end
  end.

(** One value; every call consumes fuel, so the document's length bounds it. *)
Fixpoint value (fuel : nat) (bs : list Z) : option (json * list Z) :=
  match fuel with
  | O => None
  | S fuel' =>
      match skip_ws bs with
      | [] => None
      | b :: r =>
          if Z.eqb b 34 then
            match unquote fuel' r with
            | Some (s, rest) => Some (JStr (of_bytes s), rest)
            | None => None
            end
          else if Z.eqb b 123 then
            match skip_ws r with
            | 125 :: rest => Some (JObj [], rest)
            | r' => match members fuel' r' with
                    | Some (fs, rest) => Some (JObj fs, rest)
                    | None => None
                    end
            end
          else if Z.eqb b 91 then
            match skip_ws r with
            | 93 :: rest => Some (JArr [], rest)
            | r' => match elements fuel' r' with
                    | Some (l, rest) => Some (JArr l, rest)
                    | None => None
                    end
            end
          else match strip_prefix (bytes "null") (b :: r) with
               | Some rest => Some (JNull, rest)
               | None =>
                   match strip_prefix (bytes "true") (b :: r) with
                   | Some rest => Some (JBool true, rest)
                   | None =>
                       match strip_prefix (bytes "false") (b :: r) with
                       | Some rest => Some (JBool false, rest)
                       | None =>
                           match number (b :: r) with
                           | Some (lit, rest) => Some (JNum (of_bytes lit), rest)
                           | None => None
                           end
                       end
                   end
               end
      end
  end
with members (fuel : nat) (bs : list Z) : option (list (string * json) * list Z) :=
  match fuel with
  | O => None
  | S fuel' =>
      match skip_ws bs with
      | 34 :: r =>
          match unquote fuel' r with
          | Some (k, r1) =>
              match skip_ws r1 with
              | 58 :: r2 =>
                  match value fuel' r2 with
                  | Some (v, r3) =>
                      match skip_ws r3 with
                      | 44 :: r4 =>
                          match members fuel' r4 with
                          | Some (fs, rest) => Some ((of_bytes k, v) :: fs, rest)
                          | None => None
                          end
                      | 125 :: rest => Some ([(of_bytes k, v)], rest)
                      | _ => None
                      end
                  | None => None
                  end
              | _ => None
              end
          | None => None
          end
      | _ => None
      end
  end
with elements (fuel : nat) (bs : list Z) : option (list json * list Z) :=
  match fuel with
  | O => None
  | S fuel' =>
      match value fuel' bs with
      | Some (v, r) =>
          match skip_ws r with
          | 44 :: r' =>
              match elements fuel' r' with
              | Some (l, rest) => Some (v :: l, rest)
              | None => None
              end
          | 93 :: rest => Some ([v], rest)
          | _ => None
          end
      | None => None
      end
  end.

(** A whole document: one value and white space. *)
Definition json_parse (s : string) : option json :=
  let bs := bytes s in
  match value (S (length bs + length bs)) bs with
  | Some (v, rest) => match skip_ws rest with [] => Some v | _ => None end
  | None => None
  end.

(** ** Struct assignment *)

(** The Go types the program decodes into. *)
Inductive gtype : Type :=
| GString
| GPtrString
| GInt64
| GFloat64
| GBool
| GStruct (fields : list (string * gtype))
| GSlice (elem : gtype).

(** Case folding for ASCII field names: letters, and the two runes outside
    ASCII that fold into it (U+017F and U+212A). *)
Definition fold_rune (r : Z) : Z :=
  if between 97 122 r then r - 32
  else if Z.eqb r 383 then 83
  else if Z.eqb r 8490 then 75
  else r.
Definition fold_name (s : string) : list Z := map fold_rune (runes s).

(** The field a key assigns: the exact name first, else the folded one. *)
Definition find_field {T} (fields : list (string * T)) (key : string)
    : option (string * T) :=
  match List.find (λ f : string * T, String.eqb f.1 key) fields with
  | Some f => Some f
  | None => List.find (λ f : string * T,
              bool_decide (fold_name f.1 = fold_name key)) fields
  end.

(** An integer literal in range, as [strconv.ParseInt] accepts it. *)
Definition int_value (lit : string) : option Z :=
  let '(neg, ds) := match bytes lit with 45 :: r => (true, r) | r => (false, r) end in
  if forallb (between 48 57) ds then
    let n := fold_left (λ acc d, acc * 10 + (d - 48)) ds 0 in
    let v := if (neg : bool) then - n else n in
    if Z.leb int64_min v && Z.leb v int64_max then Some v else None
  else None.

(** [strconv.ParseFloat] of a JSON number: the binary64 nearest to the decimal,
    ties to even; a magnitude that rounds to infinity is a range error. *)
Definition digits_Z (ds : list Z) : Z := fold_left (λ acc d, acc * 10 + (d - 48)) ds 0.

Definition decimal (neg : bool) (m e10 : Z) : spec_float :=
  let x := if Z.eqb m 0 then S754_zero false
           else if Z.leb 0 e10 then binary_normalize 53 1024 (m * 10 ^ e10) 0 false
           else SFdiv 53 1024 (S754_finite false (Z.to_pos m) 0)
                  (S754_finite false (Z.to_pos (10 ^ (- e10))) 0) in
  if neg then SFopp x else x.

Definition float_value (lit : string) : option spec_float :=
  let '(neg, bs) := match bytes lit with 45 :: r => (true, r) | r => (false, r) end in
  let '(ip, r) := digits bs in
  let '(fp, r) := match r with 46 :: r' => digits r' | _ => ([], r) end in
  let e := match r with
           | _ :: 45 :: r' => - digits_Z r'
           | _ :: 43 :: r' => digits_Z r'
           | _ :: r' => digits_Z r'
           | [] => 0
           end in
  match decimal neg (digits_Z (ip ++ fp)) (e - Z.of_nat (length fp)) with
  | S754_infinity _ | S754_nan => None
  | x => Some x
  end.

(** Whether a value may be assigned to a type; [null] always may. *)
Fixpoint assignable (v : json) (t : gtype) {struct v} : bool :=
  match v with
  | JNull => true
  | JBool _ => match t with GBool => true | _ => false end
  | JNum lit => match t with
                | GInt64 => match int_value lit with Some _ => true | None => false end
                | GFloat64 => match float_value lit with Some _ => true | None => false end
                | _ => false
                end
  | JStr _ => match t with GString | GPtrString => true | _ => false end
  | JArr l => match t with
              | GSlice elem => forallb (λ v', assignable v' elem) l
              | _ => false
              end
  | JObj kvs => match t with
                | GStruct fields =>
                    forallb (λ kv : string * json,
                      match find_field fields kv.1 with
                      | Some f => assignable kv.2 f.2
                      | None => true
                      end) kvs
                | _ => false
                end
  end.

(** The value a field ends up with: that of the last key that names it and is
    not [null]. *)
Definition field {T} (fields : list (string * T)) (name : string)
    (kvs : list (string * json)) : json :=
  fold_left (λ acc (kv : string * json),
    match find_field fields kv.1 with
    | Some f => if String.eqb f.1 name
                then match kv.2 with JNull => acc | v => v end
                else acc
    | None => acc
    end) kvs JNull.

Definition str_field {T} (fields : list (string * T)) (name : string)
    (kvs : list (string * json)) : string :=
  match field fields name kvs with JStr s => s | _ => "" end.

(** The last value a field is given, [null] included: what a pointer or a slice
    is assigned. *)
Definition last_field {T} (fields : list (string * T)) (name : string)
    (kvs : list (string * json)) : json :=
  fold_left (λ acc (kv : string * json),
    match find_field fields kv.1 with
    | Some f => if String.eqb f.1 name then kv.2 else acc
    | None => acc
    end) kvs JNull.

Definition ptr_field {T} (fields : list (string * T)) (name : string)
    (kvs : list (string * json)) : option string :=
  match last_field fields name kvs with JStr s => Some s | _ => None end.

Definition int_field {T} (fields : list (string * T)) (name : string)
    (kvs : list (string * json)) : Z :=
  match field fields name kvs with JNum lit => default 0 (int_value lit) | _ => 0 end.

Definition bool_field {T} (fields : list (string * T)) (name : string)
    (kvs : list (string * json)) : bool :=
  match field fields name kvs with JBool b => b | _ => false end.

Definition float_field {T} (fields : list (string * T)) (name : string)
    (kvs : list (string * json)) : spec_float :=
  match field fields name kvs with
  | JNum lit => default (S754_zero false) (float_value lit)
  | _ => S754_zero false
  end.

(** A struct field is decoded in place, so the members of every object it is
    given add up. *)
Definition struct_field {T} (fields : list (string * T)) (name : string)
    (kvs : list (string * json)) : list (string * json) :=
  concat (map (λ kv : string * json,
    match find_field fields kv.1, kv.2 with
    | Some f, JObj members => if String.eqb f.1 name then members else []
    | _, _ => []
    end) kvs).

Definition slice_field {T} (fields : list (string * T)) (name : string)
    (kvs : list (string * json)) : list json :=
  match last_field fields name kvs with JArr l => l | _ => [] end.

(** [json.Unmarshal] of a document into a struct of these fields: the members,
    or [None] for an error.  A [null] document decodes to the zero struct. *)
Definition unmarshal (fields : list (string * gtype)) (s : string)
    : option (list (string * json)) :=
  match json_parse s with
  | Some JNull => Some []
  | Some (JObj kvs) => if assignable (JObj kvs) (GStruct fields) then Some kvs else None
  | _ => None
  end.

(** ** Writing *)

Definition hex_char (n : Z) : Z := if Z.ltb n 10 then 48 + n else 87 + n.

(** One rune of a string literal, with [json.Marshal]'s HTML escaping. *)
Definition quote_rune (r : Z) : list Z :=
  if Z.eqb r 34 || Z.eqb r 92 then [92; r]
  else if Z.eqb r 8 then [92; 98]
  else if Z.eqb r 12 then [92; 102]
  else if Z.eqb r 10 then [92; 110]
  else if Z.eqb r 13 then [92; 114]
  else if Z.eqb r 9 then [92; 116]
  else if Z.ltb r 32 || Z.eqb r 60 || Z.eqb r 62 || Z.eqb r 38 then
    [92; 117; 48; 48; hex_char (r / 16); hex_char (r mod 16)]
  else if Z.eqb r 8232 || Z.eqb r 8233 then
    [92; 117; 50; 48; 50; hex_char (r - 8224)]
  else encode_rune r.

(** The body of a literal: an invalid byte is written as an escaped U+FFFD, a
    genuine U+FFFD as itself. *)
Definition invalid_byte (bs rest : list Z) : bool :=
  Z.eqb (Z.of_nat (length bs)) (Z.of_nat (length rest) + 1).

Fixpoint quote_loop (fuel : nat) (bs : list Z) : list Z :=
  match fuel with
  | O => []
  | S fuel' =>
      match decode_rune bs with
      | None => []
      | Some (r, rest) =>
          (if Z.eqb r rune_error && invalid_byte bs rest
           then [92; 117; 102; 102; 102; 100] else quote_rune r)
          ++ quote_loop fuel' rest
      end
  end.

Definition quote_bytes (s : string) : list Z :=
  34 :: quote_loop (length (bytes s)) (bytes s) ++ [34].

Definition comma_sep (l : list (list Z)) : list Z :=
  match l with
  | [] => []
  | x :: xs => x ++ concat (map (λ y, 44 :: y) xs)
  end.

Fixpoint render (v : json) : list Z :=
  match v with
  | JNull => bytes "null"
  | JBool b => bytes (if b then "true" else "false")
  | JNum lit => bytes lit
  | JStr s => quote_bytes s
  | JArr l => 91 :: comma_sep (map render l) ++ [93]
  | JObj kvs =>
      123 :: comma_sep (map (λ kv : string * json,
               quote_bytes kv.1 ++ 58 :: render kv.2) kvs) ++ [125]
  end.

Definition marshal (v : json) : string := of_bytes (render v).

(** ** The codec on concrete documents *)


Example float_value_tenth : float_value "0.1" = Some (S754_finite false 7205759403792794 (-56)).
Proof. vm_compute. reflexivity. Qed.
Example float_value_exp : float_value "-25e-1" = Some (S754_finite true 5629499534213120 (-51)).
Proof. vm_compute. reflexivity. Qed.
Example float_value_range : float_value "1e309" = None.
Proof. vm_compute. reflexivity. Qed.
