(* ===== verification/JsonRound.v ===== *)
(** * Reading back what was written

    [json_parse] inverts [marshal] on every value whose strings are valid UTF-8
    and whose numbers are integers in canonical decimal: what the program
    persists as an event's payload is what it later reads. *)
From S2P Require Import Prelude Utf8 Json.
Local Open Scope Z_scope.

(** ** Strings *)

(** What may follow a value inside a document. *)
Definition stops (rest : list Z) : Prop :=
  match rest with [] => True | b :: _ => b = 44 ∨ b = 93 ∨ b = 125 end.

Lemma quote_loop_runes fuel rs :
  Forall (λ r, scalar r = true) rs → (length rs ≤ fuel)%nat →
  quote_loop fuel (concat (map encode_rune rs)) = concat (map quote_rune rs).
Proof.
  intros Hs. revert fuel. induction Hs as [|r rs Hr _ IH]; intros fuel Hf; [by destruct fuel|].
  destruct fuel as [|fuel]; [simpl in Hf; lia|]. cbn [map concat quote_loop].
  rewrite decode_encode_rune by done.
  assert (Hv : Z.eqb r rune_error && invalid_byte (encode_rune r ++ concat (map encode_rune rs))
                 (concat (map encode_rune rs)) = false).
  { destruct (Z.eqb_spec r rune_error) as [->|]; [|done]. unfold invalid_byte.
    rewrite length_app. change (length (encode_rune rune_error)) with 3%nat.
    apply Z.eqb_neq. lia. }
  rewrite Hv, IH; [done|simpl in Hf; lia].
Qed.

Lemma length_encode_runes rs : (length rs ≤ length (concat (map encode_rune rs)))%nat.
Proof.
  induction rs as [|r rs IH]; simpl; [lia|]. rewrite length_app.
  pose proof (encode_rune_nonempty r). destruct (encode_rune r); [done|simpl; lia].
Qed.

Lemma bytes_valid s : valid_utf8 s → bytes s = concat (map encode_rune (runes s)).
Proof. unfold valid_utf8. intros Hv. rewrite <-Hv at 1. apply string_of_runes_bytes. Qed.

Lemma quote_bytes_valid s :
  valid_utf8 s → quote_bytes s = 34 :: concat (map quote_rune (runes s)) ++ [34].
Proof.
  intros Hv. unfold quote_bytes. rewrite bytes_valid by done.
  rewrite quote_loop_runes; [done|apply runes_scalar|apply length_encode_runes].
Qed.

Lemma hex_digit_char n : 0 ≤ n < 16 → hex_digit (hex_char n) = Some n.
Proof.
  intros Hn. unfold hex_char, hex_digit. destruct (Z.ltb_spec n 10).
  - rewrite between_true_2 by lia. f_equal. lia.
  - rewrite between_false_2, between_true_2 by lia. f_equal. lia.
Qed.

(** One rune of a literal, read back. *)
Lemma unquote_rune fuel r bs :
  scalar r = true →
  unquote (S fuel) (quote_rune r ++ bs)
  = match unquote fuel bs with
    | Some (out, rest) => Some (encode_rune r ++ out, rest)
    | None => None
    end.
Proof.
  intros Hs. unfold quote_rune.
  destruct (Z.eqb_spec r 34) as [->|H34]; [reflexivity|].
  destruct (Z.eqb_spec r 92) as [->|H92]; [reflexivity|].
  destruct (Z.eqb_spec r 8) as [->|H8]; [reflexivity|].
  destruct (Z.eqb_spec r 12) as [->|H12]; [reflexivity|].
  destruct (Z.eqb_spec r 10) as [->|H10]; [reflexivity|].
  destruct (Z.eqb_spec r 13) as [->|H13]; [reflexivity|].
  destruct (Z.eqb_spec r 9) as [->|H9]; [reflexivity|]. cbn [orb].
  assert (Hpos : 0 ≤ r).
  { unfold scalar in Hs. apply orb_true_iff in Hs as [Hb|Hb]; apply between_spec in Hb; lia. }
  destruct (Z.ltb r 32 || Z.eqb r 60 || Z.eqb r 62 || Z.eqb r 38) eqn:Hesc.
  { assert (Hr : r < 64).
    { apply orb_true_iff in Hesc as [[[?%Z.ltb_lt|?%Z.eqb_eq]%orb_true_iff|?%Z.eqb_eq]%orb_true_iff|?%Z.eqb_eq]; lia. }
    cbn [app unquote]. change (Z.eqb 92 34) with false. change (Z.eqb 92 92) with true.
    change (Z.eqb 117 117) with true. cbn iota.
    assert (Hu : unquote_u (48 :: 48 :: hex_char (r / 16) :: hex_char (r mod 16) :: bs) = Some (r, bs)).
    { unfold unquote_u, hex4. change (hex_digit 48) with (Some 0).
      rewrite !hex_digit_char by (Z.to_euclidean_division_equations; lia).
      replace (0 * 4096 + 0 * 256 + r / 16 * 16 + r mod 16) with r
        by (Z.to_euclidean_division_equations; lia).
      rewrite !between_false_2 by lia. done. }
    by rewrite Hu. }
  destruct (Z.eqb_spec r 8232) as [->|H2]; [reflexivity|].
  destruct (Z.eqb_spec r 8233) as [->|H3]; [reflexivity|]. cbn [orb].
  apply orb_false_iff in Hesc as [[[H32%Z.ltb_ge _]%orb_false_iff _]%orb_false_iff _].
  pose proof (decode_encode_rune r bs Hs) as Hd.
  assert (Hb0 : ∃ b0 t, encode_rune r = b0 :: t ∧ b0 ≠ 34 ∧ b0 ≠ 92 ∧ 32 ≤ b0).
  { unfold encode_rune. rewrite Hs. cbn [negb].
    destruct (Z.leb_spec r 127); [eexists _, _; split_and!; [done|lia..]|].
    destruct (Z.leb_spec r 2047); [eexists _, _; split_and!; [done|..];
      Z.to_euclidean_division_equations; lia|].
    destruct (Z.leb_spec r 65535); eexists _, _; split_and!; try done;
      Z.to_euclidean_division_equations; lia. }
  destruct Hb0 as (b0 & t & He & N1 & N2 & N3). rewrite He in *. cbn [app unquote] in *.
  rewrite (proj2 (Z.eqb_neq b0 34) N1), (proj2 (Z.eqb_neq b0 92) N2), (proj2 (Z.ltb_ge b0 32) N3), Hd.
  by rewrite He.
Qed.

Lemma unquote_runes rs fuel rest :
  Forall (λ r, scalar r = true) rs → (length rs < fuel)%nat →
  unquote fuel (concat (map quote_rune rs) ++ 34 :: rest)
  = Some (concat (map encode_rune rs), rest).
Proof.
  intros Hs. revert fuel. induction Hs as [|r rs Hr _ IH]; intros fuel Hf;
    (destruct fuel as [|fuel]; [simpl in Hf; lia|]); [done|].
  cbn [map concat]. rewrite <-app_assoc, unquote_rune by done.
  rewrite IH; [done|simpl in Hf; lia].
Qed.

Lemma length_quote_runes rs : (length rs ≤ length (concat (map quote_rune rs)))%nat.
Proof.
  induction rs as [|r rs IH]; simpl; [lia|]. rewrite length_app.
  assert (quote_rune r ≠ []).
  { unfold quote_rune. repeat case_match; try done. apply encode_rune_nonempty. }
  destruct (quote_rune r); [done|simpl; lia].
Qed.

(** A string literal, after its opening quote. *)
Lemma unquote_valid s fuel rest :
  valid_utf8 s → (length (quote_bytes s) ≤ fuel + 1)%nat →
  unquote fuel (concat (map quote_rune (runes s)) ++ 34 :: rest) = Some (bytes s, rest).
Proof.
  intros Hv Hf. rewrite quote_bytes_valid in Hf by done. simpl in Hf. rewrite length_app in Hf.
  pose proof (length_quote_runes (runes s)). simpl in Hf.
  rewrite unquote_runes; [by rewrite bytes_valid|apply runes_scalar|lia].
Qed.

(** ** Numbers *)

Definition is_digit (b : Z) : Prop := 48 ≤ b ≤ 57.

(** A canonical decimal: a lone zero, or digits that do not start with one. *)
Definition canonical (ds : list Z) : Prop :=
  ds = [48] ∨ ∃ d ds', ds = d :: ds' ∧ 49 ≤ d ≤ 57 ∧ Forall is_digit ds'.

Definition digits_value (ds : list Z) : Z := fold_left (λ acc d, acc * 10 + (d - 48)) ds 0.

Lemma fold_digits ds acc :
  fold_left (λ acc d, acc * 10 + (d - 48)) ds acc
  = acc * 10 ^ Z.of_nat (length ds) + digits_value ds.
Proof.
  unfold digits_value. revert acc. induction ds as [|d ds IH]; intros acc; [simpl; lia|].
  cbn [fold_left length]. rewrite IH, (IH (0 * 10 + (d - 48))).
  rewrite Nat2Z.inj_succ, Z.pow_succ_r by lia. lia.
Qed.

Lemma pretty_char_byte (n : N) : (n < 10)%N → byte_of (pretty_N_char n) = 48 + Z.of_N n.
Proof.
  intros Hn. assert (n ∈ [0;1;2;3;4;5;6;7;8;9]%N) as Hin.
  { rewrite !elem_of_cons. lia. }
  repeat (apply elem_of_cons in Hin as [->|Hin]; [reflexivity|]). by apply elem_of_nil in Hin.
Qed.

Lemma pretty_go_digits x s : (0 < x)%N →
  ∃ d ds, bytes (pretty_N_go x s) = d :: ds ++ bytes s ∧ 49 ≤ d ≤ 57 ∧ Forall is_digit ds
          ∧ digits_value (d :: ds) = Z.of_N x.
Proof.
  revert s. induction x as [x IH] using (well_founded_induction N.lt_wf_0). intros s Hx.
  rewrite pretty_N_go_step by done.
  assert (Hq : (x / 10 < x)%N) by (apply N.div_lt; lia).
  assert (Hm : (x mod 10 < 10)%N) by (apply N.mod_lt; lia).
  assert (Hdm : (x = 10 * (x / 10) + x mod 10)%N) by (apply N.div_mod; lia).
  set (q := (x / 10)%N) in *. set (m := (x mod 10)%N) in *. clearbody q m.
  assert (Hz : Z.of_N x = 10 * Z.of_N q + Z.of_N m) by lia.
  assert (Hr : 0 ≤ Z.of_N m < 10) by lia.
  destruct (N.eq_0_gt_0_cases q) as [H0|Hpos].
  - rewrite H0, pretty_N_go_0. cbn [bytes]. rewrite pretty_char_byte by done.
    exists (48 + Z.of_N m), []. split_and!; [done|lia|lia|constructor|].
    unfold digits_value. cbn. lia.
  - destruct (IH q) with (s := String (pretty_N_char m) s)
      as (d & ds & Hb & Hd & Hds & Hv); [done|done|].
    exists d, (ds ++ [48 + Z.of_N m]). rewrite Hb. cbn [bytes].
    rewrite pretty_char_byte by done. split_and!; [by rewrite <-app_assoc|lia|lia| |].
    + apply Forall_app. split; [done|]. constructor; [unfold is_digit; lia|constructor].
    + unfold digits_value in *. rewrite app_comm_cons, fold_left_app, Hv. cbn. lia.
Qed.

Lemma pretty_N_bytes (n : N) :
  canonical (bytes (pretty n)) ∧ digits_value (bytes (pretty n)) = Z.of_N n.
Proof.
  unfold pretty, pretty_N. case_decide as Hn; [subst; split; [by left|done]|].
  destruct (pretty_go_digits n "") as (d & ds & Hb & Hd & Hds & Hv); [lia|].
  rewrite Hb. cbn [bytes]. rewrite app_nil_r. split; [right; eauto|done].
Qed.

(** An integer's literal: its sign and its canonical digits. *)
Lemma pretty_Z_bytes (z : Z) :
  ∃ sign ds, bytes (pretty z) = sign ++ ds ∧ canonical ds
    ∧ (sign = [] ∧ z = digits_value ds ∨ sign = [45] ∧ z = - digits_value ds).
Proof.
  unfold pretty, pretty_Z. destruct z as [|p|p].
  - exists [], [48]. split_and!; [done|by left|by left].
  - destruct (pretty_N_bytes (N.pos p)) as [Hc Hv]. exists [], (bytes (pretty (N.pos p))).
    split_and!; [done|done|left]. split; [done|]. rewrite Hv. done.
  - destruct (pretty_N_bytes (N.pos p)) as [Hc Hv]. exists [45], (bytes (pretty (N.pos p))).
    split_and!; [done|done|right]. split; [done|]. rewrite Hv. done.
Qed.

Lemma digits_stops ds rest :
  Forall is_digit ds → stops rest → digits (ds ++ rest) = (ds, rest).
Proof.
  intros Hd Hr. induction Hd as [|d ds Hd _ IH]; cbn [app digits].
  - destruct rest as [|b rest]; [done|]. cbn [digits]. simpl in Hr.
    rewrite between_false_2 by lia. done.
  - unfold is_digit in Hd. rewrite between_true_2, IH by lia. done.
Qed.

Lemma number_sign sign ds rest :
  canonical ds → stops rest → sign = [] ∨ sign = [45] →
  number (sign ++ ds ++ rest) = Some (sign ++ ds, rest).
Proof.
  intros Hc Hr Hsign. unfold number.
  assert (Hs : (match sign ++ ds ++ rest with 45 :: r => ([45], r) | _ => ([], sign ++ ds ++ rest) end)
               = (sign, ds ++ rest)).
  { destruct Hsign as [-> | ->]; [|done]. destruct Hc as [->|(d & ds' & -> & Hd & _)]; [done|].
    cbn [app]. assert (d = 49 ∨ d = 50 ∨ d = 51 ∨ d = 52 ∨ d = 53 ∨ d = 54 ∨ d = 55 ∨ d = 56 ∨ d = 57)
      as Hcase by lia.
    by repeat (destruct Hcase as [-> | Hcase]; [done|]); subst. }
  rewrite Hs.
  assert (Hi : (match ds ++ rest with
             | 48 :: r' => Some ([48], r')
             | _ => let '(ds0, r') := digits (ds ++ rest) in
                    match ds0 with [] => None | _ => Some (ds0, r') end
             end) = Some (ds, rest)).
  { destruct Hc as [->|(d & ds' & -> & Hd & Hds)]; [done|].
    assert (Hdig : digits ((d :: ds') ++ rest) = (d :: ds', rest)).
    { apply digits_stops; [|done]. constructor; [unfold is_digit; lia|done]. }
    rewrite Hdig. cbn [app].
    assert (d = 49 ∨ d = 50 ∨ d = 51 ∨ d = 52 ∨ d = 53 ∨ d = 54 ∨ d = 55 ∨ d = 56 ∨ d = 57)
      as Hcase by lia.
    by repeat (destruct Hcase as [-> | Hcase]; [done|]); subst. }
  rewrite Hi. destruct rest as [|b rest]; [by rewrite !app_nil_r|]. simpl in Hr.
  destruct Hr as [-> | [-> | ->]]; cbn; by rewrite !app_nil_r.
Qed.

(** ** Values *)

Inductive wf_json : json → Prop :=
| wf_null : wf_json JNull
| wf_bool b : wf_json (JBool b)
| wf_num (z : Z) : wf_json (JNum (pretty z))
| wf_str s : valid_utf8 s → wf_json (JStr s)
| wf_arr l : Forall wf_json l → wf_json (JArr l)
| wf_obj kvs : Forall (λ kv : string * json, valid_utf8 kv.1 ∧ wf_json kv.2) kvs → wf_json (JObj kvs).

Definition render_member (kv : string * json) : list Z := quote_bytes kv.1 ++ 58 :: render kv.2.

Lemma render_obj kvs : render (JObj kvs) = 123 :: comma_sep (map render_member kvs) ++ [125].
Proof. done. Qed.
Lemma render_arr l : render (JArr l) = 91 :: comma_sep (map render l) ++ [93].
Proof. done. Qed.

Lemma comma_sep_cons x y l : comma_sep (x :: y :: l) = x ++ 44 :: comma_sep (y :: l).
Proof. done. Qed.

(** The first byte of a value is no white space and closes nothing. *)
Definition opens (bs : list Z) : Prop :=
  ∃ b t, bs = b :: t ∧ is_ws b = false ∧ b ≠ 93 ∧ b ≠ 125.

Lemma number_opens (z : Z) : opens (bytes (pretty z)).
Proof.
  destruct (pretty_Z_bytes z) as (sign & ds & -> & Hc & Hs).
  destruct Hs as [[-> _]|[-> _]]; [|by eexists _, _].
  destruct Hc as [->|(d & ds' & -> & Hd & _)]; [by eexists _, _|].
  eexists _, _. split; [done|]. unfold is_ws. rewrite !orb_false_iff, !Z.eqb_neq. lia.
Qed.

Lemma render_opens v : wf_json v → opens (render v).
Proof.
  destruct 1 as [|[]|z|s|l|kvs]; try (by eexists _, _).
  - apply number_opens.
Qed.

Lemma skip_ws_opens bs rest : opens bs → skip_ws (bs ++ rest) = bs ++ rest.
Proof. intros (b & t & -> & Hw & _). cbn [app skip_ws]. by rewrite Hw. Qed.

(** *** One step of the parser *)

(** Case analysis on a byte that a match compares with small constants. *)
Ltac split_byte b :=
  let p := fresh "p" in
  destruct b as [|p|p]; try done;
  do 7 (try (destruct p as [p|p|]; try done)).

Lemma value_str fuel s rest :
  valid_utf8 s → (length (quote_bytes s) ≤ fuel + 1)%nat →
  value (S fuel) (quote_bytes s ++ rest) = Some (JStr s, rest).
Proof.
  intros Hv Hf. rewrite (quote_bytes_valid s Hv). cbn [app]. rewrite <-app_assoc.
  change (value (S fuel) (34 :: ?r)) with
    (match unquote fuel r with Some (s, rest) => Some (JStr (of_bytes s), rest) | None => None end).
  cbn [app]. by rewrite unquote_valid, of_bytes_bytes.
Qed.

Lemma value_num fuel (z : Z) rest :
  stops rest → value (S fuel) (bytes (pretty z) ++ rest) = Some (JNum (pretty z), rest).
Proof.
  intros Hr. destruct (pretty_Z_bytes z) as (sign & ds & Hb & Hc & Hs).
  assert (Hn : number (bytes (pretty z) ++ rest) = Some (bytes (pretty z), rest)).
  { rewrite Hb, <-app_assoc. apply number_sign; [done|done|naive_solver]. }
  rewrite <-(of_bytes_bytes (pretty z)) at 2. rewrite Hb in Hn |- *.
  assert (Hd : ∃ b t, sign ++ ds = b :: t ∧ (b = 45 ∨ 48 ≤ b ≤ 57)).
  { destruct Hs as [[-> _]|[-> _]]; [|by eexists _, _; split; [done|left]].
    destruct Hc as [->|(d & ds' & -> & Hd & _)]; eexists _, _; (split; [done|right; lia]). }
  destruct Hd as (b & t & He & Hbt). rewrite He in *. cbn [app] in *.
  assert (b = 45 ∨ b = 48 ∨ b = 49 ∨ b = 50 ∨ b = 51 ∨ b = 52 ∨ b = 53 ∨ b = 54 ∨ b = 55 ∨ b = 56 ∨ b = 57)
    as Hcase by lia. clear Hbt He.
  repeat (destruct Hcase as [-> | Hcase]; [cbn -[number]; by rewrite Hn|]).
  subst. cbn -[number]. by rewrite Hn.
Qed.

Lemma value_arr fuel bs l rest :
  opens bs → elements fuel bs = Some (l, rest) →
  value (S fuel) (91 :: bs) = Some (JArr l, rest).
Proof.
  intros (b & t & -> & Hw & H93 & _) He.
  assert (Hs : skip_ws (b :: t) = b :: t) by (cbn; by rewrite Hw).
  change (value (S fuel) (91 :: b :: t)) with
    (match skip_ws (b :: t) with
     | 93 :: rest => Some (JArr [], rest)
     | r' => match elements fuel r' with Some (l, rest) => Some (JArr l, rest) | None => None end
     end).
  rewrite Hs. split_byte b; by rewrite He.
Qed.

Lemma value_obj fuel bs kvs rest :
  opens bs → members fuel bs = Some (kvs, rest) →
  value (S fuel) (123 :: bs) = Some (JObj kvs, rest).
Proof.
  intros (b & t & -> & Hw & _ & H125) He.
  assert (Hs : skip_ws (b :: t) = b :: t) by (cbn; by rewrite Hw).
  change (value (S fuel) (123 :: b :: t)) with
    (match skip_ws (b :: t) with
     | 125 :: rest => Some (JObj [], rest)
     | r' => match members fuel r' with Some (fs, rest) => Some (JObj fs, rest) | None => None end
     end).
  rewrite Hs. split_byte b; by rewrite He.
Qed.

(** ** Lists of values and of members *)

Definition reads_back (fuel : nat) : Prop :=
  ∀ v rest, wf_json v → stops rest → (length (render v) < fuel)%nat →
  value fuel (render v ++ rest) = Some (v, rest).

Lemma opens_comma_sep x l : opens x → opens (comma_sep (x :: l)).
Proof. intros (b & t & -> & H). by exists b, (t ++ concat (map (λ y, 44 :: y) l)). Qed.

Lemma opens_app x y : opens x → opens (x ++ y).
Proof. intros (b & t & -> & H). by exists b, (t ++ y). Qed.

Lemma elements_read l : ∀ fuel x rest,
  (∀ f, (f < fuel)%nat → reads_back f) →
  wf_json x → Forall wf_json l →
  (length (comma_sep (map render (x :: l))) + 1 < fuel)%nat →
  elements fuel (comma_sep (map render (x :: l)) ++ 93 :: rest) = Some (x :: l, rest).
Proof.
  induction l as [|y l IH]; intros fuel x rest Hval Hx Hl Hf;
    (destruct fuel as [|fuel]; [lia|]); cbn [elements].
  - cbn [map comma_sep concat]. cbn [map comma_sep concat] in Hf.
    rewrite app_nil_r in *. rewrite Hval; [done|lia|done|simpl; lia|lia].
  - cbn [map] in *. rewrite comma_sep_cons in *. rewrite length_app in Hf. cbn [length] in Hf.
    inversion_clear Hl. rewrite <-app_assoc. cbn [app].
    rewrite Hval; [|lia|done|simpl; lia|lia]. cbn [skip_ws].
    change (is_ws 44) with false. cbn iota.
    pose proof (render_opens x Hx) as (b & t & He & _). rewrite He in Hf. cbn [length] in Hf.
    rewrite (IH fuel y rest); [done| |done|done|cbn [map]; lia]. intros f Hlt. apply Hval. lia.
Qed.

Definition wf_member (kv : string * json) : Prop := valid_utf8 kv.1 ∧ wf_json kv.2.

(** One member, up to the byte after its value. *)
Lemma members_step fuel kv r3 :
  reads_back fuel → wf_member kv → stops r3 →
  (length (render_member kv) < fuel)%nat →
  members (S fuel) (render_member kv ++ r3)
  = match skip_ws r3 with
    | 44 :: r4 => match members fuel r4 with
                  | Some (fs, rest) => Some (kv :: fs, rest)
                  | None => None
                  end
    | 125 :: rest => Some ([kv], rest)
    | _ => None
    end.
Proof.
  intros Hval [Hk Hv] Hr Hf. destruct kv as [k v]. unfold render_member in *. cbn [fst snd] in *.
  rewrite length_app in Hf. cbn [length] in Hf.
  rewrite (quote_bytes_valid k Hk). cbn [app]. rewrite <-!app_assoc. cbn [app].
  cbn [members skip_ws]. change (is_ws 34) with false. cbn iota.
  rewrite unquote_valid by (done || lia). cbn [skip_ws]. change (is_ws 58) with false. cbn iota.
  rewrite Hval by (done || lia). by rewrite of_bytes_bytes.
Qed.

Lemma members_read l : ∀ fuel kv rest,
  (∀ f, (f < fuel)%nat → reads_back f) →
  wf_member kv → Forall wf_member l →
  (length (comma_sep (map render_member (kv :: l))) + 1 < fuel)%nat →
  members fuel (comma_sep (map render_member (kv :: l)) ++ 125 :: rest) = Some (kv :: l, rest).
Proof.
  induction l as [|kv' l IH]; intros fuel kv rest Hval Hx Hl Hf;
    (destruct fuel as [|fuel]; [lia|]).
  - cbn [map comma_sep concat]. cbn [map comma_sep concat] in Hf.
    rewrite app_nil_r in *. rewrite members_step; [done|apply Hval; lia|done|simpl; lia|lia].
  - cbn [map] in *. rewrite comma_sep_cons in *. rewrite length_app in Hf. cbn [length] in Hf.
    inversion_clear Hl. rewrite <-app_assoc. cbn [app].
    rewrite members_step; [|apply Hval; lia|done|simpl; lia|lia]. cbn [skip_ws].
    change (is_ws 44) with false. cbn iota.
    rewrite (IH fuel kv' rest); [done| |done|done|cbn [map]; lia]. intros f Hlt. apply Hval. lia.
Qed.

(** ** The round trip *)

Lemma value_read fuel : reads_back fuel.
Proof.
  induction (lt_wf fuel) as [fuel _ IH]. intros v rest Hv Hr Hf.
  destruct fuel as [|fuel]; [lia|].
  destruct Hv as [|[]|z|s Hs|l Hl|kvs Hkvs]; [done|done|done|by apply value_num| | |].
  - apply value_str; [done|cbn [render] in Hf; lia].
  - destruct l as [|x l]; [done|]. rewrite render_arr in *. cbn [app]. rewrite <-app_assoc.
    inversion_clear Hl. cbn [length] in Hf. rewrite length_app in Hf. cbn [length] in Hf. apply value_arr.
    + apply opens_app, opens_comma_sep. by apply render_opens.
    + cbn [app]. apply elements_read; [|done|done|lia]. intros f Hlt. apply IH. lia.
  - destruct kvs as [|kv kvs]; [done|]. rewrite render_obj in *. cbn [app]. rewrite <-app_assoc.
    inversion_clear Hkvs. cbn [length] in Hf. rewrite length_app in Hf. cbn [length] in Hf. apply value_obj.
    + apply opens_app, opens_comma_sep. unfold render_member, quote_bytes. by eexists _, _.
    + cbn [app]. apply members_read; [|done|done|lia]. intros f Hlt. apply IH. lia.
Qed.

(** What is written is bytes, so a document is the string of its rendering. *)
Lemma hex_char_is_byte n : 0 ≤ n < 16 → is_byte (hex_char n).
Proof. unfold is_byte, hex_char. destruct (Z.ltb_spec n 10); lia. Qed.

Lemma quote_rune_bytes r : scalar r = true → Forall is_byte (quote_rune r).
Proof.
  intros Hs. unfold quote_rune.
  assert (Hpos : 0 ≤ r).
  { unfold scalar in Hs. apply orb_true_iff in Hs as [Hb|Hb]; apply between_spec in Hb; lia. }
  repeat match goal with
  | |- context [Z.eqb r ?k] => destruct (Z.eqb_spec r k) as [->|];
      [vm_compute; repeat constructor; discriminate|cbn [orb]]
  end.
  destruct (Z.ltb_spec r 32); cbn [orb]; [|apply encode_rune_bytes].
  repeat constructor; try (unfold is_byte; lia);
    apply hex_char_is_byte; Z.to_euclidean_division_equations; lia.
Qed.

Lemma quote_bytes_bytes s : valid_utf8 s → Forall is_byte (quote_bytes s).
Proof.
  intros Hv. rewrite quote_bytes_valid by done. constructor; [unfold is_byte; lia|].
  apply Forall_app. split; [|repeat constructor; unfold is_byte; lia].
  induction (runes_scalar s) as [|r rs Hr _ IH]; [constructor|]. cbn [map concat].
  apply Forall_app. auto using quote_rune_bytes.
Qed.

Lemma comma_sep_bytes l : Forall (Forall is_byte) l → Forall is_byte (comma_sep l).
Proof.
  destruct 1 as [|x l Hx Hl]; [constructor|]. cbn [comma_sep]. apply Forall_app. split; [done|].
  induction Hl; [constructor|]. cbn [map concat app]. constructor; [unfold is_byte; lia|].
  by apply Forall_app.
Qed.

Lemma enclosed_bytes a b l : is_byte a → is_byte b → Forall is_byte l → Forall is_byte (a :: l ++ [b]).
Proof. intros. constructor; [done|]. apply Forall_app. auto. Qed.

Lemma render_is_byte : ∀ v, wf_json v → Forall is_byte (render v).
Proof.
  fix IH 1. intros v Hv. destruct v as [| b | lit | s | l | kvs].
  - apply (bytes_Forall "null").
  - apply (bytes_Forall (if b then "true" else "false")).
  - apply (bytes_Forall lit).
  - apply quote_bytes_bytes. by inversion Hv.
  - assert (Hl : Forall wf_json l) by (by inversion Hv). clear Hv.
    apply enclosed_bytes; [unfold is_byte; lia..|]. apply comma_sep_bytes.
    induction l as [|x l IHl]; [constructor|]. cbn [map]. constructor.
    + apply IH. by inversion Hl.
    + apply IHl. by inversion Hl.
  - assert (Hl : Forall wf_member kvs) by (by inversion Hv). clear Hv.
    apply enclosed_bytes; [unfold is_byte; lia..|]. apply comma_sep_bytes.
    induction kvs as [|[k v] kvs IHl]; [constructor|]. cbn [map]. constructor.
    + apply Forall_cons in Hl as [[Hk Hv] _]. apply Forall_app. split; [by apply quote_bytes_bytes|].
      constructor; [unfold is_byte; lia|]. by apply IH.
    + apply IHl. by inversion Hl.
Qed.

Lemma marshal_bytes v : wf_json v → bytes (marshal v) = render v.
Proof. intros Hv. apply bytes_of_bytes. by apply render_is_byte. Qed.

Lemma json_roundtrip v : wf_json v → json_parse (marshal v) = Some v.
Proof.
  intros Hv. unfold json_parse. rewrite marshal_bytes by done.
  rewrite <-(app_nil_r (render v)) at 3. rewrite value_read; [done|done|done|lia].
Qed.

(** ** Integers *)

Lemma canonical_digits ds : canonical ds → Forall is_digit ds ∧ ∃ d t, ds = d :: t ∧ 48 ≤ d ≤ 57.
Proof.
  intros [->|(d & t & -> & Hd & Ht)].
  - split; [constructor; [unfold is_digit; lia|constructor]|by exists 48, []].
  - split; [constructor; [unfold is_digit; lia|done]|exists d, t; split; [done|lia]].
Qed.

(** A 64-bit integer is read back from its literal. *)
Lemma int_value_pretty (z : Z) : in_int64 z → int_value (pretty z) = Some z.
Proof.
  intros Hz. unfold int_value. destruct (pretty_Z_bytes z) as (sign & ds & -> & Hc & Hs).
  destruct (canonical_digits ds Hc) as (Hds & d & t & He & Hd).
  assert (Hall : forallb (between 48 57) ds = true).
  { apply forallb_forall. intros x Hx%list_elem_of_In. rewrite Forall_forall in Hds.
    specialize (Hds x Hx). unfold is_digit in Hds. by rewrite between_true_2. }
  assert (Hm : (match sign ++ ds with 45 :: r => (true, r) | r => (false, r) end)
               = (match sign with [] => false | _ => true end, ds)).
  { destruct Hs as [[-> _]|[-> _]]; [|done]. rewrite He. cbn [app].
    assert (d = 48 ∨ d = 49 ∨ d = 50 ∨ d = 51 ∨ d = 52 ∨ d = 53 ∨ d = 54 ∨ d = 55 ∨ d = 56 ∨ d = 57)
      as Hcase by lia.
    by repeat (destruct Hcase as [-> | Hcase]; [done|]); subst. }
  rewrite Hm, Hall. fold (digits_value ds). unfold in_int64 in Hz.
  destruct Hs as [[-> ->]|[-> ->]]; cbn iota;
    by rewrite (proj2 (Z.leb_le _ _)), (proj2 (Z.leb_le _ _)) by lia.
Qed.
