(* ===== verification/Trust.v ===== *)
(** * Participant trust (src/internal/trust/trust.go)

    The closed participant set untrusted < known < owner, the channel-auth
    clamp [Stamp], the taint rule [Taints] and the session floor [Floor].
    A Go [Level] is a string, so a level outside the closed set is a value
    the functions must handle; the model keeps it a [string] for that reason. *)
From S2P Require Import Prelude.
Local Open Scope string_scope.

(** ** Definitions *)

Definition Level : Type := string.

Definition Untrusted : Level := "untrusted".
Definition Known : Level := "known".
Definition Owner : Level := "owner".

(** The [rank] map: a missing key reads as Go's zero value. *)
Definition rank (l : Level) : Z :=
  if bool_decide (l = Untrusted) then 1
  else if bool_decide (l = Known) then 2
  else if bool_decide (l = Owner) then 3
  else 0.

Definition normalize (l : Level) : Level :=
  if Z.eqb (rank l) 0 then Untrusted else l.

Definition Parse (s : string) : result string Level :=
  let l : Level := s in
  if Z.eqb (rank l) 0 then Err ("trust: unknown level " +:+ s) else Ok l.

Definition Min (a b : Level) : Level :=
  let a := normalize a in
  let b := normalize b in
  if Z.ltb (rank a) (rank b) then a else b.

Record Stamped : Type := MkStamped {
  st_Trust : Level;
  st_ReadOnly : bool;
  st_MayApprove : bool;
}.

Definition Stamp (auth : string) (lookup : Level) : Stamped :=
  if bool_decide (auth = "strong") then
    MkStamped (Min lookup Owner) false true
  else if bool_decide (auth = "weak") then
    MkStamped (Min lookup Known) true false
  else MkStamped Untrusted true false.

(** [IngestKind] is an open Go [int]; the constants start at [iota + 1]. *)
Definition IngestKind : Type := Z.
Definition IngestInboundMessage : IngestKind := 1%Z.
Definition IngestMCPResult : IngestKind := 2%Z.
Definition IngestWebFetch : IngestKind := 3%Z.
Definition IngestCodexWebRead : IngestKind := 4%Z.
Definition IngestCodexCritique : IngestKind := 5%Z.
Definition IngestAttachment : IngestKind := 6%Z.

Definition Taints (kind : IngestKind) (author : Level) : bool :=
  if Z.eqb kind IngestInboundMessage || Z.eqb kind IngestMCPResult then
    negb (bool_decide (normalize author = Owner))
  else if Z.eqb kind IngestCodexCritique then false
  else true.

(** The loop of [Floor]: index 0 replaces the accumulator, every later
    participant lowers it. *)
Fixpoint floor_loop (i : nat) (floor : Level) (ps : list Level) : Level :=
  match ps with
  | [] => floor
  | p :: ps' =>
      floor_loop (S i) (if Nat.eqb i 0 then normalize p else Min floor p) ps'
  end.

Definition Floor (participants : list Level) : Level :=
  floor_loop 0 Untrusted participants.

(** The closed set, and the order the ranks induce on it. *)
Definition participant (l : Level) : Prop := l = Untrusted ∨ l = Known ∨ l = Owner.
Definition level_le (a b : Level) : Prop := (rank a ≤ rank b)%Z.

(** ** Lemmas *)

Ltac level_cases :=
  unfold level_le, Min, normalize, participant, rank in *;
  repeat (case_bool_decide; simplify_eq/=; try (auto; lia; fail)).

Lemma normalize_participant l : participant (normalize l).
Proof. level_cases; naive_solver. Qed.

Lemma normalize_idemp l : normalize (normalize l) = normalize l.
Proof. level_cases; naive_solver. Qed.

Lemma normalize_of_participant l : participant l → normalize l = l.
Proof. intros [->|[->| ->]]; reflexivity. Qed.

Lemma rank_participant_inj a b :
  participant a → participant b → rank a = rank b → a = b.
Proof.
  intros [->|[->| ->]] [->|[->| ->]]; cbv; intros; congruence.
Qed.

Lemma Min_participant a b : participant (Min a b).
Proof. unfold Min. case_match; apply normalize_participant. Qed.

Lemma Min_choice a b : Min a b = normalize a ∨ Min a b = normalize b.
Proof. unfold Min. case_match; auto. Qed.

Lemma Min_le_l a b : level_le (Min a b) (normalize a).
Proof. unfold Min, level_le. case_match; lia. Qed.

Lemma Min_le_r a b : level_le (Min a b) (normalize b).
Proof. unfold Min, level_le. case_match; lia. Qed.

Lemma floor_loop_participant ps i f :
  participant f → participant (floor_loop i f ps).
Proof.
  revert i f. induction ps as [|p ps IH]; intros i f Hf; simpl; [done|].
  apply IH. case_match; [apply normalize_participant|apply Min_participant].
Qed.

(** After the first participant the accumulator only goes down, and the
    result is the accumulator or one of the remaining participants. *)
Lemma floor_loop_min ps i f :
  i ≠ 0 → participant f →
  level_le (floor_loop i f ps) f
  ∧ (∀ p, p ∈ ps → level_le (floor_loop i f ps) (normalize p))
  ∧ (floor_loop i f ps = f ∨ ∃ p, p ∈ ps ∧ floor_loop i f ps = normalize p).
Proof.
  revert i f. induction ps as [|p ps IH]; intros i f Hi Hf; simpl.
  { split_and!; [unfold level_le; lia|by intros p ?%elem_of_nil|by left]. }
  destruct (Nat.eqb_spec i 0) as [?|_]; [done|].
  destruct (IH (S i) (Min f p)) as (Hle & Hall & Hch);
    [lia|apply Min_participant|].
  pose proof (Min_le_l f p) as Hl. pose proof (Min_le_r f p) as Hr.
  rewrite (normalize_of_participant f) in Hl by done.
  unfold level_le in *. split_and!.
  - lia.
  - intros q [->|Hq]%elem_of_cons; [lia|]. by apply Hall.
  - destruct Hch as [->|(q & Hq & ->)].
    + destruct (Min_choice f p) as [->| ->].
      * left. by apply normalize_of_participant.
      * right. exists p. split; [by left|done].
    + right. exists q. split; [by right|done].
Qed.

(** ** Properties *)

(** The channel-auth clamp.  Whatever level the identities table holds,
    the stamp never exceeds it and is always in the closed set; a weak channel
    never stamps above known, is read-only and cannot approve; a channel with
    any other auth string that is not "strong" gets exactly the bottom stamp;
    approval capability exists only on strong channels. *)
Theorem Stamp_clamps auth lookup :
  participant (st_Trust (Stamp auth lookup))
  ∧ level_le (st_Trust (Stamp auth lookup)) (normalize lookup)
  ∧ (auth = "strong" → Stamp auth lookup = MkStamped (normalize lookup) false true)
  ∧ (auth = "weak" → level_le (st_Trust (Stamp auth lookup)) Known
       ∧ st_ReadOnly (Stamp auth lookup) = true
       ∧ st_MayApprove (Stamp auth lookup) = false)
  ∧ (auth ≠ "strong" → auth ≠ "weak" →
       Stamp auth lookup = MkStamped Untrusted true false)
  ∧ (st_MayApprove (Stamp auth lookup) = true → auth = "strong").
Proof.
  assert (Hn := normalize_participant lookup).
  unfold Stamp. split_and!; intros; subst; simpl; repeat case_bool_decide;
    simplify_eq/=; auto using Min_participant, Min_le_l.
  - by left.
  - unfold level_le. destruct Hn as [->|[->| ->]]; cbv; congruence.
  - f_equal. unfold Min. destruct Hn as [->|[->| ->]]; reflexivity.
  - pose proof (Min_le_r lookup Known). auto.
Qed.

(** The session floor is the minimum over the participants: it is a
    level of the closed set, no participant (junk levels read as untrusted)
    is below it, some participant attains it, and with nobody known it is
    untrusted. *)
Theorem Floor_minimum ps :
  participant (Floor ps)
  ∧ (∀ p, p ∈ ps → level_le (Floor ps) (normalize p))
  ∧ (ps = [] → Floor ps = Untrusted)
  ∧ (ps ≠ [] → ∃ p, p ∈ ps ∧ Floor ps = normalize p).
Proof.
  unfold Floor. split; [apply floor_loop_participant; by left|].
  destruct ps as [|p ps]; [split_and!; try done; by intros q ?%elem_of_nil|].
  simpl. destruct (floor_loop_min ps 1 (normalize p)) as (Hle & Hall & Hch);
    [done|apply normalize_participant|].
  split_and!; [|done|].
  - intros q [->|Hq]%elem_of_cons; auto.
  - intros _. destruct Hch as [->|(q & Hq & ->)].
    + exists p. split; [by left|done].
    + exists q. split; [by right|done].
Qed.
