(* ===== verification/Schema.v ===== *)
(** * The state store: tables, constraints and SQL calls
    (src/internal/store/migrations/*.sql and the database/sql surface)

    A [db] is the content of the store.  Each table is a finite map from its
    primary key to its row, and a row has one field per column of the
    migrations (0002 to 0011); a nullable column is an [option].  A Go call that
    reaches the database is a [stmt] (one SQL statement, atomic) or an [in_tx]
    (several statements, all or nothing).  Any of them can fail: a [world]
    pairs the database with a stream of faults, one consumed per SQL call, so
    a theorem about every world covers every pattern of failed calls.

    The files of the store package follow, one each: [Events], [Deliveries],
    [ToolAttempts], [DeadLetters], [Sessions], [Identities]. *)
From Stdlib Require Import SpecFloat.
From S2P Require Import Prelude.
Local Open Scope Z_scope.

(** ** Rows *)

(** events.status (0005). *)
Inductive ev_status : Type :=
| Received | Processing | Completed | Replied | Interrupted | Skipped | Dead.
#[global] Instance ev_status_eq_dec : EqDecision ev_status.
Proof. solve_decision. Defined.

Record event_row : Type := EventRow {
  er_dedup_key : string;
  er_thread_key : string;
  er_kind : string;
  er_trust : string;
  er_payload : string;
  er_status : ev_status;
  er_attempts : Z;
  er_received : Z;
  er_updated : option Z;
  er_correlation : option string;
  er_parks : Z;
}.

(** deliveries.status (0006). *)
Inductive dl_status : Type := Pending | Sent | Failed.
#[global] Instance dl_status_eq_dec : EqDecision dl_status.
Proof. solve_decision. Defined.

Record delivery_row : Type := DeliveryRow {
  dr_delivery_key : string;
  dr_event_id : option Z;
  dr_target : string;
  dr_payload : string;
  dr_status : dl_status;
  dr_attempts : Z;
  dr_last_attempt : option Z;
  dr_acked : option Z;
}.

(** tool_attempts.state (0007). *)
Inductive ta_state : Type := TStarted | TDone | TFailed.
#[global] Instance ta_state_eq_dec : EqDecision ta_state.
Proof. solve_decision. Defined.

Record attempt_row : Type := AttemptRow {
  ta_session_id : string;
  ta_event_id : option Z;
  ta_tool : string;
  ta_args_digest : string;
  ta_idempotency_key : option string;
  ta_state_ : ta_state;
  ta_started_at : Z;
  ta_ended_at : option Z;
}.

(** dead_letters.resolution (0010). *)
Inductive resolution : Type := Requeued | Discarded.
#[global] Instance resolution_eq_dec : EqDecision resolution.
Proof. solve_decision. Defined.

Record dead_row : Type := DeadRow {
  dd_reason : string;
  dd_entered : Z;
  dd_acked : option Z;
  dd_resolution : option resolution;
  dd_entries : Z;
}.

(** sessions.status (0003); the [channel] column is never written. *)
Inductive ss_status : Type := Creating | Active | Rotated | ResumeFailed | SFailed.
#[global] Instance ss_status_eq_dec : EqDecision ss_status.
Proof. solve_decision. Defined.

Record session_row : Type := SessionRow {
  sr_thread_key : string;
  sr_status : ss_status;
  sr_cwd : string;
  sr_origin : option string;
  sr_trust_floor : string;
  sr_created_at : Z;
  sr_activation_deadline : option Z;
  sr_rotated_to : option string;
  sr_last_seen : option Z;
  sr_turns : option Z;
  sr_tainted : bool;
}.

(** A Go [float64] is an IEEE 754 binary64 value. *)
Definition float64 : Type := spec_float.

(** turns (0011); NULL usage is usage nobody knows. *)
Record turn_row : Type := TurnRow {
  tr_session_id : string;
  tr_ts : Z;
  tr_kind : option string;
  tr_model : option string;
  tr_input_tokens : option Z;
  tr_output_tokens : option Z;
  tr_cost_usd : option float64;
  tr_tool_calls : Z;
  tr_duration_ms : Z;
  tr_outcome : string;
}.

(** identities (0002), keyed by (channel, native_id). *)
Record ident_row : Type := IdentRow {
  id_trust : string;
  id_owner_id : option string;
  id_label : option string;
}.

(** sessions is keyed by session_id alone: sessions_by_id makes it unique. *)
Record db : Type := Db {
  events : gmap Z event_row;
  deliveries : gmap Z delivery_row;
  tool_attempts : gmap Z attempt_row;
  dead_letters : gmap Z dead_row;
  sessions : gmap string session_row;
  turns : gmap Z turn_row;
  identities : gmap (string * string) ident_row;
}.

Definition empty_db : db := Db ∅ ∅ ∅ ∅ ∅ ∅ ∅.

Definition set_events (x : gmap Z event_row) (d : db) : db :=
  Db x (deliveries d) (tool_attempts d) (dead_letters d) (sessions d) (turns d) (identities d).
Definition set_deliveries (x : gmap Z delivery_row) (d : db) : db :=
  Db (events d) x (tool_attempts d) (dead_letters d) (sessions d) (turns d) (identities d).
Definition set_tool_attempts (x : gmap Z attempt_row) (d : db) : db :=
  Db (events d) (deliveries d) x (dead_letters d) (sessions d) (turns d) (identities d).
Definition set_dead_letters (x : gmap Z dead_row) (d : db) : db :=
  Db (events d) (deliveries d) (tool_attempts d) x (sessions d) (turns d) (identities d).
Definition set_sessions (x : gmap string session_row) (d : db) : db :=
  Db (events d) (deliveries d) (tool_attempts d) (dead_letters d) x (turns d) (identities d).
Definition set_identities (x : gmap (string * string) ident_row) (d : db) : db :=
  Db (events d) (deliveries d) (tool_attempts d) (dead_letters d) (sessions d) (turns d) x.
Definition set_turns (x : gmap Z turn_row) (d : db) : db :=
  Db (events d) (deliveries d) (tool_attempts d) (dead_letters d) (sessions d) x (identities d).

(** ** CHECK constraints on the text enums *)

(** events.kind (0005). *)
Definition kind_check (k : string) : bool :=
  bool_decide (k ∈ ["message"; "heartbeat"; "webhook"; "cron"; "approval"; "task"]%string).

(** events.trust (0005). *)
Definition event_trust_check (t : string) : bool :=
  bool_decide (t ∈ ["owner"; "known"; "untrusted"; "system"; "system-worker"]%string).

(** sessions.trust_floor (0003). *)
Definition floor_check (t : string) : bool :=
  bool_decide (t ∈ ["owner"; "known"; "untrusted"]%string).

(** dead_letters.reason (0010). *)
Definition reason_check (r : string) : bool :=
  bool_decide (r ∈ ["retries-exhausted"; "malformed"; "unroutable"; "surface-failed"]%string).

(** identities: CHECK (trust IN ...) and the owner_id shape (0002). *)
Definition ident_check (r : ident_row) : bool :=
  (bool_decide (id_trust r = "owner"%string)
     && match id_owner_id r with Some o => negb (bool_decide (o = ""%string)) | None => false end)
  || (bool_decide (id_trust r = "known"%string)
     && match id_owner_id r with None => true | Some _ => false end).

(** [NULLIF(x, '')], and a Go [any] left nil for the empty string. *)
Definition nullif_empty (s : string) : option string :=
  if bool_decide (s = ""%string) then None else Some s.

(** A Go [int64] id where 0 means "none" and lands as NULL. *)
Definition nullif_zero (x : Z) : option Z := if Z.eqb x 0 then None else Some x.

(** ** Errors *)

Inductive err : Type :=
| EIO                          (* a database/sql call failed *)
| EConstraint                  (* CHECK, NOT NULL, UNIQUE or FOREIGN KEY *)
| ENoRows                      (* sql.ErrNoRows *)
| EInvalid (why : string)      (* a validate() refusal, before the db is touched *)
| ERefused (why : string)      (* a guarded statement that touched no row *)
| ERetryBudgetExhausted
| ESideEffectingAttempt
| ENotCreating
| ENotActive
| ECwd (cwd : string)          (* canonicalCwd could not resolve a directory *)
| ECwdGone                     (* session.ErrCwdGone *)
| EResumeFailed                (* session.ErrResumeFailed *)
| EEngine                      (* any other engine failure *)
| ECtx                         (* the context's own error *)
| EStuck.                      (* a goroutine waits for a gate it holds itself *)
#[global] Instance err_eq_dec : EqDecision err.
Proof. solve_decision. Defined.

(** ** SQL calls *)

Record world : Type := World {
  w_db : db;
  w_faults : list bool;
}.

Definition StoreM (A : Type) : Type := M world err A.
#[global] Instance StoreM_ret : MRet StoreM := λ A, @M_ret world err A.
#[global] Instance StoreM_bind : MBind StoreM := λ A B, @M_bind world err A B.

(** Whether the next SQL call fails, and the stream after it; an exhausted
    stream is a healthy database. *)
Definition next_fault (fs : list bool) : bool * list bool :=
  match fs with [] => (false, []) | f :: fs' => (f, fs') end.

(** One SQL statement run outside an explicit transaction: it fails with the
    database untouched, or it applies whole. *)
Definition stmt {A} (f : db → result err (A * db)) : StoreM A := λ w,
  let '(bad, fs) := next_fault (w_faults w) in
  if bad then (Err EIO, World (w_db w) fs)
  else match f (w_db w) with
       | Ok (a, d') => (Ok a, World d' fs)
       | Err e => (Err e, World (w_db w) fs)
       end.

(** A read: [QueryContext] / [QueryRowContext] with its scan. *)
Definition query {A} (f : db → A) : StoreM A := stmt (λ d, Ok (f d, d)).

(** An [ExecContext] whose only answer is [RowsAffected]. *)
Definition exec (f : db → Z * db) : StoreM Z := stmt (λ d, Ok (f d)).

(** A transaction.  [BeginTx] can fail; an error from the body runs the
    deferred rollback; a body that answers [(false, a)] returned without
    committing, which the deferred rollback also undoes; [Commit] can fail,
    and then nothing of the body is kept. *)
Definition in_tx {A} (body : StoreM (bool * A)) : StoreM A := λ w,
  let '(bad, fs) := next_fault (w_faults w) in
  if bad then (Err EIO, World (w_db w) fs)
  else match body (World (w_db w) fs) with
       | (Err e, w1) => (Err e, World (w_db w) (w_faults w1))
       | (Ok (false, a), w1) => (Ok a, World (w_db w) (w_faults w1))
       | (Ok (true, a), w1) =>
           let '(bad', fs') := next_fault (w_faults w1) in
           if bad' then (Err EIO, World (w_db w) fs')
           else (Ok a, World (w_db w1) fs')
       end.

Definition refuse {A} (e : err) : StoreM A := fail e.

(** Running against a database whose calls all succeed. *)
Definition run {A} (m : StoreM A) (d : db) : result err A * db :=
  let '(r, w) := m (World d []) in (r, w_db w).

(** ** Row updates *)

(** The mutable columns of an event; the others are written once, at insert. *)
Definition event_upd (st : ev_status) (attempts parks : Z) (updated : option Z)
    (e : event_row) : event_row :=
  EventRow (er_dedup_key e) (er_thread_key e) (er_kind e) (er_trust e)
    (er_payload e) st attempts (er_received e) updated (er_correlation e) parks.

(** [SET status = st, updated = now]. *)
Definition event_status_upd (st : ev_status) (now : Z) (e : event_row) : event_row :=
  event_upd st (er_attempts e) (er_parks e) (Some now) e.

Definition delivery_upd (st : dl_status) (attempts : Z) (last acked : option Z)
    (r : delivery_row) : delivery_row :=
  DeliveryRow (dr_delivery_key r) (dr_event_id r) (dr_target r) (dr_payload r)
    st attempts last acked.

Definition dead_upd (acked : option Z) (res : option resolution) (r : dead_row) : dead_row :=
  DeadRow (dd_reason r) (dd_entered r) acked res (dd_entries r).

Definition session_upd (st : ss_status) (to : option string)
    (last_seen turns : option Z) (tainted : bool) (r : session_row) : session_row :=
  SessionRow (sr_thread_key r) st (sr_cwd r) (sr_origin r) (sr_trust_floor r)
    (sr_created_at r) (sr_activation_deadline r) to last_seen turns tainted.

(** [UPDATE t SET f WHERE pk = id AND guard], answering RowsAffected. *)
Definition upd_event (id : Z) (guard : event_row → bool) (f : event_row → event_row)
    (d : db) : Z * db :=
  match events d !! id with
  | Some e => if guard e then (1, set_events (<[id := f e]> (events d)) d) else (0, d)
  | None => (0, d)
  end.

Definition upd_delivery (id : Z) (guard : delivery_row → bool)
    (f : delivery_row → delivery_row) (d : db) : Z * db :=
  match deliveries d !! id with
  | Some r => if guard r then (1, set_deliveries (<[id := f r]> (deliveries d)) d) else (0, d)
  | None => (0, d)
  end.

Definition upd_dead (id : Z) (guard : dead_row → bool) (f : dead_row → dead_row)
    (d : db) : Z * db :=
  match dead_letters d !! id with
  | Some r => if guard r then (1, set_dead_letters (<[id := f r]> (dead_letters d)) d) else (0, d)
  | None => (0, d)
  end.

Definition upd_session (id : string) (guard : session_row → bool)
    (f : session_row → session_row) (d : db) : Z * db :=
  match sessions d !! id with
  | Some r => if guard r then (1, set_sessions (<[id := f r]> (sessions d)) d) else (0, d)
  | None => (0, d)
  end.

Definition has_status (sts : list ev_status) (e : event_row) : bool :=
  bool_decide (er_status e ∈ sts).

(** ** Reasoning: weakest preconditions that range over every fault stream *)

Definition wpd {A} (m : StoreM A) (Q : result err A → db → Prop) (d : db) : Prop :=
  ∀ fs, let '(r, w') := m (World d fs) in Q r (w_db w').

Section wpd.
Context {A : Type}.
Implicit Types (m : StoreM A) (Q : result err A → db → Prop).

Lemma wpd_mono m Q Q' d :
  wpd m Q d → (∀ r d', Q r d' → Q' r d') → wpd m Q' d.
Proof. intros H HQ fs. specialize (H fs). destruct (m _). auto. Qed.

Lemma wpd_ret (a : A) Q d : Q (Ok a) d → wpd (mret a) Q d.
Proof. intros H fs. done. Qed.

Lemma wpd_refuse e Q d : Q (Err e) d → wpd (refuse e) Q d.
Proof. intros H fs. done. Qed.

Lemma wpd_bind {B} m (f : A → StoreM B) (Q : result err B → db → Prop) d :
  wpd m (λ r d', match r with Ok a => wpd (f a) Q d' | Err e => Q (Err e) d' end) d →
  wpd (m ≫= f) Q d.
Proof.
  intros H fs. specialize (H fs). unfold mbind, StoreM_bind, M_bind.
  destruct (m (World d fs)) as [[a|e] [d' fs']]; simpl in *; [|done].
  apply H.
Qed.

Lemma wpd_try m (Q : result err (result err A) → db → Prop) d :
  wpd m (λ r d', Q (Ok r) d') d → wpd (try m) Q d.
Proof. intros H fs. specialize (H fs). unfold try. by destruct (m _). Qed.

Lemma wpd_stmt (f : db → result err (A * db)) Q d :
  Q (Err EIO) d →
  match f d with Ok (a, d') => Q (Ok a) d' | Err e => Q (Err e) d end →
  wpd (stmt f) Q d.
Proof.
  intros HIO H fs. unfold stmt. simpl.
  destruct (next_fault fs) as [[] fs']; simpl; [done|].
  destruct (f d) as [[a d']|e]; done.
Qed.

Lemma wpd_query (f : db → A) Q d : Q (Err EIO) d → Q (Ok (f d)) d → wpd (query f) Q d.
Proof. intros ??. by apply wpd_stmt. Qed.

Lemma wpd_in_tx (body : StoreM (bool * A)) Q d :
  Q (Err EIO) d →
  wpd body (λ r d', match r with
                    | Ok (true, a) => Q (Ok a) d'
                    | Ok (false, a) => Q (Ok a) d
                    | Err e => Q (Err e) d
                    end) d →
  wpd (in_tx body) Q d.
Proof.
  intros HIO H fs. unfold in_tx. simpl.
  destruct (next_fault fs) as [[] fs']; simpl; [done|].
  specialize (H fs').
  destruct (body (World d fs')) as [[[[] a]|e] [d1 fs1]]; simpl in *; try done.
  by destruct (next_fault fs1) as [[] ?].
Qed.

(** A fault-free run is one of the runs [wpd] speaks about. *)
Lemma wpd_run m Q d : wpd m Q d → let '(r, d') := run m d in Q r d'.
Proof. intros H. specialize (H []). unfold run. by destruct (m _). Qed.

Lemma wpd_conj m Q Q' d :
  wpd m Q d → wpd m Q' d → wpd m (λ r d', Q r d' ∧ Q' r d') d.
Proof. intros H H' fs. specialize (H fs). specialize (H' fs). destruct (m _). auto. Qed.
End wpd.

Lemma wpd_exec (f : db → Z * db) Q d :
  Q (Err EIO) d → (∀ n d', f d = (n, d') → Q (Ok n) d') → wpd (exec f) Q d.
Proof. intros HIO H. apply wpd_stmt; [done|]. destruct (f d) eqn:E. by apply H. Qed.

(** Fault-free runs compose. *)
Definition calm {A} (m : StoreM A) : Prop :=
  ∀ d, w_faults (m (World d [])).2 = [].

Lemma calm_ret {A} (a : A) : calm (mret a).
Proof. done. Qed.
Lemma calm_refuse {A} e : calm (A := A) (refuse e).
Proof. done. Qed.
Lemma calm_stmt {A} (f : db → result err (A * db)) : calm (stmt f).
Proof. intros d. unfold stmt. simpl. by destruct (f d) as [[? ?]|?]. Qed.
Lemma calm_query {A} (f : db → A) : calm (query f).
Proof. apply calm_stmt. Qed.
Lemma calm_exec (f : db → Z * db) : calm (exec f).
Proof. apply calm_stmt. Qed.
Lemma calm_bind {A B} (m : StoreM A) (f : A → StoreM B) :
  calm m → (∀ a, calm (f a)) → calm (m ≫= f).
Proof.
  intros Hm Hf d. specialize (Hm d). unfold mbind, StoreM_bind, M_bind.
  destruct (m (World d [])) as [[a|e] [d' fs']]; simpl in *; [|done].
  subst. apply Hf.
Qed.
Lemma calm_try {A} (m : StoreM A) : calm m → calm (try m).
Proof. intros H d. specialize (H d). unfold try. by destruct (m _). Qed.
Lemma calm_in_tx {A} (body : StoreM (bool * A)) : calm body → calm (in_tx body).
Proof.
  intros H d. specialize (H d). unfold in_tx. simpl.
  destruct (body (World d [])) as [[[[] a]|e] [d1 fs1]]; simpl in *; subst; done.
Qed.

Lemma run_bind {A B} (m : StoreM A) (f : A → StoreM B) d :
  calm m →
  run (m ≫= f) d =
  match run m d with (Ok a, d') => run (f a) d' | (Err e, d') => (Err e, d') end.
Proof.
  intros Hm. specialize (Hm d). unfold run, mbind, StoreM_bind, M_bind.
  destruct (m (World d [])) as [[a|e] [d' fs']]; simpl in *; by subst.
Qed.

Lemma run_stmt {A} (f : db → result err (A * db)) d :
  run (stmt f) d = match f d with Ok (a, d') => (Ok a, d') | Err e => (Err e, d) end.
Proof. unfold run, stmt. simpl. by destruct (f d) as [[? ?]|?]. Qed.
Lemma run_query {A} (f : db → A) d : run (query f) d = (Ok (f d), d).
Proof. done. Qed.
Lemma run_exec f d : run (exec f) d = let '(n, d') := f d in (Ok n, d').
Proof. unfold exec. rewrite run_stmt. by destruct (f d). Qed.
Lemma run_ret {A} (a : A) d : run (mret a) d = (Ok a, d).
Proof. done. Qed.
Lemma run_refuse {A} e d : run (refuse (A := A) e) d = (Err e, d).
Proof. done. Qed.
Lemma run_try {A} (m : StoreM A) d :
  run (try m) d = let '(r, d') := run m d in (Ok r, d').
Proof. unfold run, try. by destruct (m _) as [? ?]. Qed.
Lemma run_in_tx {A} (body : StoreM (bool * A)) d :
  calm body →
  run (in_tx body) d =
  match run body d with
  | (Ok (true, a), d') => (Ok a, d')
  | (Ok (false, a), _) => (Ok a, d)
  | (Err e, _) => (Err e, d)
  end.
Proof.
  intros H. specialize (H d). unfold run, in_tx. simpl.
  destruct (body (World d [])) as [[[[] a]|e] [d1 fs1]]; simpl in *; by subst.
Qed.

Create HintDb calm.
#[export] Hint Resolve calm_ret calm_refuse calm_stmt calm_query calm_exec
  calm_bind calm_try calm_in_tx : calm.

(** ** Lemmas: guarded updates *)

(** Which statements touched a row. *)
Lemma upd_event_spec id g f d n d' :
  upd_event id g f d = (n, d') →
  (n = 0 ∧ d' = d ∧ (∀ e, events d !! id = Some e → g e = false)) ∨
  (n = 1 ∧ ∃ e, events d !! id = Some e ∧ g e = true
        ∧ d' = set_events (<[id := f e]> (events d)) d).
Proof.
  unfold upd_event. destruct (events d !! id) as [e|] eqn:He; [destruct (g e) eqn:Hg|];
    intros; simplify_eq; naive_solver.
Qed.

Lemma upd_delivery_spec id g f d n d' :
  upd_delivery id g f d = (n, d') →
  (n = 0 ∧ d' = d ∧ (∀ r, deliveries d !! id = Some r → g r = false)) ∨
  (n = 1 ∧ ∃ r, deliveries d !! id = Some r ∧ g r = true
        ∧ d' = set_deliveries (<[id := f r]> (deliveries d)) d).
Proof.
  unfold upd_delivery. destruct (deliveries d !! id) as [r|] eqn:Hr; [destruct (g r) eqn:Hg|];
    intros; simplify_eq; naive_solver.
Qed.

Lemma upd_dead_spec id g f d n d' :
  upd_dead id g f d = (n, d') →
  (n = 0 ∧ d' = d ∧ (∀ r, dead_letters d !! id = Some r → g r = false)) ∨
  (n = 1 ∧ ∃ r, dead_letters d !! id = Some r ∧ g r = true
        ∧ d' = set_dead_letters (<[id := f r]> (dead_letters d)) d).
Proof.
  unfold upd_dead. destruct (dead_letters d !! id) as [r|] eqn:Hr; [destruct (g r) eqn:Hg|];
    intros; simplify_eq; naive_solver.
Qed.

Lemma upd_session_spec id g f d n d' :
  upd_session id g f d = (n, d') →
  (n = 0 ∧ d' = d ∧ (∀ r, sessions d !! id = Some r → g r = false)) ∨
  (n = 1 ∧ ∃ r, sessions d !! id = Some r ∧ g r = true
        ∧ d' = set_sessions (<[id := f r]> (sessions d)) d).
Proof.
  unfold upd_session. destruct (sessions d !! id) as [r|] eqn:Hr; [destruct (g r) eqn:Hg|];
    intros; simplify_eq; naive_solver.
Qed.

Lemma has_status_true sts e : has_status sts e = true ↔ er_status e ∈ sts.
Proof. unfold has_status. apply bool_decide_eq_true. Qed.

(** ** Proof steps *)

(** Walk a [wpd] goal through the combinators of a definition. *)
Ltac wpd_step :=
  lazymatch goal with
  | |- wpd (_ ≫= _) _ _ => apply wpd_bind
  | |- wpd (mbind _ _) _ _ => apply wpd_bind
  | |- wpd (in_tx _) _ _ => apply wpd_in_tx; [|]
  | |- wpd (try _) _ _ => apply wpd_try
  | |- wpd (query _) _ _ => apply wpd_query; [|]
  | |- wpd (exec _) _ _ => apply wpd_exec; [|intros ? ? ?]
  | |- wpd (stmt _) _ _ => apply wpd_stmt; [|]
  | |- wpd (mret _) _ _ => apply wpd_ret
  | |- wpd (refuse _) _ _ => apply wpd_refuse
  | |- wpd (if ?b then _ else _) _ _ => destruct b eqn:?
  | |- wpd (match ?x with _ => _ end) _ _ => destruct x eqn:?
  | |- match ?x with _ => _ end => destruct x eqn:?
  end.

(** What a guarded update did, from its RowsAffected. *)
Ltac upd_cases :=
  match goal with
  | H : upd_event _ _ _ _ = _ |- _ =>
      apply upd_event_spec in H as [(-> & -> & ?)|(-> & ? & ? & ? & ->)]
  | H : upd_delivery _ _ _ _ = _ |- _ =>
      apply upd_delivery_spec in H as [(-> & -> & ?)|(-> & ? & ? & ? & ->)]
  | H : upd_dead _ _ _ _ = _ |- _ =>
      apply upd_dead_spec in H as [(-> & -> & ?)|(-> & ? & ? & ? & ->)]
  | H : upd_session _ _ _ _ = _ |- _ =>
      apply upd_session_spec in H as [(-> & -> & ?)|(-> & ? & ? & ? & ->)]
  end.
