(* ===== verification/Events.v ===== *)
(** * The durable queue (src/internal/store/events.go, queue.go, retry.go)

    One definition per exported function, each a [StoreM] program over the
    events table; a guarded UPDATE is an [exec] whose RowsAffected decides the
    refusal, as in the source. *)
From S2P Require Import Prelude Utf8 Json Schema.
Local Open Scope Z_scope.

(** ** Data *)

(** store.Event: what an adapter stamps at receipt. *)
Record StoreEvent : Type := MkStoreEvent {
  ev_DedupKey : string;
  ev_ThreadKey : string;
  ev_Kind : string;
  ev_Trust : string;
  ev_Payload : string;
  ev_Received : Z;
  ev_Correlation : string;
}.

Record QueuedEvent : Type := MkQueuedEvent {
  qe_ID : Z;
  qe_DedupKey : string;
  qe_ThreadKey : string;
  qe_Kind : string;
  qe_Trust : string;
  qe_Payload : string;
  qe_Status : ev_status;
  qe_Received : Z;
  qe_Correlation : string;
}.
#[global] Instance QueuedEvent_eq_dec : EqDecision QueuedEvent.
Proof. solve_decision. Defined.

(** [scanQueuedEvent]: a NULL correlation reads as the empty string. *)
Definition scanQueuedEvent (id : Z) (e : event_row) : QueuedEvent :=
  MkQueuedEvent id (er_dedup_key e) (er_thread_key e) (er_kind e) (er_trust e)
    (er_payload e) (er_status e) (er_received e)
    (default ""%string (er_correlation e)).

(** SELECT ... FROM events WHERE p ORDER BY id. *)
Definition select_events (p : Z → event_row → bool) (d : db) : list QueuedEvent :=
  map (λ kv : Z * event_row, scanQueuedEvent kv.1 kv.2)
    (List.filter (λ kv : Z * event_row, p kv.1 kv.2) (sorted_rows (events d))).

(** ** Ingest *)

(** The four members of the payload the columns mirror. *)
Definition payload_fields : list (string * gtype) :=
  [("dedup_key", GString); ("thread_key", GString);
   ("kind", GString); ("trust", GString)]%string.

Definition validatePayload (ev : StoreEvent) : result err unit :=
  match unmarshal payload_fields (ev_Payload ev) with
  | None => Err (EInvalid "payload is not a normalized event JSON object")
  | Some kvs =>
      let agree name column :=
        bool_decide (str_field payload_fields name kvs = column) in
      if negb (agree "dedup_key" (ev_DedupKey ev)) then
        Err (EInvalid "payload dedup_key disagrees")
      else if negb (agree "thread_key" (ev_ThreadKey ev)) then
        Err (EInvalid "payload thread_key disagrees")
      else if negb (agree "kind" (ev_Kind ev)) then
        Err (EInvalid "payload kind disagrees")
      else if negb (agree "trust" (ev_Trust ev)) then
        Err (EInvalid "payload trust disagrees")
      else Ok tt
  end%string.

Definition empty (s : string) : bool := bool_decide (s = ""%string).

Definition event_validate (ev : StoreEvent) : result err unit :=
  if empty (ev_DedupKey ev) then Err (EInvalid "empty dedup_key")
  else if empty (ev_ThreadKey ev) then Err (EInvalid "empty thread_key")
  else if empty (ev_Kind ev) then Err (EInvalid "empty kind")
  else if empty (ev_Trust ev) then Err (EInvalid "empty trust")
  else if Z.leb (ev_Received ev) 0 then Err (EInvalid "received")
  else if bool_decide (ev_Correlation ev = ev_DedupKey ev) then
    Err (EInvalid "correlation equals dedup_key")
  else validatePayload ev.

(** The row an accepted event becomes: the schema's defaults fill the rest. *)
Definition received_row (ev : StoreEvent) : event_row :=
  EventRow (ev_DedupKey ev) (ev_ThreadKey ev) (ev_Kind ev) (ev_Trust ev)
    (ev_Payload ev) Received 0 (ev_Received ev) None
    (nullif_empty (ev_Correlation ev)) 0.

Definition has_dedup (k : string) (e : event_row) : bool :=
  String.eqb (er_dedup_key e) k.

(** INSERT INTO events ... ON CONFLICT(dedup_key) DO NOTHING: the CHECKs first,
    then the conflict target. [None] is RowsAffected 0. *)
Definition insert_event_row (ev : StoreEvent) (d : db) : result err (option Z * db) :=
  if negb (kind_check (ev_Kind ev) && event_trust_check (ev_Trust ev)) then Err EConstraint
  else if exists_row (has_dedup (ev_DedupKey ev)) (events d) then Ok (None, d)
  else let id := next_id (events d) in
       Ok (Some id, set_events (<[id := received_row ev]> (events d)) d).

(** [(id, inserted)]; a collapsed duplicate is [(0, false)]. *)
Definition InsertEvent (ev : StoreEvent) : StoreM (Z * bool) :=
  match event_validate ev with
  | Err e => refuse e
  | Ok _ =>
      ins ← stmt (insert_event_row ev);
      match ins with
      | None => mret (0, false)
      | Some id => mret (id, true)
      end
  end.

Definition CorrelatedEvents (correlation : string) : StoreM (list QueuedEvent) :=
  if empty correlation then refuse (EInvalid "empty link")
  else query (select_events (λ _ e, bool_decide (er_correlation e = Some correlation))).

(** ** Lifecycle *)

Definition ParkEvent (id now : Z) : StoreM unit :=
  _ ← exec (upd_event id (has_status [Received; Processing])
        (λ e, event_upd Interrupted (er_attempts e) (er_parks e + 1) (Some now) e));
  mret tt.

Definition MarkEventProcessing (id now : Z) : StoreM unit :=
  n ← exec (upd_event id (has_status [Received]) (event_status_upd Processing now));
  if Z.eqb n 0 then refuse (ERefused "not in received state") else mret tt.

Definition MarkEventCompleted (id now : Z) : StoreM unit :=
  n ← exec (upd_event id (has_status [Processing]) (event_status_upd Completed now));
  if Z.eqb n 0 then refuse (ERefused "not in processing state") else mret tt.

(** Rows of the outbox bound to an event, and those not yet accepted. *)
Definition bound_to (id : Z) (r : delivery_row) : bool :=
  bool_decide (dr_event_id r = Some id).
Definition bound_unacked (id : Z) (r : delivery_row) : bool :=
  bound_to id r && bool_decide (dr_acked r = None).

(** Every bound row exists and is acked: the CASE of the reconciling write. *)
Definition all_bound_acked (id : Z) (d : db) : bool :=
  exists_row (bound_to id) (deliveries d) && negb (exists_row (bound_unacked id) (deliveries d)).

Definition MarkEventCompletedReconciled (id now : Z) : StoreM unit :=
  n ← exec (λ d, upd_event id (has_status [Processing])
        (event_status_upd (if all_bound_acked id d then Replied else Completed) now) d);
  if Z.eqb n 0 then refuse (ERefused "not in processing state") else mret tt.

Definition SkipEvent (id now : Z) : StoreM unit :=
  n ← exec (upd_event id (has_status [Processing]) (event_status_upd Skipped now));
  if Z.eqb n 0 then refuse (ERefused "not in processing state") else mret tt.

(** ** Scans *)

Definition UnprocessedEvents : StoreM (list QueuedEvent) :=
  query (select_events (λ _ e, has_status [Received; Processing] e)).

(** ** Retry *)

Definition maxEventRetries : Z := 2.

Definition unkeyed_for (id : Z) (a : attempt_row) : bool :=
  bool_decide (ta_event_id a = Some id) && bool_decide (ta_idempotency_key a = None).

Definition RequeueEventForRetry (id now : Z) : StoreM unit :=
  n ← exec (λ d, upd_event id
        (λ e, has_status [Processing] e && Z.ltb (er_attempts e) maxEventRetries
              && negb (exists_row (unkeyed_for id) (tool_attempts d)))
        (λ e, event_upd Received (er_attempts e + 1) (er_parks e) (Some now) e) d);
  if Z.eqb n 0 then
    row ← query (λ d, events d !! id);
    match row with
    | None => refuse ENoRows
    | Some e =>
        if negb (has_status [Processing] e) then refuse (ERefused "only a failed turn retries")
        else if Z.leb maxEventRetries (er_attempts e) then refuse ERetryBudgetExhausted
        else refuse ESideEffectingAttempt
    end
  else mret tt.

(** SQLite renders an integer in decimal when it is concatenated. *)
Definition interrupted_key (dedup : string) (parks : Z) : string :=
  "interrupted:" +:+ dedup +:+ ":" +:+ pretty parks.
Definition dead_key (dedup : string) (entries : Z) : string :=
  "dead:" +:+ dedup +:+ ":" +:+ pretty entries.

Definition has_delivery_key (k : string) (r : delivery_row) : bool :=
  String.eqb (dr_delivery_key r) k.

Definition unsurfaced_park (d : db) (_ : Z) (e : event_row) : bool :=
  has_status [Interrupted] e
  && negb (exists_row (has_delivery_key (interrupted_key (er_dedup_key e) (er_parks e)))
             (deliveries d)).

Definition UnsurfacedInterruptedEvents : StoreM (list QueuedEvent) :=
  query (λ d, select_events (unsurfaced_park d) d).

Definition unsurfaced_death (d : db) (id : Z) (e : event_row) : bool :=
  match dead_letters d !! id with
  | Some r =>
      bool_decide (dd_resolution r = None)
      && negb (exists_row (has_delivery_key (dead_key (er_dedup_key e) (dd_entries r)))
                 (deliveries d))
  | None => false
  end.

(** dead_letters JOIN events on the event id. *)
Definition UnsurfacedDeadLetters : StoreM (list QueuedEvent) :=
  query (λ d, select_events (unsurfaced_death d) d).

Definition RequeueInterruptedEvent (id now : Z) : StoreM QueuedEvent :=
  in_tx (
    n ← exec (upd_event id (has_status [Interrupted]) (event_status_upd Received now));
    if Z.eqb n 0 then
      row ← query (λ d, events d !! id);
      match row with
      | None => refuse ENoRows
      | Some _ => refuse (ERefused "only a parked event takes the human retry")
      end
    else
      row ← query (λ d, events d !! id);
      match row with
      | None => refuse ENoRows
      | Some e => mret (true, scanQueuedEvent id e)
      end).

(** ** Lemmas *)

Lemma empty_true s : empty s = true ↔ s = ""%string.
Proof. apply bool_decide_eq_true. Qed.

Lemma empty_false_iff s : empty s = false ↔ s ≠ ""%string.
Proof. apply bool_decide_eq_false. Qed.
