(* ===== verification/Event.v ===== *)
(** * The normalized event (src/internal/event/event.go)

    [MarshalJSON] writes what the queue stores as an event's payload, and
    [Unmarshal] is json.Unmarshal into an [Event], as the turn handler reads it
    back.  Two readers of one document must agree: the handler's, and the
    store's [Events.validatePayload]. *)
From S2P Require Import Prelude Utf8 Json JsonRound Schema Events.
Local Open Scope Z_scope.

(** ** Data *)

Record Attachment : Type := MkAttachment {
  at_URL : string;
  at_Filename : string;
  at_ContentType : string;
  at_Size : Z;
}.

(** A nil pointer is [None]; a nil slice and an empty one are both []. *)
Record Event : Type := MkEvent {
  e_Channel : string;
  e_ThreadKey : string;
  e_DedupKey : string;
  e_Sender : string;
  e_OwnerID : option string;
  e_Trust : string;
  e_Kind : string;
  e_Occurrence : option string;
  e_Text : string;
  e_Attachments : list Attachment;
  e_ReplyTo : option string;
}.

(** ** Writing *)

Definition opt_json (o : option string) : json :=
  match o with Some s => JStr s | None => JNull end.

Definition attachment_json (a : Attachment) : json :=
  JObj [("url", JStr (at_URL a)); ("filename", JStr (at_Filename a));
        ("content_type", JStr (at_ContentType a)); ("size", JNum (pretty (at_Size a)))]%string.

Definition event_json (e : Event) : json :=
  JObj [("channel", JStr (e_Channel e)); ("thread_key", JStr (e_ThreadKey e));
        ("dedup_key", JStr (e_DedupKey e)); ("sender", JStr (e_Sender e));
        ("owner_id", opt_json (e_OwnerID e)); ("trust", JStr (e_Trust e));
        ("kind", JStr (e_Kind e)); ("occurrence", opt_json (e_Occurrence e));
        ("text", JStr (e_Text e)); ("attachments", JArr (map attachment_json (e_Attachments e)));
        ("reply_to", opt_json (e_ReplyTo e))]%string.

(** The attachments are an array even when there is none. *)
Definition MarshalJSON (e : Event) : string := marshal (event_json e).

(** ** Reading *)

Definition attachment_fields : list (string * gtype) :=
  [("url", GString); ("filename", GString); ("content_type", GString); ("size", GInt64)]%string.
Definition event_fields : list (string * gtype) :=
  [("channel", GString); ("thread_key", GString); ("dedup_key", GString); ("sender", GString);
   ("owner_id", GPtrString); ("trust", GString); ("kind", GString); ("occurrence", GPtrString);
   ("text", GString); ("attachments", GSlice (GStruct attachment_fields));
   ("reply_to", GPtrString)]%string.

Definition read_attachment (v : json) : Attachment :=
  let kvs := match v with JObj kvs => kvs | _ => [] end in
  let str name := str_field attachment_fields name kvs in
  MkAttachment (str "url") (str "filename") (str "content_type")
    (int_field attachment_fields "size" kvs).

(** Of a document that names "attachments" twice, Go decodes the second array
    over the first one's elements; that case alone is not followed here. *)
Definition read_event (kvs : list (string * json)) : Event :=
  let str name := str_field event_fields name kvs in
  let ptr name := ptr_field event_fields name kvs in
  MkEvent (str "channel") (str "thread_key") (str "dedup_key") (str "sender") (ptr "owner_id")
    (str "trust") (str "kind") (ptr "occurrence") (str "text")
    (map read_attachment (slice_field event_fields "attachments" kvs))
    (ptr "reply_to").

Definition Unmarshal (payload : string) : option Event :=
  read_event <$> unmarshal event_fields payload.

(** ** What the codec preserves *)

Definition opt_valid (o : option string) : Prop := ∀ s, o = Some s → valid_utf8 s.

Record attachment_encodable (a : Attachment) : Prop := AttachmentOk {
  ao_url : valid_utf8 (at_URL a);
  ao_filename : valid_utf8 (at_Filename a);
  ao_type : valid_utf8 (at_ContentType a);
  ao_size : in_int64 (at_Size a);
}.

Record encodable (e : Event) : Prop := EventOk {
  eo_channel : valid_utf8 (e_Channel e);
  eo_thread : valid_utf8 (e_ThreadKey e);
  eo_dedup : valid_utf8 (e_DedupKey e);
  eo_sender : valid_utf8 (e_Sender e);
  eo_owner : opt_valid (e_OwnerID e);
  eo_trust : valid_utf8 (e_Trust e);
  eo_kind : valid_utf8 (e_Kind e);
  eo_occurrence : opt_valid (e_Occurrence e);
  eo_text : valid_utf8 (e_Text e);
  eo_attachments : Forall attachment_encodable (e_Attachments e);
  eo_reply : opt_valid (e_ReplyTo e);
}.

(** ** Lemmas *)

Lemma wf_opt o : opt_valid o → wf_json (opt_json o).
Proof. destruct o as [s|]; intros Ho; constructor. by apply Ho. Qed.

Ltac member_ok := constructor; [split; [reflexivity|]|].

Lemma attachment_json_wf a : attachment_encodable a → wf_json (attachment_json a).
Proof. intros []. unfold attachment_json. constructor. repeat member_ok; by constructor. Qed.

Lemma event_json_wf e : encodable e → wf_json (event_json e).
Proof.
  intros []. unfold event_json. constructor.
  repeat member_ok; try (by constructor); try (by apply wf_opt).
  constructor. apply Forall_map. eapply Forall_impl; [done|apply attachment_json_wf].
Qed.

Lemma attachment_json_assignable a :
  attachment_encodable a → assignable (attachment_json a) (GStruct attachment_fields) = true.
Proof. intros []. cbn. by rewrite int_value_pretty. Qed.

Lemma event_json_assignable e : encodable e → assignable (event_json e) (GStruct event_fields) = true.
Proof.
  intros He. cbn -[attachment_fields attachment_json].
  assert (Ha : forallb (λ v', assignable v' (GStruct attachment_fields))
            (map attachment_json (e_Attachments e)) = true).
  { apply forallb_forall. intros v Hv. apply in_map_iff in Hv as (a & <- & Ha).
    apply attachment_json_assignable. apply list_elem_of_In in Ha.
    revert a Ha. apply Forall_forall, (eo_attachments e He). }
  rewrite Ha. by destruct (e_OwnerID e), (e_Occurrence e), (e_ReplyTo e).
Qed.

Lemma read_attachment_json a : in_int64 (at_Size a) → read_attachment (attachment_json a) = a.
Proof.
  intros Hz. unfold read_attachment. cbn. unfold int_field. cbn.
  rewrite int_value_pretty by done. by destruct a.
Qed.

Lemma unmarshal_event fields e :
  encodable e → assignable (event_json e) (GStruct fields) = true →
  unmarshal fields (MarshalJSON e) = Some (match event_json e with JObj kvs => kvs | _ => [] end).
Proof.
  intros He Ha. unfold unmarshal, MarshalJSON.
  rewrite json_roundtrip by (by apply event_json_wf). unfold event_json in *. by rewrite Ha.
Qed.

Lemma Unmarshal_MarshalJSON e : encodable e → Unmarshal (MarshalJSON e) = Some e.
Proof.
  intros He. unfold Unmarshal.
  rewrite unmarshal_event by (done || by apply event_json_assignable). cbn [fmap option_fmap option_map].
  f_equal. unfold read_event. cbn -[read_attachment attachment_json].
  assert (Ha : map read_attachment (map attachment_json (e_Attachments e)) = e_Attachments e).
  { pose proof (eo_attachments e He) as Hall. induction Hall as [|a l Hok _ IH]; [done|]. cbn [map].
    rewrite IH, read_attachment_json; [done|by apply ao_size]. }
  unfold ptr_field, slice_field, last_field, str_field, field. cbn -[read_attachment attachment_json].
  rewrite Ha. destruct e as [? ? ? ? [|] ? ? [|] ? ? [|]]; done.
Qed.

(** ** The store's reading of the same document *)

Lemma event_json_payload_assignable e :
  assignable (event_json e) (GStruct payload_fields) = true.
Proof. done. Qed.

Definition event_members (e : Event) : list (string * json) :=
  match event_json e with JObj kvs => kvs | _ => [] end.

Lemma payload_members e :
  let str name := str_field payload_fields name (event_members e) in
  str "dedup_key"%string = e_DedupKey e ∧ str "thread_key"%string = e_ThreadKey e
  ∧ str "kind"%string = e_Kind e ∧ str "trust"%string = e_Trust e.
Proof. destruct e. split_and!; vm_compute; reflexivity. Qed.

(** The columns a row mirrors are the payload's own members. *)
Lemma validatePayload_event e r c :
  encodable e →
  validatePayload (MkStoreEvent (e_DedupKey e) (e_ThreadKey e) (e_Kind e) (e_Trust e)
                     (MarshalJSON e) r c) = Ok tt.
Proof.
  intros He. unfold validatePayload. cbn [ev_Payload ev_DedupKey ev_ThreadKey ev_Kind ev_Trust].
  rewrite unmarshal_event by (done || apply event_json_payload_assignable).
  fold (event_members e). destruct (payload_members e) as (-> & -> & -> & ->).
  by rewrite !bool_decide_eq_true_2.
Qed.

(** ** Property *)


Definition sample : Event :=
  (MkEvent "discord" "discord:dm:7" "discord:msg:1" "7" (Some "brian") "owner" "message" None
    "a < b & c > d \ e" [MkAttachment "https://x" "../a.txt" "text/plain" 12] None)%string.

