(* ===== verification/Deliveries.v ===== *)
(** * The outbox (src/internal/store/deliveries.go)

    Write-before-send inserts, the owed-a-send scans, attempt stamps, acks that
    advance an event to replied, and the terminal give-up. *)
From S2P Require Import Prelude Schema Events.
Local Open Scope Z_scope.

(** ** Data *)

Record Delivery : Type := MkDelivery {
  dv_DeliveryKey : string;
  dv_EventID : Z;
  dv_Target : string;
  dv_Payload : string;
}.

Record ResendableDelivery : Type := MkResendable {
  rd_ID : Z;
  rd_DeliveryKey : string;
  rd_EventID : Z;
  rd_Target : string;
  rd_Payload : string;
  rd_Attempts : Z;
}.

(** ** Composing *)

Definition delivery_validate (d : Delivery) : result err unit :=
  if empty (dv_DeliveryKey d) then Err (EInvalid "empty delivery_key")
  else if empty (dv_Target d) then Err (EInvalid "empty target")
  else if empty (dv_Payload d) then Err (EInvalid "empty payload")
  else if Z.ltb (dv_EventID d) 0 then Err (EInvalid "event_id")
  else Ok tt.

(** SELECT 1 FROM events WHERE id = ? AND status = 'replied'; a NULL id matches
    no row. *)
Definition event_sealed (eid : option Z) (d : db) : bool :=
  match eid with
  | Some id => match events d !! id with
               | Some e => has_status [Replied] e
               | None => false
               end
  | None => false
  end.

Definition pending_row (key : string) (eid : option Z) (target payload : string) : delivery_row :=
  DeliveryRow key eid target payload Pending 0 None None.

(** INSERT INTO deliveries ... ON CONFLICT(delivery_key) DO NOTHING, with the
    event_id foreign key. *)
Definition insert_delivery_sql (key : string) (eid : option Z) (target payload : string)
    (d : db) : result err (option Z * db) :=
  if exists_row (has_delivery_key key) (deliveries d) then Ok (None, d)
  else match eid with
       | Some e =>
           match events d !! e with
           | None => Err EConstraint
           | Some _ =>
               let id := next_id (deliveries d) in
               Ok (Some id, set_deliveries
                     (<[id := pending_row key eid target payload]> (deliveries d)) d)
           end
       | None =>
           let id := next_id (deliveries d) in
           Ok (Some id, set_deliveries
                 (<[id := pending_row key eid target payload]> (deliveries d)) d)
       end.

(** The seal rides the INSERT: no row is produced for a replied event. *)
Definition insert_delivery_row (dv : Delivery) (d : db) : result err (option Z * db) :=
  let eid := nullif_zero (dv_EventID dv) in
  if event_sealed eid d then Ok (None, d)
  else insert_delivery_sql (dv_DeliveryKey dv) eid (dv_Target dv) (dv_Payload dv) d.

(** insertDelivery: zero rows is a benign duplicate when the key exists, and
    the seal's refusal when it does not. *)
Definition InsertDelivery (dv : Delivery) : StoreM (Z * bool) :=
  match delivery_validate dv with
  | Err e => refuse e
  | Ok _ =>
      ins ← stmt (insert_delivery_row dv);
      match ins with
      | Some id => mret (id, true)
      | None =>
          n ← query (λ d, count_rows (has_delivery_key (dv_DeliveryKey dv)) (deliveries d));
          if Z.eqb n 0 then refuse (ERefused "event is already replied")
          else mret (0, false)
      end
  end.

(** The loop of InsertDeliveries: [None] at the first duplicate. *)
Fixpoint insert_all (ds : list Delivery) (ids : list Z) : StoreM (option (list Z)) :=
  match ds with
  | [] => mret (Some ids)
  | dv :: ds' =>
      '(id, inserted) ← InsertDelivery dv;
      if negb inserted then mret None
      else insert_all ds' (ids ++ [id])
  end.

(** One turn's whole reply: every row, or none; [(ids, composed)]. *)
Definition InsertDeliveries (ds : list Delivery) : StoreM (list Z * bool) :=
  in_tx (
    r ← insert_all ds [];
    match r with
    | None => mret (false, ([], false))
    | Some ids => mret (true, (ids, true))
    end).

(** ** Owed a send *)

(** The resend predicate: unacked and not terminally failed. *)
Definition owed (r : delivery_row) : bool :=
  bool_decide (dr_acked r = None) && negb (bool_decide (dr_status r = Failed)).

Definition OwedDeliveriesBefore (target : string) (before : Z) : StoreM Z :=
  query (λ d, Z.of_nat (length (List.filter
    (λ kv : Z * delivery_row, String.eqb (dr_target kv.2) target
                              && Z.ltb kv.1 before && owed kv.2)
    (sorted_rows (deliveries d))))).

Definition HasOwedDeliveries (target : string) : StoreM bool :=
  query (λ d, exists_row (λ r, String.eqb (dr_target r) target && owed r) (deliveries d)).

Definition EventHasDeliveries (eventID : Z) : StoreM bool :=
  query (λ d, exists_row (bound_to eventID) (deliveries d)).

Definition resendable_of (id : Z) (r : delivery_row) : ResendableDelivery :=
  MkResendable id (dr_delivery_key r) (default 0 (dr_event_id r)) (dr_target r)
    (dr_payload r) (dr_attempts r).

Definition owed_rows (d : db) : list ResendableDelivery :=
  map (λ kv : Z * delivery_row, resendable_of kv.1 kv.2)
    (List.filter (λ kv : Z * delivery_row, owed kv.2) (sorted_rows (deliveries d))).

Definition ResendableDeliveries : StoreM (list ResendableDelivery) := query owed_rows.

(** ** Outcomes *)

Definition MarkDeliveryAttempt (id now : Z) : StoreM unit :=
  n ← exec (upd_delivery id owed
        (λ r, delivery_upd (dr_status r) (dr_attempts r + 1) (Some now) (dr_acked r) r));
  if Z.eqb n 0 then refuse (ERefused "row is not owed a send") else mret tt.

(** UPDATE events SET status = 'replied' ... when no bound row is unacked. *)
Definition advance_replied (eid now : Z) (d : db) : Z * db :=
  upd_event eid
    (λ e, has_status [Completed] e && negb (exists_row (bound_unacked eid) (deliveries d)))
    (event_status_upd Replied now) d.

Definition AckDelivery (id now : Z) : StoreM unit :=
  in_tx (
    n ← exec (upd_delivery id owed
          (λ r, delivery_upd Sent (dr_attempts r) (dr_last_attempt r) (Some now) r));
    if Z.eqb n 0 then
      row ← query (λ d, deliveries d !! id);
      match row with
      | None => refuse ENoRows
      | Some r =>
          match dr_acked r with
          | Some _ => mret (false, tt)
          | None => refuse (ERefused "row is terminally failed")
          end
      end
    else
      row ← query (λ d, deliveries d !! id);
      match row with
      | None => refuse ENoRows
      | Some r =>
          match dr_event_id r with
          | None => mret (true, tt)
          | Some eid =>
              m ← exec (advance_replied eid now);
              if Z.eqb m 0 then
                ev ← query (λ d, events d !! eid);
                match ev with
                | None => refuse ENoRows
                | Some e =>
                    if has_status [Received; Processing] e
                    then refuse (ERefused "the reply leg outran the turn")
                    else mret (true, tt)
                end
              else mret (true, tt)
          end
      end).

Definition MarkDeliveryFailed (id : Z) : StoreM unit :=
  n ← exec (upd_delivery id owed
        (λ r, delivery_upd Failed (dr_attempts r) (dr_last_attempt r) (dr_acked r) r));
  if Z.eqb n 0 then refuse (ERefused "row missing, already acked, or already failed")
  else mret tt.
