(* ===== verification/ToolAttempts.v ===== *)
(** * The tool-attempt journal (src/internal/store/tool_attempts.go) *)
From S2P Require Import Prelude Schema Events.
Local Open Scope Z_scope.

(** ** Data *)

(** The insert-side fields of ToolAttempt. *)
Record ToolAttempt : Type := MkToolAttempt {
  at_SessionID : string;
  at_EventID : Z;
  at_Tool : string;
  at_ArgsDigest : string;
  at_IdempotencyKey : string;
  at_StartedAt : Z;
  at_State : option ta_state;
  at_EndedAt : Z;
}.

Definition attempt_validate (a : ToolAttempt) : result err unit :=
  if empty (at_SessionID a) then Err (EInvalid "empty session_id")
  else if empty (at_Tool a) then Err (EInvalid "empty tool")
  else if empty (at_ArgsDigest a) then Err (EInvalid "empty args_digest")
  else if Z.leb (at_StartedAt a) 0 then Err (EInvalid "started_at")
  else if Z.ltb (at_EventID a) 0 then Err (EInvalid "event_id")
  else Ok tt.

(** sessions s JOIN events e ON e.thread_key = s.thread_key, both bound, the
    event mid-turn. *)
Definition live_turn (sid : string) (eid : Z) (d : db) : bool :=
  match sessions d !! sid, events d !! eid with
  | Some s, Some e =>
      String.eqb (er_thread_key e) (sr_thread_key s) && has_status [Processing] e
  | _, _ => false
  end.

Definition started_row (a : ToolAttempt) : attempt_row :=
  AttemptRow (at_SessionID a) (nullif_zero (at_EventID a)) (at_Tool a) (at_ArgsDigest a)
    (nullif_empty (at_IdempotencyKey a)) TStarted (at_StartedAt a) None.

(** The INSERT ... SELECT ... WHERE, and the session foreign key. *)
Definition insert_attempt_row (a : ToolAttempt) (d : db) : result err (option Z * db) :=
  let admitted := match nullif_zero (at_EventID a) with
                  | None => true
                  | Some eid => live_turn (at_SessionID a) eid d
                  end in
  if negb admitted then Ok (None, d)
  else match sessions d !! at_SessionID a with
       | None => Err EConstraint
       | Some _ =>
           let id := next_id (tool_attempts d) in
           Ok (Some id, set_tool_attempts (<[id := started_row a]> (tool_attempts d)) d)
       end.

Definition InsertToolAttempt (a : ToolAttempt) : StoreM Z :=
  match attempt_validate a with
  | Err e => refuse e
  | Ok _ =>
      ins ← stmt (insert_attempt_row a);
      match ins with
      | None => refuse (ERefused "session and event do not resolve to one live turn")
      | Some id => mret id
      end
  end.

(** Outcome strings: the enum is closed in Go as well as in schema. *)
Definition outcome_state (outcome : string) : option ta_state :=
  if String.eqb outcome "done" then Some TDone
  else if String.eqb outcome "failed" then Some TFailed
  else None.

Definition complete_attempt (id : Z) (st : ta_state) (endedAt : Z) (d : db) : Z * db :=
  match tool_attempts d !! id with
  | Some a =>
      if bool_decide (ta_state_ a = TStarted) then
        (1, set_tool_attempts
              (<[id := AttemptRow (ta_session_id a) (ta_event_id a) (ta_tool a)
                         (ta_args_digest a) (ta_idempotency_key a) st (ta_started_at a)
                         (Some endedAt)]> (tool_attempts d)) d)
      else (0, d)
  | None => (0, d)
  end.

Definition CompleteToolAttempt (id : Z) (outcome : string) (endedAt : Z) : StoreM unit :=
  match outcome_state outcome with
  | None => refuse (EInvalid "outcome is not done|failed")
  | Some st =>
      n ← exec (complete_attempt id st endedAt);
      if Z.eqb n 0 then refuse (ERefused "no started row") else mret tt
  end.

Definition attempt_of (a : attempt_row) : ToolAttempt :=
  MkToolAttempt (ta_session_id a) (default 0 (ta_event_id a)) (ta_tool a)
    (ta_args_digest a) (default ""%string (ta_idempotency_key a)) (ta_started_at a)
    (Some (ta_state_ a)) (default 0 (ta_ended_at a)).

Definition attempts_of (eventID : Z) (d : db) : list ToolAttempt :=
  map (λ kv : Z * attempt_row, attempt_of kv.2)
    (List.filter (λ kv : Z * attempt_row, bool_decide (ta_event_id kv.2 = Some eventID))
       (sorted_rows (tool_attempts d))).

Definition AttemptsForEvent (eventID : Z) : StoreM (list ToolAttempt) :=
  query (attempts_of eventID).
