(* ===== verification/DeadLetters.v ===== *)
(** * Dead letters (src/internal/store/dead_letters.go) *)
From S2P Require Import Prelude Schema Events.
Local Open Scope Z_scope.

(** ** Definitions *)

(** INSERT INTO dead_letters ... ON CONFLICT(event_id) DO UPDATE. *)
Definition upsert_dead (eventID : Z) (reason : string) (now : Z) (d : db) : result err (unit * db) :=
  let row := match dead_letters d !! eventID with
             | None => DeadRow reason now None None 1
             | Some r => DeadRow reason now None None (dd_entries r + 1)
             end in
  if reason_check reason then
    Ok (tt, set_dead_letters (<[eventID := row]> (dead_letters d)) d)
  else Err EConstraint.

Definition DeadLetterEvent (eventID : Z) (reason : string) (now : Z) : StoreM unit :=
  if negb (bool_decide (reason ∈ ["retries-exhausted"; "malformed"; "unroutable";
                                   "surface-failed"]%string))
  then refuse (EInvalid "reason is outside the closed enum")
  else in_tx (
    n ← exec (upd_event eventID (has_status [Processing; Interrupted])
                (event_status_upd Dead now));
    if Z.eqb n 0 then
      row ← query (λ d, events d !! eventID);
      match row with
      | None => refuse ENoRows
      | Some _ => refuse (ERefused "only a failed turn or a parked event dies")
      end
    else
      _ ← stmt (upsert_dead eventID reason now);
      mret (true, tt)).

Definition dead_open (r : dead_row) : bool := bool_decide (dd_resolution r = None).
Definition dead_unacked (r : dead_row) : bool := bool_decide (dd_acked r = None).

Definition AckDeadLetter (eventID now : Z) : StoreM unit :=
  n ← exec (upd_dead eventID (λ r, dead_unacked r && dead_open r)
              (λ r, dead_upd (Some now) (dd_resolution r) r));
  if Z.eqb n 0 then refuse (ERefused "no unacked unresolved row") else mret tt.

Record DeadLetter : Type := MkDeadLetter {
  dlt_EventID : Z;
  dlt_DedupKey : string;
  dlt_ThreadKey : string;
  dlt_Reason : string;
  dlt_Entered : Z;
  dlt_Entries : Z;
}.

(** ORDER BY d.entered, d.event_id. *)
Definition dead_le (a b : DeadLetter) : Prop :=
  dlt_Entered a < dlt_Entered b
  ∨ (dlt_Entered a = dlt_Entered b ∧ dlt_EventID a ≤ dlt_EventID b).
#[global] Instance dead_le_dec : RelDecision dead_le.
Proof. unfold dead_le. intros a b. apply _. Defined.

Definition UnackedDeadLetters : StoreM (list DeadLetter) :=
  query (λ d, merge_sort dead_le
    (omap (λ kv : Z * dead_row,
       match events d !! kv.1 with
       | Some e => if dead_unacked kv.2 && dead_open kv.2
                   then Some (MkDeadLetter kv.1 (er_dedup_key e) (er_thread_key e)
                                (dd_reason kv.2) (dd_entered kv.2) (dd_entries kv.2))
                   else None
       | None => None
       end) (sorted_rows (dead_letters d)))).

Definition ResolveDeadLetterRequeue (eventID now : Z) : StoreM QueuedEvent :=
  in_tx (
    n ← exec (upd_dead eventID dead_open (λ r, dead_upd (dd_acked r) (Some Requeued) r));
    if Z.eqb n 0 then refuse (ERefused "no unresolved row")
    else
      m ← exec (upd_event eventID (has_status [Dead]) (event_status_upd Received now));
      if Z.eqb m 0 then refuse (ERefused "event is not dead")
      else
        row ← query (λ d, events d !! eventID);
        match row with
        | None => refuse ENoRows
        | Some e => mret (true, scanQueuedEvent eventID e)
        end).

Definition ResolveDeadLetterDiscard (eventID : Z) : StoreM unit :=
  n ← exec (upd_dead eventID dead_open (λ r, dead_upd (dd_acked r) (Some Discarded) r));
  if Z.eqb n 0 then refuse (ERefused "no unresolved row") else mret tt.
