(* ===== verification/Sessions.v ===== *)
(** * The session registry (src/internal/store/sessions.go, session_lifecycle.go,
    rotation.go, tainted.go)

    Session rows are born creating, carry their activation deadline, and leave
    that state by activation, expiry or rotation.  The file system is outside
    the repository: [filesystem] is the interface canonicalCwd and the session
    manager consult. *)
From S2P Require Import Prelude Schema Events.
Local Open Scope Z_scope.

(** ** Data *)

(** filepath.Abs, filepath.EvalSymlinks and os.Stat, each with its failure. *)
Record filesystem : Type := FS {
  fs_abs : string → option string;
  fs_eval_symlinks : string → option string;
  fs_stat_is_dir : string → option bool;
}.

Record Session : Type := MkSession {
  s_ThreadKey : string;
  s_SessionID : string;
  s_Cwd : string;
  s_Origin : string;
  s_TrustFloor : string;
  s_CreatedAt : Z;
  s_ActivationDeadline : Z;
}.

Record LiveSession : Type := MkLiveSession {
  ls_ThreadKey : string;
  ls_SessionID : string;
  ls_Status : ss_status;
  ls_Cwd : string;
  ls_Origin : string;
  ls_TrustFloor : string;
  ls_CreatedAt : Z;
  ls_ActivationDeadline : Z;
  ls_LastSeen : Z;
  ls_Turns : Z;
}.

(** ** Pinning *)

Definition canonicalCwd (fs : filesystem) (cwd : string) : result err string :=
  match fs_abs fs cwd with
  | None => Err (ECwd cwd)
  | Some abs =>
      match fs_eval_symlinks fs abs with
      | None => Err (ECwd cwd)
      | Some resolved =>
          match fs_stat_is_dir fs resolved with
          | Some true => Ok resolved
          | _ => Err (ECwd cwd)
          end
      end
  end.

(** strings.HasPrefix(threadKey, "task:"). *)
Definition isWorkerThreadKey (threadKey : string) : bool :=
  String.prefix "task:" threadKey.

(** [thread_key LIKE 'task:%']: SQLite's LIKE folds the case of ASCII letters. *)
Definition ascii_lower (c : Ascii.ascii) : Ascii.ascii :=
  let n := Ascii.nat_of_ascii c in
  if Nat.leb 65 n && Nat.leb n 90 then Ascii.ascii_of_nat (n + 32) else c.
Fixpoint string_lower (s : string) : string :=
  match s with
  | EmptyString => EmptyString
  | String c s' => String (ascii_lower c) (string_lower s')
  end.
Definition like_task (threadKey : string) : bool :=
  String.prefix "task:" (string_lower threadKey).

Definition session_validate (s : Session) : result err unit :=
  if empty (s_ThreadKey s) then Err (EInvalid "empty thread_key")
  else if empty (s_SessionID s) then Err (EInvalid "empty session_id")
  else if empty (s_Cwd s) then Err (EInvalid "empty cwd")
  else if empty (s_TrustFloor s) then Err (EInvalid "empty trust_floor")
  else if Z.leb (s_CreatedAt s) 0 then Err (EInvalid "created_at")
  else if Z.leb (s_ActivationDeadline s) 0 then Err (EInvalid "activation_deadline")
  else if Z.leb (s_ActivationDeadline s) (s_CreatedAt s) then
    Err (EInvalid "activation_deadline is not after created_at")
  else if isWorkerThreadKey (s_ThreadKey s) && empty (s_Origin s) then
    Err (EInvalid "task session has no origin thread")
  else Ok tt.

Definition live (r : session_row) : bool :=
  bool_decide (sr_status r ∈ [Creating; Active]).

Definition creating_row (s : Session) (cwd : string) : session_row :=
  SessionRow (s_ThreadKey s) Creating cwd (nullif_empty (s_Origin s)) (s_TrustFloor s)
    (s_CreatedAt s) (Some (s_ActivationDeadline s)) None None None false.

(** The unique indexes a creating row meets: sessions_by_id, one_live_session
    and one_worker_per_repo (0003). *)
Definition session_conflict (s : Session) (cwd : string) (d : db) : bool :=
  match sessions d !! s_SessionID s with
  | Some _ => true
  | None =>
      exists_row (λ r, String.eqb (sr_thread_key r) (s_ThreadKey s) && live r) (sessions d)
      || (like_task (s_ThreadKey s)
          && exists_row (λ r, String.eqb (sr_cwd r) cwd && live r && like_task (sr_thread_key r))
               (sessions d))
  end.

Definition insert_session_row (s : Session) (cwd : string) (d : db) : result err (unit * db) :=
  if negb (floor_check (s_TrustFloor s)) then Err EConstraint
  else if session_conflict s cwd d then Err EConstraint
  else Ok (tt, set_sessions (<[s_SessionID s := creating_row s cwd]> (sessions d)) d).

Definition InsertSession (fs : filesystem) (s : Session) : StoreM string :=
  match session_validate s with
  | Err e => refuse e
  | Ok _ =>
      match canonicalCwd fs (s_Cwd s) with
      | Err e => refuse e
      | Ok cwd =>
          _ ← stmt (insert_session_row s cwd);
          mret cwd
      end
  end.

(** ** Lifecycle *)

(** The live row of a thread; one_live_session allows at most one. *)
Definition live_of_thread (threadKey : string) (d : db) : option (string * session_row) :=
  List.find (λ kv : string * session_row,
      String.eqb (sr_thread_key kv.2) threadKey && live kv.2) (map_to_list (sessions d)).

Definition live_session_of (id : string) (r : session_row) : LiveSession :=
  MkLiveSession (sr_thread_key r) id (sr_status r) (sr_cwd r)
    (default ""%string (sr_origin r)) (sr_trust_floor r) (sr_created_at r)
    (default 0 (sr_activation_deadline r)) (default 0 (sr_last_seen r))
    (default 0 (sr_turns r)).

(** [(zero, false, nil)] for an unknown thread is [None]. *)
Definition ResolveLiveSession (threadKey : string) : StoreM (option LiveSession) :=
  query (λ d, match live_of_thread threadKey d with
              | Some (id, r) => Some (live_session_of id r)
              | None => None
              end).

Definition set_session_status (st : ss_status) (r : session_row) : session_row :=
  session_upd st (sr_rotated_to r) (sr_last_seen r) (sr_turns r) (sr_tainted r) r.

Definition in_session_status (st : ss_status) (r : session_row) : bool :=
  bool_decide (sr_status r = st).

Definition transitionCreating (sessionID : string) (to : ss_status) : StoreM unit :=
  n ← exec (upd_session sessionID (in_session_status Creating) (set_session_status to));
  if Z.eqb n 0 then refuse ENotCreating else mret tt.

Definition ActivateSession (sessionID : string) : StoreM unit :=
  transitionCreating sessionID Active.
Definition FailSession (sessionID : string) : StoreM unit :=
  transitionCreating sessionID SFailed.

(** ** The degraded-predecessor walk (WITH RECURSIVE ... UNION) *)

(** One round of the recursive query: the base rows, and the rows linking to a
    failed row already in the chain. *)
Definition failed_in (d : db) (acc : gset string) (c : string) : bool :=
  bool_decide (c ∈ acc)
  && match sessions d !! c with
     | Some r => bool_decide (sr_status r = SFailed)
     | None => false
     end.
Definition chain_link (sessionID : string) (d : db) (acc : gset string) (r : session_row) : bool :=
  match sr_rotated_to r with
  | Some c => String.eqb c sessionID || failed_in d acc c
  | None => false
  end.
Definition chain_round (sessionID : string) (d : db) (acc : gset string) : gset string :=
  acc ∪ dom (filter (λ kv : string * session_row, chain_link sessionID d acc kv.2 = true)
               (sessions d)).

(** UNION keeps each row once, so as many rounds as there are rows reach the
    fixed point. *)
Definition chain_set (sessionID : string) (d : db) : gset string :=
  Nat.iter (S (size (sessions d))) (chain_round sessionID d) ∅.

Definition degraded (sessionID : string) (d : db) : bool :=
  existsb (λ id, match sessions d !! id with
                 | Some r => bool_decide (sr_status r = ResumeFailed)
                 | None => false
                 end) (elements (chain_set sessionID d)).

Definition SessionDegraded (sessionID : string) : StoreM bool := query (degraded sessionID).

(** ** Rotation *)

Definition link_session (to : string) (r : session_row) : session_row :=
  session_upd (sr_status r) (Some to) (sr_last_seen r) (sr_turns r) (sr_tainted r) r.

(** UPDATE sessions SET rotated_to = ? with its foreign key. *)
Definition link_successor (oldID newID : string) (d : db) : result err (Z * db) :=
  match sessions d !! oldID with
  | None => Ok (0, d)
  | Some _ =>
      match sessions d !! newID with
      | None => Err EConstraint
      | Some _ => Ok (upd_session oldID (λ _, true) (link_session newID) d)
      end
  end.

Definition retireSession (fs : filesystem) (oldSessionID : string) (successor : Session)
    (fromStatus retiredStatus : ss_status) (guardErr : err) : StoreM string :=
  in_tx (
    n ← exec (upd_session oldSessionID
          (λ r, in_session_status fromStatus r
                && String.eqb (sr_thread_key r) (s_ThreadKey successor))
          (set_session_status retiredStatus));
    if Z.eqb n 0 then refuse guardErr
    else
      cwd ← InsertSession fs successor;
      _ ← stmt (link_successor oldSessionID (s_SessionID successor));
      mret (true, cwd)).

Definition RotateSession (fs : filesystem) (oldSessionID : string) (successor : Session) : StoreM string :=
  retireSession fs oldSessionID successor Active Rotated ENotActive.
Definition ResumeFailSession (fs : filesystem) (oldSessionID : string) (successor : Session) : StoreM string :=
  retireSession fs oldSessionID successor Active ResumeFailed ENotActive.
Definition ExpireSession (fs : filesystem) (oldSessionID : string) (successor : Session) : StoreM string :=
  retireSession fs oldSessionID successor Creating SFailed ENotCreating.

Definition TouchSession (sessionID : string) (now : Z) : StoreM unit :=
  n ← exec (upd_session sessionID (λ _, true)
        (λ r, session_upd (sr_status r) (sr_rotated_to r) (Some now)
                (Some (default 0 (sr_turns r) + 1)) (sr_tainted r) r));
  if Z.eqb n 0 then refuse (ERefused "no such session") else mret tt.

(** ** Taint *)

Definition MarkSessionTainted (sessionID : string) : StoreM unit :=
  n ← exec (upd_session sessionID (λ _, true)
        (λ r, session_upd (sr_status r) (sr_rotated_to r) (sr_last_seen r) (sr_turns r) true r));
  if Z.eqb n 0 then refuse (ERefused "no such session") else mret tt.

Definition SessionTainted (sessionID : string) : StoreM bool :=
  row ← query (λ d, sessions d !! sessionID);
  match row with
  | None => refuse (ERefused "no such session")
  | Some r => mret (sr_tainted r)
  end.
