(* ===== verification/Identities.v ===== *)
(** * The identities table and the trust lookup (src/internal/store/identities.go) *)
From S2P Require Import Prelude Trust Schema Events.
Local Open Scope Z_scope.

(** ** Definitions *)

Record Identity : Type := MkIdentity {
  idn_Channel : string;
  idn_NativeID : string;
  idn_Trust : string;
  idn_OwnerID : string;
  idn_Label : string;
}.

(** A failed lookup returns its value beside the error, so the model keeps
    both: the level (or stamp) the caller holds, and whether an error came
    with it. *)
Record Answer (A : Type) : Type := MkAnswer {
  ans_value : A;
  ans_err : option err;
}.
Arguments MkAnswer {A}.
Arguments ans_value {A}.
Arguments ans_err {A}.

Definition owner_id_at (channel nativeID : string) (d : db) : option (option string) :=
  match identities d !! (channel, nativeID) with
  | Some r => if bool_decide (id_trust r = "owner"%string) then Some (id_owner_id r) else None
  | None => None
  end.

(** [(ownerID, ok, err)]: scanning a NULL owner_id into a string is an error. *)
Definition ResolveOwnerID (channel nativeID : string) : StoreM (option string) :=
  row ← query (owner_id_at channel nativeID);
  match row with
  | None => mret None
  | Some None => refuse EIO
  | Some (Some o) => mret (Some o)
  end.

(** The row-shape judgement of ResolveTrust. *)
Definition judge_row (r : ident_row) : Answer Level :=
  match Parse (id_trust r) with
  | Err _ => MkAnswer Untrusted (Some (EInvalid "unknown level"))
  | Ok level =>
      if bool_decide (level = Untrusted)
         || (bool_decide (level = Owner)
             && match id_owner_id r with
                | None => true
                | Some o => bool_decide (o = ""%string)
                end)
         || (bool_decide (level = Known)
             && match id_owner_id r with Some _ => true | None => false end)
      then MkAnswer Untrusted (Some (EInvalid "row violates identities invariants"))
      else MkAnswer level None
  end.

Definition ResolveTrust (channel nativeID : string) : StoreM (Answer Level) :=
  r ← try (query (λ d, identities d !! (channel, nativeID)));
  match r with
  | Err e => mret (MkAnswer Untrusted (Some e))
  | Ok None => mret (MkAnswer Untrusted None)
  | Ok (Some row) => mret (judge_row row)
  end.

Definition bottom_stamp : Stamped := MkStamped Untrusted true false.

Definition ResolveStamped (channel nativeID auth : string) : StoreM (Answer Stamped) :=
  a ← ResolveTrust channel nativeID;
  match ans_err a with
  | Some e => mret (MkAnswer bottom_stamp (Some e))
  | None => mret (MkAnswer (Stamp auth (ans_value a)) None)
  end.

Definition ident_of (i : Identity) : ident_row :=
  IdentRow (idn_Trust i) (nullif_empty (idn_OwnerID i)) (nullif_empty (idn_Label i)).

(** INSERT INTO identities, with its CHECKs and primary key. *)
Definition insert_identity (i : Identity) (d : db) : result err (unit * db) :=
  let key := (idn_Channel i, idn_NativeID i) in
  if negb (ident_check (ident_of i)) then Err EConstraint
  else match identities d !! key with
       | Some _ => Err EConstraint
       | None => Ok (tt, set_identities (<[key := ident_of i]> (identities d)) d)
       end.

Fixpoint insert_identities (ids : list Identity) : StoreM unit :=
  match ids with
  | [] => mret tt
  | i :: ids' => _ ← stmt (insert_identity i); insert_identities ids'
  end.

Definition SeedIdentities (ids : list Identity) : StoreM unit :=
  in_tx (
    _ ← stmt (λ d, Ok (tt, set_identities ∅ d));
    _ ← insert_identities ids;
    mret (true, tt)).
