(* ===== verification/Turns.v ===== *)
(** * Turn observability (src/internal/store/turns.go)

    [float64] is IEEE 754 binary64 ([SpecFloat] with 53 bits of precision), so
    the finiteness and sign tests of the validation are the float's own. *)
From Stdlib Require Import SpecFloat.
From S2P Require Import Prelude Schema Events.
Local Open Scope Z_scope.

(** ** Definitions *)

Record Turn : Type := MkTurn {
  t_SessionID : string;
  t_TS : Z;
  t_Kind : string;
  t_Model : string;
  t_InputTokens : Z;
  t_OutputTokens : Z;
  t_CostUSD : float64;
  t_ToolCalls : Z;
  t_DurationMS : Z;
  t_Outcome : string;
  t_UsageKnown : bool;
}.

Definition turnKinds (k : string) : bool := kind_check k.
Definition turnOutcomes (o : string) : bool :=
  bool_decide (o ∈ ["ok"; "error"; "denied"; "timeout"]%string).

Definition f64_is_nan (x : float64) : bool := match x with S754_nan => true | _ => false end.
Definition f64_is_inf (x : float64) : bool := match x with S754_infinity _ => true | _ => false end.
Definition f64_zero : float64 := S754_zero false.
Definition f64_lt0 (x : float64) : bool := SFltb x f64_zero.
Definition f64_add (x y : float64) : float64 := SFadd 53 1024 x y.

Definition turn_validate (t : Turn) : result err unit :=
  if empty (t_SessionID t) then Err (EInvalid "empty session_id")
  else if Z.leb (t_TS t) 0 then Err (EInvalid "ts")
  else if negb (empty (t_Kind t)) && negb (turnKinds (t_Kind t)) then Err (EInvalid "kind")
  else if negb (turnOutcomes (t_Outcome t)) then Err (EInvalid "outcome")
  else if Z.ltb (t_InputTokens t) 0 || Z.ltb (t_OutputTokens t) 0 then Err (EInvalid "tokens")
  else if f64_is_nan (t_CostUSD t) || f64_is_inf (t_CostUSD t) then Err (EInvalid "cost_usd is not finite")
  else if f64_lt0 (t_CostUSD t) then Err (EInvalid "cost_usd negative")
  else if Z.ltb (t_ToolCalls t) 0 then Err (EInvalid "tool_calls")
  else if Z.ltb (t_DurationMS t) 0 then Err (EInvalid "duration_ms")
  else Ok tt.

Definition turn_row_of (t : Turn) : turn_row :=
  TurnRow (t_SessionID t) (t_TS t) (nullif_empty (t_Kind t)) (nullif_empty (t_Model t))
    (if t_UsageKnown t then Some (t_InputTokens t) else None)
    (if t_UsageKnown t then Some (t_OutputTokens t) else None)
    (if t_UsageKnown t then Some (t_CostUSD t) else None)
    (t_ToolCalls t) (t_DurationMS t) (t_Outcome t).

(** The turns CHECKs (0011) and the session foreign key. *)
Definition insert_turn_row (t : Turn) (d : db) : result err (Z * db) :=
  if negb ((empty (t_Kind t) || kind_check (t_Kind t)) && turnOutcomes (t_Outcome t))
  then Err EConstraint
  else match sessions d !! t_SessionID t with
       | None => Err EConstraint
       | Some _ =>
           let id := next_id (turns d) in
           Ok (id, set_turns (<[id := turn_row_of t]> (turns d)) d)
       end.

Definition InsertTurn (t : Turn) : StoreM Z :=
  match turn_validate t with
  | Err e => refuse e
  | Ok _ => stmt (insert_turn_row t)
  end.

Record SpendSummary : Type := MkSpend {
  sp_KnownUSD : float64;
  sp_Turns : Z;
  sp_UnknownTurns : Z;
}.

Definition in_window (since until : Z) (r : turn_row) : bool :=
  Z.leb since (tr_ts r) && Z.ltb (tr_ts r) until.

Definition window_rows (since until : Z) (d : db) : list turn_row :=
  List.filter (in_window since until) (map snd (sorted_rows (turns d))).

Definition known_costs (rows : list turn_row) : list float64 :=
  omap tr_cost_usd rows.

(** [sum] is SQLite's SUM over REAL values, whose rounding is the database's
    own; [COALESCE(SUM(cost_usd), 0)] is 0 when no cost is known. *)
Definition DailySpend (sum : list float64 → float64) (since until : Z) : StoreM SpendSummary :=
  if Z.leb until since then refuse (EInvalid "window is empty")
  else query (λ d,
    let rows := window_rows since until d in
    MkSpend (match known_costs rows with [] => f64_zero | cs => sum cs end)
      (Z.of_nat (length rows))
      (Z.of_nat (length (List.filter (λ r, match tr_cost_usd r with None => true | Some _ => false end) rows)))).
