(* ===== verification/Config.v ===== *)
(** * Configuration (src/internal/config/config.go)

    The TOML decoder is a third-party library: [decode] is a parameter that
    fills a [Config] and answers which keys it could not place and which it
    saw.  Everything after it is modelled: defaults, the presence rules, every
    validation with its problem, and the effective policy matrix.  A Go map is
    a [gmap]; the order its range visits only permutes the problems. *)
From Stdlib Require Import SpecFloat.
From S2P Require Import Prelude Paths Utf8 Trust Schema Events Turns.
Local Open Scope Z_scope.

(** ** Data *)

Record PolicyRow : Type := MkRow {
  Row_Owner : string;
  Row_Known : string;
  Row_Untrusted : string;
}.

Record Channel : Type := MkChannel {
  ch_Auth : string;
  ch_TokenFile : string;
}.

Record ConfIdentity : Type := MkConfIdentity {
  ci_Channel : string;
  ci_NativeID : string;
  ci_Trust : string;
  ci_OwnerID : string;
  ci_Label : string;
}.

(** Durations are int64 nanoseconds. *)
Record Sessions : Type := MkSessions {
  se_IdleTTL : Z;
  se_TurnCap : Z;
}.

Record Engine : Type := MkEngine {
  en_Bin : string;
  en_Version : string;
  en_MaxTurns : Z;
  en_TurnTimeout : Z;
  en_Hooks : list string;
  en_DailySpendAlarmUSD : float64;
}.

Record Models : Type := MkModels {
  mo_Heartbeat : string;
  mo_Message : string;
  mo_Heavy : string;
  mo_Critique : string;
}.

Record Config : Type := MkConfig {
  cf_Models : Models;
  cf_Channels : gmap string Channel;
  cf_Identities : list ConfIdentity;
  cf_Sessions : Sessions;
  cf_Engine : option Engine;
  cf_Matrix : gmap string PolicyRow;
}.

(** One constructor per message of the validator. *)
Inductive problem : Type :=
| PDecode
| PUnknownKeys (keys : list string)
| PEmptyAction (capability column : string)
| PEmptyToken (channel : string)
| PModelMessage
| PModelHeartbeat
| PAuth (channel : string)
| PTokenUnsupported (channel : string)
| PTokenWeak (channel : string)
| PIdleTTL
| PTurnCap
| PBinMissing
| PBinRelative
| PVersion
| PMaxTurns
| PTurnTimeout
| PAlarmNotFinite
| PAlarmNegative
| PNoHooks
| PHookEmpty (i : nat)
| PHookDuplicate (i : nat)
| PCapability (capability : string)
| PAction (capability column : string)
| PNativeID (i : nat)
| PTrust (i : nat)
| POwnerMissing (i : nat)
| POwnerForbidden (i : nat)
| PChannelUndefined (i : nat)
| PWeakOwner (i : nat)
| PDuplicate (i : nat).

(** ** The policy matrix *)

Definition cell (r : PolicyRow) (column : string) : string :=
  if String.eqb column "owner" then Row_Owner r
  else if String.eqb column "known" then Row_Known r
  else if String.eqb column "untrusted" then Row_Untrusted r
  else ""%string.

(** PolicyRow.Action: an empty cell reads as deny. *)
Definition Action (r : PolicyRow) (column : string) : string :=
  if empty (cell r column) then "deny"%string else cell r column.

Definition defaultRows : list (string * PolicyRow) :=
  [("read", MkRow "allow" "allow" "sandbox");
   ("schedule", MkRow "allow" "gate" "deny");
   ("web_fetch", MkRow "allow" "allow" "sandbox");
   ("bash", MkRow "allow" "allow" "deny");
   ("edit", MkRow "allow" "ask" "deny");
   ("host_exec", MkRow "ask" "deny" "deny");
   ("git_push", MkRow "ask" "deny" "deny");
   ("send_same_thread", MkRow "allow" "allow" "deny");
   ("send_other_surface", MkRow "ask" "deny" "deny");
   ("memory_write", MkRow "allow" "gate" "gate");
   ("codex", MkRow "allow" "ask" "deny");
   ("task_graph_write", MkRow "allow" "gate" "deny")]%string.
Definition defaultMatrix : gmap string PolicyRow := list_to_map defaultRows.

(** The overrides are copied over the defaults, whole rows at a time. *)
Definition mergeMatrix (overrides : gmap string PolicyRow) : gmap string PolicyRow :=
  overrides ∪ defaultMatrix.

(** ** Channels *)

Definition MaxTrust (ch : Channel) : string :=
  if bool_decide (ch_Auth ch = "weak"%string) then "known"%string else "owner"%string.
Definition MayApprove (ch : Channel) : bool := bool_decide (ch_Auth ch = "strong"%string).
Definition ReadOnly (ch : Channel) : bool := bool_decide (ch_Auth ch = "weak"%string).

(** ** Validation *)

(** [if c { fail(p) }] *)
Definition when (c : bool) (p : problem) : list problem := if c then [p] else [].

Definition validateModels (c : Config) : list problem :=
  when (empty (mo_Message (cf_Models c))) PModelMessage
  ++ when (empty (mo_Heartbeat (cf_Models c))) PModelHeartbeat.

Definition gatewayChannels (name : string) : bool := bool_decide (name = "discord"%string).

Definition validateChannel (name : string) (ch : Channel) : list problem :=
  when (negb (bool_decide (ch_Auth ch = "strong"%string))
        && negb (bool_decide (ch_Auth ch = "weak"%string))) (PAuth name)
  ++ when (negb (empty (ch_TokenFile ch)) && negb (gatewayChannels name)) (PTokenUnsupported name)
  ++ when (bool_decide (ch_Auth ch = "weak"%string) && negb (empty (ch_TokenFile ch))) (PTokenWeak name).

Definition over_map {A} (f : string → A → list problem) (m : gmap string A) : list problem :=
  concat (map (λ kv : string * A, f kv.1 kv.2) (map_to_list m)).

Definition validateChannels (c : Config) : list problem := over_map validateChannel (cf_Channels c).

Definition time_Second : Z := 1000000000.

Definition validateSessions (c : Config) : list problem :=
  when (Z.ltb (se_IdleTTL (cf_Sessions c)) time_Second) PIdleTTL
  ++ when (Z.ltb (se_TurnCap (cf_Sessions c)) 1) PTurnCap.

(** The loop over the hooks; [seen] is its map of names. *)
Fixpoint validateHooks (i : nat) (seen hooks : list string) : list problem :=
  match hooks with
  | [] => []
  | h :: hooks' =>
      if empty h then PHookEmpty i :: validateHooks (S i) seen hooks'
      else when (bool_decide (h ∈ seen)) (PHookDuplicate i)
           ++ validateHooks (S i) (h :: seen) hooks'
  end.

Definition validateAlarm (usd : float64) : list problem :=
  if f64_is_nan usd || f64_is_inf usd then [PAlarmNotFinite]
  else when (f64_lt0 usd) PAlarmNegative.

Definition validateEngine (c : Config) : list problem :=
  match cf_Engine c with
  | None => []
  | Some e =>
      (if empty (en_Bin e) then [PBinMissing] else when (negb (IsAbs (en_Bin e))) PBinRelative)
      ++ when (empty (en_Version e)) PVersion
      ++ when (Z.ltb (en_MaxTurns e) 1) PMaxTurns
      ++ when (Z.ltb (en_TurnTimeout e) time_Second) PTurnTimeout
      ++ validateAlarm (en_DailySpendAlarmUSD e)
      ++ when (match en_Hooks e with [] => true | _ => false end) PNoHooks
      ++ validateHooks 0 [] (en_Hooks e)
  end.

Definition known_action (a : string) : bool :=
  bool_decide (a ∈ ["allow"; "ask"; "gate"; "deny"; "sandbox"]%string).

Definition columns : list string := ["owner"; "known"; "untrusted"]%string.

Definition validateRow (capability : string) (row : PolicyRow) : list problem :=
  when (bool_decide (defaultMatrix !! capability = None)) (PCapability capability)
  ++ concat (map (λ column, when (negb (known_action (Action row column))) (PAction capability column))
               columns).

Definition validatePolicy (c : Config) : list problem := over_map validateRow (cf_Matrix c).

Definition validateIdentity (channels : gmap string Channel) (i : nat) (id : ConfIdentity)
    (duplicate : bool) : list problem :=
  let owner := bool_decide (ci_Trust id = "owner"%string) in
  when (empty (ci_NativeID id)) (PNativeID i)
  ++ when (negb owner && negb (bool_decide (ci_Trust id = "known"%string))) (PTrust i)
  ++ when (owner && empty (ci_OwnerID id)) (POwnerMissing i)
  ++ when (negb owner && negb (empty (ci_OwnerID id))) (POwnerForbidden i)
  ++ match channels !! ci_Channel id with
     | None => [PChannelUndefined i]
     | Some ch => when (owner && bool_decide (ch_Auth ch = "weak"%string)) (PWeakOwner i)
     end
  ++ when duplicate (PDuplicate i).

Definition identity_key (id : ConfIdentity) : string * string := (ci_Channel id, ci_NativeID id).

Fixpoint identities_loop (channels : gmap string Channel) (i : nat) (seen : list (string * string))
    (ids : list ConfIdentity) : list problem :=
  match ids with
  | [] => []
  | id :: ids' =>
      validateIdentity channels i id (bool_decide (identity_key id ∈ seen))
      ++ identities_loop channels (S i) (identity_key id :: seen) ids'
  end.

Definition validateIdentities (c : Config) : list problem :=
  identities_loop (cf_Channels c) 0 [] (cf_Identities c).

Definition validate (c : Config) : list problem :=
  validateModels c ++ validateChannels c ++ validateSessions c ++ validateEngine c
  ++ validatePolicy c ++ validateIdentities c.

(** ** Parse *)

(** What the decoder says of a document besides the fields: the keys it could
    not place, and which keys were there. *)
Record MetaData : Type := MkMeta {
  md_Undecoded : list string;
  md_IsDefined : list string → bool;
}.

(** The values decoding starts from. *)
Definition initial : Config :=
  MkConfig (MkModels "" "" "" "") ∅ [] (MkSessions (4 * 3600 * time_Second) 50) None ∅.

(** The engine caps default only when their keys are absent. *)
Definition default_caps (md : MetaData) (e : Engine) : Engine :=
  MkEngine (en_Bin e) (en_Version e)
    (if md_IsDefined md ["engine"; "max_turns"]%string then en_MaxTurns e else 25)
    (if md_IsDefined md ["engine"; "turn_timeout"]%string then en_TurnTimeout e
     else 600 * time_Second)
    (en_Hooks e) (en_DailySpendAlarmUSD e).

Definition with_engine (e : option Engine) (c : Config) : Config :=
  MkConfig (cf_Models c) (cf_Channels c) (cf_Identities c) (cf_Sessions c) e (cf_Matrix c).
Definition with_matrix (m : gmap string PolicyRow) (c : Config) : Config :=
  MkConfig (cf_Models c) (cf_Channels c) (cf_Identities c) (cf_Sessions c) (cf_Engine c) m.

Definition presence_row (md : MetaData) (capability : string) (row : PolicyRow) : list problem :=
  concat (map (λ column,
    when (empty (cell row column) && md_IsDefined md ["policy"; "matrix"; capability; column]%string)
      (PEmptyAction capability column)) columns).
Definition presence_token (md : MetaData) (name : string) (ch : Channel) : list problem :=
  when (empty (ch_TokenFile ch) && md_IsDefined md ["channels"; name; "token_file"]%string)
    (PEmptyToken name).

Section parse.
Context (decode : string → Config → option (Config * MetaData)).

Definition Parse (doc : string) : result (list problem) Config :=
  match decode doc initial with
  | None => Err [PDecode]
  | Some (c, md) =>
      let c := with_engine (default_caps md <$> cf_Engine c) c in
      let problems :=
        match md_Undecoded md with [] => [] | keys => [PUnknownKeys keys] end
        ++ over_map (presence_row md) (cf_Matrix c)
        ++ over_map (presence_token md) (cf_Channels c)
        ++ validate c in
      match problems with
      | [] => Ok (with_matrix (mergeMatrix (cf_Matrix c)) c)
      | _ => Err problems
      end
  end.
End parse.

(** ** What a valid configuration is *)

Record channel_ok (name : string) (ch : Channel) : Prop := ChannelOk {
  co_auth : ch_Auth ch = "strong"%string ∨ ch_Auth ch = "weak"%string;
  co_token : ch_TokenFile ch ≠ ""%string → name = "discord"%string ∧ ch_Auth ch = "strong"%string;
}.

(** The row shapes the identities table takes, on a channel whose grade lets
    the trust be what it says. *)
Record identity_ok (channels : gmap string Channel) (id : ConfIdentity) : Prop := IdentityOk {
  io_native : ci_NativeID id ≠ ""%string;
  io_trust : ci_Trust id = "owner"%string ∧ ci_OwnerID id ≠ ""%string
             ∨ ci_Trust id = "known"%string ∧ ci_OwnerID id = ""%string;
  io_channel : ∃ ch, channels !! ci_Channel id = Some ch
             ∧ (ci_Trust id = "owner"%string → ch_Auth ch ≠ "weak"%string);
}.

Record engine_ok (e : Engine) : Prop := EngineOk {
  eo_bin : en_Bin e ≠ ""%string ∧ IsAbs (en_Bin e) = true;
  eo_version : en_Version e ≠ ""%string;
  eo_max_turns : 1 ≤ en_MaxTurns e;
  eo_timeout : time_Second ≤ en_TurnTimeout e;
  eo_alarm : f64_is_nan (en_DailySpendAlarmUSD e) = false
             ∧ f64_is_inf (en_DailySpendAlarmUSD e) = false
             ∧ f64_lt0 (en_DailySpendAlarmUSD e) = false;
  eo_hooks : en_Hooks e ≠ [] ∧ (""%string ∉ en_Hooks e) ∧ NoDup (en_Hooks e);
}.

Definition row_ok (capability : string) (row : PolicyRow) : Prop :=
  is_Some (defaultMatrix !! capability)
  ∧ ∀ column, column ∈ columns → known_action (Action row column) = true.

Record config_ok (c : Config) : Prop := ConfigOk {
  fo_models : mo_Message (cf_Models c) ≠ ""%string ∧ mo_Heartbeat (cf_Models c) ≠ ""%string;
  fo_channels : map_Forall channel_ok (cf_Channels c);
  fo_sessions : time_Second ≤ se_IdleTTL (cf_Sessions c) ∧ 1 ≤ se_TurnCap (cf_Sessions c);
  fo_engine : ∀ e, cf_Engine c = Some e → engine_ok e;
  fo_policy : map_Forall row_ok (cf_Matrix c);
  fo_identities : Forall (identity_ok (cf_Channels c)) (cf_Identities c);
  fo_keys : NoDup (map identity_key (cf_Identities c));
}.

(** ** Lemmas: the validator decides validity *)

Lemma when_nil b p : when b p = [] ↔ b = false.
Proof. by destruct b. Qed.

Lemma app_nil_iff {A} (l k : list A) : l ++ k = [] ↔ l = [] ∧ k = [].
Proof. split; [apply app_eq_nil|by intros [-> ->]]. Qed.

Lemma concat_map_nil {A B} (f : A → list B) l : concat (map f l) = [] ↔ ∀ x, x ∈ l → f x = [].
Proof.
  induction l as [|a l IH]; simpl; [split; [by intros _ x ?%elem_of_nil|done]|].
  rewrite app_nil_iff, IH. setoid_rewrite elem_of_cons. naive_solver.
Qed.

Lemma over_map_nil {A} (f : string → A → list problem) m :
  over_map f m = [] ↔ map_Forall (λ k x, f k x = []) m.
Proof.
  unfold over_map. rewrite concat_map_nil. split.
  - intros H k x Hk. apply (H (k, x)). by apply elem_of_map_to_list.
  - intros H [k x] Hk%elem_of_map_to_list. by apply (H k x).
Qed.

Lemma validateChannel_nil name ch : validateChannel name ch = [] ↔ channel_ok name ch.
Proof.
  unfold validateChannel, gatewayChannels. rewrite !app_nil_iff, !when_nil, !andb_false_iff,
    !negb_false_iff, !empty_true, !bool_decide_eq_true, bool_decide_eq_false.
  split.
  - intros (H1 & H2 & H3). split; [done|]. intros Ht.
    destruct H2 as [?|?]; [done|]. split; [done|]. destruct H3 as [H3|?]; [|done].
    by destruct H1.
  - intros [Ha Ht]. split; [done|]. destruct (decide (ch_TokenFile ch = ""%string)) as [?|Hne]; [by auto|].
    destruct (Ht Hne) as [-> Hs]. split; [by right|]. left. by rewrite Hs.
Qed.

Lemma validateHooks_nil hooks : ∀ i seen,
  validateHooks i seen hooks = [] ↔ (""%string ∉ hooks) ∧ NoDup hooks ∧ ∀ h, h ∈ hooks → h ∉ seen.
Proof.
  induction hooks as [|h hooks IH]; intros i seen; cbn [validateHooks].
  { split; [intros _; split_and!; [by intros ?%elem_of_nil|constructor|by intros h ?%elem_of_nil]|done]. }
  rewrite NoDup_cons. setoid_rewrite elem_of_cons. unfold empty. case_bool_decide as He.
  - split; [done|]. intros (Hn & _). destruct Hn. by left.
  - rewrite app_nil_iff, when_nil, bool_decide_eq_false, IH. setoid_rewrite elem_of_cons.
    split.
    + intros (H1 & H2 & H3 & H4). split_and!; [naive_solver| |done|naive_solver].
      intros Hin. destruct (H4 h Hin). by left.
    + intros (H1 & (H2 & H3) & H4). split_and!; [naive_solver|naive_solver|done|].
      intros x Hx [->|Hs]; [done|]. by apply (H4 x); [right|].
Qed.

Lemma validateEngine_nil c : validateEngine c = [] ↔ ∀ e, cf_Engine c = Some e → engine_ok e.
Proof.
  unfold validateEngine. destruct (cf_Engine c) as [e|]; [|done].
  rewrite !app_nil_iff, !when_nil, !Z.ltb_ge, empty_false_iff, validateHooks_nil.
  assert (Hb : (if empty (en_Bin e) then [PBinMissing] else when (negb (IsAbs (en_Bin e))) PBinRelative) = []
            ↔ en_Bin e ≠ ""%string ∧ IsAbs (en_Bin e) = true).
  { destruct (empty (en_Bin e)) eqn:He; [apply empty_true in He; naive_solver|].
    apply empty_false_iff in He. rewrite when_nil, negb_false_iff. naive_solver. }
  assert (Ha : validateAlarm (en_DailySpendAlarmUSD e) = []
            ↔ f64_is_nan (en_DailySpendAlarmUSD e) = false
             ∧ f64_is_inf (en_DailySpendAlarmUSD e) = false
             ∧ f64_lt0 (en_DailySpendAlarmUSD e) = false).
  { unfold validateAlarm. destruct (f64_is_nan _), (f64_is_inf _); cbn [orb]; rewrite ?when_nil;
      (split; [try done; intros ?; split_and!; done|by intros (? & ? & ?)]). }
  rewrite Hb, Ha. split.
  - intros (H1 & H2 & H3 & H4 & H5 & H6 & H7 & H8 & _) e' [= <-]. split; try done.
    split_and!; [by destruct (en_Hooks e)|done|done].
  - intros H. destruct (H e eq_refl) as [Hbin Hver Hmax Htime Halarm (Hne & Hemp & Hdup)].
    split; [exact Hbin|]. split; [exact Hver|]. split; [exact Hmax|]. split; [exact Htime|].
    split; [exact Halarm|]. split; [by destruct (en_Hooks e)|]. split_and!; [done|done|].
    by intros h _ ?%elem_of_nil.
Qed.

Lemma validateRow_nil capability row : validateRow capability row = [] ↔ row_ok capability row.
Proof.
  unfold validateRow, row_ok. rewrite app_nil_iff, when_nil, bool_decide_eq_false, concat_map_nil.
  setoid_rewrite when_nil. setoid_rewrite negb_false_iff. by rewrite not_eq_None_Some.
Qed.

Lemma validateIdentity_nil channels i id duplicate :
  validateIdentity channels i id duplicate = [] ↔ identity_ok channels id ∧ duplicate = false.
Proof.
  unfold validateIdentity.
  rewrite !app_nil_iff, !when_nil, !andb_false_iff, !negb_false_iff, !empty_true, !empty_false_iff.
  assert (Hch : match channels !! ci_Channel id with
      | None => [PChannelUndefined i]
      | Some ch => when (bool_decide (ci_Trust id = "owner"%string)
                         && bool_decide (ch_Auth ch = "weak"%string)) (PWeakOwner i)
      end = [] ↔ ∃ ch, channels !! ci_Channel id = Some ch
             ∧ (ci_Trust id = "owner"%string → ch_Auth ch ≠ "weak"%string)).
  { destruct (channels !! ci_Channel id) as [ch|]; [|by split; [|intros (? & ? & _)]].
    rewrite when_nil, andb_false_iff, !bool_decide_eq_false. split.
    - intros [H|H]; exists ch; by split.
    - intros (ch' & [= <-] & H). destruct (decide (ci_Trust id = "owner"%string)); auto. }
  rewrite Hch, !bool_decide_eq_true, !bool_decide_eq_false. split.
  - intros (Hn & Ht & Ho & Hf & Hc & Hd). split; [|done]. split; [done| |done].
    destruct (decide (ci_Trust id = "owner"%string)) as [He|He].
    + left. split; [done|]. by destruct Ho.
    + right. destruct Ht as [?|Ht]; [done|]. by destruct Hf.
  - intros ([Hn Ht Hc] & Hd). split; [done|].
    destruct Ht as [[Ht Ho]|[Ht Ho]]; rewrite Ht in *.
    + split_and!; auto.
    + split_and!; auto; by left.
Qed.

Lemma identities_loop_nil channels ids : ∀ i seen,
  identities_loop channels i seen ids = []
  ↔ Forall (identity_ok channels) ids ∧ NoDup (map identity_key ids)
    ∧ ∀ id, id ∈ ids → identity_key id ∉ seen.
Proof.
  induction ids as [|id ids IH]; intros i seen; cbn [identities_loop map].
  { split; [intros _; split_and!; [constructor|constructor|by intros id ?%elem_of_nil]|done]. }
  rewrite app_nil_iff, validateIdentity_nil, IH, Forall_cons, NoDup_cons, bool_decide_eq_false.
  setoid_rewrite elem_of_cons. split.
  - intros ((H1 & H2) & H3 & H4 & H5). split_and!; [done|done| |done|].
    + intros Hin. apply list_elem_of_fmap in Hin as (x & Hk & Hx). apply (H5 x Hx). left. done.
    + intros x [->|Hx]; [done|]. intros Hs. apply (H5 x Hx). by right.
  - intros ((H1 & H2) & (H3 & H4) & H5). split_and!; auto.
    intros x Hx [Hk|Hs]; [|by apply (H5 x); [right|]].
    destruct H3. apply list_elem_of_fmap. by exists x.
Qed.

(** The validator finds nothing exactly in a valid configuration. *)
Lemma validate_nil c : validate c = [] ↔ config_ok c.
Proof.
  unfold validate, validateModels, validateChannels, validateSessions, validatePolicy, validateIdentities.
  rewrite !app_nil_iff, !when_nil, !over_map_nil, !Z.ltb_ge, !empty_false_iff, validateEngine_nil,
    identities_loop_nil.
  split.
  - intros (Hm & Hc & Hs & He & Hp & Hi & Hk & _). split; try done.
    + intros k x Hx. apply validateChannel_nil. by apply (Hc k x).
    + intros k x Hx. apply validateRow_nil. by apply (Hp k x).
  - intros [Hm Hc Hs He Hp Hi Hk]. split; [done|]. split; [|split; [done|split; [done|split]]].
    + intros k x Hx. apply validateChannel_nil. by apply (Hc k x).
    + intros k x Hx. apply validateRow_nil. by apply (Hp k x).
    + split_and!; [done|done|]. by intros id _ ?%elem_of_nil.
Qed.

Lemma Parse_Ok decode doc c :
  Parse decode doc = Ok c ↔ ∃ c0 md, decode doc initial = Some (c0, md)
    ∧ let c1 := with_engine (default_caps md <$> cf_Engine c0) c0 in
      md_Undecoded md = [] ∧ map_Forall (λ k x, presence_row md k x = []) (cf_Matrix c1)
      ∧ map_Forall (λ k x, presence_token md k x = []) (cf_Channels c1)
      ∧ config_ok c1 ∧ c = with_matrix (mergeMatrix (cf_Matrix c1)) c1.
Proof.
  unfold Parse. destruct (decode doc initial) as [[c0 md]|]; [|by split; [|intros (? & ? & ? & _)]].
  cbv zeta. set (c1 := with_engine _ _).
  destruct (_ ++ _) as [|p ps] eqn:Hps.
  - rewrite !app_nil_iff, !over_map_nil, validate_nil in Hps. destruct Hps as (Hu & Hr & Ht & Hv).
    assert (md_Undecoded md = []) by (by destruct (md_Undecoded md)). split.
    + intros [= <-]. exists c0, md. by split_and!.
    + intros (c0' & md' & [= <- <-] & _ & _ & _ & _ & ->). done.
  - split; [done|]. intros (c0' & md' & [= <- <-] & Hu & Hr & Ht & Hv & _).
    assert (Hnil : p :: ps = []); [|done]. rewrite <-Hps.
    rewrite !app_nil_iff, !over_map_nil, validate_nil. by rewrite Hu.
Qed.

(** The effective matrix is total on the closed set of capabilities, and every
    cell holds a known action. *)
Lemma matrix_total c capability :
  config_ok c →
  is_Some (mergeMatrix (cf_Matrix c) !! capability) ↔ is_Some (defaultMatrix !! capability).
Proof.
  intros Hc. unfold mergeMatrix. rewrite lookup_union_is_Some. split; [|by auto].
  intros [[row Hr]|?]; [|done]. by apply (fo_policy c Hc capability row Hr).
Qed.

Lemma default_rows_known : map_Forall (λ _ row, ∀ column, known_action (Action row column) = true) defaultMatrix.
Proof.
  assert (Hall : Forall (λ kv : string * PolicyRow,
      forallb (λ column, known_action (Action kv.2 column)) (""%string :: columns) = true) defaultRows).
  { repeat constructor. }
  intros k row Hr column. apply elem_of_list_to_map_2 in Hr. rewrite Forall_forall in Hall.
  specialize (Hall _ Hr). rewrite forallb_forall in Hall.
  assert (Hcol : Action row column = Action row "owner" ∨ Action row column = Action row "known"
     ∨ Action row column = Action row "untrusted" ∨ Action row column = Action row "").
  { unfold Action, cell. destruct (String.eqb_spec column "owner"); [by left|].
    destruct (String.eqb_spec column "known"); [by right; left|].
    destruct (String.eqb_spec column "untrusted"); [by right; right; left|by right; right; right]. }
  destruct Hcol as [-> | [-> | [-> | ->]]]; apply Hall; simpl; auto.
Qed.

Lemma matrix_known c capability row column :
  config_ok c → mergeMatrix (cf_Matrix c) !! capability = Some row → known_action (Action row column) = true.
Proof.
  intros Hc. unfold mergeMatrix. rewrite lookup_union_Some_raw. intros [Hr|[_ Hr]].
  - destruct (fo_policy c Hc capability row Hr) as [_ Hk].
    destruct (decide (column ∈ columns)) as [Hin|Hn]; [by apply Hk|].
    unfold columns in Hn. rewrite !not_elem_of_cons in Hn. destruct Hn as (N1 & N2 & N3 & _).
    unfold Action, cell. rewrite (proj2 (String.eqb_neq column "owner") N1),
      (proj2 (String.eqb_neq column "known") N2), (proj2 (String.eqb_neq column "untrusted") N3).
    reflexivity.
  - by apply (default_rows_known capability row Hr).
Qed.

Lemma Action_empty row column : cell row column = ""%string → Action row column = "deny"%string.
Proof. intros He. unfold Action. by rewrite He. Qed.

Lemma Action_unknown row column : column ∉ columns → Action row column = "deny"%string.
Proof.
  unfold columns. rewrite !not_elem_of_cons. intros (N1 & N2 & N3 & _). apply Action_empty. unfold cell.
  by rewrite (proj2 (String.eqb_neq column "owner") N1), (proj2 (String.eqb_neq column "known") N2),
    (proj2 (String.eqb_neq column "untrusted") N3).
Qed.

(** ** Properties *)


(** C29: the effective policy.  After Parse the matrix has a row for exactly
    the capabilities of the closed set; every answer it gives is one of the
    five actions; an overridden capability answers from the override alone, so
    a column the override leaves out is denied even where the default table
    allows it; any other capability answers from the default table; and a
    column outside the three trust levels is always denied. *)
Theorem effective_policy decode doc c :
  Parse decode doc = Ok c →
  (∀ capability, is_Some (cf_Matrix c !! capability) ↔ is_Some (defaultMatrix !! capability))
  ∧ (∀ capability row column, cf_Matrix c !! capability = Some row →
       known_action (Action row column) = true
       ∧ (cell row column = ""%string → Action row column = "deny"%string)
       ∧ (column ∉ columns → Action row column = "deny"%string))
  ∧ ∃ c0 md, decode doc initial = Some (c0, md)
      ∧ ∀ capability, cf_Matrix c !! capability
          = match cf_Matrix c0 !! capability with Some row => Some row | None => defaultMatrix !! capability end.
Proof.
  intros (c0 & md & Hd & _ & _ & _ & Hok & ->)%Parse_Ok. split_and!.
  - intros capability. by apply (matrix_total _ capability Hok).
  - intros capability row column Hr. split_and!; [by eapply matrix_known|apply Action_empty|apply Action_unknown].
  - exists c0, md. split; [done|]. intros capability. unfold mergeMatrix. simpl.
    rewrite lookup_union. destruct (cf_Matrix c0 !! capability); simpl; [|by rewrite (left_id_L None _)].
    by destruct (defaultMatrix !! capability).
Qed.

(** A minimal document: two models, one strong channel, one owner, and one
    override that names the owner column only. *)
Definition sample_config : Config :=
  MkConfig (MkModels "haiku" "opus" "" "") {["discord" := MkChannel "strong" "/run/token"]}
    [MkConfIdentity "discord" "7" "owner" "brian" ""] (cf_Sessions initial) None
    {["bash" := MkRow "allow" "" ""]}%string.
Definition sample_decode (_ : string) (_ : Config) : option (Config * MetaData) :=
  Some (sample_config, MkMeta [] (λ _, false)).
Definition parsed : Config := with_matrix (mergeMatrix (cf_Matrix sample_config)) sample_config.

Lemma sample_parses : Parse sample_decode "" = Ok parsed.
Proof. reflexivity. Qed.

Lemma effective_policy_witness :
  Action (default (MkRow "" "" "") (cf_Matrix parsed !! "bash"%string)) "known"%string = "deny"%string
  ∧ known_action (Action (MkRow "allow" "" "") "known") = true.
Proof.
  split; [vm_compute; reflexivity|].
  apply (effective_policy sample_decode ""%string parsed sample_parses) with (capability := "bash"%string).
  vm_compute; reflexivity.
Defined.
