(* ===== verification/Stream.v ===== *)
(** * The engine's output stream (src/internal/engine/stream.go)

    The child's stdout arrives in chunks of any size; [Write] cuts it into
    lines and [consumeLine] reads each line as a stream-json event.  Bytes are
    [list Z]. *)
From Stdlib Require Import SpecFloat.
From S2P Require Import Prelude Utf8 Json Schema Events.
Local Open Scope Z_scope.

(** ** Data *)

Definition lineCap : Z := 4 * 1024 * 1024.

Record turnStats : Type := MkStats {
  ts_buf : list Z;
  ts_discarding : bool;
  ts_output : list string;       (* the calls of the Output sink *)
  ts_model : string;
  ts_toolCalls : Z;
  ts_resultSeen : bool;
  ts_resultOK : bool;
  ts_durationMS : Z;
  ts_costUSD : float64;
  ts_inputTokens : Z;
  ts_outputTokens : Z;
}.

Definition new_stats : turnStats :=
  MkStats [] false [] "" 0 false false 0 (S754_zero false) 0 0.

Definition set_buf (buf : list Z) (discarding : bool) (s : turnStats) : turnStats :=
  MkStats buf discarding (ts_output s) (ts_model s) (ts_toolCalls s) (ts_resultSeen s) (ts_resultOK s)
    (ts_durationMS s) (ts_costUSD s) (ts_inputTokens s) (ts_outputTokens s).

(** ** One line *)

Definition block_fields : list (string * gtype) := [("type", GString); ("text", GString)]%string.
Definition message_fields : list (string * gtype) := [("content", GSlice (GStruct block_fields))]%string.
Definition usage_fields : list (string * gtype) :=
  [("input_tokens", GInt64); ("output_tokens", GInt64)]%string.
Definition stream_fields : list (string * gtype) :=
  [("type", GString); ("subtype", GString); ("model", GString);
   ("message", GStruct message_fields); ("is_error", GBool); ("duration_ms", GInt64);
   ("total_cost_usd", GFloat64); ("usage", GStruct usage_fields)]%string.

(** An element of content: its type and its text. *)
Definition read_block (v : json) : string * string :=
  let kvs := match v with JObj kvs => kvs | _ => [] end in
  (str_field block_fields "type" kvs, str_field block_fields "text" kvs).

(** Of an event that names message.content twice, Go decodes the second array
    over the elements of the first; that case alone is not followed. *)
Definition content_blocks (kvs : list (string * json)) : list (string * string) :=
  map read_block (slice_field message_fields "content" (struct_field stream_fields "message" kvs)).

Definition block_is (type : string) (b : string * string) : bool := String.eqb b.1 type.

Definition message_text (blocks : list (string * string)) : string :=
  String.concat "" (map snd (List.filter (block_is "text") blocks)).

(** The body of consumeLine; the buffer is the caller's to reset.  [relay]: the
    turn has an Output sink. *)
Definition consumeLine (relay : bool) (line : list Z) (s : turnStats) : turnStats :=
  match unmarshal stream_fields (of_bytes line) with
  | None => s
  | Some kvs =>
      let str name := str_field stream_fields name kvs in
      if String.eqb (str "type") "system" then
        if String.eqb (str "subtype") "init" && negb (empty (str "model")) then
          MkStats (ts_buf s) (ts_discarding s) (ts_output s) (str "model") (ts_toolCalls s)
            (ts_resultSeen s) (ts_resultOK s) (ts_durationMS s) (ts_costUSD s) (ts_inputTokens s)
            (ts_outputTokens s)
        else s
      else if String.eqb (str "type") "assistant" then
        let blocks := content_blocks kvs in
        let text := message_text blocks in
        MkStats (ts_buf s) (ts_discarding s)
          (if relay && negb (empty text) then ts_output s ++ [text] else ts_output s) (ts_model s)
          (ts_toolCalls s + Z.of_nat (length (List.filter (block_is "tool_use") blocks)))
          (ts_resultSeen s) (ts_resultOK s) (ts_durationMS s) (ts_costUSD s) (ts_inputTokens s)
          (ts_outputTokens s)
      else if String.eqb (str "type") "result" then
        let usage := struct_field stream_fields "usage" kvs in
        MkStats (ts_buf s) (ts_discarding s) (ts_output s) (ts_model s) (ts_toolCalls s) true
          (negb (bool_field stream_fields "is_error" kvs) && String.eqb (str "subtype") "success")
          (int_field stream_fields "duration_ms" kvs) (float_field stream_fields "total_cost_usd" kvs)
          (int_field usage_fields "input_tokens" usage) (int_field usage_fields "output_tokens" usage)
      else s
  end%string.

(** ** Write *)

(** [bytes.IndexByte(p, '\n')]: the bytes before the first newline and those
    after it. *)
Fixpoint cut_newline (p : list Z) : option (list Z * list Z) :=
  match p with
  | [] => None
  | b :: r =>
      if Z.eqb b 10 then Some ([], r)
      else match cut_newline r with Some (line, rest) => Some (b :: line, rest) | None => None end
  end.

Definition too_long (buf p : list Z) : bool :=
  Z.ltb lineCap (Z.of_nat (length buf) + Z.of_nat (length p)).

(** The bytes after the last newline of a chunk. *)
Definition keep_partial (p : list Z) (s : turnStats) : turnStats :=
  if ts_discarding s then s
  else if too_long (ts_buf s) p then set_buf [] true s
  else set_buf (ts_buf s ++ p) false s.

(** A line's last bytes: consumed unless the line outgrew the cap. *)
Definition end_line (relay : bool) (line : list Z) (s : turnStats) : turnStats :=
  if ts_discarding s then set_buf (ts_buf s) false s
  else if too_long (ts_buf s) line then set_buf [] false s
  else set_buf [] false (consumeLine relay (ts_buf s ++ line) s).

Fixpoint write_loop (relay : bool) (fuel : nat) (p : list Z) (s : turnStats) : turnStats :=
  match fuel with
  | O => s
  | S fuel' =>
      match p with
      | [] => s
      | _ => match cut_newline p with
             | None => keep_partial p s
             | Some (line, rest) => write_loop relay fuel' rest (end_line relay line s)
             end
      end
  end.

(** Every byte is always accepted.  A round consumes at least the newline. *)
Definition Write (relay : bool) (p : list Z) (s : turnStats) : Z * turnStats :=
  (Z.of_nat (length p), write_loop relay (S (length p)) p s).

(** What run reads after the child exits, the partial line left out. *)
Definition snapshot (s : turnStats) : turnStats := set_buf [] false s.

(** ** The reference: lines of the whole stream *)

Fixpoint split_lines (p : list Z) : list (list Z) * list Z :=
  match p with
  | [] => ([], [])
  | b :: r =>
      let '(lines, last) := split_lines r in
      if Z.eqb b 10 then ([] :: lines, last)
      else match lines with
           | [] => ([], b :: last)
           | l :: lines' => ((b :: l) :: lines', last)
           end
  end.

Definition fits (line : list Z) : bool := Z.leb (Z.of_nat (length line)) lineCap.

(** Every complete line within the cap is read, in order, and nothing else. *)
Definition read_stream (relay : bool) (stream : list Z) : turnStats :=
  foldl (λ s line, consumeLine relay line s) new_stats
    (List.filter fits (split_lines stream).1).

(** ** Lemmas *)

Lemma consumeLine_set_buf relay line buf d s :
  consumeLine relay line (set_buf buf d s) = set_buf buf d (consumeLine relay line s).
Proof.
  unfold consumeLine. destruct (unmarshal stream_fields _) as [kvs|]; [|done].
  destruct (String.eqb _ "system"); [by destruct (_ && _)|].
  destruct (String.eqb _ "assistant"); [done|]. by destruct (String.eqb _ "result").
Qed.

Lemma set_buf_set_buf buf d buf' d' s : set_buf buf d (set_buf buf' d' s) = set_buf buf d s.
Proof. done. Qed.

Lemma cut_newline_None p : cut_newline p = None → 10 ∉ p.
Proof.
  induction p as [|b p IH]; simpl; [intros _ ?%elem_of_nil; done|].
  destruct (Z.eqb_spec b 10) as [|Hb]; [done|]. destruct (cut_newline p) as [[? ?]|]; [done|].
  intros _ [?|?]%elem_of_cons; [congruence|]. by apply IH.
Qed.

Lemma cut_newline_Some p line rest :
  cut_newline p = Some (line, rest) → p = line ++ 10 :: rest ∧ 10 ∉ line.
Proof.
  revert line. induction p as [|b p IH]; intros line; simpl; [done|].
  destruct (Z.eqb_spec b 10) as [->|Hb]; [intros [= <- <-]; split; [done|by intros ?%elem_of_nil]|].
  destruct (cut_newline p) as [[l r]|]; [|done]. intros [= <- <-].
  destruct (IH l eq_refl) as [-> Hl]. split; [done|]. intros [?|?]%elem_of_cons; [congruence|done].
Qed.

(** Appending bytes without a newline extends the last line. *)
Lemma split_lines_nonl p : 10 ∉ p → split_lines p = ([], p).
Proof.
  induction p as [|b p IH]; intros Hn; [done|]. simpl. apply not_elem_of_cons in Hn as [Hb Hn].
  rewrite IH by done. by rewrite (proj2 (Z.eqb_neq b 10)) by congruence.
Qed.

Lemma split_lines_app a b :
  split_lines (a ++ b)
  = match (split_lines b).1 with
    | [] => ((split_lines a).1, (split_lines a).2 ++ (split_lines b).2)
    | l :: ls => ((split_lines a).1 ++ ((split_lines a).2 ++ l) :: ls, (split_lines b).2)
    end.
Proof.
  induction a as [|x a IH]; simpl.
  - destruct (split_lines b) as [[|l ls] last]; done.
  - rewrite IH. destruct (split_lines a) as [la lasta], (split_lines b) as [lb lastb]. cbn [fst snd].
    destruct lb as [|l ls], (Z.eqb x 10), la as [|l1 la]; reflexivity.
Qed.

Lemma split_lines_end a line :
  10 ∉ line →
  split_lines (a ++ line ++ [10]) = ((split_lines a).1 ++ [(split_lines a).2 ++ line], []).
Proof.
  intros Hn. rewrite split_lines_app, (split_lines_app line), (split_lines_nonl line) by done.
  simpl. by rewrite app_nil_r.
Qed.

(** What the collector holds after a stream: the lines read, and the partial
    line unless it outgrew the cap. *)
Definition holds (relay : bool) (stream : list Z) (s : turnStats) : Prop :=
  let last := (split_lines stream).2 in
  s = (if fits last then set_buf last false (read_stream relay stream)
       else set_buf [] true (read_stream relay stream)).

Lemma too_long_fits buf p : too_long buf p = negb (fits (buf ++ p)).
Proof.
  unfold too_long, fits. rewrite length_app, Nat2Z.inj_add, Z.leb_antisym.
  by rewrite negb_involutive.
Qed.

Lemma fits_prefix buf p : fits buf = false → fits (buf ++ p) = false.
Proof. unfold fits. rewrite !Z.leb_gt, length_app. lia. Qed.

Lemma keep_partial_holds relay stream p s :
  10 ∉ p → holds relay stream s → holds relay (stream ++ p) (keep_partial p s).
Proof.
  intros Hn ->. unfold holds, read_stream. rewrite split_lines_app, (split_lines_nonl p) by done. cbn [fst snd].
  set (last := (split_lines stream).2). unfold keep_partial. destruct (fits last) eqn:Hf.
  - cbn [ts_discarding ts_buf set_buf]. rewrite too_long_fits. by destruct (fits (last ++ p)).
  - cbn [ts_discarding set_buf]. by rewrite fits_prefix.
Qed.

Lemma read_stream_end relay stream line :
  10 ∉ line →
  read_stream relay (stream ++ line ++ [10])
  = let l := (split_lines stream).2 ++ line in
    if fits l then consumeLine relay l (read_stream relay stream) else read_stream relay stream.
Proof.
  intros Hn. unfold read_stream. rewrite split_lines_end by done. cbn [fst].
  rewrite List.filter_app, foldl_app. simpl. by destruct (fits _).
Qed.

Lemma end_line_holds relay stream line s :
  10 ∉ line → holds relay stream s →
  holds relay (stream ++ line ++ [10]) (end_line relay line s).
Proof.
  intros Hn ->. unfold holds. rewrite read_stream_end, split_lines_end by done. cbn [snd].
  change (fits []) with true. cbv zeta iota.
  set (last := (split_lines stream).2). unfold end_line. destruct (fits last) eqn:Hf.
  - cbn [ts_discarding ts_buf set_buf]. rewrite too_long_fits.
    destruct (fits (last ++ line)); cbn [negb]; [|done]. rewrite consumeLine_set_buf. done.
  - cbn [ts_discarding ts_buf set_buf]. by rewrite fits_prefix.
Qed.

Lemma write_loop_holds relay fuel : ∀ p stream s,
  (length p < fuel)%nat → holds relay stream s → holds relay (stream ++ p) (write_loop relay fuel p s).
Proof.
  induction fuel as [|fuel IH]; intros p stream s Hf Hs; [lia|]. cbn [write_loop].
  destruct p as [|b p']; [by rewrite app_nil_r|]. set (p := b :: p') in *.
  destruct (cut_newline p) as [[line rest]|] eqn:Hc.
  - apply cut_newline_Some in Hc as [Hp Hn]. rewrite Hp. rewrite Hp, length_app in Hf. simpl in Hf.
    replace (stream ++ line ++ 10 :: rest) with ((stream ++ line ++ [10]) ++ rest)
      by (by rewrite <-!app_assoc).
    apply IH; [lia|]. by apply end_line_holds.
  - apply keep_partial_holds; [by apply cut_newline_None|done].
Qed.

Definition write_all (relay : bool) (chunks : list (list Z)) : turnStats :=
  foldl (λ s p, (Write relay p s).2) new_stats chunks.

Lemma write_all_holds relay chunks : holds relay (concat chunks) (write_all relay chunks).
Proof.
  unfold write_all. change (concat chunks) with ([] ++ concat chunks).
  assert (H0 : holds relay [] new_stats) by done. revert H0.
  generalize new_stats as s, (@nil Z) as stream.
  induction chunks as [|p chunks IH]; intros s stream Hs; cbn [foldl concat]; [by rewrite app_nil_r|].
  rewrite app_assoc. apply IH. apply write_loop_holds; [lia|done].
Qed.

Lemma holds_bounded relay stream s : holds relay stream s → Z.of_nat (length (ts_buf s)) ≤ lineCap.
Proof.
  unfold holds. intros ->. destruct (fits _) eqn:Hf; cbn [ts_buf set_buf]; [by apply Z.leb_le|].
  unfold lineCap. simpl. lia.
Qed.

Lemma holds_snapshot relay stream s : holds relay stream s → snapshot s = read_stream relay stream.
Proof.
  unfold holds. intros ->. assert (Hr : snapshot (read_stream relay stream) = read_stream relay stream).
  { unfold read_stream. assert (Hn : snapshot new_stats = new_stats) by done. revert Hn.
    generalize new_stats. induction (List.filter _ _) as [|l ls IH]; intros s0 Hs; [done|]. cbn [foldl].
    apply IH. unfold snapshot in *. by rewrite <-consumeLine_set_buf, Hs. }
  rewrite <-Hr at 3. by destruct (fits _).
Qed.

(** ** Property *)

(** C30: the collector does not depend on how the output is cut.  However the
    child's stdout is split into writes, every byte is accepted, what the turn
    record reads equals the reference that splits the whole stream into lines
    and reads the complete ones within the cap in order (so an overlong line
    costs itself and nothing after it), and at no point are more than lineCap
    bytes retained. *)
Theorem stream_chunking relay chunks :
  snapshot (write_all relay chunks) = read_stream relay (concat chunks)
  ∧ (∀ n, Z.of_nat (length (ts_buf (write_all relay (take n chunks)))) ≤ lineCap)
  ∧ ∀ p s, (Write relay p s).1 = Z.of_nat (length p).
Proof.
  split_and!; [apply holds_snapshot, write_all_holds|intros n; eapply holds_bounded, write_all_holds|done].
Qed.
