(* ===== verification/Admin.v ===== *)
(** * The admin socket and the commands that reach it
    (src/internal/admin/admin.go, the verbs of cli/daemon.go, cli/cli.go)

    One line per connection.  [handle] is the server's half over the daemon's
    hooks, [runAdminVerb] and its callers are the client's half; the socket,
    the lock file and the accept loop are in [AdminServer].  A reply is one
    constructor per kind of line the server writes; [wire] is the line, with the
    text behind an err's verdict left open. *)
From S2P Require Import Prelude Utf8 JsonRound Schema Events Stream.
Local Open Scope Z_scope.

(** ** Integers *)

(** strconv.ParseInt(s, 10, 64): a sign, then decimal digits, within range. *)
Definition ParseInt (s : string) : option Z :=
  let '(neg, ds) := match bytes s with
                    | 45 :: r => (true, r)
                    | 43 :: r => (false, r)
                    | r => (false, r)
                    end in
  match ds with
  | [] => None
  | _ =>
      if forallb (between 48 57) ds then
        let n := fold_left (λ acc d, acc * 10 + (d - 48)) ds 0 in
        let v := if (neg : bool) then - n else n in
        if Z.leb int64_min v && Z.leb v int64_max then Some v else None
      else None
  end.

(** The test both halves make of an event id. *)
Definition event_id (s : string) : option Z :=
  match ParseInt s with
  | Some id => if Z.leb id 0 then None else Some id
  | None => None
  end.

(** ** The server *)

Inductive reply : Type :=
| ROk                                   (* ok *)
| RStatus (body : string)               (* ok {...} *)
| RDraining                             (* ok draining *)
| RDone (name : string) (id : Z)        (* ok <name> <id> *)
| RNotWired (name : string)             (* err ... is not wired *)
| RBadID (name arg : string)            (* err ... wants a positive event id *)
| RRefused (name : string) (id : Z) (e : err)  (* err <name> <id>: ... *)
| RStatusFailed                         (* err status: ... *)
| RInternal                             (* err internal error *)
| RUnknown (verb : string).             (* err unknown command ... *)

Definition reply_ok (r : reply) : bool :=
  match r with ROk | RStatus _ | RDraining | RDone _ _ => true | _ => false end.

(** The bytes of a reply; [said]: what an err says. *)
Definition reply_line (said : reply → string) (r : reply) : string :=
  match r with
  | ROk => "ok"
  | RStatus body => "ok " +:+ body
  | RDraining => "ok draining"
  | RDone name id => "ok " +:+ name +:+ " " +:+ pretty id
  | _ => "err " +:+ said r
  end%string.
Definition wire (said : reply → string) (r : reply) : list Z := bytes (reply_line said r) ++ [10].

(** A hook runs on the daemon's state; [None] is a panic. *)
Definition hook (D A : Type) : Type := D → option A * D.

Record Options (D : Type) : Type := MkOptions {
  OnPoke : option (hook D unit);
  Status : option (hook D (option string));    (* the marshalled fields *)
  OnRetry : option (Z → hook D (result err unit));
  OnDeadRequeue : option (Z → hook D (result err unit));
  OnDeadDiscard : option (Z → hook D (result err unit));
}.
Arguments MkOptions {D}.
Arguments OnPoke {D}.
Arguments Status {D}.
Arguments OnRetry {D}.
Arguments OnDeadRequeue {D}.
Arguments OnDeadDiscard {D}.

Definition maxRequestLine : nat := 256.

(** The request line: a newline within the first maxRequestLine bytes, or the
    connection is dropped without a reply. *)
Definition read_line (input : list Z) : option (list Z) :=
  match cut_newline (take maxRequestLine input) with
  | Some (line, _) => Some line
  | None => None
  end.

(** The argument of an argumented verb: what follows the word and a space, or
    nothing for the bare word. *)
Definition verb_arg (name verb : string) : option string :=
  match strip_prefix (bytes name ++ [32]) (bytes verb) with
  | Some arg => Some (of_bytes arg)
  | None => if String.eqb verb name then Some verb else None
  end.

Section server.
Context {D : Type} (opts : Options D).

(** Panics are recovered in [handle]: the state is what the hook left. *)
Definition run_hook {A} (h : hook D A) (k : A → reply) (d : D) : reply * D :=
  match h d with
  | (Some a, d') => (k a, d')
  | (None, d') => (RInternal, d')
  end.

Definition handleIDVerb (name arg : string) (handler : option (Z → hook D (result err unit))) (d : D)
    : reply * D :=
  match handler with
  | None => (RNotWired name, d)
  | Some f =>
      match event_id (TrimSpace arg) with
      | None => (RBadID name arg, d)
      | Some id => run_hook (f id) (λ r, match r with Ok _ => RDone name id | Err e => RRefused name id e end) d
      end
  end.

(** The dispatch on the verb; [true]: the drain was requested. *)
Definition dispatch (verb : string) (d : D) : reply * bool * D :=
  let plain (x : reply * D) := (x.1, false, x.2) in
  match verb_arg "retry" verb with
  | Some arg => plain (handleIDVerb "retry" arg (OnRetry opts) d)
  | None =>
  match verb_arg "dead-requeue" verb with
  | Some arg => plain (handleIDVerb "dead-requeue" arg (OnDeadRequeue opts) d)
  | None =>
  match verb_arg "dead-discard" verb with
  | Some arg => plain (handleIDVerb "dead-discard" arg (OnDeadDiscard opts) d)
  | None =>
      if String.eqb verb "poke" then
        plain (match OnPoke opts with None => (ROk, d) | Some h => run_hook h (λ _, ROk) d end)
      else if String.eqb verb "status" then
        plain (match Status opts with
               | None => (RStatus "{}", d)
               | Some h => run_hook h (λ body, match body with Some b => RStatus b | None => RStatusFailed end) d
               end)
      else if String.eqb verb "drain" then (RDraining, true, d)
      else (RUnknown verb, false, d)
  end end end%string.

(** One connection: the reply, if any. *)
Definition handle (input : list Z) (d : D) : option reply * bool * D :=
  match read_line input with
  | None => (None, false, d)
  | Some line => let '(r, drain, d') := dispatch (of_bytes line) d in (Some r, drain, d')
  end.
End server.

(** ** The client *)

(** Go's flag package, for string flags: the settings and what is left. *)
Fixpoint cut_eq (s : string) : string * option string :=
  match s with
  | EmptyString => (EmptyString, None)
  | String "=" r => (EmptyString, Some r)
  | String c r => let '(n, v) := cut_eq r in (String c n, v)
  end.

Fixpoint parse_flags (fuel : nat) (names : list string) (set : list (string * string)) (args : list string)
    : option (list (string * string) * list string) :=
  match fuel, args with
  | _, [] => Some (set, [])
  | O, _ => None
  | S fuel', s :: args' =>
      match s with
      | String "-" (String c r) =>
          let name := if Ascii.eqb c "-" then r else String c r in
          if String.eqb s "--" then Some (set, args')
          else match name with
               | EmptyString | String "-" _ | String "=" _ => None
               | _ =>
                   let '(name, value) := cut_eq name in
                   if bool_decide (name ∈ names) then
                     match value, args' with
                     | Some v, _ => parse_flags fuel' names ((name, v) :: set) args'
                     | None, v :: args'' => parse_flags fuel' names ((name, v) :: set) args''
                     | None, [] => None
                     end
                   else None
               end
      | _ => Some (set, s :: args')
      end
  end.

Definition flag_value (set : list (string * string)) (name dflt : string) : string :=
  match List.find (λ kv : string * string, String.eqb kv.1 name) set with
  | Some kv => kv.2
  | None => dflt
  end.

(** How a command ended: its exit code, and the request it sent and where. *)
Record command_run : Type := MkRun {
  cr_code : Z;
  cr_sent : option (string * string);     (* socket path, request line *)
}.

(** Request: [conn] is the other end, given the request's bytes; what came back
    until the connection or its deadline ended, or [None] if nothing could be
    sent.  The first line is the reply. *)
Definition Request (conn : list Z → option (list Z)) (verb : string) : option string :=
  input ← conn (bytes verb ++ [10]);
  match cut_newline input with
  | Some (line, _) => Some (of_bytes line)
  | None => None
  end.

(** The client's prefix test. *)
Definition says_err (reply : string) : bool :=
  match strip_prefix (bytes "err ") (bytes reply) with Some _ => true | None => false end.

Section client.
(** [dial]: who answers at a socket. *)
Context (defaultSocket : string) (dial : string → list Z → option (list Z)).

Definition runAdminVerb (line : string) (args : list string) : command_run :=
  match parse_flags (length args) ["socket"]%string [] args with
  | None => MkRun 2 None
  | Some (set, []) =>
      let socket := flag_value set "socket" defaultSocket in
      match Request (dial socket) line with
      | None => MkRun 1 (Some (socket, line))
      | Some reply => MkRun (if says_err reply then 1 else 0) (Some (socket, line))
      end
  | Some (_, _ :: _) => MkRun 2 None
  end.

Definition id_line (verb : string) (id : Z) : string := verb +:+ " " +:+ pretty id.

Definition runRetry (args : list string) : command_run :=
  match args with
  | [] => MkRun 2 None
  | a :: rest =>
      match event_id a with
      | None => MkRun 2 None
      | Some id => runAdminVerb (id_line "retry" id) rest
      end
  end.

Definition runDead (args : list string) : command_run :=
  match args with
  | action :: a :: rest =>
      let send verb := match event_id a with
                       | None => MkRun 2 None
                       | Some id => runAdminVerb (id_line verb id) rest
                       end in
      if String.eqb action "requeue" then send "dead-requeue"%string
      else if String.eqb action "discard" then send "dead-discard"%string
      else MkRun 2 None
  | _ => MkRun 2 None
  end.

(** runConfig: [load] is whether config.Load accepts the file. *)
Definition runConfig (load : string → bool) (args : list string) : command_run :=
  match args with
  | ["check"; path] => MkRun (if load path then 0 else 1) None
  | _ => MkRun 2 None
  end%string.

(** The binary's entry, the daemon itself a parameter. *)
Definition Run (load : string → bool) (daemon : list string → Z) (args : list string) : command_run :=
  match args with
  | [] => MkRun 2 None
  | cmd :: rest =>
      if String.eqb cmd "version" then MkRun 0 None
      else if String.eqb cmd "config" then runConfig load rest
      else if String.eqb cmd "daemon" then MkRun (daemon rest) None
      else if bool_decide (cmd ∈ ["poke"; "status"; "drain"]) then runAdminVerb cmd rest
      else if String.eqb cmd "retry" then runRetry rest
      else if String.eqb cmd "dead" then runDead rest
      else MkRun 2 None
  end%string.
End client.

(** ** Lemmas *)

Lemma digits_value_nonneg ds : Forall is_digit ds → 0 ≤ digits_value ds.
Proof.
  induction 1 as [|d ds Hd _ IH]; [done|]. unfold digits_value in *. cbn [fold_left].
  rewrite fold_digits. unfold is_digit, digits_value in *.
  pose proof (Z.pow_nonneg 10 (Z.of_nat (length ds))). nia.
Qed.

(** A positive id's decimal: digits, not too many of them. *)
Lemma pretty_id (id : Z) :
  0 < id ≤ int64_max →
  Forall is_digit (bytes (pretty id)) ∧ (length (bytes (pretty id)) ≤ 19)%nat
  ∧ bytes (pretty id) ≠ [] ∧ digits_value (bytes (pretty id)) = id.
Proof.
  intros Hid. destruct (pretty_Z_bytes id) as (sign & ds & Hb & Hc & Hs).
  destruct (canonical_digits ds Hc) as (Hds & d0 & t0 & He & Hd0).
  pose proof (digits_value_nonneg ds Hds).
  destruct Hs as [[-> Hv]|[-> Hv]]; [|lia]. cbn [app] in Hb. rewrite Hb.
  split_and!; [done| |by rewrite He|done].
  destruct Hc as [->|(d & ds' & -> & Hd & Hds')]; [simpl; lia|].
  cbn [length]. unfold digits_value in Hv. cbn [fold_left] in Hv. rewrite fold_digits in Hv.
  pose proof (digits_value_nonneg ds' Hds').
  assert (Hp : 10 ^ Z.of_nat (length ds') ≤ id).
  { pose proof (Z.pow_nonneg 10 (Z.of_nat (length ds'))). nia. }
  destruct (decide (length ds' ≤ 18)%nat) as [?|Hgt]; [lia|]. exfalso.
  assert (10 ^ 19 ≤ 10 ^ Z.of_nat (length ds')) by (apply Z.pow_le_mono_r; lia).
  unfold int64_max in Hid. lia.
Qed.

Lemma ParseInt_pretty (id : Z) : 0 < id ≤ int64_max → ParseInt (pretty id) = Some id.
Proof.
  intros Hid. destruct (pretty_id id Hid) as (Hds & _ & Hne & Hv). unfold ParseInt.
  assert (Hall : forallb (between 48 57) (bytes (pretty id)) = true).
  { apply forallb_forall. intros x Hx%list_elem_of_In. rewrite Forall_forall in Hds.
    specialize (Hds x Hx). unfold is_digit in Hds. by rewrite between_true_2. }
  destruct (bytes (pretty id)) as [|d ds] eqn:Hb; [done|].
  assert (Hm : (match d :: ds with 45 :: r => (true, r) | 43 :: r => (false, r) | r => (false, r) end)
               = (false, d :: ds)).
  { assert (48 ≤ d ≤ 57) as Hd by (inversion Hds; done).
    assert (d = 48 ∨ d = 49 ∨ d = 50 ∨ d = 51 ∨ d = 52 ∨ d = 53 ∨ d = 54 ∨ d = 55 ∨ d = 56 ∨ d = 57)
      as Hcase by lia.
    by repeat (destruct Hcase as [-> | Hcase]; [done|]); subst. }
  rewrite Hm, Hall. fold (digits_value (d :: ds)). rewrite Hv.
  unfold int64_min, int64_max in *. by rewrite (proj2 (Z.leb_le _ _)), (proj2 (Z.leb_le _ _)) by lia.
Qed.

Lemma event_id_pretty (id : Z) : 0 < id ≤ int64_max → event_id (TrimSpace (pretty id)) = Some id.
Proof.
  intros Hid. destruct (pretty_id id Hid) as (Hds & _). unfold event_id.
  rewrite TrimSpace_graphic by (eapply Forall_impl; [exact Hds|unfold is_digit; simpl; lia]).
  rewrite ParseInt_pretty by done. by rewrite (proj2 (Z.leb_gt _ _)) by lia.
Qed.

Lemma event_id_range s id : event_id s = Some id → 0 < id ≤ int64_max.
Proof.
  unfold event_id. destruct (ParseInt s) as [n|] eqn:Hp; [|done].
  destruct (Z.leb_spec n 0); [done|]. intros [= ->]. split; [lia|]. revert Hp. unfold ParseInt.
  destruct (bytes s) as [|b r]; [done|]. cbv zeta.
  destruct (match b :: r with 45 :: r => (true, r) | 43 :: r => (false, r) | r => (false, r) end) as [neg ds].
  destruct ds as [|d ds]; [done|]. destruct (forallb _ _); [|done].
  destruct (_ && _) eqn:Hb; [|done]. intros [= <-]. apply andb_true_iff in Hb as [_ Hb%Z.leb_le]. done.
Qed.

Lemma cut_newline_end line : 10 ∉ line → cut_newline (line ++ [10]) = Some (line, []).
Proof.
  induction line as [|b line IH]; intros Hn; [done|]. apply not_elem_of_cons in Hn as [Hb Hn]. simpl.
  rewrite (proj2 (Z.eqb_neq b 10)) by congruence. by rewrite IH.
Qed.

Lemma strip_prefix_app p r : strip_prefix p (p ++ r) = Some r.
Proof. induction p as [|x p IH]; [done|]. simpl. by rewrite Z.eqb_refl. Qed.

(** The line a command sends is the line the server reads. *)
Lemma read_id_line verb id :
  0 < id ≤ int64_max → 10 ∉ bytes verb → (length (bytes verb) ≤ 200)%nat →
  read_line (bytes (id_line verb id) ++ [10]) = Some (bytes (id_line verb id)).
Proof.
  intros Hid Hn Hl. destruct (pretty_id id Hid) as (Hds & Hlen & _). unfold read_line, id_line.
  rewrite !bytes_app. rewrite take_ge.
  - rewrite cut_newline_end; [done|]. rewrite !not_elem_of_app. split; [done|]. split.
    + cbn. by intros ?%list_elem_of_singleton.
    + intros Hin. rewrite Forall_forall in Hds. specialize (Hds _ Hin). unfold is_digit in Hds. lia.
  - rewrite !length_app. cbn. unfold maxRequestLine. lia.
Qed.

Lemma verb_arg_id name id : verb_arg name (id_line name id) = Some (pretty id).
Proof.
  unfold verb_arg, id_line. rewrite !bytes_app.
  change (bytes " ") with [32]. rewrite app_assoc, strip_prefix_app. by rewrite of_bytes_bytes.
Qed.

Section server_lemmas.
Context {D : Type} (opts : Options D).

(** What the hook of an id verb answers, and the state it leaves. *)
Definition id_answer (name : string) (handler : option (Z → hook D (result err unit))) (id : Z) (d : D)
    : reply * D :=
  match handler with
  | None => (RNotWired name, d)
  | Some f => run_hook (f id) (λ r, match r with Ok _ => RDone name id | Err e => RRefused name id e end) d
  end.

Lemma handleIDVerb_pretty name (id : Z) handler d :
  0 < id ≤ int64_max → handleIDVerb name (pretty id) handler d = id_answer name handler id d.
Proof. intros Hid. unfold handleIDVerb, id_answer. by rewrite event_id_pretty. Qed.

Lemma verb_arg_other name name' id :
  (name, name') ∈ [("retry", "dead-requeue"); ("retry", "dead-discard"); ("dead-requeue", "dead-discard")]%string →
  verb_arg name (id_line name' id) = None.
Proof.
  unfold id_line. generalize (pretty id) as s. intros s Hin.
  repeat (apply elem_of_cons in Hin as [[= -> ->]|Hin]; [reflexivity|]). by apply elem_of_nil in Hin.
Qed.

(** The request line of an id verb reaches that verb's hook with that id. *)
Lemma handle_id_verb name handler id d :
  0 < id ≤ int64_max →
  (name, handler) ∈ [("retry"%string, OnRetry opts); ("dead-requeue"%string, OnDeadRequeue opts);
                     ("dead-discard"%string, OnDeadDiscard opts)] →
  handle opts (bytes (id_line name id) ++ [10]) d
  = let '(r, d') := id_answer name handler id d in (Some r, false, d').
Proof.
  intros Hid Hin. unfold handle.
  assert (Hread : read_line (bytes (id_line name id) ++ [10]) = Some (bytes (id_line name id))).
  { repeat (apply elem_of_cons in Hin as [[= -> ->]|Hin];
      [apply read_id_line; [done|eapply bool_decide_eq_true_1; reflexivity|vm_compute; lia]|]).
    by apply elem_of_nil in Hin. }
  rewrite Hread, of_bytes_bytes. unfold dispatch.
  repeat (apply elem_of_cons in Hin as [[= -> ->]|Hin];
    [rewrite ?(verb_arg_other "retry" "dead-requeue"), ?(verb_arg_other "retry" "dead-discard"),
       ?(verb_arg_other "dead-requeue" "dead-discard"), verb_arg_id, handleIDVerb_pretty
       by (done || (repeat (apply elem_of_cons; (by left) || right)));
     by destruct (id_answer _ _ _ _)|]).
  by apply elem_of_nil in Hin.
Qed.
End server_lemmas.

(** What one connection may do to the daemon's state: nothing, or one call of
    one hook, an id hook only with a positive 64-bit id. *)
Inductive one_hook {D} (opts : Options D) (d : D) : D → Prop :=
| oh_none : one_hook opts d d
| oh_poke h : OnPoke opts = Some h → one_hook opts d (h d).2
| oh_status h : Status opts = Some h → one_hook opts d (h d).2
| oh_id f id : OnRetry opts = Some f ∨ OnDeadRequeue opts = Some f ∨ OnDeadDiscard opts = Some f →
    0 < id ≤ int64_max → one_hook opts d (f id d).2.

Lemma run_hook_state {D A} (h : hook D A) k d : (run_hook h k d).2 = (h d).2.
Proof. unfold run_hook. by destruct (h d) as [[]]. Qed.

Lemma handleIDVerb_one {D} (opts : Options D) name arg handler d :
  (∀ f, handler = Some f → OnRetry opts = Some f ∨ OnDeadRequeue opts = Some f ∨ OnDeadDiscard opts = Some f) →
  one_hook opts d (handleIDVerb name arg handler d).2.
Proof.
  intros Hh. unfold handleIDVerb. destruct handler as [f|]; [|constructor].
  destruct (event_id (TrimSpace arg)) as [id|] eqn:He; [|constructor]. rewrite run_hook_state.
  econstructor; [by apply Hh|by eapply event_id_range].
Qed.

Lemma dispatch_one {D} (opts : Options D) verb d : one_hook opts d (dispatch opts verb d).2.
Proof.
  unfold dispatch.
  destruct (verb_arg "retry" verb); [apply handleIDVerb_one; auto|].
  destruct (verb_arg "dead-requeue" verb); [apply handleIDVerb_one; auto|].
  destruct (verb_arg "dead-discard" verb); [apply handleIDVerb_one; auto|].
  destruct (String.eqb verb "poke").
  { destruct (OnPoke opts) as [h|] eqn:Hh; [|constructor]. cbn [snd]. rewrite run_hook_state. by constructor. }
  destruct (String.eqb verb "status").
  { destruct (Status opts) as [h|] eqn:Hh; [|constructor]. cbn [snd]. rewrite run_hook_state. by constructor. }
  destruct (String.eqb verb "drain"); constructor.
Qed.

Lemma runAdminVerb_sent sock dial line args x :
  cr_sent (runAdminVerb sock dial line args) = Some x →
  x.2 = line ∧ (cr_code (runAdminVerb sock dial line args) = 0
                ↔ ∃ r, Request (dial x.1) line = Some r ∧ says_err r = false).
Proof.
  unfold runAdminVerb. destruct (parse_flags _ _ _ _) as [[set [|a rest]]|]; [|done|done].
  destruct (Request _ line) as [r|] eqn:Hr; cbn [cr_sent cr_code]; intros [= <-]; cbn [fst snd]; rewrite Hr.
  - split; [done|]. destruct (says_err r) eqn:Ho; split; try done; [|by eexists].
    intros (r' & [= <-] & ?). congruence.
  - split; [done|]. split; [done|]. by intros (? & ? & _).
Qed.

(** ** Lemmas: a reply on the wire *)

(** The first line starts as what was sent starts. *)
Lemma cut_newline_head p line rest : 10 ∉ p →
  ∃ l r, cut_newline ((p ++ line) ++ 10 :: rest) = Some (p ++ l, r) ∧ l `prefix_of` line.
Proof.
  induction p as [|b p IH]; intros Hn; cbn.
  - clear Hn. induction line as [|b line IH]; [by exists [], rest|]. cbn.
    destruct (Z.eqb b 10); [by exists [], (line ++ 10 :: rest); split; [|apply prefix_nil]|].
    destruct IH as (l & r & -> & Hp). exists (b :: l), r. split; [done|]. by apply prefix_cons.
  - apply not_elem_of_cons in Hn as [Hb Hn]. rewrite (proj2 (Z.eqb_neq b 10)) by congruence.
    destruct (IH Hn) as (l & r & -> & Hp). by exists l, r.
Qed.

(** Whatever the texts say, the client reads the server's verdict. *)
Lemma Request_verdict said r rest verb conn :
  conn (bytes verb ++ [10]) = Some (wire said r ++ rest) →
  ∃ reply, Request conn verb = Some reply ∧ says_err reply = negb (reply_ok r).
Proof.
  intros Hc. unfold Request. rewrite Hc. cbn [mbind option_bind]. unfold wire. rewrite <-app_assoc. cbn [app].
  assert (Hp : ∃ t, reply_line said r = (if reply_ok r then "ok" else "err ")%string +:+ t).
  { destruct r; cbn [reply_line reply_ok];
      first [by exists EmptyString|by exists " draining"%string|by eexists]. }
  destruct Hp as [t ->]. rewrite bytes_app.
  set (p := if reply_ok r then "ok"%string else "err "%string).
  assert (Hn : 10 ∉ bytes p) by (subst p; by destruct (reply_ok r); apply (bool_decide_unpack _)).
  destruct (cut_newline_head _ (bytes t) rest Hn) as (l & x & -> & [l' Hl]). pose proof (bytes_Forall t) as Hb.
  rewrite Hl in Hb. apply Forall_app in Hb as [Hb _].
  eexists. split; [reflexivity|]. unfold says_err.
  rewrite bytes_of_bytes by (apply Forall_app; split; [apply bytes_Forall|done]).
  subst p. by destruct (reply_ok r).
Qed.

(** ** Property *)

