(* ===== verification/Surface.v ===== *)
(** * Notices composed into the outbox (src/internal/delivery/surface.go)

    The park notice and the death notice.  Both are INSERT ... SELECT
    statements whose key comes from the row they announce, so the composed key
    always names the episode the park or the death wrote. *)
From S2P Require Import Prelude Schema Events Deliveries.
Local Open Scope Z_scope.

(** ** Definitions *)

(** [claims.AcquireTarget]: a nil table never waits; otherwise an empty target
    is refused and the wait can end with the context's error, which the fault
    stream supplies. Mutual exclusion itself is the subject of [InFlight]. *)
Definition AcquireTarget (gated : bool) (target : string) : StoreM unit :=
  if negb gated then mret tt
  else if empty target then refuse (EInvalid "acquire empty target")
  else stmt (λ d, Ok (tt, d)).

(** INSERT INTO deliveries (delivery_key, target, payload) SELECT ... ON
    CONFLICT DO NOTHING, for at most one selected row. *)
Definition insert_notice (sel : db → option (string * string)) (target : string)
    (d : db) : result err (unit * db) :=
  match sel d with
  | None => Ok (tt, d)
  | Some (key, payload) =>
      match insert_delivery_sql key None target payload d with
      | Ok (_, d') => Ok (tt, d')
      | Err e => Err e
      end
  end.

Definition interrupted_payload (ev : QueuedEvent) : string :=
  "A turn on this thread was interrupted mid-run (event " +:+ qe_DedupKey ev
  +:+ ") — its side effects are unknown, so it was not re-run automatically. Reply with a retry request or run `approach retry "
  +:+ pretty (qe_ID ev) +:+ "` to re-queue it (§4.6).".

(** The row the park notice selects. *)
Definition select_interrupted (ev : QueuedEvent) (d : db) : option (string * string) :=
  match events d !! qe_ID ev with
  | Some e =>
      if has_status [Interrupted] e
      then Some (interrupted_key (er_dedup_key e) (er_parks e), interrupted_payload ev)
      else None
  | None => None
  end.

Definition SurfaceInterruptedCoordinated (gated : bool) (ev : QueuedEvent) : StoreM unit :=
  _ ← AcquireTarget gated (qe_ThreadKey ev);
  stmt (insert_notice (select_interrupted ev) (qe_ThreadKey ev)).

Definition SurfaceInterrupted (ev : QueuedEvent) : StoreM unit :=
  SurfaceInterruptedCoordinated false ev.

(** SELECT native_id ... WHERE channel = 'discord' AND trust = 'owner'
    ORDER BY native_id LIMIT 1. *)
Definition string_min (a b : string) : string :=
  match String.compare a b with Gt => b | _ => a end.

Definition owner_native_ids (d : db) : list string :=
  omap (λ kv : (string * string) * ident_row,
    if String.eqb kv.1.1 "discord" && String.eqb (id_trust kv.2) "owner"
    then Some kv.1.2 else None) (map_to_list (identities d)).

Definition first_owner (d : db) : option string :=
  match owner_native_ids d with
  | [] => None
  | x :: xs => Some (fold_left string_min xs x)
  end.

Definition dead_payload (dedup reason : string) (id : Z) : string :=
  "An event could not be processed and was dead-lettered (event " +:+ dedup
  +:+ ", reason: " +:+ reason +:+ ") — the machine gave up; you decide (§4.6). Run 'approach dead requeue "
  +:+ pretty id +:+ "' or 'approach dead discard " +:+ pretty id +:+ "'.".

Definition select_dead (ev : QueuedEvent) (d : db) : option (string * string) :=
  match dead_letters d !! qe_ID ev, events d !! qe_ID ev with
  | Some r, Some e =>
      if bool_decide (dd_resolution r = None)
      then Some (dead_key (er_dedup_key e) (dd_entries r),
                 dead_payload (er_dedup_key e) (dd_reason r) (qe_ID ev))
      else None
  | _, _ => None
  end.

Definition SurfaceDeadLetterCoordinated (gated : bool) (ev : QueuedEvent) : StoreM unit :=
  owner ← query first_owner;
  match owner with
  | None => refuse ENoRows
  | Some nativeID =>
      let target := ("discord:dm:" +:+ nativeID)%string in
      _ ← AcquireTarget gated target;
      stmt (insert_notice (select_dead ev) target)
  end.

Definition SurfaceDeadLetter (ev : QueuedEvent) : StoreM unit :=
  SurfaceDeadLetterCoordinated false ev.
