(* ===== verification/StoreSpec.v ===== *)
(** * What the store promises: an abstract transition system

    [astep] lists the transitions the schema comments and the doc comments of
    src/internal/store allow: the event lifecycle ([ev_edge]), the outbox, the
    journal, dead letters, sessions, identities and turns.  [run_op] is the
    whole mutating surface of the store package and of delivery/surface.go;
    [op_refines] shows that, whatever SQL calls fail, an operation only takes
    abstract steps.  The invariants of [StoreInv] are about [astep], so they
    hold of the code through this file. *)
From S2P Require Import Prelude Utf8 Json Trust Schema Events Deliveries ToolAttempts.
From S2P Require Import DeadLetters Sessions Identities Turns Surface.
Local Open Scope Z_scope.

(** ** Row conditions *)

(** What an accepted event carries, and its payload mirrors. *)
Record event_ok (e : event_row) : Prop := EventOk {
  eo_kind : kind_check (er_kind e) = true;
  eo_trust : event_trust_check (er_trust e) = true;
  eo_dedup : er_dedup_key e ≠ ""%string;
  eo_thread : er_thread_key e ≠ ""%string;
  eo_received : 0 < er_received e;
  eo_correlation : er_correlation e ≠ Some (er_dedup_key e);
  eo_payload : ∃ kvs, unmarshal payload_fields (er_payload e) = Some kvs
    ∧ str_field payload_fields "dedup_key" kvs = er_dedup_key e
    ∧ str_field payload_fields "thread_key" kvs = er_thread_key e
    ∧ str_field payload_fields "kind" kvs = er_kind e
    ∧ str_field payload_fields "trust" kvs = er_trust e;
}.

(** A session row as it is born, against the rows already there. *)
Record session_new (m : gmap string session_row) (r : session_row) : Prop := SessionNew {
  sn_status : sr_status r = Creating;
  sn_link : sr_rotated_to r = None;
  sn_clean : sr_tainted r = false;
  sn_floor : floor_check (sr_trust_floor r) = true;
  sn_window : ∃ dl, sr_activation_deadline r = Some dl ∧ 0 < sr_created_at r < dl;
  sn_origin : isWorkerThreadKey (sr_thread_key r) = true → sr_origin r ≠ None;
  sn_thread : ∀ k r', m !! k = Some r' → live r' = true → sr_thread_key r' ≠ sr_thread_key r;
  sn_worker : ∀ k r', m !! k = Some r' → live r' = true →
    like_task (sr_thread_key r) = true → like_task (sr_thread_key r') = true →
    sr_cwd r' ≠ sr_cwd r;
}.

(** A turn row: usage is known as a whole or not at all. *)
Record turn_ok (r : turn_row) : Prop := TurnOk {
  to_outcome : turnOutcomes (tr_outcome r) = true;
  to_usage : (∃ i o c, tr_input_tokens r = Some i ∧ tr_output_tokens r = Some o
                ∧ tr_cost_usd r = Some c ∧ 0 ≤ i ∧ 0 ≤ o
                ∧ f64_is_nan c = false ∧ f64_is_inf c = false ∧ f64_lt0 c = false)
    ∨ (tr_input_tokens r = None ∧ tr_output_tokens r = None ∧ tr_cost_usd r = None);
  to_calls : 0 ≤ tr_tool_calls r ∧ 0 ≤ tr_duration_ms r;
}.

(** ** Transitions *)

(** The event lifecycle: [ev_edge d id e st attempts parks] is a move of row
    [e] to status [st] with these counters. Death is [as_die]; its reversal by a
    human, [as_revive]. *)
Inductive ev_edge (d : db) (id : Z) (e : event_row) : ev_status → Z → Z → Prop :=
| ee_claim : er_status e = Received →
    ev_edge d id e Processing (er_attempts e) (er_parks e)
| ee_complete : er_status e = Processing →
    ev_edge d id e Completed (er_attempts e) (er_parks e)
| ee_skip : er_status e = Processing →
    ev_edge d id e Skipped (er_attempts e) (er_parks e)
| ee_reply : er_status e = Processing ∨ er_status e = Completed →
    all_bound_acked id d = true →
    ev_edge d id e Replied (er_attempts e) (er_parks e)
| ee_retry : er_status e = Processing → er_attempts e < maxEventRetries →
    exists_row (unkeyed_for id) (tool_attempts d) = false →
    ev_edge d id e Received (er_attempts e + 1) (er_parks e)
| ee_park : er_status e = Received ∨ er_status e = Processing →
    ev_edge d id e Interrupted (er_attempts e) (er_parks e + 1)
| ee_unpark : er_status e = Interrupted →
    ev_edge d id e Received (er_attempts e) (er_parks e).

(** A session's move between states without a successor. *)
Inductive ss_edge : ss_status → ss_status → Prop :=
| se_activate : ss_edge Creating Active
| se_fail : ss_edge Creating SFailed.

(** A session's retirement in favour of a successor. *)
Inductive retire_edge : ss_status → ss_status → Prop :=
| re_rotate : retire_edge Active Rotated
| re_resume_failed : retire_edge Active ResumeFailed
| re_expire : retire_edge Creating SFailed.

Definition bound_ok (d : db) (eid : option Z) : Prop :=
  match eid with
  | None => True
  | Some i => ∃ e, events d !! i = Some e ∧ er_status e ≠ Replied
  end.

Definition journal_ok (d : db) (a : attempt_row) : Prop :=
  ∃ s, sessions d !! ta_session_id a = Some s
  ∧ match ta_event_id a with
    | None => True
    | Some i => ∃ e, events d !! i = Some e ∧ er_status e = Processing
                     ∧ er_thread_key e = sr_thread_key s
    end.

Inductive astep (d : db) : db → Prop :=
| as_receive id e :
    0 < id → events d !! id = None → (∀ k x, events d !! k = Some x → k < id) →
    event_ok e → er_status e = Received → er_attempts e = 0 → er_parks e = 0 →
    (∀ k x, events d !! k = Some x → er_dedup_key x ≠ er_dedup_key e) →
    astep d (set_events (<[id := e]> (events d)) d)
| as_event id e st a p now :
    events d !! id = Some e → ev_edge d id e st a p →
    astep d (set_events (<[id := event_upd st a p (Some now) e]> (events d)) d)
| as_die id e reason now :
    events d !! id = Some e → er_status e = Processing ∨ er_status e = Interrupted →
    reason_check reason = true →
    astep d (set_dead_letters
      (<[id := DeadRow reason now None None
                 (match dead_letters d !! id with Some r => dd_entries r + 1 | None => 1 end)]>
         (dead_letters d))
      (set_events (<[id := event_status_upd Dead now e]> (events d)) d))
| as_revive id e r now :
    events d !! id = Some e → er_status e = Dead →
    dead_letters d !! id = Some r → dd_resolution r = None →
    astep d (set_events (<[id := event_status_upd Received now e]> (events d))
      (set_dead_letters (<[id := dead_upd (dd_acked r) (Some Requeued) r]> (dead_letters d)) d))
| as_discard id r :
    dead_letters d !! id = Some r → dd_resolution r = None →
    astep d (set_dead_letters (<[id := dead_upd (dd_acked r) (Some Discarded) r]> (dead_letters d)) d)
| as_ack_dead id r now :
    dead_letters d !! id = Some r → dd_resolution r = None → dd_acked r = None →
    astep d (set_dead_letters (<[id := dead_upd (Some now) None r]> (dead_letters d)) d)
| as_compose id key eid target payload :
    deliveries d !! id = None → (∀ k x, deliveries d !! k = Some x → k < id) →
    (∀ k x, deliveries d !! k = Some x → dr_delivery_key x ≠ key) →
    bound_ok d eid →
    astep d (set_deliveries (<[id := pending_row key eid target payload]> (deliveries d)) d)
| as_attempt id r now :
    deliveries d !! id = Some r → owed r = true →
    astep d (set_deliveries (<[id := delivery_upd (dr_status r) (dr_attempts r + 1)
                                       (Some now) (dr_acked r) r]> (deliveries d)) d)
| as_sent id r now :
    deliveries d !! id = Some r → owed r = true →
    astep d (set_deliveries (<[id := delivery_upd Sent (dr_attempts r)
                                       (dr_last_attempt r) (Some now) r]> (deliveries d)) d)
| as_give_up id r :
    deliveries d !! id = Some r → owed r = true →
    astep d (set_deliveries (<[id := delivery_upd Failed (dr_attempts r)
                                       (dr_last_attempt r) (dr_acked r) r]> (deliveries d)) d)
| as_journal id a :
    tool_attempts d !! id = None → ta_state_ a = TStarted → ta_ended_at a = None →
    journal_ok d a →
    astep d (set_tool_attempts (<[id := a]> (tool_attempts d)) d)
| as_journal_end id a st endedAt :
    tool_attempts d !! id = Some a → ta_state_ a = TStarted → st ≠ TStarted →
    astep d (set_tool_attempts (<[id := AttemptRow (ta_session_id a) (ta_event_id a)
      (ta_tool a) (ta_args_digest a) (ta_idempotency_key a) st (ta_started_at a)
      (Some endedAt)]> (tool_attempts d)) d)
| as_session sid r :
    sessions d !! sid = None → session_new (sessions d) r →
    astep d (set_sessions (<[sid := r]> (sessions d)) d)
| as_session_move sid r st :
    sessions d !! sid = Some r → ss_edge (sr_status r) st →
    astep d (set_sessions (<[sid := set_session_status st r]> (sessions d)) d)
| as_retire old r st sid r' :
    sessions d !! old = Some r → retire_edge (sr_status r) st →
    sessions d !! sid = None → sr_thread_key r' = sr_thread_key r →
    session_new (<[old := set_session_status st r]> (sessions d)) r' →
    astep d (set_sessions (<[old := link_session sid (set_session_status st r)]>
                             (<[sid := r']> (sessions d))) d)
| as_touch sid r now :
    sessions d !! sid = Some r →
    astep d (set_sessions (<[sid := session_upd (sr_status r) (sr_rotated_to r) (Some now)
      (Some (default 0 (sr_turns r) + 1)) (sr_tainted r) r]> (sessions d)) d)
| as_taint sid r :
    sessions d !! sid = Some r →
    astep d (set_sessions (<[sid := session_upd (sr_status r) (sr_rotated_to r)
      (sr_last_seen r) (sr_turns r) true r]> (sessions d)) d)
| as_seed m :
    (∀ k r, m !! k = Some r → ident_check r = true) →
    astep d (set_identities m d)
| as_turn id r s :
    turns d !! id = None → turn_ok r → sessions d !! tr_session_id r = Some s →
    astep d (set_turns (<[id := r]> (turns d)) d).

(** ** The mutating operations *)

Inductive store_op : Type :=
| OInsertEvent (ev : StoreEvent)
| OParkEvent (id now : Z)
| OMarkEventProcessing (id now : Z)
| OMarkEventCompleted (id now : Z)
| OMarkEventCompletedReconciled (id now : Z)
| OSkipEvent (id now : Z)
| ORequeueEventForRetry (id now : Z)
| ORequeueInterruptedEvent (id now : Z)
| OInsertDelivery (dv : Delivery)
| OInsertDeliveries (ds : list Delivery)
| OMarkDeliveryAttempt (id now : Z)
| OAckDelivery (id now : Z)
| OMarkDeliveryFailed (id : Z)
| OInsertToolAttempt (a : ToolAttempt)
| OCompleteToolAttempt (id : Z) (outcome : string) (endedAt : Z)
| ODeadLetterEvent (id : Z) (reason : string) (now : Z)
| OAckDeadLetter (id now : Z)
| OResolveDeadLetterRequeue (id now : Z)
| OResolveDeadLetterDiscard (id : Z)
| OInsertSession (fs : filesystem) (s : Session)
| OActivateSession (sid : string)
| OFailSession (sid : string)
| ORotateSession (fs : filesystem) (old : string) (s : Session)
| OResumeFailSession (fs : filesystem) (old : string) (s : Session)
| OExpireSession (fs : filesystem) (old : string) (s : Session)
| OTouchSession (sid : string) (now : Z)
| OMarkSessionTainted (sid : string)
| OSeedIdentities (ids : list Identity)
| OInsertTurn (t : Turn)
| OSurfaceInterrupted (gated : bool) (ev : QueuedEvent)
| OSurfaceDeadLetter (gated : bool) (ev : QueuedEvent).

(** The answer is dropped: only the effect on the store matters here. *)
Definition void {A} (m : StoreM A) : StoreM unit := _ ← m; mret tt.

Definition run_op (op : store_op) : StoreM unit :=
  match op with
  | OInsertEvent ev => void (InsertEvent ev)
  | OParkEvent id now => ParkEvent id now
  | OMarkEventProcessing id now => MarkEventProcessing id now
  | OMarkEventCompleted id now => MarkEventCompleted id now
  | OMarkEventCompletedReconciled id now => MarkEventCompletedReconciled id now
  | OSkipEvent id now => SkipEvent id now
  | ORequeueEventForRetry id now => RequeueEventForRetry id now
  | ORequeueInterruptedEvent id now => void (RequeueInterruptedEvent id now)
  | OInsertDelivery dv => void (InsertDelivery dv)
  | OInsertDeliveries ds => void (InsertDeliveries ds)
  | OMarkDeliveryAttempt id now => MarkDeliveryAttempt id now
  | OAckDelivery id now => AckDelivery id now
  | OMarkDeliveryFailed id => MarkDeliveryFailed id
  | OInsertToolAttempt a => void (InsertToolAttempt a)
  | OCompleteToolAttempt id outcome endedAt => CompleteToolAttempt id outcome endedAt
  | ODeadLetterEvent id reason now => DeadLetterEvent id reason now
  | OAckDeadLetter id now => AckDeadLetter id now
  | OResolveDeadLetterRequeue id now => void (ResolveDeadLetterRequeue id now)
  | OResolveDeadLetterDiscard id => ResolveDeadLetterDiscard id
  | OInsertSession fs s => void (InsertSession fs s)
  | OActivateSession sid => ActivateSession sid
  | OFailSession sid => FailSession sid
  | ORotateSession fs old s => void (RotateSession fs old s)
  | OResumeFailSession fs old s => void (ResumeFailSession fs old s)
  | OExpireSession fs old s => void (ExpireSession fs old s)
  | OTouchSession sid now => TouchSession sid now
  | OMarkSessionTainted sid => MarkSessionTainted sid
  | OSeedIdentities ids => SeedIdentities ids
  | OInsertTurn t => void (InsertTurn t)
  | OSurfaceInterrupted gated ev => SurfaceInterruptedCoordinated gated ev
  | OSurfaceDeadLetter gated ev => SurfaceDeadLetterCoordinated gated ev
  end.

(** A life of the store: operations one after another, each answered or
    failed, the caller going on either way. *)
Fixpoint run_ops (ops : list store_op) : StoreM unit :=
  match ops with
  | [] => mret tt
  | op :: ops' => _ ← try (run_op op); run_ops ops'
  end.

(** ** Lemmas: one per operation *)

(** The effect of a program on the store is a run of abstract steps. *)
Definition steps {A} (m : StoreM A) : Prop := ∀ d, wpd m (λ _ d', rtc astep d d') d.

Lemma steps_void {A} (m : StoreM A) : steps m → steps (void m).
Proof.
  intros H d. unfold void. apply wpd_bind. eapply wpd_mono; [apply H|].
  intros [a|e] d' ?; [by apply wpd_ret|done].
Qed.

Lemma steps_ret {A} (a : A) : steps (mret a).
Proof. intros d. by apply wpd_ret. Qed.

Lemma steps_refuse {A} e : steps (refuse (A := A) e).
Proof. intros d. by apply wpd_refuse. Qed.

Lemma steps_query {A} (f : db → A) : steps (query f).
Proof. intros d. by apply wpd_query. Qed.

Lemma steps_bind {A B} (m : StoreM A) (f : A → StoreM B) :
  steps m → (∀ a, steps (f a)) → steps (m ≫= f).
Proof.
  intros Hm Hf d. apply wpd_bind. eapply wpd_mono; [apply Hm|].
  intros [a|e] d' Hd; [|done]. eapply wpd_mono; [apply Hf|].
  intros r d'' ?. by etrans.
Qed.

Lemma steps_try {A} (m : StoreM A) : steps m → steps (try m).
Proof. intros H d. apply wpd_try. apply H. Qed.

Lemma steps_stmt {A} (f : db → result err (A * db)) :
  (∀ d a d', f d = Ok (a, d') → rtc astep d d') → steps (stmt f).
Proof.
  intros H d. apply wpd_stmt; [done|]. destruct (f d) as [[a d']|e] eqn:E; [|done].
  by eapply H.
Qed.

Lemma steps_exec (f : db → Z * db) :
  (∀ d n d', f d = (n, d') → rtc astep d d') → steps (exec f).
Proof. intros H d. apply wpd_exec; [done|]. eauto. Qed.

Lemma steps_in_tx {A} (body : StoreM (bool * A)) : steps body → steps (in_tx body).
Proof.
  intros H d. apply wpd_in_tx; [done|]. eapply wpd_mono; [apply H|].
  intros [[[] a]|e] d' ?; done.
Qed.

Create HintDb steps.
#[export] Hint Resolve steps_void steps_ret steps_refuse steps_query steps_bind
  steps_try steps_in_tx : steps.

(** A program made of queries, refusals and single-step statements. *)
Ltac steps :=
  repeat first
    [ apply steps_bind; [|intros ?]
    | apply steps_ret | apply steps_refuse | apply steps_query
    | apply steps_void | apply steps_in_tx
    | match goal with
      | |- steps (if ?b then _ else _) => destruct b
      | |- steps (match ?x with _ => _ end) => destruct x
      end ].

Lemma steps_event id g f :
  (∀ d e, events d !! id = Some e → g e = true →
     astep d (set_events (<[id := f e]> (events d)) d)) →
  steps (exec (upd_event id g f)).
Proof. intros H. apply steps_exec. intros d n d' Hu. upd_cases; [done|]. by apply rtc_once, H. Qed.

Lemma steps_delivery id g f :
  (∀ d r, deliveries d !! id = Some r → g r = true →
     astep d (set_deliveries (<[id := f r]> (deliveries d)) d)) →
  steps (exec (upd_delivery id g f)).
Proof. intros H. apply steps_exec. intros d n d' Hu. upd_cases; [done|]. by apply rtc_once, H. Qed.

Lemma steps_session id g f :
  (∀ d r, sessions d !! id = Some r → g r = true →
     astep d (set_sessions (<[id := f r]> (sessions d)) d)) →
  steps (exec (upd_session id g f)).
Proof. intros H. apply steps_exec. intros d n d' Hu. upd_cases; [done|]. by apply rtc_once, H. Qed.

Lemma steps_dead id g f :
  (∀ d r, dead_letters d !! id = Some r → g r = true →
     astep d (set_dead_letters (<[id := f r]> (dead_letters d)) d)) →
  steps (exec (upd_dead id g f)).
Proof. intros H. apply steps_exec. intros d n d' Hu. upd_cases; [done|]. by apply rtc_once, H. Qed.

Ltac in_status H :=
  let H' := fresh in
  pose proof (proj1 (has_status_true _ _) H) as H'; set_unfold in H';
  repeat match goal with H : _ ∨ _ |- _ => destruct H as [H|H] end; try done.

(** *** Queue *)

Lemma validatePayload_ok ev :
  validatePayload ev = Ok tt →
  ∃ kvs, unmarshal payload_fields (ev_Payload ev) = Some kvs
    ∧ str_field payload_fields "dedup_key" kvs = ev_DedupKey ev
    ∧ str_field payload_fields "thread_key" kvs = ev_ThreadKey ev
    ∧ str_field payload_fields "kind" kvs = ev_Kind ev
    ∧ str_field payload_fields "trust" kvs = ev_Trust ev.
Proof.
  unfold validatePayload. destruct (unmarshal _ _) as [kvs|]; [|done].
  intros H. exists kvs. repeat case_bool_decide; simpl in H; done.
Qed.

Lemma empty_false s : empty s = false → s ≠ ""%string.
Proof. unfold empty. by case_bool_decide. Qed.

Lemma event_validate_ok ev :
  event_validate ev = Ok tt → kind_check (ev_Kind ev) = true →
  event_trust_check (ev_Trust ev) = true → event_ok (received_row ev).
Proof.
  unfold event_validate. intros H Hk Ht.
  destruct (empty (ev_DedupKey ev)) eqn:?; [done|].
  destruct (empty (ev_ThreadKey ev)) eqn:?; [done|].
  destruct (empty (ev_Kind ev)); [done|]. destruct (empty (ev_Trust ev)); [done|].
  destruct (Z.leb_spec (ev_Received ev) 0); [done|].
  case_bool_decide as Hc; [done|].
  split; simpl; auto using empty_false, validatePayload_ok.
  unfold nullif_empty. case_bool_decide; congruence.
Qed.

Lemma InsertEvent_steps ev : steps (InsertEvent ev).
Proof.
  unfold InsertEvent. destruct (event_validate ev) as [[]|e] eqn:Hv; [|apply steps_refuse].
  apply steps_bind; [|intros [id|]; apply steps_ret].
  apply steps_stmt. unfold insert_event_row. intros d a d'.
  destruct (kind_check _) eqn:Hk; [|done]. destruct (event_trust_check _) eqn:Ht; [|done].
  simpl. destruct (exists_row _ _) eqn:Hd; [by intros; simplify_eq|].
  rewrite exists_row_false in Hd. intros [= <- <-]. apply rtc_once, as_receive; auto using next_id_pos.
  - apply next_id_fresh.
  - intros k x. apply next_id_gt.
  - by apply event_validate_ok.
  - intros k x Hk' Heq. specialize (Hd _ _ Hk'). unfold has_dedup in Hd.
    simpl in Heq. by rewrite Heq, String.eqb_refl in Hd.
Qed.

Lemma ParkEvent_steps id now : steps (ParkEvent id now).
Proof.
  unfold ParkEvent. steps. apply steps_event. intros d e He Hg.
  eapply as_event; [done|]. apply ee_park. in_status Hg; auto.
Qed.

Lemma event_status_steps id sts st now :
  (∀ d e, er_status e ∈ sts → ev_edge d id e st (er_attempts e) (er_parks e)) →
  steps (exec (upd_event id (has_status sts) (event_status_upd st now))).
Proof.
  intros H. apply steps_event. intros d e He Hg. eapply as_event; [done|].
  apply H. by apply has_status_true.
Qed.

Lemma MarkEventProcessing_steps id now : steps (MarkEventProcessing id now).
Proof.
  unfold MarkEventProcessing. steps. apply event_status_steps.
  intros d e Hst. apply ee_claim. by apply list_elem_of_singleton in Hst.
Qed.

Lemma MarkEventCompleted_steps id now : steps (MarkEventCompleted id now).
Proof.
  unfold MarkEventCompleted. steps. apply event_status_steps.
  intros d e Hst. apply ee_complete. by apply list_elem_of_singleton in Hst.
Qed.

Lemma SkipEvent_steps id now : steps (SkipEvent id now).
Proof.
  unfold SkipEvent. steps. apply event_status_steps.
  intros d e Hst. apply ee_skip. by apply list_elem_of_singleton in Hst.
Qed.

Lemma MarkEventCompletedReconciled_steps id now : steps (MarkEventCompletedReconciled id now).
Proof.
  unfold MarkEventCompletedReconciled. steps. apply steps_exec. intros d n d' Hu.
  upd_cases; [done|]. apply rtc_once. eapply as_event; [done|]. in_status H0.
  destruct (all_bound_acked id d) eqn:?; [apply ee_reply; auto|by apply ee_complete].
Qed.

Lemma RequeueEventForRetry_steps id now : steps (RequeueEventForRetry id now).
Proof.
  unfold RequeueEventForRetry. steps. apply steps_exec. intros d n d' Hu.
  upd_cases; [done|]. apply rtc_once.
  apply andb_true_iff in H0 as [[Hs Ha%Z.ltb_lt]%andb_true_iff Hk%negb_true_iff].
  in_status Hs. eapply as_event; [done|]. by apply ee_retry.
Qed.

Lemma RequeueInterruptedEvent_steps id now : steps (RequeueInterruptedEvent id now).
Proof.
  unfold RequeueInterruptedEvent. steps. apply event_status_steps.
  intros d e Hst. apply ee_unpark. by apply list_elem_of_singleton in Hst.
Qed.

(** *** Outbox *)

Lemma owed_spec r :
  owed r = true ↔ dr_acked r = None ∧ dr_status r ≠ Failed.
Proof.
  unfold owed. rewrite andb_true_iff, negb_true_iff, bool_decide_eq_true, bool_decide_eq_false.
  done.
Qed.

Lemma insert_delivery_sql_steps key eid target payload d a d' :
  insert_delivery_sql key eid target payload d = Ok (a, d') →
  event_sealed eid d = false → rtc astep d d'.
Proof.
  unfold insert_delivery_sql. destruct (exists_row _ _) eqn:Hk; [by intros; simplify_eq|].
  rewrite exists_row_false in Hk. intros H Hs.
  assert (Hins : bound_ok d eid → rtc astep d (set_deliveries
    (<[next_id (deliveries d) := pending_row key eid target payload]> (deliveries d)) d)).
  { intros Hb. apply rtc_once, as_compose; [apply next_id_fresh|intros k x; apply next_id_gt| |done].
    intros k x Hx Heq. specialize (Hk _ _ Hx). unfold has_delivery_key in Hk.
    by rewrite Heq, String.eqb_refl in Hk. }
  destruct eid as [i|]; simpl in *; [|by simplify_eq; apply Hins].
  destruct (events d !! i) as [e|] eqn:He; [|done]. simplify_eq. apply Hins.
  exists e. split; [done|]. intros Hr. unfold has_status in Hs.
  rewrite bool_decide_eq_false in Hs. set_solver.
Qed.

Lemma InsertDelivery_steps dv : steps (InsertDelivery dv).
Proof.
  unfold InsertDelivery. steps. apply steps_stmt. intros d o d'.
  unfold insert_delivery_row. destruct (event_sealed _ d) eqn:Hs; [by intros; simplify_eq|].
  intros H. by eapply insert_delivery_sql_steps.
Qed.

Lemma insert_all_steps ds ids : steps (insert_all ds ids).
Proof.
  revert ids. induction ds as [|dv ds IH]; intros ids; simpl; [apply steps_ret|].
  apply steps_bind; [apply InsertDelivery_steps|intros [id []]]; simpl; [done|apply steps_ret].
Qed.

Lemma InsertDeliveries_steps ds : steps (InsertDeliveries ds).
Proof. unfold InsertDeliveries. steps. apply insert_all_steps. Qed.

Lemma MarkDeliveryAttempt_steps id now : steps (MarkDeliveryAttempt id now).
Proof.
  unfold MarkDeliveryAttempt. steps. apply steps_delivery.
  intros d r Hr Ho. by apply as_attempt.
Qed.

Lemma MarkDeliveryFailed_steps id : steps (MarkDeliveryFailed id).
Proof.
  unfold MarkDeliveryFailed. steps. apply steps_delivery.
  intros d r Hr Ho. by apply as_give_up.
Qed.

(** The reply leg: an acked bound row witnesses the EXISTS half of the seal. *)
Lemma advance_replied_step eid now d m d' :
  advance_replied eid now d = (m, d') →
  exists_row (bound_to eid) (deliveries d) = true → rtc astep d d'.
Proof.
  unfold advance_replied. intros Hu Hb. upd_cases; [done|]. apply rtc_once.
  apply andb_true_iff in H0 as [Hs Hu]. in_status Hs.
  eapply as_event; [done|]. apply ee_reply; [auto|]. unfold all_bound_acked. by rewrite Hb, Hu.
Qed.

Lemma AckDelivery_steps id now : steps (AckDelivery id now).
Proof.
  unfold AckDelivery. apply steps_in_tx. intros d. wpd_step. wpd_step; [done|].
  upd_cases; simpl.
  { wpd_step. wpd_step; [done|]. wpd_step; [|by wpd_step].
    wpd_step; by wpd_step. }
  set (d1 := set_deliveries _ d).
  assert (Hd1 : astep d d1) by by apply as_sent.
  assert (Hl : ∀ k, k = id → ∃ r, deliveries d1 !! k = Some r ∧ dr_event_id r = dr_event_id x).
  { intros k ->. unfold d1. simpl. rewrite lookup_insert_eq. eauto. }
  wpd_step. wpd_step; [by apply rtc_once|].
  destruct (Hl id eq_refl) as (r & Hr & Heid). rewrite Hr.
  destruct (dr_event_id r) as [eid|] eqn:Hre; [|by wpd_step; apply rtc_once].
  wpd_step. wpd_step; [by apply rtc_once|].
  assert (Hrun : rtc astep d d').
  { eapply rtc_l; [done|]. eapply advance_replied_step; [done|].
    apply exists_row_true. exists id, r. split; [done|].
    unfold bound_to. by rewrite bool_decide_eq_true. }
  wpd_step; [|by wpd_step]. wpd_step. wpd_step; [done|].
  wpd_step; [|by wpd_step]. wpd_step; by wpd_step.
Qed.

(** *** Journal *)

Lemma InsertToolAttempt_steps a : steps (InsertToolAttempt a).
Proof.
  unfold InsertToolAttempt. steps. apply steps_stmt. intros d o d'.
  unfold insert_attempt_row. destruct (negb _) eqn:Hl; [by intros; simplify_eq|].
  apply negb_false_iff in Hl.
  destruct (sessions d !! _) as [s|] eqn:Hs; [|done]. intros [= <- <-].
  apply rtc_once, as_journal; [apply next_id_fresh|done..|].
  exists s. split; [done|]. simpl. destruct (nullif_zero _) as [i|]; [|done].
  unfold live_turn in Hl. rewrite Hs in Hl. destruct (events d !! i) as [e|]; [|done].
  apply andb_true_iff in Hl as [Ht%String.eqb_eq Hp]. in_status Hp. eauto.
Qed.

Lemma CompleteToolAttempt_steps id outcome endedAt :
  steps (CompleteToolAttempt id outcome endedAt).
Proof.
  unfold CompleteToolAttempt. destruct (outcome_state outcome) as [st|] eqn:Ho; [|apply steps_refuse].
  steps. apply steps_exec. intros d n d'. unfold complete_attempt.
  destruct (tool_attempts d !! id) as [a|] eqn:Ha; [|by intros; simplify_eq].
  case_bool_decide; intros [= <- <-]; [|done]. apply rtc_once, as_journal_end; [done..|].
  unfold outcome_state in Ho. repeat case_match; congruence.
Qed.

(** *** Dead letters *)

Lemma dead_open_spec r : dead_open r = true ↔ dd_resolution r = None.
Proof. unfold dead_open. apply bool_decide_eq_true. Qed.

Lemma DeadLetterEvent_steps id reason now : steps (DeadLetterEvent id reason now).
Proof.
  unfold DeadLetterEvent. destruct (negb _); [apply steps_refuse|].
  intros d. wpd_step; [done|]. wpd_step. wpd_step; [done|]. upd_cases; simpl.
  { wpd_step. wpd_step; [done|]. wpd_step; by wpd_step. }
  wpd_step. unfold upsert_dead. wpd_step; [done|]. simpl.
  destruct (reason_check reason) eqn:Hr; [|done].
  wpd_step. apply rtc_once.
  assert (Hd := as_die d id x reason now ltac:(done)). simpl in Hd.
  destruct (dead_letters d !! id); apply Hd; [in_status H0; auto|done|in_status H0; auto|done].
Qed.

Lemma AckDeadLetter_steps id now : steps (AckDeadLetter id now).
Proof.
  unfold AckDeadLetter. steps. apply steps_dead. intros d r Hr Hg.
  apply andb_true_iff in Hg as [Ha Ho]. apply dead_open_spec in Ho.
  unfold dead_unacked in Ha. apply bool_decide_eq_true in Ha. rewrite Ho. by apply as_ack_dead.
Qed.

Lemma ResolveDeadLetterDiscard_steps id : steps (ResolveDeadLetterDiscard id).
Proof.
  unfold ResolveDeadLetterDiscard. steps. apply steps_dead. intros d r Hr Ho%dead_open_spec.
  by apply as_discard.
Qed.

Lemma ResolveDeadLetterRequeue_steps id now : steps (ResolveDeadLetterRequeue id now).
Proof.
  unfold ResolveDeadLetterRequeue. intros d. wpd_step; [done|].
  wpd_step. wpd_step; [done|]. upd_cases; simpl; [by wpd_step|].
  apply dead_open_spec in H0. wpd_step. wpd_step; [done|]. upd_cases; simpl; [by wpd_step|].
  wpd_step. wpd_step; [done|]. simpl. rewrite lookup_insert_eq. wpd_step.
  in_status H2. apply rtc_once. by eapply as_revive.
Qed.

(** *** Sessions *)

(** What a validated session and a free slot give the new row. *)
Lemma creating_row_new s cwd d :
  session_validate s = Ok tt → floor_check (s_TrustFloor s) = true →
  session_conflict s cwd d = false →
  sessions d !! s_SessionID s = None ∧ session_new (sessions d) (creating_row s cwd).
Proof.
  unfold session_validate, session_conflict. intros Hv Hf Hc.
  destruct (sessions d !! s_SessionID s) eqn:Hs; [done|].
  apply orb_false_iff in Hc as [Ht Hw]. rewrite exists_row_false in Ht.
  repeat (case_match; [done|]).
  split; [done|]. split; simpl; auto.
  - exists (s_ActivationDeadline s). split; [done|lia].
  - intros Hk. unfold nullif_empty. case_bool_decide as He; [|done].
    rewrite Hk, He in *. done.
  - intros k r' Hr Hl Heq. specialize (Ht _ _ Hr). by rewrite Heq, String.eqb_refl, Hl in Ht.
  - intros k r' Hr Hl Hn Hn' Heq. rewrite Hn in Hw. simpl in Hw.
    rewrite exists_row_false in Hw. specialize (Hw _ _ Hr).
    by rewrite Heq, String.eqb_refl, Hl, Hn' in Hw.
Qed.

(** InsertSession in any store: nothing, or the one new row. *)
Lemma InsertSession_wpd fs s (Q : result err string → db → Prop) d :
  (∀ e, Q (Err e) d) →
  (∀ cwd, sessions d !! s_SessionID s = None → session_new (sessions d) (creating_row s cwd) →
     Q (Ok cwd) (set_sessions (<[s_SessionID s := creating_row s cwd]> (sessions d)) d)) →
  wpd (InsertSession fs s) Q d.
Proof.
  intros He Hok. unfold InsertSession.
  destruct (session_validate s) as [[]|?] eqn:Hv; [|by wpd_step].
  destruct (canonicalCwd fs (s_Cwd s)) as [cwd|?]; [|by wpd_step].
  wpd_step. wpd_step; [done|]. unfold insert_session_row.
  destruct (floor_check _) eqn:Hf; simpl; [|done].
  destruct (session_conflict s cwd d) eqn:Hc; [done|]. wpd_step.
  destruct (creating_row_new s cwd d) as [??]; auto.
Qed.

Lemma InsertSession_steps fs s : steps (InsertSession fs s).
Proof.
  intros d. apply InsertSession_wpd; [done|]. intros. by apply rtc_once, as_session.
Qed.

Lemma transitionCreating_steps sid to : ss_edge Creating to → steps (transitionCreating sid to).
Proof.
  intros Hto. unfold transitionCreating. steps. apply steps_session.
  intros d r Hr Hg. unfold in_session_status in Hg. apply bool_decide_eq_true in Hg.
  apply as_session_move; [done|]. by rewrite Hg.
Qed.

(** A retirement in any store: nothing, or the whole hand-over. *)
Lemma retireSession_wpd fs old s from retired guardErr (Q : result err string → db → Prop) d :
  (∀ e, Q (Err e) d) →
  (∀ cwd x, sessions d !! old = Some x → sr_status x = from →
     sr_thread_key x = s_ThreadKey s → sessions d !! s_SessionID s = None →
     session_new (<[old := set_session_status retired x]> (sessions d)) (creating_row s cwd) →
     Q (Ok cwd) (set_sessions (<[old := link_session (s_SessionID s) (set_session_status retired x)]>
                                 (<[s_SessionID s := creating_row s cwd]> (sessions d))) d)) →
  wpd (retireSession fs old s from retired guardErr) Q d.
Proof.
  intros He Hok. unfold retireSession. wpd_step; [done|]. wpd_step.
  wpd_step; [done|]. upd_cases; simpl; [by wpd_step|].
  apply andb_true_iff in H0 as [Hst Hth%String.eqb_eq].
  unfold in_session_status in Hst. apply bool_decide_eq_true in Hst.
  wpd_step. apply InsertSession_wpd; [done|]. simpl. intros cwd Hfree Hnew.
  apply lookup_insert_None in Hfree as [Hfree Hne].
  wpd_step. wpd_step; [done|]. unfold link_successor, upd_session. simpl.
  rewrite (lookup_insert_ne _ (s_SessionID s) old) by done.
  rewrite lookup_insert_eq, lookup_insert_eq. wpd_step.
  rewrite insert_insert_ne, insert_insert_eq, insert_insert_ne by done.
  by apply Hok.
Qed.

Lemma retireSession_steps fs old s from retired guardErr :
  retire_edge from retired → steps (retireSession fs old s from retired guardErr).
Proof.
  intros Hre d. apply retireSession_wpd; [done|]. intros cwd x Hx Hst Hth Hfree Hnew.
  apply rtc_once, (as_retire d old x retired (s_SessionID s)); auto. by rewrite Hst.
Qed.

Lemma TouchSession_steps sid now : steps (TouchSession sid now).
Proof. unfold TouchSession. steps. apply steps_session. intros d r Hr _. by apply as_touch. Qed.

Lemma MarkSessionTainted_steps sid : steps (MarkSessionTainted sid).
Proof. unfold MarkSessionTainted. steps. apply steps_session. intros d r Hr _. by apply as_taint. Qed.

(** *** Identities *)

Definition idents_ok (m : gmap (string * string) ident_row) : Prop :=
  ∀ k r, m !! k = Some r → ident_check r = true.

Lemma insert_identities_wpd ids d0 d (Q : result err unit → db → Prop) :
  idents_ok (identities d) → d = set_identities (identities d) d0 →
  (∀ e d', Q (Err e) d') →
  (∀ m, idents_ok m → Q (Ok tt) (set_identities m d0)) →
  wpd (insert_identities ids) Q d.
Proof.
  intros Hok Hd He HQ. revert d Hok Hd. induction ids as [|i ids IH]; intros d Hok Hd; simpl.
  { wpd_step. rewrite Hd. by apply HQ. }
  wpd_step. wpd_step; [done|]. unfold insert_identity.
  destruct (ident_check (ident_of i)) eqn:Hc; simpl; [|done].
  destruct (identities d !! _); [done|]. apply IH; simpl.
  - intros k r [[_ <-]|[_ Hk]]%lookup_insert_Some; [done|]. by eapply Hok.
  - by rewrite Hd.
Qed.

Lemma SeedIdentities_steps ids : steps (SeedIdentities ids).
Proof.
  intros d. unfold SeedIdentities. wpd_step; [done|]. wpd_step. wpd_step; [done|].
  wpd_step. eapply (insert_identities_wpd ids d); [|done|done|].
  - intros k r Hk. simpl in Hk. by rewrite lookup_empty in Hk.
  - intros m Hm. wpd_step. by apply rtc_once, as_seed.
Qed.

(** *** Turns *)

Lemma turn_row_of_ok t : turn_validate t = Ok tt → turn_ok (turn_row_of t).
Proof.
  unfold turn_validate. intros H.
  repeat match type of H with (if ?b then _ else _) = _ => destruct b eqn:?; [done|] end.
  repeat match goal with H : (_ || _) = false |- _ => apply orb_false_iff in H as [??] end.
  split; simpl.
  - by apply negb_false_iff.
  - destruct (t_UsageKnown t); [left|right; done].
    eexists _, _, _. split_and!; try done; lia.
  - lia.
Qed.

Lemma InsertTurn_steps t : steps (InsertTurn t).
Proof.
  unfold InsertTurn. destruct (turn_validate t) as [[]|e] eqn:Hv; [|apply steps_refuse].
  apply steps_stmt. unfold insert_turn_row. intros d a d'.
  destruct (negb _); [done|]. destruct (sessions d !! _) as [s|] eqn:Hs; [|done].
  intros [= <- <-]. apply rtc_once. eapply as_turn; [apply next_id_fresh| |done].
  by apply turn_row_of_ok.
Qed.

(** *** Notices *)

Lemma insert_notice_steps sel target : steps (stmt (insert_notice sel target)).
Proof.
  apply steps_stmt. unfold insert_notice. intros d a d'.
  destruct (sel d) as [[key payload]|]; [|by intros; simplify_eq].
  destruct (insert_delivery_sql _ _ _ _ d) as [[o d1]|e] eqn:Hi; [|done].
  intros [= <- <-]. by eapply insert_delivery_sql_steps.
Qed.

Lemma AcquireTarget_steps gated target : steps (AcquireTarget gated target).
Proof. unfold AcquireTarget. by steps. Qed.

Lemma SurfaceInterrupted_steps gated ev : steps (SurfaceInterruptedCoordinated gated ev).
Proof.
  unfold SurfaceInterruptedCoordinated. apply steps_bind; [apply AcquireTarget_steps|intros _].
  apply insert_notice_steps.
Qed.

Lemma SurfaceDeadLetter_steps gated ev : steps (SurfaceDeadLetterCoordinated gated ev).
Proof.
  unfold SurfaceDeadLetterCoordinated. apply steps_bind; [apply steps_query|intros [n|]].
  - apply steps_bind; [apply AcquireTarget_steps|intros _]. apply insert_notice_steps.
  - apply steps_refuse.
Qed.

#[export] Hint Resolve InsertEvent_steps ParkEvent_steps MarkEventProcessing_steps
  MarkEventCompleted_steps MarkEventCompletedReconciled_steps SkipEvent_steps
  RequeueEventForRetry_steps RequeueInterruptedEvent_steps InsertDelivery_steps
  InsertDeliveries_steps MarkDeliveryAttempt_steps AckDelivery_steps
  MarkDeliveryFailed_steps InsertToolAttempt_steps CompleteToolAttempt_steps
  DeadLetterEvent_steps AckDeadLetter_steps ResolveDeadLetterRequeue_steps
  ResolveDeadLetterDiscard_steps InsertSession_steps transitionCreating_steps
  retireSession_steps TouchSession_steps MarkSessionTainted_steps SeedIdentities_steps
  InsertTurn_steps SurfaceInterrupted_steps SurfaceDeadLetter_steps
  se_activate se_fail re_rotate re_resume_failed re_expire : steps.

Lemma run_op_steps op : steps (run_op op).
Proof.
  destruct op; simpl; auto with steps; try apply steps_void; auto with steps;
    try (apply transitionCreating_steps; auto with steps);
    try (apply retireSession_steps; auto with steps).
Qed.

Lemma run_ops_steps ops : steps (run_ops ops).
Proof.
  induction ops as [|op ops IH]; simpl; [apply steps_ret|].
  apply steps_bind; [apply steps_try, run_op_steps|done].
Qed.

(** ** Property *)

(** C7: the store package refines its specification.  Whatever mutating calls
    a program makes, in whatever order, and whichever of their SQL statements,
    transaction begins and commits fail, the database only moves along the
    abstract transitions of [astep]: no call writes a half transition, skips a
    guard, or moves a row along an edge the lifecycles do not have. *)
Theorem store_refines ops fs d :
  rtc astep d (w_db (run_ops ops (World d fs)).2).
Proof.
  pose proof (run_ops_steps ops d fs) as H. by destruct (run_ops ops (World d fs)).
Qed.
