(* ===== verification/StoreInv.v ===== *)
(** * Invariants and history of the store

    What every reachable store satisfies, and what no later operation can undo,
    proved over the abstract steps of [StoreSpec] and carried to the code by
    [run_ops_steps]. *)
From S2P Require Import Prelude Utf8 Json Trust Schema Events Deliveries ToolAttempts.
From S2P Require Import DeadLetters Sessions Identities Turns Surface StoreSpec.
Local Open Scope Z_scope.

(** ** History: rows grow, columns written once stay *)

(** Where an event's status may go, over any number of steps. *)
Definition ev_after (st st' : ev_status) : Prop :=
  match st with
  | Completed => st' = Completed ∨ st' = Replied
  | Replied => st' = Replied
  | Skipped => st' = Skipped
  | Received | Processing | Interrupted | Dead => True
  end.

Record event_grows (e e' : event_row) : Prop := EventGrows {
  eg_key : er_dedup_key e' = er_dedup_key e;
  eg_thread : er_thread_key e' = er_thread_key e;
  eg_stamp : (er_kind e', er_trust e', er_payload e', er_received e', er_correlation e')
             = (er_kind e, er_trust e, er_payload e, er_received e, er_correlation e);
  eg_attempts : er_attempts e ≤ er_attempts e';
  eg_parks : er_parks e ≤ er_parks e';
  eg_status : ev_after (er_status e) (er_status e');
}.

Record delivery_grows (r r' : delivery_row) : Prop := DeliveryGrows {
  dg_content : (dr_delivery_key r', dr_event_id r', dr_target r', dr_payload r')
               = (dr_delivery_key r, dr_event_id r, dr_target r, dr_payload r);
  dg_attempts : dr_attempts r ≤ dr_attempts r';
  dg_final : owed r = false → r' = r;
}.

Record session_grows (r r' : session_row) : Prop := SessionGrows {
  sg_pin : (sr_thread_key r', sr_cwd r', sr_origin r', sr_trust_floor r')
           = (sr_thread_key r, sr_cwd r, sr_origin r, sr_trust_floor r);
  sg_taint : sr_tainted r = true → sr_tainted r' = true;
  sg_live : live r' = true → live r = true;
  sg_active : sr_status r' = Creating → sr_status r = Creating;
  sg_retired : live r = false → sr_status r' = sr_status r ∧ sr_rotated_to r' = sr_rotated_to r;
}.

Record attempt_grows (a a' : attempt_row) : Prop := AttemptGrows {
  ag_call : (ta_session_id a', ta_event_id a', ta_tool a', ta_args_digest a',
             ta_idempotency_key a', ta_started_at a')
            = (ta_session_id a, ta_event_id a, ta_tool a, ta_args_digest a,
               ta_idempotency_key a, ta_started_at a);
  ag_final : ta_state_ a ≠ TStarted → a' = a;
}.

Definition dead_grows (r r' : dead_row) : Prop :=
  dd_entries r < dd_entries r'
  ∨ (dd_entries r' = dd_entries r ∧ dd_reason r' = dd_reason r ∧ dd_entered r' = dd_entered r
     ∧ (dd_resolution r ≠ None → r' = r) ∧ (dd_acked r ≠ None → dd_acked r' = dd_acked r)).

Record grows (d d' : db) : Prop := Grows {
  gr_events : map_grows event_grows (events d) (events d');
  gr_deliveries : map_grows delivery_grows (deliveries d) (deliveries d');
  gr_sessions : map_grows session_grows (sessions d) (sessions d');
  gr_attempts : map_grows attempt_grows (tool_attempts d) (tool_attempts d');
  gr_dead : map_grows dead_grows (dead_letters d) (dead_letters d');
  gr_turns : map_grows eq (turns d) (turns d');
}.

#[global] Instance event_grows_refl : Reflexive event_grows.
Proof. intros e. split; try done. destruct (er_status e); simpl; auto. Qed.
#[global] Instance event_grows_trans : Transitive event_grows.
Proof.
  intros x y z [] []. split; try congruence; try lia.
  destruct (er_status x), (er_status y); simpl in *; naive_solver.
Qed.
#[global] Instance delivery_grows_refl : Reflexive delivery_grows.
Proof. by intros r. Qed.
#[global] Instance delivery_grows_trans : Transitive delivery_grows.
Proof.
  intros x y z [c1 a1 f1] [c2 a2 f2]. split; [congruence|lia|].
  intros Ho. specialize (f1 Ho). subst. auto.
Qed.
#[global] Instance session_grows_refl : Reflexive session_grows.
Proof. by intros r. Qed.
#[global] Instance session_grows_trans : Transitive session_grows.
Proof.
  intros x y z [] []. split; try congruence; auto. intros Hl.
  destruct (live y) eqn:Hy; [exfalso; specialize (sg_live0 eq_refl); congruence|].
  destruct (sg_retired0 Hl), (sg_retired1 eq_refl). split; congruence.
Qed.
#[global] Instance attempt_grows_refl : Reflexive attempt_grows.
Proof. by intros r. Qed.
#[global] Instance attempt_grows_trans : Transitive attempt_grows.
Proof.
  intros x y z [c1 f1] [c2 f2]. split; [congruence|].
  intros Hs. specialize (f1 Hs). subst. auto.
Qed.
#[global] Instance dead_grows_refl : Reflexive dead_grows.
Proof. intros r. right. done. Qed.
#[global] Instance dead_grows_trans : Transitive dead_grows.
Proof.
  intros x y z [?|(E1 & R1 & T1 & F1 & A1)] [?|(E2 & R2 & T2 & F2 & A2)]; [left; lia..|].
  right. split_and!; try congruence.
  - intros Hr. rewrite <-(F1 Hr) in Hr |- *. auto.
  - intros Ha. rewrite <-(A1 Ha). apply A2. by rewrite (A1 Ha).
Qed.
#[global] Instance grows_refl : Reflexive grows.
Proof. intros d. split; apply map_grows_refl; apply _. Qed.
#[global] Instance grows_trans : Transitive grows.
Proof.
  intros x y z [] []. split; eapply map_grows_trans; eauto; apply _.
Qed.

(** An update that follows a lifecycle edge grows its row. *)
Lemma ev_edge_grows d id e st a p now :
  ev_edge d id e st a p → event_grows e (event_upd st a p (Some now) e).
Proof.
  inversion 1; subst; split; simpl; try done; try lia;
    destruct (er_status e); simpl; naive_solver.
Qed.

Ltac live_cases :=
  unfold live, set_session_status, link_session, session_upd in *; simpl in *;
  repeat match goal with
         | H : ss_edge _ _ |- _ => inversion H; clear H
         | H : retire_edge _ _ |- _ => inversion H; clear H
         | H : _ = sr_status _ |- _ => symmetry in H
         | H : sr_status _ = _ |- _ => rewrite H in *; clear H
         end;
  repeat case_bool_decide; try done; try set_solver.

Lemma set_status_grows r st :
  ss_edge (sr_status r) st → session_grows r (set_session_status st r).
Proof. intros H. split; try done; inversion H as [Hs|Hs]; live_cases. Qed.

Lemma retire_grows r st to :
  retire_edge (sr_status r) st → session_grows r (link_session to (set_session_status st r)).
Proof. intros H. split; try done; inversion H as [Hs|Hs|Hs]; live_cases. Qed.

(** The rows the remaining steps write. *)
Lemma dies_grows e now :
  er_status e = Processing ∨ er_status e = Interrupted →
  event_grows e (event_status_upd Dead now e).
Proof. intros H. split; simpl; try done. destruct (er_status e); naive_solver. Qed.

Lemma revive_grows e now :
  er_status e = Dead → event_grows e (event_status_upd Received now e).
Proof. intros H. split; simpl; try done. by rewrite H. Qed.

Lemma resolve_grows r a res :
  dd_resolution r = None → (dd_acked r ≠ None → a = dd_acked r) →
  dead_grows r (dead_upd a res r).
Proof. intros Hr Ha. right. split_and!; auto. congruence. Qed.

Lemma owed_grows r st n l a :
  owed r = true → dr_attempts r ≤ n → delivery_grows r (delivery_upd st n l a r).
Proof. intros Ho Hn. split; simpl; try done. congruence. Qed.

Lemma seen_grows r l n t :
  (sr_tainted r = true → t = true) →
  session_grows r (session_upd (sr_status r) (sr_rotated_to r) l n t r).
Proof. intros Ht. split; simpl; try done. Qed.

Create HintDb grows.
#[export] Hint Resolve ev_edge_grows set_status_grows retire_grows dies_grows revive_grows
  owed_grows seen_grows : grows.

Ltac grow_row :=
  apply map_grows_insert; [apply _|intros ?y ?Hy; simpl in *; simplify_eq].

Lemma astep_grows d d' : astep d d' → grows d d'.
Proof.
  destruct 1; split; simpl; try (apply map_grows_refl; apply _).
  all: try (grow_row; eauto with grows; fail).
  - grow_row. rewrite Hy. left. simpl. lia.
  - grow_row. by apply resolve_grows.
  - grow_row. by apply resolve_grows.
  - grow_row. apply resolve_grows; congruence.
  - grow_row. apply owed_grows; [done|lia].
  - grow_row. by apply owed_grows.
  - grow_row. by apply owed_grows.
  - grow_row. split; [done|]. congruence.
  - apply (map_grows_trans _ _ (<[sid := r']> (sessions d))); [apply _|by grow_row|].
    grow_row. rewrite lookup_insert_ne in Hy by congruence. simplify_eq. auto with grows.
Qed.

Lemma steps_grow d d' : rtc astep d d' → grows d d'.
Proof. induction 1; [done|]. etrans; [by apply astep_grows|done]. Qed.

(** ** Invariants *)

Record event_inv (e : event_row) : Prop := EventInv {
  ei_ok : event_ok e;
  ei_attempts : 0 ≤ er_attempts e ≤ maxEventRetries;
  ei_parks : 0 ≤ er_parks e;
  ei_parked : er_status e = Interrupted → 1 ≤ er_parks e;
}.

Record queue_inv (m : gmap Z event_row) : Prop := QueueInv {
  qi_dedup : unique_on er_dedup_key m;
  qi_rows : map_Forall (λ _ e, event_inv e) m;
  qi_ids : map_Forall (λ id _, 0 < id) m;
}.

(** Dead events and the dead-letter table agree: the event is dead exactly
    while its row is open or discarded. *)
Record dead_inv (d : db) : Prop := DeadInv {
  di_event : ∀ id r, dead_letters d !! id = Some r →
    1 ≤ dd_entries r ∧ reason_check (dd_reason r) = true
    ∧ ∃ e, events d !! id = Some e
           ∧ (er_status e = Dead ↔ dd_resolution r ≠ Some Requeued);
  di_row : ∀ id e, events d !! id = Some e → er_status e = Dead →
    ∃ r, dead_letters d !! id = Some r;
}.

Record outbox_inv (d : db) : Prop := OutboxInv {
  oi_key : unique_on dr_delivery_key (deliveries d);
  oi_rows : map_Forall (λ _ r, 0 ≤ dr_attempts r ∧ (dr_status r = Sent ↔ dr_acked r ≠ None)
     ∧ ∀ i, dr_event_id r = Some i → ∃ e, events d !! i = Some e) (deliveries d);
  oi_seal : ∀ id e, events d !! id = Some e → er_status e = Replied →
    all_bound_acked id d = true;
}.

Record journal_inv (d : db) : Prop := JournalInv {
  ji_rows : map_Forall (λ _ a, (ta_state_ a = TStarted ↔ ta_ended_at a = None)
     ∧ ∃ s, sessions d !! ta_session_id a = Some s
       ∧ ∀ i, ta_event_id a = Some i →
           ∃ e, events d !! i = Some e ∧ er_thread_key e = sr_thread_key s) (tool_attempts d);
  ji_turns : map_Forall (λ _ t, turn_ok t ∧ ∃ s, sessions d !! tr_session_id t = Some s) (turns d);
}.

(** [height] orders the successor links, so the rotation chain has no cycle. *)
Record session_inv (m : gmap string session_row) : Prop := SessionInv {
  si_thread : ∀ i j r s, m !! i = Some r → m !! j = Some s → live r = true → live s = true →
    sr_thread_key r = sr_thread_key s → i = j;
  si_worker : ∀ i j r s, m !! i = Some r → m !! j = Some s → live r = true → live s = true →
    like_task (sr_thread_key r) = true → like_task (sr_thread_key s) = true →
    sr_cwd r = sr_cwd s → i = j;
  si_rows : map_Forall (λ _ r, floor_check (sr_trust_floor r) = true
     ∧ (∃ dl, sr_activation_deadline r = Some dl ∧ 0 < sr_created_at r < dl)
     ∧ (isWorkerThreadKey (sr_thread_key r) = true → sr_origin r ≠ None)
     ∧ (sr_status r = Rotated ∨ sr_status r = ResumeFailed → sr_rotated_to r ≠ None)
     ∧ (live r = true → sr_rotated_to r = None)) m;
  si_link : ∀ i r j, m !! i = Some r → sr_rotated_to r = Some j →
    ∃ s, m !! j = Some s ∧ sr_thread_key s = sr_thread_key r;
  si_pred : ∀ i j r s k, m !! i = Some r → m !! j = Some s →
    sr_rotated_to r = Some k → sr_rotated_to s = Some k → i = j;
  si_acyclic : ∃ height : string → nat, ∀ i r j, m !! i = Some r →
    sr_rotated_to r = Some j → (height i < height j)%nat;
}.

Record store_inv (d : db) : Prop := StoreInv {
  inv_queue : queue_inv (events d);
  inv_dead : dead_inv d;
  inv_outbox : outbox_inv d;
  inv_journal : journal_inv d;
  inv_sessions : session_inv (sessions d);
  inv_idents : idents_ok (identities d);
}.

(** *** Queue *)

Lemma event_ok_upd e st a p u : event_ok e → event_ok (event_upd st a p u e).
Proof. by intros []. Qed.

Lemma queue_inv_update m id e st a p u :
  queue_inv m → m !! id = Some e →
  0 ≤ a ≤ maxEventRetries → 0 ≤ p → (st = Interrupted → 1 ≤ p) →
  queue_inv (<[id := event_upd st a p u e]> m).
Proof.
  intros [Hu Hr Hids] He Ha Hp Hi. split; simpl.
  - by eapply unique_on_update.
  - apply map_Forall_update; [done|]. destruct (Hr _ _ He) as [Hok _ _ _].
    split; simpl; auto using event_ok_upd.
  - apply map_Forall_update; [done|]. by apply (Hids _ _ He).
Qed.

Lemma ev_edge_counters d id e st a p :
  ev_edge d id e st a p → event_inv e →
  0 ≤ a ≤ maxEventRetries ∧ 0 ≤ p ∧ (st = Interrupted → 1 ≤ p).
Proof. intros H []. inversion H; subst; split_and!; try lia; done. Qed.

Lemma queue_inv_step d d' : queue_inv (events d) → astep d d' → queue_inv (events d').
Proof.
  intros Hi Hs. assert (Hev := λ id e He, qi_rows _ Hi id e He). simpl in Hev.
  destruct Hs; simpl; try done.
  - destruct Hi. split; simpl; [by apply unique_on_fresh| |by apply map_Forall_update].
    apply map_Forall_update; [done|]. split; [done|unfold maxEventRetries; lia|lia|congruence].
  - destruct (ev_edge_counters _ _ _ _ _ _ H0 (Hev _ _ H)) as (?&?&?).
    by apply queue_inv_update.
  - destruct (Hev _ _ H). by apply queue_inv_update.
  - destruct (Hev _ _ H). by apply queue_inv_update.
Qed.

(** *** Dead letters *)

Lemma ev_edge_not_dead d id e st a p :
  ev_edge d id e st a p → er_status e ≠ Dead ∧ st ≠ Dead.
Proof. destruct 1 as [| | |[]| |[]|]; split; congruence. Qed.

(** A step that moves an event between live states, or adds one. *)
Lemma dead_inv_event d id x :
  dead_inv d → er_status x ≠ Dead →
  (events d !! id = None ∨ ∃ e, events d !! id = Some e ∧ er_status e ≠ Dead) →
  dead_inv (set_events (<[id := x]> (events d)) d).
Proof.
  intros [Hev Hrow] Hx Hold. split; simpl.
  - intros k r Hk. destruct (Hev _ _ Hk) as (? & ? & e & He & Hiff).
    split_and!; [done..|]. destruct (decide (id = k)) as [<-|Hne].
    + exists x. rewrite lookup_insert_eq. split; [done|].
      destruct Hold as [?|(e' & ? & ?)]; simplify_eq. tauto.
    + exists e. by rewrite lookup_insert_ne.
  - intros k e [[<- <-]|[? Hk]]%lookup_insert_Some Hd; [done|]. eauto.
Qed.

(** A step that rewrites the dead-letter row, and the event with it. *)
Lemma dead_inv_row d id r x :
  dead_inv d → 1 ≤ dd_entries r → reason_check (dd_reason r) = true →
  (er_status x = Dead ↔ dd_resolution r ≠ Some Requeued) →
  dead_inv (set_dead_letters (<[id := r]> (dead_letters d))
              (set_events (<[id := x]> (events d)) d)).
Proof.
  intros [Hev Hrow] Hn Hr Hiff. split; simpl.
  - intros k r' [[<- <-]|[Hne Hk]]%lookup_insert_Some.
    + split_and!; [done..|]. exists x. by rewrite lookup_insert_eq.
    + rewrite lookup_insert_ne by done. auto.
  - intros k e Hk Hd. destruct (decide (id = k)) as [<-|Hne].
    + exists r. by rewrite lookup_insert_eq.
    + rewrite lookup_insert_ne in Hk by done. destruct (Hrow _ _ Hk Hd) as [r' ?].
      exists r'. by rewrite lookup_insert_ne.
Qed.

Lemma set_events_id d id e : events d !! id = Some e → set_events (<[id := e]> (events d)) d = d.
Proof. intros He. unfold set_events. rewrite insert_id by done. by destruct d. Qed.

Lemma dead_inv_step d d' : dead_inv d → astep d d' → dead_inv d'.
Proof.
  intros Hi Hs. assert (Hrow := λ id r Hr, di_event d Hi id r Hr). destruct Hs; try (by destruct Hi).
  - apply dead_inv_event; [done|congruence|auto].
  - destruct (ev_edge_not_dead _ _ _ _ _ _ H0). apply dead_inv_event; eauto.
  - apply dead_inv_row; simpl; try done. destruct (dead_letters d !! id) eqn:Hd; [|lia].
    destruct (Hrow _ _ Hd). lia.
  - destruct (Hrow _ _ H1) as (?&?&_). apply (dead_inv_row d id); simpl; done.
  - destruct (Hrow _ _ H) as (?&?&e&He&Hiff). rewrite <-(set_events_id d id e He) at 2.
    apply dead_inv_row; simpl; try done. rewrite Hiff, H0. done.
  - destruct (Hrow _ _ H) as (?&?&e&He&Hiff). rewrite <-(set_events_id d id e He) at 2.
    apply dead_inv_row; simpl; try done. rewrite Hiff, H0. done.
Qed.

(** *** Outbox *)

Lemma all_bound_acked_spec i d :
  all_bound_acked i d = true ↔
  (∃ k r, deliveries d !! k = Some r ∧ dr_event_id r = Some i)
  ∧ ∀ k r, deliveries d !! k = Some r → dr_event_id r = Some i → dr_acked r ≠ None.
Proof.
  unfold all_bound_acked, bound_unacked, bound_to.
  rewrite andb_true_iff, negb_true_iff, exists_row_true, exists_row_false.
  setoid_rewrite andb_false_iff. setoid_rewrite bool_decide_eq_true.
  setoid_rewrite bool_decide_eq_false.
  split; intros [Hex Hall]; (split; [done|]); intros k r Hk; specialize (Hall _ _ Hk).
  - destruct Hall; auto.
  - destruct (decide (dr_event_id r = Some i)); auto.
Qed.

(** A write to a row no replied event is bound to keeps the seal. *)
Lemma all_bound_acked_insert i d k r' :
  all_bound_acked i d = true → dr_event_id r' ≠ Some i →
  (∀ r, deliveries d !! k = Some r → dr_event_id r = dr_event_id r') →
  all_bound_acked i (set_deliveries (<[k := r']> (deliveries d)) d) = true.
Proof.
  rewrite !all_bound_acked_spec. simpl. intros [(j & x & Hj & Hx) Hall] Hr' Hold. split.
  - exists j, x. split; [|done]. rewrite lookup_insert_ne; [done|].
    intros ->. apply Hold in Hj. congruence.
  - intros j' x' [[<- <-]|[_ Hl]]%lookup_insert_Some; [done|eauto].
Qed.

Lemma outbox_inv_events d id x :
  outbox_inv d → (er_status x = Replied → all_bound_acked id d = true) →
  outbox_inv (set_events (<[id := x]> (events d)) d).
Proof.
  intros [Hk Hrows Hseal] Hx. split; simpl; [done| |].
  - intros k r Hr. destruct (Hrows _ _ Hr) as (?&?&Hfk). split_and!; [done..|].
    intros i Hi. destruct (Hfk _ Hi) as [e He].
    destruct (decide (id = i)) as [<-|?]; [rewrite lookup_insert_eq|rewrite lookup_insert_ne by done]; eauto.
  - intros i e [[<- <-]|[_ Hi]]%lookup_insert_Some; [apply Hx|]. apply (Hseal _ _ Hi).
Qed.

Lemma outbox_inv_owed d id r st n l a :
  outbox_inv d → deliveries d !! id = Some r → owed r = true →
  0 ≤ n → (st = Sent ↔ a ≠ None) →
  outbox_inv (set_deliveries (<[id := delivery_upd st n l a r]> (deliveries d)) d).
Proof.
  intros [Hk Hrows Hseal] Hr Ho Hn Hst. apply owed_spec in Ho as [Hack _]. split; simpl.
  - by eapply unique_on_update.
  - apply map_Forall_update; [done|]. destruct (Hrows _ _ Hr) as (?&?&?). simpl. auto.
  - intros i e He Hrep. apply all_bound_acked_insert; [eauto| |].
    + intros Hb. specialize (Hseal _ _ He Hrep). rewrite all_bound_acked_spec in Hseal.
      by destruct (proj2 Hseal _ _ Hr).
    + intros r0 Hr0. by simplify_eq.
Qed.

Lemma outbox_inv_compose d id key eid target payload :
  outbox_inv d → deliveries d !! id = None →
  (∀ k x, deliveries d !! k = Some x → dr_delivery_key x ≠ key) → bound_ok d eid →
  outbox_inv (set_deliveries (<[id := pending_row key eid target payload]> (deliveries d)) d).
Proof.
  intros [Hk Hrows Hseal] Hfree Hkey Hb. split; simpl.
  - by apply unique_on_fresh.
  - apply map_Forall_update; [done|]. simpl. split_and!; [lia|done|].
    intros i ->. destruct Hb as (e & ? & ?). eauto.
  - intros i e He Hrep. apply all_bound_acked_insert; [eauto| |congruence].
    simpl. intros ->. destruct Hb as (? & ? & ?). congruence.
Qed.

Lemma ev_edge_replied d id e st a p :
  ev_edge d id e st a p → st = Replied → all_bound_acked id d = true.
Proof. by inversion 1. Qed.

Lemma outbox_inv_step d d' : outbox_inv d → astep d d' → outbox_inv d'.
Proof.
  intros Hi Hs. assert (Hrows := λ k r Hr, oi_rows d Hi k r Hr). simpl in Hrows.
  destruct Hs; try (by destruct Hi).
  - apply outbox_inv_events; [done|congruence].
  - apply outbox_inv_events; [done|]. simpl. eauto using ev_edge_replied.
  - assert (Hd : outbox_inv (set_events (<[id := event_status_upd Dead now e]> (events d)) d))
      by by apply outbox_inv_events.
    by destruct Hd.
  - apply (outbox_inv_events (set_dead_letters _ d)); [by destruct Hi|done].
  - by apply outbox_inv_compose.
  - destruct (Hrows _ _ H) as (?&?&_). apply outbox_inv_owed; auto. lia.
  - destruct (Hrows _ _ H) as (?&?&_). by apply outbox_inv_owed.
  - destruct (Hrows _ _ H) as (?&?&_). apply outbox_inv_owed; auto.
    apply owed_spec in H0 as [-> ?]. split; congruence.
Qed.

(** *** Journal and turns *)

Lemma journal_inv_grows d d' :
  journal_inv d → grows d d' → tool_attempts d' = tool_attempts d → turns d' = turns d →
  journal_inv d'.
Proof.
  intros [Hr Ht] Hg Ea Et. split; rewrite ?Ea, ?Et.
  - intros k a Ha. destruct (Hr _ _ Ha) as (Hst & s & Hs & Hev). split; [done|].
    destruct (gr_sessions _ _ Hg _ _ Hs) as (s' & Hs' & Hsg). exists s'. split; [done|].
    intros i Hi. destruct (Hev _ Hi) as (e & He & Hth).
    destruct (gr_events _ _ Hg _ _ He) as (e' & He' & Heg). exists e'. split; [done|].
    destruct Hsg, Heg. congruence.
  - intros k t Hk. destruct (Ht _ _ Hk) as (? & s & Hs).
    destruct (gr_sessions _ _ Hg _ _ Hs) as (s' & Hs' & _). eauto.
Qed.

Lemma journal_inv_step d d' : journal_inv d → astep d d' → journal_inv d'.
Proof.
  intros Hi Hs. assert (Hg := astep_grows _ _ Hs).
  destruct Hs; try (by eapply journal_inv_grows).
  - destruct Hi as [Hr Ht]. split; simpl; [|done]. apply map_Forall_update; [done|].
    split; [by rewrite H0, H1|]. destruct H2 as (s & Hs & Hev). exists s. split; [done|].
    intros i Hi. rewrite Hi in Hev. destruct Hev as (e & ? & ? & ?). eauto.
  - destruct Hi as [Hr Ht]. split; simpl; [|done]. apply map_Forall_update; [done|].
    simpl. destruct (Hr _ _ H) as [_ ?]. split; [|done]. by split.
  - destruct Hi as [Hr Ht]. split; simpl; [done|]. apply map_Forall_update; [done|]. eauto.
Qed.

(** *** Sessions *)

(** An update that keeps the pinned columns and neither revives the row nor
    touches its link. *)
Lemma session_inv_update m sid r r' :
  session_inv m → m !! sid = Some r → session_grows r r' →
  sr_rotated_to r' = sr_rotated_to r →
  (sr_created_at r', sr_activation_deadline r') = (sr_created_at r, sr_activation_deadline r) →
  (sr_status r' = Rotated ∨ sr_status r' = ResumeFailed → sr_status r' = sr_status r) →
  session_inv (<[sid := r']> m).
Proof.
  intros [Hth Hw Hrow Hl Hp Hac] Hr [Hpin _ Hlive _ _] Hto Hwin Hst.
  assert (Hold : ∀ i x, <[sid := r']> m !! i = Some x → ∃ y, m !! i = Some y
    ∧ sr_thread_key x = sr_thread_key y ∧ sr_cwd x = sr_cwd y
    ∧ sr_rotated_to x = sr_rotated_to y ∧ (live x = true → live y = true)).
  { intros i x [[<- <-]|[_ Hi]]%lookup_insert_Some; [exists r|exists x]; [|done].
    split_and!; [done|congruence..|done]. }
  split.
  - intros i j x y Hi Hj Lx Ly Heq. apply Hold in Hi as (x' & Hi & E1 & _ & _ & L1).
    apply Hold in Hj as (y' & Hj & E2 & _ & _ & L2). eapply (Hth i j x' y'); eauto. congruence.
  - intros i j x y Hi Hj Lx Ly Kx Ky Heq. apply Hold in Hi as (x' & Hi & E1 & C1 & _ & L1).
    apply Hold in Hj as (y' & Hj & E2 & C2 & _ & L2). eapply (Hw i j x' y'); eauto; congruence.
  - apply map_Forall_update; [done|]. destruct (Hrow _ _ Hr) as (F & W & O & S & L).
    injection Hpin as E1 E2 E3 E4. injection Hwin as W1 W2.
    rewrite E4, E1, E3, Hto, W1, W2. split_and!; auto. intros Hs. apply S. by rewrite <-Hst.
  - intros i x j Hi Hj. apply Hold in Hi as (x' & Hi & E1 & _ & T1 & _). rewrite T1 in Hj.
    destruct (Hl _ _ _ Hi Hj) as (s & Hs & Es). destruct (decide (sid = j)) as [<-|Hne].
    + exists r'. rewrite lookup_insert_eq. split; [done|]. simplify_eq. congruence.
    + exists s. rewrite lookup_insert_ne by done. split; [done|congruence].
  - intros i j x y k Hi Hj Kx Ky. apply Hold in Hi as (x' & Hi & _ & _ & T1 & _).
    apply Hold in Hj as (y' & Hj & _ & _ & T2 & _). eapply (Hp i j x' y' k); congruence.
  - destruct Hac as [h Hh]. exists h. intros i x j Hi Hj.
    apply Hold in Hi as (x' & Hi & _ & _ & T1 & _). eapply Hh; [done|congruence].
Qed.

Lemma session_inv_new m sid r :
  session_inv m → m !! sid = None → session_new m r → session_inv (<[sid := r]> m).
Proof.
  intros [Hth Hw Hrow Hl Hp Hac] Hfree [Nst Nl Nc Nf Nd No Nt Nw]. split.
  - intros i j x y Hi Hj Lx Ly Heq.
    apply lookup_insert_Some in Hi as [[-> <-]|[Ni Hi]];
      apply lookup_insert_Some in Hj as [[-> <-]|[Nj Hj]]; [done| | |by eapply (Hth i j x y)].
    + by destruct (Nt _ _ Hj Ly).
    + by destruct (Nt _ _ Hi Lx).
  - intros i j x y Hi Hj Lx Ly Kx Ky Heq.
    apply lookup_insert_Some in Hi as [[-> <-]|[Ni Hi]];
      apply lookup_insert_Some in Hj as [[-> <-]|[Nj Hj]]; [done| | |by eapply (Hw i j x y)].
    + by destruct (Nw _ _ Hj Ly Kx Ky).
    + by destruct (Nw _ _ Hi Lx Ky Kx).
  - apply map_Forall_update; [done|]. split_and!; auto. rewrite Nst. by intros [].
  - intros i x j [[<- <-]|[Ni Hi]]%lookup_insert_Some Hj; [congruence|].
    destruct (Hl _ _ _ Hi Hj) as (s & Hs & Es). exists s. rewrite lookup_insert_ne; [done|congruence].
  - intros i j x y k Hi Hj Kx Ky.
    apply lookup_insert_Some in Hi as [[-> <-]|[Ni Hi]]; [congruence|].
    apply lookup_insert_Some in Hj as [[-> <-]|[Nj Hj]]; [congruence|].
    by eapply (Hp i j x y k).
  - destruct Hac as [h Hh]. exists h. intros i x j [[<- <-]|[Ni Hi]]%lookup_insert_Some Hj; [congruence|].
    by eapply Hh.
Qed.


(** Linking a retired row to a successor nobody links to. *)
Lemma session_inv_link m old x y sid s :
  session_inv m → m !! old = Some x → sr_rotated_to x = None →
  (sr_thread_key y, sr_cwd y, sr_origin y, sr_trust_floor y)
  = (sr_thread_key x, sr_cwd x, sr_origin x, sr_trust_floor x) →
  (sr_created_at y, sr_activation_deadline y) = (sr_created_at x, sr_activation_deadline x) →
  live y = false → sr_rotated_to y = Some sid →
  m !! sid = Some s → sr_rotated_to s = None → sr_thread_key s = sr_thread_key x →
  (∀ i z, m !! i = Some z → sr_rotated_to z ≠ Some sid) → old ≠ sid →
  session_inv (<[old := y]> m).
Proof.
  intros [Hth Hw Hrow Hl Hp Hac] Hx Tx Hpin Hwin Ly Ty Hs Ts Ths Hno Hne.
  injection Hpin as E1 E2 E3 E4. injection Hwin as W1 W2.
  assert (Hlive : ∀ i z, <[old := y]> m !! i = Some z → live z = true → m !! i = Some z).
  { intros i z [[<- <-]|[_ Hi]]%lookup_insert_Some Hz; [congruence|done]. }
  split.
  - intros i j a b Hi Hj La Lb. eapply (Hth i j a b); eauto.
  - intros i j a b Hi Hj La Lb. eapply (Hw i j a b); eauto.
  - apply map_Forall_update; [done|]. destruct (Hrow _ _ Hx) as (F & W & O & S & L).
    rewrite E4, E1, E3, Ty, W1, W2. split_and!; auto. congruence.
  - intros i z j [[<- <-]|[Ni Hi]]%lookup_insert_Some Hj.
    + rewrite Ty in Hj. simplify_eq. exists s. rewrite lookup_insert_ne by done.
      split; [done|congruence].
    + destruct (Hl _ _ _ Hi Hj) as (t & Ht & Et). destruct (decide (old = j)) as [<-|Nj].
      * exists y. rewrite lookup_insert_eq. split; [done|]. simplify_eq. congruence.
      * exists t. by rewrite lookup_insert_ne.
  - intros i j a b k Hi Hj Ka Kb.
    apply lookup_insert_Some in Hi as [[-> <-]|[Ni Hi]];
      apply lookup_insert_Some in Hj as [[-> <-]|[Nj Hj]]; [done| | |by eapply (Hp i j a b k)].
    + destruct (Hno _ _ Hj). congruence.
    + destruct (Hno _ _ Hi). congruence.
  - destruct Hac as [h Hh]. exists (λ k, if decide (k = sid) then S (h old) else h k).
    intros i z j [[<- <-]|[Ni Hi]]%lookup_insert_Some Hj.
    + rewrite Ty in Hj. simplify_eq. rewrite decide_False, decide_True by done. lia.
    + specialize (Hh _ _ _ Hi Hj). rewrite decide_False by (intros ->; congruence).
      rewrite decide_False; [done|]. intros ->. by destruct (Hno _ _ Hi).
Qed.

Lemma retired_not_live from st r :
  retire_edge from st → live (set_session_status st r) = false.
Proof. destruct 1; live_cases. Qed.

(** Only the live rows of the registry constrain a new one. *)
Lemma session_new_retired m old r st st' r' :
  session_new (<[old := set_session_status st r]> m) r' →
  live (set_session_status st' r) = false →
  session_new (<[old := set_session_status st' r]> m) r'.
Proof.
  intros [Nst Nl Nc Nf Nd No Nt Nw] Hd. split; auto.
  - intros k x [[<- <-]|[N Hk]]%lookup_insert_Some; [congruence|].
    apply (Nt k). by rewrite lookup_insert_ne.
  - intros k x [[<- <-]|[N Hk]]%lookup_insert_Some; [congruence|].
    apply (Nw k). by rewrite lookup_insert_ne.
Qed.

Lemma session_inv_retire m old r st sid r' :
  session_inv m → m !! old = Some r → retire_edge (sr_status r) st → m !! sid = None →
  sr_thread_key r' = sr_thread_key r →
  session_new (<[old := set_session_status st r]> m) r' →
  session_inv (<[old := link_session sid (set_session_status st r)]> (<[sid := r']> m)).
Proof.
  intros Hi Hr He Hfree Hth Hnew.
  assert (Hne : old ≠ sid) by congruence.
  assert (Lr : live r = true) by (inversion He; live_cases).
  assert (Hnl : sr_rotated_to r = None) by (by apply (si_rows _ Hi _ _ Hr)).
  assert (Hlk : ∀ i z, m !! i = Some z → sr_rotated_to z ≠ Some sid).
  { intros i z Hz Hl. destruct (si_link _ Hi _ _ _ Hz Hl) as (? & ? & _). congruence. }
  assert (Lf : live (set_session_status SFailed r) = false) by done.
  assert (Hm1 : session_inv (<[old := set_session_status SFailed r]> m)).
  { eapply session_inv_update; [done..| |done|done|by intros []].
    split; simpl; try done. congruence. }
  assert (Hm2 := session_inv_new _ sid r' Hm1).
  rewrite lookup_insert_ne in Hm2 by done.
  specialize (Hm2 Hfree (session_new_retired _ _ _ _ SFailed _ Hnew Lf)).
  rewrite insert_insert_ne in Hm2 by done.
  assert (Hl := session_inv_link _ old (set_session_status SFailed r)
    (link_session sid (set_session_status st r)) sid r' Hm2).
  rewrite insert_insert_eq in Hl. apply Hl; try done.
  - apply lookup_insert_eq.
  - apply (retired_not_live _ _ r He).
  - rewrite lookup_insert_ne by done. apply lookup_insert_eq.
  - apply Hnew.
  - intros i z. rewrite lookup_insert_Some, lookup_insert_Some.
    intros [[_ <-]|[_ [[_ <-]|[_ Hz]]]]; simpl; [congruence| |by eapply Hlk].
    by rewrite (sn_link _ _ Hnew).
Qed.

Lemma session_inv_step d d' :
  session_inv (sessions d) → astep d d' → session_inv (sessions d').
Proof.
  intros Hi Hs. destruct Hs; simpl; try done.
  - by apply session_inv_new.
  - eapply session_inv_update; eauto with grows. inversion H0; simpl; by intros [].
  - by apply session_inv_retire.
  - by eapply session_inv_update; eauto with grows.
  - by eapply session_inv_update; eauto with grows.
Qed.

Lemma store_inv_step d d' : store_inv d → astep d d' → store_inv d'.
Proof.
  intros [] Hs. split; eauto using queue_inv_step, dead_inv_step, outbox_inv_step,
    journal_inv_step, session_inv_step.
  destruct Hs; simpl; done.
Qed.

Ltac no_rows :=
  repeat intro; simpl in *;
  match goal with H : ∅ !! _ = Some _ |- _ => by rewrite lookup_empty in H end.

Lemma empty_store_inv : store_inv empty_db.
Proof.
  split; try split; try no_rows. exists (λ _, 0%nat). no_rows.
Qed.

Lemma steps_store_inv d d' : store_inv d → rtc astep d d' → store_inv d'.
Proof. intros Hi Hs. induction Hs; eauto using store_inv_step. Qed.

(** The store after a life of operations from an empty database. *)
Definition lived (ops : list store_op) (fs : list bool) : db :=
  w_db (run_ops ops (World empty_db fs)).2.

Lemma lived_steps ops fs : rtc astep empty_db (lived ops fs).
Proof.
  unfold lived. pose proof (run_ops_steps ops empty_db fs) as H.
  by destruct (run_ops ops (World empty_db fs)).
Qed.

Lemma lived_inv ops fs : store_inv (lived ops fs).
Proof. eapply steps_store_inv; [apply empty_store_inv|apply lived_steps]. Qed.

(** ** A concrete life: one message answered with two chunks *)

Definition demo_payload : string :=
  marshal (JObj [("dedup_key", JStr "discord:m1"); ("thread_key", JStr "discord:dm:7");
                 ("kind", JStr "message"); ("trust", JStr "owner")])%string.

Definition demo_event : StoreEvent :=
  MkStoreEvent "discord:m1" "discord:dm:7" "message" "owner" demo_payload 100 "".

Definition demo_chunk (key : string) : Delivery := MkDelivery key 1 "discord:dm:7" "hi".

Definition demo_ops : list store_op :=
  [OInsertEvent demo_event; OMarkEventProcessing 1 101;
   OInsertDeliveries [demo_chunk "r:0"; demo_chunk "r:1"];
   OMarkEventCompleted 1 102; OMarkDeliveryAttempt 1 103; OAckDelivery 1 103;
   OAckDelivery 2 104].

Example demo_replied :
  er_status <$> events (lived demo_ops []) !! 1 = Some Replied
  ∧ er_status <$> events (lived (removelast demo_ops) []) !! 1 = Some Completed
  ∧ er_status <$> events (lived demo_ops [false; true]) !! 1 = Some Received.
Proof. by vm_compute. Qed.

(** ** Properties *)

(** C16: the tables agree with themselves and with each other in every
    reachable store, whatever calls were made and whichever statements failed.
    The queue: row ids are positive and dedup
    keys unique, an event was retried automatically at
    most twice, a parked event carries a park generation of at least one, its
    columns mirror the payload it was received with, and an event is dead
    exactly while it has a dead-letter row that was not requeued.  The outbox:
    delivery keys are unique, a row is sent exactly when it was acked, a bound
    row names an existing event, and the reply seal holds: a replied event has
    at least one bound row and every row bound to it was acked.  The registry:
    at most one live session per thread and one live worker per directory, a
    rotated or resume-failed session has a successor of the same thread, no two
    sessions share one, no live session has one, and the links have no cycle.
    The journal: every tool attempt belongs to an existing session and, when
    bound, to an event of that session's thread, with an end time exactly when
    it left started; every turn belongs to an existing session with usage known
    as a whole or not at all; every identity row has a valid shape. *)
Theorem store_invariant ops fs :
  let d := lived ops fs in
  queue_inv (events d) ∧ dead_inv d ∧ outbox_inv d ∧ session_inv (sessions d)
  ∧ journal_inv d ∧ idents_ok (identities d).
Proof. destruct (lived_inv ops fs). by split_and!. Qed.

(** C19: history is never rewritten.  From any store and under any pattern of
    failures, no call deletes an event, delivery, session, tool attempt, dead
    letter or turn; what was stamped at receipt never changes; retry and park
    counters only grow; a completed event can only become replied, and replied
    and skipped events stay so; a sent or abandoned delivery and a finished
    tool attempt are frozen; taint is sticky, a retired session is never
    revived or relinked; a death is resolved once. *)
Theorem history_grows ops fs d : grows d (w_db (run_ops ops (World d fs)).2).
Proof.
  apply steps_grow. pose proof (run_ops_steps ops d fs) as H.
  by destruct (run_ops ops (World d fs)).
Qed.
