(* ===== verification/StoreOps.v ===== *)
(** * What the store's operations do

    Functional theorems about single operations of the store package: receipt
    and its order, the retry decision, composing and acking replies, rotation,
    the degraded-predecessor walk, notice keys and the trust lookup.  A result
    is stated for a healthy database ([run]) where the answer matters and for
    every fault stream ([wpd]) where atomicity does. *)
From S2P Require Import Prelude Utf8 Json Trust Schema Events Deliveries ToolAttempts.
From S2P Require Import DeadLetters Sessions Identities Turns Surface StoreSpec.
Local Open Scope Z_scope.

(** Evaluate a fault-free run through the monad's combinators. *)
Ltac run_simpl :=
  unfold run, query, exec, in_tx, stmt, refuse, fail, try, mbind, mret,
    StoreM_bind, StoreM_ret, M_bind, M_ret in *; simpl in *.

(** ** Receipt *)

Lemma run_InsertEvent_inserted ev d id d' :
  run (InsertEvent ev) d = (Ok (id, true), d') →
  event_validate ev = Ok tt ∧ kind_check (ev_Kind ev) = true
  ∧ event_trust_check (ev_Trust ev) = true
  ∧ exists_row (has_dedup (ev_DedupKey ev)) (events d) = false
  ∧ id = next_id (events d)
  ∧ d' = set_events (<[id := received_row ev]> (events d)) d.
Proof.
  unfold InsertEvent. destruct (event_validate ev) as [[]|e]; [|by run_simpl].
  unfold insert_event_row. run_simpl.
  destruct (kind_check _); [|done]. destruct (event_trust_check _); [|done]. simpl.
  destruct (exists_row _ _) eqn:Hd; simpl; intros; simplify_eq. done.
Qed.

Lemma select_events_insert_last p d id x :
  (∀ k y, events d !! k = Some y → k < id) →
  select_events p (set_events (<[id := x]> (events d)) d)
  = select_events p d ++ (if p id x then [scanQueuedEvent id x] else []).
Proof.
  intros Hlt. unfold select_events. simpl. rewrite sorted_rows_insert_last by done.
  rewrite List.filter_app, map_app. f_equal. simpl. by destruct (p id x).
Qed.

Lemma run_InsertEvent_seen ev d :
  exists_row (has_dedup (ev_DedupKey ev)) (events d) = true →
  ∃ r, run (InsertEvent ev) d = (r, d) ∧ (r = Ok (0, false) ∨ ∃ e, r = Err e).
Proof.
  intros Hd. unfold InsertEvent. destruct (event_validate ev) as [[]|e]; [|by run_simpl; eauto].
  unfold insert_event_row. run_simpl. rewrite Hd. destruct (negb _); simpl; eauto.
Qed.

(** What a scan lists. *)
Lemma select_events_nil p d :
  select_events p d = [] ↔ ∀ k e, events d !! k = Some e → p k e = false.
Proof.
  unfold select_events. split.
  - intros H k e He. destruct (p k e) eqn:Hp; [|done].
    apply map_eq_nil in H.
    assert (Hin : In (k, e) (List.filter (λ kv, p kv.1 kv.2) (sorted_rows (events d)))).
    { apply filter_In. split; [|done]. by apply list_elem_of_In, elem_of_sorted_rows. }
    by rewrite H in Hin.
  - intros H. destruct (List.filter _ _) as [|[k e] l] eqn:Hf; [done|].
    assert (Hin : In (k, e) ((k, e) :: l)) by by left. rewrite <-Hf in Hin.
    apply filter_In in Hin as [Hin Hp]. apply list_elem_of_In, elem_of_sorted_rows in Hin.
    simpl in Hp. by rewrite (H k e Hin) in Hp.
Qed.

Lemma elem_of_select_events p d v :
  v ∈ select_events p d ↔ ∃ e, events d !! qe_ID v = Some e ∧ p (qe_ID v) e = true
                               ∧ v = scanQueuedEvent (qe_ID v) e.
Proof.
  unfold select_events. rewrite list_elem_of_In, in_map_iff. split.
  - intros ([k e] & <- & [Hin Hp]%filter_In). simpl in *. exists e.
    split; [by apply elem_of_sorted_rows, list_elem_of_In|done].
  - intros (e & He & Hp & Hv). exists (qe_ID v, e). split; [done|].
    apply filter_In. split; [by apply list_elem_of_In, elem_of_sorted_rows|done].
Qed.

Lemma select_events_sorted p d :
  StronglySorted (λ a b, qe_ID a < qe_ID b) (select_events p d).
Proof.
  unfold select_events. assert (Hs := StronglySorted_sorted_rows (events d)).
  induction Hs as [|[k e] l Hs IH Hall]; simpl; [constructor|].
  destruct (p k e); [|done]. simpl. constructor; [done|].
  apply Forall_forall. intros v Hv%list_elem_of_In. apply in_map_iff in Hv as ([k' e'] & <- & Hin).
  apply filter_In in Hin as [Hin%list_elem_of_In _]. rewrite Forall_forall in Hall.
  exact (Hall _ Hin).
Qed.

Lemma elem_of_unprocessed v d :
  v ∈ select_events (λ _ e, has_status [Received; Processing] e) d ↔
  ∃ e, events d !! qe_ID v = Some e ∧ v = scanQueuedEvent (qe_ID v) e
       ∧ (er_status e = Received ∨ er_status e = Processing).
Proof.
  rewrite elem_of_select_events. setoid_rewrite has_status_true.
  setoid_rewrite elem_of_cons. setoid_rewrite list_elem_of_singleton. firstorder.
Qed.

(** Receipt is durable, ordered and happens once.  A first receipt appends
    the event at the end of the queue every later scan returns (its id is past
    every id in use), and afterwards any event with the same dedup key is
    collapsed or refused with the store untouched. *)
Theorem InsertEvent_receipt ev d id d' q :
  run (InsertEvent ev) d = (Ok (id, true), d') →
  run UnprocessedEvents d = (Ok q, d) →
  run UnprocessedEvents d' = (Ok (q ++ [scanQueuedEvent id (received_row ev)]), d')
  ∧ events d' !! id = Some (received_row ev)
  ∧ (∀ k x, events d !! k = Some x → k < id)
  ∧ ∀ ev', ev_DedupKey ev' = ev_DedupKey ev →
      ∃ r, run (InsertEvent ev') d' = (r, d') ∧ (r = Ok (0, false) ∨ ∃ e, r = Err e).
Proof.
  intros Hins Hq. apply run_InsertEvent_inserted in Hins as (Hv & _ & _ & _ & -> & ->).
  assert (Hlt : ∀ k x, events d !! k = Some x → k < next_id (events d)) by apply next_id_gt.
  unfold UnprocessedEvents in *. rewrite run_query in *. simplify_eq. split_and!.
  - by rewrite select_events_insert_last.
  - apply lookup_insert_eq.
  - done.
  - intros ev' Hk. apply run_InsertEvent_seen. apply exists_row_true.
    exists (next_id (events d)), (received_row ev). split; [apply lookup_insert_eq|].
    unfold has_dedup. rewrite Hk. apply String.eqb_refl.
Qed.

Definition sample_payload : string :=
  marshal (JObj [("dedup_key", JStr "discord:m1"); ("thread_key", JStr "discord:dm:7");
                 ("kind", JStr "message"); ("trust", JStr "owner")])%string.
Definition sample_event : StoreEvent :=
  MkStoreEvent "discord:m1" "discord:dm:7" "message" "owner" sample_payload 100 "".
Definition sample_db : db := set_events {[1 := received_row sample_event]} empty_db.

Lemma InsertEvent_receipt_witness :
  run UnprocessedEvents sample_db
  = (Ok ([] ++ [scanQueuedEvent 1 (received_row sample_event)]), sample_db).
Proof. apply (InsertEvent_receipt sample_event empty_db 1 sample_db []); vm_compute; reflexivity. Defined.

(** The queue scan returns exactly the events still owed a turn, each
    once, in receipt order. *)
Theorem UnprocessedEvents_scan d :
  ∃ q, run UnprocessedEvents d = (Ok q, d)
  ∧ StronglySorted (λ a b, qe_ID a < qe_ID b) q
  ∧ ∀ v, v ∈ q ↔ ∃ e, events d !! qe_ID v = Some e ∧ v = scanQueuedEvent (qe_ID v) e
                      ∧ (er_status e = Received ∨ er_status e = Processing).
Proof.
  eexists. unfold UnprocessedEvents. rewrite run_query. split; [done|].
  split; [apply select_events_sorted|]. intros v. apply elem_of_unprocessed.
Qed.

(** ** The retry decision *)

(** A side-effecting call this event's turn made with no idempotency key. *)
Definition unkeyed_attempt (id : Z) (d : db) : Prop :=
  ∃ k a, tool_attempts d !! k = Some a ∧ ta_event_id a = Some id ∧ ta_idempotency_key a = None.

Lemma exists_unkeyed id d :
  exists_row (unkeyed_for id) (tool_attempts d) = true ↔ unkeyed_attempt id d.
Proof.
  rewrite exists_row_true. unfold unkeyed_attempt, unkeyed_for.
  by setoid_rewrite andb_true_iff; setoid_rewrite bool_decide_eq_true.
Qed.

(** An automatic retry happens exactly for a failed turn inside its budget
    whose journal shows no unkeyed side-effecting attempt; it consumes one unit
    of the budget.  A refused retry names its reason, and leaves the store
    untouched: the budget sentinel at two retries, the side-effect sentinel only
    inside the budget, a missing row and a wrong state as themselves. *)
Theorem RequeueEventForRetry_decides id now d :
  (events d !! id = None → run (RequeueEventForRetry id now) d = (Err ENoRows, d))
  ∧ ∀ e, events d !! id = Some e →
    (er_status e ≠ Processing →
       ∃ why, run (RequeueEventForRetry id now) d = (Err (ERefused why), d))
    ∧ (er_status e = Processing → 2 ≤ er_attempts e →
       run (RequeueEventForRetry id now) d = (Err ERetryBudgetExhausted, d))
    ∧ (er_status e = Processing → er_attempts e < 2 → unkeyed_attempt id d →
       run (RequeueEventForRetry id now) d = (Err ESideEffectingAttempt, d))
    ∧ (er_status e = Processing → er_attempts e < 2 → ¬ unkeyed_attempt id d →
       run (RequeueEventForRetry id now) d
       = (Ok tt, set_events (<[id := event_upd Received (er_attempts e + 1) (er_parks e)
                                       (Some now) e]> (events d)) d)).
Proof.
  unfold RequeueEventForRetry, upd_event, maxEventRetries. split.
  { intros He. run_simpl. rewrite He. simpl. by rewrite He. }
  intros e He. run_simpl. rewrite He.
  assert (Hst : has_status [Processing] e = bool_decide (er_status e = Processing)).
  { unfold has_status. apply bool_decide_ext. set_solver. }
  rewrite Hst. split_and!.
  - intros Hs. rewrite bool_decide_false by done. simpl. rewrite ?He, ?Hst.
    rewrite bool_decide_false by done. simpl. eauto.
  - intros Hs Ha. rewrite bool_decide_true by done. destruct (Z.ltb_spec (er_attempts e) 2); [lia|].
    simpl. rewrite ?He, ?Hst, bool_decide_true by done. simpl.
    by destruct (Z.leb_spec 2 (er_attempts e)); [|lia].
  - intros Hs Ha Hu%exists_unkeyed. rewrite bool_decide_true, Hu by done. simpl.
    rewrite andb_false_r. simpl. rewrite ?He, ?Hst, bool_decide_true by done. simpl.
    by destruct (Z.leb_spec 2 (er_attempts e)); [lia|].
  - intros Hs Ha Hu. rewrite <-exists_unkeyed, not_true_iff_false in Hu.
    rewrite bool_decide_true, Hu by done.
    by destruct (Z.ltb_spec (er_attempts e) 2); [|lia].
Qed.

(** ** Composing a reply *)

(** Every delivery of [ds] landed as its own pending row, at the ids answered. *)
Definition composed_rows (ds : list Delivery) (ids : list Z) (d d' : db) : Prop :=
  Forall2 (λ dv id, deliveries d' !! id
    = Some (pending_row (dv_DeliveryKey dv) (nullif_zero (dv_EventID dv)) (dv_Target dv)
              (dv_Payload dv))) ds ids
  ∧ StronglySorted Z.lt ids
  ∧ Forall (λ id, ∀ k r, deliveries d !! k = Some r → k < id) ids
  ∧ (∀ k r, deliveries d !! k = Some r → deliveries d' !! k = Some r)
  ∧ (∀ k r, deliveries d' !! k = Some r → deliveries d !! k = Some r ∨ k ∈ ids)
  ∧ d' = set_deliveries (deliveries d') d.

Lemma InsertDelivery_wpd dv (Q : result err (Z * bool) → db → Prop) d :
  (∀ e, Q (Err e) d) →
  (exists_row (has_delivery_key (dv_DeliveryKey dv)) (deliveries d) = true → Q (Ok (0, false)) d) →
  Q (Ok (next_id (deliveries d), true))
    (set_deliveries (<[next_id (deliveries d) :=
       pending_row (dv_DeliveryKey dv) (nullif_zero (dv_EventID dv)) (dv_Target dv)
         (dv_Payload dv)]> (deliveries d)) d) →
  wpd (InsertDelivery dv) Q d.
Proof.
  intros He Hdup Hins. unfold InsertDelivery. destruct (delivery_validate dv); [|by wpd_step].
  assert (Hnone : wpd (n ← query (λ d, count_rows (has_delivery_key (dv_DeliveryKey dv)) (deliveries d));
     if Z.eqb n 0 then refuse (ERefused "event is already replied") else mret (0, false)) Q d).
  { wpd_step. wpd_step; [done|]. wpd_step; [by wpd_step|]. wpd_step. apply Hdup.
    unfold count_rows, exists_row in *. apply existsb_exists.
    destruct (List.filter _ _) as [|kv l] eqn:Hf; [done|].
    assert (Hin : In kv (kv :: l)) by by left. rewrite <-Hf in Hin.
    apply filter_In in Hin. eauto. }
  wpd_step. wpd_step; [done|]. unfold insert_delivery_row.
  destruct (event_sealed _ d); [done|]. unfold insert_delivery_sql.
  destruct (exists_row _ _) eqn:Hk; [done|].
  destruct (nullif_zero (dv_EventID dv)) as [i|]; [|by wpd_step].
  destruct (events d !! i); [by wpd_step|done].
Qed.

Lemma composed_rows_cons dv ds ids d d' :
  let n := next_id (deliveries d) in
  let row := pending_row (dv_DeliveryKey dv) (nullif_zero (dv_EventID dv)) (dv_Target dv)
               (dv_Payload dv) in
  composed_rows ds ids (set_deliveries (<[n := row]> (deliveries d)) d) d' →
  composed_rows (dv :: ds) (n :: ids) d d'.
Proof.
  intros n row (Hrows & Hsort & Hgt & Hkeep & Hnew & Heq). simpl in *.
  assert (Hlt : ∀ k r, deliveries d !! k = Some r → k < n) by apply next_id_gt.
  assert (Hfree : deliveries d !! n = None) by apply next_id_fresh.
  rewrite Forall_forall in Hgt. split_and!.
  - constructor; [apply Hkeep, lookup_insert_eq|done].
  - constructor; [done|]. apply Forall_forall. intros k Hk.
    eapply (Hgt k Hk n), lookup_insert_eq.
  - constructor; [done|]. apply Forall_forall. intros k Hk i r Hi. eapply (Hgt k Hk i r).
    rewrite lookup_insert_ne; [done|congruence].
  - intros k r Hk. apply Hkeep. rewrite lookup_insert_ne; [done|congruence].
  - intros k r Hk. destruct (Hnew _ _ Hk) as [[[-> _]|[_ ?]]%lookup_insert_Some|?]; [right; by left|by left|].
    right. by right.
  - done.
Qed.

(** A key of the batch is already taken, in the store or by the batch itself. *)
Definition key_taken (ds : list Delivery) (d : db) : Prop :=
  (∃ dv, dv ∈ ds ∧ exists_row (has_delivery_key (dv_DeliveryKey dv)) (deliveries d) = true)
  ∨ ¬ NoDup (map dv_DeliveryKey ds).

Lemma key_taken_cons dv ds id e target payload d :
  key_taken ds (set_deliveries (<[id := pending_row (dv_DeliveryKey dv) e target payload]>
                                  (deliveries d)) d) →
  key_taken (dv :: ds) d.
Proof.
  intros [(x & Hx & Hex)|Hd].
  - apply exists_row_true in Hex as (k & r & Hk & Hb). apply String.eqb_eq in Hb. simpl in Hk.
    apply lookup_insert_Some in Hk as [[_ <-]|[_ Hk]].
    + right. simpl in *. intros [Hnin _]%NoDup_cons. apply Hnin. rewrite Hb.
      apply list_elem_of_fmap. eauto.
    + left. exists x. split; [by right|]. apply exists_row_true. exists k, r. split; [done|].
      by apply String.eqb_eq.
  - right. simpl. intros [_ ?]%NoDup_cons. done.
Qed.

Lemma insert_all_wpd ds ids d (Q : result err (option (list Z)) → db → Prop) :
  (∀ e d', Q (Err e) d') → (∀ d', key_taken ds d → Q (Ok None) d') →
  (∀ ids' d', composed_rows ds ids' d d' → Q (Ok (Some (ids ++ ids'))) d') →
  wpd (insert_all ds ids) Q d.
Proof.
  intros He. revert ids d.
  induction ds as [|dv ds IH]; intros ids d Hn Hok; simpl.
  { wpd_step. rewrite <-(app_nil_r ids). apply Hok. split_and!; try constructor; auto.
    by destruct d. }
  wpd_step. apply InsertDelivery_wpd; [done| |].
  - intros Hex. simpl. wpd_step. apply Hn. left. exists dv. split; [by left|done].
  - simpl. apply IH.
    + intros d' Hk. apply Hn. by eapply key_taken_cons.
    + intros ids' d' Hc. rewrite <-(assoc_L app). apply Hok. by apply composed_rows_cons.
Qed.

Lemma InsertDeliveries_wpd ds d :
  wpd (InsertDeliveries ds)
    (λ r d', match r with
             | Ok (ids, true) => composed_rows ds ids d d'
             | Ok (ids, false) => ids = [] ∧ d' = d ∧ key_taken ds d
             | Err _ => d' = d
             end) d.
Proof.
  unfold InsertDeliveries. wpd_step; [done|]. wpd_step.
  apply insert_all_wpd; [done|intros d' Hk; by wpd_step|]. intros ids d' Hc. by wpd_step.
Qed.

(** A reply is composed whole or not at all.  Under any pattern of failed
    statements InsertDeliveries either stores every chunk as its own pending
    row, under fresh increasing ids in chunk order and with nothing else
    changed, or leaves the store exactly as it was; it reports a duplicate
    only when one of the keys was taken. *)
Theorem InsertDeliveries_atomic ds d :
  wpd (InsertDeliveries ds)
    (λ r d', match r with
             | Ok (ids, true) => composed_rows ds ids d d'
             | Ok (ids, false) => ids = [] ∧ d' = d ∧ key_taken ds d
             | Err _ => d' = d
             end) d.
Proof. apply InsertDeliveries_wpd. Qed.

(** ** Acking a delivery *)

Definition sent_row (now : Z) (r : delivery_row) : delivery_row :=
  delivery_upd Sent (dr_attempts r) (dr_last_attempt r) (Some now) r.

Definition other_unacked (i id : Z) (d : db) : Prop :=
  ∃ k x, k ≠ id ∧ deliveries d !! k = Some x ∧ dr_event_id x = Some i ∧ dr_acked x = None.

Lemma bound_unacked_after i id now r d :
  deliveries d !! id = Some r →
  exists_row (bound_unacked i) (<[id := sent_row now r]> (deliveries d)) = true
  ↔ other_unacked i id d.
Proof.
  intros Hr. rewrite exists_row_true. unfold other_unacked, bound_unacked, bound_to.
  setoid_rewrite andb_true_iff. setoid_rewrite bool_decide_eq_true. split.
  - intros (k & x & [[<- <-]|[Hne Hk]]%lookup_insert_Some & Hb & Ha); [done|]. by exists k, x.
  - intros (k & x & Hne & Hk & Hb & Ha). exists k, x. by rewrite lookup_insert_ne.
Qed.

(** Acknowledging a send.  A row that is not owed a send is a no-op when it
    was already acked and an error when it was abandoned.  Acking an owed row
    marks it sent; the last outstanding row of a completed event advances the
    event to replied, and only the last one does; an ack that arrives while the
    event's turn is still queued or running is refused with the store
    untouched. *)
Theorem AckDelivery_acks id now d r :
  deliveries d !! id = Some r →
  let d1 := set_deliveries (<[id := sent_row now r]> (deliveries d)) d in
  (dr_acked r ≠ None → run (AckDelivery id now) d = (Ok tt, d))
  ∧ (dr_acked r = None → dr_status r = Failed →
       ∃ why, run (AckDelivery id now) d = (Err (ERefused why), d))
  ∧ (owed r = true → dr_event_id r = None → run (AckDelivery id now) d = (Ok tt, d1))
  ∧ ∀ i e, owed r = true → dr_event_id r = Some i → events d !! i = Some e →
    (er_status e ∈ [Received; Processing] →
       ∃ why, run (AckDelivery id now) d = (Err (ERefused why), d))
    ∧ (er_status e = Completed → ¬ other_unacked i id d →
       run (AckDelivery id now) d
       = (Ok tt, set_events (<[i := event_status_upd Replied now e]> (events d)) d1))
    ∧ (er_status e ∉ [Received; Processing] → er_status e ≠ Completed ∨ other_unacked i id d →
       run (AckDelivery id now) d = (Ok tt, d1)).
Proof.
  intros Hr d1. unfold AckDelivery, upd_delivery.
  split_and!.
  - intros Ha. run_simpl. rewrite Hr.
    assert (Ho : owed r = false) by (unfold owed; by rewrite bool_decide_false).
    rewrite Ho. simpl. rewrite Hr. by destruct (dr_acked r).
  - intros Ha Hf. run_simpl. rewrite Hr.
    assert (Ho : owed r = false) by (unfold owed; rewrite Hf; apply andb_false_r).
    rewrite Ho. simpl. rewrite Hr, Ha. simpl. eauto.
  - intros Ho Hn. run_simpl. rewrite Hr, Ho. simpl. rewrite lookup_insert_eq. simpl. by rewrite Hn.
  - intros i e Ho Hi He. run_simpl. rewrite Hr, Ho. simpl. rewrite lookup_insert_eq. simpl.
    rewrite Hi. simpl. unfold advance_replied, upd_event. simpl. rewrite He.
    change (delivery_upd Sent _ _ _ r) with (sent_row now r).
    assert (Hu := bound_unacked_after i id now r d Hr).
    split_and!.
    + intros Hs. assert (Hc : has_status [Completed] e = false)
        by (unfold has_status; apply bool_decide_eq_false; intros ?%list_elem_of_singleton;
            by rewrite !elem_of_cons, elem_of_nil in Hs; destruct Hs as [|[|[]]]; congruence).
      rewrite Hc. simpl. rewrite He.
      rewrite (proj2 (has_status_true _ _) Hs). simpl. eauto.
    + intros Hs Hno. rewrite <-Hu, not_true_iff_false in Hno. rewrite Hno.
      assert (Hc : has_status [Completed] e = true) by (apply has_status_true; by apply list_elem_of_singleton).
      by rewrite Hc.
    + intros Hs Hor.
      assert (Hg : has_status [Completed] e && negb (exists_row (bound_unacked i)
        (<[id := sent_row now r]> (deliveries d))) = false).
      { destruct Hor as [Hc|Ho'%Hu]; [|by rewrite Ho', andb_false_r].
        apply andb_false_iff. left. unfold has_status. apply bool_decide_eq_false.
        by intros ?%list_elem_of_singleton. }
      rewrite Hg. simpl. rewrite He.
      assert (Hq : has_status [Received; Processing] e = false)
        by (unfold has_status; by apply bool_decide_eq_false).
      by rewrite Hq.
Qed.

Lemma AckDelivery_acks_witness :
  let r := pending_row "r:0" None "discord:dm:7" "hi" in
  let d := set_deliveries {[1 := r]} empty_db in
  run (AckDelivery 1 5) d
  = (Ok tt, set_deliveries (<[1 := sent_row 5 r]> (deliveries d)) d).
Proof.
  intros r d. apply (AckDelivery_acks 1 5 d r); vm_compute; reflexivity.
Defined.

(** ** Rotation *)

Lemma find_live threadKey d sid r :
  (∀ k x, sessions d !! k = Some x → live x = true → sr_thread_key x = threadKey → k = sid) →
  sessions d !! sid = Some r → live r = true → sr_thread_key r = threadKey →
  live_of_thread threadKey d = Some (sid, r).
Proof.
  intros Hu Hr Hl Ht. unfold live_of_thread.
  destruct (List.find _ _) as [[k x]|] eqn:Hf.
  - apply find_some in Hf as [Hin%list_elem_of_In%elem_of_map_to_list Hb]. simpl in Hb.
    apply andb_true_iff in Hb as [Hk%String.eqb_eq Hx].
    assert (k = sid) as -> by eauto. congruence.
  - assert (Hb := find_none _ _ Hf (sid, r)). simpl in Hb.
    rewrite Hl, Ht, String.eqb_refl in Hb. simpl in Hb. exfalso. 
    enough (true = false) by done. apply Hb.
    by apply list_elem_of_In, elem_of_map_to_list.
Qed.

(** Rotation is all or nothing and hands the thread over.  Under any
    pattern of failures retireSession either changes nothing, or the old
    session left its expected state for the retired one and links to the
    successor, the successor is the thread's one live session (what
    ResolveLiveSession now answers, born creating and untainted), and every
    other session is as it was. *)
Theorem retireSession_hands_over fs old s from retired guardErr d :
  retire_edge from retired →
  wpd (retireSession fs old s from retired guardErr)
    (λ r d', match r with
     | Err _ => d' = d
     | Ok cwd => ∃ x, sessions d !! old = Some x ∧ sr_status x = from
         ∧ sessions d' !! old = Some (link_session (s_SessionID s) (set_session_status retired x))
         ∧ run (ResolveLiveSession (s_ThreadKey s)) d'
           = (Ok (Some (live_session_of (s_SessionID s) (creating_row s cwd))), d')
         ∧ run (SessionTainted (s_SessionID s)) d' = (Ok false, d')
         ∧ ∀ k, k ≠ old → k ≠ s_SessionID s → sessions d' !! k = sessions d !! k
     end) d.
Proof.
  intros Hre. apply retireSession_wpd; [done|]. intros cwd x Hx Hst Hth Hfree Hnew.
  assert (Hne : old ≠ s_SessionID s) by congruence. exists x. split_and!; auto.
  - simpl. apply lookup_insert_eq.
  - unfold ResolveLiveSession. rewrite run_query. do 3 f_equal.
    erewrite find_live; [done| | |done|done].
    + intros k y. simpl. intros Hk Hl Ht. destruct (decide (s_SessionID s = k)) as [|Hk'];
        [done|]. exfalso.
      apply lookup_insert_Some in Hk as [[-> <-]|[Ho Hk]].
      { destruct Hre; done. }
      rewrite lookup_insert_ne in Hk by done.
      apply (sn_thread _ _ Hnew k y); [by rewrite lookup_insert_ne|done..].
    + simpl. rewrite lookup_insert_ne by done. apply lookup_insert_eq.
  - unfold SessionTainted. run_simpl. rewrite lookup_insert_ne by done.
    by rewrite lookup_insert_eq.
  - intros k Hko Hks. simpl. by rewrite !lookup_insert_ne by done.
Qed.

Definition sample_fs : filesystem := FS Some Some (λ _, Some true).
Definition sample_old : session_row :=
  SessionRow "discord:dm:7" Active "/w" None "owner" 10 (Some 20) None None None true.
Definition sample_new : Session := MkSession "discord:dm:7" "s2" "/w" "" "owner" 30 40.
Definition sample_sdb : db := set_sessions {["s1"%string := sample_old]} empty_db.

Lemma retireSession_hands_over_witness :
  wpd (RotateSession sample_fs "s1" sample_new)
    (λ r d', match r with
             | Err _ => d' = sample_sdb
             | Ok cwd => run (ResolveLiveSession "discord:dm:7") d'
                 = (Ok (Some (live_session_of "s2" (creating_row sample_new cwd))), d')
             end) sample_sdb
  ∧ (run (RotateSession sample_fs "s1" sample_new) sample_sdb).1 = Ok "/w"%string.
Proof.
  split; [|vm_compute; reflexivity].
  eapply wpd_mono; [apply (retireSession_hands_over _ _ _ _ _ _ _ re_rotate)|].
  intros [cwd|e] d'; [|done]. intros (x & _ & _ & _ & H & _). exact H.
Defined.

(** ** The degraded predecessor *)

(** The chain of SessionDegraded's doc: the predecessors of a session, walked
    backwards through failed incarnations only. *)
Inductive degraded_chain (d : db) (sid : string) : string → Prop :=
| dc_direct p r :
    sessions d !! p = Some r → sr_rotated_to r = Some sid → degraded_chain d sid p
| dc_through p r c rc :
    sessions d !! p = Some r → sr_rotated_to r = Some c →
    degraded_chain d sid c → sessions d !! c = Some rc → sr_status rc = SFailed →
    degraded_chain d sid p.

(** An inflationary map on the subsets of a finite set reaches a fixed point
    within as many rounds as the set has elements. *)
Lemma iter_inflationary_fixed (U : gset string) (f : gset string → gset string) :
  (∀ X, X ⊆ f X) → (∀ X, X ⊆ U → f X ⊆ U) →
  let X := Nat.iter (S (size U)) f ∅ in f X = X.
Proof.
  intros Hinf HU.
  assert (Hsub : ∀ n, Nat.iter n f ∅ ⊆ U).
  { induction n as [|n IH]; simpl; [set_solver|auto]. }
  assert (Hgrow : ∀ n, f (Nat.iter n f ∅) = Nat.iter n f ∅ ∨ (n ≤ size (Nat.iter n f ∅))%nat).
  { induction n as [|n [IH|IH]]; simpl; [right; lia|left; by rewrite !IH|].
    destruct (decide (f (Nat.iter n f ∅) = Nat.iter n f ∅)) as [Heq|Hne]; [left; by rewrite !Heq|].
    right. enough (size (Nat.iter n f ∅) < size (f (Nat.iter n f ∅)))%nat by lia.
    apply subset_size. split; [apply Hinf|]. intros Hle. apply Hne.
    apply set_eq. intros x. specialize (Hinf (Nat.iter n f ∅)). set_solver. }
  intros X. destruct (Hgrow (S (size U))) as [?|Hs]; [done|].
  pose proof (subseteq_size _ _ (Hsub (S (size U)))). lia.
Qed.

Lemma elem_of_chain_round sid d X p :
  p ∈ chain_round sid d X ↔
  p ∈ X ∨ ∃ r, sessions d !! p = Some r ∧ chain_link sid d X r = true.
Proof.
  unfold chain_round. rewrite elem_of_union, elem_of_dom. split.
  - intros [?|[r Hr]]; [by left|]. apply map_lookup_filter_Some in Hr as [Hr Hl]. eauto.
  - intros [?|(r & Hr & Hl)]; [by left|]. right. exists r. by apply map_lookup_filter_Some.
Qed.

Lemma chain_link_true sid d X r :
  chain_link sid d X r = true ↔
  ∃ c, sr_rotated_to r = Some c
       ∧ (c = sid ∨ (c ∈ X ∧ ∃ rc, sessions d !! c = Some rc ∧ sr_status rc = SFailed)).
Proof.
  unfold chain_link, failed_in. split.
  - destruct (sr_rotated_to r) as [c|]; [|done]. intros H. exists c. split; [done|].
    apply orb_true_iff in H as [?%String.eqb_eq|[Hin Hf]%andb_true_iff]; [by left|right].
    apply bool_decide_eq_true in Hin. split; [done|].
    destruct (sessions d !! c) as [rc|]; [|done]. apply bool_decide_eq_true in Hf. eauto.
  - intros (c & -> & [->|(Hin & rc & Hrc & Hf)]); [by rewrite String.eqb_refl|].
    rewrite Hrc, !bool_decide_true by done. apply orb_true_r.
Qed.

Lemma chain_set_spec sid d p : p ∈ chain_set sid d ↔ degraded_chain d sid p.
Proof.
  unfold chain_set. split.
  - generalize (S (size (sessions d))) as n. intros n. revert p.
    induction n as [|n IH]; intros p; simpl; [set_solver|].
    rewrite elem_of_chain_round. intros [?|(r & Hr & Hl)]; [auto|].
    apply chain_link_true in Hl as (c & Hc & [->|(Hin & rc & Hrc & Hf)]).
    + by eapply dc_direct.
    + eapply dc_through; eauto.
  - assert (Hfix := iter_inflationary_fixed (dom (sessions d)) (chain_round sid d)).
    rewrite size_dom in Hfix. set (X := Nat.iter _ _ _) in *.
    assert (Hf : chain_round sid d X = X).
    { apply Hfix.
      - intros Y x. rewrite elem_of_chain_round. by left.
      - intros Y HY x. rewrite elem_of_chain_round, elem_of_dom. intros [?|(r & ? & _)]; [|eauto].
        apply elem_of_dom. auto. }
    clear Hfix. induction 1 as [p r Hr Hl|p r c rc Hr Hl _ IH Hrc Hs];
      rewrite <-Hf; apply elem_of_chain_round; right; exists r; (split; [done|]);
      apply chain_link_true; eauto 10.
Qed.

Lemma degraded_spec sid d :
  degraded sid d = true ↔
  ∃ p r, degraded_chain d sid p ∧ sessions d !! p = Some r ∧ sr_status r = ResumeFailed.
Proof.
  unfold degraded. rewrite existsb_exists. split.
  - intros (p & Hp%list_elem_of_In & Hst). apply elem_of_elements, chain_set_spec in Hp.
    destruct (sessions d !! p) as [r|] eqn:Hr; [|done]. apply bool_decide_eq_true in Hst. eauto.
  - intros (p & r & Hc & Hr & Hst). exists p.
    split; [by apply list_elem_of_In, elem_of_elements, chain_set_spec|].
    rewrite Hr. by apply bool_decide_eq_true.
Qed.

(** C20: SessionDegraded answers exactly whether the session was born from a
    lost transcript: some predecessor reached backwards through failed
    incarnations only is resume_failed.  The recursive query terminates on any
    links, cyclic ones included. *)
Theorem SessionDegraded_chain sid d :
  ∃ b, run (SessionDegraded sid) d = (Ok b, d)
  ∧ (b = true ↔ ∃ p r, degraded_chain d sid p ∧ sessions d !! p = Some r
                       ∧ sr_status r = ResumeFailed).
Proof. exists (degraded sid d). split; [done|apply degraded_spec]. Qed.

(** ** Notices *)

Lemma notice_key_inj prefix a b p q :
  (prefix +:+ a +:+ ":" +:+ pretty p = prefix +:+ b +:+ ":" +:+ pretty q)%string →
  a = b ∧ p = q :> Z.
Proof.
  intros Heq. assert (Heq' : (a +:+ ":" +:+ pretty p = b +:+ ":" +:+ pretty q)%string).
  { clear -Heq. induction prefix as [|c s IH]; [done|]. simpl in Heq. by simplify_eq. }
  apply (str_split_last ":"%char) in Heq' as [-> Hp]; [|apply pretty_Z_no_colon..].
  split; [done|]. by apply (inj pretty).
Qed.

(** A notice key names one episode.  Park notices of different events or
    of different parks of one event never share a delivery key, nor do death
    notices, and no park notice collides with a death notice; so the outbox's
    unique key can never let an old notice swallow a new one, whatever the
    dedup keys contain. *)
Theorem notice_keys_distinct a b p q :
  (interrupted_key a p = interrupted_key b q → a = b ∧ p = q)
  ∧ (dead_key a p = dead_key b q → a = b ∧ p = q)
  ∧ interrupted_key a p ≠ dead_key b q.
Proof.
  unfold interrupted_key, dead_key. split_and!; [apply notice_key_inj..|].
  intros Heq. discriminate Heq.
Qed.

Lemma run_AcquireTarget gated target d :
  target ≠ ""%string → run (AcquireTarget gated target) d = (Ok tt, d).
Proof. intros Ht. unfold AcquireTarget, empty. destruct gated; [|done]. simpl. by rewrite bool_decide_false. Qed.

Lemma insert_notice_composed sel target d key payload :
  sel d = Some (key, payload) →
  ∃ d', insert_notice sel target d = Ok (tt, d')
  ∧ exists_row (has_delivery_key key) (deliveries d') = true
  ∧ (exists_row (has_delivery_key key) (deliveries d) = true → d' = d)
  ∧ (exists_row (has_delivery_key key) (deliveries d) = false →
       d' = set_deliveries (<[next_id (deliveries d) := pending_row key None target payload]>
                              (deliveries d)) d).
Proof.
  intros Hs. unfold insert_notice, insert_delivery_sql. rewrite Hs.
  destruct (exists_row _ (deliveries d)) eqn:Hk; eexists; (split; [done|]); split_and!; try done.
  apply exists_row_true. simpl. eexists _, _. split; [apply lookup_insert_eq|].
  unfold has_delivery_key. simpl. apply String.eqb_refl.
Qed.

Lemma run_SurfaceInterrupted gated ev d :
  qe_ThreadKey ev ≠ ""%string →
  run (SurfaceInterruptedCoordinated gated ev) d
  = match insert_notice (select_interrupted ev) (qe_ThreadKey ev) d with
    | Ok (a, d') => (Ok a, d') | Err e => (Err e, d) end.
Proof.
  intros Ht. unfold SurfaceInterruptedCoordinated. rewrite run_bind.
  - rewrite run_AcquireTarget by done. by rewrite run_stmt.
  - unfold AcquireTarget. repeat case_match; auto with calm.
Qed.

(** A park is surfaced once per episode.  Surfacing a parked event composes
    exactly one unbound notice to its thread under the key of the row's current
    park generation, after which the sweep for unsurfaced parks no longer lists
    the event and surfacing again changes nothing; an event that is not parked
    composes nothing. *)
Theorem SurfaceInterrupted_once gated ev e d :
  qe_ThreadKey ev ≠ ""%string → events d !! qe_ID ev = Some e →
  let key := interrupted_key (er_dedup_key e) (er_parks e) in
  (er_status e ≠ Interrupted → run (SurfaceInterruptedCoordinated gated ev) d = (Ok tt, d))
  ∧ (er_status e = Interrupted → ∃ d',
       run (SurfaceInterruptedCoordinated gated ev) d = (Ok tt, d')
       ∧ events d' = events d
       ∧ unsurfaced_park d' (qe_ID ev) e = false
       ∧ run (SurfaceInterruptedCoordinated gated ev) d' = (Ok tt, d')
       ∧ (unsurfaced_park d (qe_ID ev) e = true → deliveries d'
          = <[next_id (deliveries d) := pending_row key None (qe_ThreadKey ev)
                (interrupted_payload ev)]> (deliveries d))).
Proof.
  intros Ht He key. rewrite run_SurfaceInterrupted by done.
  assert (Hsel : ∀ d', events d' = events d → select_interrupted ev d'
    = if bool_decide (er_status e = Interrupted) then Some (key, interrupted_payload ev) else None).
  { intros d' Hd'. unfold select_interrupted. rewrite Hd', He. unfold has_status.
    by rewrite (bool_decide_ext _ (er_status e = Interrupted)) by apply list_elem_of_singleton. }
  split.
  - intros Hs. unfold insert_notice. rewrite Hsel, bool_decide_false by done. done.
  - intros Hs. assert (Hk := Hsel d eq_refl). rewrite bool_decide_true in Hk by done.
    destruct (insert_notice_composed _ (qe_ThreadKey ev) _ _ _ Hk) as (d' & Hi & Hex & Hold & Hnew).
    rewrite Hi. exists d'.
    assert (Hev : events d' = events d).
    { destruct (exists_row (has_delivery_key key) (deliveries d)) eqn:Hb;
        [by rewrite Hold|by rewrite Hnew]. }
    assert (Hu : ∀ x, unsurfaced_park x (qe_ID ev) e
      = negb (exists_row (has_delivery_key key) (deliveries x))).
    { intros x. unfold unsurfaced_park, has_status. by rewrite Hs. }
    rewrite !Hu, Hex. split_and!; [done..| |].
    + rewrite run_SurfaceInterrupted by done.
      assert (Hk' := Hsel d' Hev). rewrite bool_decide_true in Hk' by done.
      destruct (insert_notice_composed _ (qe_ThreadKey ev) _ _ _ Hk') as (d'' & Hi' & _ & Hold' & _).
      by rewrite Hi', Hold'.
    + intros Hb%negb_true_iff. by rewrite Hnew.
Qed.

Definition sample_parked : event_row :=
  event_upd Interrupted 0 1 (Some 5) (received_row sample_event).

Lemma SurfaceInterrupted_once_witness :
  let d := set_events {[1 := sample_parked]} empty_db in
  let ev := scanQueuedEvent 1 sample_parked in
  unsurfaced_park d 1 sample_parked = true
  ∧ ∃ d', run (SurfaceInterruptedCoordinated true ev) d = (Ok tt, d')
          ∧ unsurfaced_park d' 1 sample_parked = false.
Proof.
  intros d ev. split; [vm_compute; reflexivity|].
  destruct (SurfaceInterrupted_once true ev sample_parked d) as [_ H];
    [vm_compute; discriminate|vm_compute; reflexivity|].
  destruct H as (d' & H1 & _ & H2 & _); [reflexivity|]. exists d'. split; assumption.
Defined.

(** ** The trust lookup *)

Lemma judge_row_owner r :
  ans_err (judge_row r) = None → ans_value (judge_row r) = Owner →
  id_trust r = "owner"%string ∧ ∃ o, id_owner_id r = Some o ∧ o ≠ ""%string.
Proof.
  unfold judge_row. destruct (Parse (id_trust r)) as [l|] eqn:Hp; [|done].
  assert (l = id_trust r) as ->.
  { unfold Parse in Hp. destruct (Z.eqb _ _); by simplify_eq. }
  destruct (_ || _) eqn:Hb; [done|]. intros _ Ho. simpl in Ho. rewrite Ho in *. split; [done|].
  simpl in Hb. destruct (id_owner_id r) as [o|]; [|done]. exists o. split; [done|].
  intros ->. done.
Qed.

Lemma Stamp_owner auth l : st_Trust (Stamp auth l) = Owner → auth = "strong"%string ∧ l = Owner.
Proof.
  unfold Stamp. case_bool_decide as Hs; [|case_bool_decide; simpl; [|done]].
  - simpl. unfold Min, normalize. intros H. split; [done|]. unfold rank in H.
    repeat (case_bool_decide; simpl in H; try done).
  - intros Hm. pose proof (Min_le_r l Known) as Hle. rewrite Hm in Hle. by destruct Hle.
Qed.

Lemma Stamp_untrusted auth : st_Trust (Stamp auth Untrusted) = Untrusted.
Proof. unfold Stamp. by repeat case_bool_decide. Qed.

(** What the identities table says of a sender, before the channel's clamp. *)
Definition stored_level (row : option ident_row) : Level :=
  match row with None => Untrusted | Some r => ans_value (judge_row r) end.

Lemma judge_row_err r : ans_err (judge_row r) ≠ None → ans_value (judge_row r) = Untrusted.
Proof. unfold judge_row. repeat case_match; done. Qed.

(** The answer is the clamp of the stored level, or the bottom stamp beside an
    error. *)
Lemma ResolveStamped_wpd channel nativeID auth d :
  wpd (ResolveStamped channel nativeID auth)
    (λ r d', d' = d ∧ ∃ a, r = Ok a ∧
       let row := identities d !! (channel, nativeID) in
       (ans_err a = None ∧ ans_value a = Stamp auth (stored_level row)
          ∧ (∀ x, row = Some x → ans_err (judge_row x) = None))
       ∨ (ans_err a ≠ None ∧ ans_value a = bottom_stamp)) d.
Proof.
  unfold ResolveStamped, ResolveTrust. wpd_step. wpd_step. wpd_step.
  wpd_step; [wpd_step; simpl; wpd_step; split; [done|]; eexists; split; [done|]; by right|].
  destruct (identities d !! (channel, nativeID)) as [row|] eqn:Hrow.
  - wpd_step. destruct (ans_err (judge_row row)) as [e|] eqn:He; wpd_step;
      (split; [done|]; eexists; split; [done|]); [by right|left]. split_and!; [done|done|].
    by intros x [= <-].
  - wpd_step. simpl. wpd_step. split; [done|]. eexists. split; [done|]. by left.
Qed.

(** The trust lookup fails closed.  Under any database failure and for any
    stored row the lookup never writes; an error always comes with the bottom
    stamp, an unknown sender is untrusted, and the owner stamp is only ever
    given on a strong channel to a stored owner row with a non-empty
    principal. *)
Theorem ResolveStamped_fails_closed channel nativeID auth d :
  wpd (ResolveStamped channel nativeID auth)
    (λ r d', d' = d ∧ ∃ a, r = Ok a
      ∧ (ans_err a ≠ None → ans_value a = bottom_stamp)
      ∧ (identities d !! (channel, nativeID) = None → st_Trust (ans_value a) = Untrusted)
      ∧ (st_Trust (ans_value a) = Owner →
           auth = "strong"%string ∧ ∃ row o, identities d !! (channel, nativeID) = Some row
             ∧ id_trust row = "owner"%string ∧ id_owner_id row = Some o ∧ o ≠ ""%string)) d.
Proof.
  eapply wpd_mono; [apply ResolveStamped_wpd|]. intros r d' (-> & a & -> & Ha).
  split; [done|]. exists a. split; [done|].
  destruct Ha as [(He & -> & Hrow)|(He & ->)]; [|by split_and!].
  split_and!; [done|intros ->; apply Stamp_untrusted|]. intros [-> Ho]%Stamp_owner. split; [done|].
  destruct (identities d !! (channel, nativeID)) as [row|]; [|done].
  destruct (judge_row_owner row (Hrow row eq_refl) Ho) as (Ht & o & ? & ?). eauto 10.
Qed.

(** Seeding the identities is a full sync.  Under any failure the table is
    unchanged; otherwise it holds exactly the configured identities, so an
    identity dropped from the configuration is revoked, and nothing else of the
    store moves. *)
Lemma SeedIdentities_wpd ids d :
  wpd (SeedIdentities ids)
    (λ r d', match r with
     | Err _ => d' = d
     | Ok _ => d' = set_identities (identities d') d
         ∧ ∀ key row, identities d' !! key = Some row
             ↔ ∃ i, i ∈ ids ∧ key = (idn_Channel i, idn_NativeID i) ∧ row = ident_of i
     end) d.
Proof.
  unfold SeedIdentities. wpd_step; [done|]. wpd_step. wpd_step; [done|]. simpl.
  assert (Hloop : ∀ ids0 done m, (∀ key row, m !! key = Some row ↔
      ∃ i, i ∈ done ∧ key = (idn_Channel i, idn_NativeID i) ∧ row = ident_of i) →
    wpd (insert_identities ids0) (λ r d', match r with
     | Err _ => True
     | Ok _ => d' = set_identities (identities d') d ∧ ∀ key row, identities d' !! key = Some row ↔
         ∃ i, i ∈ done ++ ids0 ∧ key = (idn_Channel i, idn_NativeID i) ∧ row = ident_of i
     end) (set_identities m d)).
  { induction ids0 as [|i ids0 IH]; intros done m Hm; simpl.
    { wpd_step. by rewrite app_nil_r. }
    wpd_step. wpd_step; [done|]. unfold insert_identity. simpl.
    destruct (ident_check _); simpl; [|done].
    destruct (m !! _) eqn:Hfree; [done|].
    replace (i :: ids0) with ([i] ++ ids0) by done. rewrite (assoc_L app).
    apply (IH (done ++ [i]) (<[(idn_Channel i, idn_NativeID i) := ident_of i]> m)).
    intros key row. rewrite lookup_insert_Some. setoid_rewrite elem_of_app.
    setoid_rewrite list_elem_of_singleton. rewrite Hm. split.
    - intros [[<- <-]|[Hne (j & ? & ? & ?)]]; eauto 10.
    - intros (j & [Hj| ->] & -> & ->); [right|by left]. split; [|by eauto].
      intros Heq. rewrite Heq in Hfree.
      assert (m !! (idn_Channel j, idn_NativeID j) = Some (ident_of j)) by (apply Hm; eauto).
      congruence. }
  wpd_step. eapply wpd_mono; [apply (Hloop ids [] ∅)|].
  - intros key row. rewrite lookup_empty. split; [done|]. by intros (i & ?%elem_of_nil & _).
  - intros [[]|e] d'; [|done]. intros H. by wpd_step.
Qed.
