(* ===== verification/Env.v ===== *)
(** * The daemon's effects

    The code above the store talks to more than the database: the clock, the
    context, the platform, the pump's kick channel and the timers.  An [env]
    holds the store's [world], how often the clock was read, the answers the
    context's [Err] and the platform's [Send] will give (both arbitrary, so a
    theorem about every [env] covers every cancellation and every refusal), and
    the trace of effects that left the process.  Logging is not modelled. *)
From S2P Require Import Prelude Schema Events.
Local Open Scope Z_scope.

(** ** Effects *)

(** session.Spec: what an engine spawn is given (its Output sink apart). *)
Record Spec : Type := MkSpec {
  spec_SessionID : string;
  spec_ThreadKey : string;
  spec_Cwd : string;
  spec_Kind : string;
  spec_Prompt : string;
  spec_TransparencyNote : string;
}.

Inductive effect : Type :=
| FxSend (id : Z) (target payload : string) (accepted : bool)  (* Sender.Send *)
| FxKick                                                        (* Notify: wake the pump *)
| FxReadmitAfter (delay : Z) (ev : QueuedEvent)                 (* After(delay, Readmit) *)
| FxTurn (thread floor kind prompt : string)                    (* runner.Turn *)
| FxStart (spec : Spec)                                         (* engine.Start *)
| FxResume (spec : Spec).                                       (* engine.Resume *)

Record env : Type := Env {
  env_world : world;
  env_ticks : nat;
  env_ctx : list bool;
  env_plat : list bool;
  env_trace : list effect;
}.

Definition env_db (e : env) : db := w_db (env_world e).

Definition EnvM (A : Type) : Type := M env err A.
#[global] Instance EnvM_ret : MRet EnvM := λ A, @M_ret env err A.
#[global] Instance EnvM_bind : MBind EnvM := λ A B, @M_bind env err A B.

(** A store call, and what else goes on in the store around it.  The programs
    below are written against [liftS] alone; [exclusive], the instance the other
    files prove them with, gives the store to the program, and [Overlap] has one
    in which other goroutines move it between any two calls. *)
Class StoreAccess : Type := { liftS : ∀ {A : Type}, StoreM A → EnvM A }.
Arguments liftS {_ _} _ : simpl never.

Definition store_call {A} (m : StoreM A) : EnvM A := λ e,
  let '(r, w) := m (env_world e) in
  (r, Env w (env_ticks e) (env_ctx e) (env_plat e) (env_trace e)).

#[global] Instance exclusive : StoreAccess := {| liftS := @store_call |}.

(** [now().Unix()] on a clock that answers [clock n] at its [n]th reading. *)
Definition now (clock : nat → Z) : EnvM Z := λ e,
  (Ok (clock (env_ticks e)),
   Env (env_world e) (S (env_ticks e)) (env_ctx e) (env_plat e) (env_trace e)).

(** [ctx.Err() != nil]; an exhausted stream is a live context. *)
Definition ctx_err : EnvM bool := λ e,
  let '(b, cs) := next_fault (env_ctx e) in
  (Ok b, Env (env_world e) (env_ticks e) cs (env_plat e) (env_trace e)).

(** Whether the platform accepts the next message. *)
Definition platform : EnvM bool := λ e,
  let '(refused, ps) := next_fault (env_plat e) in
  (Ok (negb refused), Env (env_world e) (env_ticks e) (env_ctx e) ps (env_trace e)).

Definition emit (x : effect) : EnvM unit := λ e,
  (Ok tt, Env (env_world e) (env_ticks e) (env_ctx e) (env_plat e) (env_trace e ++ [x])).

(** ** Weakest preconditions *)

Definition wpe {A} (m : EnvM A) (Q : result err A → env → Prop) (e : env) : Prop :=
  let '(r, e') := m e in Q r e'.

Section wpe.
Context {A : Type}.
Implicit Types (m : EnvM A) (Q : result err A → env → Prop).

Lemma wpe_mono m Q Q' e : wpe m Q e → (∀ r e', Q r e' → Q' r e') → wpe m Q' e.
Proof. unfold wpe. destruct (m e). auto. Qed.

Lemma wpe_ret (a : A) Q e : Q (Ok a) e → wpe (mret a) Q e.
Proof. done. Qed.

Lemma wpe_fail x Q e : Q (Err x) e → wpe (fail x) Q e.
Proof. done. Qed.

Lemma wpe_bind {B} m (f : A → EnvM B) (Q : result err B → env → Prop) e :
  wpe m (λ r e', match r with Ok a => wpe (f a) Q e' | Err x => Q (Err x) e' end) e →
  wpe (m ≫= f) Q e.
Proof.
  unfold wpe, mbind, EnvM_bind, M_bind. by destruct (m e) as [[a|x] e'].
Qed.

Lemma wpe_try m (Q : result err (result err A) → env → Prop) e :
  wpe m (λ r e', Q (Ok r) e') e → wpe (try m) Q e.
Proof. unfold wpe, try. by destruct (m e). Qed.

(** A store call changes the world only, and its faults are arbitrary. *)
Lemma wpe_lift (m : StoreM A) Q e :
  wpd m (λ r d', ∀ fs, Q r (Env (World d' fs) (env_ticks e) (env_ctx e) (env_plat e) (env_trace e)))
    (env_db e) →
  wpe (liftS m) Q e.
Proof.
  intros H. destruct e as [[d fs] t c p tr]. unfold wpe, liftS, exclusive, store_call, env_db in *. simpl in *.
  specialize (H fs). destruct (m (World d fs)) as [r [d' fs']]. apply H.
Qed.
End wpe.

Lemma wpe_now clock Q e :
  Q (Ok (clock (env_ticks e)))
    (Env (env_world e) (S (env_ticks e)) (env_ctx e) (env_plat e) (env_trace e)) →
  wpe (now clock) Q e.
Proof. done. Qed.

Lemma wpe_ctx_err Q e :
  (∀ b cs, Q (Ok b) (Env (env_world e) (env_ticks e) cs (env_plat e) (env_trace e))) →
  wpe ctx_err Q e.
Proof. intros H. unfold wpe, ctx_err. destruct (next_fault _). apply H. Qed.

Lemma wpe_platform Q e :
  (∀ b ps, Q (Ok b) (Env (env_world e) (env_ticks e) (env_ctx e) ps (env_trace e))) →
  wpe platform Q e.
Proof. intros H. unfold wpe, platform. destruct (next_fault _). apply H. Qed.

Lemma wpe_emit x Q e :
  Q (Ok tt) (Env (env_world e) (env_ticks e) (env_ctx e) (env_plat e) (env_trace e ++ [x])) →
  wpe (emit x) Q e.
Proof. done. Qed.

Ltac wpe_step :=
  lazymatch goal with
  | |- wpe (_ ≫= _) _ _ => apply wpe_bind
  | |- wpe (mbind _ _) _ _ => apply wpe_bind
  | |- wpe (try _) _ _ => apply wpe_try
  | |- wpe (mret _) _ _ => apply wpe_ret
  | |- wpe (fail _) _ _ => apply wpe_fail
  | |- wpe (now _) _ _ => apply wpe_now
  | |- wpe ctx_err _ _ => apply wpe_ctx_err; intros ? ?
  | |- wpe platform _ _ => apply wpe_platform; intros ? ?
  | |- wpe (emit _) _ _ => apply wpe_emit
  | |- wpe (liftS _) _ _ => apply wpe_lift
  | |- wpe (if ?b then _ else _) _ _ => destruct b eqn:?
  | |- wpe (match ?x with _ => _ end) _ _ => destruct x eqn:?
  end.
