(* ===== verification/Engine.v ===== *)
(** * Engine turns (src/internal/engine/engine.go, version.go)

    The child process is a parameter: given its invocation it answers with
    what it wrote and how it ended.  Around it are modelled the validation of
    the pins, the pinned command line, the bounded stderr, the turn record
    handed to the recorder on every exit, and the error a turn returns. *)
From Stdlib Require Import SpecFloat.
From S2P Require Import Prelude Paths Utf8 Json Schema Events Turns Config Stream Env.
Local Open Scope Z_scope.

(** ** boundedBuffer *)

Record boundedBuffer : Type := MkBuffer {
  bb_buf : list Z;
  bb_truncated : bool;
}.

Definition bb_write (limit : Z) (p : list Z) (b : boundedBuffer) : boundedBuffer :=
  let room := limit - Z.of_nat (length (bb_buf b)) in
  if Z.ltb 0 room then
    if Z.ltb room (Z.of_nat (length p))
    then MkBuffer (bb_buf b ++ take (Z.to_nat room) p) true
    else MkBuffer (bb_buf b ++ p) (bb_truncated b)
  else MkBuffer (bb_buf b) (bb_truncated b || negb (bool_decide (p = []))).

Definition bb_string (b : boundedBuffer) : string :=
  if bb_truncated b then of_bytes (bb_buf b) +:+ "…(stderr truncated)" else of_bytes (bb_buf b).

Definition bb_collect (limit : Z) (chunks : list (list Z)) : boundedBuffer :=
  foldl (λ b p, bb_write limit p b) (MkBuffer [] false) chunks.

Definition stderrCap : Z := 64 * 1024.

(** ** New *)

Record EngineConfig : Type := MkEngineConfig {
  ec_Bin : string;
  ec_Model : string;
  ec_MaxTurns : Z;
  ec_TurnTimeout : Z;
  ec_RecordTurn : option (Turn → StoreM unit);
}.

Record EnginePin : Type := MkPin {
  ep_bin : string;
  ep_model : string;
  ep_maxTurns : Z;
  ep_timeout : Z;
  ep_recordTurn : Turn → StoreM unit;
}.

Definition NewEngine (cfg : EngineConfig) : result string EnginePin :=
  if empty (ec_Bin cfg) then Err "no binary path"
  else if negb (IsAbs (ec_Bin cfg)) then Err "binary path is not absolute"
  else if empty (ec_Model cfg) then Err "no model"
  else if Z.ltb (ec_MaxTurns cfg) 1 then Err "max turns"
  else if Z.leb (ec_TurnTimeout cfg) 0 then Err "turn timeout"
  else match ec_RecordTurn cfg with
       | None => Err "no turn recorder"
       | Some record =>
           Ok (MkPin (ec_Bin cfg) (ec_Model cfg) (ec_MaxTurns cfg) (ec_TurnTimeout cfg) record)
       end%string.

(** ** The invocation *)

Record invocation : Type := MkInvocation {
  iv_bin : string;
  iv_args : list string;
  iv_dir : string;
  iv_stdin : string;
  iv_timeout : Z;
}.

Definition promptText (spec : Spec) : string :=
  if empty (spec_TransparencyNote spec) then spec_Prompt spec
  else "[system note: " +:+ spec_TransparencyNote spec +:+ "]"
       +:+ String "010" (String "010" (spec_Prompt spec)).

Definition engine_args (e : EnginePin) (sessionFlag sessionID : string) : list string :=
  ["-p"; "--model"; ep_model e; "--max-turns"; pretty (ep_maxTurns e);
   "--output-format"; "stream-json"; "--verbose"; sessionFlag; sessionID]%string.

Definition invoke (e : EnginePin) (spec : Spec) (sessionFlag : string) : invocation :=
  MkInvocation (ep_bin e) (engine_args e sessionFlag (spec_SessionID spec)) (spec_Cwd spec)
    (promptText spec) (ep_timeout e).

(** ** The child *)

Inductive ctx_end : Type := DeadlineExceeded | CtxCanceled.

(** How a child's run ended.  ctx.Err is read for the record and read again to
    classify the error. *)
Record child : Type := MkChild {
  cd_failed : bool;                (* cmd.Run returned an error *)
  cd_stdout : list (list Z);
  cd_stderr : list (list Z);
  cd_ctx_record : option ctx_end;
  cd_ctx_after : option ctx_end;
  cd_millis : Z;                   (* time.Since(begin).Milliseconds() *)
}.

(** ** The turn record *)

Definition outcome_of (snap : turnStats) (failed : bool) (ctx : option ctx_end) : string :=
  match ctx with
  | Some DeadlineExceeded => "timeout"
  | Some CtxCanceled => "error"
  | None => if failed then "error"
            else if ts_resultSeen snap && negb (ts_resultOK snap) then "error" else "ok"
  end%string.

Definition turn_record (spec : Spec) (snap : turnStats) (failed : bool) (ctx : option ctx_end)
    (millis ts : Z) : Turn :=
  let seen := ts_resultSeen snap in
  MkTurn (spec_SessionID spec) ts (spec_Kind spec) (ts_model snap)
    (if seen then ts_inputTokens snap else 0) (if seen then ts_outputTokens snap else 0)
    (if seen then ts_costUSD snap else f64_zero) (ts_toolCalls snap)
    (if seen then ts_durationMS snap else millis) (outcome_of snap failed ctx) seen.

(** ** run *)

Definition isTranscriptGone (stderr : string) : bool :=
  contains (bytes "no conversation found") (lower_runes stderr).

Section engine_run.
Context {SA : StoreAccess} (clock : nat → Z) (relay : bool) (spawn : nat → invocation → child) (e : EnginePin).

(** The error a finished child's turn returns. *)
Definition turn_error (c : child) : option err :=
  if negb (cd_failed c) then None
  else match cd_ctx_after c with
       | Some _ => Some EEngine
       | None => if isTranscriptGone (bb_string (bb_collect stderrCap (cd_stderr c)))
                 then Some EResumeFailed else Some EEngine
       end.

(** The next child: which one depends on when it is spawned. *)
Definition spawn_child (inv : invocation) : EnvM child := λ x,
  (Ok (spawn (env_ticks x) inv), x).

Definition engine_run (spec : Spec) (sessionFlag : string) : EnvM unit :=
  c ← spawn_child (invoke e spec sessionFlag);
  let snap := snapshot (write_all relay (cd_stdout c)) in
  ts ← now clock;
  _ ← try (liftS (ep_recordTurn e
             (turn_record spec snap (cd_failed c) (cd_ctx_record c) (cd_millis c) ts)));
  match turn_error c with
  | None => mret tt
  | Some x => fail x
  end.

Definition Start (spec : Spec) : EnvM unit := engine_run spec "--session-id".
Definition Resume (spec : Spec) : EnvM unit := engine_run spec "--resume".
End engine_run.

(** ** The version pin *)

Fixpoint digit_run (s : string) : string * string :=
  match s with
  | EmptyString => (EmptyString, EmptyString)
  | String c s' =>
      if between 48 57 (byte_of c) then let '(d, r) := digit_run s' in (String c d, r)
      else (EmptyString, s)
  end.

(** The pattern \d+\.\d+\.\d+ anchored at the start, greedy. *)
Definition semver_here (s : string) : option string :=
  let '(a, r) := digit_run s in
  match a, r with
  | String _ _, String "." r =>
      let '(b, r) := digit_run r in
      match b, r with
      | String _ _, String "." r =>
          let '(c, _) := digit_run r in
          match c with String _ _ => Some (a +:+ "." +:+ b +:+ "." +:+ c) | _ => None end
      | _, _ => None
      end
  | _, _ => None
  end.

(** semver.FindString: the leftmost match. *)
Fixpoint semver_find (s : string) : option string :=
  match semver_here s with
  | Some v => Some v
  | None => match s with EmptyString => None | String _ s' => semver_find s' end
  end.

(** The probe's answer: whether it failed, and what it wrote. *)
Definition VerifyVersion (bin pinned : string) (probe : bool * list (list Z)) : result string unit :=
  if empty pinned then Err "empty version pin"
  else if negb (IsAbs bin) then Err "binary path is not absolute"
  else if fst probe then Err "version probe"
  else match semver_find (bb_string (bb_collect 4096 (snd probe))) with
       | None => Err "no x.y.z token"
       | Some got => if String.eqb got pinned then Ok tt else Err "version drift"
       end%string.

(** ** Lemmas: bounded output *)

(** The buffer is the stream's first bytes, and knows whether there were more. *)
Lemma bb_collect_take limit chunks :
  0 ≤ limit →
  bb_collect limit chunks
  = MkBuffer (take (Z.to_nat limit) (concat chunks))
      (Z.ltb limit (Z.of_nat (length (concat chunks)))).
Proof.
  intros Hl. unfold bb_collect. induction chunks as [|p chunks IH] using rev_ind.
  { simpl. rewrite take_nil. by rewrite (proj2 (Z.ltb_ge _ _)) by lia. }
  rewrite foldl_app, IH, concat_app. cbn [foldl concat]. rewrite app_nil_r.
  set (c := concat chunks). unfold bb_write. cbn [bb_buf bb_truncated].
  rewrite length_take, length_app. destruct (Z.ltb_spec 0 (limit - Z.of_nat (Z.to_nat limit `min` length c))) as [Hr|Hr].
  - rewrite (take_ge c) by lia. replace (Z.to_nat limit `min` length c)%nat with (length c) in * by lia.
    rewrite take_app, (take_ge c) by lia.
    destruct (Z.ltb_spec (limit - Z.of_nat (length c)) (Z.of_nat (length p))).
    + f_equal; [|symmetry; apply Z.ltb_lt; lia]. do 2 f_equal. lia.
    + rewrite (take_ge p) by lia. f_equal. rewrite (proj2 (Z.ltb_ge _ _)) by lia.
      symmetry. apply Z.ltb_ge. lia.
  - rewrite take_app_le by lia. f_equal. destruct (Z.ltb_spec limit (Z.of_nat (length c))).
    + symmetry. apply Z.ltb_lt. lia.
    + destruct p as [|b p]; simpl; symmetry; [apply Z.ltb_ge|apply Z.ltb_lt]; lia.
Qed.

Lemma digit_run_app s : let '(d, r) := digit_run s in s = d +:+ r.
Proof.
  induction s as [|c s IH]; [done|]. simpl. destruct (between 48 57 _); [|done].
  revert IH. destruct (digit_run s) as [d r]. simpl. by intros ->.
Qed.

Lemma semver_here_prefix s v : semver_here s = Some v → ∃ post, s = v +:+ post.
Proof.
  unfold semver_here. pose proof (digit_run_app s) as H1. destruct (digit_run s) as [a r1].
  destruct a as [|ca a]; [done|]. destruct r1 as [|c1 r1]; [done|].
  destruct c1 as [[] [] [] [] [] [] [] []]; try done.
  pose proof (digit_run_app r1) as H2. destruct (digit_run r1) as [b r2].
  destruct b as [|cb b]; [done|]. destruct r2 as [|c2 r2]; [done|].
  destruct c2 as [[] [] [] [] [] [] [] []]; try done.
  pose proof (digit_run_app r2) as H3. destruct (digit_run r2) as [c r3].
  destruct c as [|cc c]; [done|]. intros [= <-]. exists r3. rewrite H1, H2, H3.
  by rewrite <-!(assoc_L String.append).
Qed.

Lemma semver_find_infix s v : semver_find s = Some v → ∃ pre post, s = pre +:+ v +:+ post.
Proof.
  induction s as [|c s IH]; cbn [semver_find].
  - destruct (semver_here "") eqn:Hh; [|done]. discriminate Hh.
  - destruct (semver_here (String c s)) as [w|] eqn:Hh.
    + intros [= ->]. destruct (semver_here_prefix _ _ Hh) as [post ->]. by exists ""%string, post.
    + intros Hs. destruct (IH Hs) as (pre & post & ->). by exists (String c pre), post.
Qed.

(** ** Lemmas: the record *)

(** The recorder the daemon wires. *)
Definition record_turn (t : Turn) : StoreM unit := _ ← InsertTurn t; mret tt.

(** What the child reported makes sense: no negative or non-finite number. *)
Definition reported (snap : turnStats) : Prop :=
  ts_resultSeen snap = true →
  0 ≤ ts_inputTokens snap ∧ 0 ≤ ts_outputTokens snap ∧ 0 ≤ ts_durationMS snap
  ∧ f64_is_nan (ts_costUSD snap) = false ∧ f64_is_inf (ts_costUSD snap) = false
  ∧ f64_lt0 (ts_costUSD snap) = false.

Lemma consumeLine_tools relay line s : 0 ≤ ts_toolCalls s → 0 ≤ ts_toolCalls (consumeLine relay line s).
Proof.
  unfold consumeLine. intros H. destruct (unmarshal _ _) as [kvs|]; [|done].
  destruct (String.eqb _ "system"); [by destruct (_ && _)|].
  destruct (String.eqb _ "assistant"); [simpl; lia|]. by destruct (String.eqb _ "result").
Qed.

Lemma read_stream_tools relay stream : 0 ≤ ts_toolCalls (read_stream relay stream).
Proof.
  unfold read_stream. assert (H0 : 0 ≤ ts_toolCalls new_stats) by done. revert H0.
  generalize new_stats. induction (List.filter _ _) as [|l ls IH]; intros s Hs; [done|]. cbn [foldl].
  by apply IH, consumeLine_tools.
Qed.

Lemma outcome_of_valid snap failed ctx : turnOutcomes (outcome_of snap failed ctx) = true.
Proof. unfold outcome_of. destruct ctx as [[]|], failed, (ts_resultSeen snap), (ts_resultOK snap); done. Qed.

Lemma turn_record_valid spec relay stream failed ctx millis ts :
  let snap := read_stream relay stream in
  spec_SessionID spec ≠ ""%string → turnKinds (spec_Kind spec) = true → 0 < ts → 0 ≤ millis →
  reported snap →
  turn_validate (turn_record spec snap failed ctx millis ts) = Ok tt.
Proof.
  intros snap Hid Hk Hts Hms Hrep. unfold turn_validate. cbn [t_SessionID t_TS t_Kind t_Outcome
    t_InputTokens t_OutputTokens t_CostUSD t_ToolCalls t_DurationMS turn_record].
  rewrite (proj2 (empty_false_iff _) Hid), (proj2 (Z.leb_gt _ _) Hts), Hk, andb_false_r, outcome_of_valid.
  cbn [negb]. rewrite (proj2 (Z.ltb_ge (ts_toolCalls snap) 0)) by apply read_stream_tools.
  unfold reported in Hrep. destruct (ts_resultSeen snap).
  - destruct (Hrep eq_refl) as (H1 & H2 & H3 & H4 & H5 & H6).
    rewrite (proj2 (Z.ltb_ge _ _) H1), (proj2 (Z.ltb_ge _ _) H2), H4, H5, H6,
      (proj2 (Z.ltb_ge _ _) H3). done.
  - by rewrite (proj2 (Z.ltb_ge millis 0) Hms).
Qed.

(** The row a record becomes. *)
Definition turn_row_appended (t : Turn) (d : db) : db :=
  set_turns (<[next_id (turns d) := turn_row_of t]> (turns d)) d.

Lemma record_turn_wpd t d :
  wpd (record_turn t) (λ r d', match r with
    | Ok _ => d' = turn_row_appended t d
    | Err x => d' = d ∧ (turn_validate t = Ok tt → is_Some (sessions d !! t_SessionID t) → x = EIO)
    end) d.
Proof.
  unfold record_turn, InsertTurn. wpd_step. destruct (turn_validate t) as [[]|x] eqn:Hv; [|by wpd_step].
  wpd_step; [done|]. unfold insert_turn_row.
  destruct ((empty (t_Kind t) || kind_check (t_Kind t)) && turnOutcomes (t_Outcome t)) eqn:Hc; cbn [negb].
  - destruct (sessions d !! t_SessionID t) eqn:Hs; [by wpd_step|]. split; [done|]. by intros _ [? [=]].
  - split; [done|]. intros _ _. exfalso. revert Hv Hc. unfold turn_validate, turnKinds.
    destruct (turnOutcomes (t_Outcome t)); [|by repeat case_match].
    destruct (empty (t_Kind t)), (kind_check (t_Kind t)); cbn; try done. by repeat case_match.
Qed.


(** ** Properties *)

(** C31: every turn is accounted for and answered by its child alone.  One run
    with the daemon's recorder, whatever the child did and whatever statements
    fail: the turn succeeds exactly when the child did; it reports a lost
    transcript exactly when the child failed by itself and the first 64 KiB of
    its stderr say so, so a killed turn never looks like a lost one; the
    recorder's failure changes neither; nothing of the store moves but the
    turns table, which gains at most the one row of this turn, with usage
    exactly when the result event arrived and an outcome of the closed set;
    and if the child's numbers make sense, only a failed statement keeps the
    row out. *)
Theorem turn_recorded clock relay spawn e spec flag x :
  ep_recordTurn e = record_turn →
  let c := spawn (env_ticks x) (invoke e spec flag) in
  let snap := read_stream relay (concat (cd_stdout c)) in
  let row := turn_record spec snap (cd_failed c) (cd_ctx_record c) (cd_millis c) (clock (env_ticks x)) in
  let said := bb_string (MkBuffer (take (Z.to_nat stderrCap) (concat (cd_stderr c)))
                (Z.ltb stderrCap (Z.of_nat (length (concat (cd_stderr c)))))) in
  wpe (engine_run clock relay spawn e spec flag) (λ r x',
    (r = Ok tt ↔ cd_failed c = false)
    ∧ (r = Err EResumeFailed ↔ cd_failed c = true ∧ cd_ctx_after c = None ∧ isTranscriptGone said = true)
    ∧ env_trace x' = env_trace x
    ∧ (env_db x' = env_db x ∨ env_db x' = turn_row_appended row (env_db x))
    ∧ (tr_cost_usd (turn_row_of row) = if ts_resultSeen snap then Some (ts_costUSD snap) else None)
    ∧ turnOutcomes (t_Outcome row) = true
    ∧ (w_faults (env_world x) = [] → spec_SessionID spec ≠ ""%string → turnKinds (spec_Kind spec) = true →
       0 < clock (env_ticks x) → 0 ≤ cd_millis c → reported snap →
       is_Some (sessions (env_db x) !! spec_SessionID spec) →
       env_db x' = turn_row_appended row (env_db x))) x.
Proof.
  intros Hrec c snap row said. unfold wpe, engine_run, spawn_child, now, liftS, exclusive, store_call, mbind, EnvM_bind, M_bind, try.
  cbn [env_ticks env_world env_ctx env_plat env_trace]. fold c. rewrite Hrec.
  rewrite (holds_snapshot relay (concat (cd_stdout c))) by apply write_all_holds. fold snap. fold row.
  pose proof (record_turn_wpd row (env_db x) (w_faults (env_world x))) as Hw.
  assert (Hworld : World (env_db x) (w_faults (env_world x)) = env_world x) by (by destruct x as [[] ? ? ? ?]).
  rewrite Hworld in Hw.
  assert (Hgone : turn_error c = if cd_failed c then
      match cd_ctx_after c with Some _ => Some EEngine
      | None => if isTranscriptGone said then Some EResumeFailed else Some EEngine end else None).
  { unfold turn_error. rewrite bb_collect_take by (by vm_compute). by destruct (cd_failed c). }
  assert (Hcost : tr_cost_usd (turn_row_of row) = if ts_resultSeen snap then Some (ts_costUSD snap) else None).
  { unfold row, turn_record. cbn. by destruct (ts_resultSeen snap). }
  assert (Hhealthy : w_faults (env_world x) = [] → spec_SessionID spec ≠ ""%string →
       turnKinds (spec_Kind spec) = true → 0 < clock (env_ticks x) → 0 ≤ cd_millis c → reported snap →
       is_Some (sessions (env_db x) !! spec_SessionID spec) →
       w_db (record_turn row (env_world x)).2 = turn_row_appended row (env_db x)).
  { intros Hf Hid Hk Hts Hms Hrep Hs.
    assert (Hv : turn_validate row = Ok tt) by (by apply turn_record_valid).
    rewrite <-Hworld, Hf. unfold record_turn, InsertTurn. rewrite Hv.
    unfold mbind, StoreM_bind, M_bind, stmt, insert_turn_row. cbn [w_faults w_db next_fault].
    assert (Hk' : (empty (t_Kind row) || kind_check (t_Kind row)) && turnOutcomes (t_Outcome row) = true).
    { unfold row, turn_record. cbn [t_Kind t_Outcome]. unfold turnKinds in Hk.
      by rewrite Hk, orb_true_r, outcome_of_valid. }
    rewrite Hk'. cbn [negb]. change (t_SessionID row) with (spec_SessionID spec).
    destruct Hs as [s Hs]. by rewrite Hs. }
  destruct (record_turn row (env_world x)) as [rr w'] eqn:Hrr. cbn [fst snd] in *.
  assert (Hdb : w_db w' = env_db x ∨ w_db w' = turn_row_appended row (env_db x)).
  { destruct rr; [by right|left; by destruct Hw]. }
  rewrite Hgone. destruct (cd_failed c); [destruct (cd_ctx_after c) as [k|]; [|destruct (isTranscriptGone said)]|];
    cbn [mret EnvM_ret M_ret fail]; unfold env_db; cbn [env_world env_trace]; split_and!; try done;
    try apply outcome_of_valid; try (split; [done|intros; naive_solver]); try (by split).
Qed.

(** A pinned engine and a child that answers in two writes, cut mid-line. *)
Definition sample_pin : EnginePin := MkPin "/opt/claude" "opus" 25 600000000000 record_turn.
Definition sample_spec : Spec := MkSpec "s1" "discord:dm:7" "/home/a" "message" "hello" "".
Definition sample_lines : list Z :=
  bytes (marshal (JObj [("type", JStr "system"); ("subtype", JStr "init"); ("model", JStr "opus")]%string))
  ++ 10 :: bytes (marshal (JObj [("type", JStr "assistant");
       ("message", JObj [("content", JArr [JObj [("type", JStr "text"); ("text", JStr "hi")];
                                          JObj [("type", JStr "tool_use")]])])]%string))
  ++ 10 :: bytes (marshal (JObj [("type", JStr "result"); ("subtype", JStr "success");
       ("duration_ms", JNum "90"); ("total_cost_usd", JNum "0.1");
       ("usage", JObj [("input_tokens", JNum "7"); ("output_tokens", JNum "3")])]%string)) ++ [10].
Definition sample_child (_ : nat) (_ : invocation) : child :=
  MkChild false [take 70 sample_lines; drop 70 sample_lines] [] None None 120.
Definition sample_session_db : db :=
  set_sessions {["s1"%string := SessionRow "discord:dm:7" Active "/home/a" None "owner" 1 None None None None false]}
    empty_db.
Definition sample_env : env := Env (World sample_session_db []) 0 [] [] [].

(** What the record then says. *)
Example sample_turn_row :
  (turns (env_db (engine_run (λ _, 100) true sample_child sample_pin sample_spec "--session-id" sample_env).2)) !! 1
  = Some (TurnRow "s1" 100 (Some "message") (Some "opus") (Some 7) (Some 3)
            (Some (S754_finite false 7205759403792794 (-56))) 1 90 "ok")%string.
Proof. vm_compute. reflexivity. Qed.

Lemma turn_recorded_witness :
  ep_recordTurn sample_pin = record_turn
  ∧ (engine_run (λ _, 100) true sample_child sample_pin sample_spec "--session-id" sample_env).1 = Ok tt.
Proof.
  split; [reflexivity|].
  pose proof (turn_recorded (λ _, 100) true sample_child sample_pin sample_spec "--session-id"%string
    sample_env eq_refl) as H.
  unfold wpe in H. destruct (engine_run _ _ _ _ _ _ sample_env) as [r x']. by apply H.
Defined.
