(* ===== verification/Teardown.v ===== *)
(** * The engine's process group (src/internal/engine/engine.go, run and termGroup)

    [Engine] takes a finished child as an answer; here is how it finishes.  The
    child leads a process group whose members fork, leave and hold the pipes as
    they like, while os/exec's goroutine on the context, its Wait and the
    code around them take their steps. *)
From S2P Require Import Prelude Schema Stream Env Engine.
Local Open Scope Z_scope.

(** ** State *)

(** The child itself; [ok]: it exited with status 0. *)
Inductive leader_at : Type := Running | Zombie (ok : bool) | Reaped (ok : bool).

(** What cmd.Run may return. *)
Inductive run_err : Type :=
| ExitError                (* the child failed, or a signal killed it *)
| CtxErr                   (* the context's error, reported by Cancel's goroutine *)
| CancelErr                (* Cancel failed *)
| PipeErr                  (* copying from a pipe closed under the copy *)
| ErrWaitDelay.

(** os/exec's goroutine on the context: waiting for it, past Cancel with its
    timer running, past the timer, gone. *)
Inductive watch_at : Type :=
| WatchCtx
| WatchDelay (e : option run_err)
| WatchDone (e : option run_err)
| WatchGone.

(** run: in Process.Wait, joining that goroutine, joining the copies, back from
    cmd.Run, past the sweep ([killed]: it was sent), past the record (which read
    the context), past the classification (which read it again). *)
Inductive wait_at : Type :=
| WaitChild
| WaitWatch (ok : bool)
| WaitCopies (e : option run_err)
| Ran (e : option run_err)
| Swept (e : option run_err) (killed : bool)
| Recorded (e : option run_err) (killed : bool) (c : option ctx_end)
| Ended (e : option run_err) (killed : bool) (c c' : option ctx_end).

Record tree : Type := Tree {
  tr_leader : leader_at;
  tr_members : gset nat;     (* the living rest of the group *)
  tr_strays : gset nat;      (* living descendants that left the group *)
  tr_holders : gset nat;     (* who, the child apart, holds an end of the pipes *)
  tr_closed : bool;          (* our ends of the pipes are closed *)
  tr_ctx : option ctx_end;
  tr_watch : watch_at;
  tr_wait : wait_at;
}.

(** cmd.Start succeeded: Setpgid made the child the leader of its group. *)
Definition started : tree := Tree Running ∅ ∅ ∅ false None WatchCtx WaitChild.

Definition processes (l : leader_at) (ms ss hs : gset nat) (s : tree) : tree :=
  Tree l ms ss hs (tr_closed s) (tr_ctx s) (tr_watch s) (tr_wait s).
Definition at_watch (w : watch_at) (s : tree) : tree :=
  Tree (tr_leader s) (tr_members s) (tr_strays s) (tr_holders s) (tr_closed s) (tr_ctx s) w (tr_wait s).
Definition at_wait (w : wait_at) (s : tree) : tree :=
  Tree (tr_leader s) (tr_members s) (tr_strays s) (tr_holders s) (tr_closed s) (tr_ctx s) (tr_watch s) w.
Definition close_pipes (s : tree) : tree :=
  Tree (tr_leader s) (tr_members s) (tr_strays s) (tr_holders s) true (tr_ctx s) (tr_watch s) (tr_wait s).

(** ** Signals *)

Definition is_reaped (l : leader_at) : bool := match l with Reaped _ => true | _ => false end.
Definition is_running (l : leader_at) : bool := match l with Running => true | _ => false end.

(** A group exists while a member lives or its leader is not reaped. *)
Definition group_exists (s : tree) : bool :=
  negb (is_reaped (tr_leader s)) || negb (bool_decide (tr_members s = ∅)).

(** termGroup's answer; [refused]: the kernel allows no signal to any of them.
    TERM may be ignored, so it moves no process by itself. *)
Inductive term_answer : Type := TermSent | TermProcessDone | TermFailed.
Definition termGroup (refused : bool) (s : tree) : term_answer :=
  if group_exists s then if refused then TermFailed else TermSent else TermProcessDone.

Definition kill_leader (s : tree) : tree :=
  processes (if is_running (tr_leader s) then Zombie false else tr_leader s)
    (tr_members s) (tr_strays s) (tr_holders s) s.
Definition kill_group (s : tree) : tree :=
  processes (if is_running (tr_leader s) then Zombie false else tr_leader s)
    ∅ (tr_strays s) (tr_holders s ∖ tr_members s) s.

(** ** cmd.Run *)

(** The context's goroutine: Cancel and the timer's start. *)
Definition watch_ctx (refused : bool) (s : tree) : option tree :=
  match tr_watch s, tr_ctx s with
  | WatchCtx, Some _ =>
      Some (at_watch (WatchDelay (match termGroup refused s with
                                  | TermSent => Some CtxErr
                                  | TermProcessDone => None
                                  | TermFailed => Some CancelErr
                                  end)) s)
  | _, _ => None
  end.

(** WaitDelay passed before Wait took the timer over. *)
Definition watch_timer (s : tree) : option tree :=
  match tr_watch s with
  | WatchDelay e => Some (at_watch (WatchDone e) (close_pipes (kill_leader s)))
  | _ => None
  end.

(** Process.Wait. *)
Definition reap (s : tree) : option tree :=
  match tr_wait s, tr_leader s with
  | WaitChild, Zombie ok =>
      Some (at_wait (WaitWatch ok) (processes (Reaped ok) (tr_members s) (tr_strays s) (tr_holders s) s))
  | _, _ => None
  end.

(** Wait receives the goroutine's verdict, and prefers the child's. *)
Definition join_watch (s : tree) : option tree :=
  match tr_wait s, tr_watch s with
  | WaitWatch ok, (WatchCtx | WatchDelay _ | WatchDone _) =>
      let verdict := match tr_watch s with WatchDelay e | WatchDone e => e | _ => None end in
      Some (at_wait (WaitCopies (if ok then verdict else Some ExitError)) (at_watch WatchGone s))
  | _, _ => None
  end.

(** The copies ended: nobody holds the pipes, or our ends are closed ([cut]:
    under a copy that was still reading). *)
Definition copied (cut : bool) (s : tree) : option tree :=
  match tr_wait s with
  | WaitCopies e =>
      if bool_decide (tr_holders s = ∅) || tr_closed s then
        Some (at_wait (Ran (match e with
                            | Some x => Some x
                            | None => if cut && tr_closed s then Some PipeErr else None
                            end)) s)
      else None
  | _ => None
  end.

(** WaitDelay passed first. *)
Definition copy_timeout (s : tree) : option tree :=
  match tr_wait s with
  | WaitCopies e => Some (at_wait (Ran (Some (default ErrWaitDelay e))) (close_pipes s))
  | _ => None
  end.

(** ** run, after cmd.Run *)

Definition sweep (s : tree) : option tree :=
  match tr_wait s with
  | Ran e => Some (match tr_ctx s with
                   | Some _ => at_wait (Swept e true) (kill_group s)
                   | None => at_wait (Swept e false) s
                   end)
  | _ => None
  end.
Definition record (s : tree) : option tree :=
  match tr_wait s with Swept e k => Some (at_wait (Recorded e k (tr_ctx s)) s) | _ => None end.
Definition classify (s : tree) : option tree :=
  match tr_wait s with Recorded e k c => Some (at_wait (Ended e k c (tr_ctx s)) s) | _ => None end.

(** The finished child of [Engine], whatever it wrote. *)
Definition child_of (e : option run_err) (c c' : option ctx_end) (out errs : list (list Z)) (millis : Z) : child :=
  MkChild (bool_decide (is_Some e)) out errs c c' millis.

Inductive exec_step (s : tree) : tree → Prop :=
| ex_ctx refused s' : watch_ctx refused s = Some s' → exec_step s s'
| ex_timer s' : watch_timer s = Some s' → exec_step s s'
| ex_reap s' : reap s = Some s' → exec_step s s'
| ex_join s' : join_watch s = Some s' → exec_step s s'
| ex_copied cut s' : copied cut s = Some s' → exec_step s s'
| ex_timeout s' : copy_timeout s = Some s' → exec_step s s'
| ex_sweep s' : sweep s = Some s' → exec_step s s'
| ex_record s' : record s = Some s' → exec_step s s'
| ex_classify s' : classify s = Some s' → exec_step s s'.

(** ** The processes, and the context *)

Definition fresh_in (pid : nat) (s : tree) : bool := bool_decide (pid ∉ tr_members s ∪ tr_strays s).

(** The child or a member forks: into the group, with or without the pipes. *)
Definition fork (pid : nat) (holds : bool) (s : tree) : option tree :=
  if fresh_in pid s && (is_running (tr_leader s) || negb (bool_decide (tr_members s = ∅))) then
    Some (processes (tr_leader s) ({[pid]} ∪ tr_members s) (tr_strays s)
            (if holds then {[pid]} ∪ tr_holders s else tr_holders s) s)
  else None.
Definition fork_stray (pid : nat) (holds : bool) (s : tree) : option tree :=
  if fresh_in pid s && negb (bool_decide (tr_strays s = ∅)) then
    Some (processes (tr_leader s) (tr_members s) ({[pid]} ∪ tr_strays s)
            (if holds then {[pid]} ∪ tr_holders s else tr_holders s) s)
  else None.

(** A member starts a group of its own. *)
Definition depart (pid : nat) (s : tree) : option tree :=
  if bool_decide (pid ∈ tr_members s) then
    Some (processes (tr_leader s) (tr_members s ∖ {[pid]}) ({[pid]} ∪ tr_strays s) (tr_holders s) s)
  else None.
Definition release (pid : nat) (s : tree) : tree :=
  processes (tr_leader s) (tr_members s) (tr_strays s) (tr_holders s ∖ {[pid]}) s.
Definition exits (pid : nat) (s : tree) : tree :=
  processes (tr_leader s) (tr_members s ∖ {[pid]}) (tr_strays s ∖ {[pid]}) (tr_holders s ∖ {[pid]}) s.
Definition leader_exits (ok : bool) (s : tree) : option tree :=
  if is_running (tr_leader s)
  then Some (processes (Zombie ok) (tr_members s) (tr_strays s) (tr_holders s) s) else None.
Definition ctx_ends (how : ctx_end) (s : tree) : option tree :=
  match tr_ctx s with
  | None => Some (Tree (tr_leader s) (tr_members s) (tr_strays s) (tr_holders s) (tr_closed s) (Some how)
                    (tr_watch s) (tr_wait s))
  | Some _ => None
  end.

Inductive world_step (s : tree) : tree → Prop :=
| wd_fork pid h s' : fork pid h s = Some s' → world_step s s'
| wd_fork_stray pid h s' : fork_stray pid h s = Some s' → world_step s s'
| wd_depart pid s' : depart pid s = Some s' → world_step s s'
| wd_release pid : world_step s (release pid s)
| wd_exits pid : world_step s (exits pid s)
| wd_leader ok s' : leader_exits ok s = Some s' → world_step s s'
| wd_ctx how s' : ctx_ends how s = Some s' → world_step s s'.

Definition tstep (s s' : tree) : Prop := exec_step s s' ∨ world_step s s'.

(** ** Invariant *)

(** A run's error, beside how the child ended and whether the context did. *)
Definition err_ok (ok : bool) (ctx : option ctx_end) (e : option run_err) : Prop :=
  (ok = false ↔ e = Some ExitError) ∧ (ctx = None → e = None ∨ e = Some ExitError ∨ e = Some ErrWaitDelay).

Definition wait_ok (s : tree) : Prop :=
  match tr_wait s with
  | WaitChild => is_reaped (tr_leader s) = false ∧ tr_watch s ≠ WatchGone
  | WaitWatch ok => tr_leader s = Reaped ok ∧ tr_watch s ≠ WatchGone
  | WaitCopies e => ∃ ok, tr_leader s = Reaped ok ∧ err_ok ok (tr_ctx s) e
                        ∧ (tr_ctx s = None → tr_closed s = false)
  | Ran e => ∃ ok, tr_leader s = Reaped ok ∧ err_ok ok (tr_ctx s) e
  | Swept e k | Recorded e k _ | Ended e k _ _ =>
      ∃ ok, tr_leader s = Reaped ok ∧ err_ok ok (tr_ctx s) e
            ∧ (k = true → tr_members s = ∅ ∧ is_Some (tr_ctx s))
  end.

Definition verdict_ok (e : option run_err) : Prop := e ≠ Some ExitError.
Definition watch_ok (s : tree) : Prop :=
  match tr_watch s with
  | WatchCtx => tr_ctx s = None →
      match tr_wait s with WaitChild | WaitWatch _ => tr_closed s = false | _ => True end
  | WatchDelay e => is_Some (tr_ctx s) ∧ verdict_ok e
  | WatchDone e => is_Some (tr_ctx s) ∧ verdict_ok e ∧ tr_leader s ≠ Running
  | WatchGone => True
  end.

(** ** Lemmas *)

Lemma verdict_err ok ctx v :
  verdict_ok v → (ctx = None → v = None) → err_ok ok ctx (if ok then v else Some ExitError).
Proof. unfold verdict_ok, err_ok. destruct ok; naive_solver. Qed.

Lemma err_ok_later ok ctx ctx' e : (ctx' = None → ctx = None) → err_ok ok ctx e → err_ok ok ctx' e.
Proof. intros Hc [H1 H2]. split; auto. Qed.

(** The context's goroutine moves on. *)
Lemma watch_delay_ok v s :
  wait_ok s → is_Some (tr_ctx s) → verdict_ok v →
  wait_ok (at_watch (WatchDelay v) s) ∧ watch_ok (at_watch (WatchDelay v) s).
Proof. intros Hw Hc Hv. split; [|done]. unfold wait_ok in *. cbn. destruct (tr_wait s); naive_solver. Qed.

Lemma watch_done_ok v s :
  wait_ok s → is_Some (tr_ctx s) → verdict_ok v →
  let s' := at_watch (WatchDone v) (close_pipes (kill_leader s)) in wait_ok s' ∧ watch_ok s'.
Proof.
  intros Hw Hc Hv. unfold wait_ok, watch_ok in *. cbn. split; [|by destruct (tr_leader s); split_and!].
  destruct (tr_wait s).
  - destruct (tr_leader s); naive_solver.
  - by destruct Hw as [-> ?].
  - destruct Hw as (ok & -> & He & _). exists ok. split_and!; [done..|]. intros Hn. rewrite Hn in Hc. by destruct Hc.
  - destruct Hw as (ok & -> & He). by exists ok.
  - destruct Hw as (ok & -> & He). by exists ok.
  - destruct Hw as (ok & -> & He). by exists ok.
  - destruct Hw as (ok & -> & He). by exists ok.
Qed.

(** Wait moves on, past the join of that goroutine. *)
Lemma watch_ok_later s w :
  watch_ok s → match w with WaitChild | WaitWatch _ => False | _ => True end →
  watch_ok (at_wait w s) ∧ watch_ok (at_wait w (close_pipes s)) ∧ watch_ok (at_wait w (kill_group s)).
Proof.
  unfold watch_ok. cbn. intros Hc Hw.
  destruct (tr_watch s); split_and!; try done; try (intros; by destruct w); destruct_and?; try done.
  by destruct (tr_leader s).
Qed.

Lemma join_watch_ok s s' : wait_ok s → watch_ok s → join_watch s = Some s' → wait_ok s' ∧ watch_ok s'.
Proof.
  intros Hw Hc. unfold join_watch, wait_ok, watch_ok in *. destruct (tr_wait s) as [|ok| | | | |] eqn:Ht; try done.
  destruct Hw as [Hl _]. destruct (tr_watch s) as [|e|e|] eqn:Hwa; intros Heq; simplify_eq; cbn; (split; [|done]); exists ok.
  - split_and!; [done|by apply (verdict_err ok _ None)|done].
  - destruct Hc as [[c Hctx] Hv]. rewrite Hctx. split_and!; [done|by apply (verdict_err ok _ e)|done].
  - destruct Hc as ([c Hctx] & Hv & _). rewrite Hctx. split_and!; [done|by apply (verdict_err ok _ e)|done].
Qed.

Lemma exec_step_ok s s' : wait_ok s → watch_ok s → exec_step s s' → wait_ok s' ∧ watch_ok s'.
Proof.
  intros Hw Hc [r x H|x H|x H|x H|cut x H|x H|x H|x H|x H].
  - unfold watch_ctx in H. destruct (tr_watch s), (tr_ctx s) eqn:Hctx; try done. simplify_eq.
    apply watch_delay_ok; [done|by rewrite Hctx|by destruct (termGroup r s)].
  - unfold watch_timer in H. unfold watch_ok in Hc. destruct (tr_watch s); try done. simplify_eq.
    by apply watch_done_ok; [|apply Hc..].
  - unfold reap in H. unfold wait_ok, watch_ok in *. destruct (tr_wait s) eqn:Ht; try done.
    destruct (tr_leader s); try done. simplify_eq. cbn. split; [by split; [|apply Hw]|].
    destruct (tr_watch s); try done. by destruct_and?.
  - by eapply join_watch_ok.
  - unfold copied in H. unfold wait_ok in Hw. destruct (tr_wait s) as [| |e| | | |]; try done.
    destruct (_ || _); [|done]. simplify_eq. split; [|by apply watch_ok_later]. destruct Hw as (ok & Hl & [H1 H2] & Hcl).
    exists ok. split; [done|]. destruct e as [x|]; [done|]. destruct (cut && _) eqn:Hb; [|done].
    apply andb_true_iff in Hb as [_ Hb]. split; [naive_solver|]. intros Hn. rewrite Hcl in Hb; done.
  - unfold copy_timeout in H. unfold wait_ok in Hw. destruct (tr_wait s) as [| |e| | | |]; try done.
    simplify_eq. split; [|by apply watch_ok_later]. destruct Hw as (ok & Hl & [H1 H2] & _). exists ok.
    split; [done|]. unfold err_ok. destruct e; cbn; naive_solver.
  - unfold sweep in H. unfold wait_ok in Hw. destruct (tr_wait s); try done. destruct Hw as (ok & Hl & He).
    destruct (tr_ctx s) eqn:Hctx; simplify_eq; (split; [|by apply watch_ok_later]); exists ok; cbn; rewrite Hl, Hctx; by split_and!.
  - unfold record in H. unfold wait_ok in Hw. destruct (tr_wait s); try done. simplify_eq. split; [done|by apply watch_ok_later].
  - unfold classify in H. unfold wait_ok in Hw. destruct (tr_wait s); try done. simplify_eq. split; [done|by apply watch_ok_later].
Qed.

(** The processes touch neither the pipes' our ends nor Wait, and no member
    appears in a group that is gone. *)
Lemma world_step_frame s s' : world_step s s' →
  tr_watch s' = tr_watch s ∧ tr_wait s' = tr_wait s ∧ tr_closed s' = tr_closed s
  ∧ (tr_ctx s' = tr_ctx s ∨ tr_ctx s = None)
  ∧ (tr_leader s' = tr_leader s ∨ tr_leader s = Running ∧ ∃ ok, tr_leader s' = Zombie ok)
  ∧ (tr_members s = ∅ → is_running (tr_leader s) = false → tr_members s' = ∅).
Proof.
  intros [pid h x H|pid h x H|pid x H|pid|pid|ok x H|how x H];
    unfold fork, fork_stray, depart, leader_exits, ctx_ends in *.
  - destruct (_ && _) eqn:Hb; [|done]. simplify_eq. cbn. split_and!; auto. intros He Hr. rewrite He, Hr in Hb.
    rewrite bool_decide_eq_true_2, andb_false_r in Hb by done. done.
  - destruct (_ && _); [|done]. simplify_eq. cbn. split_and!; auto.
  - case_bool_decide; [|done]. simplify_eq. cbn. split_and!; auto. set_solver.
  - cbn. split_and!; auto.
  - cbn. split_and!; auto. set_solver.
  - destruct (tr_leader s); simplify_eq/=. split_and!; eauto.
  - destruct (tr_ctx s); simplify_eq/=. split_and!; auto.
Qed.

Lemma world_step_ok s s' : wait_ok s → watch_ok s → world_step s s' → wait_ok s' ∧ watch_ok s'.
Proof.
  intros Hw Hc (Ha & Hb & Hd & He & Hl & Hm)%world_step_frame.
  assert (Hctx : tr_ctx s' = None → tr_ctx s = None) by (destruct He as [->| ->]; auto).
  assert (Hsome : is_Some (tr_ctx s) → is_Some (tr_ctx s')) by (destruct He as [->| ->]; [done|by intros []]).
  assert (Hreap : ∀ ok, tr_leader s = Reaped ok → tr_leader s' = Reaped ok) by (destruct Hl as [->|[-> _]]; done).
  split.
  - unfold wait_ok in *. rewrite Hb, Ha, Hd. destruct (tr_wait s).
    + split; [|apply Hw]. destruct Hl as [->|[_ [ok ->]]]; [apply Hw|done].
    + destruct Hw. auto.
    + destruct Hw as (ok & H1 & H2 & H3). exists ok. split_and!; eauto using err_ok_later.
    + destruct Hw as (ok & H1 & H2). exists ok. split_and!; eauto using err_ok_later.
    + destruct Hw as (ok & H1 & H2 & H3). exists ok. split_and!; eauto using err_ok_later.
      intros Hk. destruct (H3 Hk). split; [apply Hm; [done|by rewrite H1]|auto].
    + destruct Hw as (ok & H1 & H2 & H3). exists ok. split_and!; eauto using err_ok_later.
      intros Hk. destruct (H3 Hk). split; [apply Hm; [done|by rewrite H1]|auto].
    + destruct Hw as (ok & H1 & H2 & H3). exists ok. split_and!; eauto using err_ok_later.
      intros Hk. destruct (H3 Hk). split; [apply Hm; [done|by rewrite H1]|auto].
  - unfold watch_ok in *. rewrite Hb, Ha, Hd. destruct (tr_watch s); [by intros Hn; apply Hc, Hctx|naive_solver|..|done].
    destruct Hc as (? & ? & ?). split_and!; auto. destruct Hl as [->|[? _]]; done.
Qed.

Lemma tree_reached s : rtc tstep started s → wait_ok s ∧ watch_ok s.
Proof.
  assert (H0 : wait_ok started ∧ watch_ok started) by done. intros H. revert H0.
  induction H as [s|s s1 s2 H1 _ IH]; [done|]. intros [Hw Hc]. apply IH.
  destruct H1; [by eapply exec_step_ok|by eapply world_step_ok].
Qed.

(** ** Lemmas: coming to an end *)

Definition exec_rank (s : tree) : nat :=
  match tr_wait s with
  | WaitChild => 6 | WaitWatch _ => 5 | WaitCopies _ => 4 | Ran _ => 3 | Swept _ _ => 2
  | Recorded _ _ _ => 1 | Ended _ _ _ _ => 0
  end
  + match tr_watch s with WatchCtx => 2 | WatchDelay _ => 1 | _ => 0 end.

(** One of the daemon's steps after any number of the processes'. *)
Definition exec_among (s s' : tree) : Prop := ∃ x, rtc world_step s x ∧ exec_step x s'.

Lemma exec_step_rank s s' : exec_step s s' → (exec_rank s' < exec_rank s)%nat.
Proof.
  unfold exec_rank. intros [r x H|x H|x H|x H|cut x H|x H|x H|x H|x H];
    unfold watch_ctx, watch_timer, reap, join_watch, copied, copy_timeout, sweep, record, classify in H;
    destruct s as [l ms ss hs cl ctx wa wt]; cbn in *; destruct wt, wa; try discriminate H;
    try (destruct ctx; try discriminate H); try (destruct l; try discriminate H);
    try (destruct (_ || _); try discriminate H); injection H as <-; cbn; lia.
Qed.

Lemma world_steps_rank s s' : rtc world_step s s' → exec_rank s' = exec_rank s.
Proof.
  intros H. induction H as [s|s s1 s2 H1 _ IH]; [done|]. rewrite IH.
  apply world_step_frame in H1 as (Ha & Hb & _). unfold exec_rank. by rewrite Ha, Hb.
Qed.

Lemma exec_among_bounded k s s' : nsteps exec_among k s s' → (k ≤ exec_rank s)%nat.
Proof.
  intros H. induction H as [s|k s s1 s2 (x & Hx & H1) _ IH]; [lia|].
  apply exec_step_rank in H1. rewrite (world_steps_rank _ _ Hx) in H1. lia.
Qed.

Lemma exec_progress s : wait_ok s → watch_ok s → is_Some (tr_ctx s) →
  (∃ e k c c', tr_wait s = Ended e k c c') ∨ ∃ s', exec_step s s'.
Proof.
  intros Hw Hc [c Hctx]. unfold wait_ok, watch_ok in *.
  destruct (tr_wait s) as [|ok|e|e|e k|e k c1|e k c1 c2] eqn:Ht; [..|by left; eauto]; right.
  - destruct Hw as [Hl Hg]. destruct (tr_leader s) as [|ok|ok] eqn:Hr; [|eexists; apply ex_reap; unfold reap; by rewrite Ht, Hr|done].
    destruct (tr_watch s) eqn:Hwa; [| |by destruct Hc as (_ & _ & ?)|done].
    + eexists. apply (ex_ctx _ false). unfold watch_ctx. by rewrite Hwa, Hctx.
    + eexists. apply ex_timer. unfold watch_timer. by rewrite Hwa.
  - destruct (tr_watch s) eqn:Hwa; [..|by destruct Hw]; eexists; apply ex_join; unfold join_watch; by rewrite Ht, Hwa.
  - eexists. apply ex_timeout. unfold copy_timeout. by rewrite Ht.
  - eexists. apply ex_sweep. unfold sweep. by rewrite Ht.
  - eexists. apply ex_record. unfold record. by rewrite Ht.
  - eexists. apply ex_classify. unfold classify. by rewrite Ht.
Qed.

(** The group is gone for good. *)
Definition group_gone (s : tree) : Prop := is_reaped (tr_leader s) = true ∧ tr_members s = ∅.

Lemma group_gone_step s s' : group_gone s → tstep s s' → group_gone s'.
Proof.
  intros [Hl Hm] [H|H].
  - destruct H as [r x H|x H|x H|x H|cut x H|x H|x H|x H|x H];
      unfold watch_ctx, watch_timer, reap, join_watch, copied, copy_timeout, sweep, record, classify, group_gone in *;
      destruct (tr_leader s) eqn:Hr; repeat case_match; simplify_eq/=; by rewrite ?Hr.
  - apply world_step_frame in H as (_ & _ & _ & _ & Hl' & Hm'). destruct (tr_leader s); try done.
    destruct Hl' as [Hl'|[? _]]; [|done]. split; [by rewrite Hl'|by apply Hm'].
Qed.

Lemma group_gone_steps s s' : group_gone s → rtc tstep s s' → group_gone s'.
Proof. intros Hg H. induction H; eauto using group_gone_step. Qed.

(** The sweep was sent, or will be: the context ended in time for it. *)
Definition must_sweep (s : tree) : Prop :=
  match tr_wait s with Swept _ k | Recorded _ k _ | Ended _ k _ _ => k = true | _ => is_Some (tr_ctx s) end.

Lemma must_sweep_step s s' : must_sweep s → tstep s s' → must_sweep s'.
Proof.
  intros Hm [H|H].
  - destruct H as [r x H|x H|x H|x H|cut x H|x H|x H|x H|x H];
      unfold watch_ctx, watch_timer, reap, join_watch, copied, copy_timeout, sweep, record, classify, must_sweep in *;
      destruct s as [l ms ss hs cl ctx wa wt]; cbn in *; repeat case_match; simplify_eq/=; try done;
      by destruct Hm.
  - apply world_step_frame in H as (_ & Hb & _ & He & _). unfold must_sweep in *. rewrite Hb.
    destruct (tr_wait s); try done; (destruct He as [->|He]; [done|rewrite He in Hm; by destruct Hm]).
Qed.

Lemma must_sweep_ends s s' : must_sweep s → rtc tstep s s' → must_sweep s'.
Proof. intros Hm H. induction H; eauto using must_sweep_step. Qed.

(** ** Properties *)


#[local] Tactic Notation "exec_" uconstr(c) := eapply rtc_l; [left; eapply c; by vm_compute|].
#[local] Tactic Notation "world_" uconstr(c) := eapply rtc_l; [right; eapply c; by vm_compute|].

Lemma rtc_end (s s' : tree) : s = s' → rtc tstep s s'.
Proof. by intros ->. Qed.

(** A child that ignores TERM, with a member that holds its pipes. *)
Definition deaf : tree :=
  Tree Running {[1%nat]} ∅ {[1%nat]} false (Some DeadlineExceeded) WatchCtx WaitChild.
Definition deaf_end : tree :=
  Tree (Reaped false) ∅ ∅ ∅ true (Some DeadlineExceeded) WatchGone
    (Ended (Some ExitError) true (Some DeadlineExceeded) (Some DeadlineExceeded)).

Lemma deaf_reached : rtc tstep started deaf.
Proof. world_ (wd_fork started 1 true). world_ wd_ctx. apply rtc_end. by vm_compute. Qed.
Lemma deaf_ends : rtc tstep deaf deaf_end.
Proof.
  exec_ (ex_ctx deaf false). exec_ ex_timer. exec_ ex_reap. exec_ ex_join. exec_ ex_timeout. exec_ ex_sweep.
  exec_ ex_record. exec_ ex_classify. apply rtc_end. by vm_compute.
Qed.


(** Three ends the comments of engine.go do not expect.  A child that exited
    with 0 while the context lived is recorded and reported as killed by the
    deadline: Cancel runs before Wait has reaped it, and a zombie still counts
    as its group. *)
Theorem clean_exit_misfiled :
  ∃ s s', rtc tstep started s ∧ tr_leader s = Zombie true ∧ tr_ctx s = None ∧ rtc tstep s s'
    ∧ tr_wait s' = Ended (Some CtxErr) true (Some DeadlineExceeded) (Some DeadlineExceeded)
    ∧ tr_leader s' = Reaped true.
Proof.
  eexists _, _. split; [world_ (wd_leader started true); by apply rtc_end|]. do 2 (split; [reflexivity|]).
  split.
  { world_ (wd_ctx _ DeadlineExceeded). exec_ (ex_ctx _ false). exec_ ex_reap. exec_ ex_join.
    exec_ (ex_copied _ false). exec_ ex_sweep. exec_ ex_record. exec_ ex_classify. by apply rtc_end. }
  by split.
Qed.

(** A turn that answers success can be recorded as a timeout: the deadline
    passed after the child had ended by itself. *)
Theorem success_recorded_as_timeout :
  ∃ s c', rtc tstep started s ∧ tr_wait s = Ended None true (Some DeadlineExceeded) c'
    ∧ ∀ out errs millis snap, let cd := child_of None (Some DeadlineExceeded) c' out errs millis in
      turn_error cd = None ∧ outcome_of snap (cd_failed cd) (cd_ctx_record cd) = "timeout"%string.
Proof.
  eexists _, _. split.
  { world_ (wd_leader started true). exec_ ex_reap. exec_ ex_join. world_ (wd_ctx _ DeadlineExceeded).
    exec_ (ex_copied _ false). exec_ ex_sweep. exec_ ex_record. exec_ ex_classify. by apply rtc_end. }
  by split.
Qed.

(** A tool child that outlives its turn: the child exited with 0, the turn
    fails because the pipes stayed open, and nothing is swept. *)
Theorem straggler_outlives_turn :
  ∃ s, rtc tstep started s ∧ tr_wait s = Ended (Some ErrWaitDelay) false None None
    ∧ tr_leader s = Reaped true ∧ tr_members s ≠ ∅.
Proof.
  eexists. split.
  { world_ (wd_fork started 1 true). world_ (wd_leader _ true). exec_ ex_reap. exec_ ex_join. exec_ ex_timeout.
    exec_ ex_sweep. exec_ ex_record. exec_ ex_classify. by apply rtc_end. }
  split_and!; [reflexivity..|by vm_compute].
Qed.
