(* ===== verification/Resend.v ===== *)
(** * The outbox pump (src/internal/delivery/resend.go)

    One pass of [ResendUnacked] over the rows still owed a send, the sweep that
    composes missing notices, and a pump pass.  The senders are the channels
    with a live adapter; what the platform answers, when the context ends and
    which rows a live relay holds are arbitrary. *)
From S2P Require Import Prelude Schema Events Deliveries DeadLetters Surface StoreSpec.
From S2P Require Import StoreInv StoreOps Env.
Local Open Scope Z_scope.

(** ** Definitions *)

(** strings.Cut(target, ":"): the prefix before the first colon, or all of it. *)
Fixpoint channelOf (target : string) : string :=
  match target with
  | EmptyString => EmptyString
  | String c s => if Ascii.eqb c ":"%char then EmptyString else String c (channelOf s)
  end.

Section pass.
(** [senders c]: channel [c] has a sender.  [held i k]: key [k] is claimed by a
    live relay when row [i] of the scan is examined. *)
Context {SA : StoreAccess} (senders : string → bool) (held : nat → string → bool) (clock : nat → Z).

Fixpoint resend_loop (i : nat) (rows : list ResendableDelivery) (stopped : gset string)
    : EnvM unit :=
  match rows with
  | [] => mret tt
  | d :: rows' =>
      let stop := resend_loop (S i) rows' ({[rd_Target d]} ∪ stopped) in
      over ← ctx_err;
      if (over : bool) then mret tt
      else if bool_decide (rd_Target d ∈ stopped) then resend_loop (S i) rows' stopped
      else if held i (rd_DeliveryKey d) then stop
      else if negb (senders (channelOf (rd_Target d))) then stop
      else
        t ← now clock;
        stamped ← try (liftS (MarkDeliveryAttempt (rd_ID d) t));
        match stamped with
        | Err _ => stop
        | Ok _ =>
            accepted ← platform;
            _ ← emit (FxSend (rd_ID d) (rd_Target d) (rd_Payload d) accepted);
            if negb accepted then stop
            else
              t' ← now clock;
              acked ← try (liftS (AckDelivery (rd_ID d) t'));
              match acked with
              | Err _ => stop
              | Ok _ => resend_loop (S i) rows' stopped
              end
        end
  end.

Definition ResendUnacked : EnvM unit :=
  rows ← try (liftS ResendableDeliveries);
  match rows with
  | Err _ => mret tt
  | Ok rows => resend_loop 0 rows ∅
  end.

(** Each unsurfaced event in turn; a failure waits for the next pass. *)
Fixpoint surface_all (surface : QueuedEvent → StoreM unit) (evs : list QueuedEvent) : StoreM unit :=
  match evs with
  | [] => mret tt
  | ev :: evs' => _ ← try (surface ev); surface_all surface evs'
  end.

Definition sweepUnsurfacedParks (gated : bool) : StoreM unit :=
  evs ← try UnsurfacedInterruptedEvents;
  match evs with
  | Err _ => mret tt
  | Ok evs =>
      _ ← surface_all (SurfaceInterruptedCoordinated gated) evs;
      deaths ← try UnsurfacedDeadLetters;
      match deaths with
      | Err _ => mret tt
      | Ok deaths => surface_all (SurfaceDeadLetterCoordinated gated) deaths
      end
  end.

(** The [pass] closure of Pump. *)
Definition pump_pass (gated : bool) : EnvM unit :=
  _ ← liftS (sweepUnsurfacedParks gated);
  ResendUnacked.

(** Pump: a pass at start, then one per kick or tick until the context ends,
    which [n] wake-ups stand for. *)
Fixpoint Pump (gated : bool) (n : nat) : EnvM unit :=
  match n with
  | O => pump_pass gated
  | S n' => _ ← pump_pass gated; Pump gated n'
  end.
End pass.

(** ** What a pass did *)

Definition send_to (t : string) (x : effect) : option (Z * string * bool) :=
  match x with
  | FxSend id target payload ok => if String.eqb target t then Some (id, payload, ok) else None
  | _ => None
  end.

(** The messages a trace shows for one target, in order. *)
Definition sends_to (t : string) (tr : list effect) : list (Z * string * bool) :=
  omap (send_to t) tr.

Definition owed_to (t : string) (rows : list ResendableDelivery) : list (Z * string) :=
  map (λ d, (rd_ID d, rd_Payload d)) (List.filter (λ d, String.eqb (rd_Target d) t) rows).

(** A prefix of the owed rows, in their order, all but the last accepted. *)
Definition in_order (rows : list (Z * string)) (sent : list (Z * string * bool)) : Prop :=
  map fst sent `prefix_of` rows ∧ ∀ n x, sent !! n = Some x → (S n < length sent)%nat → x.2 = true.

(** ** Lemmas: order *)

Lemma sends_to_app t tr tr' : sends_to t (tr ++ tr') = sends_to t tr ++ sends_to t tr'.
Proof. apply omap_app. Qed.

Lemma sends_to_cons t x tr :
  sends_to t (x :: tr)
  = match send_to t x with Some y => y :: sends_to t tr | None => sends_to t tr end.
Proof. done. Qed.

Lemma owed_to_cons t d rows :
  owed_to t (d :: rows)
  = (if String.eqb (rd_Target d) t then [(rd_ID d, rd_Payload d)] else []) ++ owed_to t rows.
Proof. unfold owed_to. simpl. by destruct (String.eqb _ _). Qed.

Lemma in_order_nil rows : in_order rows [].
Proof. split; [apply prefix_nil|]. intros n x H. by rewrite lookup_nil in H. Qed.

Lemma in_order_one r ok rows : in_order (r :: rows) [(r, ok)].
Proof.
  split; [apply prefix_cons, prefix_nil|].
  intros [|n] x; simpl; [lia|done].
Qed.

Lemma in_order_cons r rows sent :
  in_order rows sent → in_order (r :: rows) ((r, true) :: sent).
Proof.
  intros [Hp Hok]. split; [by apply prefix_cons|].
  intros [|n] x Hx Hn; simpl in *; [by simplify_eq|]. apply (Hok n x Hx). lia.
Qed.

(** What the rest of the pass owes every target, given the stopped ones. *)
Definition ordered (rows : list ResendableDelivery) (stopped : gset string) (tr : list effect) : Prop :=
  ∀ t, (t ∈ stopped → sends_to t tr = []) ∧ in_order (owed_to t rows) (sends_to t tr).

Lemma ordered_nil rows stopped : ordered rows stopped [].
Proof. intros t. split; [done|apply in_order_nil]. Qed.

(** A row passed over, its target stopped before or now. *)
Lemma ordered_skip d rows stopped stopped' tr :
  ordered rows stopped' tr → stopped ⊆ stopped' → rd_Target d ∈ stopped' →
  ordered (d :: rows) stopped tr.
Proof.
  intros H Hsub Hd t. destruct (H t) as [Hs Ho]. split; [auto|].
  rewrite owed_to_cons. destruct (String.eqb_spec (rd_Target d) t) as [<-|?]; [|done].
  rewrite Hs by done. apply in_order_nil.
Qed.

(** A row sent: its target goes on only when the send was accepted. *)
Lemma ordered_send d rows stopped stopped' ok tr :
  ordered rows stopped' tr → stopped ⊆ stopped' → rd_Target d ∉ stopped →
  (ok = false → rd_Target d ∈ stopped') →
  ordered (d :: rows) stopped (FxSend (rd_ID d) (rd_Target d) (rd_Payload d) ok :: tr).
Proof.
  intros H Hsub Hd Hno t. destruct (H t) as [Hs Ho].
  rewrite sends_to_cons, owed_to_cons. simpl.
  destruct (String.eqb_spec (rd_Target d) t) as [<-|Hne]; [|split; [auto|done]].
  split; [done|]. simpl. destruct ok.
  - by apply in_order_cons.
  - rewrite Hs by auto. apply in_order_one.
Qed.

(** ** Lemmas: what a pass writes *)

Lemma MarkDeliveryAttempt_wpd id t (Q : result err unit → db → Prop) d :
  (∀ e, Q (Err e) d) →
  (∀ r, deliveries d !! id = Some r → owed r = true →
     Q (Ok tt) (set_deliveries (<[id := delivery_upd (dr_status r) (dr_attempts r + 1) (Some t)
                                         (dr_acked r) r]> (deliveries d)) d)) →
  wpd (MarkDeliveryAttempt id t) Q d.
Proof.
  intros He Hok. unfold MarkDeliveryAttempt. wpd_step. wpd_step; [done|].
  upd_cases; simpl; wpd_step; [done|]. by apply Hok.
Qed.

(** An ack changes the outbox in its own row only, and only from owed to sent. *)
Lemma AckDelivery_wpd id t (Q : result err unit → db → Prop) d :
  (∀ e, Q (Err e) d) →
  (∀ r, deliveries d !! id = Some r → dr_acked r ≠ None → Q (Ok tt) d) →
  (∀ r d', deliveries d !! id = Some r → owed r = true →
     deliveries d' = <[id := sent_row t r]> (deliveries d) → Q (Ok tt) d') →
  wpd (AckDelivery id t) Q d.
Proof.
  intros He Hdup Hok. unfold AckDelivery. wpd_step; [done|]. wpd_step. wpd_step; [done|].
  upd_cases; simpl.
  { wpd_step. wpd_step; [done|]. destruct (deliveries d !! id) as [r|] eqn:Hr; [|by wpd_step].
    destruct (dr_acked r) eqn:Ha; wpd_step; [|done]. eapply Hdup; [done|congruence]. }
  wpd_step. wpd_step; [done|]. simpl. rewrite lookup_insert_eq. simpl.
  destruct (dr_event_id x) as [eid|]; [|by wpd_step; eapply Hok].
  wpd_step. wpd_step; [done|].
  assert (Hd : deliveries d' = <[id := sent_row t x]> (deliveries d)).
  { unfold advance_replied in *. by upd_cases. }
  wpd_step; [|by wpd_step; eapply Hok]. wpd_step. wpd_step; [done|].
  wpd_step; [|by wpd_step]. wpd_step; wpd_step; [done|]. by eapply Hok.
Qed.

Definition accepted_send (id : Z) (tr : list effect) : Prop :=
  ∃ target payload, FxSend id target payload true ∈ tr.

Definition is_send (id : Z) (x : effect) : bool :=
  match x with FxSend i _ _ _ => Z.eqb i id | _ => false end.
Definition sends_of (id : Z) (tr : list effect) : Z :=
  Z.of_nat (length (List.filter (is_send id) tr)).

(** What a pass may do to a row: nothing is dropped, rewritten or given up, a
    row is acked only after the platform accepted a send of it, and every send
    was stamped. *)
Record row_settled (tr : list effect) (id : Z) (r r' : delivery_row) : Prop := RowSettled {
  rs_content : (dr_delivery_key r', dr_event_id r', dr_target r', dr_payload r')
               = (dr_delivery_key r, dr_event_id r, dr_target r, dr_payload r);
  rs_failed : dr_status r' = Failed → dr_status r = Failed;
  rs_acked : dr_acked r' ≠ None → dr_acked r ≠ None ∨ accepted_send id tr;
  rs_stamped : dr_attempts r + sends_of id tr ≤ dr_attempts r';
}.

Definition settled (tr : list effect) (d d' : db) : Prop :=
  ∀ id r, deliveries d !! id = Some r →
    ∃ r', deliveries d' !! id = Some r' ∧ row_settled tr id r r'.

Lemma settled_nil d d' : deliveries d' = deliveries d → settled [] d d'.
Proof.
  intros Heq id r Hr. exists r. rewrite Heq. split; [done|]. split; auto.
  unfold sends_of. simpl. lia.
Qed.

Lemma settled_app tr tr' d d1 d2 :
  settled tr d d1 → settled tr' d1 d2 → settled (tr ++ tr') d d2.
Proof.
  intros H1 H2 id r Hr. destruct (H1 _ _ Hr) as (r1 & Hr1 & [c1 f1 a1 s1]).
  destruct (H2 _ _ Hr1) as (r2 & Hr2 & [c2 f2 a2 s2]). exists r2. split; [done|]. split.
  - congruence.
  - auto.
  - intros Ha. destruct (a2 Ha) as [Ha1|(t & p & Hin)].
    + destruct (a1 Ha1) as [?|(t & p & Hin)]; [by left|]. right. exists t, p. set_solver.
    + right. exists t, p. set_solver.
  - unfold sends_of in *. rewrite List.filter_app, length_app. lia.
Qed.

(** The attempt stamp of one row, and the send it covers. *)
Lemma settled_stamp id r t target payload ok d d' :
  deliveries d !! id = Some r → owed r = true →
  deliveries d' = <[id := delivery_upd (dr_status r) (dr_attempts r + 1) (Some t) (dr_acked r) r]>
                    (deliveries d) →
  settled [FxSend id target payload ok] d d'.
Proof.
  intros Hr Ho Heq k x Hk. rewrite Heq. destruct (decide (id = k)) as [<-|Hne].
  - simplify_eq. eexists. rewrite lookup_insert_eq. split; [done|]. split; simpl; auto.
    unfold sends_of. simpl. rewrite Z.eqb_refl. simpl. lia.
  - exists x. rewrite lookup_insert_ne by done. split; [done|]. split; auto.
    unfold sends_of. simpl. destruct (Z.eqb_spec id k); [done|]. simpl. lia.
Qed.

(** The ack after an accepted send. *)
Lemma settled_ack id r t tr d d1 d2 :
  settled tr d d1 → accepted_send id tr → deliveries d1 !! id = Some r →
  deliveries d2 = <[id := sent_row t r]> (deliveries d1) → settled tr d d2.
Proof.
  intros H Hacc Hr Heq k x Hk. destruct (H _ _ Hk) as (x1 & Hx1 & [c1 f1 a1 s1]).
  rewrite Heq. destruct (decide (id = k)) as [<-|Hne].
  - simplify_eq. eexists. rewrite lookup_insert_eq. split; [done|]. split; simpl; try done; auto. congruence.
  - exists x1. rewrite lookup_insert_ne by done. by split.
Qed.

(** ** The pass *)

Section properties.
Context (senders : string → bool) (held : nat → string → bool) (clock : nat → Z).

(** What a pass over [rows] from [e] leaves. *)
Definition passed (rows : list ResendableDelivery) (stopped : gset string) (e : env)
    (r : result err unit) (e' : env) : Prop :=
  r = Ok tt ∧ ∃ tr, env_trace e' = env_trace e ++ tr
    ∧ ordered rows stopped tr ∧ settled tr (env_db e) (env_db e').

(** The row [d] wrote [tr0] and left [stopped'] for the rest of the pass. *)
Lemma passed_row d rows stopped stopped' tr0 e e1 i :
  (∀ e2, wpe (resend_loop senders held clock i rows stopped') (passed rows stopped' e2) e2) →
  env_trace e1 = env_trace e ++ tr0 → settled tr0 (env_db e) (env_db e1) →
  (∀ tr, ordered rows stopped' tr → ordered (d :: rows) stopped (tr0 ++ tr)) →
  wpe (resend_loop senders held clock i rows stopped') (passed (d :: rows) stopped e) e1.
Proof.
  intros IH Htr Hset Hord. eapply wpe_mono; [apply IH|].
  intros r e' (-> & tr & Htr' & Ho & Hs). split; [done|]. exists (tr0 ++ tr).
  rewrite Htr', Htr, <-(assoc_L app). eauto using settled_app.
Qed.

Lemma resend_loop_wpe rows i stopped e :
  wpe (resend_loop senders held clock i rows stopped) (passed rows stopped e) e.
Proof.
  revert i stopped e. induction rows as [|d rows IH]; intros i stopped e; simpl.
  { wpe_step. split; [done|]. exists []. rewrite app_nil_r.
    auto using ordered_nil, settled_nil. }
  pose proof (λ stopped' tr0 e1,
    passed_row d rows stopped stopped' tr0 e e1 (S i) (IH (S i) stopped')) as Hrest.
  wpe_step. wpe_step. wpe_step.
  { wpe_step. split; [done|]. exists []. rewrite app_nil_r.
    auto using ordered_nil, settled_nil. }
  wpe_step.
  { eapply (Hrest _ []); simpl; rewrite ?app_nil_r; auto using settled_nil.
    intros tr Htr. apply bool_decide_eq_true in Heqb1. by eapply ordered_skip. }
  apply bool_decide_eq_false in Heqb1.
  assert (Hstop : ∀ tr, ordered rows ({[rd_Target d]} ∪ stopped) tr → ordered (d :: rows) stopped tr).
  { intros tr Htr. eapply ordered_skip; [done|set_solver..]. }
  wpe_step; [eapply (Hrest _ []); simpl; rewrite ?app_nil_r; auto using settled_nil|].
  wpe_step; [eapply (Hrest _ []); simpl; rewrite ?app_nil_r; auto using settled_nil|].
  wpe_step. wpe_step. wpe_step. wpe_step. wpe_step.
  apply MarkDeliveryAttempt_wpd.
  { intros x fs. eapply (Hrest _ []); simpl; rewrite ?app_nil_r; auto using settled_nil. }
  intros r Hr Ho fs. wpe_step. wpe_step. wpe_step. wpe_step.
  set (x := FxSend _ _ _ _).
  assert (Hst : settled [x] (env_db e) (set_deliveries
    (<[rd_ID d := delivery_upd (dr_status r) (dr_attempts r + 1) (Some (clock (env_ticks e)))
         (dr_acked r) r]> (deliveries (env_db e))) (env_db e))).
  { by eapply settled_stamp. }
  wpe_step.
  { apply negb_true_iff in Heqb4. subst b0. eapply (Hrest _ [x]); auto.
    intros tr Htr. eapply ordered_send; [done|set_solver..]. }
  apply negb_false_iff in Heqb4. subst b0.
  wpe_step. wpe_step. wpe_step. wpe_step. wpe_step.
  apply AckDelivery_wpd.
  - intros err' fs'. eapply (Hrest _ [x]); auto.
    intros tr Htr. eapply ordered_send; [done|set_solver..].
  - intros r1 Hr1 Ha fs'. eapply (Hrest _ [x]); auto. intros tr Htr. by eapply ordered_send.
  - intros r1 d' Hr1 Ho1 Hd' fs'. eapply (Hrest _ [x]); auto; [|intros tr Htr; by eapply ordered_send].
    eapply settled_ack; [done| |done|done]. eexists _, _. by left.
Qed.

(** C13: the outbox pump keeps each conversation in order and loses nothing.
    Whatever fails during a pass (store, platform, context, live claims), the
    messages it sends to a target are a prefix of the rows owed to that target
    in compose order, each with its persisted payload and every one but the last
    accepted; every row survives with its content; a row is acked only after the
    platform accepted it, no row is given up, and every send was stamped as an
    attempt. *)
Theorem ResendUnacked_ordered e :
  let '(r, e') := ResendUnacked senders held clock e in
  r = Ok tt ∧ ∃ tr, env_trace e' = env_trace e ++ tr
  ∧ settled tr (env_db e) (env_db e')
  ∧ ∀ t, in_order (owed_to t (owed_rows (env_db e))) (sends_to t tr).
Proof.
  change (wpe (ResendUnacked senders held clock) (λ r e', r = Ok tt ∧ ∃ tr,
    env_trace e' = env_trace e ++ tr ∧ settled tr (env_db e) (env_db e')
    ∧ ∀ t, in_order (owed_to t (owed_rows (env_db e))) (sends_to t tr)) e).
  unfold ResendUnacked, ResendableDeliveries. wpe_step. wpe_step. wpe_step.
  apply wpd_query; intros fs.
  { wpe_step. split; [done|]. exists []. rewrite app_nil_r. split; [done|].
    split; [by apply settled_nil|]. intros t. apply in_order_nil. }
  eapply wpe_mono; [apply resend_loop_wpe|].
  intros r e' (-> & tr & Htr & Ho & Hs). split; [done|]. exists tr. split_and!; [done..|].
  intros t. apply (Ho t).
Qed.

(** *** A healthy pass *)

(** The bound event of an owed row exists and is past its turn. *)
Definition turn_over (d : db) (r : delivery_row) : Prop :=
  ∀ i, dr_event_id r = Some i →
    ∃ ev, events d !! i = Some ev ∧ er_status ev ∉ [Received; Processing].

Definition healthy (e : env) : Prop :=
  w_faults (env_world e) = [] ∧ env_ctx e = [] ∧ env_plat e = [].

Lemma run_MarkDeliveryAttempt id t d r :
  deliveries d !! id = Some r → owed r = true →
  run (MarkDeliveryAttempt id t) d
  = (Ok tt, set_deliveries (<[id := delivery_upd (dr_status r) (dr_attempts r + 1) (Some t)
                                      (dr_acked r) r]> (deliveries d)) d).
Proof.
  intros Hr Ho. unfold MarkDeliveryAttempt, upd_delivery. run_simpl. by rewrite Hr, Ho.
Qed.

Lemma run_AckDelivery_settles id t d r :
  deliveries d !! id = Some r → owed r = true → turn_over d r →
  ∃ d', run (AckDelivery id t) d = (Ok tt, d')
  ∧ deliveries d' = <[id := sent_row t r]> (deliveries d)
  ∧ ∀ i ev, events d !! i = Some ev → er_status ev ∉ [Received; Processing] →
      ∃ ev', events d' !! i = Some ev' ∧ er_status ev' ∉ [Received; Processing].
Proof.
  intros Hr Ho Hover. unfold AckDelivery, upd_delivery. run_simpl. rewrite Hr, Ho. simpl.
  rewrite lookup_insert_eq. simpl. destruct (dr_event_id r) as [i|] eqn:Hi; [|by eauto 10].
  destruct (Hover i Hi) as (ev & Hev & Hst). unfold advance_replied, upd_event. simpl.
  rewrite Hev. destruct (_ && _) eqn:Hg; simpl.
  - eexists. split; [done|]. split; [done|]. simpl. intros j ev' Hj Hs.
    destruct (decide (i = j)) as [<-|Hne].
    + eexists. rewrite lookup_insert_eq. split; [done|]. simpl. set_solver.
    + exists ev'. by rewrite lookup_insert_ne.
  - rewrite Hev. assert (Hq : has_status [Received; Processing] ev = false)
      by (unfold has_status; by apply bool_decide_eq_false).
    rewrite Hq. simpl. eauto 10.
Qed.

(** What a healthy store call does to the environment. *)
Lemma liftS_run {A} (m : StoreM A) e a d' :
  calm m → w_faults (env_world e) = [] → run m (env_db e) = (Ok a, d') →
  liftS m e = (Ok a, Env (World d' []) (env_ticks e) (env_ctx e) (env_plat e) (env_trace e)).
Proof.
  intros Hc Hf Hr. destruct e as [[d fs] tk c p tr]. simpl in *. subst. unfold env_db in Hr. simpl in Hr.
  specialize (Hc d). unfold run, liftS, exclusive, store_call in *. simpl in *.
  destruct (m (World d [])) as [r [d1 fs1]]. simpl in *. by simplify_eq.
Qed.

Lemma wpe_lift_run {A} (m : StoreM A) Q e a d' :
  calm m → w_faults (env_world e) = [] → run m (env_db e) = (Ok a, d') →
  Q (Ok a) (Env (World d' []) (env_ticks e) (env_ctx e) (env_plat e) (env_trace e)) →
  wpe (liftS m) Q e.
Proof. intros Hc Hf Hr HQ. unfold wpe. by rewrite (liftS_run m e a d'). Qed.

Lemma calm_MarkDeliveryAttempt id t : calm (MarkDeliveryAttempt id t).
Proof. unfold MarkDeliveryAttempt. apply calm_bind; [auto with calm|]. intros n. case_match; auto with calm. Qed.

Lemma calm_AckDelivery id t : calm (AckDelivery id t).
Proof.
  unfold AckDelivery.
  repeat first [ apply calm_in_tx | apply calm_bind; [|intros ?] | apply calm_exec | apply calm_query
               | apply calm_ret | apply calm_refuse | case_match ].
Qed.

(** One send of a healthy pass: stamped, accepted, acked. *)
Definition sent_ok (d : ResendableDelivery) : effect :=
  FxSend (rd_ID d) (rd_Target d) (rd_Payload d) true.

Definition due (d : db) (x : ResendableDelivery) : Prop :=
  senders (channelOf (rd_Target x)) = true
  ∧ ∃ r, deliveries d !! rd_ID x = Some r ∧ owed r = true ∧ turn_over d r.

(** Settling one row leaves the others due. *)
Lemma due_settled d d' x y r :
  due d y → rd_ID x ≠ rd_ID y → deliveries d' = <[rd_ID x := r]> (deliveries d) →
  (∀ i ev, events d !! i = Some ev → er_status ev ∉ [Received; Processing] →
     ∃ ev', events d' !! i = Some ev' ∧ er_status ev' ∉ [Received; Processing]) →
  due d' y.
Proof.
  intros (Hs & ry & Hy & Ho & Ht) Hne Hd Hev. split; [done|]. exists ry.
  rewrite Hd, lookup_insert_ne by done. split_and!; [done..|].
  intros i Hi. destruct (Ht i Hi) as (ev & ? & ?). eauto.
Qed.

Lemma resend_loop_healthy rows i e :
  (∀ j k, held j k = false) → healthy e → NoDup (map rd_ID rows) →
  (∀ x, x ∈ rows → due (env_db e) x) →
  wpe (resend_loop senders held clock i rows ∅)
    (λ r e', env_trace e' = env_trace e ++ map sent_ok rows
       ∧ (∀ x, x ∈ rows → ∃ r, deliveries (env_db e') !! rd_ID x = Some r ∧ dr_acked r ≠ None)
       ∧ (∀ id, id ∉ map rd_ID rows → deliveries (env_db e') !! id = deliveries (env_db e) !! id)) e.
Proof.
  intros Hheld. revert i e. induction rows as [|x rows IH]; intros i e He Hnd Hdue; simpl.
  { wpe_step. rewrite app_nil_r. split_and!; try done. by intros x ?%elem_of_nil. }
  destruct e as [[d fs] tk cs ps tr]. destruct He as (Hf & Hc & Hp). simpl in Hf, Hc, Hp. subst.
  simpl in Hnd. apply NoDup_cons in Hnd as [Hx Hnd].
  destruct (Hdue x ltac:(by left)) as (Hs & r & Hr & Ho & Ht).
  unfold env_db in Hr, Ht, Hdue. simpl in Hr, Ht, Hdue.
  wpe_step. unfold ctx_err, wpe at 1. simpl. rewrite bool_decide_false by set_solver.
  rewrite Hheld, Hs. simpl. wpe_step. wpe_step. wpe_step. wpe_step.
  set (t0 := clock tk). eapply wpe_lift_run;
    [apply calm_MarkDeliveryAttempt|done|by apply run_MarkDeliveryAttempt|]. simpl.
  set (r1 := delivery_upd _ _ _ _ r). set (d1 := set_deliveries _ _).
  wpe_step. unfold platform, wpe at 1. simpl. wpe_step. wpe_step. simpl. wpe_step. wpe_step.
  wpe_step. wpe_step.
  assert (Hr1 : deliveries d1 !! rd_ID x = Some r1) by apply lookup_insert_eq.
  destruct (run_AckDelivery_settles (rd_ID x) (clock (S tk)) d1 r1 Hr1 Ho Ht)
    as (d2 & Hrun & Hd2 & Hev).
  eapply wpe_lift_run; [apply calm_AckDelivery|done|done|]. simpl.
  assert (Hd2' : deliveries d2 = <[rd_ID x := sent_row (clock (S tk)) r1]> (deliveries d)).
  { rewrite Hd2. unfold d1. simpl. by rewrite insert_insert_eq. }
  eapply wpe_mono; [apply IH; [done|done|]|].
  - intros y Hy. eapply (due_settled d d2 x y); [apply Hdue; by right| |done|done].
    intros Heq. apply Hx. rewrite Heq. apply list_elem_of_In, in_map, list_elem_of_In, Hy.
  - unfold env_db. simpl. intros _ e' (Htr & Hall & Hrest). split_and!.
    + rewrite Htr, <-(assoc_L app). done.
    + intros y [->|Hy]%elem_of_cons; [|by apply Hall].
      exists (sent_row (clock (S tk)) r1). rewrite Hrest by done. rewrite Hd2', lookup_insert_eq. done.
    + intros id Hid. rewrite Hrest by set_solver. rewrite Hd2', lookup_insert_ne; [done|set_solver].
Qed.

(** The rows a scan returns. *)
Lemma elem_of_owed_rows d x :
  x ∈ owed_rows d ↔ ∃ r, deliveries d !! rd_ID x = Some r ∧ owed r = true
                         ∧ x = resendable_of (rd_ID x) r.
Proof.
  unfold owed_rows. rewrite list_elem_of_In, in_map_iff. split.
  - intros ([k r] & <- & [Hin Ho]%filter_In). simpl in *. exists r.
    split; [|done]. by apply elem_of_sorted_rows, list_elem_of_In.
  - intros (r & Hr & Ho & Hx). exists (rd_ID x, r). split; [done|].
    apply filter_In. split; [|done]. by apply list_elem_of_In, elem_of_sorted_rows.
Qed.

Lemma NoDup_owed_rows d : NoDup (map rd_ID (owed_rows d)).
Proof.
  unfold owed_rows. rewrite map_map. simpl.
  assert (Hn := NoDup_sorted_rows_fst (deliveries d)). revert Hn.
  induction (sorted_rows (deliveries d)) as [|[k r] l IH]; simpl; intros Hn; [constructor|].
  apply NoDup_cons in Hn as [Hk Hn]. destruct (owed r); simpl; [|by apply IH].
  constructor; [|by apply IH]. intros Hin%list_elem_of_In. apply Hk.
  apply in_map_iff in Hin as ([k' r'] & Heq & [Hin _]%filter_In). simpl in *. subst.
  apply list_elem_of_fmap. exists (k, r'). split; [done|]. by apply list_elem_of_In.
Qed.

Lemma ResendUnacked_healthy e :
  healthy e → (∀ j k, held j k = false) → (∀ x, x ∈ owed_rows (env_db e) → due (env_db e) x) →
  let '(r, e') := ResendUnacked senders held clock e in
  r = Ok tt ∧ env_trace e' = env_trace e ++ map sent_ok (owed_rows (env_db e))
  ∧ owed_rows (env_db e') = [].
Proof.
  intros He Hheld Hdue.
  assert (Hloop : wpe (resend_loop senders held clock 0 (owed_rows (env_db e)) ∅)
    (λ r e', r = Ok tt ∧ env_trace e' = env_trace e ++ map sent_ok (owed_rows (env_db e))
       ∧ owed_rows (env_db e') = []) e).
  { assert (H1 := resend_loop_wpe (owed_rows (env_db e)) 0 ∅ e).
    assert (H2 := resend_loop_healthy _ 0 e Hheld He (NoDup_owed_rows _) Hdue).
    unfold wpe in *. destruct (resend_loop _ _ _ _ _ _ e) as [r e'].
    destruct H1 as [-> _], H2 as (Htr & Hall & Hrest). split_and!; [done..|].
    destruct (owed_rows (env_db e')) as [|y l] eqn:Hy; [done|]. exfalso.
    assert (Hin : y ∈ owed_rows (env_db e')) by (rewrite Hy; by left).
    apply elem_of_owed_rows in Hin as (ry & Hry & Ho & Hyr).
    destruct (decide (rd_ID y ∈ map rd_ID (owed_rows (env_db e)))) as [Hid|Hid].
    - apply list_elem_of_In, in_map_iff in Hid as (x & Hxy & Hx%list_elem_of_In).
      destruct (Hall x Hx) as (rx & Hrx & Hack). rewrite Hxy in Hrx. simplify_eq.
      apply owed_spec in Ho as [? _]. congruence.
    - rewrite Hrest in Hry by done. apply Hid. apply list_elem_of_In, in_map_iff.
      exists y. split; [done|]. apply list_elem_of_In, elem_of_owed_rows. eauto. }
  unfold ResendUnacked, ResendableDeliveries. destruct e as [[d fs] tk cs ps tr].
  destruct He as (Hf & Hc & Hp). simpl in Hf, Hc, Hp. subst. exact Hloop.
Qed.

(** A healthy pass drains the outbox.  With the store, the platform and
    the context well, no row held by a live relay, a sender for every owed
    target and no owed reply of a turn that is queued or running again, one
    pass sends every owed row once, in compose order, and afterwards nothing
    is owed. *)
Theorem ResendUnacked_drains e :
  healthy e → (∀ j k, held j k = false) → (∀ x, x ∈ owed_rows (env_db e) → due (env_db e) x) →
  let '(r, e') := ResendUnacked senders held clock e in
  r = Ok tt ∧ env_trace e' = env_trace e ++ map sent_ok (owed_rows (env_db e))
  ∧ owed_rows (env_db e') = [].
Proof. apply ResendUnacked_healthy. Qed.
End properties.

(** ** Concrete passes *)

Definition healthy_env (d : db) : env := Env (World d []) 0 [] [] [].

Definition pass_db : db := lived (firstn 4 demo_ops) [].

Lemma ResendUnacked_drains_witness :
  let e' := (ResendUnacked (String.eqb "discord") (λ _ _, false) (λ n, 200 + Z.of_nat n)
               (healthy_env pass_db)).2 in
  owed_rows (env_db e') = [] ∧ length (env_trace e') = 2%nat.
Proof.
  intros e'. split; [|vm_compute; reflexivity].
  assert (H := ResendUnacked_drains (String.eqb "discord") (λ _ _, false)
    (λ n, 200 + Z.of_nat n) (healthy_env pass_db)).
  assert (Hdue : ∀ x, x ∈ owed_rows (env_db (healthy_env pass_db)) →
    due (String.eqb "discord") (env_db (healthy_env pass_db)) x).
  { apply Forall_forall. replace (owed_rows _) with
      [MkResendable 1 "r:0" 1 "discord:dm:7" "hi" 0; MkResendable 2 "r:1" 1 "discord:dm:7" "hi" 0]
      by (vm_compute; reflexivity).
    assert (Hev : turn_over pass_db (pending_row "r:0" (Some 1) "discord:dm:7" "hi")).
    { intros i Hi. injection Hi as <-. eexists. split; [vm_compute; reflexivity|].
      apply (bool_decide_unpack _). vm_compute. exact I. }
    apply Forall_cons; split;
      [split; [reflexivity|]; eexists; split; [vm_compute; reflexivity|]; split; [reflexivity|exact Hev]|].
    apply Forall_cons; split; [|apply Forall_nil; exact I].
    split; [reflexivity|]. eexists. split; [vm_compute; reflexivity|]. split; [reflexivity|exact Hev]. }
  specialize (H (conj eq_refl (conj eq_refl eq_refl)) (λ _ _, eq_refl) Hdue).
  unfold e'. destruct (ResendUnacked _ _ _ _) as [r e1]. apply H.
Defined.

(** A reply composed before a crash: the event was parked at the next boot and
    an owner asked for a retry while the reply was still owed. *)
Definition requeued_ops : list store_op :=
  [OInsertEvent demo_event; OMarkEventProcessing 1 101; OInsertDeliveries [demo_chunk "r:0"];
   OParkEvent 1 102; ORequeueInterruptedEvent 1 103].

(** While an event with an owed reply is queued or running again after a
    human retry, its acks are refused, so a healthy pump sends the same accepted
    message again on every pass and the row stays owed. *)
Theorem pump_repeats_requeued_reply :
  let e := healthy_env (lived requeued_ops []) in
  let '(_, e') := Pump (String.eqb "discord") (λ _ _, false) (λ n, 200 + Z.of_nat n) true 2 e in
  env_trace e' = repeat (FxSend 1 "discord:dm:7" "hi" true) 3
  ∧ map rd_ID (owed_rows (env_db e')) = [1].
Proof. vm_compute. done. Qed.
