(* ===== verification/Sweep.v ===== *)
(** * The notice sweep (src/internal/delivery/resend.go, sweepUnsurfacedParks)

    Every park and every death ends up with its notice in the outbox: the sweep
    repairs whatever the composing call failed to write. *)
From S2P Require Import Prelude Schema Events Deliveries DeadLetters Surface StoreSpec.
From S2P Require Import StoreInv StoreOps Env Resend.
Local Open Scope Z_scope.

(** ** Lemmas *)

(** A composer adds notices and touches nothing else. *)
Record composes (d d' : db) : Prop := Composes {
  co_events : events d' = events d;
  co_dead : dead_letters d' = dead_letters d;
  co_idents : identities d' = identities d;
  co_keys : ∀ k, exists_row (has_delivery_key k) (deliveries d) = true →
                 exists_row (has_delivery_key k) (deliveries d') = true;
}.

#[global] Instance composes_refl : Reflexive composes.
Proof. by intros d. Qed.
#[global] Instance composes_trans : Transitive composes.
Proof. intros x y z [] []. split; try congruence. auto. Qed.

Lemma insert_notice_composes sel target d :
  ∃ d', insert_notice sel target d = Ok (tt, d') ∧ composes d d'
  ∧ ∀ key payload, sel d = Some (key, payload) →
      exists_row (has_delivery_key key) (deliveries d') = true.
Proof.
  destruct (sel d) as [[key payload]|] eqn:Hs.
  - destruct (insert_notice_composed sel target d key payload Hs) as (d' & Hi & Hex & Hold & Hnew).
    exists d'. split; [done|]. split; [|intros ? ? [= <- <-]; done].
    destruct (exists_row (has_delivery_key key) (deliveries d)) eqn:Hb; [by rewrite Hold|].
    rewrite Hnew by done. split; try done. simpl. intros k.
    rewrite !exists_row_true. intros (i & r & Hi' & Hk). exists i, r. split; [|done].
    rewrite lookup_insert_ne; [done|]. intros <-. by rewrite next_id_fresh in Hi'.
  - exists d. unfold insert_notice. rewrite Hs. split; [done|]. by split.
Qed.

(** One surfacing call in a healthy store, and the loop over many. *)
Section loop.
Context (surface : QueuedEvent → StoreM unit) (key : db → QueuedEvent → option string).
Context (calm_surface : ∀ ev, calm (surface ev)).
Context (key_composes : ∀ d d' ev, composes d d' → key d' ev = key d ev).

Definition surfaces (d : db) (ev : QueuedEvent) : Prop :=
  ∃ d', run (surface ev) d = (Ok tt, d') ∧ composes d d'
  ∧ ∀ k, key d ev = Some k → exists_row (has_delivery_key k) (deliveries d') = true.

Lemma surface_all_run evs d :
  (∀ d' ev, composes d d' → ev ∈ evs → surfaces d' ev) →
  ∃ d', run (surface_all surface evs) d = (Ok tt, d') ∧ composes d d'
  ∧ ∀ ev k, ev ∈ evs → key d ev = Some k →
      exists_row (has_delivery_key k) (deliveries d') = true.
Proof.
  revert d. induction evs as [|ev evs IH]; intros d Hs; simpl.
  { exists d. split; [done|]. split; [done|]. by intros ev k ?%elem_of_nil. }
  destruct (Hs d ev) as (d1 & Hr1 & Hc1 & Hk1); [done|by left|].
  destruct (IH d1) as (d2 & Hr2 & Hc2 & Hk2).
  { intros d' ev' Hc Hin. apply Hs; [by etrans|by right]. }
  exists d2. rewrite run_bind by (apply calm_try, calm_surface).
  rewrite run_try, Hr1. simpl. split; [done|]. split; [by etrans|].
  intros ev' k [->|Hin]%elem_of_cons Hk.
  - apply (co_keys _ _ Hc2). auto.
  - eapply Hk2; [done|]. by rewrite (key_composes _ _ _ Hc1).
Qed.

Lemma surface_all_noop evs d :
  (∀ ev, ∃ r, run (surface ev) d = (r, d)) → run (surface_all surface evs) d = (Ok tt, d).
Proof.
  intros Hs. induction evs as [|ev evs IH]; simpl; [done|].
  rewrite run_bind by (apply calm_try, calm_surface).
  destruct (Hs ev) as [r Hr]. by rewrite run_try, Hr.
Qed.

Lemma calm_surface_all evs : calm (surface_all surface evs).
Proof. induction evs; simpl; auto with calm. Qed.
End loop.

Definition park_key (d : db) (ev : QueuedEvent) : option string := fst <$> select_interrupted ev d.
Definition death_key (d : db) (ev : QueuedEvent) : option string := fst <$> select_dead ev d.

Lemma park_key_composes d d' ev : composes d d' → park_key d' ev = park_key d ev.
Proof. intros [He _ _ _]. unfold park_key, select_interrupted. by rewrite He. Qed.
Lemma death_key_composes d d' ev : composes d d' → death_key d' ev = death_key d ev.
Proof. intros [He Hd _ _]. unfold death_key, select_dead. by rewrite He, Hd. Qed.

Lemma first_owner_composes d d' : composes d d' → first_owner d' = first_owner d.
Proof. intros [_ _ Hi _]. unfold first_owner, owner_native_ids. by rewrite Hi. Qed.

Lemma calm_AcquireTarget gated target : calm (AcquireTarget gated target).
Proof. unfold AcquireTarget. repeat case_match; auto with calm. Qed.
Lemma calm_SurfaceInterrupted gated ev : calm (SurfaceInterruptedCoordinated gated ev).
Proof.
  unfold SurfaceInterruptedCoordinated. apply calm_bind; [apply calm_AcquireTarget|].
  auto with calm.
Qed.
Lemma calm_SurfaceDeadLetter gated ev : calm (SurfaceDeadLetterCoordinated gated ev).
Proof.
  unfold SurfaceDeadLetterCoordinated. apply calm_bind; [auto with calm|].
  intros [n|]; [|auto with calm]. apply calm_bind; [apply calm_AcquireTarget|auto with calm].
Qed.

Lemma SurfaceInterrupted_surfaces gated d ev :
  qe_ThreadKey ev ≠ ""%string → surfaces (SurfaceInterruptedCoordinated gated) park_key d ev.
Proof.
  intros Ht. destruct (insert_notice_composes (select_interrupted ev) (qe_ThreadKey ev) d)
    as (d' & Hi & Hc & Hk). exists d'. rewrite run_SurfaceInterrupted, Hi by done.
  split; [done|]. split; [done|]. unfold park_key. intros k Hs.
  destruct (select_interrupted ev d) as [[k' p]|]; simplify_eq/=. eauto.
Qed.

Lemma SurfaceDeadLetter_surfaces gated d ev :
  first_owner d ≠ None → surfaces (SurfaceDeadLetterCoordinated gated) death_key d ev.
Proof.
  intros Ho. unfold surfaces, SurfaceDeadLetterCoordinated. rewrite run_bind by auto with calm.
  rewrite run_query. destruct (first_owner d) as [o|]; [|done].
  destruct (insert_notice_composes (select_dead ev) ("discord:dm:" +:+ o) d) as (d' & Hi & Hc & Hk).
  exists d'. rewrite run_bind by apply calm_AcquireTarget.
  rewrite run_AcquireTarget by done. rewrite run_stmt, Hi.
  split; [done|]. split; [done|]. unfold death_key. intros k Hs.
  destruct (select_dead ev d) as [[k' p]|]; simplify_eq/=. eauto.
Qed.

(** An event whose notice key is in the outbox is no longer listed. *)
Lemma parks_surfaced d d' :
  events d' = events d →
  (∀ ev k, ev ∈ select_events (unsurfaced_park d) d → park_key d ev = Some k →
     exists_row (has_delivery_key k) (deliveries d') = true) →
  (∀ k, exists_row (has_delivery_key k) (deliveries d) = true →
        exists_row (has_delivery_key k) (deliveries d') = true) →
  select_events (unsurfaced_park d') d' = [].
Proof.
  intros Hev Hk Hmono. apply select_events_nil. rewrite Hev. intros i e He.
  unfold unsurfaced_park. destruct (has_status [Interrupted] e) eqn:Hs; [|done]. simpl.
  apply negb_false_iff. set (key := interrupted_key _ _).
  destruct (exists_row (has_delivery_key key) (deliveries d)) eqn:Hd; [by apply Hmono|].
  apply (Hk (scanQueuedEvent i e)).
  - apply elem_of_select_events. exists e. simpl. unfold unsurfaced_park.
    change (interrupted_key (er_dedup_key e) (er_parks e)) with key. by rewrite Hs, Hd.
  - unfold park_key, select_interrupted. simpl. by rewrite He, Hs.
Qed.

Lemma deaths_surfaced d d' :
  events d' = events d → dead_letters d' = dead_letters d →
  (∀ ev k, ev ∈ select_events (unsurfaced_death d) d → death_key d ev = Some k →
     exists_row (has_delivery_key k) (deliveries d') = true) →
  (∀ k, exists_row (has_delivery_key k) (deliveries d) = true →
        exists_row (has_delivery_key k) (deliveries d') = true) →
  select_events (unsurfaced_death d') d' = [].
Proof.
  intros Hev Hdl Hk Hmono. apply select_events_nil. rewrite Hev. intros i e He.
  unfold unsurfaced_death. rewrite Hdl. destruct (dead_letters d !! i) as [r|] eqn:Hr; [|done].
  case_bool_decide as Hres; [|done]. simpl. apply negb_false_iff. set (key := dead_key _ _).
  destruct (exists_row (has_delivery_key key) (deliveries d)) eqn:Hd; [by apply Hmono|].
  apply (Hk (scanQueuedEvent i e)).
  - apply elem_of_select_events. exists e. simpl. unfold unsurfaced_death. rewrite Hr.
    change (dead_key (er_dedup_key e) (dd_entries r)) with key.
    by rewrite bool_decide_true, Hd by done.
  - unfold death_key, select_dead. simpl. by rewrite Hr, He, bool_decide_true by done.
Qed.

(** ** Property *)

Lemma sweep_spec gated d :
  map_Forall (λ _ e, er_thread_key e ≠ ""%string) (events d) →
  ∃ d', run (sweepUnsurfacedParks gated) d = (Ok tt, d')
  ∧ events d' = events d ∧ dead_letters d' = dead_letters d
  ∧ run UnsurfacedInterruptedEvents d' = (Ok [], d')
  ∧ (first_owner d ≠ None → run UnsurfacedDeadLetters d' = (Ok [], d')).
Proof.
  intros Hth. unfold sweepUnsurfacedParks, UnsurfacedInterruptedEvents, UnsurfacedDeadLetters.
  rewrite run_bind by auto with calm. rewrite run_try, run_query. simpl.
  destruct (surface_all_run (SurfaceInterruptedCoordinated gated) park_key
    (calm_SurfaceInterrupted gated) park_key_composes
    (select_events (unsurfaced_park d) d) d) as (d1 & Hr1 & Hc1 & Hk1).
  { intros d' ev Hc Hin. apply SurfaceInterrupted_surfaces.
    apply elem_of_select_events in Hin as (e & He & _ & ->). exact (Hth _ _ He). }
  rewrite run_bind by apply calm_surface_all, calm_SurfaceInterrupted.
  rewrite Hr1. rewrite run_bind by auto with calm. rewrite run_try, run_query. simpl.
  assert (Hp1 : select_events (unsurfaced_park d1) d1 = []).
  { apply (parks_surfaced d d1); [apply Hc1|done|apply Hc1]. }
  destruct (decide (first_owner d = None)) as [Hno|Hown].
  - exists d1. rewrite surface_all_noop; [|apply calm_SurfaceDeadLetter|].
    + split_and!; [done|apply Hc1|apply Hc1|by rewrite run_query, Hp1|done].
    + intros ev. exists (Err ENoRows). unfold SurfaceDeadLetterCoordinated.
      rewrite run_bind by auto with calm. rewrite run_query.
      by rewrite (first_owner_composes d d1), Hno.
  - destruct (surface_all_run (SurfaceDeadLetterCoordinated gated) death_key
      (calm_SurfaceDeadLetter gated) death_key_composes
      (select_events (unsurfaced_death d1) d1) d1) as (d2 & Hr2 & Hc2 & Hk2).
    { intros d' ev Hc _. apply SurfaceDeadLetter_surfaces.
      rewrite (first_owner_composes d d'); [done|by etrans]. }
    exists d2. rewrite Hr2. assert (Hc := transitivity Hc1 Hc2).
    split_and!; [done|apply Hc|apply Hc| |].
    + rewrite run_query, (parks_surfaced d1 d2); [done|apply Hc2| |apply Hc2].
      intros ev k. rewrite Hp1. by intros ?%elem_of_nil.
    + intros _. rewrite run_query, (deaths_surfaced d1 d2); [done|apply Hc2|apply Hc2|done|apply Hc2].
Qed.

(** No park and no death stays silent.  In a healthy store one sweep
    composes every missing notice: afterwards no parked event lacks the notice
    of its current park generation, and, with an owner enrolled on discord, no
    unresolved dead letter lacks the notice of its current death; the queue and
    the dead letters themselves are untouched. *)
Theorem sweep_surfaces_all gated d :
  map_Forall (λ _ e, er_thread_key e ≠ ""%string) (events d) →
  ∃ d', run (sweepUnsurfacedParks gated) d = (Ok tt, d')
  ∧ events d' = events d ∧ dead_letters d' = dead_letters d
  ∧ run UnsurfacedInterruptedEvents d' = (Ok [], d')
  ∧ (first_owner d ≠ None → run UnsurfacedDeadLetters d' = (Ok [], d')).
Proof. apply sweep_spec. Qed.

Lemma sweep_surfaces_all_witness :
  let d := set_events {[1 := sample_parked]} empty_db in
  run UnsurfacedInterruptedEvents d = (Ok [scanQueuedEvent 1 sample_parked], d)
  ∧ ∃ d', run (sweepUnsurfacedParks true) d = (Ok tt, d')
          ∧ run UnsurfacedInterruptedEvents d' = (Ok [], d').
Proof.
  intros d. split; [vm_compute; reflexivity|].
  destruct (sweep_surfaces_all true d) as (d' & H1 & _ & _ & H2 & _).
  - apply map_Forall_singleton. discriminate.
  - exists d'. split; assumption.
Defined.
