(* ===== verification/Recovery.v ===== *)
(** * Engine-failure recovery (src/internal/recovery/recovery.go)

    The verdict on a failed turn: retry what provably did nothing, park what is
    ambiguous, dead-letter what exhausted its budget.  [gated] says whether
    Options.InFlight is set, [notify] whether Options.Notify is; the clock is
    Options.Now and [FxReadmitAfter] is Options.After around Readmit. *)
From S2P Require Import Prelude Schema Events Deliveries ToolAttempts DeadLetters.
From S2P Require Import Surface StoreSpec StoreOps Env Sweep.
Local Open Scope Z_scope.

(** ** Definitions *)

Inductive Outcome : Type := Retried | Parked | ODead.

(** time.Duration counts nanoseconds. *)
Definition Second : Z := 1000000000.
Definition backoff : list Z := [30 * Second; 120 * Second].
Definition longest_backoff : Z := 120 * Second.

Definition safeToRetry (attempts : list ToolAttempt) : bool :=
  forallb (λ a, negb (empty (at_IdempotencyKey a))) attempts.

(** [requeued := ev; requeued.Status = "received"]. *)
Definition requeued (ev : QueuedEvent) : QueuedEvent :=
  MkQueuedEvent (qe_ID ev) (qe_DedupKey ev) (qe_ThreadKey ev) (qe_Kind ev) (qe_Trust ev)
    (qe_Payload ev) Received (qe_Received ev) (qe_Correlation ev).

(** The schedule entry of the budget unit just spent. *)
Definition retry_delay (spent : result err (option Z)) : Z :=
  match spent with
  | Ok (Some n) =>
      if Z.leb 1 n && Z.leb n (Z.of_nat (length backoff))
      then nth (Z.to_nat (n - 1)) backoff longest_backoff else longest_backoff
  | _ => longest_backoff
  end.

Section recovery.
Context {SA : StoreAccess} (clock : nat → Z) (gated notify : bool).

Definition kick : EnvM unit := if notify then emit FxKick else mret tt.

Definition park (ev : QueuedEvent) : EnvM Outcome :=
  t ← now clock;
  _ ← liftS (ParkEvent (qe_ID ev) t);
  surfaced ← try (liftS (SurfaceInterruptedCoordinated gated ev));
  match surfaced with
  | Err _ => mret Parked
  | Ok _ => _ ← kick; mret Parked
  end.

Definition ParkAmbiguous (ev : QueuedEvent) : EnvM Outcome := park ev.

Definition deadLetter (ev : QueuedEvent) : EnvM Outcome :=
  t ← now clock;
  died ← try (liftS (DeadLetterEvent (qe_ID ev) "retries-exhausted" t));
  match died with
  | Err _ => park ev
  | Ok _ =>
      surfaced ← try (liftS (SurfaceDeadLetterCoordinated gated ev));
      match surfaced with
      | Err _ => mret ODead
      | Ok _ => _ ← kick; mret ODead
      end
  end.

Definition HandleEngineFailure (ev : QueuedEvent) : EnvM Outcome :=
  attempts ← liftS (AttemptsForEvent (qe_ID ev));
  if negb (safeToRetry attempts) then park ev
  else
    t ← now clock;
    r ← try (liftS (RequeueEventForRetry (qe_ID ev) t));
    match r with
    | Err ERetryBudgetExhausted => deadLetter ev
    | Err ESideEffectingAttempt => park ev
    | Err e => fail e
    | Ok _ =>
        spent ← try (liftS (query (λ d, er_attempts <$> events d !! qe_ID ev)));
        _ ← emit (FxReadmitAfter (retry_delay spent) (requeued ev));
        mret Retried
    end.
End recovery.

(** ** Lemmas *)

(** The surfacing calls leave the queue alone, whatever fails. *)
Definition queue_same (d d' : db) : Prop :=
  events d' = events d ∧ dead_letters d' = dead_letters d ∧ tool_attempts d' = tool_attempts d.

Lemma insert_notice_wpd sel target (Q : result err unit → db → Prop) d :
  (∀ r d', queue_same d d' → Q r d') → wpd (stmt (insert_notice sel target)) Q d.
Proof.
  intros HQ. wpd_step; [by apply HQ|]. unfold insert_notice, insert_delivery_sql.
  destruct (sel d) as [[k p]|]; [|by apply HQ]. destruct (exists_row _ _); by apply HQ.
Qed.

Lemma AcquireTarget_wpd gated target (Q : result err unit → db → Prop) d :
  (∀ r, Q r d) → wpd (AcquireTarget gated target) Q d.
Proof.
  intros HQ. unfold AcquireTarget. destruct gated; simpl; [|by wpd_step].
  wpd_step; [by wpd_step|]. by wpd_step.
Qed.

Lemma SurfaceInterrupted_wpd gated ev (Q : result err unit → db → Prop) d :
  (∀ r d', queue_same d d' → Q r d') → wpd (SurfaceInterruptedCoordinated gated ev) Q d.
Proof.
  intros HQ. unfold SurfaceInterruptedCoordinated. wpd_step. apply AcquireTarget_wpd.
  intros [a|x]; [by apply insert_notice_wpd|by apply HQ].
Qed.

Lemma SurfaceDeadLetter_wpd gated ev (Q : result err unit → db → Prop) d :
  (∀ r d', queue_same d d' → Q r d') → wpd (SurfaceDeadLetterCoordinated gated ev) Q d.
Proof.
  intros HQ. unfold SurfaceDeadLetterCoordinated. wpd_step. wpd_step; [by apply HQ|].
  destruct (first_owner d); [|wpd_step; by apply HQ]. wpd_step. apply AcquireTarget_wpd.
  intros [a|x]; [by apply insert_notice_wpd|by apply HQ].
Qed.

Lemma RequeueEventForRetry_wpd id t (Q : result err unit → db → Prop) d :
  (∀ x, x ≠ ERetryBudgetExhausted → x ≠ ESideEffectingAttempt → Q (Err x) d) →
  (∀ e, events d !! id = Some e → er_status e = Processing → 2 ≤ er_attempts e →
     Q (Err ERetryBudgetExhausted) d) →
  (∀ e, events d !! id = Some e → er_status e = Processing → er_attempts e < 2 →
     unkeyed_attempt id d → Q (Err ESideEffectingAttempt) d) →
  (∀ e, events d !! id = Some e → er_status e = Processing → er_attempts e < 2 →
     ¬ unkeyed_attempt id d →
     Q (Ok tt) (set_events (<[id := event_upd Received (er_attempts e + 1) (er_parks e) (Some t) e]>
                              (events d)) d)) →
  wpd (RequeueEventForRetry id t) Q d.
Proof.
  intros Hx Hb Hs Hok. unfold RequeueEventForRetry. wpd_step. wpd_step; [by apply Hx|].
  upd_cases; simpl.
  - wpd_step. wpd_step; [by apply Hx|]. destruct (events d !! id) as [e|] eqn:He; [|wpd_step; by apply Hx].
    specialize (H e eq_refl).
    destruct (has_status [Processing] e) eqn:Hst; simpl in *; [|wpd_step; by apply Hx].
    apply has_status_true, list_elem_of_singleton in Hst.
    unfold maxEventRetries in *. destruct (Z.leb_spec 2 (er_attempts e)); wpd_step; [by eapply Hb|].
    destruct (Z.ltb_spec (er_attempts e) 2); [|lia]. simpl in H.
    apply negb_false_iff, exists_unkeyed in H. by eapply Hs.
  - wpd_step. apply andb_true_iff in H0 as [[Hst Ha%Z.ltb_lt]%andb_true_iff Hk%negb_true_iff].
    apply has_status_true, list_elem_of_singleton in Hst.
    apply Hok; [done|done|done|]. rewrite <-exists_unkeyed, Hk. done.
Qed.

Lemma DeadLetterEvent_wpd id reason t (Q : result err unit → db → Prop) d :
  (∀ x, Q (Err x) d) →
  (∀ e r d', events d !! id = Some e → er_status e = Processing ∨ er_status e = Interrupted →
     events d' = <[id := event_status_upd Dead t e]> (events d) →
     dead_letters d' !! id = Some r → dd_reason r = reason → dd_resolution r = None →
     Q (Ok tt) d') →
  wpd (DeadLetterEvent id reason t) Q d.
Proof.
  intros Hx Hok. unfold DeadLetterEvent. wpd_step; [wpd_step; auto|].
  wpd_step; [done|]. wpd_step. wpd_step; [done|]. upd_cases; simpl.
  { wpd_step. wpd_step; [done|]. wpd_step; wpd_step; auto. }
  wpd_step. unfold upsert_dead. wpd_step; [done|]. destruct (reason_check reason); [|done].
  wpd_step. apply has_status_true in H0. rewrite !elem_of_cons, elem_of_nil in H0.
  eapply Hok; [done| |done|simpl; apply lookup_insert_eq| |].
  - destruct H0 as [|[|[]]]; auto.
  - simpl. by destruct (dead_letters d !! id).
  - simpl. by destruct (dead_letters d !! id).
Qed.

Lemma ParkEvent_wpd id t (Q : result err unit → db → Prop) d e :
  events d !! id = Some e → er_status e = Received ∨ er_status e = Processing →
  (∀ x, Q (Err x) d) →
  Q (Ok tt) (set_events (<[id := event_upd Interrupted (er_attempts e) (er_parks e + 1) (Some t) e]>
                           (events d)) d) →
  wpd (ParkEvent id t) Q d.
Proof.
  intros He Hst Hx Hok. unfold ParkEvent. wpd_step. wpd_step; [done|]. upd_cases; wpd_step.
  - specialize (H e He). exfalso. apply not_true_iff_false in H. apply H, has_status_true.
    rewrite !elem_of_cons. tauto.
  - by simplify_eq.
Qed.

(** ** Properties *)

Section properties.
Context (clock : nat → Z) (gated notify : bool).

(** Where a park leaves the event, whether or not its notice was composed. *)
Lemma park_wpe ev x (Q : result err Outcome → env → Prop) e :
  events (env_db e) !! qe_ID ev = Some x → er_status x = Received ∨ er_status x = Processing →
  (∀ y e', env_db e' = env_db e → Q (Err y) e') →
  (∀ e' x', events (env_db e') !! qe_ID ev = Some x' → er_status x' = Interrupted →
     er_parks x' = er_parks x + 1 → tool_attempts (env_db e') = tool_attempts (env_db e) →
     Q (Ok Parked) e') →
  wpe (park clock gated notify ev) Q e.
Proof.
  intros Hx Hst Herr Hok. unfold park. wpe_step. wpe_step. wpe_step. wpe_step.
  eapply ParkEvent_wpd; [done|done|intros y fs; by apply Herr|]. intros fs.
  wpe_step. wpe_step. wpe_step. apply SurfaceInterrupted_wpd.
  intros r d' (Hev & _ & Hta) fs'.
  assert (Hl : events d' !! qe_ID ev
    = Some (event_upd Interrupted (er_attempts x) (er_parks x + 1) (Some (clock (env_ticks e))) x)).
  { rewrite Hev. apply lookup_insert_eq. }
  destruct r as [u|y]; [|wpe_step; by eapply Hok].
  unfold kick. wpe_step. wpe_step; wpe_step; wpe_step; by eapply Hok.
Qed.

(** What an outcome promises about the event of a failed turn. *)
Definition landed (ev : QueuedEvent) (x : event_row) (e : env)
    (r : result err Outcome) (e' : env) : Prop :=
  match r with
  | Ok Retried => ∃ x' delay, events (env_db e') !! qe_ID ev = Some x'
      ∧ er_status x' = Received ∧ er_attempts x' = er_attempts x + 1 ∧ er_attempts x' ≤ 2
      ∧ ¬ unkeyed_attempt (qe_ID ev) (env_db e)
      ∧ env_trace e' = env_trace e ++ [FxReadmitAfter delay (requeued ev)]
      ∧ (delay = longest_backoff ∨ delay = 30 * Second ∧ er_attempts x = 0)
  | Ok Parked => ∃ x', events (env_db e') !! qe_ID ev = Some x'
      ∧ er_status x' = Interrupted ∧ er_parks x' = er_parks x + 1
  | Ok ODead => 2 ≤ er_attempts x ∧ ∃ x' r, events (env_db e') !! qe_ID ev = Some x'
      ∧ er_status x' = Dead ∧ dead_letters (env_db e') !! qe_ID ev = Some r
      ∧ dd_reason r = "retries-exhausted"%string ∧ dd_resolution r = None
  | Err _ => env_db e' = env_db e
  end.

Lemma retry_delay_schedule spent n :
  spent = Ok (Some (n + 1)) ∨ (∃ x, spent = Err x) →
  retry_delay spent = longest_backoff ∨ retry_delay spent = 30 * Second ∧ n = 0.
Proof.
  intros [->|[x ->]]; [|by left]. unfold retry_delay.
  change (Z.of_nat (length backoff)) with 2.
  destruct (Z.leb_spec 1 (n + 1)); [|by left]. destruct (Z.leb_spec (n + 1) 2); [|by left]. simpl.
  assert (n = 0 ∨ n = 1) as [->| ->] by lia; [right; split; reflexivity|left; reflexivity].
Qed.

Lemma deadLetter_lands ev x e e0 :
  events (env_db e) !! qe_ID ev = Some x → er_status x = Processing → 2 ≤ er_attempts x →
  env_db e = env_db e0 →
  wpe (deadLetter clock gated notify ev) (landed ev x e0) e.
Proof.
  intros Hx Hst Ha Hdb. unfold deadLetter. wpe_step. wpe_step. wpe_step. wpe_step. wpe_step.
  apply DeadLetterEvent_wpd.
  - intros y fs. eapply park_wpe; [done|by right|intros z e' He'; simpl; etrans; [exact He'|done]|].
    intros e' x' Hx' Hi Hp _. simpl. eauto.
  - intros x0 r d' Hx0 _ Hev Hr Hre Hres fs. unfold env_db in Hx, Hx0. simpl in Hx0. simplify_eq.
    wpe_step. wpe_step. wpe_step. apply SurfaceDeadLetter_wpd.
    intros s d2 (Hev2 & Hdl2 & _) fs2. unfold env_db in Hev2, Hdl2. simpl in Hev2, Hdl2.
    assert (Hdead : ∀ e', events (env_db e') = events d2 → dead_letters (env_db e') = dead_letters d2 →
      landed ev x e0 (Ok ODead) e').
    { intros e' He' Hd'. simpl. split; [done|]. eexists _, r. rewrite He', Hd', Hev2, Hdl2, Hev.
      split_and!; [apply lookup_insert_eq|done..]. }
    unfold kick. destruct s; [wpe_step; wpe_step; wpe_step|]; wpe_step; by apply Hdead.
Qed.

Lemma HandleEngineFailure_wpe ev x e :
  events (env_db e) !! qe_ID ev = Some x → er_status x = Processing →
  wpe (HandleEngineFailure clock gated notify ev) (landed ev x e) e.
Proof.
  intros Hx Hst.
  assert (Hpark : ∀ e1, env_db e1 = env_db e →
    wpe (park clock gated notify ev) (landed ev x e) e1).
  { intros e1 Hdb. eapply park_wpe; [by rewrite Hdb|by right|intros z e' He'; simpl; etrans; [exact He'|done]|].
    intros e' x' Hx' Hi Hp _. simpl. eauto. }
  unfold HandleEngineFailure, AttemptsForEvent. wpe_step. wpe_step.
  apply wpd_query; intros fs; [done|]. wpe_step; [by apply Hpark|].
  wpe_step. wpe_step. wpe_step. wpe_step. wpe_step.
  apply RequeueEventForRetry_wpd; unfold env_db in *; simpl.
  - intros y Hb Hs fs'. by destruct y; try (wpe_step; done).
  - intros x0 Hx0 Hp Ha fs'. simplify_eq. by apply deadLetter_lands.
  - intros x0 _ _ _ _ fs'. by apply Hpark.
  - intros x0 Hx0 Hp Ha Hk fs'. simplify_eq. wpe_step. wpe_step. wpe_step.
    assert (Hdone : ∀ fs1 spent, spent = Ok (Some (er_attempts x + 1)) ∨ (∃ y, spent = Err y) →
      wpe (_ ← emit (FxReadmitAfter (retry_delay spent) (requeued ev)); mret Retried)
        (landed ev x e) (Env (World (set_events (<[qe_ID ev := event_upd Received
          (er_attempts x + 1) (er_parks x) (Some (clock (env_ticks e))) x]>
            (events (w_db (env_world e)))) (w_db (env_world e))) fs1)
          (S (env_ticks e)) (env_ctx e) (env_plat e) (env_trace e))).
    { intros fs1 spent Hsp. wpe_step. wpe_step. wpe_step. simpl.
      eexists _, (retry_delay spent). unfold env_db. simpl. rewrite lookup_insert_eq.
      split_and!; [done..|simpl; lia|done|done|]. by apply retry_delay_schedule. }
    apply wpd_query; intros fs1; apply Hdone; [eauto|]. left. simpl. by rewrite lookup_insert_eq.
Qed.

(** C12: a failed turn always lands in a durable state.  For an event whose turn
    was running, under any failure of the store: Retried means it is received
    again with one more attempt inside the budget of two, its journal had no
    unkeyed side effect, and exactly one readmission was scheduled, at the
    schedule's delay or at the longest one; Parked means it is interrupted with
    a new park generation; Dead means it is dead with an open dead letter, and
    only after the budget was spent; an error means the store is unchanged and
    the event still processing for restart recovery. *)
Theorem HandleEngineFailure_lands ev x e :
  events (env_db e) !! qe_ID ev = Some x → er_status x = Processing →
  let '(r, e') := HandleEngineFailure clock gated notify ev e in landed ev x e r e'.
Proof. apply HandleEngineFailure_wpe. Qed.

End properties.

Definition running_db : db :=
  set_events {[1 := event_status_upd Processing 5 (received_row sample_event)]} empty_db.
Definition running_event : QueuedEvent :=
  scanQueuedEvent 1 (event_status_upd Processing 5 (received_row sample_event)).
Definition running_env : env := Env (World running_db []) 0 [] [] [].

Lemma HandleEngineFailure_lands_witness :
  let '(r, e') := HandleEngineFailure (λ _, 9) true true running_event running_env in
  r = Ok Retried ∧ landed running_event (event_status_upd Processing 5 (received_row sample_event))
                     running_env r e'.
Proof.
  assert (H := HandleEngineFailure_lands (λ _, 9) true true running_event _ running_env
    eq_refl eq_refl).
  destruct (HandleEngineFailure _ _ _ _ _) as [r e'] eqn:Hr. split; [|exact H].
  vm_compute in Hr. congruence.
Defined.
