(* ===== verification/InFlight.v ===== *)
(** * Live-send coordination (src/internal/delivery/inflight.go)

    The per-target gates as the goroutines see them: a gate is a heap object
    with a one-slot token channel and a reference count, [targets] maps a
    destination to its gate while somebody refers to it, and each goroutine is
    between two of AcquireTarget's atomic actions.  The mutex-protected blocks,
    the channel receive and the channel send are one step each; goroutines
    interleave freely.  The claim table is the set [keys]. *)
From S2P Require Import Prelude Schema Events.
Local Open Scope Z_scope.

(** ** State *)

Record targetGate : Type := Gate {
  g_token : bool;   (* the slot of the token channel is full *)
  g_refs : Z;
}.

(** Where a goroutine stands in AcquireTarget and its release. *)
Inductive proc : Type :=
| Waiting (target : string) (gate : nat)    (* refs taken, in the select *)
| Holding (target : string) (gate : nat)    (* token received *)
| Releasing (target : string) (gate : nat). (* token returned, refs not yet *)

Definition proc_target (p : proc) : string :=
  match p with Waiting t _ | Holding t _ | Releasing t _ => t end.
Definition proc_gate (p : proc) : nat :=
  match p with Waiting _ l | Holding _ l | Releasing _ l => l end.
Definition is_holding (p : proc) : bool :=
  match p with Holding _ _ => true | _ => false end.

Record InFlight : Type := MkInFlight {
  if_keys : gset string;
  if_targets : gmap string nat;
  if_gates : gmap nat targetGate;
  if_procs : gmap nat proc;
}.

Definition NewInFlight : InFlight := MkInFlight ∅ ∅ ∅ ∅.

(** ** Operations *)

Definition with_gate (l : nat) (f : targetGate → targetGate) (s : InFlight) : InFlight :=
  MkInFlight (if_keys s) (if_targets s) (alter f l (if_gates s)) (if_procs s).
Definition with_proc (pid : nat) (p : proc) (s : InFlight) : InFlight :=
  MkInFlight (if_keys s) (if_targets s) (if_gates s) (<[pid := p]> (if_procs s)).
Definition without_proc (pid : nat) (s : InFlight) : InFlight :=
  MkInFlight (if_keys s) (if_targets s) (if_gates s) (delete pid (if_procs s)).

(** The block under f.mu: find or make the gate, count the reference.  An empty
    target is refused; a goroutine makes one call at a time. *)
Definition acquire_register (pid : nat) (target : string) (s : InFlight) : option InFlight :=
  if empty target then None
  else match if_procs s !! pid with
  | Some _ => None
  | None =>
      match if_targets s !! target with
      | Some l =>
          Some (with_proc pid (Waiting target l)
                  (with_gate l (λ g, Gate (g_token g) (g_refs g + 1)) s))
      | None =>
          let l := fresh (dom (if_gates s)) in
          Some (MkInFlight (if_keys s) (<[target := l]> (if_targets s))
                  (<[l := Gate true 1]> (if_gates s))
                  (<[pid := Waiting target l]> (if_procs s)))
      end
  end.

(** [case <-gate.token]. *)
Definition acquire_take (pid : nat) (s : InFlight) : option InFlight :=
  match if_procs s !! pid with
  | Some (Waiting t l) =>
      match if_gates s !! l with
      | Some g => if g_token g
                  then Some (with_proc pid (Holding t l)
                               (with_gate l (λ g, Gate false (g_refs g)) s))
                  else None
      | None => None
      end
  | _ => None
  end.

Definition releaseTargetRef (target : string) (l : nat) (s : InFlight) : InFlight :=
  let s := with_gate l (λ g, Gate (g_token g) (g_refs g - 1)) s in
  match if_gates s !! l with
  | Some g =>
      if Z.eqb (g_refs g) 0 && bool_decide (if_targets s !! target = Some l)
      then MkInFlight (if_keys s) (delete target (if_targets s)) (if_gates s) (if_procs s)
      else s
  | None => s
  end.

(** [case <-ctx.Done()]. *)
Definition acquire_cancel (pid : nat) (s : InFlight) : option InFlight :=
  match if_procs s !! pid with
  | Some (Waiting t l) => Some (without_proc pid (releaseTargetRef t l s))
  | _ => None
  end.

(** The once-guarded release: [gate.token <- struct{}{}], which blocks on a full
    slot, then the reference. *)
Definition release_token (pid : nat) (s : InFlight) : option InFlight :=
  match if_procs s !! pid with
  | Some (Holding t l) =>
      match if_gates s !! l with
      | Some g => if g_token g then None
                  else Some (with_proc pid (Releasing t l)
                               (with_gate l (λ g, Gate true (g_refs g)) s))
      | None => None
      end
  | _ => None
  end.

Definition release_ref (pid : nat) (s : InFlight) : option InFlight :=
  match if_procs s !! pid with
  | Some (Releasing t l) => Some (without_proc pid (releaseTargetRef t l s))
  | _ => None
  end.

Definition Claim (keys : list string) (s : InFlight) : InFlight :=
  MkInFlight (if_keys s ∪ list_to_set keys) (if_targets s) (if_gates s) (if_procs s).
Definition Release (keys : list string) (s : InFlight) : InFlight :=
  MkInFlight (if_keys s ∖ list_to_set keys) (if_targets s) (if_gates s) (if_procs s).
Definition Held (key : string) (s : InFlight) : bool := bool_decide (key ∈ if_keys s).

Inductive istep (s : InFlight) : InFlight → Prop :=
| is_register pid target s' : acquire_register pid target s = Some s' → istep s s'
| is_take pid s' : acquire_take pid s = Some s' → istep s s'
| is_cancel pid s' : acquire_cancel pid s = Some s' → istep s s'
| is_release_token pid s' : release_token pid s = Some s' → istep s s'
| is_release_ref pid s' : release_ref pid s = Some s' → istep s s'
| is_claim keys : istep s (Claim keys s)
| is_release keys : istep s (Release keys s).

(** ** Invariant *)

(** The goroutines that refer to a gate. *)
Definition users (l : nat) (m : gmap nat proc) : gmap nat proc :=
  filter (λ kv : nat * proc, proc_gate kv.2 = l) m.

Record gate_inv (m : gmap nat proc) (l : nat) (g : targetGate) : Prop := GateInv {
  gi_refs : g_refs g = Z.of_nat (size (users l m));
  gi_free : g_token g = true → ∀ pid p, m !! pid = Some p → proc_gate p = l → is_holding p = false;
  gi_held : g_token g = false → ∃ pid p, m !! pid = Some p ∧ proc_gate p = l ∧ is_holding p = true;
  gi_one : ∀ i j p q, m !! i = Some p → m !! j = Some q → proc_gate p = l → proc_gate q = l →
    is_holding p = true → is_holding q = true → i = j;
}.

Record inflight_inv (s : InFlight) : Prop := InFlightInv {
  fi_proc : ∀ pid p, if_procs s !! pid = Some p →
    if_targets s !! proc_target p = Some (proc_gate p);
  fi_inj : ∀ t t' l, if_targets s !! t = Some l → if_targets s !! t' = Some l → t = t';
  fi_gate : ∀ t l, if_targets s !! t = Some l →
    ∃ g, if_gates s !! l = Some g ∧ gate_inv (if_procs s) l g ∧ 0 < g_refs g;
}.

(** ** Lemmas: counting *)

Lemma users_insert_new l m pid p :
  m !! pid = None → proc_gate p = l → size (users l (<[pid := p]> m)) = S (size (users l m)).
Proof.
  intros Hm Hp. unfold users. rewrite map_filter_insert_True by done.
  apply map_size_insert_None. by apply map_lookup_filter_None_2; left.
Qed.

Lemma users_insert_other l m pid p :
  (∀ q, m !! pid = Some q → proc_gate q ≠ l) → proc_gate p ≠ l →
  users l (<[pid := p]> m) = users l m.
Proof.
  intros Hm Hp. unfold users. apply map_filter_insert_not'; [done|].
  intros q Hq. by apply Hm.
Qed.

Lemma users_update l m pid p q :
  m !! pid = Some q → proc_gate p = proc_gate q →
  size (users l (<[pid := p]> m)) = size (users l m).
Proof.
  intros Hm Hp. unfold users. destruct (decide (proc_gate q = l)) as [Hl|Hl].
  - rewrite map_filter_insert_True by (simpl; congruence).
    apply map_size_insert_Some. exists q. by apply map_lookup_filter_Some_2.
  - rewrite map_filter_insert_not'; [done|simpl; congruence|].
    intros q' Hq'. simpl. congruence.
Qed.

Lemma users_delete l m pid p :
  m !! pid = Some p → proc_gate p = l → size (users l m) = S (size (users l (delete pid m))).
Proof.
  intros Hm Hp. unfold users. rewrite map_filter_delete.
  rewrite map_size_delete_Some; [|exists p; by apply map_lookup_filter_Some_2].
  assert (size (filter (λ kv : nat * proc, proc_gate kv.2 = l) m) ≠ 0%nat); [|lia].
  intros Hz%map_size_empty_inv. 
  assert (Hl : filter (λ kv : nat * proc, proc_gate kv.2 = l) m !! pid = Some p)
    by by apply map_lookup_filter_Some_2.
  rewrite Hz in Hl. by rewrite lookup_empty in Hl.
Qed.

Lemma users_delete_other l m pid p :
  m !! pid = Some p → proc_gate p ≠ l → users l (delete pid m) = users l m.
Proof.
  intros Hm Hp. unfold users. rewrite map_filter_delete. apply delete_id.
  apply map_lookup_filter_None_2. right. intros q Hq. simpl. congruence.
Qed.

(** ** Lemmas: gates *)

(** A goroutine that refers to another gate moves. *)
Lemma gate_inv_insert_other m l g pid p :
  gate_inv m l g → (∀ q, m !! pid = Some q → proc_gate q ≠ l) → proc_gate p ≠ l →
  gate_inv (<[pid := p]> m) l g.
Proof.
  intros [Hr Hf Hh H1] Hold Hp. split.
  - by rewrite users_insert_other.
  - intros Ht i q [[<- <-]|[_ Hq]]%lookup_insert_Some Hl; [done|]. by eapply Hf.
  - intros Ht. destruct (Hh Ht) as (i & q & Hi & Hl & Hq). exists i, q. split; [|done].
    rewrite lookup_insert_ne; [done|]. intros <-. by eapply Hold.
  - intros i j q q' Hi Hj Hl Hl' Hq Hq'.
    apply lookup_insert_Some in Hi as [[_ <-]|[_ Hi]]; [done|].
    apply lookup_insert_Some in Hj as [[_ <-]|[_ Hj]]; [done|]. by eapply (H1 i j q q').
Qed.

Lemma gate_inv_delete_other m l g pid p :
  gate_inv m l g → m !! pid = Some p → proc_gate p ≠ l → gate_inv (delete pid m) l g.
Proof.
  intros [Hr Hf Hh H1] Hold Hp. split.
  - by rewrite (users_delete_other _ _ _ p).
  - intros Ht i q [_ Hq]%lookup_delete_Some Hl. by eapply Hf.
  - intros Ht. destruct (Hh Ht) as (i & q & Hi & Hl & Hq). exists i, q. split; [|done].
    rewrite lookup_delete_ne; [done|]. intros <-. congruence.
  - intros i j q q' [_ Hi]%lookup_delete_Some [_ Hj]%lookup_delete_Some. by eapply (H1 i j q q').
Qed.

(** A goroutine joins the waiters of a gate. *)
Lemma gate_inv_join m l g pid t :
  gate_inv m l g → m !! pid = None →
  gate_inv (<[pid := Waiting t l]> m) l (Gate (g_token g) (g_refs g + 1)).
Proof.
  intros [Hr Hf Hh H1] Hnew. split; simpl.
  - rewrite users_insert_new by done. lia.
  - intros Ht i q [[<- <-]|[_ Hq]]%lookup_insert_Some Hl; [done|]. by eapply Hf.
  - intros Ht. destruct (Hh Ht) as (i & q & Hi & Hl & Hq). exists i, q. split; [|done].
    rewrite lookup_insert_ne; [done|]. congruence.
  - intros i j q q' Hi Hj Hl Hl' Hq Hq'.
    apply lookup_insert_Some in Hi as [[_ <-]|[_ Hi]]; [done|].
    apply lookup_insert_Some in Hj as [[_ <-]|[_ Hj]]; [done|]. by eapply (H1 i j q q').
Qed.

(** A goroutine takes the free token, or returns the one it holds. *)
Lemma gate_inv_move m l g pid p q tok :
  gate_inv m l g → m !! pid = Some p → proc_gate p = l → proc_gate q = l →
  g_token g = negb tok → is_holding p = tok → is_holding q = negb tok →
  gate_inv (<[pid := q]> m) l (Gate tok (g_refs g)).
Proof.
  intros [Hr Hf Hh H1] Hm Hp Hq Htok Hip Hiq. split; simpl.
  - rewrite (users_update _ _ _ q p) by congruence. done.
  - intros -> i x [[<- <-]|[Hne Hx]]%lookup_insert_Some Hl; [done|].
    destruct (is_holding x) eqn:Hix; [|done]. exfalso. apply Hne. by eapply (H1 pid i p x).
  - intros ->. exists pid, q. rewrite lookup_insert_eq. done.
  - intros i j x y Hi Hj Hlx Hly Hx Hy.
    apply lookup_insert_Some in Hi as [[-> <-]|[Ni Hi]];
      apply lookup_insert_Some in Hj as [[-> <-]|[Nj Hj]]; [done| | |by eapply (H1 i j x y)].
    + destruct tok; simpl in *; [congruence|]. rewrite (Hf Htok _ _ Hj Hly) in Hy. done.
    + destruct tok; simpl in *; [congruence|]. rewrite (Hf Htok _ _ Hi Hlx) in Hx. done.
Qed.

(** A goroutine that does not hold the token leaves. *)
Lemma gate_inv_leave m l g pid p :
  gate_inv m l g → m !! pid = Some p → proc_gate p = l → is_holding p = false →
  gate_inv (delete pid m) l (Gate (g_token g) (g_refs g - 1)).
Proof.
  intros [Hr Hf Hh H1] Hm Hp Hip. split; simpl.
  - rewrite Hr, (users_delete _ _ _ p Hm Hp). lia.
  - intros Ht i q [_ Hq]%lookup_delete_Some Hl. by eapply Hf.
  - intros Ht. destruct (Hh Ht) as (i & q & Hi & Hl & Hq). exists i, q. split; [|done].
    rewrite lookup_delete_ne; [done|]. intros <-. congruence.
  - intros i j q q' [_ Hi]%lookup_delete_Some [_ Hj]%lookup_delete_Some. by eapply (H1 i j q q').
Qed.

Lemma users_nonempty m l pid p :
  m !! pid = Some p → proc_gate p = l → size (users l m) ≠ 0%nat.
Proof. intros Hm Hp. rewrite (users_delete _ _ _ p Hm Hp). lia. Qed.

(** ** Lemmas: steps *)

(** A goroutine that starts a gate nobody refers to. *)
Lemma gate_inv_new m pid t l :
  m !! pid = None → (∀ i q, m !! i = Some q → proc_gate q ≠ l) →
  gate_inv (<[pid := Waiting t l]> m) l (Gate true 1).
Proof.
  intros Hpid Hno. assert (Hempty : users l m = ∅).
  { apply map_empty. intros i. apply map_lookup_filter_None_2. right. intros q Hq. by eapply Hno. }
  split; simpl.
  - rewrite users_insert_new by done. by rewrite Hempty.
  - intros _ i q [[<- <-]|[_ Hq]]%lookup_insert_Some Hlq; [done|]. by destruct (Hno _ _ Hq).
  - done.
  - intros i j q q' Hi Hj Hl1 Hl2 Hh1.
    apply lookup_insert_Some in Hi as [[_ <-]|[_ Hi]]; [done|]. by destruct (Hno _ _ Hi).
Qed.

(** Joining the gate a target already has. *)
Lemma join_inv pid target l s :
  inflight_inv s → if_procs s !! pid = None → if_targets s !! target = Some l →
  inflight_inv (with_proc pid (Waiting target l)
                  (with_gate l (λ g, Gate (g_token g) (g_refs g + 1)) s)).
Proof.
  intros [Hp Hinj Hg] Hpid Ht. destruct (Hg _ _ Ht) as (g & Hl & Hgi & Hpos). split; simpl.
  - intros i p [[<- <-]|[_ Hi]]%lookup_insert_Some; [done|exact (Hp _ _ Hi)].
  - done.
  - intros t l' Ht'. destruct (decide (l' = l)) as [->|Hne].
    + eexists. rewrite lookup_alter_eq, Hl. split; [done|]. split; [|simpl; lia].
      by apply gate_inv_join.
    + destruct (Hg _ _ Ht') as (g' & Hl' & Hgi' & Hpos'). exists g'.
      rewrite lookup_alter_ne by done. split; [done|]. split; [|done].
      apply gate_inv_insert_other; [done| |simpl; congruence]. intros q Hq. congruence.
Qed.

(** Registering a gate at a location no gate has. *)
Lemma open_inv pid target l s :
  inflight_inv s → if_procs s !! pid = None → if_targets s !! target = None →
  if_gates s !! l = None →
  inflight_inv (MkInFlight (if_keys s) (<[target := l]> (if_targets s))
                  (<[l := Gate true 1]> (if_gates s))
                  (<[pid := Waiting target l]> (if_procs s))).
Proof.
  intros [Hp Hinj Hg] Hpid Ht Hfresh.
  assert (Hlt : ∀ t l', if_targets s !! t = Some l' → l' ≠ l).
  { intros t l' Ht' ->. destruct (Hg _ _ Ht') as (g & Hl & _). congruence. }
  split; simpl.
  - intros i p [[<- <-]|[_ Hi]]%lookup_insert_Some; [apply lookup_insert_eq|].
    rewrite lookup_insert_ne; [exact (Hp _ _ Hi)|]. intros Heq. apply Hp in Hi. congruence.
  - intros t t' l' Ha Hb.
    apply lookup_insert_Some in Ha as [[<- <-]|[_ Ha]];
      apply lookup_insert_Some in Hb as [[<- Hb]|[_ Hb]]; try done.
    + by destruct (Hlt _ _ Hb).
    + subst l'. by destruct (Hlt _ _ Ha).
    + eauto.
  - intros t l' [[<- <-]|[_ Ht']]%lookup_insert_Some.
    + eexists. rewrite lookup_insert_eq. split; [done|]. split; [|done].
      apply gate_inv_new; [done|]. intros i q Hi Hq. apply Hp in Hi. rewrite Hq in Hi. by apply Hlt in Hi.
    + destruct (Hg _ _ Ht') as (g' & Hl' & Hgi' & Hpos'). exists g'.
      rewrite lookup_insert_ne by (intros ->; by apply Hlt in Ht').
      split; [done|]. split; [|done]. apply gate_inv_insert_other; [done|congruence|].
      simpl. intros ->. by apply Hlt in Ht'.
Qed.

Lemma register_inv pid target s s' :
  inflight_inv s → acquire_register pid target s = Some s' → inflight_inv s'.
Proof.
  intros Hi. unfold acquire_register. destruct (empty target); [done|].
  destruct (if_procs s !! pid) eqn:Hpid; [done|].
  destruct (if_targets s !! target) as [l|] eqn:Ht; intros [= <-]; [by apply join_inv|].
  apply open_inv; [done..|]. apply not_elem_of_dom, is_fresh.
Qed.

(** Taking and returning the token. *)
Lemma move_inv pid p q tok s g :
  inflight_inv s → if_procs s !! pid = Some p → if_gates s !! proc_gate p = Some g →
  g_token g = negb tok → is_holding p = tok → is_holding q = negb tok →
  proc_target q = proc_target p → proc_gate q = proc_gate p →
  inflight_inv (with_proc pid q (with_gate (proc_gate p) (λ g, Gate tok (g_refs g)) s)).
Proof.
  intros [Hp Hinj Hg] Hpid Hgate Htok Hip Hiq Et El. split; simpl.
  - intros i x [[<- <-]|[_ Hi]]%lookup_insert_Some; [|exact (Hp _ _ Hi)].
    rewrite Et, El. exact (Hp _ _ Hpid).
  - done.
  - intros t l Ht. destruct (Hg _ _ Ht) as (g' & Hl & Hgi & Hpos).
    destruct (decide (proc_gate p = l)) as [<-|Hne].
    + eexists. rewrite lookup_alter_eq, Hl. split; [done|]. simplify_eq. split; [|done].
      by eapply gate_inv_move.
    + exists g'. rewrite lookup_alter_ne by done. split; [done|]. split; [|done].
      apply gate_inv_insert_other; [done| |congruence]. intros x Hx. congruence.
Qed.

(** Leaving a gate, which goes with its last user. *)
Lemma leave_inv pid p s :
  inflight_inv s → if_procs s !! pid = Some p → is_holding p = false →
  inflight_inv (without_proc pid (releaseTargetRef (proc_target p) (proc_gate p) s)).
Proof.
  intros [Hp Hinj Hg] Hpid Hip. assert (Ht := Hp _ _ Hpid).
  destruct (Hg _ _ Ht) as (g & Hl & Hgi & Hpos).
  unfold releaseTargetRef. simpl. rewrite lookup_alter_eq, Hl. simpl.
  rewrite bool_decide_true, andb_true_r by done.
  assert (Hleave := gate_inv_leave _ _ _ _ _ Hgi Hpid eq_refl Hip).
  assert (Hother : ∀ t l, if_targets s !! t = Some l → l ≠ proc_gate p →
    ∃ g', alter (λ g, Gate (g_token g) (g_refs g - 1)) (proc_gate p) (if_gates s) !! l = Some g'
      ∧ gate_inv (delete pid (if_procs s)) l g' ∧ 0 < g_refs g').
  { intros t l Ht' Hne. destruct (Hg _ _ Ht') as (g' & Hl' & Hgi' & Hpos'). exists g'.
    rewrite lookup_alter_ne by done. split; [done|]. split; [|done].
    by eapply gate_inv_delete_other. }
  destruct (Z.eqb_spec (g_refs g - 1) 0) as [Hz|Hnz]; split; simpl.
  - intros i x [Hne Hi]%lookup_delete_Some. rewrite lookup_delete_ne; [exact (Hp _ _ Hi)|].
    intros Heq. assert (Hx := Hp _ _ Hi). rewrite <-Heq, Ht in Hx. simplify_eq.
    assert (Hsz := gi_refs _ _ _ Hleave). simpl in Hsz.
    assert (users (proc_gate p) (delete pid (if_procs s)) ≠ ∅); [|].
    { intros He. rewrite map_empty in He. specialize (He i). unfold users in He.
      rewrite map_lookup_filter_Some_2 with (x := x) in He; [done| |done].
      by rewrite lookup_delete_ne. }
    apply H. apply map_size_empty_inv. lia.
  - intros t t' l [_ Ha]%lookup_delete_Some [_ Hb]%lookup_delete_Some. eauto.
  - intros t l [Hne Ht']%lookup_delete_Some. eapply Hother; [done|]. intros ->. apply Hne. eauto.
  - intros i x [_ Hi]%lookup_delete_Some. exact (Hp _ _ Hi).
  - done.
  - intros t l Ht'. destruct (decide (l = proc_gate p)) as [->|Hne]; [|eauto].
    eexists. rewrite lookup_alter_eq, Hl. split; [done|]. split; [done|]. simpl. lia.
Qed.

Lemma istep_inv s s' : inflight_inv s → istep s s' → inflight_inv s'.
Proof.
  intros Hi. destruct 1 as [pid t s' H|pid s' H|pid s' H|pid s' H|pid s' H|keys|keys].
  - by eapply register_inv.
  - unfold acquire_take in H. destruct (if_procs s !! pid) as [[t l| |]|] eqn:Hp; try done.
    destruct (if_gates s !! l) as [g|] eqn:Hg; [|done]. destruct (g_token g) eqn:Ht; [|done].
    simplify_eq. by apply (move_inv pid (Waiting t l) (Holding t l) false s g).
  - unfold acquire_cancel in H. destruct (if_procs s !! pid) as [[t l| |]|] eqn:Hp; try done.
    simplify_eq. by apply (leave_inv pid (Waiting t l)).
  - unfold release_token in H. destruct (if_procs s !! pid) as [[|t l|]|] eqn:Hp; try done.
    destruct (if_gates s !! l) as [g|] eqn:Hg; [|done]. destruct (g_token g) eqn:Ht; [done|].
    simplify_eq. by apply (move_inv pid (Holding t l) (Releasing t l) true s g).
  - unfold release_ref in H. destruct (if_procs s !! pid) as [[| |t l]|] eqn:Hp; try done.
    simplify_eq. by apply (leave_inv pid (Releasing t l)).
  - by destruct Hi.
  - by destruct Hi.
Qed.

Lemma NewInFlight_inv : inflight_inv NewInFlight.
Proof. split; simpl; intros *; by rewrite lookup_empty. Qed.

Lemma reachable_inv s : rtc istep NewInFlight s → inflight_inv s.
Proof.
  assert (Hrun : ∀ x, rtc istep x s → inflight_inv x → inflight_inv s).
  { induction 1; eauto using istep_inv. }
  intros H. by apply (Hrun NewInFlight), NewInFlight_inv.
Qed.

(** ** Property *)

(** C17: the per-target gate serialises composers.  In every interleaving of
    acquisitions, cancellations and releases: at most one goroutine holds the
    gate of a target; a waiter whose target nobody holds can take the token (no
    lost wakeup, across the deletion and re-creation of gates); a holder's
    release never blocks on a full channel; and the table keeps an entry only
    while some goroutine refers to it, so targets named by strangers do not
    accumulate. *)
Theorem gate_mutual_exclusion s :
  rtc istep NewInFlight s →
  (∀ i j t l l', if_procs s !! i = Some (Holding t l) → if_procs s !! j = Some (Holding t l') → i = j)
  ∧ (∀ i t l, if_procs s !! i = Some (Waiting t l) →
       (∀ j l', if_procs s !! j ≠ Some (Holding t l')) → is_Some (acquire_take i s))
  ∧ (∀ i t l, if_procs s !! i = Some (Holding t l) → is_Some (release_token i s))
  ∧ (∀ t, is_Some (if_targets s !! t) → ∃ i p, if_procs s !! i = Some p ∧ proc_target p = t).
Proof.
  intros [Hp Hinj Hg]%reachable_inv. split_and!.
  - intros i j t l l' Hi Hj. assert (Ht := Hp _ _ Hi). assert (Ht' := Hp _ _ Hj). simpl in *.
    simplify_eq. destruct (Hg _ _ Ht) as (g & _ & Hgi & _). by eapply (gi_one _ _ _ Hgi).
  - intros i t l Hi Hno. assert (Ht := Hp _ _ Hi). simpl in Ht.
    destruct (Hg _ _ Ht) as (g & Hl & Hgi & _). unfold acquire_take. rewrite Hi, Hl.
    destruct (g_token g) eqn:Htok; [done|].
    destruct (gi_held _ _ _ Hgi Htok) as (j & p & Hj & Hpl & Hh).
    destruct p as [|t' l'|]; try done. assert (Ht' := Hp _ _ Hj). simpl in *. subst l'.
    assert (t' = t) as -> by eauto. by destruct (Hno j l).
  - intros i t l Hi. assert (Ht := Hp _ _ Hi). simpl in Ht.
    destruct (Hg _ _ Ht) as (g & Hl & Hgi & _). unfold release_token. rewrite Hi, Hl.
    destruct (g_token g) eqn:Htok; [|done].
    by assert (Hf := gi_free _ _ _ Hgi Htok _ _ Hi eq_refl).
  - intros t [l Ht]. destruct (Hg _ _ Ht) as (g & Hl & Hgi & Hpos).
    rewrite (gi_refs _ _ _ Hgi) in Hpos.
    destruct (map_choose (users l (if_procs s))) as (i & p & Hi).
    { intros He. rewrite He in Hpos. done. }
    apply map_lookup_filter_Some in Hi as [Hi Hpl]. exists i, p. split; [done|].
    apply Hp in Hi. simpl in Hpl. rewrite Hpl in Hi. eauto.
Qed.

(** Two goroutines on one target: the second waits until the first is done. *)
Definition demo_run : option InFlight :=
  s ← acquire_register 1 "discord:dm:7" NewInFlight;
  s ← acquire_take 1 s;
  acquire_register 2 "discord:dm:7" s.

Lemma gate_mutual_exclusion_witness :
  ∃ s, demo_run = Some s ∧ acquire_take 2 s = None
  ∧ (∀ j t l l', if_procs s !! 1%nat = Some (Holding t l) → if_procs s !! j = Some (Holding t l') → 1%nat = j).
Proof.
  eexists. split; [vm_compute; reflexivity|]. split; [vm_compute; reflexivity|].
  match goal with |- context [if_procs ?s] => set (st := s) end.
  assert (H : rtc istep NewInFlight st).
  { eapply rtc_l; [apply (is_register _ 1 "discord:dm:7"); reflexivity|].
    eapply rtc_l; [apply (is_take _ 1); reflexivity|].
    eapply rtc_l; [apply (is_register _ 2 "discord:dm:7"); reflexivity|]. apply rtc_refl. }
  intros j t l l'. exact (proj1 (gate_mutual_exclusion st H) 1%nat j t l l').
Defined.
