(* ===== verification/Router.v ===== *)
(** * The per-thread queues (src/internal/router/router.go)

    [Queues] is the in-memory index and the goroutines around it.  Every block
    under q.mu, every lock and unlock of an ingest shard, every store call and
    the start and end of a handler is one step; ingest goroutines, drain
    goroutines, shutdown and the rest of the daemon (any step of the store)
    interleave freely.  An entry is tagged with whether it came from a receipt
    (Persist, Rebuild) or from a readmission; [q_log] (what the drains popped)
    and [q_received] (what Persist made durable) are history, read by no step. *)
From S2P Require Import Prelude Utf8 Json Schema Events Deliveries Surface StoreSpec.
From S2P Require Import StoreInv StoreOps.
Local Open Scope Z_scope.

(** ** Ingest shards *)

Definition ingestShards : Z := 64.

(** hash/fnv's New32a. *)
Definition fnv_offset32 : Z := 2166136261.
Definition fnv_prime32 : Z := 16777619.
Definition fnv32a (bs : list Z) : Z :=
  fold_left (λ h b, (Z.lxor h b * fnv_prime32) mod 2 ^ 32) bs fnv_offset32.

(** The shard whose mutex [ingestLock] returns. *)
Definition ingestLock (threadKey : string) : Z := fnv32a (bytes threadKey) mod ingestShards.

(** ** State *)

Record entry : Type := Entry {
  en_event : QueuedEvent;
  en_receipt : bool;   (* enqueued by a receipt, not by Readmit *)
}.

(** An ingest goroutine: past the lock, past a successful insert, or done and
    about to unlock. *)
Inductive ingest : Type :=
| ILocked (ev : StoreEvent)
| IReady (en : entry)
| IUnlocking (threadKey : string).

Definition ingest_thread (p : ingest) : string :=
  match p with
  | ILocked ev => ev_ThreadKey ev
  | IReady en => qe_ThreadKey (en_event en)
  | IUnlocking t => t
  end.

(** A drain goroutine: at the top of its loop, with a popped event, or inside
    the handler. *)
Inductive drain_state : Type :=
| Looping
| Popped (en : entry)
| Running (en : entry).

Record Queues : Type := MkQueues {
  q_db : db;
  q_over : bool;                              (* q.ctx.Err() != nil *)
  q_pending : gmap string (list entry);
  q_claimed : gset string;
  q_drains : gmap nat (string * drain_state);
  q_locks : gmap Z nat;                       (* shard -> its holder *)
  q_ingest : gmap nat ingest;
  q_log : list entry;
  q_received : list QueuedEvent;
}.

Definition New (d : db) : Queues := MkQueues d false ∅ ∅ ∅ ∅ ∅ [] [].

Definition pending_of (t : string) (q : Queues) : list entry := default [] (q_pending q !! t).

Definition set_db (d : db) (q : Queues) : Queues :=
  MkQueues d (q_over q) (q_pending q) (q_claimed q) (q_drains q) (q_locks q) (q_ingest q)
    (q_log q) (q_received q).
Definition set_drain (pid : nat) (x : string * drain_state) (q : Queues) : Queues :=
  MkQueues (q_db q) (q_over q) (q_pending q) (q_claimed q) (<[pid := x]> (q_drains q))
    (q_locks q) (q_ingest q) (q_log q) (q_received q).
Definition set_ingest (pid : nat) (x : ingest) (q : Queues) : Queues :=
  MkQueues (q_db q) (q_over q) (q_pending q) (q_claimed q) (q_drains q) (q_locks q)
    (<[pid := x]> (q_ingest q)) (q_log q) (q_received q).

(** ** Operations *)

(** Enqueue, under q.mu: append and claim, or nothing once shutdown began. *)
Definition Enqueue (en : entry) (q : Queues) : Queues :=
  let t := qe_ThreadKey (en_event en) in
  if q_over q then q
  else
    let pending := <[t := pending_of t q ++ [en]]> (q_pending q) in
    if bool_decide (t ∈ q_claimed q) then
      MkQueues (q_db q) (q_over q) pending (q_claimed q) (q_drains q) (q_locks q) (q_ingest q)
        (q_log q) (q_received q)
    else
      MkQueues (q_db q) (q_over q) pending ({[t]} ∪ q_claimed q)
        (<[fresh (dom (q_drains q)) := (t, Looping)]> (q_drains q)) (q_locks q) (q_ingest q)
        (q_log q) (q_received q).

(** Persist and Readmit take the thread's shard lock. *)
Definition lock_ingest (pid : nat) (p : ingest) (q : Queues) : option Queues :=
  let shard := ingestLock (ingest_thread p) in
  match q_ingest q !! pid, q_locks q !! shard with
  | None, None =>
      Some (MkQueues (q_db q) (q_over q) (q_pending q) (q_claimed q) (q_drains q)
              (<[shard := pid]> (q_locks q)) (<[pid := p]> (q_ingest q)) (q_log q) (q_received q))
  | _, _ => None
  end.

Definition Persist_lock (pid : nat) (ev : StoreEvent) : Queues → option Queues :=
  lock_ingest pid (ILocked ev).
Definition Readmit_lock (pid : nat) (ev : QueuedEvent) : Queues → option Queues :=
  lock_ingest pid (IReady (Entry ev false)).

(** The QueuedEvent Persist indexes. *)
Definition queued_of (id : Z) (ev : StoreEvent) : QueuedEvent :=
  MkQueuedEvent id (ev_DedupKey ev) (ev_ThreadKey ev) (ev_Kind ev) (ev_Trust ev) (ev_Payload ev)
    Received (ev_Received ev) (ev_Correlation ev).

(** Persist's store.InsertEvent, whose calls may fail as [fs] says. *)
Definition Persist_insert (pid : nat) (fs : list bool) (q : Queues) : option Queues :=
  match q_ingest q !! pid with
  | Some (ILocked ev) =>
      let '(r, w) := InsertEvent ev (World (q_db q) fs) in
      let q := set_db (w_db w) q in
      match r with
      | Ok (id, true) =>
          let qe := queued_of id ev in
          Some (MkQueues (q_db q) (q_over q) (q_pending q) (q_claimed q) (q_drains q) (q_locks q)
                  (<[pid := IReady (Entry qe true)]> (q_ingest q)) (q_log q) (q_received q ++ [qe]))
      | _ => Some (set_ingest pid (IUnlocking (ev_ThreadKey ev)) q)
      end
  | _ => None
  end.

(** The Enqueue call of Persist and Readmit, still under the shard lock. *)
Definition ingest_enqueue (pid : nat) (q : Queues) : option Queues :=
  match q_ingest q !! pid with
  | Some (IReady en) =>
      Some (set_ingest pid (IUnlocking (qe_ThreadKey (en_event en))) (Enqueue en q))
  | _ => None
  end.

Definition ingest_unlock (pid : nat) (q : Queues) : option Queues :=
  match q_ingest q !! pid with
  | Some (IUnlocking t) =>
      Some (MkQueues (q_db q) (q_over q) (q_pending q) (q_claimed q) (q_drains q)
              (delete (ingestLock t) (q_locks q)) (delete pid (q_ingest q)) (q_log q) (q_received q))
  | _ => None
  end.

(** One turn of drain's loop, under q.mu: release the claim and exit, or pop. *)
Definition drain_loop (pid : nat) (q : Queues) : option Queues :=
  match q_drains q !! pid with
  | Some (t, Looping) =>
      match pending_of t q with
      | en :: rest =>
          if q_over q then
            Some (MkQueues (q_db q) (q_over q) (delete t (q_pending q)) (q_claimed q ∖ {[t]})
                    (delete pid (q_drains q)) (q_locks q) (q_ingest q) (q_log q) (q_received q))
          else
            Some (MkQueues (q_db q) (q_over q) (<[t := rest]> (q_pending q)) (q_claimed q)
                    (<[pid := (t, Popped en)]> (q_drains q)) (q_locks q) (q_ingest q)
                    (q_log q ++ [en]) (q_received q))
      | [] =>
          Some (MkQueues (q_db q) (q_over q) (delete t (q_pending q)) (q_claimed q ∖ {[t]})
                  (delete pid (q_drains q)) (q_locks q) (q_ingest q) (q_log q) (q_received q))
      end
  | _ => None
  end.

(** dispatch up to the handler: a quiet refusal on shutdown, the processing
    stamp, and the handler only behind a stamp that was written. *)
Definition dispatch_stamp (pid : nat) (fs : list bool) (t0 : Z) (q : Queues) : option Queues :=
  match q_drains q !! pid with
  | Some (t, Popped en) =>
      if q_over q then Some (set_drain pid (t, Looping) q)
      else
        let '(r, w) := MarkEventProcessing (qe_ID (en_event en)) t0 (World (q_db q) fs) in
        let q := set_db (w_db w) q in
        match r with
        | Ok _ => Some (set_drain pid (t, Running en) q)
        | Err _ => Some (set_drain pid (t, Looping) q)
        end
  | _ => None
  end.

(** The handler returns. *)
Definition dispatch_return (pid : nat) (q : Queues) : option Queues :=
  match q_drains q !! pid with
  | Some (t, Running en) => Some (set_drain pid (t, Looping) q)
  | _ => None
  end.

(** The handler panics: park, and hear about it when OnPark is set. *)
Definition panic_park (onPark : option (QueuedEvent → StoreM unit)) (ev : QueuedEvent) (t0 : Z)
    : StoreM unit :=
  parked ← try (ParkEvent (qe_ID ev) t0);
  match parked, onPark with
  | Ok _, Some surface => _ ← try (surface ev); mret tt
  | _, _ => mret tt
  end.

Definition dispatch_panic (onPark : option (QueuedEvent → StoreM unit)) (pid : nat)
    (fs : list bool) (t0 : Z) (q : Queues) : option Queues :=
  match q_drains q !! pid with
  | Some (t, Running en) =>
      let '(_, w) := panic_park onPark (en_event en) t0 (World (q_db q) fs) in
      Some (set_drain pid (t, Looping) (set_db (w_db w) q))
  | _ => None
  end.

Definition cancel (q : Queues) : Queues :=
  MkQueues (q_db q) true (q_pending q) (q_claimed q) (q_drains q) (q_locks q) (q_ingest q)
    (q_log q) (q_received q).

Section steps.
Context (onPark : option (QueuedEvent → StoreM unit)).

Inductive qstep (q : Queues) : Queues → Prop :=
| qs_persist pid ev q' : Persist_lock pid ev q = Some q' → qstep q q'
| qs_readmit pid ev q' : Readmit_lock pid ev q = Some q' → qstep q q'
| qs_insert pid fs q' : Persist_insert pid fs q = Some q' → qstep q q'
| qs_enqueue pid q' : ingest_enqueue pid q = Some q' → qstep q q'
| qs_unlock pid q' : ingest_unlock pid q = Some q' → qstep q q'
| qs_drain pid q' : drain_loop pid q = Some q' → qstep q q'
| qs_stamp pid fs t0 q' : dispatch_stamp pid fs t0 q = Some q' → qstep q q'
| qs_return pid q' : dispatch_return pid q = Some q' → qstep q q'
| qs_panic pid fs t0 q' : dispatch_panic onPark pid fs t0 q = Some q' → qstep q q'
| qs_cancel : qstep q (cancel q)
| qs_store d' : astep (q_db q) d' → qstep q (set_db d' q).

(** ** Rebuild *)

(** Phase one: every crash-interrupted row parks; a failed park refuses to
    boot, a failed notice does not. *)
Fixpoint rebuild_park (clock : nat → Z) (i : nat) (rows : list QueuedEvent) : StoreM unit :=
  match rows with
  | [] => mret tt
  | ev :: rows' =>
      if bool_decide (qe_Status ev = Processing) then
        _ ← ParkEvent (qe_ID ev) (clock i);
        _ ← match onPark with
            | Some surface => _ ← try (surface ev); mret tt
            | None => mret tt
            end;
        rebuild_park clock (S i) rows'
      else rebuild_park clock i rows'
  end.

(** Phase two: every received row, in the scan's order. *)
Definition rebuild_enqueue (rows : list QueuedEvent) (q : Queues) : Queues :=
  fold_left (λ q ev, if bool_decide (qe_Status ev = Received) then Enqueue (Entry ev true) q else q)
    rows q.

Definition rebuild_rows (clock : nat → Z) : StoreM (list QueuedEvent) :=
  rows ← UnprocessedEvents;
  _ ← rebuild_park clock 0 rows;
  mret rows.

Definition Rebuild (clock : nat → Z) (fs : list bool) (q : Queues) : result err unit * Queues :=
  let '(r, w) := rebuild_rows clock (World (q_db q) fs) in
  match r with
  | Err e => (Err e, set_db (w_db w) q)
  | Ok rows => (Ok tt, rebuild_enqueue rows (set_db (w_db w) q))
  end.
End steps.

(** ** Invariants *)

Definition receipt_id (t : string) (en : entry) : option Z :=
  if en_receipt en && String.eqb (qe_ThreadKey (en_event en)) t then Some (qe_ID (en_event en))
  else None.

(** The receipts of a thread, as popped so far and then as they wait. *)
Definition receipt_ids (t : string) (q : Queues) : list Z :=
  omap (receipt_id t) (q_log q ++ pending_of t q).

Definition known (q : Queues) (id : Z) : Prop := is_Some (events (q_db q) !! id).

(** The index and its drains. *)
Record index_ok (q : Queues) : Prop := IndexOk {
  ix_claim : ∀ t, t ∈ q_claimed q ↔ ∃ pid st, q_drains q !! pid = Some (t, st);
  ix_one : ∀ i j t st st', q_drains q !! i = Some (t, st) → q_drains q !! j = Some (t, st') → i = j;
  ix_wake : ∀ t, pending_of t q ≠ [] → t ∈ q_claimed q;
  ix_order : ∀ t, StronglySorted Z.lt (receipt_ids t q);
  ix_known : ∀ t id, id ∈ receipt_ids t q → known q id;
  ix_thread : ∀ t en, en ∈ pending_of t q → qe_ThreadKey (en_event en) = t;
}.

(** The ingest goroutines: one per shard between lock and unlock, and a receipt
    about to be enqueued is newer than every earlier one of its thread. *)
Record ingest_ok (q : Queues) : Prop := IngestOk {
  ig_lock : ∀ pid p, q_ingest q !! pid = Some p →
    q_locks q !! ingestLock (ingest_thread p) = Some pid;
  ig_ready : ∀ pid en, q_ingest q !! pid = Some (IReady en) → en_receipt en = true →
    known q (qe_ID (en_event en))
    ∧ ∀ id, id ∈ receipt_ids (qe_ThreadKey (en_event en)) q → id < qe_ID (en_event en);
  ig_kept : q_over q = false → ∀ qe, qe ∈ q_received q →
    Entry qe true ∈ q_log q ∨ Entry qe true ∈ pending_of (qe_ThreadKey qe) q
    ∨ ∃ pid, q_ingest q !! pid = Some (IReady (Entry qe true));
}.

(** ** Lemmas: Enqueue *)

Lemma pending_of_insert t l (pending : gmap string (list entry)) t' :
  default [] (<[t := l]> pending !! t') = if decide (t' = t) then l else default [] (pending !! t').
Proof.
  case_decide as Hd; [subst; by rewrite lookup_insert_eq|by rewrite lookup_insert_ne].
Qed.

Lemma pending_of_Enqueue en q t :
  q_over q = false →
  pending_of t (Enqueue en q)
  = if decide (t = qe_ThreadKey (en_event en)) then pending_of t q ++ [en] else pending_of t q.
Proof.
  intros Ho. unfold Enqueue. rewrite Ho.
  destruct (bool_decide _); unfold pending_of at 1; simpl;
    rewrite pending_of_insert; by case_decide; subst.
Qed.

Lemma q_log_Enqueue en q : q_log (Enqueue en q) = q_log q.
Proof. unfold Enqueue. by repeat case_match. Qed.
Lemma q_db_Enqueue en q : q_db (Enqueue en q) = q_db q.
Proof. unfold Enqueue. by repeat case_match. Qed.
Lemma q_over_Enqueue en q : q_over (Enqueue en q) = q_over q.
Proof. unfold Enqueue. by repeat case_match. Qed.
Lemma q_ingest_Enqueue en q : q_ingest (Enqueue en q) = q_ingest q.
Proof. unfold Enqueue. by repeat case_match. Qed.
Lemma q_locks_Enqueue en q : q_locks (Enqueue en q) = q_locks q.
Proof. unfold Enqueue. by repeat case_match. Qed.
Lemma q_received_Enqueue en q : q_received (Enqueue en q) = q_received q.
Proof. unfold Enqueue. by repeat case_match. Qed.

Lemma receipt_ids_Enqueue en q t :
  q_over q = false →
  receipt_ids t (Enqueue en q) = receipt_ids t q ++ option_list (receipt_id t en).
Proof.
  intros Ho. unfold receipt_ids. rewrite q_log_Enqueue, pending_of_Enqueue by done.
  case_decide as Hd; subst.
  - rewrite (assoc_L app), omap_app. simpl. by destruct (receipt_id _ en).
  - assert (Hn : receipt_id t en = None).
    { unfold receipt_id. destruct (String.eqb_spec (qe_ThreadKey (en_event en)) t); [congruence|].
      by rewrite andb_false_r. }
    rewrite Hn. simpl. by rewrite app_nil_r.
Qed.

Lemma StronglySorted_snoc l (x : Z) :
  StronglySorted Z.lt l → (∀ y, y ∈ l → y < x) → StronglySorted Z.lt (l ++ [x]).
Proof.
  induction 1 as [|y l Hs IH Hall]; simpl; intros Hx; [by repeat constructor|].
  constructor; [apply IH; intros z Hz; apply Hx; by right|].
  apply Forall_app. split; [done|]. repeat constructor. apply Hx. by left.
Qed.

Lemma receipt_id_Some t en id :
  receipt_id t en = Some id →
  en_receipt en = true ∧ qe_ThreadKey (en_event en) = t ∧ qe_ID (en_event en) = id.
Proof.
  unfold receipt_id. destruct (en_receipt en); [|done]. simpl.
  destruct (String.eqb_spec (qe_ThreadKey (en_event en)) t); [|done]. by intros [= <-].
Qed.

Lemma Enqueue_index en q :
  index_ok q →
  (en_receipt en = true → known q (qe_ID (en_event en))
     ∧ ∀ id, id ∈ receipt_ids (qe_ThreadKey (en_event en)) q → id < qe_ID (en_event en)) →
  index_ok (Enqueue en q).
Proof.
  intros [Hc H1 Hw Hord Hk Hth] Hnew. destruct (q_over q) eqn:Ho.
  { unfold Enqueue. rewrite Ho. done. }
  set (t := qe_ThreadKey (en_event en)) in *.
  assert (Hclaim : (∀ t', t' ∈ q_claimed (Enqueue en q) ↔ t' = t ∨ t' ∈ q_claimed q)
    ∧ (∀ t', t' ∈ q_claimed (Enqueue en q) ↔ ∃ pid st, q_drains (Enqueue en q) !! pid = Some (t', st))
    ∧ ∀ i j t' st st', q_drains (Enqueue en q) !! i = Some (t', st) →
         q_drains (Enqueue en q) !! j = Some (t', st') → i = j).
  { unfold Enqueue. rewrite Ho. fold t. case_bool_decide as Ht; simpl.
    - split_and!; [|done|done]. set_solver.
    - split; [set_solver|]. set (f := fresh _).
      assert (Hf : q_drains q !! f = None) by apply not_elem_of_dom, is_fresh.
      split.
      + intros t'. rewrite elem_of_union, elem_of_singleton, Hc. split.
        * intros [->|(pid & st & Hp)]; [exists f, Looping; apply lookup_insert_eq|].
          exists pid, st. rewrite lookup_insert_ne; [done|congruence].
        * intros (pid & st & [[_ ?]|[_ ?]]%lookup_insert_Some); [left; congruence|right; eauto].
      + intros i j t' st st' Hi Hj.
        apply lookup_insert_Some in Hi as [[-> Ei]|[Ni Hi]];
          apply lookup_insert_Some in Hj as [[-> Ej]|[Nj Hj]]; [done| | |by eapply H1].
        * destruct Ht. apply Hc. simplify_eq. eauto.
        * destruct Ht. apply Hc. simplify_eq. eauto. }
  destruct Hclaim as (Hcl & Hc' & H1'). split; [done|done| | | |].
  - intros t'. rewrite pending_of_Enqueue, Hcl by done. case_decide; [by left|]. right. auto.
  - intros t'. rewrite receipt_ids_Enqueue by done.
    destruct (receipt_id t' en) as [id|] eqn:Hid; simpl; [|by rewrite app_nil_r].
    apply receipt_id_Some in Hid as (Hr & <- & <-). apply StronglySorted_snoc; [done|].
    apply Hnew, Hr.
  - intros t' id. rewrite receipt_ids_Enqueue, elem_of_app by done.
    unfold known. rewrite q_db_Enqueue. intros [Hin|Hin]; [by eapply Hk|].
    destruct (receipt_id t' en) as [id'|] eqn:Hid; simpl in Hin; [|by apply elem_of_nil in Hin].
    apply list_elem_of_singleton in Hin as ->.
    apply receipt_id_Some in Hid as (Hr & _ & <-). by apply Hnew.
  - intros t' en'. rewrite pending_of_Enqueue by done. case_decide as Hd; [|apply Hth].
    rewrite elem_of_app, list_elem_of_singleton. intros [?| ->]; [by apply Hth|done].
Qed.

(** ** Lemmas: steps *)

(** The index after a step that pops and enqueues nothing. *)
Lemma index_ok_frame q q' :
  index_ok q → q_pending q' = q_pending q → q_claimed q' = q_claimed q → q_log q' = q_log q →
  (∀ pid, fst <$> q_drains q' !! pid = fst <$> q_drains q !! pid) →
  (∀ id, known q id → known q' id) → index_ok q'.
Proof.
  intros [Hc H1 Hw Hord Hk Hth] Ep Ec El Ed Hkn.
  assert (Epo : ∀ t, pending_of t q' = pending_of t q) by (intros t; unfold pending_of; by rewrite Ep).
  assert (Eids : ∀ t, receipt_ids t q' = receipt_ids t q).
  { intros t. unfold receipt_ids. by rewrite El, Epo. }
  assert (Edr : ∀ pid t, (∃ st, q_drains q' !! pid = Some (t, st)) ↔ ∃ st, q_drains q !! pid = Some (t, st)).
  { intros pid t. specialize (Ed pid).
    destruct (q_drains q' !! pid) as [[t1 s1]|], (q_drains q !! pid) as [[t2 s2]|]; simpl in Ed;
      simplify_eq; split; intros [st ?]; simplify_eq; eauto. }
  split.
  - intros t. rewrite Ec, Hc. split.
    + intros (pid & st & Hp). destruct (proj2 (Edr pid t)) as [st' ?]; eauto.
    + intros (pid & st & Hp). destruct (proj1 (Edr pid t)) as [st' ?]; eauto.
  - intros i j t st st' Hi Hj. destruct (proj1 (Edr i t)) as [? Hi']; [eauto|].
    destruct (proj1 (Edr j t)) as [? Hj']; [eauto|]. by eapply H1.
  - intros t. rewrite Epo, Ec. auto.
  - intros t. rewrite Eids. auto.
  - intros t id. rewrite Eids. eauto.
  - intros t en. rewrite Epo. apply Hth.
Qed.

(** The ingest side after a step of anybody else. *)
Lemma ingest_ok_frame q q' :
  ingest_ok q → q_locks q' = q_locks q → q_ingest q' = q_ingest q → q_received q' = q_received q →
  (q_over q' = false → q_over q = false) →
  (∀ t, receipt_ids t q' ⊆ receipt_ids t q) →
  (∀ t en, q_over q' = false → en ∈ q_log q ∨ en ∈ pending_of t q →
     en ∈ q_log q' ∨ en ∈ pending_of t q') →
  (∀ id, known q id → known q' id) → ingest_ok q'.
Proof.
  intros [Hl Hr Hkept] El Ei Er Eo Hids Hent Hkn. split.
  - intros pid p. rewrite Ei, El. auto.
  - intros pid en. rewrite Ei. intros Hp Hrec. destruct (Hr _ _ Hp Hrec) as [Hk Hlt].
    split; [auto|]. intros id Hid. apply Hlt. by apply Hids.
  - intros Ho qe. rewrite Er, Ei. intros Hq.
    destruct (Hkept (Eo Ho) qe Hq) as [H|[H|H]]; [| |by right; right];
      destruct (Hent (qe_ThreadKey qe) (Entry qe true) Ho); auto.
Qed.

Definition router_ok (q : Queues) : Prop := index_ok q ∧ ingest_ok q.

(** A step that only moves the store, the flag, or a drain's own state. *)
Lemma router_ok_frame q q' :
  router_ok q → q_pending q' = q_pending q → q_claimed q' = q_claimed q → q_log q' = q_log q →
  (∀ pid, fst <$> q_drains q' !! pid = fst <$> q_drains q !! pid) →
  q_locks q' = q_locks q → q_ingest q' = q_ingest q → q_received q' = q_received q →
  (q_over q' = false → q_over q = false) → (∀ id, known q id → known q' id) → router_ok q'.
Proof.
  intros [Hi Hg] Ep Ec El Ed Ek Ein Er Eo Hkn. split; [by eapply index_ok_frame|].
  assert (Epo : ∀ t, pending_of t q' = pending_of t q) by (intros t; unfold pending_of; by rewrite Ep).
  eapply ingest_ok_frame; eauto.
  - intros t. unfold receipt_ids. by rewrite El, Epo.
  - intros t en _. by rewrite El, Epo.
Qed.

Lemma drains_same_thread (m : gmap nat (string * drain_state)) pid t st st' i :
  m !! pid = Some (t, st) → fst <$> <[pid := (t, st')]> m !! i = fst <$> m !! i.
Proof.
  intros Hp. destruct (decide (pid = i)) as [<-|?]; [|by rewrite lookup_insert_ne].
  by rewrite lookup_insert_eq, Hp.
Qed.

Lemma known_grows q d' id : grows (q_db q) d' → known q id → known (set_db d' q) id.
Proof.
  intros Hg [e He]. destruct (gr_events _ _ Hg _ _ He) as (e' & He' & _). exists e'. done.
Qed.

Lemma steps_world {A} (m : StoreM A) d fs : steps m → grows d (w_db (m (World d fs)).2).
Proof.
  intros H. apply steps_grow. specialize (H d fs). by destruct (m (World d fs)).
Qed.

Lemma lock_ingest_ok pid p q q' :
  router_ok q → (∀ en, p = IReady en → en_receipt en = false) →
  lock_ingest pid p q = Some q' → router_ok q'.
Proof.
  intros [Hi [Hl Hr Hk]] Hp. unfold lock_ingest.
  destruct (q_ingest q !! pid) eqn:Hpid; [done|]. destruct (q_locks q !! _) eqn:Hlk; [done|].
  intros [= <-]. split; [by eapply index_ok_frame|]. split; simpl.
  - intros i x [[<- <-]|[Hne Hx]]%lookup_insert_Some; [apply lookup_insert_eq|].
    rewrite lookup_insert_ne; [auto|]. intros Heq. apply Hl in Hx. congruence.
  - intros i en [[<- ->]|[Hne Hx]]%lookup_insert_Some Hrec; [by rewrite (Hp en) in Hrec|].
    by apply (Hr i en).
  - intros Ho qe Hq. destruct (Hk Ho qe Hq) as [?|[?|[i Hx]]]; [by left|by right; left|].
    right; right. exists i. rewrite lookup_insert_ne; [done|congruence].
Qed.

Lemma ingest_unlock_ok pid q q' : router_ok q → ingest_unlock pid q = Some q' → router_ok q'.
Proof.
  intros [Hi [Hl Hr Hk]]. unfold ingest_unlock.
  destruct (q_ingest q !! pid) as [[| |t]|] eqn:Hpid; try done. intros [= <-].
  split; [by eapply index_ok_frame|]. split; simpl.
  - intros i x [Hne Hx]%lookup_delete_Some. rewrite lookup_delete_ne; [auto|].
    intros Heq. apply Hl in Hx, Hpid. simpl in Hpid. congruence.
  - intros i en [Hne Hx]%lookup_delete_Some. by apply (Hr i en).
  - intros Ho qe Hq. destruct (Hk Ho qe Hq) as [?|[?|[i Hx]]]; [by left|by right; left|].
    right; right. exists i. rewrite lookup_delete_ne; [done|congruence].
Qed.

Lemma InsertEvent_wpd ev d :
  wpd (InsertEvent ev) (λ r d', match r with
    | Ok (id, true) => id = next_id (events d)
                       ∧ d' = set_events (<[id := received_row ev]> (events d)) d
    | _ => d' = d
    end) d.
Proof.
  unfold InsertEvent. destruct (event_validate ev); [|by wpd_step].
  wpd_step. wpd_step; [done|]. unfold insert_event_row. destruct (negb _); [done|].
  destruct (exists_row _ _); by wpd_step.
Qed.

Lemma Persist_insert_ok pid fs q q' : router_ok q → Persist_insert pid fs q = Some q' → router_ok q'.
Proof.
  intros [Hi [Hl Hr Hk]]. unfold Persist_insert.
  destruct (q_ingest q !! pid) as [[ev| |]|] eqn:Hpid; try done.
  assert (Hw := InsertEvent_wpd ev (q_db q) fs). destruct (InsertEvent ev _) as [r [d' fs']].
  simpl in *.
  assert (Hno : d' = q_db q → router_ok (set_ingest pid (IUnlocking (ev_ThreadKey ev)) (set_db d' q))).
  { intros ->. split; [by eapply index_ok_frame|]. split; simpl.
    - intros i x [[<- <-]|[Hne Hx]]%lookup_insert_Some; [exact (Hl _ _ Hpid)|auto].
    - intros i en [[_ ?]|[_ Hx]]%lookup_insert_Some; [done|]. by apply (Hr i en).
    - intros Ho qe Hq. destruct (Hk Ho qe Hq) as [?|[?|[i Hx]]]; [by left|by right; left|].
      right; right. exists i. rewrite lookup_insert_ne; [done|congruence]. }
  destruct r as [[id [|]]|e]; [|intros [= <-]; by apply Hno..].
  destruct Hw as [-> ->]. intros [= <-]. set (id := next_id _).
  assert (Hnew : ∀ i, known q i → i < id) by (intros i [e He]; by eapply next_id_gt).
  assert (Hkn : ∀ i, known q i → known (set_db (set_events (<[id := received_row ev]>
    (events (q_db q))) (q_db q)) q) i).
  { intros i [e He]. unfold known. simpl. destruct (decide (id = i)) as [<-|?];
      [rewrite lookup_insert_eq|rewrite lookup_insert_ne by done]; eauto. }
  split; [by eapply index_ok_frame|]. split; simpl.
  - intros i x [[<- <-]|[Hne Hx]]%lookup_insert_Some; [exact (Hl _ _ Hpid)|auto].
  - intros i en [[<- [= <-]]|[Hne Hx]]%lookup_insert_Some Hrec; simpl.
    + split; [unfold known; simpl; rewrite lookup_insert_eq; eauto|].
      intros j Hj. apply Hnew. by eapply (ix_known _ Hi).
    + destruct (Hr i en Hx Hrec) as [Hk1 Hlt]. split; [by apply Hkn|done].
  - intros Ho qe [Hq|Hq]%elem_of_app.
    + destruct (Hk Ho qe Hq) as [?|[?|[i Hx]]]; [by left|by right; left|].
      right; right. exists i. rewrite lookup_insert_ne; [done|congruence].
    + apply list_elem_of_singleton in Hq as ->. right; right. exists pid. apply lookup_insert_eq.
Qed.

Lemma ingest_enqueue_ok pid q q' : router_ok q → ingest_enqueue pid q = Some q' → router_ok q'.
Proof.
  intros [Hi [Hl Hr Hk]]. unfold ingest_enqueue.
  destruct (q_ingest q !! pid) as [[|en|]|] eqn:Hpid; try done. intros [= <-].
  assert (Hi' : index_ok (Enqueue en q)) by (apply Enqueue_index; eauto).
  split; [eapply index_ok_frame; [exact Hi'|done..]|]. split; simpl.
  - intros i x. rewrite q_ingest_Enqueue, q_locks_Enqueue.
    intros [[<- <-]|[Hne Hx]]%lookup_insert_Some; [exact (Hl _ _ Hpid)|auto].
  - intros i en' Hx Hrec. rewrite q_ingest_Enqueue in Hx.
    apply lookup_insert_Some in Hx as [[_ ?]|[Hne Hx]]; [done|].
    destruct (Hr i en' Hx Hrec) as [Hkn Hlt]. split; [unfold known; simpl; by rewrite q_db_Enqueue|].
    intros id. change (receipt_ids ?t (set_ingest _ _ ?x)) with (receipt_ids t x).
    destruct (q_over q) eqn:Ho; [unfold Enqueue; rewrite Ho; apply Hlt|].
    rewrite receipt_ids_Enqueue, elem_of_app by done. intros [?|Hid]; [by apply Hlt|].
    destruct (receipt_id _ en) as [id'|] eqn:Hen; simpl in Hid; [|by apply elem_of_nil in Hid].
    apply receipt_id_Some in Hen as (_ & Hth & _). exfalso. apply Hne.
    apply Hl in Hx, Hpid. simpl in *. congruence.
  - rewrite q_over_Enqueue, q_received_Enqueue, q_log_Enqueue, q_ingest_Enqueue. intros Ho qe Hq.
    change (pending_of ?t (set_ingest _ _ ?x)) with (pending_of t x).
    rewrite pending_of_Enqueue by done.
    destruct (Hk Ho qe Hq) as [?|[?|[i Hx]]]; [by left| |].
    + right; left. case_decide; [apply elem_of_app; by left|done].
    + destruct (decide (pid = i)) as [<-|Hne].
      * right; left. rewrite Hpid in Hx. simplify_eq. simpl. rewrite decide_True by done.
        apply elem_of_app. right. by left.
      * right; right. exists i. by rewrite lookup_insert_ne.
Qed.

Lemma StronglySorted_app_l {A} (R : A → A → Prop) l l' :
  StronglySorted R (l ++ l') → StronglySorted R l.
Proof.
  induction l as [|x l IH]; simpl; [constructor|].
  intros [Hs Hall]%StronglySorted_inv. apply Forall_app in Hall as [Hall _].
  constructor; auto.
Qed.

(** The claim's release: nobody else drains the thread, and nothing waits. *)
Lemma drain_exit_ok pid t q :
  router_ok q → q_drains q !! pid = Some (t, Looping) → (q_over q = true ∨ pending_of t q = []) →
  router_ok (MkQueues (q_db q) (q_over q) (delete t (q_pending q)) (q_claimed q ∖ {[t]})
    (delete pid (q_drains q)) (q_locks q) (q_ingest q) (q_log q) (q_received q)).
Proof.
  intros [[Hc H1 Hw Hord Hk Hth] Hg] Hpid Hwhy. set (q' := MkQueues _ _ _ _ _ _ _ _ _).
  assert (Hpo : ∀ t', pending_of t' q' = if decide (t' = t) then [] else pending_of t' q).
  { intros t'. unfold pending_of. simpl. case_decide as Hd; [subst; by rewrite lookup_delete_eq|].
    by rewrite lookup_delete_ne. }
  assert (Hids : ∀ t', ∃ l, receipt_ids t' q = receipt_ids t' q' ++ l).
  { intros t'. unfold receipt_ids. rewrite Hpo, !omap_app. simpl. case_decide; [|exists []; by rewrite app_nil_r].
    subst. exists (omap (receipt_id t) (pending_of t q)). simpl. by rewrite app_nil_r. }
  split; [split; simpl|].
  - intros t'. rewrite elem_of_difference, elem_of_singleton, Hc. split.
    + intros [(i & st & Hi) Hne]. exists i, st. rewrite lookup_delete_ne; [done|congruence].
    + intros (i & st & [Hne Hi]%lookup_delete_Some). split; [eauto|]. intros ->. apply Hne. by eapply H1.
  - intros i j t' st st' [_ Hi]%lookup_delete_Some [_ Hj]%lookup_delete_Some. by eapply H1.
  - intros t'. rewrite Hpo. case_decide; [done|]. intros Hn. apply elem_of_difference.
    split; [auto|]. set_solver.
  - intros t'. destruct (Hids t') as [l Hl]. eapply StronglySorted_app_l. by rewrite <-Hl.
  - intros t' id Hid. destruct (Hids t') as [l Hl]. apply (Hk t'). rewrite Hl. set_solver.
  - intros t' en. rewrite Hpo. case_decide; [by intros ?%elem_of_nil|apply Hth].
  - eapply ingest_ok_frame; eauto.
    + intros t' id Hid. destruct (Hids t') as [l Hl]. rewrite Hl. set_solver.
    + intros t' en Ho [?|Hen]; [by left|right]. rewrite Hpo. case_decide; [|done]. subst.
      destruct Hwhy as [Hov|He]; [simpl in Ho; congruence|by rewrite He in Hen].
Qed.

Lemma drain_loop_ok pid q q' : router_ok q → drain_loop pid q = Some q' → router_ok q'.
Proof.
  intros Hq. unfold drain_loop. destruct (q_drains q !! pid) as [[t []]|] eqn:Hpid; try done.
  destruct (pending_of t q) as [|en rest] eqn:Hp.
  { intros [= <-]. apply drain_exit_ok; auto. }
  destruct (q_over q) eqn:Ho; intros [= <-].
  { rewrite <-Ho. apply drain_exit_ok; auto. }
  rewrite <-Ho. set (q' := MkQueues _ _ _ _ _ _ _ _ _).
  destruct Hq as [[Hc H1 Hw Hord Hk Hth] Hg].
  assert (Hen : qe_ThreadKey (en_event en) = t) by (apply Hth; rewrite Hp; by left).
  assert (Hpo : ∀ t', pending_of t' q' = if decide (t' = t) then rest else pending_of t' q).
  { intros t'. unfold pending_of. simpl. apply pending_of_insert. }
  assert (Hids : ∀ t', receipt_ids t' q' = receipt_ids t' q).
  { intros t'. unfold receipt_ids. rewrite Hpo. simpl. rewrite !omap_app. case_decide as Hd.
    - subst t'. rewrite Hp, <-(assoc_L app). f_equal. simpl. by destruct (receipt_id t en).
    - assert (Hn : receipt_id t' en = None).
      { unfold receipt_id. destruct (String.eqb_spec (qe_ThreadKey (en_event en)) t'); [congruence|].
        by rewrite andb_false_r. }
      simpl. rewrite Hn. by rewrite app_nil_r. }
  assert (Hdr : ∀ i, fst <$> q_drains q' !! i = fst <$> q_drains q !! i)
    by (intros i; simpl; by eapply drains_same_thread).
  assert (Hix : ∀ i t', (∃ st, q_drains q' !! i = Some (t', st)) ↔ ∃ st, q_drains q !! i = Some (t', st)).
  { intros i t'. specialize (Hdr i).
    destruct (q_drains q' !! i) as [[t1 s1]|], (q_drains q !! i) as [[t2 s2]|]; simpl in Hdr;
      simplify_eq; split; intros [st ?]; simplify_eq; eauto. }
  split; [split|].
  - intros t'. unfold q' at 1. simpl. rewrite Hc. split.
    + intros (i & st & Hi). destruct (proj2 (Hix i t')) as [st' ?]; eauto.
    + intros (i & st & Hi). destruct (proj1 (Hix i t')) as [st' ?]; eauto.
  - intros i j t' st st' Hi Hj. destruct (proj1 (Hix i t')) as [? Hi']; [eauto|].
    destruct (proj1 (Hix j t')) as [? Hj']; [eauto|]. by eapply H1.
  - intros t'. rewrite Hpo. case_decide as Hd; [|apply Hw]. intros _. apply Hw. subst. by rewrite Hp.
  - intros t'. rewrite Hids. apply Hord.
  - intros t' id. rewrite Hids. apply Hk.
  - intros t' x. rewrite Hpo. case_decide as Hd; [|apply Hth]. intros Hx. apply Hth. subst.
    rewrite Hp. by right.
  - eapply ingest_ok_frame; eauto.
    + intros t'. by rewrite Hids.
    + intros t' x _ [?|Hx]; [left; simpl; apply elem_of_app; by left|].
      rewrite Hpo. case_decide as Hd; [|by right]. subst. rewrite Hp in Hx.
      apply elem_of_cons in Hx as [->|Hx]; [left; simpl; apply elem_of_app; right; by left|by right].
Qed.

Section router.
(** OnPark only composes notices: what it does to the store are store steps. *)
Context (onPark : option (QueuedEvent → StoreM unit)).
Context (onPark_steps : ∀ surface ev, onPark = Some surface → steps (surface ev)).

Lemma panic_park_steps ev t0 : steps (panic_park onPark ev t0).
Proof.
  unfold panic_park. apply steps_bind; [apply steps_try, ParkEvent_steps|intros [u|x]];
    [|apply steps_ret]. destruct onPark as [surface|] eqn:Hp; [|apply steps_ret].
  apply steps_bind; [by apply steps_try, onPark_steps|intros _; apply steps_ret].
Qed.

Lemma qstep_ok q q' : router_ok q → qstep onPark q q' → router_ok q'.
Proof.
  intros Hq Hs. destruct Hs as [pid ev q' H|pid ev q' H|pid fs q' H|pid q' H|pid q' H|pid q' H
    |pid fs t0 q' H|pid q' H|pid fs t0 q' H| |d' H].
  - eapply lock_ingest_ok; [done| |done]. done.
  - eapply lock_ingest_ok; [done| |done]. by intros en [= <-].
  - by eapply Persist_insert_ok.
  - by eapply ingest_enqueue_ok.
  - by eapply ingest_unlock_ok.
  - by eapply drain_loop_ok.
  - unfold dispatch_stamp in H. destruct (q_drains q !! pid) as [[t [|en|]]|] eqn:Hp; try done.
    destruct (q_over q) eqn:Ho.
    + simplify_eq. eapply router_ok_frame; [done..| | | | | |]; try done.
      intros i. simpl. by eapply drains_same_thread.
    + assert (Hg := steps_world (MarkEventProcessing (qe_ID (en_event en)) t0) (q_db q) fs
        (MarkEventProcessing_steps _ _)).
      destruct (MarkEventProcessing _ _ _) as [[u|x] w]; simplify_eq;
        (eapply router_ok_frame; [done..| | | | | |]; try done);
        try (intros i; simpl; by eapply drains_same_thread); intros id; by apply known_grows.
  - unfold dispatch_return in H. destruct (q_drains q !! pid) as [[t [| |en]]|] eqn:Hp; try done.
    simplify_eq. eapply router_ok_frame; [done..| | | | | |]; try done.
    intros i. simpl. by eapply drains_same_thread.
  - unfold dispatch_panic in H. destruct (q_drains q !! pid) as [[t [| |en]]|] eqn:Hp; try done.
    assert (Hg := steps_world (panic_park onPark (en_event en) t0) (q_db q) fs (panic_park_steps _ _)).
    destruct (panic_park _ _ _ _) as [u w]. simplify_eq.
    eapply router_ok_frame; [done..| | | | | |]; try done.
    + intros i. simpl. by eapply drains_same_thread.
    + intros id. by apply known_grows.
  - eapply router_ok_frame; [done..| | | | | |]; done.
  - eapply router_ok_frame; [done..| | | | | |]; try done.
    intros id. by apply known_grows, astep_grows.
Qed.

(** *** Rebuild *)

Lemma rebuild_park_steps clock rows i : steps (rebuild_park onPark clock i rows).
Proof.
  revert i. induction rows as [|ev rows IH]; intros i; simpl; [apply steps_ret|].
  case_bool_decide; [|done]. apply steps_bind; [apply ParkEvent_steps|intros _].
  apply steps_bind; [|intros _; apply IH].
  destruct onPark as [surface|] eqn:Hp; [|apply steps_ret].
  apply steps_bind; [by apply steps_try, onPark_steps|intros _; apply steps_ret].
Qed.

(** Enqueueing the received rows of a scan, in its order, into an index whose
    receipts are all older. *)
Lemma rebuild_enqueue_ok rows q :
  index_ok q → (∀ ev, ev ∈ rows → known q (qe_ID ev)) →
  StronglySorted (λ a b, qe_ID a < qe_ID b) rows →
  (∀ ev t id, ev ∈ rows → id ∈ receipt_ids t q → id < qe_ID ev) →
  index_ok (rebuild_enqueue rows q).
Proof.
  revert q. induction rows as [|ev rows IH]; intros q Hi Hk Hs Hlt; simpl; [done|].
  apply StronglySorted_inv in Hs as [Hs Hall]. rewrite Forall_forall in Hall.
  case_bool_decide; [|apply IH; try done; intros; [apply Hk|eapply Hlt]; eauto; by right].
  assert (Hi' : index_ok (Enqueue (Entry ev true) q)).
  { apply Enqueue_index; [done|]. intros _. simpl. split; [apply Hk; by left|].
    intros id Hid. eapply Hlt; [by left|done]. }
  apply IH; [done| |done|].
  - intros x Hx. unfold known. rewrite q_db_Enqueue. apply Hk. by right.
  - intros x t id Hx. destruct (q_over q) eqn:Ho.
    { unfold Enqueue. rewrite Ho. eapply Hlt. by right. }
    rewrite receipt_ids_Enqueue, elem_of_app by done. intros [Hid|Hid]; [eapply Hlt; [by right|done]|].
    destruct (receipt_id t _) as [id'|] eqn:Hr; simpl in Hid; [|by apply elem_of_nil in Hid].
    apply list_elem_of_singleton in Hid as ->. apply receipt_id_Some in Hr as (_ & _ & <-).
    by apply Hall.
Qed.

Lemma New_ok d : router_ok (New d).
Proof.
  split; split; simpl; try done; try (intros *; by rewrite ?lookup_empty).
  - intros t. split; [set_solver|]. intros (pid & st & Hp). by rewrite lookup_empty in Hp.
  - constructor.
  - intros t id. by intros ?%elem_of_nil.
  - intros t en. by intros ?%elem_of_nil.
  - intros _ qe. by intros ?%elem_of_nil.
Qed.

Lemma fold_enqueue_fields rows q :
  q_ingest (rebuild_enqueue rows q) = q_ingest q
  ∧ q_received (rebuild_enqueue rows q) = q_received q
  ∧ q_db (rebuild_enqueue rows q) = q_db q ∧ q_log (rebuild_enqueue rows q) = q_log q.
Proof.
  revert q. induction rows as [|ev rows IH]; intros q; simpl; [done|].
  case_bool_decide; [|apply IH]. destruct (IH (Enqueue (Entry ev true) q)) as (-> & -> & -> & ->).
  by rewrite q_ingest_Enqueue, q_received_Enqueue, q_db_Enqueue, q_log_Enqueue.
Qed.

Lemma pending_of_rebuild rows q t :
  q_over q = false →
  pending_of t (rebuild_enqueue rows q) = pending_of t q
    ++ map (λ ev, Entry ev true)
         (List.filter (λ ev, bool_decide (qe_Status ev = Received) && String.eqb (qe_ThreadKey ev) t) rows).
Proof.
  revert q. induction rows as [|ev rows IH]; intros q Ho; simpl; [by rewrite app_nil_r|].
  case_bool_decide; simpl; [|by apply IH].
  rewrite IH by by rewrite q_over_Enqueue. rewrite pending_of_Enqueue by done. simpl.
  destruct (String.eqb_spec (qe_ThreadKey ev) t) as [<-|Hne].
  - rewrite decide_True by done. by rewrite <-(assoc_L app).
  - by rewrite decide_False by congruence.
Qed.

(** The store a booted router starts on, and the states it can reach. *)
Definition booted (d : db) (q : Queues) : Prop :=
  ∃ clock fs, Rebuild onPark clock fs (New d) = (Ok tt, q).

Lemma booted_ok d q : booted d q → router_ok q.
Proof.
  intros (clock & fs & Hb). unfold Rebuild in Hb. simpl in Hb.
  assert (Hst : wpd (rebuild_rows onPark clock) (λ r d', match r with
    | Ok rows => rows = select_events (λ _ e, has_status [Received; Processing] e) d ∧ grows d d'
    | Err _ => True end) d).
  { unfold rebuild_rows, UnprocessedEvents. wpd_step. wpd_step; [done|]. wpd_step.
    eapply wpd_mono; [apply rebuild_park_steps|]. intros [u|x] d' Hd; [|done]. wpd_step.
    split; [done|]. by apply steps_grow. }
  specialize (Hst fs). destruct (rebuild_rows _ _ _) as [[rows|x] [d' fs']]; [|done].
  destruct Hst as [-> Hg]. simplify_eq. simpl in *.
  set (rows := select_events _ d). destruct (fold_enqueue_fields rows (set_db d' (New d))) as (Ei & Er & _ & _).
  split.
  - apply rebuild_enqueue_ok.
    + eapply (index_ok_frame (New d)); [apply New_ok|done..|]. intros id. by apply known_grows.
    + intros ev Hev. apply elem_of_unprocessed in Hev as (e & He & _ & _).
      destruct (gr_events _ _ Hg _ _ He) as (e' & He' & _). exists e'. done.
    + apply select_events_sorted.
    + intros ev t id _. by intros ?%elem_of_nil.
  - split.
    + intros pid p. rewrite Ei. simpl. by rewrite lookup_empty.
    + intros pid en. rewrite Ei. simpl. by rewrite lookup_empty.
    + intros _ qe. rewrite Er. by intros ?%elem_of_nil.
Qed.

Lemma reachable_ok d q0 q : booted d q0 → rtc (qstep onPark) q0 q → router_ok q.
Proof. intros Hb%booted_ok Hs. induction Hs; eauto using qstep_ok. Qed.

(** ** Properties *)

(** C8: the router dispatches each thread serially, in receipt order, and loses
    nothing.  In every interleaving of ingests, readmissions, turns, panics,
    store failures and other store activity after a boot: a thread has at most
    one drain goroutine, hence one turn at a time; the receipts popped for a
    thread, followed by those still waiting, are strictly increasing in receipt
    id, so none is dispatched twice or overtaken; a thread with waiting events
    has a drain to serve it; and until shutdown every durably received event was
    popped, waits, or is about to be enqueued by the goroutine that holds its
    shard. *)
Theorem dispatch_serial_in_order d q0 q :
  booted d q0 → rtc (qstep onPark) q0 q →
  (∀ i j t st st', q_drains q !! i = Some (t, st) → q_drains q !! j = Some (t, st') → i = j)
  ∧ (∀ t, StronglySorted Z.lt (receipt_ids t q))
  ∧ (∀ t, pending_of t q ≠ [] → ∃ pid st, q_drains q !! pid = Some (t, st))
  ∧ (q_over q = false → ∀ qe, qe ∈ q_received q →
       Entry qe true ∈ q_log q ∨ Entry qe true ∈ pending_of (qe_ThreadKey qe) q
       ∨ ∃ pid, q_ingest q !! pid = Some (IReady (Entry qe true))
                ∧ q_locks q !! ingestLock (qe_ThreadKey qe) = Some pid).
Proof.
  intros Hb Hs. destruct (reachable_ok d q0 q Hb Hs) as [[Hc H1 Hw Hord Hk Hth] [Hl Hr Hkept]].
  split_and!; [done|done| |].
  - intros t Hp. apply Hc. auto.
  - intros Ho qe Hq. destruct (Hkept Ho qe Hq) as [?|[?|[pid Hp]]]; [by left|by right; left|].
    right; right. exists pid. split; [done|]. exact (Hl _ _ Hp).
Qed.

(** OnPark writes no event. *)
Context (onPark_events : ∀ surface ev d, onPark = Some surface →
  wpd (surface ev) (λ _ d', events d' = events d) d).

Definition mid_turn (rows : list QueuedEvent) (id : Z) : Prop :=
  ∃ ev, ev ∈ rows ∧ qe_ID ev = id ∧ qe_Status ev = Processing.

Definition parked_or_same (rows : list QueuedEvent) (d d' : db) : Prop :=
  ∀ id e, events d !! id = Some e → ∃ e', events d' !! id = Some e'
    ∧ (mid_turn rows id → er_status e' = Interrupted ∧ er_parks e' = er_parks e + 1)
    ∧ (¬ mid_turn rows id → e' = e).

Lemma mid_turn_cons ev rows id :
  mid_turn (ev :: rows) id ↔ (qe_ID ev = id ∧ qe_Status ev = Processing) ∨ mid_turn rows id.
Proof.
  unfold mid_turn. setoid_rewrite elem_of_cons. split.
  - intros (x & [->|Hx] & H1 & H2); [by left|right; eauto].
  - intros [[H1 H2]|(x & Hx & H1 & H2)]; eauto.
Qed.

Lemma ParkEvent_parks id t0 d e (Q : result err unit → db → Prop) :
  events d !! id = Some e → er_status e = Processing → (∀ x, Q (Err x) d) →
  Q (Ok tt) (set_events (<[id := event_upd Interrupted (er_attempts e) (er_parks e + 1) (Some t0) e]>
                           (events d)) d) →
  wpd (ParkEvent id t0) Q d.
Proof.
  intros He Hst Hx Hok. unfold ParkEvent. wpd_step. wpd_step; [done|]. upd_cases; wpd_step.
  - specialize (H e He). exfalso. apply not_true_iff_false in H. apply H, has_status_true.
    rewrite Hst. by right; left.
  - by simplify_eq.
Qed.

Lemma rebuild_park_parks clock rows i d :
  NoDup (map qe_ID rows) →
  (∀ ev, ev ∈ rows → qe_Status ev = Processing →
     ∃ e, events d !! qe_ID ev = Some e ∧ er_status e = Processing) →
  wpd (rebuild_park onPark clock i rows)
    (λ r d', match r with Ok _ => parked_or_same rows d d' | Err _ => True end) d.
Proof.
  revert i d. induction rows as [|ev rows IH]; intros i d Hnd Hst; simpl.
  { wpd_step. intros id e He. exists e. split; [done|]. split; [|done].
    by intros (x & ?%elem_of_nil & _). }
  simpl in Hnd. apply NoDup_cons in Hnd as [Hev Hnd].
  assert (Hnot : ¬ mid_turn rows (qe_ID ev)).
  { intros (x & Hx & Hid & _). apply Hev. rewrite <-Hid. apply list_elem_of_In, in_map, list_elem_of_In, Hx. }
  case_bool_decide as Hp.
  2: { eapply wpd_mono; [apply IH; [done|]|]. { intros x Hx. apply Hst. by right. }
       intros [u|x] d' Hd; [|done]. intros id e He. destruct (Hd _ _ He) as (e' & He' & H1 & H2).
       exists e'. rewrite mid_turn_cons. split; [done|]. split; [intros [[_ ?]|?]; [done|auto]|auto]. }
  destruct (Hst ev ltac:(by left) Hp) as (e0 & He0 & Hs0).
  wpd_step. eapply ParkEvent_parks; [done|done|done|]. set (d1 := set_events _ d).
  assert (Hrest : ∀ d2, events d2 = events d1 →
    wpd (rebuild_park onPark clock (S i) rows)
      (λ r d', match r with Ok _ => parked_or_same (ev :: rows) d d' | Err _ => True end) d2).
  { intros d2 Hd2. eapply wpd_mono; [apply IH; [done|]|].
    - intros x Hx Hxp. rewrite Hd2. unfold d1. simpl.
      destruct (decide (qe_ID ev = qe_ID x)) as [Heq|Hne].
      + destruct Hnot. by exists x.
      + rewrite lookup_insert_ne by done. apply Hst; [by right|done].
    - intros [u|x] d' Hd; [|done]. intros id e He.
      destruct (decide (qe_ID ev = id)) as [<-|Hne].
      + assert (He1 : events d2 !! qe_ID ev = Some (event_upd Interrupted (er_attempts e0)
          (er_parks e0 + 1) (Some (clock i)) e0)) by (rewrite Hd2; apply lookup_insert_eq).
        destruct (Hd _ _ He1) as (e' & He' & _ & Hsame). exists e'. split; [done|].
        rewrite (Hsame Hnot). simplify_eq. split; [done|].
        intros Hn. destruct Hn. apply mid_turn_cons. by left.
      + assert (He1 : events d2 !! id = Some e) by (rewrite Hd2; unfold d1; simpl; by rewrite lookup_insert_ne).
        destruct (Hd _ _ He1) as (e' & He' & H1 & H2). exists e'. split; [done|].
        rewrite mid_turn_cons. split; [intros [[? _]|?]; [done|auto]|auto]. }
  wpd_step. destruct onPark as [surface|] eqn:Hon; [|wpd_step; by apply Hrest].
  wpd_step. wpd_step. eapply wpd_mono; [by apply onPark_events|].
  intros r d2 Hd2. simpl. wpd_step. by apply Hrest.
Qed.

Lemma Rebuild_spec clock fs d :
  let '(r, q) := Rebuild onPark clock fs (New d) in
  match r with
  | Err _ => q_drains q = ∅ ∧ q_pending q = ∅
  | Ok _ =>
      let rows := select_events (λ _ e, has_status [Received; Processing] e) d in
      (∀ id e, events d !! id = Some e → ∃ e', events (q_db q) !! id = Some e'
         ∧ (er_status e = Processing → er_status e' = Interrupted ∧ er_parks e' = er_parks e + 1)
         ∧ (er_status e ≠ Processing → e' = e))
      ∧ ∀ t, pending_of t q = map (λ ev, Entry ev true)
               (List.filter (λ ev, bool_decide (qe_Status ev = Received)
                                   && String.eqb (qe_ThreadKey ev) t) rows)
  end.
Proof.
  unfold Rebuild. simpl. set (rows := select_events _ d).
  assert (Hst : wpd (rebuild_rows onPark clock) (λ r d', match r with
    | Ok rows' => rows' = rows ∧ parked_or_same rows d d' | Err _ => True end) d).
  { unfold rebuild_rows, UnprocessedEvents. wpd_step. wpd_step; [done|]. wpd_step.
    eapply wpd_mono; [apply rebuild_park_parks|].
    - assert (Hs := select_events_sorted (λ _ e, has_status [Received; Processing] e) d).
      fold rows in Hs |- *. clear -Hs. induction Hs as [|x l Hs IH Hall]; simpl; constructor; [|done].
      intros Hin%list_elem_of_In. apply in_map_iff in Hin as (y & Hy & Hin%list_elem_of_In).
      rewrite Forall_forall in Hall. specialize (Hall _ Hin). simpl in Hall. lia.
    - intros ev Hev Hp. apply elem_of_unprocessed in Hev as (e & He & Hq & _).
      exists e. split; [done|]. rewrite Hq in Hp. done.
    - intros [u|x] d' Hd; [|done]. by wpd_step. }
  specialize (Hst fs). destruct (rebuild_rows _ _ _) as [[rows'|x] [d' fs']]; [|done].
  destruct Hst as [-> Hd]. simpl in *. split.
  - intros id e He. destruct (fold_enqueue_fields rows (set_db d' (New d))) as (_ & _ & -> & _). simpl.
    destruct (Hd _ _ He) as (e' & He' & H1 & H2). exists e'. split; [done|]. split.
    + intros Hp. apply H1. exists (scanQueuedEvent id e). split_and!; [|done|done].
      apply elem_of_unprocessed. exists e. eauto.
    + intros Hn. apply H2. intros (ev & Hev & Hid & Hp).
      apply elem_of_unprocessed in Hev as (e1 & He1 & Hq & _). rewrite Hq in Hp. simpl in Hp.
      congruence.
  - intros t. by rewrite pending_of_rebuild.
Qed.

(** C10: a restart recovers the queue from the table alone.  A boot that cannot
    read the queue or write a park starts no turn.  Otherwise every event whose
    turn was running when the daemon died is parked as interrupted with a new
    park generation, never rerun; no other event changed; and each thread's
    queue holds exactly its received events, in receipt order. *)
Theorem Rebuild_recovers clock fs d :
  let '(r, q) := Rebuild onPark clock fs (New d) in
  match r with
  | Err _ => q_drains q = ∅ ∧ q_pending q = ∅
  | Ok _ =>
      let rows := select_events (λ _ e, has_status [Received; Processing] e) d in
      (∀ id e, events d !! id = Some e → ∃ e', events (q_db q) !! id = Some e'
         ∧ (er_status e = Processing → er_status e' = Interrupted ∧ er_parks e' = er_parks e + 1)
         ∧ (er_status e ≠ Processing → e' = e))
      ∧ ∀ t, pending_of t q = map (λ ev, Entry ev true)
               (List.filter (λ ev, bool_decide (qe_Status ev = Received)
                                   && String.eqb (qe_ThreadKey ev) t) rows)
  end.
Proof. apply Rebuild_spec. Qed.
End router.

(** The daemon's OnPark is the park notice. *)
Definition daemon_onPark : option (QueuedEvent → StoreM unit) :=
  Some (SurfaceInterruptedCoordinated true).

Lemma daemon_onPark_steps surface ev : daemon_onPark = Some surface → steps (surface ev).
Proof. intros [= <-]. apply SurfaceInterrupted_steps. Qed.

Lemma daemon_onPark_events surface ev d :
  daemon_onPark = Some surface → wpd (surface ev) (λ _ d', events d' = events d) d.
Proof.
  intros [= <-]. unfold SurfaceInterruptedCoordinated, AcquireTarget. simpl. wpd_step.
  wpd_step; [by wpd_step|]. wpd_step; [done|].
  wpd_step; [done|]. unfold insert_notice, insert_delivery_sql.
  destruct (select_interrupted ev d) as [[k p]|]; [|done]. by destruct (exists_row _ _).
Qed.

Definition crash_db : db :=
  set_events {[1 := event_status_upd Processing 5 (received_row sample_event);
               2 := received_row (MkStoreEvent "discord:m2" "discord:dm:7" "message" "owner"
                                    "" 101 "")]} empty_db.

Lemma Rebuild_recovers_witness :
  ∃ q, Rebuild daemon_onPark (λ _, 9) [] (New crash_db) = (Ok tt, q)
  ∧ er_status <$> events (q_db q) !! 1 = Some Interrupted
  ∧ map (λ en, qe_ID (en_event en)) (pending_of "discord:dm:7" q) = [2].
Proof.
  assert (H := Rebuild_recovers daemon_onPark daemon_onPark_steps daemon_onPark_events (λ _, 9) [] crash_db).
  destruct (Rebuild _ _ _ _) as [r q] eqn:Hr. exists q.
  assert (r = Ok tt) as -> by (vm_compute in Hr; congruence). split; [reflexivity|].
  destruct H as [H1 H2]. split; [|rewrite H2; vm_compute; reflexivity].
  destruct (H1 1 _ eq_refl) as (e' & -> & H3 & _). simpl. f_equal. apply H3. reflexivity.
Defined.

(** One thread, a backlog of one and a receipt while its drain is running. *)
Lemma dispatch_serial_in_order_witness :
  ∃ q, rtc (qstep daemon_onPark) (Rebuild daemon_onPark (λ _, 9) [] (New crash_db)).2 q
  ∧ receipt_ids "discord:dm:7" q = [2; 3]
  ∧ StronglySorted Z.lt (receipt_ids "discord:dm:7" q).
Proof.
  set (q0 := (Rebuild daemon_onPark (λ _, 9) [] (New crash_db)).2).
  set (ev := MkStoreEvent "discord:m3" "discord:dm:7" "message" "owner"
    (marshal (JObj [("dedup_key", JStr "discord:m3"); ("thread_key", JStr "discord:dm:7");
                    ("kind", JStr "message"); ("trust", JStr "owner")])%string) 102 "").
  assert (Hb : booted daemon_onPark crash_db q0) by (exists (λ _, 9), []; vm_compute; reflexivity).
  assert (Hrun : ∃ q, rtc (qstep daemon_onPark) q0 q ∧ receipt_ids "discord:dm:7" q = [2; 3]).
  { eexists. split.
    - eapply rtc_l; [apply (qs_drain _ _ 0); vm_compute; reflexivity|].
      eapply rtc_l; [apply (qs_persist _ _ 7 ev); vm_compute; reflexivity|].
      eapply rtc_l; [apply (qs_insert _ _ 7 []); vm_compute; reflexivity|].
      eapply rtc_l; [apply (qs_enqueue _ _ 7); vm_compute; reflexivity|]. apply rtc_refl.
    - vm_compute. reflexivity. }
  destruct Hrun as (q & Hq & Hids). exists q. split; [exact Hq|]. split; [exact Hids|].
  exact (proj1 (proj2 (dispatch_serial_in_order daemon_onPark daemon_onPark_steps crash_db q0 q Hb Hq))
    "discord:dm:7"%string).
Defined.
