(* ===== verification/RouterStop.v ===== *)
(** * Shutting the router down (src/internal/router/router.go, Wait)

    Wait blocks on the wait group, which counts the drain goroutines.  The
    daemon cancels the context first, so here every run starts past [cancel]:
    the drains wind down while ingest goroutines, admin readmissions and the
    rest of the daemon still step. *)
From S2P Require Import Prelude Schema Events StoreSpec StoreInv StoreOps Router.
Local Open Scope Z_scope.

(** ** The wind-down *)

Definition busy (x : string * drain_state) : bool := match x.2 with Looping => false | _ => true end.

(** What the wait group still waits for, in steps: one for each goroutine's
    exit, one more for each event in hand. *)
Definition remaining (q : Queues) : nat :=
  size (q_drains q) + size (filter (λ kv, busy kv.2 = true) (q_drains q)).

Section stop.
Context (onPark : option (QueuedEvent → StoreM unit)).

Inductive drain_step (q : Queues) : Queues → Prop :=
| ds_loop pid q' : drain_loop pid q = Some q' → drain_step q q'
| ds_stamp pid fs t0 q' : dispatch_stamp pid fs t0 q = Some q' → drain_step q q'
| ds_return pid q' : dispatch_return pid q = Some q' → drain_step q q'
| ds_panic pid fs t0 q' : dispatch_panic onPark pid fs t0 q = Some q' → drain_step q q'.

(** A run with [n] steps of drains. *)
Inductive winding : nat → Queues → Queues → Prop :=
| wd_refl q : winding 0 q q
| wd_drain n q q1 q' : drain_step q q1 → winding n q1 q' → winding (S n) q q'
| wd_other n q q1 q' : qstep onPark q q1 → q_drains q1 = q_drains q → winding n q1 q' → winding n q q'.

(** ** Lemmas *)

Lemma remaining_over pid (x : string * drain_state) (m : gmap nat (string * drain_state)) t st :
  m !! pid = Some x → busy x = true → busy (t, st) = false →
  (size (<[pid := (t, st)]> m) + S (size (filter (λ kv, busy kv.2 = true) (<[pid := (t, st)]> m)))
   = size m + size (filter (λ kv, busy kv.2 = true) m))%nat.
Proof.
  intros Hp Hx Hy. rewrite map_size_insert_Some by eauto. rewrite map_filter_insert_False by (simpl; congruence).
  rewrite map_filter_delete. rewrite map_size_delete_Some; [|exists x; by apply map_lookup_filter_Some].
  assert (size (filter (λ kv : nat * (string * drain_state), busy kv.2 = true) m) ≠ 0%nat); [|lia].
  rewrite map_size_ne_0_lookup. exists pid, x. by apply map_lookup_filter_Some.
Qed.

Lemma remaining_exit pid t (m : gmap nat (string * drain_state)) :
  m !! pid = Some (t, Looping) →
  (S (size (delete pid m)) + size (filter (λ kv, busy kv.2 = true) (delete pid m))
   = size m + size (filter (λ kv, busy kv.2 = true) m))%nat.
Proof.
  intros Hp. rewrite map_size_delete_Some by eauto. rewrite map_filter_delete, delete_id.
  - assert (size m ≠ 0%nat); [|lia]. rewrite map_size_ne_0_lookup. eauto.
  - apply map_lookup_filter_None. right. intros x Hx. rewrite Hp in Hx. by injection Hx as <-.
Qed.

(** A step past the cancel: the index only loses, and no handler starts. *)
Definition winds (q q' : Queues) (n : nat) : Prop :=
  q_over q' = true ∧ (n + remaining q' ≤ remaining q)%nat ∧ q_log q' = q_log q
  ∧ ∀ pid t en, q_drains q' !! pid = Some (t, Running en) → q_drains q !! pid = Some (t, Running en).

Lemma winds_refl q : q_over q = true → winds q q 0.
Proof. intros Ho. unfold winds. split_and!; auto. Qed.

Lemma winds_trans n m q1 q2 q3 : winds q1 q2 n → winds q2 q3 m → winds q1 q3 (n + m).
Proof. intros (_ & ? & ? & ?) (? & ? & ? & ?). split_and!; [done|lia|congruence|auto]. Qed.

Lemma winds_same q q' : q_over q' = true → q_drains q' = q_drains q → q_log q' = q_log q → winds q q' 0.
Proof. intros Ho Hd Hl. unfold winds, remaining. rewrite Hd. split_and!; auto. Qed.

Lemma winds_loop pid x t q q' :
  q_over q' = true → q_log q' = q_log q → q_drains q !! pid = Some x → busy x = true →
  q_drains q' = <[pid := (t, Looping)]> (q_drains q) → winds q q' 1.
Proof.
  intros Ho Hl Hp Hb Hd. split; [done|]. split; [|split; [done|]].
  - unfold remaining. rewrite Hd. assert (H := remaining_over pid x (q_drains q) t Looping Hp Hb eq_refl). lia.
  - intros i t' en. rewrite Hd. intros [[_ [=]]|[_ ?]]%lookup_insert_Some. done.
Qed.

Lemma drain_step_winds q q' : q_over q = true → drain_step q q' → winds q q' 1.
Proof.
  intros Ho [pid q1 H|pid fs t0 q1 H|pid q1 H|pid fs t0 q1 H].
  - unfold drain_loop in H. destruct (q_drains q !! pid) as [[t [| |]]|] eqn:Hp; try done.
    rewrite Ho in H. assert (Hx := remaining_exit pid t (q_drains q) Hp).
    destruct (pending_of t q); injection H as <-; (split; [done|]; split; [unfold remaining; simpl; lia|]);
      (split; [done|]); intros i t' en; simpl; by intros [_ ?]%lookup_delete_Some.
  - unfold dispatch_stamp in H. destruct (q_drains q !! pid) as [[t [|en|]]|] eqn:Hp; try done.
    rewrite Ho in H. injection H as <-. by eapply winds_loop.
  - unfold dispatch_return in H. destruct (q_drains q !! pid) as [[t [| |en]]|] eqn:Hp; try done.
    injection H as <-. by eapply winds_loop.
  - unfold dispatch_panic in H. destruct (q_drains q !! pid) as [[t [| |en]]|] eqn:Hp; try done.
    destruct (panic_park _ _ _ _) as [u w]. injection H as <-. by eapply winds_loop.
Qed.

(** Nothing else writes the log, and nothing undoes a cancel. *)
Lemma qstep_over q q' : q_over q = true → qstep onPark q q' → q_over q' = true ∧ q_log q' = q_log q.
Proof.
  intros Ho [pid ev q1 H|pid ev q1 H|pid fs q1 H|pid q1 H|pid q1 H|pid q1 H|pid fs t0 q1 H|pid q1 H|pid fs t0 q1 H| |d' H].
  - unfold Persist_lock, lock_ingest in H. by repeat (case_match; simplify_eq/=).
  - unfold Readmit_lock, lock_ingest in H. by repeat (case_match; simplify_eq/=).
  - unfold Persist_insert in H. by repeat (case_match; simplify_eq/=).
  - unfold ingest_enqueue in H. repeat (case_match; simplify_eq/=). by rewrite q_over_Enqueue, q_log_Enqueue.
  - unfold ingest_unlock in H. by repeat (case_match; simplify_eq/=).
  - edestruct drain_step_winds as (? & _ & ? & _); [exact Ho|by eapply ds_loop|done].
  - edestruct drain_step_winds as (? & _ & ? & _); [exact Ho|by eapply ds_stamp|done].
  - edestruct drain_step_winds as (? & _ & ? & _); [exact Ho|by eapply ds_return|done].
  - edestruct drain_step_winds as (? & _ & ? & _); [exact Ho|by eapply ds_panic|done].
  - done.
  - done.
Qed.

Lemma drain_step_qstep q q' : drain_step q q' → qstep onPark q q'.
Proof. intros [pid q1 H|pid fs t0 q1 H|pid q1 H|pid fs t0 q1 H]; econstructor; exact H. Qed.

Lemma winding_winds n q q' : q_over q = true → winding n q q' → winds q q' n ∧ rtc (qstep onPark) q q'.
Proof.
  intros Ho H. induction H as [q|n q q1 q' H1 _ IH|n q q1 q' H1 Hd _ IH]; [by split; [apply winds_refl|]| |].
  - assert (Hw := drain_step_winds q q1 Ho H1). destruct (IH (proj1 Hw)) as [Hw' Hr].
    split; [exact (winds_trans 1 n _ _ _ Hw Hw')|]. eapply rtc_l; [by apply drain_step_qstep|done].
  - destruct (qstep_over q q1 Ho H1) as [Ho1 Hl]. destruct (IH Ho1) as [Hw' Hr].
    split; [exact (winds_trans 0 n _ _ _ (winds_same q q1 Ho1 Hd Hl) Hw')|]. by eapply rtc_l.
Qed.

(** A drain goroutine can always move: its handler may return, its store call
    may fail, but nothing blocks it. *)
Lemma drain_moves q pid x : q_drains q !! pid = Some x → ∃ q', drain_step q q'.
Proof.
  intros Hp. destruct x as [t [|en|en]].
  - destruct (drain_loop pid q) as [q'|] eqn:H; [by exists q'; eapply ds_loop|].
    unfold drain_loop in H. rewrite Hp in H. by repeat (case_match; simplify_eq/=).
  - destruct (dispatch_stamp pid [] 0 q) as [q'|] eqn:H; [by exists q'; eapply ds_stamp|].
    unfold dispatch_stamp in H. rewrite Hp in H. by repeat (case_match; simplify_eq/=).
  - exists (set_drain pid (t, Looping) q). apply (ds_return _ pid). unfold dispatch_return. by rewrite Hp.
Qed.

(** ** Property *)

Context (onPark_steps : ∀ surface ev, onPark = Some surface → steps (surface ev)).

(** C9: Wait returns, and shutdown starts nothing.  Once the context is
    canceled, whatever still arrives and in whatever order the goroutines run:
    at most one step per drain goroutine and one per event in hand remain, so
    no schedule keeps the wait group busy; while it is, some drain can move; no
    further event is popped and no further handler starts, the ones that run
    being those that ran at the cancel; and when the last drain is gone the
    index is empty and no thread is claimed. *)
Theorem Wait_returns d q0 q n q' :
  booted onPark d q0 → rtc (qstep onPark) q0 q → q_over q = true → winding n q q' →
  (n + remaining q' ≤ remaining q ∧ remaining q ≤ 2 * size (q_drains q))%nat
  ∧ (q_drains q' ≠ ∅ → ∃ q'', drain_step q' q'')
  ∧ q_log q' = q_log q
  ∧ (∀ pid t en, q_drains q' !! pid = Some (t, Running en) → q_drains q !! pid = Some (t, Running en))
  ∧ (q_drains q' = ∅ → q_claimed q' = ∅ ∧ ∀ t, pending_of t q' = []).
Proof.
  intros Hb Hq Ho Hw. apply winding_winds in Hw as [(_ & Hn & Hl & Hr) Hs]; [|done]. split_and!; [done| | |done|done|].
  - unfold remaining. assert (H := map_size_filter (λ kv, busy kv.2 = true) (q_drains q)). lia.
  - intros Hne. apply map_choose in Hne as (pid & x & Hx). by eapply drain_moves.
  - intros Hd. destruct (reachable_ok onPark onPark_steps d q0 q' Hb) as [Hi _]; [by etrans|].
    assert (Hc : q_claimed q' = ∅).
    { apply set_eq. intros t. split; [|set_solver]. intros (pid & st & Hp)%(ix_claim _ Hi). by rewrite Hd, lookup_empty in Hp. }
    split; [done|]. intros t. destruct (pending_of t q') eqn:Hp; [done|].
    assert (t ∈ q_claimed q') by (apply (ix_wake _ Hi); congruence). set_solver.
Qed.
End stop.

(** A turn runs when the daemon is told to stop: its handler returns, the drain
    exits, and nobody touched the event's row. *)
Lemma Wait_returns_witness :
  ∃ q q', q_over q = true ∧ size (q_drains q) = 1%nat ∧ winding daemon_onPark 2 q q' ∧ q_drains q' = ∅
    ∧ q_claimed q' = ∅ ∧ er_status <$> events (q_db q') !! 2 = Some Processing.
Proof.
  set (q0 := (Rebuild daemon_onPark (λ _, 9) [] (New crash_db)).2).
  assert (Hb : booted daemon_onPark crash_db q0) by (exists (λ _, 9), []; vm_compute; reflexivity).
  assert (Hrun : ∃ q, rtc (qstep daemon_onPark) q0 q ∧ q_over q = true ∧ size (q_drains q) = 1%nat
    ∧ ∃ q', winding daemon_onPark 2 q q' ∧ q_drains q' = ∅ ∧ er_status <$> events (q_db q') !! 2 = Some Processing).
  { eexists. split.
    - eapply rtc_l; [apply (qs_drain _ _ 0); vm_compute; reflexivity|].
      eapply rtc_l; [apply (qs_stamp _ _ 0 [] 10); vm_compute; reflexivity|].
      eapply rtc_l; [apply qs_cancel|]. apply rtc_refl.
    - split; [done|]. split; [vm_compute; reflexivity|]. eexists. split.
      + eapply wd_drain; [apply (ds_return _ _ 0); vm_compute; reflexivity|].
        eapply wd_drain; [apply (ds_loop _ _ 0); vm_compute; reflexivity|]. apply wd_refl.
      + split; vm_compute; reflexivity. }
  destruct Hrun as (q & Hq & Ho & Hsz & q' & Hw & Hd & Hst). exists q, q'.
  destruct (Wait_returns daemon_onPark daemon_onPark_steps crash_db q0 q 2 q' Hb Hq Ho Hw) as (_ & _ & _ & _ & Hend).
  split_and!; [exact Ho|exact Hsz|exact Hw|exact Hd|exact (proj1 (Hend Hd))|exact Hst].
Defined.
