(* ===== verification/Restart.v ===== *)
(** * A restart, end to end (src/internal/cli/daemon.go over router.Rebuild and delivery.Pump)

    What the store was left with at any death of the daemon, the next boot and
    the pump's first pass settle: the parts' theorems composed over one
    database. *)
From S2P Require Import Prelude Schema Events Deliveries DeadLetters Surface StoreSpec.
From S2P Require Import StoreInv StoreOps Env Resend Sweep Router.
Local Open Scope Z_scope.

(** ** What composing notices may do *)

(** Where a notice can go. *)
Definition notice_target (d : db) (t : string) : Prop :=
  (∃ i e, events d !! i = Some e ∧ er_thread_key e = t) ∨ ∃ o, t = ("discord:dm:" +:+ o)%string.

(** The threads are the same, and the outbox gained notices only. *)
Record noticed (d d' : db) : Prop := Noticed {
  nt_threads : ∀ i, er_thread_key <$> events d' !! i = er_thread_key <$> events d !! i;
  nt_dead : dead_letters d' = dead_letters d;
  nt_idents : identities d' = identities d;
  nt_kept : ∀ i r, deliveries d !! i = Some r → deliveries d' !! i = Some r;
  nt_new : ∀ i r, deliveries d' !! i = Some r →
    deliveries d !! i = Some r ∨ (dr_event_id r = None ∧ notice_target d (dr_target r));
}.

Lemma notice_target_threads d d' t :
  (∀ i, er_thread_key <$> events d' !! i = er_thread_key <$> events d !! i) →
  notice_target d' t → notice_target d t.
Proof.
  intros Hth [(i & e & He & Ht)|Ho]; [|by right]. left. specialize (Hth i). rewrite He in Hth. simpl in Hth.
  destruct (events d !! i) as [e0|] eqn:He0; simplify_eq/=. exists i, e0. by split; [|congruence].
Qed.

#[global] Instance noticed_refl : Reflexive noticed.
Proof. intros d. split; auto. Qed.
#[global] Instance noticed_trans : Transitive noticed.
Proof.
  intros x y z [T1 D1 I1 K1 N1] [T2 D2 I2 K2 N2]. split; [by intros i; rewrite T2|congruence|congruence|auto|].
  intros i r Hr. destruct (N2 i r Hr) as [Hy|[Hb Ht]]; [auto|]. right. split; [done|].
    by eapply notice_target_threads.
Qed.

(** Changes of the events table that keep the threads. *)
Lemma noticed_events d m :
  (∀ i, er_thread_key <$> m !! i = er_thread_key <$> events d !! i) → noticed d (set_events m d).
Proof. intros Hm. split; simpl; auto. Qed.

Lemma insert_notice_noticed sel target d a d' :
  notice_target d target → insert_notice sel target d = Ok (a, d') → noticed d d' ∧ events d' = events d.
Proof.
  intros Ht H. destruct (sel d) as [[key payload]|] eqn:Hs.
  2: { unfold insert_notice in H. rewrite Hs in H. by simplify_eq. }
  destruct (insert_notice_composed sel target d key payload Hs) as (d1 & Hi & _ & Hold & Hnew).
  rewrite Hi in H. injection H as _ <-.
  destruct (exists_row (has_delivery_key key) (deliveries d)); [by rewrite Hold|]. rewrite Hnew by done.
  split; [|done]. split; simpl; auto.
  - intros i r Hr. rewrite lookup_insert_ne; [done|]. intros <-. by rewrite next_id_fresh in Hr.
  - intros i r [[<- <-]|[_ Hr]]%lookup_insert_Some; [by right|by left].
Qed.

Lemma insert_notice_keeps sel target d :
  notice_target d target → wpd (stmt (insert_notice sel target)) (λ _ d', noticed d d' ∧ events d' = events d) d.
Proof.
  intros Ht. wpd_step; [done|]. destruct (insert_notice sel target d) as [[a d']|e] eqn:H; [|done].
  by eapply insert_notice_noticed.
Qed.

Lemma AcquireTarget_keeps gated target d : wpd (AcquireTarget gated target) (λ _ d', d' = d) d.
Proof. unfold AcquireTarget. repeat (wpd_step; try done). Qed.

Lemma SurfaceInterrupted_keeps gated ev d :
  notice_target d (qe_ThreadKey ev) →
  wpd (SurfaceInterruptedCoordinated gated ev) (λ _ d', noticed d d' ∧ events d' = events d) d.
Proof.
  intros Ht. unfold SurfaceInterruptedCoordinated. wpd_step. eapply wpd_mono; [apply AcquireTarget_keeps|].
  intros [u|x] d' ->; [by apply insert_notice_keeps|done].
Qed.

Lemma SurfaceDeadLetter_keeps gated ev d :
  wpd (SurfaceDeadLetterCoordinated gated ev) (λ _ d', noticed d d' ∧ events d' = events d) d.
Proof.
  unfold SurfaceDeadLetterCoordinated. wpd_step. wpd_step; [done|]. wpd_step; [|by wpd_step].
  wpd_step. eapply wpd_mono; [apply AcquireTarget_keeps|].
  intros [u|x] d' ->; [|done]. apply insert_notice_keeps. right. by eexists.
Qed.

Lemma surface_all_keeps surface evs d :
  (∀ ev d', ev ∈ evs → noticed d d' → wpd (surface ev) (λ _ d'', noticed d' d'' ∧ events d'' = events d') d') →
  wpd (surface_all surface evs) (λ _ d', noticed d d' ∧ events d' = events d) d.
Proof.
  revert d. induction evs as [|ev evs IH]; intros d H; simpl; [by wpd_step|].
  wpd_step. wpd_step. eapply wpd_mono; [apply H; [by left|done]|]. intros r d1 [H1 E1]. simpl.
  eapply wpd_mono; [apply IH|].
  - intros ev' d' Hin Hd. apply H; [by right|]. by etrans.
  - intros r' d2 [H2 E2]. split; [by etrans|congruence].
Qed.

Lemma sweep_keeps gated d :
  wpd (sweepUnsurfacedParks gated) (λ _ d', noticed d d' ∧ events d' = events d) d.
Proof.
  unfold sweepUnsurfacedParks, UnsurfacedInterruptedEvents. wpd_step. wpd_step. wpd_step; [by wpd_step|].
  wpd_step. eapply wpd_mono; [apply surface_all_keeps|].
  - intros ev d' Hin Hd. apply SurfaceInterrupted_keeps.
    apply elem_of_select_events in Hin as (e & He & _ & ->). left.
    assert (H := nt_threads _ _ Hd (qe_ID ev)). rewrite He in H. simpl in *.
    destruct (events d' !! qe_ID ev) as [e'|] eqn:He'; simplify_eq/=. by eexists _, e'.
  - intros [[]|x] d1 [H1 E1]; [|done]. unfold UnsurfacedDeadLetters. wpd_step. wpd_step. wpd_step; [by wpd_step|].
    eapply wpd_mono; [apply surface_all_keeps; intros; apply SurfaceDeadLetter_keeps|].
    intros r' d2 [H2 E2]. split; [by etrans|congruence].
Qed.

(** ** The boot *)

Lemma ParkEvent_keeps id t d : wpd (ParkEvent id t) (λ _ d', noticed d d') d.
Proof.
  unfold ParkEvent. wpd_step. wpd_step; [done|]. upd_cases; wpd_step; [done|].
  apply noticed_events. intros i. destruct (decide (id = i)) as [<-|]; [|by rewrite lookup_insert_ne].
  rewrite lookup_insert_eq. by rewrite H.
Qed.

(** A queued row names the thread its event has. *)
Definition from_table (d : db) (ev : QueuedEvent) : Prop :=
  ∃ e, events d !! qe_ID ev = Some e ∧ er_thread_key e = qe_ThreadKey ev.

Lemma rebuild_park_keeps clock i rows d :
  (∀ ev, ev ∈ rows → from_table d ev) → wpd (rebuild_park daemon_onPark clock i rows) (λ _ d', noticed d d') d.
Proof.
  revert i d. induction rows as [|ev rows IH]; intros i d Hrows; simpl; [by wpd_step|].
  assert (Hrest : ∀ j d1, noticed d d1 → wpd (rebuild_park daemon_onPark clock j rows) (λ _ d', noticed d d') d1).
  { intros j d1 H1. eapply wpd_mono; [apply IH|intros r d2 H2; by etrans].
    intros x Hx. destruct (Hrows x) as (e & He & Ht); [by right|]. assert (H := nt_threads _ _ H1 (qe_ID x)).
    rewrite He in H. destruct (events d1 !! qe_ID x) as [e1|] eqn:He1; simplify_eq/=. exists e1. by split; [|congruence]. }
  case_bool_decide; [|by apply Hrest]. wpd_step. eapply wpd_mono; [apply ParkEvent_keeps|].
  intros [u|x] d1 H1; [|done]. wpd_step. wpd_step. wpd_step.
  eapply wpd_mono; [apply SurfaceInterrupted_keeps|].
  - destruct (Hrows ev) as (e & He & Ht); [by left|]. left. assert (Hk := nt_threads _ _ H1 (qe_ID ev)).
    rewrite He in Hk. destruct (events d1 !! qe_ID ev) as [e1|] eqn:He1; simplify_eq/=. exists (qe_ID ev), e1. by split; [|congruence].
  - intros r d2 [H2 _]. simpl. wpd_step. apply Hrest. by etrans.
Qed.

Lemma run_rebuild_park clock i rows d : ∃ d', run (rebuild_park daemon_onPark clock i rows) d = (Ok tt, d').
Proof.
  revert i d. induction rows as [|ev rows IH]; intros i d; simpl; [by eexists|].
  case_bool_decide; [|done]. unfold ParkEvent. rewrite run_bind by auto with calm.
  rewrite run_bind by auto with calm. rewrite run_exec. destruct (upd_event _ _ _ _) as [n d1]. rewrite run_ret.
  rewrite run_bind by auto using calm_SurfaceInterrupted with calm.
  rewrite run_bind by auto using calm_SurfaceInterrupted with calm. rewrite run_try.
  destruct (run (SurfaceInterruptedCoordinated true ev) d1) as [r d2]. rewrite run_ret. apply IH.
Qed.

Lemma boot_keeps clock d :
  ∃ q, Rebuild daemon_onPark clock [] (New d) = (Ok tt, q) ∧ noticed d (q_db q).
Proof.
  set (rows := select_events (λ _ e, has_status [Received; Processing] e) d).
  destruct (run_rebuild_park clock 0 rows d) as [d' Hrun].
  assert (Hk : noticed d d').
  { assert (Hrows : ∀ ev, ev ∈ rows → from_table d ev).
    { intros ev (e & He & _ & Hq)%elem_of_select_events. exists e. split; [done|]. by rewrite Hq. }
    assert (H := wpd_run _ _ _ (rebuild_park_keeps clock 0 rows d Hrows)). by rewrite Hrun in H. }
  assert (Hrows : run (rebuild_rows daemon_onPark clock) d = (Ok rows, d')).
  { unfold rebuild_rows, UnprocessedEvents. rewrite run_bind by auto with calm. rewrite run_query. fold rows.
    unfold run in Hrun |- *. unfold mbind, StoreM_bind, M_bind. destruct (rebuild_park _ _ _ _ _) as [[u|x] w]; by simplify_eq. }
  unfold run in Hrows. unfold Rebuild. simpl. destruct (rebuild_rows _ _ _) as [r w]. simplify_eq.
  eexists. split; [done|]. destruct (fold_enqueue_fields rows (set_db (w_db w) (New d))) as (_ & _ & -> & _). done.
Qed.

(** ** What sends may do to the queue *)

(** An event whose reply is out, or will be when its outstanding rows are. *)
Definition sealing (d : db) (i : Z) : Prop :=
  ∃ e, events d !! i = Some e ∧ (er_status e = Replied
    ∨ (er_status e = Completed ∧ exists_row (bound_unacked i) (deliveries d) = true)).

(** One event: as it was, or from completed to replied. *)
Definition replied_or_same (o o' : option event_row) : Prop :=
  o' = o ∨ ∃ e t, o = Some e ∧ er_status e = Completed ∧ o' = Some (event_status_upd Replied t e).

(** One row: it keeps what it says and to whom, is never given up, and is owed
    no longer than it was. *)
Definition rel_row (o o' : option delivery_row) : Prop :=
  match o, o' with
  | None, None => True
  | Some r, Some r' => dr_delivery_key r' = dr_delivery_key r ∧ dr_event_id r' = dr_event_id r
                       ∧ (dr_status r' = Failed → dr_status r = Failed)
                       ∧ dr_target r' = dr_target r ∧ dr_payload r' = dr_payload r
                       ∧ (owed r' = true → owed r = true)
  | _, _ => False
  end.

Lemma rel_row_refl o : rel_row o o.
Proof. by destruct o. Qed.

Lemma rel_row_trans o1 o2 o3 : rel_row o1 o2 → rel_row o2 o3 → rel_row o1 o3.
Proof. destruct o1, o2, o3; simpl; try done. intros (? & ? & ? & ? & ? & ?) (? & ? & ? & ? & ? & ?).
  split_and!; try congruence; auto.
Qed.

(** Only row [id] changed, into one that may follow it. *)
Lemma rel_row_insert (m : gmap Z delivery_row) id r r' i :
  m !! id = Some r → rel_row (Some r) (Some r') → rel_row (m !! i) (<[id := r']> m !! i).
Proof.
  intros Hr Hrel. destruct (decide (id = i)) as [<-|Hne]; [by rewrite lookup_insert_eq, Hr|].
  rewrite lookup_insert_ne by done. apply rel_row_refl.
Qed.

Record advanced (d d' : db) : Prop := Advanced {
  ad_events : ∀ i, replied_or_same (events d !! i) (events d' !! i);
  ad_dead : dead_letters d' = dead_letters d;
  ad_idents : identities d' = identities d;
  ad_sealing : ∀ i, sealing d i → sealing d' i;
  ad_rows : ∀ i, rel_row (deliveries d !! i) (deliveries d' !! i);
}.

#[global] Instance advanced_refl : Reflexive advanced.
Proof. intros d. split; auto using rel_row_refl. by left. Qed.
#[global] Instance advanced_trans : Transitive advanced.
Proof.
  intros x y z [E1 D1 I1 S1 R1] [E2 D2 I2 S2 R2]. split; [|congruence|congruence|auto|eauto using rel_row_trans].
  intros i. destruct (E1 i) as [H1|(e & t & H1 & Hc & H1')]; destruct (E2 i) as [H2|(e2 & t2 & H2 & Hc2 & H2')].
  - left. congruence.
  - right. exists e2, t2. rewrite <-H1. by split_and!.
  - right. exists e, t. by rewrite H2.
  - rewrite H1' in H2. injection H2 as <-. done.
Qed.

(** A row that stays bound to its event and unacked if it was. *)
Lemma advanced_delivery d id r r' :
  deliveries d !! id = Some r → rel_row (Some r) (Some r') → dr_acked r' = dr_acked r →
  advanced d (set_deliveries (<[id := r']> (deliveries d)) d).
Proof.
  intros Hr Hrel Ha. split; simpl; try done; [intros; by left| |intros; by eapply rel_row_insert].
  destruct Hrel as (_ & Hb & _). intros i (e & He & [Hs|[Hs Hu]]); exists e; (split; [done|]); [by left|right]. split; [done|].
  apply exists_row_true in Hu as (k & x & Hk & Hx). apply exists_row_true. simpl.
  destruct (decide (id = k)) as [<-|Hne]; [|exists k, x; by rewrite lookup_insert_ne].
  exists id, r'. rewrite lookup_insert_eq. split; [done|]. simplify_eq.
  unfold bound_unacked, bound_to in *. by rewrite Hb, Ha.
Qed.

Lemma MarkDeliveryAttempt_advances id t d : wpd (MarkDeliveryAttempt id t) (λ _ d', advanced d d') d.
Proof. apply MarkDeliveryAttempt_wpd; [done|]. intros r Hr Ho. by apply (advanced_delivery d id r). Qed.

(** Acking the last row advances its event; acking another leaves one. *)
Lemma ack_advances id t r i n d d' :
  deliveries d !! id = Some r → dr_event_id r = Some i →
  advance_replied i t (set_deliveries (<[id := sent_row t r]> (deliveries d)) d) = (n, d') →
  advanced d d'.
Proof.
  intros Hr Hi H. unfold advance_replied in H.
  assert (Hother : ∀ j, j ≠ i → exists_row (bound_unacked j) (deliveries d) = true →
    exists_row (bound_unacked j) (<[id := sent_row t r]> (deliveries d)) = true).
  { intros j Hj (k & x & Hk & Hx)%exists_row_true. apply exists_row_true. exists k, x. split; [|done].
    rewrite lookup_insert_ne; [done|]. intros <-. simplify_eq. unfold bound_unacked, bound_to in Hx.
    rewrite Hi in Hx. rewrite bool_decide_false in Hx by congruence. done. }
  assert (Hrows : ∀ j, rel_row (deliveries d !! j) (<[id := sent_row t r]> (deliveries d) !! j)).
  { intros j. by eapply rel_row_insert. }
  upd_cases; simpl in *.
  - split; simpl; try done; [intros; by left|]. intros j (e & He & [Hs|[Hs Hu]]); exists e; (split; [done|]); [by left|].
    right. split; [done|]. destruct (decide (j = i)) as [->|Hne]; [|by apply Hother].
    specialize (H e He). rewrite (proj2 (has_status_true _ _)) in H by (rewrite Hs; by left).
    simpl in H. by apply negb_false_iff in H.
  - apply andb_true_iff in H0 as [Hc%has_status_true%list_elem_of_singleton _].
    split; simpl; try done.
    + intros j. destruct (decide (i = j)) as [<-|Hne]; [|left; by rewrite lookup_insert_ne].
      right. exists x, t. by rewrite lookup_insert_eq.
    + intros j (e & He & Hse). destruct (decide (i = j)) as [<-|Hne].
      { exists (event_status_upd Replied t x). simpl. rewrite lookup_insert_eq. split; [done|by left]. }
      exists e. simpl. rewrite lookup_insert_ne by done. split; [done|].
      destruct Hse as [|[? ?]]; [by left|right]. by split; [|apply Hother].
Qed.

Lemma AckDelivery_advances id t d : wpd (AckDelivery id t) (λ _ d', advanced d d') d.
Proof.
  unfold AckDelivery. wpd_step; [done|]. wpd_step. wpd_step; [done|]. upd_cases; simpl.
  { wpd_step. wpd_step; [done|]. repeat (wpd_step; try done). }
  wpd_step. wpd_step; [done|]. simpl. rewrite lookup_insert_eq. simpl.
  change (delivery_upd Sent _ _ _ x) with (sent_row t x).
  destruct (dr_event_id x) as [i|] eqn:Hi.
  2: { wpd_step. split; simpl; try done; [intros; by left| |intros; by eapply rel_row_insert].
    intros i (e & He & [Hs|[Hs Hu]]); exists e; (split; [done|]); [by left|].
       right. split; [done|]. apply exists_row_true in Hu as (k & y & Hk & Hy). apply exists_row_true. simpl.
       exists k, y. split; [|done]. rewrite lookup_insert_ne; [done|]. intros <-. simplify_eq.
       unfold bound_unacked, bound_to in Hy. by rewrite Hi in Hy. }
  wpd_step. wpd_step; [done|]. assert (Ha := ack_advances id t x i _ _ _ H Hi H1).
  wpd_step; [|by wpd_step]. wpd_step. wpd_step; [done|]. wpd_step; [|by wpd_step]. wpd_step; by wpd_step.
Qed.

(** Whatever fails, a pass only sends, stamps and acks. *)
Lemma resend_loop_advances senders held clock i rows stopped e :
  wpe (resend_loop senders held clock i rows stopped) (λ _ e', advanced (env_db e) (env_db e')) e.
Proof.
  revert i stopped e. induction rows as [|x rows IH]; intros i stopped e; simpl; [by wpe_step|].
  assert (Hrest : ∀ stopped' e1, advanced (env_db e) (env_db e1) →
    wpe (resend_loop senders held clock (S i) rows stopped') (λ _ e', advanced (env_db e) (env_db e')) e1).
  { intros stopped' e1 H1. eapply wpe_mono; [apply IH|]. intros r e2 H2. by etrans. }
  wpe_step. wpe_step. wpe_step; [by wpe_step|]. wpe_step; [by apply Hrest|]. wpe_step; [by apply Hrest|].
  wpe_step; [by apply Hrest|]. wpe_step. wpe_step. wpe_step. wpe_step. wpe_step.
  eapply wpd_mono; [apply MarkDeliveryAttempt_advances|]. intros r d1 H1 fs. simpl. destruct r; [|by apply Hrest].
  wpe_step. wpe_step. wpe_step. wpe_step. wpe_step; [by apply Hrest|]. wpe_step. wpe_step. wpe_step. wpe_step. wpe_step.
  eapply wpd_mono; [apply AckDelivery_advances|]. intros r d2 H2 fs2. simpl.
  assert (advanced (env_db e) d2) by by etrans. destruct r; by apply Hrest.
Qed.

Lemma ResendUnacked_advances senders held clock e :
  wpe (ResendUnacked senders held clock) (λ _ e', advanced (env_db e) (env_db e')) e.
Proof.
  unfold ResendUnacked, ResendableDeliveries. wpe_step. wpe_step. wpe_step. apply wpd_query; intros fs.
  - by wpe_step.
  - eapply wpe_mono; [apply resend_loop_advances|done].
Qed.


Lemma advanced_keys d d' k :
  advanced d d' → exists_row (has_delivery_key k) (deliveries d) = true →
  exists_row (has_delivery_key k) (deliveries d') = true.
Proof.
  intros Ha (i & r & Hr & Hk)%exists_row_true. apply exists_row_true. assert (H := ad_rows _ _ Ha i).
  rewrite Hr in H. destruct (deliveries d' !! i) as [r'|] eqn:Hr'; [|done]. destruct H as (Hkey & _).
  exists i, r'. split; [done|]. unfold has_delivery_key in *. by rewrite Hkey.
Qed.

(** Sending composes no notice away. *)
Lemma advanced_unsurfaced d d' :
  advanced d d' →
  (select_events (unsurfaced_park d) d = [] → select_events (unsurfaced_park d') d' = [])
  ∧ (select_events (unsurfaced_death d) d = [] → select_events (unsurfaced_death d') d' = []).
Proof.
  intros Ha. rewrite !select_events_nil. split; intros H i e' He'.
  - unfold unsurfaced_park. destruct (ad_events _ _ Ha i) as [Hsame|(e & t & _ & _ & Hrep)].
    + rewrite He' in Hsame. specialize (H i e' (eq_sym Hsame)). unfold unsurfaced_park in H.
      destruct (has_status [Interrupted] e'); [simpl in *|done]. apply negb_false_iff in H.
      apply negb_false_iff. by eapply advanced_keys.
    + rewrite He' in Hrep. by injection Hrep as ->.
  - assert (Hd : ∃ e, events d !! i = Some e ∧ er_dedup_key e = er_dedup_key e').
    { destruct (ad_events _ _ Ha i) as [Hsame|(e & t & He & _ & Hrep)]; [exists e'; by rewrite <-Hsame|].
      exists e. rewrite He' in Hrep. by injection Hrep as ->. }
    destruct Hd as (e & He & Hk). specialize (H i e He). unfold unsurfaced_death in *. rewrite (ad_dead _ _ Ha).
    destruct (dead_letters d !! i); [|done]. destruct (bool_decide _); [simpl in *|done].
    apply negb_false_iff in H. apply negb_false_iff. rewrite <-Hk. by eapply advanced_keys.
Qed.

Lemma calm_sweep gated : calm (sweepUnsurfacedParks gated).
Proof.
  unfold sweepUnsurfacedParks. apply calm_bind; [apply calm_try, calm_query|]. intros [evs|]; [|apply calm_ret].
  apply calm_bind; [apply calm_surface_all, calm_SurfaceInterrupted|]. intros _.
  apply calm_bind; [apply calm_try, calm_query|]. intros [ds|]; [|apply calm_ret].
  apply calm_surface_all, calm_SurfaceDeadLetter.
Qed.

(** ** The restart *)

Section restart.
Context (clock clock' : nat → Z) (senders : string → bool).

(** Boot over a healthy store, then the pump's first pass over a healthy
    platform, while no live relay holds a row. *)
Definition restart (d : db) : (result err unit * Queues) * (result err unit * env) :=
  let boot := Rebuild daemon_onPark clock [] (New d) in
  (boot, pump_pass senders (λ _ _, false) clock' true (healthy_env (q_db boot.2))).

(** What the two steps leave of an event. *)
Definition resettled (x x' : event_row) : Prop :=
  match er_status x with
  | Processing => er_status x' = Interrupted ∧ er_parks x' = er_parks x + 1
  | Completed => x' = x ∨ ∃ t, x' = event_status_upd Replied t x
  | _ => x' = x
  end.

(** An owed row is unbound, or its event is not queued for another turn. *)
Definition owes_nothing_early (d : db) : Prop :=
  ∀ i r, deliveries d !! i = Some r → owed r = true → ∀ j, dr_event_id r = Some j →
    ∃ x, events d !! j = Some x ∧ er_status x ≠ Received.

Definition deliverable (d : db) : Prop :=
  (∀ t, notice_target d t → senders (channelOf t) = true)
  ∧ ∀ x, x ∈ owed_rows d → senders (channelOf (rd_Target x)) = true.

(** Boot's part of [resettled], on every row there is. *)
Definition booted_events (d d1 : db) : Prop :=
  ∀ i x, events d !! i = Some x → ∃ x1, events d1 !! i = Some x1
    ∧ (er_status x = Processing → er_status x1 = Interrupted ∧ er_parks x1 = er_parks x + 1)
    ∧ (er_status x ≠ Processing → x1 = x).

(** A row bound to an event keeps its place through the notices. *)
Lemma due_after d d1 d2 y :
  deliverable d → owes_nothing_early d → noticed d d2 → events d2 = events d1 → booted_events d d1 →
  y ∈ owed_rows d2 → due senders d2 y.
Proof.
  intros [Hn Hs] Hearly Hk Hev Hb (r & Hr & Ho & Hy)%elem_of_owed_rows.
  assert (Ht : rd_Target y = dr_target r) by by rewrite Hy.
  destruct (nt_new _ _ Hk _ _ Hr) as [Hd|[Hu Hnt]].
  - split; [apply Hs, elem_of_owed_rows; by exists r|]. exists r. split; [done|]. split; [done|].
    intros j Hj. destruct (Hearly _ _ Hd Ho j Hj) as (x & Hx & Hnr). rewrite Hev.
    destruct (Hb j x Hx) as (x1 & Hx1 & Hp & Hsame). exists x1. split; [done|].
    destruct (decide (er_status x = Processing)) as [Hpr|Hpr].
    + rewrite (proj1 (Hp Hpr)). set_solver.
    + rewrite (Hsame Hpr). set_solver.
  - split; [rewrite Ht; by apply Hn|]. exists r. split_and!; [done..|]. intros j Hj. congruence.
Qed.

Lemma resettled_after d d1 d3 i x :
  booted_events d d1 → advanced d1 d3 → events d !! i = Some x →
  ∃ x3, events d3 !! i = Some x3 ∧ resettled x x3 ∧ er_status x3 ≠ Processing.
Proof.
  intros Hb Ha Hx. destruct (Hb i x Hx) as (x1 & Hx1 & Hp & Hsame).
  assert (Hnp : er_status x1 ≠ Processing).
  { destruct (decide (er_status x = Processing)) as [Hpr|Hpr]; [by rewrite (proj1 (Hp Hpr))|by rewrite (Hsame Hpr)]. }
  destruct (ad_events _ _ Ha i) as [Hs|(e & t & He & Hc & Hr)].
  - exists x1. rewrite Hs. split; [done|]. split; [|done]. unfold resettled.
    destruct (er_status x) eqn:Hst; try (by apply Hsame); [by apply Hp|left; by apply Hsame].
  - rewrite Hx1 in He. injection He as <-. exists (event_status_upd Replied t x1). split; [done|]. split; [|done].
    unfold resettled. destruct (decide (er_status x = Processing)) as [Hpr|Hpr].
    + rewrite (proj1 (Hp Hpr)) in Hc. done.
    + rewrite (Hsame Hpr) in Hc |- *. rewrite Hc. right. by exists t.
Qed.

(** The reply of a completed event is out once nothing is owed and no row of it
    was given up. *)
Lemma sealed_after d d3 i :
  sealing d i → owed_rows d3 = [] → (∀ j, sealing d j → sealing d3 j) →
  (∀ k r, deliveries d3 !! k = Some r → dr_event_id r = Some i → dr_status r ≠ Failed) →
  ∃ x, events d3 !! i = Some x ∧ er_status x = Replied.
Proof.
  intros Hs Hno Hmono Hfail. destruct (Hmono i Hs) as (x & Hx & [Hrep|[_ Hu]]); [by exists x|exfalso].
  apply exists_row_true in Hu as (k & r & Hk & Hb). unfold bound_unacked, bound_to in Hb.
  apply andb_true_iff in Hb as [Hb%bool_decide_eq_true Ha%bool_decide_eq_true].
  assert (Ho : resendable_of k r ∈ owed_rows d3).
  { apply elem_of_owed_rows. exists r. split_and!; [done| |done]. unfold owed.
    rewrite bool_decide_true, bool_decide_false by eauto. done. }
  rewrite Hno in Ho. by apply elem_of_nil in Ho.
Qed.

Lemma owing_seals d d2 i x y r :
  noticed d d2 → booted_events d d2 → events d !! i = Some x → er_status x = Completed → y ∈ owed_rows d →
  deliveries d !! rd_ID y = Some r → dr_event_id r = Some i → sealing d2 i.
Proof.
  intros Hk Hb Hx Hc (r0 & Hr0 & Ho & _)%elem_of_owed_rows Hr Hi. rewrite Hr in Hr0. injection Hr0 as <-.
  exists x. destruct (Hb i x Hx) as (x1 & Hx1 & _ & Hsame). rewrite Hx1, Hsame by congruence. split; [done|].
  right. split; [done|]. apply exists_row_true. exists (rd_ID y), r. split; [by apply (nt_kept _ _ Hk)|].
  apply owed_spec in Ho as [Ha _]. unfold bound_unacked, bound_to. by rewrite !bool_decide_true.
Qed.

Lemma pump_pass_runs d d2 :
  run (sweepUnsurfacedParks true) d = (Ok tt, d2) →
  pump_pass senders (λ _ _, false) clock' true (healthy_env d)
  = ResendUnacked senders (λ _ _, false) clock' (healthy_env d2).
Proof.
  intros Hrun. unfold pump_pass, mbind, EnvM_bind, M_bind.
  by rewrite (liftS_run _ (healthy_env d) tt d2 (calm_sweep true) eq_refl Hrun).
Qed.

End restart.

