(* ===== verification/Ingest.v ===== *)
(** * Receiving a message (src/internal/adapter/discord/normalize.go, cli/ingest.go)

    One inbound Discord message becomes one event: [Normalize] builds it at the
    bottom trust, [stampEvent] raises it to what the identities table and the
    channel's grade allow, and [discordIngest] makes it durable through the
    router's [Persist].  [Message] holds the fields of discordgo's struct that
    the code reads.  The queue is an interface, as in the code: the class
    [eventQueue], whose law the router's Persist discharges. *)
From S2P Require Import Prelude Utf8 Trust Json JsonRound Schema Events Event.
From S2P Require Import Identities StoreOps Router.
Local Open Scope Z_scope.

(** ** Data *)

Record Message : Type := MkMessage {
  m_ID : string;
  m_ChannelID : string;
  m_GuildID : string;
  m_Author : option string;               (* Author.ID of a non-nil Author *)
  m_Content : string;
  m_MessageReference : option string;     (* its MessageID *)
  m_Attachments : list (option Attachment);
}.

(** ** Normalize *)

(** The attachment loop: nil entries and entries without a URL are skipped. *)
Definition keep_attachment (a : option Attachment) : option Attachment :=
  match a with
  | None => None
  | Some a => if empty (at_URL a) then None else Some a
  end.

Definition reply_ref (ref : option string) : option string :=
  match ref with
  | Some id => if empty id then None else Some ("discord:msg:" +:+ id)%string
  | None => None
  end.

(** [None] is a nil MessageCreate or one without a message. *)
Definition Normalize (m : option Message) : result string Event :=
  match m with
  | None => Err "nil message"
  | Some m =>
      match m_Author m with
      | None => Err "message has no author id"
      | Some author =>
          if empty author then Err "message has no author id"
          else if empty (m_ID m) then Err "blank message id"
          else
            let event threadKey :=
              MkEvent "discord" threadKey ("discord:msg:" +:+ m_ID m) author None "untrusted"
                "message" None (m_Content m) (omap keep_attachment (m_Attachments m))
                (reply_ref (m_MessageReference m)) in
            if empty (m_GuildID m) then Ok (event ("discord:dm:" +:+ author))
            else if empty (m_ChannelID m) then Err "guild message with blank channel id"
            else Ok (event ("discord:thread:" +:+ m_ChannelID m))
      end
  end%string.

(** ** Stamping *)

Definition set_trust (t : string) (e : Event) : Event :=
  MkEvent (e_Channel e) (e_ThreadKey e) (e_DedupKey e) (e_Sender e) (e_OwnerID e) t (e_Kind e)
    (e_Occurrence e) (e_Text e) (e_Attachments e) (e_ReplyTo e).
Definition set_owner (o : option string) (e : Event) : Event :=
  MkEvent (e_Channel e) (e_ThreadKey e) (e_DedupKey e) (e_Sender e) o (e_Trust e) (e_Kind e)
    (e_Occurrence e) (e_Text e) (e_Attachments e) (e_ReplyTo e).

Definition stampEvent (auth : string) (e : Event) : StoreM Event :=
  stamped ← ResolveStamped (e_Channel e) (e_Sender e) auth;
  let e := set_trust (st_Trust (ans_value stamped)) e in
  if bool_decide (st_Trust (ans_value stamped) = Owner) then
    owner ← try (ResolveOwnerID (e_Channel e) (e_Sender e));
    match owner with
    | Ok (Some o) => mret (set_owner (Some o) e)
    | _ => mret e
    end
  else mret e.

(** ** Ingest *)

Class eventQueue : Type := {
  Persist : StoreEvent → StoreM bool;
}.

(** How a receipt ended; the log line is all that tells the first two apart
    from the rest. *)
Inductive receipt : Type :=
| RDropped (why : string)
| RLost (e : err)
| RDuplicate
| RQueued.

Definition store_event (e : Event) (received : Z) : StoreEvent :=
  MkStoreEvent (e_DedupKey e) (e_ThreadKey e) (e_Kind e) (e_Trust e) (MarshalJSON e) received "".

Definition discordIngest `{eventQueue} (auth : string) (received : Z) (m : option Message)
    : StoreM receipt :=
  match Normalize m with
  | Err why => mret (RDropped why)
  | Ok e =>
      e ← stampEvent auth e;
      inserted ← try (Persist (store_event e received));
      match inserted with
      | Err x => mret (RLost x)
      | Ok false => mret RDuplicate
      | Ok true => mret RQueued
      end
  end.

(** ** The queue's promise *)

(** An event past validation and the CHECKs. *)
Definition acceptable (ev : StoreEvent) : Prop :=
  event_validate ev = Ok tt ∧ kind_check (ev_Kind ev) = true
  ∧ event_trust_check (ev_Trust ev) = true.

Definition seen (dedup : string) (d : db) : Prop := exists_row (has_dedup dedup) (events d) = true.

Class eventQueueOk `{eventQueue} : Prop := {
  Persist_ok ev d : acceptable ev →
    wpd (Persist ev) (λ r d', match r with
      | Ok true => ¬ seen (ev_DedupKey ev) d
          ∧ d' = set_events (<[next_id (events d) := received_row ev]> (events d)) d
      | Ok false => d' = d ∧ seen (ev_DedupKey ev) d
      | Err x => d' = d ∧ x = EIO
      end) d;
}.

(** The router's Persist, as the store sees it: between its lock and its
    unlock only the insert touches the database. *)
#[export] Instance router_queue : eventQueue := {|
  Persist ev := ins ← InsertEvent ev; mret (snd ins);
|}.

#[export] Instance router_queue_ok : eventQueueOk.
Proof.
  constructor. intros ev d (Hv & Hk & Ht). cbn [Persist router_queue].
  unfold InsertEvent. rewrite Hv. wpd_step. wpd_step. wpd_step; [done|].
  unfold insert_event_row. rewrite Hk, Ht. cbn [negb andb]. unfold seen.
  destruct (exists_row _ _) eqn:Hd; (wpd_step; wpd_step); split; done || congruence.
Qed.

(** The step of the router's machine that inserts moves the store as
    [Persist] does. *)
Lemma Persist_insert_store pid fs q q' ev :
  q_ingest q !! pid = Some (ILocked ev) → Persist_insert pid fs q = Some q' →
  q_db q' = w_db (Persist ev (World (q_db q) fs)).2.
Proof.
  intros Hp. unfold Persist_insert. rewrite Hp.
  cbn [Persist router_queue]. unfold mbind, StoreM_bind, M_bind.
  destruct (InsertEvent ev _) as [[[id [|]]|e] w]; by intros [= <-].
Qed.

(** ** Lemmas *)

Lemma empty_ne s : s ≠ ""%string → empty s = false.
Proof. intros. by apply bool_decide_eq_false_2. Qed.

Definition attachments_of (m : Message) : list Attachment := omap keep_attachment (m_Attachments m).

(** The conversation a message belongs to. *)
Inductive place : Type := DM (user : string) | Thread (channel : string).

Definition place_of (m : Message) (author : string) : place :=
  if empty (m_GuildID m) then DM author else Thread (m_ChannelID m).
Definition place_key (p : place) : string :=
  match p with DM u => "discord:dm:" +:+ u | Thread c => "discord:thread:" +:+ c end.

#[global] Instance place_key_inj : Inj (=) (=) place_key.
Proof. intros [u|c] [u'|c'] He; simpl in He; by simplify_eq. Qed.

Definition event_of (m : Message) (author : string) : Event :=
  MkEvent "discord" (place_key (place_of m author)) ("discord:msg:" +:+ m_ID m) author None
    "untrusted" "message" None (m_Content m) (attachments_of m) (reply_ref (m_MessageReference m)).

(** A message can carry an identity. *)
Definition identified (m : Message) (author : string) : Prop :=
  m_Author m = Some author ∧ author ≠ ""%string ∧ m_ID m ≠ ""%string
  ∧ (m_GuildID m ≠ ""%string → m_ChannelID m ≠ ""%string).

Lemma Normalize_Ok m e :
  Normalize (Some m) = Ok e ↔ ∃ author, identified m author ∧ e = event_of m author.
Proof.
  unfold Normalize, identified, event_of, place_of, empty. split.
  - intros H. destruct (m_Author m) as [author|]; [|done].
    repeat case_bool_decide; simplify_eq/=; exists author; split_and!; try done; by intros [].
  - intros (author & (-> & Ha & Hi & Hc) & ->).
    rewrite (bool_decide_eq_false_2 (author = _)), (bool_decide_eq_false_2 (m_ID m = _)) by done.
    repeat case_bool_decide; try done. naive_solver.
Qed.

(** *** Messages the platform can send: valid UTF-8 and sizes of 64 bits *)

Definition message_ok (m : Message) : Prop :=
  valid_utf8 (m_ID m) ∧ valid_utf8 (m_ChannelID m) ∧ opt_valid (m_Author m)
  ∧ valid_utf8 (m_Content m) ∧ opt_valid (m_MessageReference m)
  ∧ ∀ a, Some a ∈ m_Attachments m → attachment_encodable a.

(** The principals a store holds come from the configuration file, which is
    UTF-8. *)
Definition principals_ok (d : db) : Prop :=
  ∀ key row, identities d !! key = Some row → opt_valid (id_owner_id row).

Lemma event_of_encodable m author :
  message_ok m → m_Author m = Some author → encodable (event_of m author).
Proof.
  intros (Hi & Hc & Ha & Ht & Hr & Hatt) Hau. specialize (Ha _ Hau).
  constructor; cbn [event_of e_Channel e_ThreadKey e_DedupKey e_Sender e_OwnerID e_Trust e_Kind
    e_Occurrence e_Text e_Attachments e_ReplyTo]; try done; try (intros s [=]; fail).
  - unfold place_of. case_match; apply valid_utf8_app; done.
  - by apply valid_utf8_app.
  - apply Forall_forall. intros a Hin. unfold attachments_of in Hin.
    apply list_elem_of_omap in Hin as (x & Hx & Hk). destruct x as [x|]; [|done].
    simpl in Hk. case_match; simplify_eq. by apply Hatt.
  - intros s Hs. destruct (m_MessageReference m) as [id|]; [|done]. simpl in Hs.
    case_match; simplify_eq. apply valid_utf8_app; [done|]. by apply Hr.
Qed.

(** *** The stamp *)

Definition row_of (d : db) (e : Event) : option ident_row :=
  identities d !! (e_Channel e, e_Sender e).

(** What [stampEvent] makes of an event: the trust is the clamp of the stored
    level or, after a failed read, untrusted; a principal is carried only at
    owner trust and is the row's own. *)
Definition stamped (auth : string) (d : db) (e e' : Event) : Prop :=
  ∃ tr own, e' = set_owner own (set_trust tr e)
  ∧ (tr = st_Trust (Stamp auth (stored_level (row_of d e))) ∨ tr = Untrusted)
  ∧ participant tr
  ∧ (tr = Owner → auth = "strong"%string ∧ ∃ row o, row_of d e = Some row
       ∧ id_trust row = "owner"%string ∧ id_owner_id row = Some o ∧ o ≠ ""%string)
  ∧ ∀ o, own = Some o → tr = Owner ∧ ∃ row, row_of d e = Some row ∧ id_owner_id row = Some o.

Lemma Stamp_participant auth l : participant (st_Trust (Stamp auth l)).
Proof. unfold Stamp. repeat case_bool_decide; simpl; try apply Min_participant. by left. Qed.

Lemma stampEvent_wpd auth e d :
  e_OwnerID e = None →
  wpd (stampEvent auth e) (λ r d', d' = d ∧ ∃ e', r = Ok e' ∧ stamped auth d e e') d.
Proof.
  intros Hn. unfold stampEvent. wpd_step.
  eapply wpd_mono; [apply ResolveStamped_wpd|]. intros r d' (-> & a & -> & Ha). fold (row_of d e) in Ha.
  set (tr := st_Trust (ans_value a)).
  assert (Htr : (tr = st_Trust (Stamp auth (stored_level (row_of d e))) ∨ tr = Untrusted)
    ∧ participant tr
    ∧ (tr = Owner → auth = "strong"%string ∧ ∃ row o, row_of d e = Some row
       ∧ id_trust row = "owner"%string ∧ id_owner_id row = Some o ∧ o ≠ ""%string)).
  { subst tr. destruct Ha as [(He & -> & Hrow)|(He & ->)]; [|split_and!; [by right|by left|done]].
    split_and!; [by left|apply Stamp_participant|]. intros [-> Ho]%Stamp_owner. split; [done|].
    destruct (row_of d e) as [row|]; [|done].
    destruct (judge_row_owner row (Hrow row eq_refl) Ho) as (Ht & o & ? & ?). eauto 10. }
  destruct Htr as (Ht1 & Ht2 & Ht3).
  assert (Hplain : stamped auth d e (set_trust tr e)).
  { exists tr, None. split_and!; try done. unfold set_owner, set_trust. simpl. by rewrite Hn. }
  case_bool_decide as Ho; [|wpd_step; eauto].
  wpd_step. wpd_step. unfold ResolveOwnerID. wpd_step. wpd_step; [wpd_step; eauto|].
  unfold owner_id_at. change (identities d !! _) with (row_of d e).
  destruct (Ht3 Ho) as (_ & row & o & Hrow & Hit & Hio & _).
  rewrite Hrow, Hit, Hio. rewrite bool_decide_eq_true_2 by done. wpd_step. wpd_step.
  split; [done|]. eexists. split; [done|]. exists tr, (Some o). split_and!; try done.
  intros o' [= <-]. eauto.
Qed.

Lemma participant_check tr : participant tr → valid_utf8 tr ∧ event_trust_check tr = true ∧ tr ≠ ""%string.
Proof. intros [->|[->| ->]]; split_and!; try done; vm_compute; reflexivity. Qed.

Lemma stamped_encodable auth d e e' :
  encodable e → principals_ok d → stamped auth d e e' → encodable e'.
Proof.
  intros [] Hp (tr & own & -> & _ & Htr & _ & Hown). apply participant_check in Htr as (Hv & _).
  constructor; try done. intros o Ho. destruct (Hown o Ho) as (_ & row & Hrow & Hio).
  exact (Hp _ _ Hrow o Hio).
Qed.

(** The event a stamp yields is one the store takes. *)
Lemma stamped_acceptable auth d m author e' received :
  message_ok m → identified m author → principals_ok d → 0 < received →
  stamped auth d (event_of m author) e' → acceptable (store_event e' received).
Proof.
  intros Hm (Ha & _) Hp Hr Hs.
  assert (He : encodable e').
  { eapply stamped_encodable; [|done|done]. by apply event_of_encodable. }
  destruct Hs as (tr & own & -> & _ & Htr & _). apply participant_check in Htr as (_ & Hc & Hne).
  split; [|by split]. unfold event_validate, store_event. cbn [ev_DedupKey ev_ThreadKey ev_Kind ev_Trust
    ev_Received ev_Correlation].
  rewrite !empty_ne; try done; [|cbn; by destruct (place_of m author)].
  rewrite (proj2 (Z.leb_gt _ _)) by done. rewrite bool_decide_eq_false_2 by done.
  by apply validatePayload_event.
Qed.

(** ** Properties *)

(** Normalization.  A message is refused exactly when it cannot carry an
    identity; otherwise the event is a message of channel discord at the
    untrusted baseline with no principal, its text and its fetchable
    attachments verbatim and in order; and the identities it carries are
    faithful: two messages share a dedup key only when they share the id, and
    share a thread only when they are of the same user's private conversation
    or of the same guild thread. *)
Theorem Normalize_identity m :
  (∀ e, Normalize (Some m) = Ok e ↔ ∃ author, identified m author ∧ e = event_of m author)
  ∧ Normalize None = Err "nil message"%string
  ∧ ∀ m' e e' author author',
      m_Author m = Some author → m_Author m' = Some author' →
      Normalize (Some m) = Ok e → Normalize (Some m') = Ok e' →
      (e_DedupKey e = e_DedupKey e' ↔ m_ID m = m_ID m')
      ∧ (e_ThreadKey e = e_ThreadKey e' ↔ place_of m author = place_of m' author').
Proof.
  split; [intros e; apply Normalize_Ok|]. split; [done|].
  intros m' e e' a a' Ha Ha' (b & (Hb & _) & ->)%Normalize_Ok (b' & (Hb' & _) & ->)%Normalize_Ok.
  simplify_eq. cbn. split.
  - split; [by intros ?; simplify_eq|by intros ->].
  - split; [apply (inj place_key)|by intros ->].
Qed.

(** C15: receipt.  For a message that can carry an identity, under any failure
    of the database and for any queue that keeps its promise, ingest ends in
    one of three ways: the event is queued (the row is new, its columns and
    its payload agree, reading the payload back gives the stamped event, whose
    text is the message's), or it collapses on a row with its dedup key, or
    the database failed and nothing was written: no message is lost to the
    store's validation.  The trust queued is the clamp of the stored level or,
    after a failed lookup, untrusted; owner needs a strong channel and a stored
    owner row, and only then is the row's principal carried. *)
Theorem discordIngest_receipt `{eventQueueOk} m author auth received d :
  message_ok m → identified m author → principals_ok d → 0 < received →
  wpd (discordIngest auth received (Some m)) (λ r d', match r with
    | Ok RQueued => ¬ seen ("discord:msg:" +:+ m_ID m) d
        ∧ ∃ e row, stamped auth d (event_of m author) e
            ∧ row = received_row (store_event e received)
            ∧ d' = set_events (<[next_id (events d) := row]> (events d)) d
            ∧ Unmarshal (er_payload row) = Some e ∧ e_Text e = m_Content m
            ∧ er_thread_key row = place_key (place_of m author) ∧ er_trust row = e_Trust e
    | Ok RDuplicate => d' = d ∧ seen ("discord:msg:" +:+ m_ID m) d
    | Ok (RLost x) => d' = d ∧ x = EIO
    | _ => False
    end) d.
Proof.
  intros Hm Hid Hp Hr. unfold discordIngest.
  assert (HN : Normalize (Some m) = Ok (event_of m author)) by (apply Normalize_Ok; eauto).
  rewrite HN. wpd_step. eapply wpd_mono; [by apply stampEvent_wpd|].
  intros r d' (-> & e & -> & Hs). wpd_step. wpd_step.
  eapply wpd_mono; [apply Persist_ok; by eapply stamped_acceptable|].
  assert (He : encodable e).
  { eapply stamped_encodable; [|done|exact Hs]. apply event_of_encodable; [done|by destruct Hid]. }
  assert (Hkeys : e_DedupKey e = ("discord:msg:" +:+ m_ID m)%string
    ∧ e_ThreadKey e = place_key (place_of m author) ∧ e_Text e = m_Content m).
  { by destruct Hs as (tr & own & -> & _). }
  destruct Hkeys as (Hk1 & Hk2 & Hk3).
  intros [[|]|x] d'; cbn [ev_DedupKey store_event]; rewrite ?Hk1; intros [H1 H2]; wpd_step; try done.
  split; [done|]. exists e, (received_row (store_event e received)). split_and!; try done.
  by apply Unmarshal_MarshalJSON.
Qed.

(** A first message of an enrolled owner, on a strong channel. *)
Definition dm_message : Message :=
  MkMessage "1001" "55" "" (Some "7") "hello" None [None; Some (MkAttachment "https://x" "a" "t" 3)]%string.
Definition owner_db : db :=
  set_identities {[("discord", "7") := IdentRow "owner" (Some "brian") None]}%string empty_db.

Lemma dm_message_ok : message_ok dm_message.
Proof.
  unfold message_ok, dm_message. cbn. split_and!; try match goal with |- valid_utf8 _ => vm_compute; reflexivity end.
  - intros s [= <-]. vm_compute; reflexivity.
  - by intros s [=].
  - intros a Ha. apply elem_of_cons in Ha as [[=]|Ha]. apply list_elem_of_singleton in Ha as [= ->].
    constructor; [vm_compute; reflexivity..|]. split; vm_compute; discriminate.
Qed.

Lemma owner_db_ok : principals_ok owner_db.
Proof.
  intros key row Hk o Ho. unfold owner_db in Hk. cbn in Hk.
  apply lookup_singleton_Some in Hk as [_ <-]. simplify_eq/=.
  vm_compute; reflexivity.
Qed.

(** What happens there, computed: the queued row is the owner's. *)
Example dm_message_queued :
  let '(r, d') := run (discordIngest "strong" 100 (Some dm_message)) owner_db in
  r = Ok RQueued ∧ (er_trust <$> events d' !! 1) = Some "owner"%string
  ∧ (e_OwnerID <$> (events d' !! 1 ≫= λ row, Unmarshal (er_payload row))) = Some (Some "brian"%string).
Proof. vm_compute. done. Qed.

Lemma discordIngest_receipt_witness :
  message_ok dm_message ∧ identified dm_message "7" ∧ principals_ok owner_db
  ∧ ∃ e, stamped "strong" owner_db (event_of dm_message "7") e
      ∧ (run (discordIngest "strong" 100 (Some dm_message)) owner_db).2
        = set_events (<[1 := received_row (store_event e 100)]> ∅) owner_db.
Proof.
  assert (Hid : identified dm_message "7") by (split_and!; try done; by intros []).
  split; [apply dm_message_ok|]. split; [done|]. split; [apply owner_db_ok|].
  pose proof (wpd_run _ _ _ (discordIngest_receipt dm_message "7"%string "strong"%string 100 owner_db
    dm_message_ok Hid owner_db_ok eq_refl)) as H.
  assert (Hq : (run (discordIngest "strong" 100 (Some dm_message)) owner_db).1 = Ok RQueued)
    by (vm_compute; reflexivity).
  destruct (run _ owner_db) as [r d']. simpl in Hq. subst r.
  destruct H as (_ & e & row & Hs & -> & -> & _). by exists e.
Defined.
