(* ===== verification/Gateway.v ===== *)
(** * The gateway side of the Discord adapter (src/internal/adapter/discord/discord.go)

    [Run]'s reconnect loop is a function of what the world answers, one record
    of answers per round, and leaves the trace of its calls.  [onMessageCreate]
    is the subscription boundary over discordgo's channel cache, whose
    functions are parameters.  The handler gate that lets no handler outlive
    [Run] is a step relation over interleaved goroutines. *)
From S2P Require Import Prelude Utf8 Events Event Ingest.
Local Open Scope Z_scope.

(** ** Errors *)

(** What errors.Is and errors.As find in an error of the gateway. *)
Record gw_err : Type := GwErr {
  ge_unauthorized : bool;          (* discordgo.ErrUnauthorized *)
  ge_already_open : bool;          (* discordgo.ErrWSAlreadyOpen *)
  ge_close : option Z;             (* a websocket.CloseError's code *)
}.

Definition close_in (codes : list Z) (e : gw_err) : bool :=
  match ge_close e with Some c => existsb (Z.eqb c) codes | None => false end.

Definition terminal (e : gw_err) : bool :=
  ge_unauthorized e || close_in [4004; 4012; 4013; 4014] e.

Definition staleSession (e : gw_err) : bool := close_in [4007; 4009] e.

(** ** Backoff *)

Definition second : Z := 1000000000.
Definition backoffBase : Z := second.
Definition backoffCap : Z := 60 * second.
Definition healthyReset : Z := 60 * second.

(** The curve before jitter; [attempt] is Run's counter. *)
Definition backoff (attempt : Z) : Z :=
  if Z.ltb attempt 6 then Z.min (wrap64 (Z.shiftl backoffBase attempt)) backoffCap else backoffCap.

(** [rand.N(n)] is some number below n: [jitter] is reduced to one. *)
Definition backoffDelay (attempt jitter : Z) : Z :=
  let d := backoff attempt in wrap64 (d + jitter mod (Z.quot d 4 + 1)).

(** ** Run *)

(** What the world answers in one round of the loop, in the order the round
    may ask: ctx.Err, the open (or a cancellation while it blocks), whether the
    session could be rebuilt, the jitter and whether the sleep ran to its end,
    the clock at the open, the select, and the clock at the drop. *)
Inductive open_answer : Type :=
| Cancelled
| Opened
| OpenFailed (e : gw_err).

Record answers : Type := Answers {
  an_ctx : bool;
  an_open : open_answer;
  an_reset : bool;
  an_jitter : Z;
  an_slept : bool;
  an_now_open : Z;
  an_dropped : bool;         (* the select took a.disconnected, not ctx.Done *)
  an_now_drop : Z;
}.

Inductive action : Type :=
| AOpen (r : open_answer)    (* openCancellable; cancelled leaves the reaper *)
| AClose
| AReset
| AWait (age : Z)            (* the select woke on a disconnect, this long after the last open *)
| ASleep (d : Z).

Inductive run_exit : Type :=
| ExitCtx                    (* the context's error *)
| ExitTerminal               (* the gateway refused for good *)
| ExitReset.                 (* the refused session could not be replaced *)

Record run_state : Type := RunState {
  rs_attempt : Z;
  rs_needOpen : bool;
  rs_connectedAt : Z;
}.

(** [time.Time.Sub] saturates. *)
Definition time_sub (t u : Z) : Z := Z.max int64_min (Z.min int64_max (t - u)).

(** The select and what follows a disconnect. *)
Definition supervise (attempt connectedAt : Z) (a : answers)
    : list action * (run_state + run_exit) :=
  let age := time_sub (an_now_drop a) connectedAt in
  if negb (an_dropped a) then ([AClose], inr ExitCtx)
  else if Z.leb healthyReset age then ([AWait age], inl (RunState 0 true connectedAt))
  else
    let delay := backoffDelay attempt (an_jitter a) in
    if an_slept a then ([AWait age; ASleep delay], inl (RunState (attempt + 1) true connectedAt))
    else ([AWait age; ASleep delay; AClose], inr ExitCtx).

(** A failed open that is neither already open nor terminal. *)
Definition retry_open (s : run_state) (e : gw_err) (a : answers)
    : list action * (run_state + run_exit) :=
  let reset := if staleSession e then [AReset] else [] in
  if staleSession e && negb (an_reset a) then ([AOpen (OpenFailed e); AReset], inr ExitReset)
  else
    let delay := backoffDelay (rs_attempt s) (an_jitter a) in
    let trace := AOpen (OpenFailed e) :: reset ++ [ASleep delay] in
    if an_slept a
    then (trace, inl (RunState (rs_attempt s + 1) true (rs_connectedAt s)))
    else (trace, inr ExitCtx).

(** One round of the for loop. *)
Definition run_round (s : run_state) (a : answers) : list action * (run_state + run_exit) :=
  if rs_needOpen s then
    if an_ctx a then ([AClose], inr ExitCtx)
    else match an_open a with
         | Cancelled => ([AOpen Cancelled], inr ExitCtx)
         | OpenFailed e =>
             if ge_already_open e then
               ([AOpen (OpenFailed e)], inl (RunState (rs_attempt s) false (rs_connectedAt s)))
             else if terminal e then ([AOpen (OpenFailed e)], inr ExitTerminal)
             else retry_open s e a
         | Opened =>
             let '(t, r) := supervise (rs_attempt s) (an_now_open a) a in (AOpen Opened :: t, r)
         end
  else supervise (rs_attempt s) (rs_connectedAt s) a.

(** The loop over the rounds' answers: its trace, and how it returned ([None]
    while it still runs). *)
Fixpoint run_loop (s : run_state) (rounds : list answers) : list action * option run_exit :=
  match rounds with
  | [] => ([], None)
  | a :: rounds' =>
      match run_round s a with
      | (t, inl s') => let '(t', r) := run_loop s' rounds' in (t ++ t', r)
      | (t, inr x) => (t, Some x)
      end
  end.

(** [zero] is the instant of the zero [time.Time] connectedAt starts from. *)
Definition Run (zero : Z) (rounds : list answers) : list action * option run_exit :=
  run_loop (RunState 0 true zero) rounds.

(** ** Construction *)

(** New: the token must be more than blanks; a handler and a logger must be
    there; [session]: discordgo built a session. *)
Definition NewAdapter (token : string) (handler logger session : bool) : result string unit :=
  if empty (TrimSpace token) then Err "empty bot token"%string
  else if negb handler then Err "nil message handler"%string
  else if negb logger then Err "nil logger"%string
  else if negb session then Err "session construction failed"%string
  else Ok tt.

(** The credential of a token file, [None] if it cannot be read. *)
Definition ReadToken (file : option string) : result string string :=
  match file with
  | None => Err "read token file"
  | Some data =>
      let token := TrimSpace data in
      if empty token then Err "token file is empty" else Ok token
  end%string.

(** ** What a trace must look like *)

(** No open follows another without a full backoff or a connection that lived
    for healthyReset in between; [gap] says whether one has passed since the
    last open. *)
Fixpoint paced (gap : bool) (trace : list action) : Prop :=
  match trace with
  | [] => True
  | AOpen _ :: t => gap = true ∧ paced false t
  | ASleep d :: t => backoffBase ≤ d ≤ backoffCap + backoffCap / 4 ∧ paced true t
  | AWait age :: t => paced (gap || Z.leb healthyReset age) t
  | _ :: t => paced gap t
  end.

(** A terminal refusal is the last thing that happens, and a refused resume is
    followed by a session rebuild. *)
Fixpoint heeds (trace : list action) (exit : option run_exit) : Prop :=
  match trace with
  | [] => True
  | AOpen (OpenFailed e) :: t =>
      (ge_already_open e = false →
        if terminal e then t = [] ∧ exit = Some ExitTerminal
        else staleSession e = true → ∃ t', t = AReset :: t')
      ∧ heeds t exit
  | _ :: t => heeds t exit
  end.

(** Whether the gateway connection may be live after a trace: opening makes it
    so, an open that answers "already open" shows it is, and any other answer
    shows there is none; a cancelled open leaves the reaper to close it. *)
Definition live_step (live : bool) (x : action) : bool :=
  match x with
  | AOpen Opened => true
  | AOpen Cancelled => false
  | AOpen (OpenFailed e) => ge_already_open e
  | AClose => false
  | _ => live
  end.
Definition live_after (live : bool) (trace : list action) : bool := foldl live_step live trace.

(** ** Lemmas *)

Lemma backoff_bounds attempt : 0 ≤ attempt → backoffBase ≤ backoff attempt ≤ backoffCap.
Proof.
  intros H. unfold backoff. destruct (Z.ltb_spec attempt 6); [|unfold backoffBase, backoffCap, second; lia].
  assert (attempt = 0 ∨ attempt = 1 ∨ attempt = 2 ∨ attempt = 3 ∨ attempt = 4 ∨ attempt = 5)
    as [->|[->|[->|[->|[->| ->]]]]] by lia; vm_compute; split; discriminate.
Qed.

Lemma backoffDelay_bounds attempt jitter :
  0 ≤ attempt → backoff attempt ≤ backoffDelay attempt jitter ≤ backoff attempt + backoff attempt / 4.
Proof.
  intros H. unfold backoffDelay. pose proof (backoff_bounds attempt H) as Hb.
  set (d := backoff attempt) in *. unfold backoffBase, backoffCap, second in Hb.
  rewrite Z.quot_div_nonneg by lia.
  assert (0 ≤ d / 4 ≤ d) by (Z.to_euclidean_division_equations; lia).
  pose proof (Z.mod_pos_bound jitter (d / 4 + 1)).
  rewrite wrap64_id; [lia|]. unfold in_int64, int64_min, int64_max. lia.
Qed.

Lemma delay_in_range attempt jitter :
  0 ≤ attempt → backoffBase ≤ backoffDelay attempt jitter ≤ backoffCap + backoffCap / 4.
Proof.
  intros H. pose proof (backoffDelay_bounds attempt jitter H). pose proof (backoff_bounds attempt H).
  assert (backoff attempt / 4 ≤ backoffCap / 4) by (apply Z.div_le_mono; lia). lia.
Qed.

Definition ready (s : run_state) (gap : bool) : Prop :=
  0 ≤ rs_attempt s ∧ (rs_needOpen s = true → gap = true).

Ltac trace_simpl := unfold live_after; cbn [app paced heeds foldl live_step].

Lemma supervise_ok attempt connectedAt a gap exit :
  0 ≤ attempt →
  match supervise attempt connectedAt a with
  | (t, inl s') => (∃ gap', ready s' gap' ∧ ∀ rest, paced gap' rest → paced gap (t ++ rest))
      ∧ ∀ rest, heeds rest exit → heeds (t ++ rest) exit
  | (t, inr x) => paced gap t ∧ heeds t (Some x) ∧ x = ExitCtx ∧ ∀ live, live_after live t = false
  end.
Proof.
  intros Ha. unfold supervise. destruct (an_dropped a); cbn [negb]; [|done].
  destruct (Z.leb_spec healthyReset (time_sub (an_now_drop a) connectedAt)) as [Hh|Hh].
  - split; [exists true; split; [by split|]|done]. intros rest. cbn [app paced].
    rewrite (proj2 (Z.leb_le _ _)) by done. by rewrite orb_true_r.
  - pose proof (delay_in_range attempt (an_jitter a) Ha). destruct (an_slept a).
    + split; [exists true; split; [split; simpl; [lia|done]|done]|done].
    + trace_simpl. split_and!; done || lia.
Qed.

Lemma retry_open_ok s e a exit :
  0 ≤ rs_attempt s → ge_already_open e = false → terminal e = false →
  match retry_open s e a with
  | (t, inl s') => (∃ gap', ready s' gap' ∧ ∀ rest, paced gap' rest → paced true (t ++ rest))
      ∧ ∀ rest, heeds rest exit → heeds (t ++ rest) exit
  | (t, inr x) => paced true t ∧ heeds t (Some x) ∧ (x = ExitCtx ∨ x = ExitReset)
      ∧ ∀ live, live_after live t = false
  end.
Proof.
  intros Ha Hopen Hterm. unfold retry_open.
  pose proof (delay_in_range (rs_attempt s) (an_jitter a) Ha).
  set (d := backoffDelay _ _) in *.
  assert (Hgo : ∀ t : list action, (t = [] ∧ staleSession e = false) ∨ t = [AReset] →
    (∀ rest, paced true rest → paced true ((AOpen (OpenFailed e) :: t ++ [ASleep d]) ++ rest))
    ∧ (∀ rest exit, heeds rest exit → heeds ((AOpen (OpenFailed e) :: t ++ [ASleep d]) ++ rest) exit)
    ∧ ∀ live, live_after live (AOpen (OpenFailed e) :: t ++ [ASleep d]) = false).
  { intros t [[-> Hs] | ->]; (split; [|split]).
    - intros rest Hp. by trace_simpl.
    - intros rest exit' Hh. trace_simpl. rewrite Hterm. split; [congruence|done].
    - intros live. by trace_simpl.
    - intros rest Hp. by trace_simpl.
    - intros rest exit' Hh. trace_simpl. rewrite Hterm. split; [by eauto|done].
    - intros live. by trace_simpl. }
  assert (Hr : ready (RunState (rs_attempt s + 1) true (rs_connectedAt s)) true) by (split; simpl; [lia|done]).
  assert (Hdone : ∀ t : list action, (t = [] ∧ staleSession e = false) ∨ t = [AReset] →
    if an_slept a
    then (∃ gap', ready (RunState (rs_attempt s + 1) true (rs_connectedAt s)) gap'
           ∧ ∀ rest, paced gap' rest → paced true ((AOpen (OpenFailed e) :: t ++ [ASleep d]) ++ rest))
         ∧ ∀ rest, heeds rest exit → heeds ((AOpen (OpenFailed e) :: t ++ [ASleep d]) ++ rest) exit
    else paced true (AOpen (OpenFailed e) :: t ++ [ASleep d])
         ∧ heeds (AOpen (OpenFailed e) :: t ++ [ASleep d]) (Some ExitCtx)
         ∧ ∀ live, live_after live (AOpen (OpenFailed e) :: t ++ [ASleep d]) = false).
  { intros t Ht. destruct (Hgo t Ht) as (Hp & Hh & Hl). destruct (an_slept a); [by eauto|].
    specialize (Hp [] I). specialize (Hh [] (Some ExitCtx) I). rewrite app_nil_r in *. done. }
  destruct (staleSession e) eqn:Hs; cbn [andb].
  - destruct (an_reset a); cbn [negb].
    + specialize (Hdone [AReset] (or_intror eq_refl)).
      destruct (an_slept a); [done|]. destruct Hdone as (? & ? & ?). split_and!; auto.
    + trace_simpl. rewrite Hterm. split_and!; eauto.
  - specialize (Hdone [] (or_introl (conj eq_refl eq_refl))).
    destruct (an_slept a); [done|]. destruct Hdone as (? & ? & ?). split_and!; auto.
Qed.

Lemma run_round_ok s a gap exit :
  ready s gap →
  match run_round s a with
  | (t, inl s') => (∃ gap', ready s' gap' ∧ ∀ rest, paced gap' rest → paced gap (t ++ rest))
      ∧ ∀ rest, heeds rest exit → heeds (t ++ rest) exit
  | (t, inr x) => paced gap t ∧ heeds t (Some x)
      ∧ (x = ExitTerminal → ∃ e, t = [AOpen (OpenFailed e)] ∧ terminal e = true)
      ∧ ∀ live, live_after live t = false
  end.
Proof.
  intros [Ha Hg]. unfold run_round. destruct (rs_needOpen s) eqn:Hn.
  - rewrite (Hg eq_refl). destruct (an_ctx a); [done|].
    destruct (an_open a) as [| |e]; [done| |].
    + pose proof (supervise_ok (rs_attempt s) (an_now_open a) a false exit Ha) as H.
      destruct (supervise _ _ _) as [t [s'|x]].
      * destruct H as [(gap' & Hr & Hp) Hh]. split; [exists gap'; split; [done|]|done].
        intros rest Hrest. cbn. eauto.
      * destruct H as (Hp & Hh & -> & Hl). cbn. split_and!; done.
    + destruct (ge_already_open e) eqn:Ho.
      * split; [exists false; split; [by split|by intros rest; cbn]|]. intros rest Hrest. cbn.
        split; [congruence|done].
      * destruct (terminal e) eqn:Ht.
        { cbn. rewrite Ht, Ho. split_and!; eauto. }
        pose proof (retry_open_ok s e a exit Ha Ho Ht) as H.
        destruct (retry_open _ _ _) as [t [s'|x]]; [done|].
        destruct H as (Hp & Hh & Hx & Hl). split_and!; try done. destruct Hx; congruence.
  - pose proof (supervise_ok (rs_attempt s) (rs_connectedAt s) a gap exit Ha) as H.
    destruct (supervise _ _ _) as [t [s'|x]]; [done|].
    destruct H as (Hp & Hh & -> & Hl). by split_and!.
Qed.

Lemma live_after_app live t t' : live_after live (t ++ t') = live_after (live_after live t) t'.
Proof. apply foldl_app. Qed.

Lemma run_loop_ok rounds : ∀ s gap,
  ready s gap →
  let '(trace, exit) := run_loop s rounds in
  paced gap trace ∧ heeds trace exit
  ∧ (exit = Some ExitTerminal → ∃ t e, trace = t ++ [AOpen (OpenFailed e)] ∧ terminal e = true)
  ∧ (exit ≠ None → ∀ live, live_after live trace = false).
Proof.
  induction rounds as [|a rounds IH]; intros s gap Hr; [done|]. cbn [run_loop].
  destruct (run_round s a) as [t [s'|x]] eqn:Hround.
  - destruct (run_loop s' rounds) as [t' exit] eqn:Hl.
    pose proof (run_round_ok s a gap exit Hr) as H. rewrite Hround in H.
    destruct H as [(gap' & Hr' & Hp) Hh]. specialize (IH s' gap' Hr'). rewrite Hl in IH.
    destruct IH as (Hp' & Hh' & Ht & Hlive). split_and!; [by apply Hp|by apply Hh| |].
    + intros Hx. destruct (Ht Hx) as (t1 & e & -> & He). exists (t ++ t1), e. by rewrite app_assoc.
    + intros Hx live. rewrite live_after_app. by apply Hlive.
  - pose proof (run_round_ok s a gap None Hr) as H. rewrite Hround in H.
    destruct H as (Hp & Hh & Ht & Hl). split_and!; try done.
    intros [= ->]. destruct (Ht eq_refl) as (e & -> & He). by exists [], e.
Qed.

(** A round that finds the context ended. *)
Definition cancelled (a : answers) : Prop := an_ctx a = true.

Lemma run_loop_cancelled s a b rounds :
  cancelled a → cancelled b →
  ∃ x, (run_loop s (a :: b :: rounds)).2 = Some x
    ∧ ∀ r, AOpen r ∉ (run_loop s (a :: b :: rounds)).1.
Proof.
  unfold cancelled. intros Ha Hb. cbn [run_loop]. unfold run_round.
  assert (Hno : ∀ t : list action, Forall (λ x, match x with AOpen _ => False | _ => True end) t →
    ∀ r, AOpen r ∉ t).
  { intros t Ht r Hin. rewrite Forall_forall in Ht. by apply Ht in Hin. }
  destruct (rs_needOpen s).
  - rewrite Ha. exists ExitCtx. split; [done|apply Hno; by repeat constructor].
  - unfold supervise. destruct (an_dropped a); cbn [negb];
      [|exists ExitCtx; split; [done|apply Hno; by repeat constructor]].
    destruct (Z.leb _ _); [|destruct (an_slept a)]; cbn [rs_needOpen]; rewrite ?Hb;
      (exists ExitCtx; split; [done|apply Hno; by repeat constructor]).
Qed.

(** ** The subscription boundary *)

Section boundary.
(** discordgo's state cache: the cached channel of an id, and the state with
    one more; [fetch] is the REST call. *)
Context {state channel : Type}.
Context (Channel : state → string → option channel) (ChannelAdd : state → channel → option state).
Context (is_dm is_thread : channel → bool) (fetch : string → option channel).

(** A session: its state unless nil, and the bot's own user id if known. *)
Record session : Type := Session {
  s_State : option state;
  s_User : option string;
}.

Definition add_channel (s : session) (ch : channel) : session :=
  match s_State s with
  | Some st => match ChannelAdd st ch with
               | Some st' => Session (Some st') (s_User s)
               | None => s
               end
  | None => s
  end.

(** The verdict, the session after it, and the channels fetched. *)
Definition isDirectMessage (s : session) (id : string) : bool * session * list string :=
  match s_State s with
  | None => (false, s, [])
  | Some st =>
      match Channel st id with
      | Some ch => (is_dm ch, s, [])
      | None =>
          match fetch id with
          | None => (false, s, [id])
          | Some ch => (is_dm ch, add_channel s ch, [id])
          end
      end
  end.

Definition isThread (s : session) (id : string) : bool :=
  match s_State s with
  | None => false
  | Some st => match Channel st id with Some ch => is_thread ch | None => false end
  end.

(** [m.Author.ID == s.State.User.ID], every pointer checked. *)
Definition own_message (s : session) (m : Message) : bool :=
  match m_Author m, s_State s, s_User s with
  | Some a, Some _, Some u => String.eqb a u
  | _, _, _ => false
  end.

(** The filters of onMessageCreate, before the drain gate. *)
Definition admits (s : session) (m : Message) : bool * session * list string :=
  if own_message s m then (false, s, [])
  else if negb (empty (m_GuildID m)) then (isThread s (m_ChannelID m), s, [])
  else isDirectMessage s (m_ChannelID m).

(** What the platform says a channel is: the cache's word, else the fetch's. *)
Definition classified (s : session) (id : string) : option channel :=
  match s_State s with
  | None => None
  | Some st => match Channel st id with Some ch => Some ch | None => fetch id end
  end.

Lemma isDirectMessage_spec s id :
  (isDirectMessage s id).1.1 = match classified s id with Some ch => is_dm ch | None => false end
  ∧ (length (isDirectMessage s id).2 ≤ 1)%nat
  ∧ (∀ st ch, s_State s = Some st → Channel st id = Some ch → isDirectMessage s id = (is_dm ch, s, [])).
Proof.
  unfold isDirectMessage, classified. destruct (s_State s) as [st|]; [|by split_and!; simpl; auto].
  destruct (Channel st id) as [ch|] eqn:Hc.
  - split_and!; simpl; auto. intros st' ch' [= <-]. congruence.
  - destruct (fetch id); split_and!; simpl; auto; congruence.
Qed.

(** Where an admitted message may come from. *)
Lemma admits_true s m s' ids :
  admits s m = (true, s', ids) →
  own_message s m = false
  ∧ (m_GuildID m ≠ ""%string → ids = [] ∧ s' = s ∧ ∃ st ch, s_State s = Some st
       ∧ Channel st (m_ChannelID m) = Some ch ∧ is_thread ch = true)
  ∧ (m_GuildID m = ""%string → ∃ ch, classified s (m_ChannelID m) = Some ch ∧ is_dm ch = true).
Proof.
  unfold admits. destruct (own_message s m); [done|]. unfold empty. case_bool_decide as Hg; cbn [negb].
  - intros H. split_and!; [done|done|]. intros _.
    destruct (isDirectMessage_spec s (m_ChannelID m)) as (H1 & _). rewrite H in H1. simpl in H1.
    destruct (classified s _) as [ch|]; [eauto|done].
  - intros H. injection H as Ht <- <-. split_and!; [done| |done]. intros _. unfold isThread in Ht.
    destruct (s_State s) as [st|] eqn:Hst; [|done].
    destruct (Channel st _) as [ch|] eqn:Hch; [|done]. split_and!; eauto.
Qed.
End boundary.
Arguments Session {state}.

(** ** The handler gate *)

Record gate : Type := Gate {
  g_draining : bool;
  g_handlers : nat;             (* the WaitGroup's counter *)
  g_running : gset nat;         (* dispatches between Add and Done *)
  g_returned : bool;            (* Run's deferred wait is over *)
}.

Definition gate0 : gate := Gate false 0 ∅ false.

(** onMessageCreate past its filters: under the gate, drop or register. *)
Definition dispatch_start (pid : nat) (g : gate) : option gate :=
  if decide (pid ∈ g_running g) then None
  else if g_draining g then Some g
  else Some (Gate false (S (g_handlers g)) ({[pid]} ∪ g_running g) (g_returned g)).

(** The deferred Done. *)
Definition dispatch_done (pid : nat) (g : gate) : option gate :=
  if decide (pid ∈ g_running g)
  then Some (Gate (g_draining g) (pred (g_handlers g)) (g_running g ∖ {[pid]}) (g_returned g))
  else None.

(** Run's deferred function: set the flag, then wait for the counter. *)
Definition run_drain (g : gate) : option gate :=
  Some (Gate true (g_handlers g) (g_running g) (g_returned g)).
Definition run_return (g : gate) : option gate :=
  if g_draining g && Nat.eqb (g_handlers g) 0
  then Some (Gate true (g_handlers g) (g_running g) true) else None.

Inductive gstep (g : gate) : gate → Prop :=
| gs_start pid g' : dispatch_start pid g = Some g' → gstep g g'
| gs_done pid g' : dispatch_done pid g = Some g' → gstep g g'
| gs_drain g' : run_drain g = Some g' → gstep g g'
| gs_return g' : run_return g = Some g' → gstep g g'.

Record gate_ok (g : gate) : Prop := GateOk {
  go_count : g_handlers g = size (g_running g);
  go_returned : g_returned g = true → g_draining g = true ∧ g_running g = ∅;
}.

Lemma gstep_ok g g' :
  gate_ok g → gstep g g' → gate_ok g' ∧ (g_returned g = true → g_returned g' = true).
Proof.
  intros [Hc Hr] [pid x H|pid x H|x H|x H]; revert H; unfold dispatch_start, dispatch_done, run_drain, run_return.
  - case_decide as Hin; [done|]. destruct (g_draining g) eqn:Hd; intros [= <-].
    { split; [split; [done|]|done]. intros Hret. by rewrite Hd; apply Hr. }
    split; [|done]. split; simpl.
    + rewrite size_union by set_solver. rewrite size_singleton. lia.
    + intros Hret. destruct (Hr Hret). congruence.
  - case_decide as Hin; [|done]. intros [= <-]. split; [|done]. split; simpl.
    + rewrite size_difference by set_solver. rewrite size_singleton. lia.
    + intros Hret. destruct (Hr Hret) as [Hd He]. split; [done|]. set_solver.
  - intros [= <-]. split; [|done]. split; [done|]. simpl. intros Hret. split; [done|]. by apply Hr.
  - destruct (g_draining g && _) eqn:Hb; [|done]. intros [= <-]. split; [|done]. split; [done|].
    simpl. intros _. split; [done|]. apply andb_true_iff in Hb as [_ Hz%Nat.eqb_eq].
    apply leibniz_equiv, size_empty_inv. lia.
Qed.

Lemma greach_ok g g' :
  gate_ok g → rtc gstep g g' → gate_ok g' ∧ (g_returned g = true → g_returned g' = true).
Proof.
  intros Hg Hs. induction Hs as [g|g g1 g2 H _ IH]; [done|].
  destruct (gstep_ok _ _ Hg H) as [Hg1 Hr1]. destruct (IH Hg1) as [Hg2 Hr2]. auto.
Qed.

(** ** Properties *)


(** C27: the subscription boundary fails closed.  A message reaches the
    normalizer only if it is not the bot's own and comes from a channel the
    cache (or, for a private channel, one fetch) classifies as a 1:1 DM or a
    guild thread, so an event's thread key names a private conversation only
    for a channel that is one, and a guild thread only for a cached thread.  A
    channel nobody can classify is dropped. *)
Theorem boundary_fails_closed {state channel} (Channel : state → string → option channel)
    ChannelAdd is_dm is_thread fetch s m :
  let '(ok, _, fetched) := admits Channel ChannelAdd is_dm is_thread fetch s m in
  (length fetched ≤ 1)%nat
  ∧ (ok = true → ∀ e author, m_Author m = Some author → Normalize (Some m) = Ok e →
      s_User s ≠ Some author
      ∧ match place_of m author with
        | DM user => user = author ∧ e_ThreadKey e = place_key (DM author)
            ∧ ∃ ch, classified Channel fetch s (m_ChannelID m) = Some ch ∧ is_dm ch = true
        | Thread c => c = m_ChannelID m ∧ e_ThreadKey e = place_key (Thread c)
            ∧ ∃ st ch, s_State s = Some st ∧ Channel st c = Some ch ∧ is_thread ch = true
        end)
  ∧ (classified Channel fetch s (m_ChannelID m) = None → ok = false).
Proof.
  destruct (admits _ _ _ _ _ s m) as [[ok s'] fetched] eqn:Hadm. split_and!.
  - revert Hadm. unfold admits. destruct (own_message s m); [intros; simplify_eq; simpl; lia|].
    destruct (negb _); [intros; simplify_eq; simpl; lia|].
    destruct (isDirectMessage_spec Channel ChannelAdd is_dm fetch s (m_ChannelID m)) as (_ & Hl & _).
    by intros Heq; rewrite Heq in Hl.
  - intros -> e author Ha (a' & (Ha' & _) & ->)%Normalize_Ok. simplify_eq.
    apply admits_true in Hadm as (Hown & Hguild & Hdm). cbn [e_ThreadKey event_of]. split.
    + intros Hu. unfold own_message in Hown. rewrite Ha, Hu in Hown.
      destruct (s_State s) eqn:Hst; [by rewrite String.eqb_refl in Hown|].
      unfold place_of, empty in *. destruct (decide (m_GuildID m = ""%string)) as [Hg|Hg].
      * destruct (Hdm Hg) as (ch & Hc & _). unfold classified in Hc. by rewrite Hst in Hc.
      * destruct (Hguild Hg) as (_ & _ & st & ? & ? & _). congruence.
    + unfold place_of, empty. case_bool_decide as Hg; [by auto|].
      destruct (Hguild Hg) as (_ & _ & st & ch & ? & ? & ?). split_and!; eauto.
  - intros Hc. destruct ok; [|done]. apply admits_true in Hadm as (_ & Hguild & Hdm).
    destruct (decide (m_GuildID m = ""%string)) as [Hg|Hg].
    + destruct (Hdm Hg) as (ch & ? & _). congruence.
    + destruct (Hguild Hg) as (_ & _ & st & ch & Hst & Hch & _).
      unfold classified in Hc. by rewrite Hst, Hch in Hc.
Qed.

(** No handler outlives Run.  In every interleaving of dispatches with
    Run's exit, once Run has returned no handler is running and none will ever
    start, so the store may be closed. *)
Theorem no_handler_outlives_Run g g' :
  rtc gstep gate0 g → g_returned g = true → rtc gstep g g' →
  g_running g = ∅ ∧ g_running g' = ∅.
Proof.
  intros Hg Hret Hg'.
  destruct (greach_ok gate0 g) as [Hok _]; [by split|done|].
  destruct (greach_ok g g' Hok Hg') as [Hok' Hr'].
  split; [by apply Hok|]. by apply Hok', Hr'.
Qed.

Lemma no_handler_outlives_Run_witness :
  g_running (Gate true 0 ∅ true) = ∅ ∧ g_running (Gate true 0 ∅ true) = ∅.
Proof.
  apply (no_handler_outlives_Run (Gate true 0 ∅ true)); [|done|done].
  eapply rtc_l; [by apply (gs_start _ 7 (Gate false 1 {[7%nat]} false))|].
  eapply rtc_l; [by apply (gs_drain _ (Gate true 1 {[7%nat]} false))|].
  eapply rtc_l; [apply (gs_done _ 7 (Gate true 0 ∅ false)); by vm_compute|].
  eapply rtc_l; [by apply (gs_return _ (Gate true 0 ∅ true))|]. done.
Defined.
