(* ===== verification/Supervise.v ===== *)
(** * The supervised connection (src/internal/adapter/discord/discord.go, New to close)

    [Gateway.Run] is the reconnect loop as a function of what the world answers.
    Here its calls take time: the handshake runs in a goroutine of its own, a
    reaper waits for one that was abandoned, discordgo drops the connection and
    repeats its Disconnects when it likes, and handlers are under way.  Run is
    one goroutine among these, and what it does is still a trace of
    [Gateway.Run]. *)
From S2P Require Import Prelude Utf8 Gateway.
Local Open Scope Z_scope.

(** ** The library *)

(** What AddHandler is given. *)
Inductive dg_handler : Type := HMessageCreate | HConnect | HDisconnect.

(** A discordgo.Session: the fields the adapter touches, and its socket. *)
Record dsession (S : Type) : Type := DSession {
  ds_Token : string;
  ds_Intents : Z;
  ds_ShouldReconnectOnError : bool;
  ds_SyncEvents : bool;
  ds_Handlers : list dg_handler;
  ds_sock : S;
}.
Arguments DSession {S}.
Arguments ds_Token {S}. Arguments ds_Intents {S}. Arguments ds_ShouldReconnectOnError {S}.
Arguments ds_SyncEvents {S}. Arguments ds_Handlers {S}. Arguments ds_sock {S}.

(** What the adapter uses of discordgo.  A choice stands for whatever the
    library and the network decide; Close and the library's own goroutines also
    say how many Disconnect events they emit. *)
Class discordgo (S : Type) : Type := Discordgo {
  dg_choice : Type;
  IntentsDirectMessages : Z;
  IntentsGuildMessages : Z;
  IntentsMessageContent : Z;
  IntentsGuilds : Z;
  dg_New : dg_choice → string → option (dsession S);
  dg_Open : dg_choice → S → option gw_err * S;
  dg_Close : dg_choice → S → S * nat;
  dg_moves : dg_choice → S → S * nat;
}.

(** What discord.go relies on: a fresh session keeps the token, has no handler
    and is down; Open on a live session answers "already open" and leaves it
    alone, and otherwise opens it or not; Close leaves it down; nobody but Open
    brings a session up; and whoever takes it down emits a Disconnect. *)
Class discordgoOk (S : Type) `{discordgo S} : Type := DiscordgoOk {
  dg_live : S → bool;
  dg_some : dg_choice;
  New_ok c token d : dg_New c token = Some d →
    ds_Token d = token ∧ ds_Handlers d = [] ∧ dg_live (ds_sock d) = false;
  Open_live c k : dg_live k = true → ∃ e, dg_Open c k = (Some e, k) ∧ ge_already_open e = true;
  Open_down c k : dg_live k = false →
    match dg_Open c k with
    | (None, k') => dg_live k' = true
    | (Some e, k') => ge_already_open e = false ∧ dg_live k' = false
    end;
  Close_down c k : dg_live (dg_Close c k).1 = false;
  moves_down c k : dg_live k = false → dg_live (dg_moves c k).1 = false;
  moves_emit c k : dg_live k = true → dg_live (dg_moves c k).1 = false → (0 < (dg_moves c k).2)%nat;
}.

(** ** State *)

(** The goroutine openCancellable starts: [Dialed] has its result in done. *)
Inductive opener_at : Type := NoOpener | Dialing | Dialed (r : option gw_err).

(** The reaper it leaves behind on a cancellation. *)
Inductive reaper_at : Type := NoReaper | Reaping | Closing | Reaped.

(** Run: at the loop's head, in openCancellable's select, in the select on the
    connection, asleep (closing the session if the sleep is cancelled), in its
    deferred function before and after the flag is set, gone. *)
Inductive run_at : Type :=
| Head (s : run_state)
| Opening (s : run_state)
| Watching (attempt connectedAt : Z)
| Sleeping (s : run_state) (closing : bool)
| Leaving (x : run_exit)
| Joining (x : run_exit)
| Returned (x : run_exit).

Section supervise.
Context {S : Type} `{discordgo S}.

(** The session, the ones it replaced, the Disconnects on their way to their
    handlers, and the buffer of a.disconnected. *)
Record link : Type := Link {
  lk_session : dsession S;
  lk_old : list (dsession S);
  lk_emits : nat;
  lk_disconnected : bool;
}.

Record adapter : Type := Adapter {
  ad_link : link;
  ad_gate : gate;
  ad_opener : opener_at;
  ad_reaper : reaper_at;
  ad_run : run_at;
  ad_ctx : bool;             (* the context is done *)
  ad_trace : list action;    (* what Run has done *)
}.

(** ** Sessions *)

Definition intents : Z :=
  Z.lor (Z.lor (Z.lor IntentsDirectMessages IntentsGuildMessages) IntentsMessageContent) IntentsGuilds.

(** adopt, on the session it is given. *)
Definition adopt (d : dsession S) : dsession S :=
  DSession (ds_Token d) intents false true
    (ds_Handlers d ++ [HMessageCreate; HConnect; HDisconnect]) (ds_sock d).

Definition with_sock (k : S) (d : dsession S) : dsession S :=
  DSession (ds_Token d) (ds_Intents d) (ds_ShouldReconnectOnError d) (ds_SyncEvents d) (ds_Handlers d) k.

(** New: the arguments, the session, the seams. *)
Definition New (c : dg_choice) (token : string) (handler logger : bool) (zero : Z) : result string adapter :=
  let session := dg_New c ("Bot " +:+ token) in
  match NewAdapter token handler logger (bool_decide (is_Some session)), session with
  | Err e, _ => Err e
  | Ok _, None => Err "session construction failed"%string
  | Ok _, Some d =>
      Ok (Adapter (Link (adopt d) [] 0 false) gate0 NoOpener NoReaper (Head (RunState 0 true zero)) false [])
  end.

(** resetSession: a new session on the old one's token. *)
Definition resetSession (c : dg_choice) (l : link) : option link :=
  d ← dg_New c (ds_Token (lk_session l));
  Some (Link (adopt d) (lk_session l :: lk_old l) (lk_emits l) (lk_disconnected l)).

(** a.close. *)
Definition close (c : dg_choice) (l : link) : link :=
  let '(k, n) := dg_Close c (ds_sock (lk_session l)) in
  Link (with_sock k (lk_session l)) (lk_old l) (lk_emits l + n) (lk_disconnected l).

Definition open (c : dg_choice) (l : link) : option gw_err * link :=
  let '(r, k) := dg_Open c (ds_sock (lk_session l)) in
  (r, Link (with_sock k (lk_session l)) (lk_old l) (lk_emits l) (lk_disconnected l)).

(** ** Run *)

Definition at_run (r : run_at) (t : list action) (l : link) (a : adapter) : adapter :=
  Adapter l (ad_gate a) (ad_opener a) (ad_reaper a) r (ad_ctx a) (ad_trace a ++ t).

(** The loop's head, up to the goroutine that opens. *)
Definition loop_head (c : dg_choice) (a : adapter) : option adapter :=
  match ad_run a with
  | Head s =>
      if rs_needOpen s then
        if ad_ctx a then Some (at_run (Leaving ExitCtx) [AClose] (close c (ad_link a)) a)
        else Some (Adapter (ad_link a) (ad_gate a) Dialing (ad_reaper a) (Opening s) (ad_ctx a) (ad_trace a))
      else Some (at_run (Watching (rs_attempt s) (rs_connectedAt s)) [] (ad_link a) a)
  | _ => None
  end.

(** openCancellable received the result; what the loop makes of it. *)
Definition open_done (c : dg_choice) (now jitter : Z) (a : adapter) : option adapter :=
  match ad_run a, ad_opener a with
  | Opening s, Dialed r =>
      let a := Adapter (ad_link a) (ad_gate a) NoOpener (ad_reaper a) (ad_run a) (ad_ctx a) (ad_trace a) in
      match r with
      | None => Some (at_run (Watching (rs_attempt s) now) [AOpen Opened] (ad_link a) a)
      | Some e =>
          let failed := AOpen (OpenFailed e) in
          let sleeping reset l :=
            at_run (Sleeping (RunState (rs_attempt s + 1) true (rs_connectedAt s)) false)
              (failed :: reset ++ [ASleep (backoffDelay (rs_attempt s) jitter)]) l a in
          Some (if ge_already_open e then
                  at_run (Head (RunState (rs_attempt s) false (rs_connectedAt s))) [failed] (ad_link a) a
                else if terminal e then at_run (Leaving ExitTerminal) [failed] (ad_link a) a
                else if staleSession e then
                  match resetSession c (ad_link a) with
                  | None => at_run (Leaving ExitReset) [failed; AReset] (ad_link a) a
                  | Some l => sleeping [AReset] l
                  end
                else sleeping [] (ad_link a))
      end
  | _, _ => None
  end.

(** openCancellable saw the context first: the call is left to the reaper. *)
Definition open_cancelled (a : adapter) : option adapter :=
  match ad_run a with
  | Opening s =>
      if ad_ctx a then
        Some (Adapter (ad_link a) (ad_gate a) (ad_opener a) Reaping (Leaving ExitCtx) (ad_ctx a)
                (ad_trace a ++ [AOpen Cancelled]))
      else None
  | _ => None
  end.

(** The select on the connection: the context, or a Disconnect. *)
Definition watch_ctx (c : dg_choice) (a : adapter) : option adapter :=
  match ad_run a with
  | Watching _ _ =>
      if ad_ctx a then Some (at_run (Leaving ExitCtx) [AClose] (close c (ad_link a)) a) else None
  | _ => None
  end.
Definition watch_drop (now jitter : Z) (a : adapter) : option adapter :=
  match ad_run a with
  | Watching attempt connectedAt =>
      if lk_disconnected (ad_link a) then
        let l := Link (lk_session (ad_link a)) (lk_old (ad_link a)) (lk_emits (ad_link a)) false in
        let age := time_sub now connectedAt in
        Some (if Z.leb healthyReset age then at_run (Head (RunState 0 true connectedAt)) [AWait age] l a
              else at_run (Sleeping (RunState (attempt + 1) true connectedAt) true)
                     [AWait age; ASleep (backoffDelay attempt jitter)] l a)
      else None
  | _ => None
  end.

(** a.sleep: to its end, or cancelled. *)
Definition sleep_over (a : adapter) : option adapter :=
  match ad_run a with
  | Sleeping s _ => Some (at_run (Head s) [] (ad_link a) a)
  | _ => None
  end.
Definition sleep_cancelled (c : dg_choice) (a : adapter) : option adapter :=
  match ad_run a with
  | Sleeping _ closing =>
      if ad_ctx a then
        Some (if closing then at_run (Leaving ExitCtx) [AClose] (close c (ad_link a)) a
              else at_run (Leaving ExitCtx) [] (ad_link a) a)
      else None
  | _ => None
  end.

(** The deferred function: the flag, then the wait. *)
Definition set_gate (g : gate) (r : run_at) (a : adapter) : adapter :=
  Adapter (ad_link a) g (ad_opener a) (ad_reaper a) r (ad_ctx a) (ad_trace a).
Definition leave (a : adapter) : option adapter :=
  match ad_run a with
  | Leaving x => g ← run_drain (ad_gate a); Some (set_gate g (Joining x) a)
  | _ => None
  end.
Definition join (a : adapter) : option adapter :=
  match ad_run a with
  | Joining x => g ← run_return (ad_gate a); Some (set_gate g (Returned x) a)
  | _ => None
  end.

(** ** The other goroutines *)

(** [done <- a.open()]. *)
Definition dial (c : dg_choice) (a : adapter) : option adapter :=
  match ad_opener a with
  | Dialing =>
      let '(r, l) := open c (ad_link a) in
      Some (Adapter l (ad_gate a) (Dialed r) (ad_reaper a) (ad_run a) (ad_ctx a) (ad_trace a))
  | _ => None
  end.

(** A connection nobody watches: fresh, or live all along. *)
Definition unsupervised (r : option gw_err) : bool :=
  match r with None => true | Some e => ge_already_open e end.

Definition reap (a : adapter) : option adapter :=
  match ad_reaper a, ad_opener a with
  | Reaping, Dialed r =>
      Some (Adapter (ad_link a) (ad_gate a) NoOpener (if unsupervised r then Closing else Reaped)
              (ad_run a) (ad_ctx a) (ad_trace a))
  | _, _ => None
  end.
Definition reap_close (c : dg_choice) (a : adapter) : option adapter :=
  match ad_reaper a with
  | Closing =>
      Some (Adapter (close c (ad_link a)) (ad_gate a) (ad_opener a) Reaped (ad_run a) (ad_ctx a) (ad_trace a))
  | _ => None
  end.

Definition with_link (l : link) (a : adapter) : adapter :=
  Adapter l (ad_gate a) (ad_opener a) (ad_reaper a) (ad_run a) (ad_ctx a) (ad_trace a).

(** The library's goroutines, on the session or on one it replaced. *)
Definition library (c : dg_choice) (a : adapter) : adapter :=
  let l := ad_link a in
  let '(k, n) := dg_moves c (ds_sock (lk_session l)) in
  with_link (Link (with_sock k (lk_session l)) (lk_old l) (lk_emits l + n) (lk_disconnected l)) a.
Definition library_old (c : dg_choice) (i : nat) (a : adapter) : option adapter :=
  let l := ad_link a in
  d ← lk_old l !! i;
  let '(k, n) := dg_moves c (ds_sock d) in
  Some (with_link (Link (lk_session l) (<[i := with_sock k d]> (lk_old l)) (lk_emits l + n)
                     (lk_disconnected l)) a).

(** The Disconnect handler. *)
Definition onDisconnect (a : adapter) : option adapter :=
  let l := ad_link a in
  match lk_emits l with
  | O => None
  | Datatypes.S n => Some (with_link (Link (lk_session l) (lk_old l) n true) a)
  end.

Definition cancel (a : adapter) : adapter :=
  Adapter (ad_link a) (ad_gate a) (ad_opener a) (ad_reaper a) (ad_run a) true (ad_trace a).

(** onMessageCreate at the handler gate. *)
Definition message (pid : nat) (a : adapter) : option adapter :=
  g ← dispatch_start pid (ad_gate a); Some (set_gate g (ad_run a) a).
Definition message_done (pid : nat) (a : adapter) : option adapter :=
  g ← dispatch_done pid (ad_gate a); Some (set_gate g (ad_run a) a).

Inductive run_step (a : adapter) : adapter → Prop :=
| rn_head c a' : loop_head c a = Some a' → run_step a a'
| rn_done c now jitter a' : open_done c now jitter a = Some a' → run_step a a'
| rn_cancelled a' : open_cancelled a = Some a' → run_step a a'
| rn_ctx c a' : watch_ctx c a = Some a' → run_step a a'
| rn_drop now jitter a' : watch_drop now jitter a = Some a' → run_step a a'
| rn_slept a' : sleep_over a = Some a' → run_step a a'
| rn_woken c a' : sleep_cancelled c a = Some a' → run_step a a'
| rn_leave a' : leave a = Some a' → run_step a a'
| rn_join a' : join a = Some a' → run_step a a'.

(** The opener and the reaper. *)
Inductive reap_step (a : adapter) : adapter → Prop :=
| rp_dial c a' : dial c a = Some a' → reap_step a a'
| rp_reap a' : reap a = Some a' → reap_step a a'
| rp_close c a' : reap_close c a = Some a' → reap_step a a'.

Inductive other_step (a : adapter) : adapter → Prop :=
| ot_reap a' : reap_step a a' → other_step a a'
| ot_library c : other_step a (library c a)
| ot_old c i a' : library_old c i a = Some a' → other_step a a'
| ot_disconnect a' : onDisconnect a = Some a' → other_step a a'
| ot_cancel : other_step a (cancel a)
| ot_message pid a' : message pid a = Some a' → other_step a a'
| ot_message_done pid a' : message_done pid a = Some a' → other_step a a'.

Definition ad_step (a a' : adapter) : Prop := run_step a a' ∨ other_step a a'.
End supervise.
Arguments link S : clear implicits.
Arguments adapter S : clear implicits.

(** ** Invariant *)

Section invariant.
Context {S : Type} `{discordgoOk S}.
Context (bot : string) (zero : Z).

Definition live (l : link S) : bool := dg_live (ds_sock (lk_session l)).

(** The posture adopt pins. *)
Definition pinned (d : dsession S) : Prop :=
  ds_Token d = bot ∧ ds_Intents d = intents ∧ ds_ShouldReconnectOnError d = false
  ∧ ds_SyncEvents d = true ∧ ds_Handlers d = [HMessageCreate; HConnect; HDisconnect].

(** No session but the current one is up. *)
Definition alone (l : link S) : Prop := Forall (λ d, dg_live (ds_sock d) = false) (lk_old l).

(** The connection is up, or its loss will wake Run. *)
Definition watched (l : link S) : Prop :=
  live l = true ∨ (0 < lk_emits l)%nat ∨ lk_disconnected l = true.

(** What a result in done says by the time it is read. *)
Definition answered (r : option gw_err) (l : link S) : Prop :=
  if unsupervised r then watched l else live l = false.

Definition handshake (o : opener_at) (l : link S) : Prop :=
  match o with NoOpener => False | Dialing => True | Dialed r => answered r l end.

Definition run_ok (a : adapter S) : Prop :=
  let l := ad_link a in
  let idle := ad_opener a = NoOpener ∧ ad_reaper a = NoReaper in
  match ad_run a with
  | Head s => idle ∧ (rs_needOpen s = false → watched l)
  | Opening s => ad_reaper a = NoReaper ∧ rs_needOpen s = true ∧ handshake (ad_opener a) l
  | Watching _ _ => idle ∧ watched l
  | Sleeping s closing => idle ∧ rs_needOpen s = true ∧ (closing = false → live l = false)
  | Leaving _ | Joining _ | Returned _ =>
      match ad_reaper a with
      | NoReaper | Reaped => ad_opener a = NoOpener ∧ live l = false
      | Reaping => handshake (ad_opener a) l
      | Closing => ad_opener a = NoOpener
      end
  end.

Definition gate_stage (a : adapter S) : Prop :=
  match ad_run a with
  | Joining _ => g_draining (ad_gate a) = true
  | Returned _ => g_returned (ad_gate a) = true
  | _ => True
  end.

Record adapter_ok (a : adapter S) : Prop := AdapterOk {
  ao_pinned : pinned (lk_session (ad_link a));
  ao_alone : alone (ad_link a);
  ao_run : run_ok a;
  ao_gate : gate_ok (ad_gate a);
  ao_stage : gate_stage a;
}.

(** ** Lemmas: the library's calls *)

Lemma close_ok c l :
  pinned (lk_session l) → alone l →
  pinned (lk_session (close c l)) ∧ alone (close c l) ∧ live (close c l) = false.
Proof.
  intros Hp Ha. unfold close. pose proof (Close_down c (ds_sock (lk_session l))) as Hd.
  destruct (dg_Close _ _) as [k n]. by split_and!.
Qed.

Lemma open_ok c l :
  pinned (lk_session l) → alone l →
  let '(r, l') := open c l in pinned (lk_session l') ∧ alone l' ∧ answered r l'.
Proof.
  intros Hp Ha. unfold open. destruct (dg_live (ds_sock (lk_session l))) eqn:Hl.
  - destruct (Open_live c _ Hl) as (e & -> & He). split_and!; try done.
    unfold answered. cbn. rewrite He. by left.
  - pose proof (Open_down c _ Hl) as Ho. destruct (dg_Open _ _) as [[e|] k]; split_and!; try done.
    + unfold answered. cbn. destruct Ho as [-> Ho]. done.
    + by left.
Qed.

Lemma reset_ok c l l' :
  pinned (lk_session l) → alone l → live l = false → resetSession c l = Some l' →
  pinned (lk_session l') ∧ alone l' ∧ live l' = false.
Proof.
  intros Hp Ha Hl. unfold resetSession. destruct (dg_New c _) as [d|] eqn:Hd; [|done].
  intros Heq; injection Heq as <-.
  apply New_ok in Hd as (Ht & Hh & Hn). destruct Hp as (<- & _). unfold pinned, alone, live in *. cbn.
  rewrite Hh. split_and!; auto. congruence.
Qed.

(** The library's own moves neither bring a connection up nor hide its loss. *)
Definition settles (l l' : link S) : Prop :=
  (live l = false → live l' = false) ∧ (watched l → watched l').

Lemma handshake_settles o l l' : settles l l' → handshake o l → handshake o l'.
Proof. intros [Hd Hw]. destruct o as [| |r]; cbn; try done. unfold answered. destruct (unsupervised r); auto. Qed.

Lemma run_ok_settles a l :
  settles (ad_link a) l → run_ok a → run_ok (with_link l a).
Proof.
  intros Hs. pose proof (λ o, handshake_settles o _ _ Hs) as Hh. destruct Hs as [Hd Hw].
  unfold run_ok. cbn. destruct (ad_run a); try (destruct (ad_reaper a)); naive_solver.
Qed.

Lemma library_settles c a : settles (ad_link a) (ad_link (library c a)).
Proof.
  unfold library. pose proof (moves_down c (ds_sock (lk_session (ad_link a)))) as Hd.
  pose proof (moves_emit c (ds_sock (lk_session (ad_link a)))) as He.
  destruct (dg_moves _ _) as [k n]. cbn in *. split; [done|]. unfold watched, live. cbn.
  intros [Hl|[Hn|Hs]]; [|right; left; lia|by right; right].
  destruct (dg_live k); [by left|]. right. left. specialize (He Hl eq_refl). lia.
Qed.

(** ** Lemmas: steps *)

Lemma closed_ok c a x t :
  adapter_ok a → ad_opener a = NoOpener → ad_reaper a = NoReaper →
  adapter_ok (at_run (Leaving x) t (close c (ad_link a)) a).
Proof.
  intros [Hp Ha _ Hg _] Ho Hr. destruct (close_ok c _ Hp Ha) as (? & ? & ?).
  split; try done. unfold run_ok. cbn. by rewrite Hr.
Qed.

Lemma open_done_ok c now jitter a a' : adapter_ok a → open_done c now jitter a = Some a' → adapter_ok a'.
Proof.
  intros [Hp Ha Hrun Hg _]. unfold open_done, run_ok in *. destruct (ad_run a) as [|s| | | | |]; try done.
  destruct Hrun as (Hr & _ & Hh). destruct (ad_opener a) as [| |r]; try done. unfold handshake, answered in Hh.
  destruct r as [e|]; [|intros Heq; injection Heq as <-; by split].
  cbn in Hh. intros Heq. injection Heq as <-. destruct (ge_already_open e); [by split|].
  destruct (terminal e); [split; try done; unfold run_ok; cbn; by rewrite Hr|].
  destruct (staleSession e); [|by split].
  destruct (resetSession c (ad_link a)) as [l|] eqn:Hl.
  - destruct (reset_ok c _ _ Hp Ha Hh Hl) as (? & ? & ?). by split.
  - split; try done. unfold run_ok. cbn. by rewrite Hr.
Qed.

Lemma run_step_ok a a' : adapter_ok a → run_step a a' → adapter_ok a'.
Proof.
  intros Hok Hs. pose proof Hok as [Hp Ha Hrun Hg Hst].
  destruct Hs as [c a' Hs|c now j a' Hs|a' Hs|c a' Hs|now j a' Hs|a' Hs|c a' Hs|a' Hs|a' Hs].
  - unfold loop_head, run_ok in *. destruct (ad_run a); try done. destruct Hrun as [[Ho Hr] Hw].
    destruct (rs_needOpen s) eqn:Hn; [|simplify_eq; split; try done; by split; [|apply Hw]].
    destruct (ad_ctx a); simplify_eq; [by apply closed_ok|by split].
  - by eapply open_done_ok.
  - unfold open_cancelled, run_ok in *. destruct (ad_run a); try done. destruct (ad_ctx a); simplify_eq.
    split; try done. apply Hrun.
  - unfold watch_ctx, run_ok in *. destruct (ad_run a); try done. destruct Hrun as [[Ho Hr] _].
    destruct (ad_ctx a); simplify_eq. by apply closed_ok.
  - unfold watch_drop, run_ok in *. destruct (ad_run a); try done. destruct Hrun as [Hi _].
    destruct (lk_disconnected _); [|done]. simplify_eq. destruct (Z.leb _ _); by split.
  - unfold sleep_over, run_ok in *. destruct (ad_run a); try done. destruct Hrun as (Hi & Hn & _). simplify_eq.
    split; try done. split; [done|congruence].
  - unfold sleep_cancelled, run_ok in *. destruct (ad_run a); try done. destruct Hrun as ([Ho Hr] & _ & Hl).
    destruct (ad_ctx a); [|done]. simplify_eq. destruct closing; [by apply closed_ok|].
    split; try done. unfold run_ok. cbn. rewrite Hr. auto.
  - unfold leave, run_ok in *. destruct (ad_run a); try done. cbn in Hs. simplify_eq. split; try done.
    eapply gstep_ok; [done|by apply gs_drain].
  - unfold join, run_ok in *. destruct (ad_run a); try done. destruct (run_return _) as [g|] eqn:E; [|done].
    cbn in Hs. simplify_eq. pose proof (gstep_ok _ _ Hg (gs_return _ _ E)) as [? _]. split; try done.
    unfold gate_stage. cbn. unfold run_return in E. destruct (_ && _); by simplify_eq.
Qed.

Lemma reap_step_ok a a' : adapter_ok a → reap_step a a' → adapter_ok a'.
Proof.
  intros [Hp Ha Hrun Hg Hst] [c x Hs|x Hs|c x Hs].
  - unfold dial in Hs. destruct (ad_opener a) eqn:Ho; try done. pose proof (open_ok c _ Hp Ha) as Hopen.
    destruct (open c (ad_link a)) as [r l]. destruct Hopen as (? & ? & ?). simplify_eq. split; try done.
    unfold run_ok in *. rewrite Ho in Hrun. cbn. destruct (ad_run a); destruct_and?; try done;
      destruct (ad_reaper a); destruct_and?; done.
  - unfold reap in Hs. destruct (ad_reaper a) eqn:Hr; try done. destruct (ad_opener a) as [| |r] eqn:Ho; try done.
    simplify_eq. split; try done. unfold run_ok in *. rewrite Hr, Ho in Hrun. cbn in *. unfold answered in Hrun.
    destruct (ad_run a); destruct_and?; try done; by destruct (unsupervised r).
  - unfold reap_close in Hs. destruct (ad_reaper a) eqn:Hr; try done. simplify_eq.
    destruct (close_ok c _ Hp Ha) as (? & ? & ?). split; try done. unfold run_ok in *. rewrite Hr in Hrun. cbn.
    destruct (ad_run a); destruct_and?; done.
Qed.

Lemma settled_ok a l :
  adapter_ok a → pinned (lk_session l) → alone l → settles (ad_link a) l → adapter_ok (with_link l a).
Proof. intros [Hp Ha Hrun Hg Hst] ? ? ?. split; try done. by apply run_ok_settles. Qed.

Lemma gated_ok a g : adapter_ok a → gstep (ad_gate a) g → (g_draining (ad_gate a) = true → g_draining g = true) →
  adapter_ok (set_gate g (ad_run a) a).
Proof.
  intros [Hp Ha Hrun Hg Hst] Hs Hd. destruct (gstep_ok _ _ Hg Hs) as [? Hr]. split; try done.
  unfold gate_stage in *. cbn. destruct (ad_run a); auto.
Qed.

Lemma other_step_ok a a' : adapter_ok a → other_step a a' → adapter_ok a'.
Proof.
  intros Hok [x Hs|c|c i x Hs|x Hs| |pid x Hs|pid x Hs].
  - by eapply reap_step_ok.
  - pose proof (library_settles c a) as Hl. unfold library in *. destruct (dg_moves _ _) as [k n].
    apply settled_ok; try done; apply Hok.
  - unfold library_old in Hs. destruct (lk_old (ad_link a) !! i) as [d|] eqn:Hi; [|done]. cbn in Hs.
    pose proof (moves_down c (ds_sock d)) as Hd. destruct (dg_moves _ _) as [k n]. simplify_eq.
    pose proof (ao_alone _ Hok) as Ha. apply settled_ok; [done|apply Hok| |].
    + apply Forall_insert; [done|]. apply Hd. by eapply (Forall_lookup_1 _ _ _ _ Ha).
    + split; [done|]. unfold watched. cbn. intros [?|[?|?]]; [by left|right; left; lia|by right; right].
  - unfold onDisconnect in Hs. destruct (lk_emits _); [done|]. simplify_eq.
    apply settled_ok; [done|apply Hok..|]. split; [done|]. intros _. by right; right.
  - destruct Hok. by split.
  - unfold message in Hs. destruct (dispatch_start _ _) as [g|] eqn:E; [|done]. cbn in Hs. simplify_eq.
    apply gated_ok; [done|by eapply gs_start|]. unfold dispatch_start in E. case_decide; [done|].
    destruct (g_draining _) eqn:Hd; by simplify_eq.
  - unfold message_done in Hs. destruct (dispatch_done _ _) as [g|] eqn:E; [|done]. cbn in Hs. simplify_eq.
    apply gated_ok; [done|by eapply gs_done|]. unfold dispatch_done in E. case_decide; by simplify_eq.
Qed.

Lemma ad_step_ok a a' : adapter_ok a → ad_step a a' → adapter_ok a'.
Proof. intros ? [?|?]; [by eapply run_step_ok|by eapply other_step_ok]. Qed.
End invariant.

(** ** Lemmas: Run's trace *)

(** The loop over some rounds, up to the state or the exit they lead to. *)
Fixpoint run_to (s : run_state) (rounds : list answers) : list action * (run_state + run_exit) :=
  match rounds with
  | [] => ([], inl s)
  | a :: rounds' =>
      match run_round s a with
      | (t, inl s') => let '(t', r) := run_to s' rounds' in (t ++ t', r)
      | (t, inr x) => (t, inr x)
      end
  end.

Lemma run_to_loop s rounds :
  run_loop s rounds =
  ((run_to s rounds).1, match (run_to s rounds).2 with inl _ => None | inr x => Some x end).
Proof.
  revert s. induction rounds as [|a rounds IH]; intros s; [done|]. cbn.
  destruct (run_round s a) as [t [s'|x]]; [|done]. rewrite IH. by destruct (run_to s' rounds).
Qed.

Lemma run_to_snoc s rounds t s' a :
  run_to s rounds = (t, inl s') → run_to s (rounds ++ [a]) = (t ++ (run_round s' a).1, (run_round s' a).2).
Proof.
  revert s t. induction rounds as [|b rounds IH]; intros s t; cbn.
  - intros Heq. injection Heq as <- <-. destruct (run_round s a) as [t' [s'|x]]; cbn; by rewrite ?app_nil_r.
  - destruct (run_round s b) as [t1 [s1|x]]; [|done]. destruct (run_to s1 rounds) as [t2 r2] eqn:E.
    intros Heq. injection Heq as <- ->. rewrite (IH _ _ E). cbn. by rewrite app_assoc.
Qed.

Section track.
Context {S : Type} `{discordgoOk S}.
Context (bot : string) (zero : Z).
Definition begin : run_state := RunState 0 true zero.

(** In the middle of a round that some answers would end like this. *)
Definition can (t : list action) (k : list action * (run_state + run_exit)) : Prop :=
  ∃ rounds t0 s a t1,
    run_to begin rounds = (t0, inl s) ∧ run_round s a = (t1 ++ k.1, k.2) ∧ t = t0 ++ t1.

(** Between two rounds, or after the last. *)
Definition at_end (t : list action) (r : run_state + run_exit) : Prop :=
  ∃ rounds, run_to begin rounds = (t, r).

Definition on_track (a : adapter S) : Prop :=
  let t := ad_trace a in
  match ad_run a with
  | Head s | Opening s => at_end t (inl s)
  | Watching attempt connectedAt => ∀ ans, can t (supervise attempt connectedAt ans)
  | Sleeping s closing => can t ([], inl s) ∧ can t (if closing then [AClose] else [], inr ExitCtx)
  | Leaving x | Joining x | Returned x => at_end t (inr x)
  end.

Lemma can_end t t' r : can t (t', r) → at_end (t ++ t') r.
Proof.
  intros (rounds & t0 & s & a & t1 & Hr & Ha & ->). exists (rounds ++ [a]).
  rewrite (run_to_snoc _ _ _ _ a Hr), Ha. cbn. by rewrite app_assoc.
Qed.

Lemma end_round t s a t' r : at_end t (inl s) → run_round s a = (t', r) → at_end (t ++ t') r.
Proof. intros [rounds Hr] Ha. exists (rounds ++ [a]). by rewrite (run_to_snoc _ _ _ _ a Hr), Ha. Qed.

Lemma end_can t s a t1 k : at_end t (inl s) → run_round s a = (t1 ++ k.1, k.2) → can (t ++ t1) k.
Proof. intros [rounds Hr] Ha. by exists rounds, t, s, a, t1. Qed.

(** Answers of a round that opens. *)
Definition opening (r : open_answer) (reset : bool) (jitter : Z) (slept : bool) : answers :=
  Answers false r reset jitter slept 0 false 0.

Lemma open_done_track c now jitter a a' :
  run_ok a → on_track a → open_done c now jitter a = Some a' → on_track a'.
Proof.
  unfold open_done, run_ok, on_track. destruct (ad_run a) as [|s| | | | |]; try done. intros (_ & Hn & _) Ht.
  destruct (ad_opener a) as [| |[e|]]; try done; intros Heq; injection Heq as <-; cbn.
  - destruct (ge_already_open e) eqn:Ho; cbn.
    { eapply (end_round _ _ (opening (OpenFailed e) false 0 false)); [done|]. unfold run_round. by rewrite Hn; cbn; rewrite Ho. }
    destruct (terminal e) eqn:Hx; cbn.
    { eapply (end_round _ _ (opening (OpenFailed e) false 0 false)); [done|]. unfold run_round. by rewrite Hn; cbn; rewrite Ho, Hx. }
    assert (Hround : ∀ reset slept, run_round s (opening (OpenFailed e) reset jitter slept)
      = retry_open s e (opening (OpenFailed e) reset jitter slept)).
    { intros. unfold run_round. by rewrite Hn; cbn; rewrite Ho, Hx. }
    destruct (staleSession e) eqn:Hs; [destruct (resetSession _ _)|]; cbn.
    + split; (eapply (end_can _ s (opening (OpenFailed e) true jitter _)); [done|]; rewrite Hround;
        unfold retry_open; rewrite Hs; cbn); [by instantiate (1 := true)|by instantiate (1 := false)].
    + eapply (end_round _ _ (opening (OpenFailed e) false jitter false)); [done|]. rewrite Hround.
      unfold retry_open. by rewrite Hs.
    + split; (eapply (end_can _ s (opening (OpenFailed e) true jitter _)); [done|]; rewrite Hround;
        unfold retry_open; rewrite Hs; cbn); [by instantiate (1 := true)|by instantiate (1 := false)].
  - intros ans. eapply (end_can _ s (Answers false Opened true (an_jitter ans) (an_slept ans) now
      (an_dropped ans) (an_now_drop ans))); [done|].
    unfold run_round. rewrite Hn. cbn. unfold supervise. cbn. by repeat case_match.
Qed.

Lemma run_step_track a a' : run_ok a → on_track a → run_step a a' → on_track a'.
Proof.
  intros Hrun Ht [c x Hs|c now j x Hs|x Hs|c x Hs|now j x Hs|x Hs|c x Hs|x Hs|x Hs].
  - unfold loop_head, on_track in *. destruct (ad_run a) as [s| | | | | |]; try done.
    destruct (rs_needOpen s) eqn:Hn; simplify_eq; cbn.
    + destruct (ad_ctx a); simplify_eq; cbn; [|done].
      eapply (end_round _ _ (Answers true Cancelled false 0 false 0 false 0)); [done|].
      unfold run_round. by rewrite Hn.
    + intros ans. eapply (end_can _ s ans); [done|]. unfold run_round. rewrite Hn. by destruct (supervise _ _ _).
  - by eapply open_done_track.
  - unfold open_cancelled, on_track, run_ok in *. destruct (ad_run a) as [|s| | | | |]; try done.
    destruct (ad_ctx a); simplify_eq; cbn. destruct Hrun as (_ & Hn & _).
    eapply (end_round _ _ (opening Cancelled false 0 false)); [done|]. unfold run_round. by rewrite Hn.
  - unfold watch_ctx, on_track in *. destruct (ad_run a); try done. destruct (ad_ctx a); simplify_eq; cbn.
    apply can_end. apply (Ht (opening Cancelled false 0 false)).
  - unfold watch_drop, on_track in *. destruct (ad_run a) as [| |att conn| | | |]; try done.
    destruct (lk_disconnected _); simplify_eq.
    pose proof (λ slept, Ht (Answers false Cancelled false j slept 0 true now)) as Hc.
    unfold supervise in Hc. cbn in Hc. destruct (Z.leb _ _); cbn.
    + apply can_end. apply (Hc true).
    + split; [destruct (Hc true) as (r & t0 & s & b & t1 & H1 & H2 & H3)
             |destruct (Hc false) as (r & t0 & s & b & t1 & H1 & H2 & H3)];
        (eexists r, t0, s, b, (t1 ++ _); split_and!; [done| |by rewrite H3, app_assoc]);
        rewrite H2; cbn; by rewrite <-?app_assoc.
  - unfold sleep_over, on_track in *. destruct (ad_run a); try done. simplify_eq. cbn. by apply can_end, Ht.
  - unfold sleep_cancelled, on_track in *. destruct (ad_run a); try done. destruct (ad_ctx a); simplify_eq.
    destruct Ht as [_ Ht]. destruct closing; by apply can_end.
  - unfold leave, on_track in *. destruct (ad_run a); try done. cbn in Hs. by simplify_eq.
  - unfold join, on_track in *. destruct (ad_run a); try done. destruct (run_return _); [|done].
    cbn in Hs. by simplify_eq.
Qed.

(** Nobody else writes Run's trace, or moves it. *)
Lemma other_step_run a a' : other_step a a' → ad_run a' = ad_run a ∧ ad_trace a' = ad_trace a.
Proof.
  intros [x [c y Hs|y Hs|c y Hs]|c|c i x Hs|x Hs| |pid x Hs|pid x Hs];
    unfold dial, open, reap, reap_close, library, library_old, onDisconnect, message, message_done in *;
    repeat case_match; simplify_option_eq; repeat case_match; by simplify_eq/=.
Qed.

Lemma other_step_track a a' : on_track a → other_step a a' → on_track a'.
Proof. intros Ht Hs%other_step_run. destruct Hs as [Hr Htr]. unfold on_track in *. by rewrite Hr, Htr. Qed.
End track.

(** ** Lemmas: coming down *)

Section down.
Context {S : Type} `{discordgoOk S}.
Context (bot : string) (zero : Z).

(** Run's steps to its return once the context is done. *)
Definition run_rank (r : run_at) : nat :=
  match r with
  | Opening _ => 7
  | Head s => if rs_needOpen s then 3 else 6
  | Watching _ _ => 5
  | Sleeping _ _ => 4
  | Leaving _ => 2
  | Joining _ => 1
  | Returned _ => 0
  end.

(** What the opener and the reaper have left to do. *)
Definition reap_rank (a : adapter S) : nat :=
  match ad_opener a with Dialing => 1 | _ => 0 end
  + match ad_reaper a with Reaping => 2 | Closing => 1 | _ => 0 end.

(** One step of Run after any number of everybody else's. *)
Definition run_among (a a' : adapter S) : Prop := ∃ b, rtc other_step a b ∧ run_step b a'.

Lemma other_step_ctx a a' : other_step a a' → ad_ctx a = true → ad_ctx a' = true.
Proof.
  intros [x [c y Hs|y Hs|c y Hs]|c|c i x Hs|x Hs| |pid x Hs|pid x Hs];
    unfold dial, open, reap, reap_close, library, library_old, onDisconnect, message, message_done in *;
    repeat case_match; simplify_option_eq; repeat case_match; by simplify_eq/=.
Qed.

Lemma run_step_down a a' :
  run_ok a → ad_ctx a = true → run_step a a' → (run_rank (ad_run a') < run_rank (ad_run a))%nat ∧ ad_ctx a' = true.
Proof.
  intros Hrun Hc [c x Hs|c now j x Hs|x Hs|c x Hs|now j x Hs|x Hs|c x Hs|x Hs|x Hs];
    unfold loop_head, open_done, open_cancelled, watch_ctx, watch_drop, sleep_over, sleep_cancelled, leave, join,
      run_ok in *; rewrite ?Hc in Hs; destruct (ad_run a) eqn:Hr; try done;
    repeat case_match; simplify_option_eq; destruct_and?; cbn;
    repeat match goal with Hb : rs_needOpen _ = _ |- _ => rewrite Hb end; repeat case_match; (split; [cbn; lia|done]).
Qed.

Lemma run_among_bounded k a a' :
  adapter_ok bot a → ad_ctx a = true → nsteps run_among k a a' → (k ≤ run_rank (ad_run a))%nat.
Proof.
  intros Hok Hc Hk. revert Hok Hc. induction Hk as [a|k a a1 a2 (b & Hb & Hs) _ IH]; intros Hok Hc; [lia|].
  assert (Hbs : adapter_ok bot b ∧ ad_ctx b = true ∧ ad_run b = ad_run a).
  { clear -Hok Hc Hb. induction Hb as [a|a b b' H1 _ IH]; [done|].
    destruct IH as (? & ? & Hr); [by eapply other_step_ok|by eapply other_step_ctx|]. split_and!; try done.
    rewrite Hr. by apply other_step_run. }
  destruct Hbs as (Hokb & Hcb & <-). destruct (run_step_down _ _ (ao_run _ _ Hokb) Hcb Hs) as [Hlt Hc1].
  specialize (IH (run_step_ok _ _ _ Hokb Hs) Hc1). lia.
Qed.

Lemma run_progress a :
  adapter_ok bot a → ad_ctx a = true →
  (∃ x, ad_run a = Returned x) ∨ (∃ x, ad_run a = Joining x ∧ g_running (ad_gate a) ≠ ∅) ∨ ∃ a', run_step a a'.
Proof.
  intros [_ _ Hrun Hg Hst] Hc. destruct (ad_run a) as [s|s|att conn|s b|x|x|x] eqn:Hr; [..|by left; eexists]; right.
  - right. destruct (rs_needOpen s) eqn:Hn; eexists; apply (rn_head _ dg_some); unfold loop_head; by rewrite Hr, Hn, ?Hc.
  - right. eexists. apply rn_cancelled. unfold open_cancelled. by rewrite Hr, Hc.
  - right. eexists. apply (rn_ctx _ dg_some). unfold watch_ctx. by rewrite Hr, Hc.
  - right. eexists. apply rn_slept. unfold sleep_over. by rewrite Hr.
  - right. eexists. apply rn_leave. unfold leave. by rewrite Hr.
  - destruct (decide (g_running (ad_gate a) = ∅)) as [He|He]; [|by left; eexists]. right. eexists. apply rn_join.
    unfold join. rewrite Hr. unfold run_return, gate_stage in *. rewrite Hr in Hst.
    by rewrite Hst, (go_count _ Hg), He, size_empty.
Qed.

(** What is left after Run returned. *)
Lemma reap_ends a x : adapter_ok bot a → ad_run a = Returned x →
  (reap_rank a = 0%nat → live (ad_link a) = false)
  ∧ ((0 < reap_rank a)%nat → ∃ a', reap_step a a')
  ∧ ∀ a', ad_step a a' → ad_run a' = Returned x ∧ (reap_rank a' ≤ reap_rank a)%nat
                        ∧ (reap_step a a' → (reap_rank a' < reap_rank a)%nat).
Proof.
  intros [_ _ Hrun _ _] Hr. unfold run_ok in Hrun. rewrite Hr in Hrun. split_and!.
  - unfold reap_rank. destruct (ad_reaper a); destruct_and?; try done; lia.
  - unfold reap_rank. intros Hlt. destruct (ad_opener a) as [| |r] eqn:Ho.
    + destruct (ad_reaper a) eqn:Hp; try done; try lia. eexists. apply (rp_close _ dg_some). unfold reap_close. by rewrite Hp.
    + destruct (open dg_some (ad_link a)) as [r l] eqn:E. eexists. apply (rp_dial _ dg_some). unfold dial. by rewrite Ho, E.
    + destruct (ad_reaper a) eqn:Hp; destruct_and?; try done; try lia. eexists. apply rp_reap. unfold reap. by rewrite Hp, Ho.
  - assert (Hreap : ∀ a', reap_step a a' → (reap_rank a' < reap_rank a)%nat).
    { intros a' [c y Hs|y Hs|c y Hs]; unfold dial, open, reap, reap_close, reap_rank in *;
        repeat case_match; simplify_eq/=; repeat case_match; simplify_eq/=; try lia; by destruct_and?. }
    intros a' [Hs|Hs].
    { destruct Hs as [c y Hs|c now j y Hs|y Hs|c y Hs|now j y Hs|y Hs|c y Hs|y Hs|y Hs];
        unfold loop_head, open_done, open_cancelled, watch_ctx, watch_drop, sleep_over, sleep_cancelled, leave, join in Hs;
        by rewrite Hr in Hs. }
    split_and!; [by rewrite (proj1 (other_step_run _ _ Hs))| |by apply Hreap].
    destruct Hs as [y Hs|c|c i y Hs|y Hs| |pid y Hs|pid y Hs]; [by apply Nat.lt_le_incl, Hreap|..];
      unfold library, library_old, onDisconnect, message, message_done in *;
      repeat case_match; simplify_option_eq; repeat case_match; by simplify_eq/=.
Qed.
End down.

Section reached.
Context {S : Type} `{discordgoOk S}.

Lemma New_adapter c token handler logger zero a :
  New c token handler logger zero = Ok a → adapter_ok ("Bot " +:+ token) a ∧ on_track zero a.
Proof.
  unfold New. destruct (NewAdapter _ _ _ _); [|done]. destruct (dg_New c _) as [d|] eqn:Hd; [|done].
  intros Heq. injection Heq as <-. apply New_ok in Hd as (Ht & Hh & Hn). split; [|by exists []].
  split; try done. { unfold pinned. cbn. by rewrite Hh. }
  by constructor.
Qed.

Lemma reached_ok c token handler logger zero a0 a :
  New c token handler logger zero = Ok a0 → rtc ad_step a0 a →
  adapter_ok ("Bot " +:+ token) a ∧ on_track zero a.
Proof.
  intros Hnew%New_adapter Hs. revert Hnew. induction Hs as [a|a a1 a2 H1 _ IH]; [done|].
  intros [Hok Ht]. apply IH. split; [by eapply ad_step_ok|].
  destruct H1 as [H1|H1]; [by eapply run_step_track; [apply Hok|..]|by eapply other_step_track].
Qed.

Lemma on_track_Run zero (a : adapter S) : on_track zero a →
  ∃ rounds rest exit, Run zero rounds = (ad_trace a ++ rest, exit)
    ∧ ∀ x, ad_run a = Returned x → rest = [] ∧ exit = Some x.
Proof.
  assert (Hend : ∀ t rest r, at_end zero (t ++ rest) r → ∃ rounds,
    Run zero rounds = (t ++ rest, match r with inl _ => None | inr x => Some x end)).
  { intros t rest r [rounds Hr]. exists rounds. unfold Run. rewrite run_to_loop. unfold begin in Hr. by rewrite Hr. }
  unfold on_track. destruct (ad_run a) as [s|s|att conn|s b|x|x|x]; intros Ht;
    try (destruct (Hend (ad_trace a) [] _ ltac:(rewrite app_nil_r; exact Ht)) as [rounds Hr];
         exists rounds, []; eexists; split; [exact Hr|]; intros; by simplify_eq).
  - specialize (Ht (opening Cancelled false 0 false)). destruct (supervise _ _ _) as [t r].
    destruct (Hend _ _ _ (can_end _ _ _ _ Ht)) as [rounds Hr]. by exists rounds, t; eexists.
  - destruct Ht as [Ht _]. destruct (Hend _ _ _ (can_end _ _ _ _ Ht)) as [rounds Hr]. by exists rounds, []; eexists.
Qed.
End reached.

(** ** Properties *)

(** C26: the connection is supervised, whatever the interleaving of Run, the
    handshake, the reaper, the message handlers, the cancellation and discordgo's
    own goroutines.  Whatever Run does is a trace of [Gateway.Run], so its
    pacing and its exits are those of the reconnect loop.  The current session
    always has the pinned posture, the bot's token and each handler once, and no
    session it replaced is up.  While Run waits on a connection, the connection
    is up or a Disconnect is on its way to wake it.  Once the context is done Run
    takes at most seven more steps of its own, and nothing but a running handler
    keeps it from its return; a handshake never does.  Once it has returned no
    handler runs, and the connection is down as soon as the opener and the
    reaper are finished, which nothing delays and takes at most three steps. *)
Theorem Run_supervised {S : Type} `{discordgoOk S} c token handler logger zero (a0 a : adapter S) :
  New c token handler logger zero = Ok a0 → rtc ad_step a0 a →
  (∃ rounds rest exit, Run zero rounds = (ad_trace a ++ rest, exit)
     ∧ ∀ x, ad_run a = Returned x → rest = [] ∧ exit = Some x)
  ∧ pinned ("Bot " +:+ token) (lk_session (ad_link a)) ∧ alone (ad_link a)
  ∧ ((∃ att conn, ad_run a = Watching att conn) → watched (ad_link a))
  ∧ (ad_ctx a = true →
      (∀ k a', nsteps run_among k a a' → (k ≤ 7)%nat)
      ∧ ((∃ x, ad_run a = Returned x) ∨ (∃ x, ad_run a = Joining x ∧ g_running (ad_gate a) ≠ ∅)
         ∨ ∃ a', run_step a a'))
  ∧ ∀ x, ad_run a = Returned x →
      g_running (ad_gate a) = ∅ ∧ (reap_rank a ≤ 3)%nat
      ∧ (reap_rank a = 0%nat → live (ad_link a) = false)
      ∧ ((0 < reap_rank a)%nat → ∃ a', reap_step a a')
      ∧ ∀ a', ad_step a a' → ad_run a' = Returned x ∧ (reap_rank a' ≤ reap_rank a)%nat
                            ∧ (reap_step a a' → (reap_rank a' < reap_rank a)%nat).
Proof.
  intros Hnew Hs. destruct (reached_ok _ _ _ _ _ _ _ Hnew Hs) as [Hok Ht].
  pose proof Hok as [Hp Ha Hrun Hg Hst]. split_and!; [by apply on_track_Run|done|done|..].
  - intros (att & conn & Hr). unfold run_ok in Hrun. rewrite Hr in Hrun. apply Hrun.
  - intros Hc. split; [|by eapply run_progress]. intros k a' Hk. etrans; [by eapply run_among_bounded|].
    destruct (ad_run a) as [s| | | | | |]; cbn; try lia. destruct (rs_needOpen s); lia.
  - intros x Hr. split_and!.
    + unfold gate_stage in Hst. rewrite Hr in Hst. by apply Hg.
    + unfold reap_rank. destruct (ad_opener a), (ad_reaper a); lia.
    + by eapply reap_ends.
    + by eapply reap_ends.
    + by eapply reap_ends.
Qed.

(** A library whose sockets are a flag: a choice says what Open answers. *)
#[local] Instance plain : discordgo bool := {|
  dg_choice := option gw_err;
  IntentsDirectMessages := 4096; IntentsGuildMessages := 512; IntentsMessageContent := 32768; IntentsGuilds := 1;
  dg_New _ token := Some (DSession token 0 true false [] false);
  dg_Open c k :=
    if k then (Some (GwErr false true None), k)
    else match c with
         | Some e => (Some (GwErr (ge_unauthorized e) false (ge_close e)), false)
         | None => (None, true)
         end;
  dg_Close _ k := (false, if k then 1 else 0)%nat;
  dg_moves _ k := (false, if k then 1 else 0)%nat;
|}.

#[local] Program Instance plain_ok : discordgoOk bool := {| dg_live k := k; dg_some := None |}.
Next Obligation. intros c token d H. cbn in H. by simplify_eq. Qed.
Next Obligation. intros c k ->. by eexists. Qed.
Next Obligation. intros [e|] k ->; by cbn. Qed.
Next Obligation. done. Qed.
Next Obligation. done. Qed.
Next Obligation. intros c k ->. cbn. lia. Qed.

Definition fresh_link : link bool := Link (adopt (DSession "Bot t" 0 true false [] false)) [] 0 false.
Definition fresh_adapter : adapter bool :=
  Adapter fresh_link gate0 NoOpener NoReaper (Head (RunState 0 true 0)) false [].
Definition cancelled_dial : adapter bool :=
  Adapter fresh_link (Gate true 0 ∅ true) Dialing Reaping (Returned ExitCtx) true [AOpen Cancelled].

(** Run is cancelled in its first handshake and returns without waiting for
    it; the handshake still succeeds, and the reaper will close it. *)
Lemma Run_supervised_witness :
  reap_rank cancelled_dial = 3%nat ∧ (∃ a', reap_step cancelled_dial a') ∧ g_running (ad_gate cancelled_dial) = ∅.
Proof.
  destruct (Run_supervised (S := bool) dg_some "t" true true 0 fresh_adapter cancelled_dial)
    as (_ & _ & _ & _ & _ & Hr); [by vm_compute|..].
  - eapply rtc_l; [left; by apply (rn_head _ dg_some)|]. eapply rtc_l; [right; by apply ot_cancel|].
    eapply rtc_l; [left; by apply rn_cancelled|]. eapply rtc_l; [left; by apply rn_leave|].
    eapply rtc_l; [left; by apply rn_join|]. done.
  - destruct (Hr ExitCtx eq_refl) as (Hg & _ & _ & Hp & _). split_and!; [done|apply Hp; cbn; lia|done].
Defined.
