(* ===== verification/SessionManager.v ===== *)
(** * The session manager (src/internal/session)

    Pinning, first turns, resumes, rotation and the resume-failure degradation,
    as programs over the store and the daemon's effects.  The engine is the
    code's Engine interface: [start] and [resume] are its two methods (with the
    reply sink already given to them).  The clock counts nanoseconds, [rand] is
    crypto/rand and [fs] the file system, each as it stands when it is asked. *)
From S2P Require Import Prelude Utf8 Schema Events Sessions StoreSpec StoreInv.
From S2P Require Import StoreOps Env Resend.
Local Open Scope Z_scope.

Definition Second : Z := 1000000000.

(** [Time.Unix] floors to whole seconds. *)
Definition unix (ns : Z) : Z := ns / Second.

(** ** Configuration *)

Record Config : Type := MkConfig {
  cf_ActivationWindow : Z;
  cf_IdleTTL : Z;
  cf_TurnCap : Z;
}.

Record Manager : Type := MkManager {
  m_window : Z;
  m_idleTTL : Z;
  m_turnCap : Z;
}.

Definition defaultActivationWindow : Z := 120 * Second.
Definition defaultIdleTTL : Z := 4 * 3600 * Second.
Definition defaultTurnCap : Z := 50.

Definition NewManager (cfg : Config) : Manager :=
  MkManager
    (if Z.ltb (cf_ActivationWindow cfg) Second then defaultActivationWindow else cf_ActivationWindow cfg)
    (if Z.ltb (cf_IdleTTL cfg) Second then defaultIdleTTL else cf_IdleTTL cfg)
    (if Z.ltb (cf_TurnCap cfg) 1 then defaultTurnCap else cf_TurnCap cfg).

(** ** Identifiers *)

(** fmt's %x of a byte slice. *)
Definition hex_byte (b : Z) : list Z :=
  let digit n := if Z.ltb n 10 then 48 + n else 87 + n in [digit (b / 16); digit (b mod 16)].
Definition hex (bs : list Z) : list Z := concat (map hex_byte bs).

(** The version and variant bits of a v4 UUID over 16 random bytes. *)
Definition uuid_bytes (b : list Z) : list Z :=
  <[8%nat := Z.lor (Z.land (nth 8 b 0) 63) 128]>
    (<[6%nat := Z.lor (Z.land (nth 6 b 0) 15) 64]> b).

Definition slice (lo hi : nat) (l : list Z) : list Z := take (hi - lo) (drop lo l).

Definition uuid_string (b : list Z) : string :=
  let b := uuid_bytes b in
  of_bytes (hex (slice 0 4 b) ++ [45] ++ hex (slice 4 6 b) ++ [45] ++ hex (slice 6 8 b)
            ++ [45] ++ hex (slice 8 10 b) ++ [45] ++ hex (slice 10 16 b)).

(** ** Operations *)

Definition resumeFailureNote : string :=
  "lost this thread's conversation history — facts intact, starting fresh".

(** errors.Is(err, ErrCwdGone) || errors.Is(err, ErrResumeFailed). *)
Definition isResumeFailure (e : err) : bool :=
  bool_decide (e = ECwdGone) || bool_decide (e = EResumeFailed).

Record TurnRequest : Type := MkTurnRequest {
  rq_ThreadKey : string;
  rq_TrustFloor : string;
  rq_Cwd : string;
  rq_Kind : string;
  rq_Prompt : string;
}.

Section manager.
Context {SA : StoreAccess} (m : Manager) (clock : nat → Z) (rand : nat → option (list Z)) (fs : nat → filesystem).
Context (start resume : Spec → EnvM unit).

Definition newSessionID : EnvM string := λ e,
  match rand (env_ticks e) with
  | None => (Err EIO, e)
  | Some b => (Ok (uuid_string b), e)
  end.

Definition the_fs : EnvM filesystem := λ e, (Ok (fs (env_ticks e)), e).

Definition mint (threadKey trustFloor cwd origin : string) : EnvM Session :=
  id ← newSessionID;
  created ← now clock;
  let expiry := created + m_window m in
  let deadline := unix expiry in
  let deadline := if Z.ltb (deadline * Second) expiry then deadline + 1 else deadline in
  mret (MkSession threadKey id cwd origin trustFloor (unix created) deadline).

(** The LiveSession a flow returns for the row it just wrote. *)
Definition fresh_live (s : Session) (canonical : string) : LiveSession :=
  MkLiveSession (s_ThreadKey s) (s_SessionID s) Creating canonical (s_Origin s)
    (s_TrustFloor s) (s_CreatedAt s) (s_ActivationDeadline s) 0 0.

Definition pin (threadKey trustFloor cwd : string) : EnvM (LiveSession * bool) :=
  s ← mint threadKey trustFloor cwd "";
  f ← the_fs;
  canonical ← liftS (InsertSession f s);
  mret (fresh_live s canonical, true).

Definition Ensure (threadKey trustFloor cwd : string) : EnvM (LiveSession * bool) :=
  live ← liftS (ResolveLiveSession threadKey);
  match live with
  | None => pin threadKey trustFloor cwd
  | Some live =>
      inside ← (if bool_decide (ls_Status live = Active) then mret true
                else t ← now clock; mret (Z.ltb (unix t) (ls_ActivationDeadline live)));
      if (inside : bool) then mret (live, false)
      else
        successor ← mint threadKey trustFloor cwd (ls_Origin live);
        f ← the_fs;
        canonical ← liftS (ExpireSession f (ls_SessionID live) successor);
        mret (fresh_live successor canonical, true)
  end.

Definition touch (sessionID : string) : EnvM unit :=
  t ← now clock;
  _ ← try (liftS (TouchSession sessionID (unix t)));
  mret tt.

Definition startNew (live : LiveSession) (note kind prompt : string) : EnvM unit :=
  current ← liftS (ResolveLiveSession (ls_ThreadKey live));
  match current with
  | None => fail (ERefused "no longer the creating session")
  | Some current =>
      if negb (String.eqb (ls_SessionID current) (ls_SessionID live)
               && bool_decide (ls_Status current = Creating))
      then fail (ERefused "no longer the creating session")
      else
        t ← now clock;
        if Z.leb (ls_ActivationDeadline current * Second - t) 0 then
          fail (ERefused "activation deadline already passed")
        else
          over ← ctx_err;
          if (over : bool) then fail ECtx
          else
            let spec := MkSpec (ls_SessionID current) (ls_ThreadKey current) (ls_Cwd current)
                          kind prompt note in
            _ ← emit (FxStart spec);
            _ ← start spec;
            t' ← now clock;
            if Z.leb (ls_ActivationDeadline current) (unix t') then
              fail (ERefused "finished after its activation deadline")
            else
              _ ← liftS (ActivateSession (ls_SessionID current));
              touch (ls_SessionID current)
  end.

Definition StartNew (live : LiveSession) : EnvM unit := startNew live "" "" "".

(** os.Stat and IsDir. *)
Definition assertCwd (cwd : string) : EnvM unit :=
  f ← the_fs;
  match fs_stat_is_dir f cwd with
  | Some true => mret tt
  | _ => fail ECwdGone
  end.

Definition resumeTurn (live : LiveSession) (kind prompt : string) : EnvM unit :=
  current ← liftS (ResolveLiveSession (ls_ThreadKey live));
  match current with
  | None => fail (ERefused "no longer the active session")
  | Some current =>
      if negb (String.eqb (ls_SessionID current) (ls_SessionID live)
               && bool_decide (ls_Status current = Active))
      then fail (ERefused "no longer the active session")
      else
        _ ← assertCwd (ls_Cwd current);
        over ← ctx_err;
        if (over : bool) then fail ECtx
        else
          let spec := MkSpec (ls_SessionID current) (ls_ThreadKey current) (ls_Cwd current)
                        kind prompt "" in
          _ ← emit (FxResume spec);
          _ ← resume spec;
          touch (ls_SessionID current)
  end.

Definition Resume (live : LiveSession) : EnvM unit := resumeTurn live "" "".

(** Duration arithmetic wraps at 64 bits. *)
Definition rotation_due (turns lastSeen createdAt nowUnix : Z) : option string :=
  if Z.leb (m_turnCap m) turns then Some "turn_cap"%string
  else
    let idleSince := if Z.eqb lastSeen 0 then createdAt else lastSeen in
    if Z.leb (wrap64 (m_idleTTL m + Second)) (wrap64 (wrap64 (nowUnix - idleSince) * Second))
    then Some "idle_ttl"%string else None.

Definition rotationCause (live : LiveSession) : EnvM (option string) :=
  if Z.leb (m_turnCap m) (ls_Turns live) then mret (Some "turn_cap"%string)
  else
    t ← now clock;
    mret (rotation_due (ls_Turns live) (ls_LastSeen live) (ls_CreatedAt live) (unix t)).

Definition rotate (live : LiveSession) : EnvM LiveSession :=
  successor ← mint (ls_ThreadKey live) (ls_TrustFloor live) (ls_Cwd live) (ls_Origin live);
  f ← the_fs;
  canonical ← liftS (RotateSession f (ls_SessionID live) successor);
  mret (fresh_live successor canonical).

Definition RotateNow (threadKey : string) : EnvM LiveSession :=
  live ← liftS (ResolveLiveSession threadKey);
  match live with
  | None => fail (ERefused "no live session")
  | Some live =>
      if negb (bool_decide (ls_Status live = Active)) then fail ENotActive
      else _ ← assertCwd (ls_Cwd live); rotate live
  end.

Definition degradationNote (sessionID : string) : EnvM string :=
  d ← liftS (SessionDegraded sessionID);
  mret (if (d : bool) then resumeFailureNote else ""%string).

Definition degradeResumeFailed (live : LiveSession) (cwd : string) : EnvM LiveSession :=
  successor ← mint (ls_ThreadKey live) (ls_TrustFloor live) cwd (ls_Origin live);
  f ← the_fs;
  canonical ← liftS (ResumeFailSession f (ls_SessionID live) successor);
  mret (fresh_live successor canonical).

(** The flow for the session Turn settled on. *)
Definition turn_on (live : LiveSession) (req : TurnRequest) : EnvM unit :=
  match ls_Status live with
  | Creating =>
      note ← degradationNote (ls_SessionID live);
      startNew live note (rq_Kind req) (rq_Prompt req)
  | Active =>
      r ← try (resumeTurn live (rq_Kind req) (rq_Prompt req));
      match r with
      | Ok _ => mret tt
      | Err e =>
          if negb (isResumeFailure e) then fail e
          else
            fresh ← degradeResumeFailed live (rq_Cwd req);
            startNew fresh resumeFailureNote (rq_Kind req) (rq_Prompt req)
      end
  | _ => fail (ERefused "live session in impossible state")
  end.

Definition Turn (req : TurnRequest) : EnvM unit :=
  '(live, _) ← Ensure (rq_ThreadKey req) (rq_TrustFloor req) (rq_Cwd req);
  if bool_decide (ls_Status live = Active) then
    cause ← rotationCause live;
    match cause with
    | None => turn_on live req
    | Some _ =>
        there ← try (assertCwd (ls_Cwd live));
        match there with
        | Err _ =>
            fresh ← degradeResumeFailed live (rq_Cwd req);
            startNew fresh resumeFailureNote (rq_Kind req) (rq_Prompt req)
        | Ok _ =>
            live ← rotate live;
            turn_on live req
        end
    end
  else turn_on live req.
End manager.

(** ** What the flows do to the store *)

(** A call that leaves the session table and the trace alone. *)
Definition quiet {A} (m : EnvM A) : Prop := ∀ e,
  wpe m (λ _ e', sessions (env_db e') = sessions (env_db e) ∧ env_trace e' = env_trace e) e.

(** What an engine is assumed to do: it writes no session row of its own. *)
Definition engine_quiet (f : Spec → EnvM unit) : Prop := ∀ s, quiet (f s).

(** The session table only moves along the registry's own transitions. *)
Definition advances {A} (m : EnvM A) : Prop := ∀ e,
  wpe m (λ _ e', session_inv (sessions (env_db e)) →
    session_inv (sessions (env_db e'))
    ∧ map_grows session_grows (sessions (env_db e)) (sessions (env_db e'))) e.

Lemma session_map_grows_refl (m : gmap string session_row) : map_grows session_grows m m.
Proof. apply map_grows_refl. apply _. Qed.

Lemma advances_lift {A} (m : StoreM A) : steps m → advances (liftS m).
Proof.
  intros Hm e. apply wpe_lift. eapply wpd_mono; [apply Hm|]. intros r d' Hd fs' Hi.
  change (env_db (Env (World d' fs') (env_ticks e) (env_ctx e) (env_plat e) (env_trace e))) with d'.
  split; [|apply gr_sessions; by apply steps_grow].
  induction Hd as [|d1 d2 d3 H1 _ IH]; [done|]. apply IH. by eapply session_inv_step.
Qed.

Lemma advances_quiet {A} (m : EnvM A) : quiet m → advances m.
Proof.
  intros Hm e. eapply wpe_mono; [apply Hm|]. intros r e' [-> _] Hi.
  split; [done|apply session_map_grows_refl].
Qed.

Lemma advances_bind {A B} (m : EnvM A) (f : A → EnvM B) :
  advances m → (∀ a, advances (f a)) → advances (m ≫= f).
Proof.
  intros Hm Hf e. apply wpe_bind. eapply wpe_mono; [apply Hm|]. intros [a|x] e' H1; [|done].
  eapply wpe_mono; [apply Hf|]. simpl. intros r e'' H2 Hi.
  destruct (H1 Hi) as [Hi' Hg]. destruct (H2 Hi') as [Hi'' Hg']. split; [done|].
  eapply map_grows_trans; [apply _|done..].
Qed.

Lemma advances_try {A} (m : EnvM A) : advances m → advances (try m).
Proof. intros Hm e. apply wpe_try, Hm. Qed.

Lemma quiet_local {A} (m : EnvM A) :
  (∀ e, env_world (m e).2 = env_world e ∧ env_trace (m e).2 = env_trace e) → quiet m.
Proof.
  intros Hm e. unfold wpe, env_db. destruct (m e) as [r e'] eqn:He. specialize (Hm e).
  rewrite He in Hm. simpl in Hm. by destruct Hm as [-> ->].
Qed.

Lemma advances_emit x : advances (emit x).
Proof. intros e Hi. split; [done|apply session_map_grows_refl]. Qed.

Ltac advances :=
  repeat (lazymatch goal with
  | |- advances (_ ≫= _) => apply advances_bind; [|intros ?]
  | |- advances (mbind _ _) => apply advances_bind; [|intros ?]
  | |- advances (try _) => apply advances_try
  | |- advances (emit _) => apply advances_emit
  | |- advances (liftS (ResolveLiveSession _)) => apply advances_lift, steps_query
  | |- advances (liftS (SessionDegraded _)) => apply advances_lift, steps_query
  | |- advances (if ?b then _ else _) => destruct b
  | |- advances (let '(_, _) := ?x in _) => destruct x
  | |- advances (match ?x with _ => _ end) => destruct x
  | |- advances (mret _) => by apply advances_quiet, quiet_local
  | |- advances (fail _) => by apply advances_quiet, quiet_local
  | |- advances (now _) => by apply advances_quiet, quiet_local
  | |- advances (the_fs _) => by apply advances_quiet, quiet_local
  end).

(** *** The engine calls of a turn *)

(** The spawn [s] was for [req]'s thread, in the directory its session row
    records, and that row is [row] now. *)
Definition spawn_of (req : TurnRequest) (d : db) (s : Spec) (row : session_row) : Prop :=
  sessions d !! spec_SessionID s = Some row
  ∧ sr_thread_key row = rq_ThreadKey req ∧ spec_ThreadKey s = rq_ThreadKey req
  ∧ spec_Cwd s = sr_cwd row ∧ spec_Kind s = rq_Kind req ∧ spec_Prompt s = rq_Prompt req.

(** A first turn: the note says whether the session replaces a lost
    transcript, and only a turn that returned made its session active. *)
Definition first_turn (req : TurnRequest) (d : db) (ok : bool) (s : Spec) (row : session_row) : Prop :=
  spawn_of req d s row
  ∧ spec_TransparencyNote s = (if degraded (spec_SessionID s) d then resumeFailureNote else ""%string)
  ∧ sr_status row = (if ok then Active else Creating).

(** A resume whose transcript was lost: the session is retired for [to]. *)
Definition lost (row : session_row) (to : string) : Prop :=
  sr_status row = ResumeFailed ∧ sr_rotated_to row = Some to.

Inductive turn_calls (req : TurnRequest) (d : db) : bool → list effect → Prop :=
| tc_refused : turn_calls req d false []
| tc_started ok s row : first_turn req d ok s row → turn_calls req d ok [FxStart s]
| tc_resumed ok s row :
    spawn_of req d s row → spec_TransparencyNote s = ""%string → sr_status row = Active →
    turn_calls req d ok [FxResume s]
| tc_lost s row to :
    spawn_of req d s row → spec_TransparencyNote s = ""%string → lost row to →
    turn_calls req d false [FxResume s]
| tc_degraded ok s s' row row' :
    spawn_of req d s row → spec_TransparencyNote s = ""%string →
    lost row (spec_SessionID s') → first_turn req d ok s' row' →
    turn_calls req d ok [FxResume s; FxStart s'].

(** A live row keeps its place in the chains: it is in no failed state. *)
Lemma degraded_chain_live d d' sid row row' p :
  sessions d !! sid = Some row → live row = true →
  sessions d' = <[sid := row']> (sessions d) → sr_rotated_to row' = sr_rotated_to row →
  ∀ x, degraded_chain d x p → degraded_chain d' x p.
Proof.
  intros Hr Hl Hd Hto x. induction 1 as [p r Hp Hx|p r c rc Hp Hx _ IH Hc Hs].
  - destruct (decide (p = sid)) as [->|Hne].
    + apply (dc_direct _ _ _ row'); [by rewrite Hd, lookup_insert_eq|congruence].
    + apply (dc_direct _ _ _ r); [by rewrite Hd, lookup_insert_ne|done].
  - assert (Hcs : c ≠ sid).
    { intros ->. simplify_eq. unfold live in Hl. by rewrite Hs in Hl. }
    destruct (decide (p = sid)) as [->|Hne].
    + apply (dc_through _ _ _ row' c rc);
        [by rewrite Hd, lookup_insert_eq|congruence|done|by rewrite Hd, lookup_insert_ne|done].
    + apply (dc_through _ _ _ r c rc);
        [by rewrite Hd, lookup_insert_ne|done|done|by rewrite Hd, lookup_insert_ne|done].
Qed.

Lemma degraded_live d d' sid row row' x :
  sessions d !! sid = Some row → live row = true → live row' = true →
  sessions d' = <[sid := row']> (sessions d) → sr_rotated_to row' = sr_rotated_to row →
  degraded x d' = degraded x d.
Proof.
  intros Hr Hl Hl' Hd Hto. apply eq_true_iff_eq. rewrite !degraded_spec.
  assert (Hr' : sessions d' !! sid = Some row') by (rewrite Hd; apply lookup_insert_eq).
  assert (Hb : sessions d = <[sid := row]> (sessions d')).
  { rewrite Hd, insert_insert_eq. by rewrite insert_id. }
  assert (Hne : ∀ p r, sr_status r = ResumeFailed →
      sessions d' !! p = Some r ∨ sessions d !! p = Some r → p ≠ sid).
  { intros p r Hs Hp ->. unfold live in *.
    destruct Hp; simplify_eq; rewrite Hs in *; done. }
  split; intros (p & r & Hc & Hp & Hs); exists p, r; (split_and!; [| |done]).
  - by apply (degraded_chain_live d' d sid row' row).
  - rewrite Hb. rewrite lookup_insert_ne; [done|]. apply not_eq_sym. eauto.
  - by apply (degraded_chain_live d d' sid row row').
  - rewrite Hd. rewrite lookup_insert_ne; [done|]. apply not_eq_sym. eauto.
Qed.

Lemma degraded_same d d' x : sessions d' = sessions d → degraded x d' = degraded x d.
Proof.
  intros Hd. unfold degraded, chain_set, chain_round, chain_link, failed_in. by rewrite Hd.
Qed.

Lemma degraded_direct d old row new :
  sessions d !! old = Some row → lost row new → degraded new d = true.
Proof.
  intros Hr [Hs Hl]. apply degraded_spec. exists old, row. split_and!; [|done..].
  by eapply dc_direct.
Qed.

Section flows.
Context (m : Manager) (clock : nat → Z) (rand : nat → option (list Z)) (fs : nat → filesystem).
Context (start resume : Spec → EnvM unit).

Lemma quiet_newSessionID : quiet (newSessionID rand).
Proof. apply quiet_local. intros e. unfold newSessionID. by destruct (rand _). Qed.

Lemma quiet_ctx_err : quiet ctx_err.
Proof. apply quiet_local. intros e. unfold ctx_err. by destruct (next_fault _). Qed.

Lemma quiet_assertCwd cwd : quiet (assertCwd fs cwd).
Proof.
  apply quiet_local. intros e. unfold assertCwd, the_fs, mbind, EnvM_bind, M_bind.
  by destruct (fs_stat_is_dir (fs (env_ticks e)) cwd) as [[]|].
Qed.

Lemma quiet_query {A} (f : db → A) : quiet (liftS (query f)).
Proof. intros e. apply wpe_lift. by wpd_step. Qed.

Lemma quiet_mint tk floor cwd origin : quiet (mint m clock rand tk floor cwd origin).
Proof. apply quiet_local. intros e. unfold mint, newSessionID, mbind, EnvM_bind, M_bind. by destruct (rand _). Qed.

(** The row a mint describes, on the thread and in the directory asked for. *)
Lemma wpe_mint tk floor cwd origin Q e :
  (∀ x e', sessions (env_db e') = sessions (env_db e) → env_trace e' = env_trace e →
     Q (Err x) e') →
  (∀ s e', sessions (env_db e') = sessions (env_db e) → env_trace e' = env_trace e →
     s_ThreadKey s = tk → s_Cwd s = cwd → Q (Ok s) e') →
  wpe (mint m clock rand tk floor cwd origin) Q e.
Proof.
  intros Hx Hs. unfold mint, wpe, newSessionID, mbind, EnvM_bind, M_bind.
  destruct (rand _); simpl; [by apply Hs|by apply Hx].
Qed.

Lemma mint_advances tk floor cwd origin : advances (mint m clock rand tk floor cwd origin).
Proof. apply advances_quiet, quiet_mint. Qed.

Lemma retire_advances f old s from retired ge :
  retire_edge from retired → advances (liftS (retireSession f old s from retired ge)).
Proof. intros H. by apply advances_lift, retireSession_steps. Qed.

Lemma touch_advances sid : advances (touch clock sid).
Proof. unfold touch. advances. apply advances_lift, TouchSession_steps. Qed.

Lemma Ensure_advances tk floor cwd : advances (Ensure m clock rand fs tk floor cwd).
Proof.
  unfold Ensure, pin. advances; try apply mint_advances.
  - apply retire_advances. constructor.
  - apply advances_lift, InsertSession_steps.
Qed.

Lemma degrade_advances live cwd : advances (degradeResumeFailed m clock rand fs live cwd).
Proof.
  unfold degradeResumeFailed. advances; [apply mint_advances|].
  apply retire_advances. constructor.
Qed.

Lemma rotate_advances live : advances (rotate m clock rand fs live).
Proof.
  unfold rotate. advances; [apply mint_advances|]. apply retire_advances. constructor.
Qed.

(** *** The flows, one by one *)

Definition same (e e' : env) : Prop :=
  sessions (env_db e') = sessions (env_db e) ∧ env_trace e' = env_trace e.

Lemma same_refl e : same e e.
Proof. done. Qed.
Lemma same_trans e1 e2 e3 : same e1 e2 → same e2 e3 → same e1 e3.
Proof. unfold same. intros [-> ->] [-> ->]. done. Qed.

Definition touched (t : Z) (r : session_row) : session_row :=
  session_upd (sr_status r) (sr_rotated_to r) (Some t) (Some (default 0 (sr_turns r) + 1))
    (sr_tainted r) r.

(** A quiet call, then whatever follows. *)
Lemma wpe_quiet {A} (m' : EnvM A) (Q : result err A → env → Prop) e :
  quiet m' → (∀ r e', same e e' → Q r e') → wpe m' Q e.
Proof. intros Hm HQ. eapply wpe_mono; [apply Hm|]. auto. Qed.

Lemma wpe_resolve tk (Q : result err (option LiveSession) → env → Prop) e :
  (∀ x e', same e e' → Q (Err x) e') →
  (∀ e', same e e' → Q (Ok None) e') →
  (∀ id r e', same e e' → sessions (env_db e) !! id = Some r → live r = true →
     sr_thread_key r = tk → Q (Ok (Some (live_session_of id r))) e') →
  wpe (liftS (ResolveLiveSession tk)) Q e.
Proof.
  intros Hx Hn Hs. apply wpe_lift. unfold ResolveLiveSession. wpd_step; intros fs'.
  - by apply Hx.
  - destruct (live_of_thread tk (env_db e)) as [[id r]|] eqn:Hf; [|by apply Hn].
    unfold live_of_thread in Hf.
    apply find_some in Hf as [Hin%list_elem_of_In%elem_of_map_to_list Hb]. simpl in Hb.
    apply andb_true_iff in Hb as [Hk%String.eqb_eq Hl]. by apply Hs.
Qed.

(** The bookkeeping never fails a turn; at most it is missing. *)
Lemma wpe_touch sid row (Q : result err unit → env → Prop) e :
  sessions (env_db e) !! sid = Some row →
  (∀ e', same e e' → Q (Ok tt) e') →
  (∀ t e', sessions (env_db e') = <[sid := touched t row]> (sessions (env_db e)) →
     env_trace e' = env_trace e → Q (Ok tt) e') →
  wpe (touch clock sid) Q e.
Proof.
  intros Hr Hs Ht. unfold touch. wpe_step. wpe_step. wpe_step. wpe_step. apply wpe_lift.
  unfold TouchSession. wpd_step. wpd_step; [intros; by apply Hs|].
  match goal with H : upd_session _ _ _ _ = _ |- _ => unfold upd_session, env_db in H; simpl in H end.
  unfold env_db in Hr. rewrite Hr in *. simplify_eq. simpl.
  wpd_step. intros fs'. wpe_step. by eapply Ht.
Qed.

Lemma wpe_activate sid row (Q : result err unit → env → Prop) e :
  sessions (env_db e) !! sid = Some row → sr_status row = Creating →
  (∀ x e', same e e' → Q (Err x) e') →
  (∀ e', sessions (env_db e') = <[sid := set_session_status Active row]> (sessions (env_db e)) →
     env_trace e' = env_trace e → Q (Ok tt) e') →
  wpe (liftS (ActivateSession sid)) Q e.
Proof.
  intros Hr Hc Hx Ha. apply wpe_lift. unfold ActivateSession, transitionCreating.
  wpd_step. wpd_step; [intros; by apply Hx|].
  match goal with H : upd_session _ _ _ _ = _ |- _ => unfold upd_session, in_session_status in H end.
  rewrite Hr, bool_decide_true in * by done. simplify_eq. simpl. wpd_step. intros fs'. by apply Ha.
Qed.

(** What startNew did: nothing, or one spawn of its creating session; it
    succeeded exactly when the session is active afterwards. *)
Definition started (live : LiveSession) (note kind prompt : string) (e : env)
    (r : result err unit) (e' : env) : Prop :=
  ∃ row row', sessions (env_db e) !! ls_SessionID live = Some row
    ∧ sr_thread_key row = ls_ThreadKey live ∧ sr_status row = Creating
    ∧ env_trace e' = env_trace e
        ++ [FxStart (MkSpec (ls_SessionID live) (ls_ThreadKey live) (sr_cwd row) kind prompt note)]
    ∧ sessions (env_db e') = <[ls_SessionID live := row']> (sessions (env_db e))
    ∧ sr_thread_key row' = sr_thread_key row ∧ sr_cwd row' = sr_cwd row
    ∧ sr_rotated_to row' = sr_rotated_to row
    ∧ sr_status row' = (if is_ok r then Active else Creating).

Context (Hstart : engine_quiet start) (Hresume : engine_quiet resume).

Lemma startNew_advances live note kind prompt : advances (startNew clock start live note kind prompt).
Proof.
  unfold startNew. advances.
  - apply advances_quiet, quiet_ctx_err.
  - apply advances_quiet, Hstart.
  - apply advances_lift, transitionCreating_steps. constructor.
  - apply touch_advances.
Qed.

Lemma resumeTurn_advances live kind prompt : advances (resumeTurn clock fs resume live kind prompt).
Proof.
  unfold resumeTurn. advances.
  - apply advances_quiet, quiet_assertCwd.
  - apply advances_quiet, quiet_ctx_err.
  - apply advances_quiet, Hresume.
  - apply touch_advances.
Qed.

Lemma Turn_advances req : advances (Turn m clock rand fs start resume req).
Proof.
  assert (Hon : ∀ live, advances (turn_on m clock rand fs start resume live req)).
  { intros live. unfold turn_on, degradationNote. advances;
      auto using startNew_advances, resumeTurn_advances, degrade_advances. }
  unfold Turn, rotationCause. advances; auto using Ensure_advances, degrade_advances,
    startNew_advances, rotate_advances.
  apply advances_quiet, quiet_assertCwd.
Qed.
Lemma startNew_spec live note kind prompt e :
  wpe (startNew clock start live note kind prompt)
    (λ r e', (is_ok r = false ∧ same e e') ∨ started live note kind prompt e r e') e.
Proof.
  unfold startNew. wpe_step. apply wpe_resolve.
  { intros x e1 H1. by left. }
  { intros e1 H1. wpe_step. by left. }
  intros id row e1 H1 Hr Hl Ht.
  destruct (String.eqb _ _ && _) eqn:Hg; simpl; [|wpe_step; by left].
  apply andb_true_iff in Hg as [Hid%String.eqb_eq Hc%bool_decide_eq_true]. simpl in Hid, Hc. subst id.
  wpe_step. wpe_step. wpe_step; [wpe_step; by left|]. wpe_step. wpe_step.
  wpe_step; [wpe_step; by left|]. wpe_step. wpe_step. wpe_step.
  apply wpe_quiet; [apply Hstart|]. intros r e2 [H2 T2]. simpl in H2, T2.
  destruct H1 as [H1 T1]. unfold env_db in H1, H2. simpl in H2. rewrite H1 in H2.
  rewrite T1, Ht in T2.
  assert (Hrow : ∀ row' r' e', sr_thread_key row' = sr_thread_key row →
      sr_cwd row' = sr_cwd row → sr_rotated_to row' = sr_rotated_to row →
      sr_status row' = (if is_ok r' then Active else Creating) →
      sessions (env_db e') = <[ls_SessionID live := row']> (sessions (env_db e)) →
      env_trace e' = env_trace e2 → started live note kind prompt e r' e').
  { intros row' r' e' ? ? ? ? ? T3. exists row, row'. split_and!; try done. by rewrite T3, T2. }
  assert (Herr : ∀ x e', same e2 e' → started live note kind prompt e (Err x) e').
  { intros x e' [H3 T3]. apply (Hrow row); try done. rewrite H3. unfold env_db at 1. rewrite H2.
    symmetry. by apply insert_id. }
  destruct r as [[]|x]; [|right; by apply Herr, same_refl].
  wpe_step. wpe_step. wpe_step; [wpe_step; right; by apply Herr|]. wpe_step.
  eapply wpe_activate; [unfold env_db; simpl; by rewrite H2|done| |].
  { intros x e3 H3. right. by apply Herr. }
  intros e3 H3 T3. unfold env_db in H3 at 2. simpl in H3, T3. rewrite H2 in H3.
  eapply wpe_touch; [rewrite H3; apply lookup_insert_eq| |].
  - intros e4 [H4 T4]. right. apply (Hrow (set_session_status Active row)); try done.
    { by rewrite H4, H3. } { by rewrite T4. }
  - intros t e4 H4 T4. right. apply (Hrow (touched t (set_session_status Active row))); try done.
    { rewrite H4, H3. apply insert_insert_eq. } { by rewrite T4. }
Qed.

(** What resumeTurn did: nothing, or one spawn of its active session, which
    stays as it was but for the bookkeeping. *)
Definition resumed (live : LiveSession) (kind prompt : string) (e e' : env) : Prop :=
  ∃ row row', sessions (env_db e) !! ls_SessionID live = Some row
    ∧ sr_thread_key row = ls_ThreadKey live ∧ sr_status row = Active
    ∧ env_trace e' = env_trace e
        ++ [FxResume (MkSpec (ls_SessionID live) (ls_ThreadKey live) (sr_cwd row) kind prompt "")]
    ∧ sessions (env_db e') = <[ls_SessionID live := row']> (sessions (env_db e))
    ∧ sr_thread_key row' = sr_thread_key row ∧ sr_cwd row' = sr_cwd row
    ∧ sr_status row' = Active.

Lemma resumeTurn_spec live kind prompt e :
  wpe (resumeTurn clock fs resume live kind prompt)
    (λ r e', (is_ok r = false ∧ same e e') ∨ resumed live kind prompt e e') e.
Proof.
  unfold resumeTurn. wpe_step. apply wpe_resolve.
  { intros x e1 H1. by left. }
  { intros e1 H1. wpe_step. by left. }
  intros id row e1 H1 Hr Hl Ht.
  destruct (String.eqb _ _ && _) eqn:Hg; simpl; [|wpe_step; by left].
  apply andb_true_iff in Hg as [Hid%String.eqb_eq Hc%bool_decide_eq_true]. simpl in Hid, Hc. subst id.
  wpe_step. apply wpe_quiet; [apply quiet_assertCwd|]. intros [[]|x] e2 H2;
    [|left; split; [done|by eapply same_trans]].
  assert (H12 := same_trans _ _ _ H1 H2). clear H1 H2. wpe_step. wpe_step.
  wpe_step; [wpe_step; by left|]. wpe_step. wpe_step. wpe_step.
  apply wpe_quiet; [apply Hresume|]. intros r e3 [H3 T3]. destruct H12 as [H2 T2].
  unfold env_db in H2, H3. simpl in H3, T3. rewrite H2 in H3. rewrite T2, Ht in T3.
  destruct r as [[]|x].
  - eapply wpe_touch; [unfold env_db; by rewrite H3| |].
    + intros e4 [H4 T4]. right. exists row, row. split_and!; try done; [by rewrite T4, T3|].
      rewrite H4. unfold env_db at 1. rewrite H3. symmetry. by apply insert_id.
    + intros t e4 H4 T4. right. exists row, (touched t row). split_and!; try done.
      * by rewrite T4, T3.
      * rewrite H4. unfold env_db at 1. by rewrite H3.
  - right. exists row, row. split_and!; try done.
    unfold env_db at 1. rewrite H3. symmetry. by apply insert_id.
Qed.

(** The degradation and the rotation: nothing, or the hand-over to a fresh
    session of the same thread. *)
Definition replaced (st : ss_status) (live fresh : LiveSession) (e e' : env) : Prop :=
  env_trace e' = env_trace e ∧ ls_ThreadKey fresh = ls_ThreadKey live
  ∧ ls_Status fresh = Creating
  ∧ ∃ x y, sessions (env_db e) !! ls_SessionID live = Some x
      ∧ sessions (env_db e) !! ls_SessionID fresh = None
      ∧ sr_status x = Active
      ∧ sessions (env_db e') = <[ls_SessionID live :=
            link_session (ls_SessionID fresh) (set_session_status st x)]>
          (<[ls_SessionID fresh := y]> (sessions (env_db e))).

Lemma wpe_replace st tk floor cwd origin live ge (Q : result err LiveSession → env → Prop) e :
  tk = ls_ThreadKey live →
  (∀ x e', same e e' → Q (Err x) e') →
  (∀ fresh e', replaced st live fresh e e' → Q (Ok fresh) e') →
  wpe (successor ← mint m clock rand tk floor cwd origin;
       f ← the_fs fs;
       canonical ← liftS (retireSession f (ls_SessionID live) successor Active st ge);
       mret (fresh_live successor canonical)) Q e.
Proof.
  intros -> Hx Hok. wpe_step. apply wpe_mint; [intros x e1 H1 T1; by apply Hx|].
  intros s e1 H1 T1 Hs _. wpe_step. unfold the_fs, wpe at 1. wpe_step.
  apply wpe_lift, retireSession_wpd; [intros x fs'; by apply Hx|].
  intros canonical x Hold Hst Hth Hfree Hnew fs'. wpe_step. apply Hok.
  split_and!; try done. exists x, (creating_row s canonical). rewrite <-H1. split_and!; done.
Qed.

Lemma degrade_spec live cwd (Q : result err LiveSession → env → Prop) e :
  (∀ x e', same e e' → Q (Err x) e') →
  (∀ fresh e', replaced ResumeFailed live fresh e e' → Q (Ok fresh) e') →
  wpe (degradeResumeFailed m clock rand fs live cwd) Q e.
Proof. by apply wpe_replace. Qed.

Lemma rotate_spec live (Q : result err LiveSession → env → Prop) e :
  (∀ x e', same e e' → Q (Err x) e') →
  (∀ fresh e', replaced Rotated live fresh e e' → Q (Ok fresh) e') →
  wpe (rotate m clock rand fs live) Q e.
Proof. by apply wpe_replace. Qed.

(** Ensure runs no engine and settles on a session of the thread asked for. *)
Lemma Ensure_spec tk floor cwd e :
  wpe (Ensure m clock rand fs tk floor cwd)
    (λ r e', env_trace e' = env_trace e
       ∧ match r with Ok (live, _) => ls_ThreadKey live = tk | Err _ => True end) e.
Proof.
  unfold Ensure. wpe_step. apply wpe_resolve; [by intros x e1 [_ ?]|..].
  - intros e1 [_ T1]. unfold pin. wpe_step. apply wpe_mint; [intros; split; [congruence|done]|].
    intros s e2 _ T2 Hs _. wpe_step. unfold the_fs, wpe at 1. wpe_step.
    apply wpe_lift, InsertSession_wpd.
    + intros x fs'. split; [simpl; congruence|done].
    + intros canonical Hf Hn fs'. wpe_step. split; [simpl; congruence|done].
  - intros id r e1 [_ T1] Hr Hl Ht. wpe_step.
    assert (Hk : ∀ inside e2, env_trace e2 = env_trace e →
      wpe (if (inside : bool) then mret (live_session_of id r, false)
           else successor ← mint m clock rand tk floor cwd (ls_Origin (live_session_of id r));
             f ← the_fs fs;
             canonical ← liftS (ExpireSession f id successor);
             mret (fresh_live successor canonical, true))
       (λ r0 e', env_trace e' = env_trace e ∧ match r0 with
          Ok (live, _) => ls_ThreadKey live = tk | Err _ => True end) e2).
    { intros inside e2 T2. destruct inside; [by wpe_step|].
      wpe_step. apply wpe_mint; [intros; split; [congruence|done]|].
      intros s e3 _ T3 Hs _. wpe_step. unfold the_fs, wpe at 1. wpe_step.
      apply wpe_lift, retireSession_wpd.
      - intros x fs'. split; [simpl; congruence|done].
      - intros. wpe_step. split; [simpl; congruence|done]. }
    wpe_step; [wpe_step; by apply (Hk true)|]. wpe_step. wpe_step. wpe_step. by apply Hk.
Qed.

(** *** The turn *)

Definition note_for (sid : string) (d : db) : string :=
  if degraded sid d then resumeFailureNote else ""%string.

Lemma started_first req live note e r e' :
  started live note (rq_Kind req) (rq_Prompt req) e r e' →
  ls_ThreadKey live = rq_ThreadKey req → note = note_for (ls_SessionID live) (env_db e) →
  ∃ s row', env_trace e' = env_trace e ++ [FxStart s] ∧ spec_SessionID s = ls_SessionID live
    ∧ first_turn req (env_db e') (is_ok r) s row'
    ∧ ∀ k, k ≠ ls_SessionID live → sessions (env_db e') !! k = sessions (env_db e) !! k.
Proof.
  intros (row & row' & Hr & Ht & Hc & T & Hd & Ht' & Hcwd & Hto & Hs) Hk ->.
  eexists _, row'. split; [exact T|]. split; [done|]. split.
  - split_and!; [|simpl|done].
    + split_and!; simpl; try congruence. rewrite Hd. apply lookup_insert_eq.
    + unfold note_for. erewrite (degraded_live (env_db e) (env_db e')); [done|exact Hr|..];
        [|  |exact Hd|done].
      * unfold Sessions.live. by rewrite Hc.
      * unfold Sessions.live. rewrite Hs. by destruct (is_ok r).
  - intros k Hne. rewrite Hd. by rewrite lookup_insert_ne.
Qed.

Definition turn_post (req : TurnRequest) (e : env) (r : result err unit) (e' : env) : Prop :=
  ∃ calls, env_trace e' = env_trace e ++ calls ∧ turn_calls req (env_db e') (is_ok r) calls.

Lemma turn_post_refused req e x e' : env_trace e' = env_trace e → turn_post req e (Err x) e'.
Proof. intros T. exists []. split; [by rewrite app_nil_r|constructor]. Qed.

(** Nothing but the degradation note is left to the first turn of a session. *)
Lemma first_turn_post req live e e0 :
  ls_ThreadKey live = rq_ThreadKey req → env_trace e = env_trace e0 → 
  wpe (startNew clock start live (note_for (ls_SessionID live) (env_db e)) (rq_Kind req) (rq_Prompt req))
    (turn_post req e0) e.
Proof.
  intros Hk T. eapply wpe_mono; [apply startNew_spec|].
  intros r e' [[Hr [_ T']]|Hs]; [destruct r; [done|apply turn_post_refused; congruence]|].
  destruct (started_first req _ _ _ _ _ Hs Hk eq_refl) as (s & row & T' & _ & Hf & _).
  exists [FxStart s]. split; [congruence|]. by eapply tc_started.
Qed.

(** The first turn of the session that replaced a lost one. *)
Lemma replaced_note live fresh e e' :
  replaced ResumeFailed live fresh e e' →
  note_for (ls_SessionID fresh) (env_db e') = resumeFailureNote.
Proof.
  intros (_ & _ & _ & x & y & Hx & Hf & _ & Hd). unfold note_for.
  erewrite degraded_direct; [done|rewrite Hd; apply lookup_insert_eq|done].
Qed.

Lemma degraded_turn_post req live cwd e e0 :
  ls_ThreadKey live = rq_ThreadKey req → env_trace e = env_trace e0 →
  wpe (fresh ← degradeResumeFailed m clock rand fs live cwd;
       startNew clock start fresh resumeFailureNote (rq_Kind req) (rq_Prompt req))
    (turn_post req e0) e.
Proof.
  intros Hk T. wpe_step. apply degrade_spec.
  - intros x e1 [_ T1]. apply turn_post_refused. congruence.
  - intros fresh e1 H1. rewrite <-(replaced_note _ _ _ _ H1).
    destruct H1 as (T1 & Ht & _). apply first_turn_post; congruence.
Qed.

(** A resume that lost its transcript: the session is retired and the turn
    starts over in its successor. *)
Lemma lost_turn_post req live e e1 :
  resumed live (rq_Kind req) (rq_Prompt req) e e1 → ls_ThreadKey live = rq_ThreadKey req →
  wpe (fresh ← degradeResumeFailed m clock rand fs live (rq_Cwd req);
       startNew clock start fresh resumeFailureNote (rq_Kind req) (rq_Prompt req))
    (turn_post req e) e1.
Proof.
  intros (row & row' & Hr & Ht & Hst & T1 & Hd1 & Ht1 & Hc1 & Hs1) Hk.
  set (s := MkSpec _ _ _ _ _ _) in T1.
  assert (Hlive : sessions (env_db e1) !! ls_SessionID live = Some row')
    by (rewrite Hd1; apply lookup_insert_eq).
  wpe_step. apply degrade_spec.
  - intros x e2 [H2 T2]. exists [FxResume s]. split; [congruence|].
    eapply tc_resumed; [|done|exact Hs1]. split_and!; simpl; congruence.
  - intros fresh e2 H2. pose proof (replaced_note _ _ _ _ H2) as Hn.
    destruct H2 as (T2 & Ht2 & _ & x & y & Hx & Hf & _ & Hd2).
    rewrite Hlive in Hx. injection Hx as <-.
    assert (Hne : ls_SessionID live ≠ ls_SessionID fresh) by congruence.
    set (gone := link_session (ls_SessionID fresh) (set_session_status ResumeFailed row')) in Hd2.
    assert (Hspawn : ∀ d, sessions d !! ls_SessionID live = Some gone → spawn_of req d s gone).
    { intros d Hg. split_and!; simpl; try done; congruence. }
    eapply wpe_mono; [apply startNew_spec|]. intros r e3 [[Hr3 [H3 T3]]|Hs3].
    + exists [FxResume s]. split; [congruence|]. rewrite Hr3.
      eapply (tc_lost _ _ _ gone); [|done|done]. apply Hspawn. rewrite H3, Hd2. apply lookup_insert_eq.
    + destruct (started_first req _ _ _ _ _ Hs3) as (s' & row3 & T3 & Hid & Hf3 & Ho); [congruence|done|].
      exists [FxResume s; FxStart s']. split; [rewrite T3, T2, T1, <-app_assoc; done|].
      eapply (tc_degraded _ _ _ _ _ gone); [|done| |exact Hf3].
      * apply Hspawn. rewrite Ho, Hd2 by done. apply lookup_insert_eq.
      * split; [done|]. by rewrite Hid.
Qed.

Lemma turn_on_post req live e e0 :
  ls_ThreadKey live = rq_ThreadKey req → env_trace e = env_trace e0 →
  wpe (turn_on m clock rand fs start resume live req) (turn_post req e0) e.
Proof.
  intros Hk T. unfold turn_on. destruct (ls_Status live);
    try (wpe_step; by apply turn_post_refused).
  - wpe_step. unfold degradationNote. wpe_step. apply wpe_lift. unfold SessionDegraded.
    wpd_step; intros fs'; [by apply turn_post_refused|]. wpe_step.
    match goal with |- wpe _ _ ?e' => apply (first_turn_post req live e'); done end.
  - wpe_step. wpe_step. eapply wpe_mono; [apply resumeTurn_spec|].
    intros r e1 [[Hr [H1 T1]]|H1].
    + destruct r as [[]|x]; [done|]. destruct (isResumeFailure x); simpl.
      * apply degraded_turn_post; congruence.
      * wpe_step. apply turn_post_refused. congruence.
    + assert (Hpost : ∀ r, turn_post req e0 r e1).
      { destruct H1 as (row & row' & Hr & Ht & Hst & T1 & Hd1 & Ht1 & Hc1 & Hs1).
        intros r'. eexists. split; [rewrite <-T; exact T1|].
        eapply tc_resumed; [|done|exact Hs1]. split_and!; simpl; try congruence.
        rewrite Hd1. apply lookup_insert_eq. }
      destruct r as [[]|x]; [by wpe_step|].
      destruct (isResumeFailure x); simpl; [|by wpe_step].
      eapply wpe_mono; [by eapply lost_turn_post|]. intros r e2 (calls & T2 & Hc).
      exists calls. split; [congruence|done].
Qed.

Lemma Turn_post req e : wpe (Turn m clock rand fs start resume req) (turn_post req e) e.
Proof.
  unfold Turn. wpe_step. eapply wpe_mono; [apply Ensure_spec|].
  intros [[live fresh]|x] e1 [T1 Hk]; [|by apply turn_post_refused].
  case_bool_decide; [|by apply turn_on_post].
  wpe_step. unfold rotationCause. wpe_step; [wpe_step|wpe_step; wpe_step; wpe_step].
  2: wpe_step; [|by apply turn_on_post].
  all: wpe_step; wpe_step; (apply wpe_quiet; [apply quiet_assertCwd|]); intros [[]|x] e2 [H2 T2];
    [|by apply degraded_turn_post; simpl in *; congruence]; wpe_step; apply rotate_spec;
    [intros x e3 [_ T3]; apply turn_post_refused; simpl in *; congruence|];
    intros live' e3 (T3 & Hk3 & _); apply turn_on_post; simpl in *; congruence.
Qed.
End flows.

(** The session of the last engine call of a turn that returned is the one the
    thread resolves to. *)
Definition last_spawn (calls : list effect) : option Spec :=
  match last calls with
  | Some (FxStart s) | Some (FxResume s) => Some s
  | _ => None
  end.

Lemma turn_calls_live req d calls :
  session_inv (sessions d) → turn_calls req d true calls →
  ∃ s row, last_spawn calls = Some s
    ∧ live_of_thread (rq_ThreadKey req) d = Some (spec_SessionID s, row) ∧ sr_status row = Active.
Proof.
  intros Hi Hc.
  assert (Hl : ∀ s row, spawn_of req d s row → sr_status row = Active →
    live_of_thread (rq_ThreadKey req) d = Some (spec_SessionID s, row)).
  { intros s row (Hr & Ht & _) Hs. assert (Hv : live row = true) by (unfold live; by rewrite Hs).
    apply find_live; try done. intros k x Hk Hx Htx.
    eapply (si_thread _ Hi); [done..|congruence]. }
  inversion Hc as [|? s row (Hs & _ & Ha)|? s row|?|? s s' row row' _ _ _ (Hs & _ & Ha)]; subst;
    eexists _, _; (split; [done|]); eauto.
Qed.

(** C11: a turn runs the engine at most once per session and never anywhere
    but where the registry says.  Whatever fails (store, clock, file system,
    context, engine), the spawns of one Turn are: none (and the turn failed),
    one start, one resume, or a resume that lost its transcript followed by one
    start in its successor; each is for the request's thread, in the directory
    the session's row records; a first turn carries the lost-history note
    exactly when its session descends from a lost transcript; a first turn's
    session becomes active only with the turn's success; and after a turn that
    returned, the thread resolves to the session that ran last.  The registry's
    invariant is kept and no session is rewritten beyond its legal moves. *)
Theorem Turn_engine_discipline m clock rand fs start resume req e :
  engine_quiet start → engine_quiet resume → session_inv (sessions (env_db e)) →
  let '(r, e') := Turn m clock rand fs start resume req e in
  session_inv (sessions (env_db e'))
  ∧ map_grows session_grows (sessions (env_db e)) (sessions (env_db e'))
  ∧ ∃ calls, env_trace e' = env_trace e ++ calls
      ∧ turn_calls req (env_db e') (is_ok r) calls
      ∧ (is_ok r = true → ∃ s row, last_spawn calls = Some s ∧ sr_status row = Active
          ∧ live_of_thread (rq_ThreadKey req) (env_db e') = Some (spec_SessionID s, row)).
Proof.
  intros Hs Hr Hi.
  pose proof (Turn_advances m clock rand fs start resume Hs Hr req e) as Ha.
  pose proof (Turn_post m clock rand fs start resume Hs Hr req e) as Hp.
  unfold wpe in Ha, Hp. destruct (Turn _ _ _ _ _ _ _ _) as [r e'].
  destruct (Ha Hi) as [Hi' Hg]. destruct Hp as (calls & T & Hc). split_and!; [done..|].
  exists calls. split_and!; [done..|]. intros Hok. rewrite Hok in Hc.
  destruct (turn_calls_live _ _ _ Hi' Hc) as (s & row & ? & ? & ?). eauto.
Qed.

(** An engine whose resumes lose the transcript. *)
Definition sample_manager : Manager := NewManager (MkConfig 0 0 0).
Definition sample_request : TurnRequest := MkTurnRequest "discord:dm:7" "owner" "/w" "message" "hello".
Definition forgetful_turn : result err unit * env :=
  Turn sample_manager (λ _, 100 * Second) (λ _, Some (repeat 7 16)) (λ _, sample_fs)
    (λ _, mret tt) (λ _, fail EResumeFailed) sample_request (Env (World sample_sdb []) 0 [] [] []).

Lemma sample_session_inv : session_inv (sessions sample_sdb).
Proof.
  assert (Hl : ∀ i r, sessions sample_sdb !! i = Some r → i = "s1"%string ∧ r = sample_old).
  { intros i r H. change (sessions sample_sdb) with ({["s1"%string := sample_old]} : gmap string session_row) in H.
    by apply lookup_singleton_Some in H as [<- <-]. }
  split.
  - intros i j r s Hi Hj _ _ _. apply Hl in Hi as [-> _]. by apply Hl in Hj as [-> _].
  - intros i j r s Hi Hj _ _ _ _ _. apply Hl in Hi as [-> _]. by apply Hl in Hj as [-> _].
  - intros i r Hi. apply Hl in Hi as [_ ->]. split_and!; try done; [exists 20; done|by intros []].
  - intros i r j Hi. by apply Hl in Hi as [_ ->].
  - intros i j r s k Hi Hj _ _. apply Hl in Hi as [-> _]. by apply Hl in Hj as [-> _].
  - exists (λ _, 0%nat). intros i r j Hi. by apply Hl in Hi as [_ ->].
Qed.

Lemma Turn_engine_discipline_witness :
  is_ok forgetful_turn.1 = true
  ∧ (let '(r, e') := forgetful_turn in ∃ calls, env_trace e' = calls
       ∧ turn_calls sample_request (env_db e') (is_ok r) calls)
  ∧ match env_trace forgetful_turn.2 with
    | [FxResume s; FxStart s'] => spec_SessionID s = "s1"%string
        ∧ spec_SessionID s' = "07070707-0707-4707-8707-070707070707"%string
        ∧ spec_TransparencyNote s' = resumeFailureNote
    | _ => False
    end.
Proof.
  split; [vm_compute; reflexivity|]. split; [|vm_compute; auto].
  assert (H := Turn_engine_discipline sample_manager (λ _, 100 * Second) (λ _, Some (repeat 7 16))
    (λ _, sample_fs) (λ _, mret tt) (λ _, fail EResumeFailed) sample_request
    (Env (World sample_sdb []) 0 [] [] [])).
  fold forgetful_turn in H. destruct forgetful_turn as [r e'].
  destruct H as (_ & _ & calls & T & Hc & _);
    [by intros s e|by intros s e|apply sample_session_inv|].
  exists calls. split; [exact T|exact Hc].
Defined.

(** ** The activation window *)

(** A minted session never expires early.  The row's creation is the
    clock's second, its deadline is the end of the activation window rounded up
    to a whole second (so between 0 and 1 second late, never early), the
    deadline lies after the creation whatever window the configuration asked
    for, and the row carries the thread, floor, directory and origin it was
    asked for. *)
Theorem mint_window cfg clock rand tk floor cwd origin e :
  let m := NewManager cfg in
  wpe (mint m clock rand tk floor cwd origin)
    (λ r e', match r with
     | Err x => x = EIO ∧ rand (env_ticks e) = None
     | Ok s => ∃ t, t = clock (env_ticks e) ∧ s_CreatedAt s * Second ≤ t < (s_CreatedAt s + 1) * Second
         ∧ t + m_window m ≤ s_ActivationDeadline s * Second < t + m_window m + Second
         ∧ s_CreatedAt s < s_ActivationDeadline s
         ∧ (s_ThreadKey s, s_TrustFloor s, s_Cwd s, s_Origin s) = (tk, floor, cwd, origin)
     end) e.
Proof.
  intros m. assert (Hw : Second ≤ m_window m).
  { unfold m, NewManager. simpl. destruct (Z.ltb _ Second) eqn:Hc; [|lia].
    unfold defaultActivationWindow, Second. lia. }
  clearbody m. unfold mint, wpe, newSessionID, mbind, EnvM_bind, M_bind.
  destruct (rand (env_ticks e)) as [b|]; [|done]. simpl. set (t := clock (env_ticks e)).
  exists t. split; [done|]. unfold unix, Second in *.
  generalize dependent (m_window m). intros w Hw.
  destruct (Z.ltb ((t + w) / 1000000000 * 1000000000) (t + w)) eqn:Hlt;
    split_and!; try done; Z.to_euclidean_division_equations; lia.
Qed.

(** ** Rotation *)

Lemma due_exact m turns lastSeen createdAt nowUnix :
  let since := if Z.eqb lastSeen 0 then createdAt else lastSeen in
  in_int64 (nowUnix - since) → in_int64 ((nowUnix - since) * Second) →
  in_int64 (m_idleTTL m + Second) →
  rotation_due m turns lastSeen createdAt nowUnix ≠ None ↔
  m_turnCap m ≤ turns ∨ m_idleTTL m + Second ≤ (nowUnix - since) * Second.
Proof.
  intros since H1 H2 H3. unfold rotation_due. destruct (Z.leb (m_turnCap m) turns) eqn:Hc;
    [split; [left; lia|done]|]. fold since.
  rewrite (wrap64_id (nowUnix - since)), (wrap64_id ((nowUnix - since) * Second)), wrap64_id by done.
  destruct (Z.leb (m_idleTTL m + Second) ((nowUnix - since) * Second)) eqn:Hi; split; intros H;
    try done; [right; lia|destruct H; lia].
Qed.

(** C23: the idle rotation is never early and at most two seconds late.  For
    a session last seen (or, untouched, created) at instant [t0] and asked about
    at [t1], in nanoseconds with every duration inside int64: below the turn cap
    and with less than the TTL elapsed it is kept; at the cap, or two seconds
    past the TTL, it is rotated. *)
Theorem rotation_never_early m turns lastSeen createdAt t0 t1 :
  unix t0 = (if Z.eqb lastSeen 0 then createdAt else lastSeen) →
  0 ≤ t0 ≤ t1 → t1 ≤ int64_max - Second → 0 ≤ m_idleTTL m ≤ int64_max - Second →
  (turns < m_turnCap m → t1 - t0 < m_idleTTL m →
     rotation_due m turns lastSeen createdAt (unix t1) = None)
  ∧ (m_turnCap m ≤ turns ∨ m_idleTTL m + 2 * Second ≤ t1 - t0 →
     rotation_due m turns lastSeen createdAt (unix t1) ≠ None).
Proof.
  intros Hs Ht Hmax Httl. set (due := rotation_due _ _ _ _ _).
  assert (Hdue : due ≠ None ↔
    m_turnCap m ≤ turns ∨ m_idleTTL m + Second ≤ (unix t1 - unix t0) * Second).
  { unfold due. rewrite Hs. unfold int64_max in *.
    apply due_exact; unfold in_int64, int64_min, int64_max; rewrite <-?Hs; unfold unix, Second in *;
      Z.to_euclidean_division_equations; lia. }
  assert (Hb : t1 - t0 - Second < (unix t1 - unix t0) * Second < t1 - t0 + Second).
  { unfold unix, Second in *. Z.to_euclidean_division_equations. lia. }
  split.
  - intros Hc Hi. destruct (decide (due = None)) as [|Hn]; [done|]. apply Hdue in Hn. lia.
  - intros H. apply Hdue. lia.
Qed.

Lemma rotation_never_early_witness :
  rotation_due sample_manager 3 1000 900 1100 = None
  ∧ rotation_due sample_manager 3 1000 900 (1000 + 4 * 3600 + 2) ≠ None.
Proof.
  split.
  - apply (rotation_never_early sample_manager 3 1000 900 (1000 * Second) (1100 * Second));
      vm_compute; intuition congruence.
  - apply (rotation_never_early sample_manager 3 1000 900 (1000 * Second) ((1000 + 4 * 3600 + 2) * Second));
      [vm_compute; intuition congruence..|right; vm_compute; intuition congruence].
Defined.
