(* ===== verification/Relay.v ===== *)
(** * The Discord adapter's outbound half (src/internal/adapter/discord/relay.go, send.go)

    The chunker, the DM channel cache with Send, and the Relay that streams one
    turn.  A [dstate] holds the adapter's cache, the relay's fields, how many
    questions the outside world has answered, and the log of platform calls.
    The platform, the context and the clock are outside the repository: [plat],
    [dead] and [clock] answer the [n]th question, each arbitrarily.  The typing
    keepalive is a flag (its goroutine only refreshes an indicator), and the
    session pointer the REST calls ride is not modelled. *)
From S2P Require Import Prelude Utf8 Schema Events StoreSpec.
Local Open Scope Z_scope.

(** ** The chunker *)

Definition messageCap : nat := 2000.

(** The loop over the remaining runes; each round takes at least one, so the
    number of runes bounds the rounds. *)
Fixpoint chunk_loop (fuel capRunes : nat) (rs : list Z) : list string :=
  match fuel, rs with
  | _, [] => []
  | O, _ => []
  | S fuel', _ =>
      let n := Nat.min (length rs) capRunes in
      string_of_runes (take n rs) :: chunk_loop fuel' capRunes (drop n rs)
  end.

Definition chunkRunes (text : string) (capRunes : nat) : list string :=
  if empty text then [] else chunk_loop (length (runes text)) capRunes (runes text).

Definition ChunkMessage (text : string) : list string := chunkRunes text messageCap.

(** ** State *)

Record Relay : Type := MkRelay {
  rl_threadKey : string;
  rl_buf : string;
  rl_channelID : string;
  rl_partialID : string;
  rl_posted : bool;
  rl_partialAtCap : bool;
  rl_lastEdit : option Z;   (* None is the zero time *)
  rl_done : bool;
  rl_typing : bool;         (* typingStop is not nil *)
}.

(** A call to the platform, or to the attempt journal of FinishJournaled. *)
Inductive pcall : Type :=
| PCreateDM (user : string)
| PSend (channel text : string)
| PEdit (channel message text : string)
| PDelete (channel message : string)
| PJournal (chunk : nat).

(** The answer to a call: [None] is an error, [Some id] the returned object's id
    (empty for a nil object or an object without one). *)
Record dstate : Type := DState {
  ds_dm : gmap string string;
  ds_relay : Relay;
  ds_ticks : nat;
  ds_log : list (pcall * option string);
}.

Definition DM (A : Type) : Type := M dstate err A.
#[global] Instance DM_ret : MRet DM := λ A, @M_ret dstate err A.
#[global] Instance DM_bind : MBind DM := λ A B, @M_bind dstate err A B.

Definition get_relay : DM Relay := λ s, (Ok (ds_relay s), s).
Definition put_relay (f : Relay → Relay) : DM unit := λ s,
  (Ok tt, DState (ds_dm s) (f (ds_relay s)) (ds_ticks s) (ds_log s)).
Definition get_dm (user : string) : DM (option string) := λ s, (Ok (ds_dm s !! user), s).
Definition put_dm (f : gmap string string → gmap string string) : DM unit := λ s,
  (Ok tt, DState (f (ds_dm s)) (ds_relay s) (ds_ticks s) (ds_log s)).

Definition NewRelay (threadKey : string) : Relay :=
  MkRelay threadKey "" "" "" false false None false false.

(** Field updates. *)
Definition with_buf (b : string) (r : Relay) : Relay :=
  MkRelay (rl_threadKey r) b (rl_channelID r) (rl_partialID r) (rl_posted r)
    (rl_partialAtCap r) (rl_lastEdit r) (rl_done r) (rl_typing r).
Definition with_channel (c : string) (r : Relay) : Relay :=
  MkRelay (rl_threadKey r) (rl_buf r) c (rl_partialID r) (rl_posted r)
    (rl_partialAtCap r) (rl_lastEdit r) (rl_done r) (rl_typing r).
Definition with_partial (p : string) (posted : bool) (r : Relay) : Relay :=
  MkRelay (rl_threadKey r) (rl_buf r) (rl_channelID r) p posted
    (rl_partialAtCap r) (rl_lastEdit r) (rl_done r) (rl_typing r).
Definition with_cap (c : bool) (r : Relay) : Relay :=
  MkRelay (rl_threadKey r) (rl_buf r) (rl_channelID r) (rl_partialID r) (rl_posted r)
    c (rl_lastEdit r) (rl_done r) (rl_typing r).
Definition with_lastEdit (t : Z) (r : Relay) : Relay :=
  MkRelay (rl_threadKey r) (rl_buf r) (rl_channelID r) (rl_partialID r) (rl_posted r)
    (rl_partialAtCap r) (Some t) (rl_done r) (rl_typing r).
Definition with_done (r : Relay) : Relay :=
  MkRelay (rl_threadKey r) (rl_buf r) (rl_channelID r) (rl_partialID r) (rl_posted r)
    (rl_partialAtCap r) (rl_lastEdit r) true (rl_typing r).
Definition with_typing (b : bool) (r : Relay) : Relay :=
  MkRelay (rl_threadKey r) (rl_buf r) (rl_channelID r) (rl_partialID r) (rl_posted r)
    (rl_partialAtCap r) (rl_lastEdit r) (rl_done r) b.

Definition editInterval : Z := 1500 * 1000000.
Definition partialMin : Z := 200.

(** strings.CutPrefix. *)
Fixpoint CutPrefix (s prefix : string) : option string :=
  match prefix, s with
  | EmptyString, _ => Some s
  | String p prefix', String c s' => if Ascii.eqb p c then CutPrefix s' prefix' else None
  | String _ _, EmptyString => None
  end.

Section discord.
Context (plat : nat → option string) (dead : nat → bool) (clock : nat → Z).

(** ** Questions to the outside *)

Definition tick {A} (f : nat → A) : DM A := λ s,
  (Ok (f (ds_ticks s)), DState (ds_dm s) (ds_relay s) (S (ds_ticks s)) (ds_log s)).
Definition call (c : pcall) : DM (option string) := λ s,
  let a := plat (ds_ticks s) in
  (Ok a, DState (ds_dm s) (ds_relay s) (S (ds_ticks s)) (ds_log s ++ [(c, a)])).
Definition time_now : DM Z := tick clock.
Definition ctx_over : DM bool := tick dead.

(** ** Sending one message (send.go) *)

Definition resolveSendChannel (threadKey : string) : DM string :=
  let dm :=
    match CutPrefix threadKey "discord:dm:" with
    | None => fail (ERefused "not a discord thread key")
    | Some userID =>
        if empty userID then fail (ERefused "not a discord thread key")
        else
          hit ← get_dm userID;
          match hit with
          | Some channelID => mret channelID
          | None =>
              ch ← call (PCreateDM userID);
              match ch with
              | None => fail EIO
              | Some id =>
                  if empty id then fail (ERefused "no DM channel")
                  else _ ← put_dm (<[userID := id]>); mret id
              end
          end
    end in
  match CutPrefix threadKey "discord:thread:" with
  | Some threadID => if empty threadID then dm else mret threadID
  | None => dm
  end.

Definition invalidateDMChannel (threadKey : string) : DM unit :=
  match CutPrefix threadKey "discord:dm:" with
  | None => mret tt
  | Some userID => put_dm (delete userID)
  end.

Definition Send (threadKey text : string) : DM string :=
  over ← ctx_over;
  if (over : bool) then fail ECtx
  else
    channelID ← resolveSendChannel threadKey;
    msg ← call (PSend channelID text);
    match msg with
    | None => _ ← invalidateDMChannel threadKey; fail EIO
    | Some id =>
        if empty id then fail (ERefused "accepted without a message id")
        else mret ("discord:msg:" +:+ id)%string
    end.

(** ** The relay (relay.go) *)

Definition resolveChannelLocked : DM unit :=
  r ← get_relay;
  if negb (empty (rl_channelID r)) then mret tt
  else
    id ← resolveSendChannel (rl_threadKey r);
    put_relay (with_channel id).

Definition stopTypingLocked : DM unit := put_relay (with_typing false).

Definition invalidateChannelLocked : DM unit :=
  r ← get_relay;
  _ ← invalidateDMChannel (rl_threadKey r);
  match CutPrefix (rl_threadKey r) "discord:dm:" with
  | None => mret tt
  | Some _ =>
      _ ← put_relay (with_channel "");
      _ ← put_relay (λ r, with_partial "" (rl_posted r) r);
      stopTypingLocked
  end.

Definition partialContentLocked : DM string :=
  r ← get_relay;
  let rs := runes (rl_buf r) in
  if Nat.ltb (length rs) messageCap then mret (string_of_runes rs)
  else _ ← put_relay (with_cap true); mret (string_of_runes (take messageCap rs)).

(** [!r.lastEdit.IsZero() && time.Since(r.lastEdit) < r.editInterval]. *)
Definition throttled : DM bool :=
  r ← get_relay;
  match rl_lastEdit r with
  | None => mret false
  | Some t => n ← time_now; mret (Z.ltb (n - t) editInterval)
  end.

Definition stamp_edit : DM unit := n ← time_now; put_relay (with_lastEdit n).

Definition ensureTypingLocked : DM unit :=
  r ← get_relay;
  if rl_typing r then mret tt
  else
    wait ← throttled;
    if (wait : bool) then mret tt
    else
      res ← try resolveChannelLocked;
      match res with
      | Err _ => stamp_edit
      | Ok _ => put_relay (with_typing true)
      end.

Definition Push (delta : string) : DM unit :=
  r ← get_relay;
  if rl_done r then mret tt
  else
    over ← ctx_over;
    if (over : bool) then mret tt
    else
      _ ← put_relay (λ r, with_buf (rl_buf r +:+ delta) r);
      r ← get_relay;
      if empty (rl_partialID r) then
        if Z.ltb (rune_count (rl_buf r)) partialMin then ensureTypingLocked
        else
          wait ← throttled;
          if (wait : bool) then mret tt
          else
            res ← try resolveChannelLocked;
            match res with
            | Err _ => stamp_edit
            | Ok _ =>
                content ← partialContentLocked;
                r ← get_relay;
                msg ← call (PSend (rl_channelID r) content);
                match msg with
                | None => _ ← invalidateChannelLocked; stamp_edit
                | Some id =>
                    if empty id then _ ← invalidateChannelLocked; stamp_edit
                    else
                      _ ← put_relay (with_partial id true);
                      _ ← stamp_edit;
                      stopTypingLocked
                end
            end
      else
        if rl_partialAtCap r then mret tt
        else
          n ← time_now;
          if Z.ltb (n - default 0 (rl_lastEdit r)) editInterval then mret tt
          else
            content ← partialContentLocked;
            r ← get_relay;
            msg ← call (PEdit (rl_channelID r) (rl_partialID r) content);
            _ ← (match msg with None => invalidateChannelLocked | Some _ => mret tt end);
            stamp_edit.

Definition Posted : DM bool := r ← get_relay; mret (rl_posted r).

Definition Cancel : DM unit := _ ← put_relay with_done; stopTypingLocked.

Definition Retract : DM unit :=
  _ ← put_relay with_done;
  _ ← stopTypingLocked;
  r ← get_relay;
  if empty (rl_partialID r) || empty (rl_channelID r) then mret tt
  else
    _ ← call (PDelete (rl_channelID r) (rl_partialID r));
    put_relay (λ r, with_partial "" (rl_posted r) r).

(** *** The final delivery

    [J] is the state the journal callback writes; [before] is [None] for
    Finish.  The acks earned come back beside the error. *)
Section finish.
Context {J : Type} (before : option (nat → M J err unit)).

Definition RM (A : Type) : Type := M (dstate * J) err A.
#[local] Instance RM_ret : MRet RM := λ A, @M_ret (dstate * J) err A.
#[local] Instance RM_bind : MBind RM := λ A B, @M_bind (dstate * J) err A B.

Definition liftD {A} (m : DM A) : RM A := λ s, let '(r, d) := m s.1 in (r, (d, s.2)).

Definition journal (i : nat) : RM unit := λ s,
  match before with
  | None => (Ok tt, s)
  | Some f =>
      let '(r, j) := f i s.2 in
      (r, (DState (ds_dm s.1) (ds_relay s.1) (ds_ticks s.1)
             (ds_log s.1 ++ [(PJournal i, match r with Ok _ => Some ""%string | Err _ => None end)]), j))
  end.

(** The acks so far, and what ended the delivery. *)
Definition Acks : Type := list string * option err.

Fixpoint send_rest (i : nat) (rest : list string) (acks : list string) : RM Acks :=
  match rest with
  | [] => mret (acks, None)
  | chunk :: rest' =>
      stamped ← try (journal i);
      match stamped with
      | Err e => mret (acks, Some e)
      | Ok _ =>
          r ← liftD get_relay;
          msg ← liftD (call (PSend (rl_channelID r) chunk));
          match msg with
          | None => _ ← liftD invalidateChannelLocked; mret (acks, Some EIO)
          | Some id =>
              if empty id then mret (acks, Some (ERefused "accepted without a message id"))
              else send_rest (S i) rest' (acks ++ [("discord:msg:" +:+ id)%string])
          end
      end
  end.

Definition finish : RM Acks :=
  r ← liftD get_relay;
  if rl_done r then mret ([], Some (ERefused "already finished or cancelled"))
  else
    _ ← liftD (put_relay with_done);
    _ ← liftD stopTypingLocked;
    over ← liftD ctx_over;
    if (over : bool) then mret ([], Some ECtx)
    else
      let text := rl_buf r in
      if empty text && empty (rl_partialID r) then mret ([], None)
      else
        res ← try (liftD resolveChannelLocked);
        match res with
        | Err e => mret ([], Some e)
        | Ok _ =>
            let chunks := chunkRunes text messageCap in
            match chunks with
            | first :: others =>
                if empty (rl_partialID r) then send_rest 0 chunks []
                else
                  stamped ← try (journal 0);
                  match stamped with
                  | Err e => mret ([], Some e)
                  | Ok _ =>
                      r ← liftD get_relay;
                      msg ← liftD (call (PEdit (rl_channelID r) (rl_partialID r) first));
                      match msg with
                      | Some _ => send_rest 1 others [("discord:msg:" +:+ rl_partialID r)%string]
                      | None =>
                          _ ← liftD invalidateChannelLocked;
                          res ← try (liftD resolveChannelLocked);
                          match res with
                          | Err e => mret ([], Some e)
                          | Ok _ => send_rest 0 chunks []
                          end
                      end
                  end
            | [] => mret ([], None)
            end
        end.
End finish.

Definition Finish : RM (J := unit) Acks := finish None.
Definition FinishJournaled {J} (beforeSend : option (nat → M J err unit)) : RM (J := J) Acks :=
  match beforeSend with
  | None => mret ([], Some (EInvalid "nil attempt journal"))
  | Some _ => finish beforeSend
  end.
End discord.

(** ** Lemmas: the chunker *)

Lemma chunk_loop_spec fuel cap rs :
  (0 < cap)%nat → (length rs ≤ fuel)%nat → Forall (λ r, scalar r = true) rs →
  let cs := chunk_loop fuel cap rs in
  concat (map runes cs) = rs ∧ foldr String.append ""%string cs = string_of_runes rs
  ∧ Forall (λ c, (0 < length (runes c) ≤ cap)%nat) cs
  ∧ ∀ i c, cs !! i = Some c → (S i < length cs)%nat → length (runes c) = cap.
Proof.
  intros Hc. revert rs. induction fuel as [|fuel IH]; intros rs Hl Hs.
  { destruct rs; [|simpl in Hl; lia]. split_and!; [done..|by intros []]. }
  destruct rs as [|r rs']; [split_and!; [done..|by intros []]|].
  assert (Hpos : (0 < length (r :: rs'))%nat) by (simpl; lia).
  set (rs := r :: rs') in *.
  change (chunk_loop (S fuel) cap rs) with
    (string_of_runes (take (Nat.min (length rs) cap) rs)
     :: chunk_loop fuel cap (drop (Nat.min (length rs) cap) rs)).
  set (n := Nat.min (length rs) cap).
  assert (Hneq : n = Nat.min (length rs) cap) by done.
  assert (Hn : (0 < n ≤ length rs)%nat) by lia. clearbody n.
  assert (Hlen : length (runes (string_of_runes (take n rs))) = n).
  { rewrite runes_string_of_runes by (by apply Forall_take). rewrite length_take. lia. }
  destruct (IH (drop n rs)) as (I1 & I2 & I3 & I4).
  { rewrite length_drop. lia. } { by apply Forall_drop. }
  split_and!.
  - cbn [map concat]. rewrite runes_string_of_runes by (by apply Forall_take).
    rewrite I1. apply take_drop.
  - cbn [foldr]. rewrite I2, <-string_of_runes_app. by rewrite take_drop.
  - constructor; [lia|done].
  - intros [|i] c; cbn [lookup list_lookup length].
    + intros [= <-] Hi. rewrite Hlen.
      destruct (drop n rs) eqn:Hd; [destruct fuel; simpl in Hi; lia|].
      apply (f_equal length) in Hd. rewrite length_drop in Hd. cbn [length] in Hd. clearbody rs. lia.
    + intros Hi Hlt. apply (I4 i); [done|lia].
Qed.

(** C21: the chunker loses nothing and respects the platform's cap.  The
    chunks' runes are the text's runes in order (so their concatenation is the
    text itself when it is valid UTF-8), no chunk is empty or longer than 2000
    runes, and every chunk but the last is full. *)
Theorem ChunkMessage_exact text :
  let cs := ChunkMessage text in
  concat (map runes cs) = runes text
  ∧ (valid_utf8 text → foldr String.append ""%string cs = text)
  ∧ Forall (λ c, 0 < rune_count c ≤ 2000) cs
  ∧ ∀ i c, cs !! i = Some c → (S i < length cs)%nat → rune_count c = 2000.
Proof.
  unfold ChunkMessage, chunkRunes, empty. case_bool_decide as He.
  { subst. split_and!; [done..|by intros []]. }
  destruct (chunk_loop_spec (length (runes text)) messageCap (runes text)) as (H1 & H2 & H3 & H4);
    [unfold messageCap; lia|done|apply runes_scalar|].
  cbv zeta in *. split_and!; [done|intros Hv; by rewrite H2| |].
  - eapply Forall_impl; [exact H3|]. unfold rune_count, messageCap. lia.
  - intros i c Hi Hlt. unfold rune_count. rewrite (H4 i c Hi Hlt). done.
Qed.

(** ** Lemmas: the final delivery *)

(** The weakest precondition of a call over any state. *)
Definition wpm {S A} (m : M S err A) (Q : result err A → S → Prop) (s : S) : Prop :=
  let '(r, s') := m s in Q r s'.

Section wpm.
Context {S : Type}.

Lemma wpm_mono {A} (m : M S err A) (Q Q' : result err A → S → Prop) s :
  wpm m Q s → (∀ r s', Q r s' → Q' r s') → wpm m Q' s.
Proof. unfold wpm. destruct (m s). auto. Qed.

Lemma wpm_bind {A B} (m : M S err A) (f : A → M S err B) (Q : result err B → S → Prop) s :
  wpm m (λ r s', match r with Ok a => wpm (f a) Q s' | Err x => Q (Err x) s' end) s →
  wpm (m ≫= f) Q s.
Proof. unfold wpm, mbind, M_bind. by destruct (m s) as [[a|x] s']. Qed.

Lemma wpm_ret {A} (a : A) (Q : result err A → S → Prop) s :
  Q (Ok a) s → wpm (mret a) Q s.
Proof. done. Qed.

Lemma wpm_try {A} (m : M S err A) (Q : result err (result err A) → S → Prop) s :
  wpm m (λ r s', Q (Ok r) s') s → wpm (try m) Q s.
Proof. unfold wpm, try. by destruct (m s). Qed.
End wpm.

Lemma wpm_liftD {J A} (m : DM A) (Q : result err A → dstate * J → Prop) s (j : J) :
  wpm m (λ r s', Q r (s', j)) s → wpm (liftD m) Q (s, j).
Proof. unfold wpm, liftD. simpl. by destruct (m s). Qed.

(** What the final delivery relies on of a relay: its text, thread, evidence
    bit and whether it is over. *)
Definition same_text (r r' : Relay) : Prop :=
  rl_buf r' = rl_buf r ∧ rl_threadKey r' = rl_threadKey r ∧ rl_posted r' = rl_posted r
  ∧ rl_done r' = rl_done r.

Definition is_create (x : pcall * option string) : Prop :=
  match x.1 with PCreateDM _ => True | _ => False end.

(** The state moved by channel resolution only. *)
Definition resolved (s s' : dstate) : Prop :=
  same_text (ds_relay s) (ds_relay s') ∧ rl_partialID (ds_relay s') = rl_partialID (ds_relay s)
  ∧ ∃ log, ds_log s' = ds_log s ++ log ∧ Forall is_create log.

Lemma resolved_quiet s s' :
  ds_relay s' = ds_relay s → ds_log s' = ds_log s → resolved s s'.
Proof.
  intros Hr Hl. unfold resolved, same_text. rewrite Hr, Hl. split_and!; try done.
  exists []. by rewrite app_nil_r.
Qed.

Section delivery.
Context (plat : nat → option string) (dead : nat → bool) (clock : nat → Z).

Lemma resolveSendChannel_resolved key s :
  wpm (resolveSendChannel plat key) (λ _ s', resolved s s' ∧ ds_relay s' = ds_relay s) s.
Proof.
  assert (Hnop : resolved s s ∧ ds_relay s = ds_relay s) by (split; [by apply resolved_quiet|done]).
  unfold resolveSendChannel.
  assert (Hdm : wpm (match CutPrefix key "discord:dm:" with
    | None => fail (ERefused "not a discord thread key")
    | Some userID =>
        if empty userID then fail (ERefused "not a discord thread key")
        else hit ← get_dm userID;
          match hit with
          | Some channelID => mret channelID
          | None => ch ← call plat (PCreateDM userID);
              match ch with
              | None => fail EIO
              | Some id => if empty id then fail (ERefused "no DM channel")
                  else _ ← put_dm (<[userID := id]>); mret id
              end
          end
    end) (λ _ s', resolved s s' ∧ ds_relay s' = ds_relay s) s).
  { destruct (CutPrefix key "discord:dm:") as [user|]; [|exact Hnop].
    destruct (empty user); [exact Hnop|].
    unfold wpm, get_dm, call, put_dm, mbind, DM_bind, M_bind.
    destruct (ds_dm s !! user); [exact Hnop|].
    assert (Hone : ∀ dm, resolved s (DState dm (ds_relay s) (S (ds_ticks s))
                     (ds_log s ++ [(PCreateDM user, plat (ds_ticks s))]))).
    { intros dm. split_and!; try done. eexists. split; [done|]. by repeat constructor. }
    destruct (plat (ds_ticks s)) as [id|]; [destruct (empty id)|]; split; try apply Hone; done. }
  destruct (CutPrefix key "discord:thread:") as [t|]; [|exact Hdm].
  destruct (empty t); [exact Hdm|exact Hnop].
Qed.

Lemma resolveChannelLocked_resolved s :
  wpm (resolveChannelLocked plat) (λ _ s', resolved s s') s.
Proof.
  unfold resolveChannelLocked. apply wpm_bind. unfold wpm at 1, get_relay.
  destruct (negb _); [by apply resolved_quiet|].
  apply wpm_bind. eapply wpm_mono; [apply resolveSendChannel_resolved|].
  intros [id|x] s' [Hs' _]; [|done]. exact Hs'.
Qed.

(** Invalidation forgets the channel; it calls nobody. *)
Lemma invalidateChannelLocked_spec s :
  wpm invalidateChannelLocked (λ r s', r = Ok tt ∧ ds_log s' = ds_log s
    ∧ same_text (ds_relay s) (ds_relay s')) s.
Proof.
  unfold invalidateChannelLocked, invalidateDMChannel, wpm, mbind, DM_bind, M_bind, get_relay,
    put_dm, put_relay, stopTypingLocked.
  by destruct (CutPrefix _ _).
Qed.

(** The platform calls of a final delivery of [chunks], of which [i] are already
    delivered, and the acks they earn: each edit or send follows its own stamp
    and carries the next undelivered chunk; a refused send ends the delivery, a
    refused edit is retried as a send. *)
Inductive final_log (chunks : list string) :
  nat → list (pcall * option string) → list string → Prop :=
| fl_end i : final_log chunks i [] []
| fl_resolve i x log acks :
    is_create x → final_log chunks i log acks → final_log chunks i (x :: log) acks
| fl_unstamped i : final_log chunks i [(PJournal i, None)] []
| fl_refused i ch t a :
    chunks !! i = Some t → a = None ∨ a = Some ""%string →
    final_log chunks i [(PJournal i, Some ""%string); (PSend ch t, a)] []
| fl_unedited ch msg t log acks :
    chunks !! 0%nat = Some t → final_log chunks 0 log acks →
    final_log chunks 0 ((PJournal 0, Some ""%string) :: (PEdit ch msg t, None) :: log) acks
| fl_edited ch msg t a log acks :
    chunks !! 0%nat = Some t → final_log chunks 1 log acks →
    final_log chunks 0 ((PJournal 0, Some ""%string) :: (PEdit ch msg t, Some a) :: log)
      (("discord:msg:" +:+ msg)%string :: acks)
| fl_sent i ch t id log acks :
    chunks !! i = Some t → id ≠ ""%string → final_log chunks (S i) log acks →
    final_log chunks i ((PJournal i, Some ""%string) :: (PSend ch t, Some id) :: log)
      (("discord:msg:" +:+ id)%string :: acks).

(** The journal calls of a log, in order. *)
Definition stamps (log : list (pcall * option string)) : list nat :=
  omap (λ x : pcall * option string, match x.1 with PJournal i => Some i | _ => None end) log.

Lemma stamps_app l l' : stamps (l ++ l') = stamps l ++ stamps l'.
Proof. unfold stamps. apply omap_app. Qed.

Lemma stamps_create log : Forall is_create log → stamps log = [].
Proof. induction 1 as [|[[] a] log Hx _ IH]; simpl; done. Qed.

Lemma final_log_resolve chunks i log log' acks :
  Forall is_create log → final_log chunks i log' acks → final_log chunks i (log ++ log') acks.
Proof. induction 1; simpl; [done|]. intros. constructor; auto. Qed.

Section journaled.
Context {J : Type} (f : nat → M J err unit).

Definition journal_run (j : J) (idx : list nat) : J := foldl (λ j i, (f i j).2) j idx.

(** How a delivery ended, from a point with [i] chunks delivered and [acks]
    earned. *)
Definition ends (chunks : list string) (i : nat) (acks : list string) (s : dstate) (j : J)
    (r : result err Acks) (s' : dstate * J) : Prop :=
  ∃ more e log, r = Ok (acks ++ more, e) ∧ ds_log s'.1 = ds_log s ++ log
    ∧ final_log chunks i log more ∧ s'.2 = journal_run j (stamps log)
    ∧ same_text (ds_relay s) (ds_relay s'.1)
    ∧ (e = None → (i + length more = length chunks)%nat)
    ∧ (e ≠ None → (i + length more < length chunks)%nat).

Lemma send_rest_ends chunks i rest acks s j :
  drop i chunks = rest → (i ≤ length chunks)%nat →
  wpm (send_rest plat (Some f) i rest acks) (ends chunks i acks s j) (s, j).
Proof.
  revert i acks s j. induction rest as [|c rest IH]; intros i acks s j Hd Hi; cbn [send_rest].
  { exists [], None, []. rewrite !app_nil_r. split_and!; try done; [constructor|].
    intros _. apply (f_equal length) in Hd. rewrite length_drop in Hd. simpl in *. lia. }
  assert (Hc : chunks !! i = Some c) by by rewrite <-(Nat.add_0_r i), <-lookup_drop, Hd.
  assert (Hd' : drop (S i) chunks = rest) by by rewrite <-Nat.add_1_r, <-drop_drop, Hd.
  assert (Hlt : (i < length chunks)%nat) by by eapply lookup_lt_Some.
  apply wpm_bind, wpm_try. unfold wpm at 1, journal. cbn [fst snd].
  destruct (f i j) as [[[]|x] j'] eqn:Hf; cbn.
  2: { exists [], (Some x), [(PJournal i, None)]. rewrite app_nil_r.
       split_and!; try done; [apply fl_unstamped|by cbn; rewrite Hf|simpl; lia]. }
  set (s1 := DState _ _ _ _). unfold wpm at 1, liftD at 1, get_relay, mbind, RM_bind, M_bind. cbn.
  unfold call. cbn. set (ch := rl_channelID _).
  destruct (plat (ds_ticks s)) as [id|].
  - unfold empty. case_bool_decide as He.
    + exists [], (Some (ERefused "accepted without a message id")), 
        [(PJournal i, Some ""%string); (PSend ch c, Some id)].
      rewrite app_nil_r. cbn. rewrite <-app_assoc, Hf.
      split_and!; try done; [apply fl_refused; [done|right; congruence]|simpl; lia].
    + match goal with |- let '(_, _) := ?m ?st in _ => change (wpm m (ends chunks i acks s j) st) end.
      eapply wpm_mono; [apply (IH (S i)); [done|lia]|].
      intros r [s' j''] (more & e & log & -> & Hl & Hfl & Hj & Ht & H0 & H1). cbn in *.
      exists (("discord:msg:" +:+ id)%string :: more), e,
        ((PJournal i, Some ""%string) :: (PSend ch c, Some id) :: log).
      split_and!.
      * by rewrite <-app_assoc.
      * cbn. rewrite Hl. cbn. by rewrite <-!app_assoc.
      * by apply fl_sent.
      * cbn. rewrite Hj. by rewrite Hf.
      * done.
      * intros H. specialize (H0 H). simpl. lia.
      * intros H. specialize (H1 H). simpl. lia.
  - match goal with |- context [invalidateChannelLocked ?st] =>
      pose proof (invalidateChannelLocked_spec st) as Hinv; unfold wpm in Hinv;
      destruct (invalidateChannelLocked st) as [r s2] end.
    destruct Hinv as (-> & Hl & Ht). cbn in *.
    exists [], (Some EIO), [(PJournal i, Some ""%string); (PSend ch c, None)].
    rewrite app_nil_r. cbn. rewrite Hl, <-!app_assoc, Hf.
    split_and!; try done; [apply fl_refused; [done|by left]|simpl; lia].
Qed.

(** Continue a delivery after a quiet prefix. *)
Lemma ends_after chunks i acks s j s1 j1 pre r s' :
  ds_log s1 = ds_log s ++ pre → same_text (ds_relay s) (ds_relay s1) →
  (∀ log more, final_log chunks i log more → final_log chunks i (pre ++ log) more) →
  j1 = journal_run j (stamps pre) →
  ends chunks i acks s1 j1 r s' → ends chunks i acks s j r s'.
Proof.
  intros Hl (Tb & Tk & Tp & Td) Hpre -> (more & e & log & -> & Hl' & Hfl & Hj & (Ub & Uk & Up & Ud) & H0 & H1).
  exists more, e, (pre ++ log). split_and!; auto.
  - by rewrite Hl', Hl, app_assoc.
  - rewrite Hj, stamps_app. unfold journal_run. by rewrite foldl_app.
  - split_and!; congruence.
Qed.

Lemma ends_resolved chunks i acks s j s1 r s' :
  resolved s s1 → ends chunks i acks s1 j r s' → ends chunks i acks s j r s'.
Proof.
  intros (Ht & _ & log & Hl & Hc). eapply ends_after; eauto using final_log_resolve.
  by rewrite stamps_create.
Qed.

(** A delivery that never reached a chunk. *)
Lemma ends_early chunks s j e s' :
  chunks ≠ [] → resolved s s'.1 → s'.2 = j → ends chunks 0 [] s j (Ok ([], Some e)) s'.
Proof.
  intros Hne (Ht & _ & log & Hl & Hc) Hj. exists [], (Some e), log.
  split_and!; auto; try done.
  - rewrite <-(app_nil_r log). apply final_log_resolve; [done|constructor].
  - by rewrite stamps_create.
  - intros _. destruct chunks; [done|simpl; lia].
Qed.

(** The partial message becomes the first chunk, or the first chunk is sent. *)
Lemma finish_partial_ends chunks first others s j :
  chunks = first :: others →
  wpm (stamped ← try (journal (Some f) 0);
       match stamped with
       | Err e => mret ([], Some e)
       | Ok _ =>
           r ← liftD get_relay;
           msg ← liftD (call plat (PEdit (rl_channelID r) (rl_partialID r) first));
           match msg with
           | Some _ => send_rest plat (Some f) 1 others [("discord:msg:" +:+ rl_partialID r)%string]
           | None =>
               _ ← liftD invalidateChannelLocked;
               res ← try (liftD (resolveChannelLocked plat));
               match res with
               | Err e => mret ([], Some e)
               | Ok _ => send_rest plat (Some f) 0 chunks []
               end
           end
       end) (ends chunks 0 [] s j) (s, j).
Proof.
  intros Hch. apply wpm_bind, wpm_try. unfold wpm at 1, journal. cbn [fst snd].
  destruct (f 0%nat j) as [[[]|x] j'] eqn:Hf; cbn.
  2: { exists [], (Some x), [(PJournal 0, None)].
       split_and!; try done; [apply fl_unstamped|by cbn; rewrite Hf|subst; simpl; lia]. }
  apply wpm_bind. unfold wpm at 1, liftD at 1, get_relay. cbn.
  apply wpm_bind. unfold wpm at 1, liftD at 1, call. cbn.
  set (ch := rl_channelID _). set (msg := rl_partialID _).
  destruct (plat (ds_ticks s)) as [a|].
  - eapply wpm_mono; [apply (send_rest_ends chunks 1); subst; [done|simpl; lia]|].
    intros r s' (more & e & log & -> & Hl & Hfl & Hj & Ht & H0 & H1). cbn in *.
    exists (("discord:msg:" +:+ msg)%string :: more), e,
      ((PJournal 0, Some ""%string) :: (PEdit ch msg first, Some a) :: log).
    split_and!; auto; try done.
    + rewrite Hl. by rewrite <-!app_assoc.
    + apply fl_edited; [by subst|done].
    + cbn. rewrite Hj. by rewrite Hf.
  - apply wpm_bind, wpm_liftD. eapply wpm_mono; [apply invalidateChannelLocked_spec|].
    intros r s1 (-> & Hl & Ht).
    apply wpm_bind, wpm_try, wpm_liftD. eapply wpm_mono; [apply resolveChannelLocked_resolved|].
    intros r s2 Hres.
    assert (Hpre : ∀ r s', ends chunks 0 [] s2 j' r s' → ends chunks 0 [] s j r s').
    { intros r' s' He. eapply (ends_after _ _ _ _ _ s1);
        [|exact Ht| | |eapply ends_resolved; [exact Hres|exact He]].
      - cbn in Hl. rewrite Hl. by rewrite <-app_assoc.
      - intros log more Hfl. apply fl_unedited; [by subst|done].
      - by cbn; rewrite Hf. }
    destruct r as [[]|x].
    + eapply wpm_mono; [apply (send_rest_ends chunks 0); [done|lia]|]. auto.
    + apply Hpre, ends_early; [by subst|by apply resolved_quiet|done].
Qed.

(** The whole delivery: refused when the relay is over, otherwise it marks it
    over and runs to an end. *)
Definition finish_post (chunks : list string) (s : dstate) (j : J)
    (r : result err Acks) (s' : dstate * J) : Prop :=
  ∃ acks e log, r = Ok (acks, e) ∧ ds_log s'.1 = ds_log s ++ log
    ∧ final_log chunks 0 log acks ∧ s'.2 = journal_run j (stamps log)
    ∧ rl_done (ds_relay s'.1) = true ∧ rl_posted (ds_relay s'.1) = rl_posted (ds_relay s)
    ∧ (rl_done (ds_relay s) = true → e ≠ None ∧ log = [])
    ∧ (e = None → length acks = length chunks)
    ∧ (e ≠ None → chunks ≠ [] → (length acks < length chunks)%nat).

Lemma finish_post_none chunks s j e s' :
  ds_log s'.1 = ds_log s → s'.2 = j → rl_done (ds_relay s'.1) = true →
  rl_posted (ds_relay s'.1) = rl_posted (ds_relay s) →
  (rl_done (ds_relay s) = true → e ≠ None) → (e = None → chunks = []) →
  finish_post chunks s j (Ok ([], e)) s'.
Proof.
  intros Hl Hj Hd Hp Hdone He. exists [], e, []. rewrite app_nil_r.
  split_and!; auto; try done; [constructor|intros H; by rewrite (He H)|].
  intros _ Hne. destruct chunks; [done|simpl; lia].
Qed.

Lemma finish_post_ends chunks s s1 j r s' :
  rl_done (ds_relay s) = false → ds_log s1 = ds_log s → rl_done (ds_relay s1) = true →
  rl_posted (ds_relay s1) = rl_posted (ds_relay s) →
  ends chunks 0 [] s1 j r s' → finish_post chunks s j r s'.
Proof.
  intros D0 L1 D1 P1 (more & e & log & -> & Hl & Hfl & Hj & (_ & _ & Hp & Hd) & H0 & H1).
  exists more, e, log. split_and!; auto; try done; congruence.
Qed.

Lemma finish_ends s j :
  wpm (finish plat dead (Some f)) (finish_post (ChunkMessage (rl_buf (ds_relay s))) s j) (s, j).
Proof.
  set (chunks := ChunkMessage (rl_buf (ds_relay s))). unfold finish.
  apply wpm_bind. unfold wpm at 1, liftD at 1, get_relay. cbn [fst snd].
  destruct (rl_done (ds_relay s)) eqn:D0; [by apply finish_post_none|].
  apply wpm_bind. unfold wpm at 1, liftD at 1, put_relay. cbn [fst snd].
  apply wpm_bind. unfold wpm at 1, liftD at 1, stopTypingLocked, put_relay. cbn [fst snd].
  apply wpm_bind. unfold wpm at 1, liftD at 1, ctx_over, tick. cbn [fst snd].
  set (s1 := DState _ _ (S _) _).
  assert (H1 : ds_log s1 = ds_log s ∧ rl_done (ds_relay s1) = true
    ∧ rl_posted (ds_relay s1) = rl_posted (ds_relay s)) by done.
  clearbody s1. destruct H1 as (L1 & D1 & P1).
  match goal with |- context [dead ?n] => destruct (dead n) end;
    [apply finish_post_none; done || congruence|].
  destruct (empty (rl_buf (ds_relay s)) && empty (rl_partialID (ds_relay s))) eqn:Hemp.
  { apply finish_post_none; try done; [congruence|]. intros _.
    apply andb_true_iff in Hemp as [He _].
    unfold chunks, ChunkMessage, chunkRunes. by rewrite He. }
  change (chunkRunes (rl_buf (ds_relay s)) messageCap) with chunks. clearbody chunks.
  assert (Hend : ∀ r s', ends chunks 0 [] s1 j r s' → finish_post chunks s j r s')
    by (intros; by eapply finish_post_ends).
  apply wpm_bind, wpm_try, wpm_liftD. eapply wpm_mono; [apply resolveChannelLocked_resolved|].
  intros r s2 Hres.
  assert (Hend2 : ∀ r s', ends chunks 0 [] s2 j r s' → ends chunks 0 [] s1 j r s')
    by (intros r0 s0 H0; eapply ends_resolved; [exact Hres|exact H0]).
  destruct r as [[]|x].
  - destruct chunks as [|first others] eqn:Hch.
    + apply Hend, Hend2. exists [], None, []. rewrite app_nil_r.
      split_and!; try done; [by rewrite app_nil_r|apply fl_end].
    + rewrite <-Hch in *. destruct (empty (rl_partialID (ds_relay s))).
      * eapply wpm_mono; [apply (send_rest_ends chunks 0); [done|lia]|]. auto.
      * eapply wpm_mono; [by apply (finish_partial_ends chunks first others)|]. auto.
  - destruct (decide (chunks = [])) as [->|Hne].
    + destruct Hres as ((_ & _ & Hp & Hd) & _ & log & Hl & Hc).
      exists [], (Some x), log. split_and!; try done; try (simpl; congruence).
      * rewrite <-(app_nil_r log). apply final_log_resolve; [done|apply fl_end].
      * by rewrite stamps_create.
    + apply Hend, Hend2, ends_early; [done|by apply resolved_quiet|done].
Qed.
End journaled.
End delivery.

(** C14: the acks of a finished relay align one to one with the rows the
    caller composed.  Under any answers of platform, context, clock and journal,
    FinishJournaled's platform calls deliver the chunks of the buffered text in
    order, each edit or send directly after its own journal stamp (and none
    after a refused stamp); the returned acks are those of the accepted calls,
    one per chunk from the first on; all chunks are acked exactly when no error
    is returned; the journal saw exactly the stamped calls; and the relay is over
    for good: a second call delivers nothing. *)
Theorem FinishJournaled_aligned {J} plat dead (before : nat → M J err unit) s j :
  let chunks := ChunkMessage (rl_buf (ds_relay s)) in
  let '(r, (s', j')) := FinishJournaled plat dead (Some before) (s, j) in
  ∃ acks e log, r = Ok (acks, e) ∧ ds_log s' = ds_log s ++ log
    ∧ final_log chunks 0 log acks
    ∧ j' = foldl (λ j i, (before i j).2) j (stamps log)
    ∧ (e = None → length acks = length chunks)
    ∧ (e ≠ None → chunks ≠ [] → (length acks < length chunks)%nat)
    ∧ (rl_done (ds_relay s) = true → e ≠ None ∧ log = [])
    ∧ ∃ e2, e2 ≠ None ∧ FinishJournaled plat dead (Some before) (s', j') = (Ok ([], e2), (s', j')).
Proof.
  intros chunks. pose proof (finish_ends plat dead before s j) as H. unfold wpm in H.
  cbn [FinishJournaled]. destruct (finish _ _ _ _) as [r [s' j']].
  destruct H as (acks & e & log & Hr & Hl & Hf & Hj & Hd & Hp & H0 & H1 & H2).
  exists acks, e, log. split_and!; try done.
  eexists. split; [|unfold finish, mbind, RM_bind, M_bind, liftD, get_relay; cbn in *; by rewrite Hd].
  done.
Qed.

(** ** The evidence bit *)

Inductive relay_op : Type := RPush (delta : string) | RCancel | RRetract.

Section evidence.
Context (plat : nat → option string) (dead : nat → bool) (clock : nat → Z).

Definition relay_step (op : relay_op) : DM unit :=
  match op with
  | RPush d => Push plat dead clock d
  | RCancel => Cancel
  | RRetract => Retract plat
  end.

Fixpoint relay_run (ops : list relay_op) : DM unit :=
  match ops with
  | [] => mret tt
  | op :: ops' => _ ← relay_step op; relay_run ops'
  end.

(** Something visible reached the platform. *)
Definition visible (log : list (pcall * option string)) : Prop :=
  ∃ ch t id, (PSend ch t, Some id) ∈ log ∧ id ≠ ""%string.

(** What every partial call carries. *)
Definition short (x : pcall * option string) : Prop :=
  match x.1 with
  | PSend _ t | PEdit _ _ t => rune_count t ≤ 2000
  | _ => True
  end.

Record relay_inv (s : dstate) : Prop := RelayInv {
  ri_posted : rl_posted (ds_relay s) = true ↔ visible (ds_log s);
  ri_partial : rl_partialID (ds_relay s) ≠ ""%string → rl_posted (ds_relay s) = true;
  ri_short : Forall short (ds_log s);
}.

Lemma visible_app l x : visible (l ++ [x]) ↔ visible l ∨ visible [x].
Proof.
  unfold visible. split.
  - intros (ch & t & id & [H|H]%elem_of_app & Hid); [left|right]; eauto 10.
  - intros [(ch & t & id & H & Hid)|(ch & t & id & H & Hid)]; exists ch, t, id;
      (split; [apply elem_of_app|done]); [by left|by right].
Qed.

Lemma visible_one x :
  visible [x] ↔ match x with (PSend _ _, Some id) => id ≠ ""%string | _ => False end.
Proof.
  unfold visible. split.
  - intros (ch & t & id & H%list_elem_of_singleton & Hid). by subst.
  - destruct x as [[] [id|]]; try done. intros Hid. eexists _, _, _.
    split; [apply list_elem_of_singleton; done|done].
Qed.

Definition keeps {A} (m : DM A) : Prop := ∀ s, relay_inv s → wpm m (λ _ s', relay_inv s') s.

Lemma keeps_bind {A B} (m : DM A) (f : A → DM B) :
  keeps m → (∀ a, keeps (f a)) → keeps (m ≫= f).
Proof.
  intros Hm Hf s Hs. apply wpm_bind. eapply wpm_mono; [by apply Hm|].
  intros [a|x] s' H; [by apply Hf|done].
Qed.

Lemma keeps_try {A} (m : DM A) : keeps m → keeps (try m).
Proof. intros Hm s Hs. apply wpm_try. by apply Hm. Qed.

(** Reads, cache writes and ticks leave what the invariant reads. *)
Lemma keeps_still {A} (m : DM A) :
  (∀ s, ds_relay (m s).2 = ds_relay s ∧ ds_log (m s).2 = ds_log s) → keeps m.
Proof.
  intros Hm s [H1 H2 H3]. specialize (Hm s). unfold wpm. destruct (m s) as [r s']. cbn in Hm.
  destruct Hm as [Hr Hl]. split; by rewrite ?Hr, ?Hl.
Qed.

(** Field updates that keep the partial and its evidence. *)
Lemma keeps_put f :
  (∀ r, rl_posted (f r) = rl_posted r) →
  (∀ r, rl_partialID (f r) = rl_partialID r ∨ rl_partialID (f r) = ""%string) → keeps (put_relay f).
Proof.
  intros Hp Hq s [H1 H2 H3]. unfold wpm, put_relay. split; cbn.
  - by rewrite Hp.
  - destruct (Hq (ds_relay s)) as [Hx | Hx]; rewrite Hx, Hp; [done|by intros []].
  - done.
Qed.

Lemma keeps_call c :
  (∀ ch t, c ≠ PSend ch t) → (∀ a, short (c, a)) → keeps (call plat c).
Proof.
  intros Hc Hs s [H1 H2 H3]. unfold wpm, call. split; cbn; [|done|].
  - rewrite visible_app, visible_one. rewrite H1. split; [by left|]. intros [Hv|Hx]; [done|].
    destruct c; try done. by destruct (Hc channel text).
  - apply Forall_app. split; [done|]. by repeat constructor.
Qed.

Ltac keeps :=
  repeat (lazymatch goal with
  | |- keeps (partialContentLocked ≫= _) => fail
  | |- keeps (_ ≫= _) => apply keeps_bind; [|intros ?]
  | |- keeps (mbind _ _) => apply keeps_bind; [|intros ?]
  | |- keeps (try _) => apply keeps_try
  | |- keeps (if ?b then _ else _) => destruct b
  | |- keeps (match ?x with _ => _ end) => destruct x
  | |- keeps (mret _) => by apply keeps_still
  | |- keeps (fail _) => by apply keeps_still
  | |- keeps get_relay => by apply keeps_still
  | |- keeps (get_dm _) => by apply keeps_still
  | |- keeps (put_dm _) => by apply keeps_still
  | |- keeps (tick _) => by apply keeps_still
  | |- keeps (put_relay _) => apply keeps_put; [done|by auto]
  | |- keeps (call _ (PCreateDM _)) => by apply keeps_call
  | |- keeps (call _ (PDelete _ _)) => by apply keeps_call
  end).

Lemma keeps_resolve : keeps (resolveChannelLocked plat).
Proof. unfold resolveChannelLocked, resolveSendChannel. keeps. Qed.

Lemma keeps_invalidate : keeps invalidateChannelLocked.
Proof. unfold invalidateChannelLocked, invalidateDMChannel, stopTypingLocked. keeps. Qed.

Lemma keeps_stamp : keeps (stamp_edit clock).
Proof. unfold stamp_edit, time_now. keeps. Qed.

Lemma keeps_throttled : keeps (throttled clock).
Proof. unfold throttled, time_now. keeps. Qed.

Lemma keeps_typing : keeps (ensureTypingLocked plat clock).
Proof.
  unfold ensureTypingLocked. keeps; auto using keeps_throttled, keeps_resolve, keeps_stamp.
Qed.

(** The partial content fits the platform's cap. *)
Lemma keeps_partial {B} (f : string → DM B) :
  (∀ c, rune_count c ≤ 2000 → keeps (f c)) → keeps (partialContentLocked ≫= f).
Proof.
  intros Hf s Hs. apply wpm_bind. unfold partialContentLocked. apply wpm_bind.
  unfold wpm at 1, get_relay.
  assert (Hcap : ∀ rs, Forall (λ r, scalar r = true) rs → (length rs ≤ messageCap)%nat →
    rune_count (string_of_runes rs) ≤ 2000).
  { intros rs Hrs Hl. unfold rune_count. rewrite runes_string_of_runes by done.
    unfold messageCap in Hl. lia. }
  destruct (Nat.ltb _ _) eqn:Hlt.
  - apply Hf; [|done]. apply Hcap; [apply runes_scalar|]. apply Nat.ltb_lt in Hlt. lia.
  - apply wpm_bind. unfold wpm at 1, put_relay. apply Hf.
    + apply Hcap; [apply Forall_take, runes_scalar|]. rewrite length_take. lia.
    + apply (keeps_put (with_cap true)) in Hs; [exact Hs|done|by auto].
Qed.

(** The partial message and its evidence are written together. *)
Lemma keeps_post ch content :
  rune_count content ≤ 2000 →
  keeps (msg ← call plat (PSend ch content);
         match msg with
         | None => _ ← invalidateChannelLocked; stamp_edit clock
         | Some id =>
             if empty id then _ ← invalidateChannelLocked; stamp_edit clock
             else _ ← put_relay (with_partial id true); _ ← stamp_edit clock; stopTypingLocked
         end).
Proof.
  intros Hc s [H1 H2 H3]. apply wpm_bind. unfold wpm at 1, call.
  assert (Hsh : ∀ a, Forall short (ds_log s ++ [(PSend ch content, a)])).
  { intros a. apply Forall_app. split; [done|]. by repeat constructor. }
  assert (Hrest : keeps (_ ← invalidateChannelLocked; stamp_edit clock))
    by (keeps; auto using keeps_invalidate, keeps_stamp).
  assert (Hkeep : keeps (_ ← stamp_edit clock; stopTypingLocked))
    by (unfold stopTypingLocked; keeps; auto using keeps_stamp).
  destruct (plat (ds_ticks s)) as [id|].
  - unfold empty. case_bool_decide as He.
    + apply Hrest. split; cbn; [|done|apply Hsh].
      rewrite visible_app, visible_one, H1. split; [by left|]. by intros [Hv|Hx].
    + apply wpm_bind. unfold wpm at 1, put_relay. apply Hkeep. split; cbn; [|done|apply Hsh].
      rewrite visible_app, visible_one. split; [by right|done].
  - apply Hrest. split; cbn; [|done|apply Hsh].
    rewrite visible_app, visible_one, H1. split; [by left|]. by intros [Hv|Hx].
Qed.

Lemma keeps_Push d : keeps (Push plat dead clock d).
Proof.
  unfold Push, time_now, ctx_over. keeps; auto using keeps_typing, keeps_throttled, keeps_stamp, keeps_resolve.
  - apply keeps_partial. intros c Hc. apply keeps_bind; [by apply keeps_still|]. intros r.
    by apply keeps_post.
  - apply keeps_partial. intros c Hc. keeps; auto using keeps_invalidate, keeps_stamp.
    by apply keeps_call.
Qed.

Lemma keeps_run ops : keeps (relay_run ops).
Proof.
  induction ops as [|op ops IH]; simpl; [by apply keeps_still|]. keeps; [|done].
  destruct op; simpl; [apply keeps_Push|unfold Cancel, stopTypingLocked; keeps|].
  unfold Retract, stopTypingLocked. keeps.
Qed.
End evidence.


(** ** Sending one message *)

(** The channel a thread key addresses, against the cache. *)
Definition addressed (key ch : string) (dm : gmap string string) : Prop :=
  ch ≠ ""%string ∧ CutPrefix key "discord:thread:" = Some ch
  ∨ ∃ user, user ≠ ""%string ∧ CutPrefix key "discord:dm:" = Some user ∧ dm !! user = Some ch.

Definition minted (key : string) : Prop :=
  (∃ t, t ≠ ""%string ∧ CutPrefix key "discord:thread:" = Some t)
  ∨ ∃ u, u ≠ ""%string ∧ CutPrefix key "discord:dm:" = Some u.

Lemma resolveSendChannel_spec plat key s :
  wpm (resolveSendChannel plat key) (λ r s',
    (∃ log, ds_log s' = ds_log s ++ log ∧ Forall is_create log ∧ (¬ minted key → log = []))
    ∧ match r with Ok ch => addressed key ch (ds_dm s') | Err _ => True end
    ∧ (¬ minted key → is_ok r = false)) s.
Proof.
  assert (Hlog : ∃ log, ds_log s = ds_log s ++ log ∧ Forall is_create log ∧ (¬ minted key → log = [])).
  { exists []. by rewrite app_nil_r. }
  unfold resolveSendChannel. cbv zeta.
  match goal with |- wpm (match _ with Some _ => if _ then ?dm else _ | None => _ end) ?Q _ =>
    assert (Hdm : wpm dm Q s) end.
  { destruct (CutPrefix key "discord:dm:") as [user|] eqn:Hu; [|done].
    destruct (empty user) eqn:Hne; [done|]. apply empty_false in Hne.
    assert (Hm : minted key) by (right; eauto).
    unfold get_dm, call, put_dm, mbind, DM_bind, M_bind, wpm.
    destruct (ds_dm s !! user) as [ch|] eqn:Hd; [split_and!; [done|right; eauto|done]|].
    assert (Hone : ∃ log, ds_log s ++ [(PCreateDM user, plat (ds_ticks s))] = ds_log s ++ log
      ∧ Forall is_create log ∧ (¬ minted key → log = [])).
    { eexists. split; [done|]. split; [by repeat constructor|done]. }
    destruct (plat (ds_ticks s)) as [id|]; [destruct (empty id) eqn:Hid|];
      (split_and!; [exact Hone| |done]); try done.
    right. exists user. split_and!; [done..|]. apply lookup_insert_eq. }
  destruct (CutPrefix key "discord:thread:") as [t|] eqn:Ht; [|exact Hdm].
  destruct (empty t) eqn:Hne; [exact Hdm|]. apply empty_false in Hne.
  split_and!; [done|by left|]. intros Hm. destruct Hm. left. eauto.
Qed.

(** C22: Send acks only what was accepted where it was addressed.  A returned
    ack names the message id of the one send the platform accepted, with this
    text, in the channel the thread key addresses; a failed Send was accepted
    nowhere with an id; a key this adapter does not mint reaches no platform
    call; and after a refused send the cached DM channel is gone, so the retry
    resolves it afresh. *)
Theorem Send_honest plat dead key text s :
  let '(r, s') := Send plat dead key text s in
  ∃ log, ds_log s' = ds_log s ++ log
  ∧ (¬ minted key → log = [] ∧ is_ok r = false)
  ∧ (∀ ch, (PSend ch text, None) ∈ log → ∀ u, CutPrefix key "discord:dm:" = Some u →
       ds_dm s' !! u = None)
  ∧ match r with
    | Ok ack => ∃ pre ch id, log = pre ++ [(PSend ch text, Some id)] ∧ Forall is_create pre
        ∧ id ≠ ""%string ∧ ack = ("discord:msg:" +:+ id)%string ∧ addressed key ch (ds_dm s')
    | Err _ => ¬ visible log
    end.
Proof.
  unfold Send. set (s1 := DState (ds_dm s) (ds_relay s) (S (ds_ticks s)) (ds_log s)).
  assert (Hcreate : ∀ log ch a, Forall is_create log → (PSend ch text, a) ∉ log).
  { intros log ch a Hl Hin. rewrite Forall_forall in Hl. by apply Hl in Hin. }
  assert (Hvis : ∀ log, Forall is_create log → ¬ visible log).
  { intros log Hl (ch & t & id & Hin & _). rewrite Forall_forall in Hl. by apply Hl in Hin. }
  unfold mbind, DM_bind, M_bind at 1. unfold ctx_over, tick at 1. cbn. fold s1.
  destruct (dead (ds_ticks s)).
  { exists []. rewrite app_nil_r. split_and!; try done.
    - intros ch Hin. by apply elem_of_nil in Hin.
    - by apply Hvis. }
  pose proof (resolveSendChannel_spec plat key s1) as H. unfold wpm in H. unfold M_bind at 1.
  destruct (resolveSendChannel plat key s1) as [[ch|x] s2];
    destruct H as ((log & Hl & Hc & Hn) & Ha & Hm).
  2: { exists log. split_and!; auto.
       intros ch Hin. by apply (Hcreate log ch None) in Hc. }
  assert (Hmint : ¬ ¬ minted key) by (intros Hk; by specialize (Hm Hk)).
  unfold M_bind at 1. unfold call at 1. cbn. destruct (plat (ds_ticks s2)) as [id|].
  - destruct (empty id) eqn:Hid; cbn; exists (log ++ [(PSend ch text, Some id)]); rewrite Hl, <-app_assoc;
      (split_and!; [done|done| |]).
    1,3: intros ch' [Hin|Hin%list_elem_of_singleton]%elem_of_app; [by apply Hcreate in Hin|done].
    + apply empty_true in Hid. rewrite visible_app, visible_one. intros [Hv|Hv]; [by apply Hvis in Hv|done].
    + apply empty_false in Hid. eauto 10.
  - unfold M_bind, invalidateDMChannel.
    assert (Hv : ¬ visible (log ++ [(PSend ch text, None)])).
    { rewrite visible_app, visible_one. intros [Hv|Hv]; [by apply Hvis in Hv|done]. }
    destruct (CutPrefix key "discord:dm:") as [u|] eqn:Hu; cbn; exists (log ++ [(PSend ch text, None)]);
      rewrite Hl, <-app_assoc; (split_and!; [done|done| |done]); intros ch' _ u' [= <-].
    apply lookup_delete_eq.
Qed.
