(* ===== verification/Typing.v ===== *)
(** * The typing keepalive (src/internal/adapter/discord/relay.go)

    [Relay] has the keepalive as a flag; here is its goroutine.  The relay's
    calls run under its mutex, so they are one actor; each start makes a fresh
    goroutine with channels of its own, and the stop waits for it. *)
From S2P Require Import Prelude.

(** ** State *)

(** In the goroutine: at the loop's top, past the context's check, in the
    platform call, in the select, past the deferred close of its end channel. *)
Inductive typer_at : Type := TTop | TChecked | TCalling | TSelect | TGone.

Record typer : Type := Typer {
  tp_at : typer_at;
  tp_stop : bool;            (* its stop channel is closed *)
  tp_tick : bool;            (* its ticker has a tick ready *)
}.

(** The relay: typingStop is nil, is set, or is being waited out. *)
Inductive relay_at : Type := Quiet | Typing | Stopping.

Record keepalive : Type := Keepalive {
  ka_typers : list typer;    (* every goroutine started, the last one first *)
  ka_relay : relay_at;
  ka_ctx : bool;             (* the context is done *)
  ka_late : nat;             (* typing calls begun after that *)
}.

Definition keepalive0 : keepalive := Keepalive [] Quiet false 0.

(** ** Steps *)

(** ensureTypingLocked, past its throttle and with the channel resolved. *)
Definition start (s : keepalive) : option keepalive :=
  match ka_relay s with
  | Quiet => Some (Keepalive (Typer TTop false false :: ka_typers s) Typing (ka_ctx s) (ka_late s))
  | _ => None
  end.

(** stopTypingLocked: close the channel, then wait for the goroutine's. *)
Definition stop (s : keepalive) : option keepalive :=
  match ka_relay s, ka_typers s with
  | Typing, t :: ts => Some (Keepalive (Typer (tp_at t) true (tp_tick t) :: ts) Stopping (ka_ctx s) (ka_late s))
  | _, _ => None
  end.
Definition stopped (s : keepalive) : option keepalive :=
  match ka_relay s, ka_typers s with
  | Stopping, Typer TGone _ _ :: _ => Some (Keepalive (ka_typers s) Quiet (ka_ctx s) (ka_late s))
  | _, _ => None
  end.

(** The next statement of the loop; [choice] is the select's, when more than one
    of its channels is ready. *)
Inductive ready : Type := OnStop | OnCtx | OnTick.
Definition typer_next (ctx : bool) (choice : ready) (t : typer) : option typer :=
  let goto x := Some (Typer x (tp_stop t) (tp_tick t)) in
  match tp_at t with
  | TTop => goto (if ctx then TGone else TChecked)
  | TChecked => goto TCalling
  | TCalling => goto TSelect
  | TSelect =>
      match choice with
      | OnStop => if tp_stop t then goto TGone else None
      | OnCtx => if ctx then goto TGone else None
      | OnTick => if tp_tick t then Some (Typer TTop (tp_stop t) false) else None
      end
  | TGone => None
  end.

Definition begins (ctx : bool) (t : typer) : nat :=
  match tp_at t with TChecked => if ctx then 1 else 0 | _ => 0 end.

Definition typer_step (i : nat) (choice : ready) (s : keepalive) : option keepalive :=
  t ← ka_typers s !! i;
  t' ← typer_next (ka_ctx s) choice t;
  Some (Keepalive (<[i := t']> (ka_typers s)) (ka_relay s) (ka_ctx s) (ka_late s + begins (ka_ctx s) t)).

Definition tick (i : nat) (s : keepalive) : option keepalive :=
  t ← ka_typers s !! i;
  Some (Keepalive (<[i := Typer (tp_at t) (tp_stop t) true]> (ka_typers s)) (ka_relay s) (ka_ctx s) (ka_late s)).

Definition ctx_done (s : keepalive) : keepalive := Keepalive (ka_typers s) (ka_relay s) true (ka_late s).

Inductive kstep (s : keepalive) : keepalive → Prop :=
| ks_start s' : start s = Some s' → kstep s s'
| ks_stop s' : stop s = Some s' → kstep s s'
| ks_stopped s' : stopped s = Some s' → kstep s s'
| ks_typer i c s' : typer_step i c s = Some s' → kstep s s'
| ks_tick i s' : tick i s = Some s' → kstep s s'
| ks_ctx : kstep s (ctx_done s).

(** ** Invariant *)

Definition gone (t : typer) : Prop := tp_at t = TGone.

(** Past the check, so it may still call. *)
Definition armed (t : typer) : nat := match tp_at t with TChecked => 1 | _ => 0 end.

Record kept (s : keepalive) : Prop := Kept {
  kp_rest : match ka_relay s with
            | Quiet => Forall gone (ka_typers s)
            | Typing => ∃ t ts, ka_typers s = t :: ts ∧ Forall gone ts
            | Stopping => ∃ t ts, ka_typers s = t :: ts ∧ Forall gone ts ∧ tp_stop t = true
            end;
  kp_late : (ka_late s + sum_list_with armed (ka_typers s) ≤ 1)%nat;
  kp_before : ka_ctx s = false → ka_late s = 0%nat;
}.

(** ** Lemmas *)

Lemma gone_armed ts : Forall gone ts → sum_list_with armed ts = 0%nat.
Proof. induction 1 as [|t ts Ht _ IH]; [done|]. cbn. unfold gone in Ht. unfold armed at 1. by rewrite Ht, IH. Qed.

Lemma gone_next ctx c t t' : gone t → typer_next ctx c t = Some t' → False.
Proof. unfold gone, typer_next. by intros ->. Qed.

(** Only the last goroutine started can step. *)
Lemma kept_head s i t c t' :
  kept s → ka_typers s !! i = Some t → typer_next (ka_ctx s) c t = Some t' →
  ∃ ts, ka_typers s = t :: ts ∧ i = 0%nat ∧ Forall gone ts ∧ ka_relay s ≠ Quiet.
Proof.
  intros [Hr _ _] Hi Hn. assert (Hrest : ka_relay s ≠ Quiet ∧ ∃ t0 ts, ka_typers s = t0 :: ts ∧ Forall gone ts).
  { destruct (ka_relay s) eqn:E; [|split; [done|naive_solver]..]. exfalso.
    eapply gone_next; [by eapply (Forall_lookup_1 _ _ _ _ Hr Hi)|done]. }
  destruct Hrest as (Hq & t0 & ts & Hts & Hg). rewrite Hts in *. destruct i as [|i]; cbn in Hi; simplify_eq.
  - by exists ts.
  - exfalso. eapply gone_next; [by eapply (Forall_lookup_1 _ _ _ _ Hg Hi)|done].
Qed.

Lemma armed_next ctx c t t' : typer_next ctx c t = Some t' →
  (begins ctx t + armed t' ≤ 1)%nat ∧ (ctx = true → (begins ctx t + armed t' ≤ armed t)%nat)
  ∧ (ctx = false → begins ctx t = 0%nat) ∧ (tp_stop t' = tp_stop t).
Proof.
  unfold typer_next, begins, armed. intros H. repeat case_match; simplify_eq/=; split_and!; lia || done.
Qed.

(** A tick changes no goroutine's place. *)
Lemma armed_tick ts i t : ts !! i = Some t →
  sum_list_with armed (<[i := Typer (tp_at t) (tp_stop t) true]> ts) = sum_list_with armed ts.
Proof.
  revert i. induction ts as [|u ts IH]; intros [|i] Hi; cbn in *; simplify_eq; [done|]. f_equal. by apply IH.
Qed.

Lemma gone_tick ts i t : ts !! i = Some t →
  Forall gone ts → Forall gone (<[i := Typer (tp_at t) (tp_stop t) true]> ts).
Proof. intros Hi Hg. apply Forall_insert; [done|]. by apply (Forall_lookup_1 _ _ _ _ Hg Hi). Qed.

Lemma tick_kept i s s' : kept s → tick i s = Some s' → kept s'.
Proof.
  intros [Hr Hl Hb] H. unfold tick in H. destruct (ka_typers s !! i) as [t|] eqn:Hi; [|done]. cbn in H. simplify_eq.
  split; cbn; [|by rewrite (armed_tick _ _ _ Hi)|done].
  destruct (ka_relay s); [by apply gone_tick| |]; destruct Hr as (u & ts & Hts & Hg); rewrite Hts in *;
    (destruct i as [|i]; cbn in *; simplify_eq; [|destruct_and?; eexists _, _; split_and!; eauto using gone_tick]).
  - by eexists _, _.
  - destruct Hg. by eexists _, _.
Qed.

Lemma kstep_kept s s' : kept s → kstep s s' → kept s'.
Proof.
  intros Hk [x H|x H|x H|i c x H|i x H|].
  - destruct Hk as [Hr Hl Hb]. unfold start in H. destruct (ka_relay s); simplify_eq. split; cbn; [eauto|by apply Hl|done].
  - destruct Hk as [Hr Hl Hb]. unfold stop in H. destruct (ka_relay s); try done.
    destruct Hr as (t & ts & Ht & Hg). rewrite Ht in *. simplify_eq. split; cbn; [eauto|by apply Hl|done].
  - destruct Hk as [Hr Hl Hb]. unfold stopped in H. destruct (ka_relay s); try done.
    destruct Hr as (t & ts & Ht & Hg & _). destruct (ka_typers s) as [|[[] ? ?] ?] eqn:Hs; simplify_eq.
    split; cbn; [|by apply Hl|done]. by constructor.
  - unfold typer_step in H. destruct (ka_typers s !! i) as [t|] eqn:Hi; [|done]. cbn in H.
    destruct (typer_next _ c t) as [t'|] eqn:Hn; [|done]. cbn in H. simplify_eq.
    destruct (kept_head _ _ _ _ _ Hk Hi Hn) as (ts & Hts & -> & Hg & Hq). destruct Hk as [Hr Hl Hb].
    destruct (armed_next _ _ _ _ Hn) as (H1 & H2 & H3 & H4). rewrite Hts in *. cbn in *.
    rewrite (gone_armed ts Hg) in *. split; cbn.
    + destruct (ka_relay s); [done|by eauto|]. destruct Hr as (? & ? & Heq & ? & ?). simplify_eq. exists t', x0.
      split_and!; [done..|congruence].
    + rewrite (gone_armed ts Hg). destruct (ka_ctx s); [specialize (H2 eq_refl); lia|rewrite (Hb eq_refl); lia].
    + intros Hc. rewrite (Hb Hc), (H3 Hc). done.
  - by eapply tick_kept.
  - destruct Hk as [Hr Hl Hb]. by split.
Qed.

Lemma kept_reachable s : rtc kstep keepalive0 s → kept s.
Proof.
  assert (H0 : kept keepalive0) by (split; cbn; [done|lia|done]). intros H. revert H0.
  induction H as [s|s s1 s2 H1 _ IH]; [done|]. intros Hk. by eapply IH, kstep_kept.
Qed.

(** ** The stop returns *)

(** What a goroutine can do before it needs another tick. *)
Definition typer_rank (t : typer) : nat :=
  match tp_at t with TTop => 4 | TChecked => 3 | TCalling => 2 | TSelect => 1 | TGone => 0 end
  + if tp_tick t then 5 else 0.

Lemma typer_next_rank ctx c t t' : typer_next ctx c t = Some t' → (typer_rank t' < typer_rank t)%nat.
Proof. unfold typer_next, typer_rank. intros H. repeat case_match; simplify_eq/=; lia. Qed.

Lemma stopping_progress s : kept s → ka_relay s = Stopping →
  is_Some (stopped s) ∨ is_Some (typer_step 0 OnStop s).
Proof.
  intros [Hr _ _] Hs. rewrite Hs in Hr. destruct Hr as (t & ts & Ht & _ & Hst).
  unfold stopped, typer_step. rewrite Hs, Ht. destruct t as [x b tk]. cbn in *. subst b.
  destruct x; cbn; eauto; destruct (ka_ctx s); eauto.
Qed.

(** ** Properties *)

(** The relay is quiet when it says so.  Whatever the interleaving of its calls,
    the keepalives, their tickers and the context: while typingStop is nil no
    goroutine is left that could call the platform; there is never more than
    one; after the context is done at most one call still begins; and
    stopTypingLocked returns, since the goroutine it waits for always has a next
    step and only fresh ticks could give it more of them. *)
Theorem typing_ends s :
  rtc kstep keepalive0 s →
  (ka_relay s = Quiet → Forall gone (ka_typers s))
  ∧ Forall gone (tail (ka_typers s))
  ∧ (ka_late s ≤ 1)%nat
  ∧ (ka_relay s = Stopping → is_Some (stopped s) ∨ is_Some (typer_step 0 OnStop s))
  ∧ ∀ i t c t', ka_typers s !! i = Some t → typer_next (ka_ctx s) c t = Some t' → (typer_rank t' < typer_rank t)%nat.
Proof.
  intros H%kept_reachable. pose proof H as [Hr Hl Hb]. split_and!.
  - intros Hq. by rewrite Hq in Hr.
  - destruct (ka_relay s).
    + destruct Hr; [done|]. done.
    + by destruct Hr as (t & ts & -> & ?).
    + by destruct Hr as (t & ts & -> & ? & _).
  - lia.
  - by apply stopping_progress.
  - intros i t c t' _. apply typer_next_rank.
Qed.

(** A stopped keepalive that slipped in one call after the context was done. *)
Lemma typing_ends_witness : Forall gone [Typer TGone true false] ∧ (1 ≤ 1)%nat.
Proof.
  destruct (typing_ends (Keepalive [Typer TGone true false] Quiet true 1)) as (Hq & _ & Hl & _).
  - eapply rtc_l; [by apply ks_start|]. eapply rtc_l; [by apply (ks_typer _ 0 OnTick)|].
    eapply rtc_l; [apply ks_ctx|]. eapply rtc_l; [by apply (ks_typer _ 0 OnTick)|].
    eapply rtc_l; [by apply (ks_typer _ 0 OnTick)|]. eapply rtc_l; [by apply ks_stop|].
    eapply rtc_l; [by apply (ks_typer _ 0 OnStop)|]. eapply rtc_l; [by apply ks_stopped|]. done.
  - split; [by apply Hq|exact Hl].
Defined.
