(* ===== verification/TurnHandler.v ===== *)
(** * The production turn handler (src/internal/cli/turn.go)

    One queued event in, one engine turn out.  The handler's state is the
    daemon's [env], the in-flight claim table, whether it holds its target's
    gate, and the turn's relay.  The two interfaces of the code are interfaces
    here: [turnRelay] is a class (the discord relay is its instance, below), and
    the session manager is the parameter [runner], which answers with the text
    deltas it streamed and the turn's error. *)
From S2P Require Import Prelude Utf8 Json Trust Schema Events Event Deliveries ToolAttempts.
From S2P Require Import DeadLetters Surface Sessions StoreSpec StoreInv StoreOps Env.
From S2P Require Import Resend Recovery SessionManager Relay.
Local Open Scope Z_scope.

(** ** The relay interface *)

(** Push, Cancel, Retract and Posted touch the relay only; FinishJournaled
    returns the acks earned beside its error, and writes the caller's state
    through the callback it is given. *)
Class turnRelay (R : Type) : Type := {
  relay_Push : string → R → R;
  relay_Cancel : R → R;
  relay_Retract : R → R;
  relay_Posted : R → bool;
  relay_FinishJournaled : ∀ {J : Type}, (nat → M J err unit) → R → J → Acks * (R * J);
}.

(** What the handler relies on: the caller's state moves by calls of the
    callback only. *)
Class turnRelayOk (R : Type) `{turnRelay R} : Prop := {
  relay_finish_journal : ∀ J (before : nat → M J err unit) (r : R) (j : J),
    ∃ idx, (relay_FinishJournaled before r j).2.2 = foldl (λ j i, (before i j).2) j idx;
}.

(** ** State *)

Record hstate (R : Type) : Type := HState {
  hs_env : env;
  hs_keys : gset string;      (* the claims of delivery.InFlight *)
  hs_gate : bool;             (* releaseTarget is not nil *)
  hs_relay : option R;        (* None is the nil relay *)
}.
Arguments HState {R} _ _ _ _.
Arguments hs_env {R} _.
Arguments hs_keys {R} _.
Arguments hs_gate {R} _.
Arguments hs_relay {R} _.

Definition hs_db {R} (s : hstate R) : db := env_db (hs_env s).

Definition HM (R A : Type) : Type := M (hstate R) err A.
#[global] Instance HM_ret {R} : MRet (HM R) := λ A, @M_ret (hstate R) err A.
#[global] Instance HM_bind {R} : MBind (HM R) := λ A B, @M_bind (hstate R) err A B.

Section state.
Context {R : Type} `{turnRelay R}.

Definition liftE {A} (m : EnvM A) : HM R A := λ s,
  let '(r, e) := m (hs_env s) in (r, HState e (hs_keys s) (hs_gate s) (hs_relay s)).

Definition set_gate (b : bool) : HM R unit := λ s,
  (Ok tt, HState (hs_env s) (hs_keys s) b (hs_relay s)).
Definition set_relay (r : option R) : HM R unit := λ s,
  (Ok tt, HState (hs_env s) (hs_keys s) (hs_gate s) r).
Definition get_turn_relay : HM R (option R) := λ s, (Ok (hs_relay s), s).

(** [if relay != nil { relay.f() }]. *)
Definition on_relay (f : R → R) : HM R unit := λ s,
  (Ok tt, HState (hs_env s) (hs_keys s) (hs_gate s) (f <$> hs_relay s)).

Definition put_keys (f : gset string → gset string) : HM R unit := λ s,
  (Ok tt, HState (hs_env s) (f (hs_keys s)) (hs_gate s) (hs_relay s)).
End state.

(** ** Data *)

(** json.Unmarshal into event.Event, of which the handler reads Text. *)
Definition event_text (payload : string) : option string := e_Text <$> Unmarshal payload.

Definition reply_key (dedup : string) (i : nat) : string :=
  "reply:" +:+ dedup +:+ ":" +:+ pretty i.

Definition reply_rows (ev : QueuedEvent) (chunks : list string) : list Delivery :=
  imap (λ i chunk, MkDelivery (reply_key (qe_DedupKey ev) i) (qe_ID ev) (qe_ThreadKey ev) chunk)
    chunks.

Section handler.
Context {SA : StoreAccess} {R : Type} `{turnRelay R}.
(** [gated]: the in-flight table is not nil.  [newRelay] is turnDeps.relay. *)
Context (clock : nat → Z) (gated : bool) (newRelay : option (string → option R)).
Context (runner : TurnRequest → EnvM (list string * result err unit)) (cwd : string).

(** A nil table's methods do nothing. *)
Definition claim (keys : list string) : HM R unit :=
  put_keys (λ ks, if gated then ks ∪ list_to_set keys else ks).
Definition unclaim (keys : list string) : HM R unit :=
  put_keys (λ ks, if gated then ks ∖ list_to_set keys else ks).

(** The output sink: the builder and the relay see the same text. *)
Fixpoint output_all (deltas : list string) (reply : string) (relay : option R)
    : string * option R :=
  match deltas with
  | [] => (reply, relay)
  | delta :: deltas' =>
      let sep := String "010" (String "010" EmptyString) in
      let '(reply, relay) :=
        if empty reply then (reply, relay)
        else (reply +:+ sep, relay_Push sep <$> relay) in
      output_all deltas' (reply +:+ delta) (relay_Push delta <$> relay)
  end.

Definition deadLetterMalformed (ev : QueuedEvent) : HM R unit :=
  t ← liftE (now clock);
  died ← try (liftE (liftS (DeadLetterEvent (qe_ID ev) "malformed" t)));
  match died with
  | Err _ => mret tt
  | Ok _ =>
      surfaced ← try (liftE (liftS (SurfaceDeadLetterCoordinated gated ev)));
      match surfaced with
      | Err _ => mret tt
      | Ok _ => liftE (emit FxKick)
      end
  end.

(** The callback of FinishJournaled. *)
Definition stamp_chunk (ids : list Z) (i : nat) : EnvM unit :=
  match ids !! i with
  | None => fail (ERefused "chunk out of range")
  | Some id => t ← now clock; liftS (MarkDeliveryAttempt id t)
  end.

Fixpoint ack_loop (acks : list string) (ids : list Z) : HM R unit :=
  match acks, ids with
  | [], _ => mret tt
  | _, [] => mret tt
  | _ :: acks', id :: ids' =>
      t ← liftE (now clock);
      _ ← try (liftE (liftS (AckDelivery id t)));
      ack_loop acks' ids'
  end.

(** [relay.FinishJournaled]; a nil relay would panic. *)
Definition finish_relay (ids : list Z) : HM R Acks := λ s,
  match hs_relay s with
  | None => (Err EStuck, s)
  | Some r =>
      let '(a, (r', e')) := relay_FinishJournaled (stamp_chunk ids) r (hs_env s) in
      (Ok a, HState e' (hs_keys s) (hs_gate s) (Some r'))
  end.

(** A recovery call: its errors are logged, and it composes a notice behind the
    target's gate, so it never returns while this goroutine holds it. *)
Definition recover {A} (m : EnvM A) : HM R unit := λ s,
  if hs_gate s then (Err EStuck, s)
  else let '(_, e') := m (hs_env s) in
       (Ok tt, HState e' (hs_keys s) (hs_gate s) (hs_relay s)).

Definition park_reply (ev : QueuedEvent) (keys : list string) : HM R unit :=
  _ ← on_relay relay_Cancel;
  _ ← set_gate false;
  _ ← unclaim keys;
  recover (ParkAmbiguous clock gated true ev).

(** The send after the reply is composed and the event completed. *)
Definition send_reply (keys : list string) (ids : list Z) (direct : bool) : HM R unit :=
  if negb direct then
    _ ← on_relay relay_Retract;
    _ ← unclaim keys;
    liftE (emit FxKick)
  else
    '(acks, e) ← finish_relay ids;
    _ ← ack_loop acks ids;
    if bool_decide (e ≠ None) || Nat.ltb (length acks) (length ids) then
      _ ← (if bool_decide (acks = []) then on_relay relay_Retract else mret tt);
      _ ← unclaim keys;
      liftE (emit FxKick)
    else unclaim keys.

(** The order check, the completion stamp, and the send. *)
Definition complete_reply (ev : QueuedEvent) (keys : list string) (ids : list Z) (composed : bool)
    : HM R unit :=
  relay ← get_turn_relay;
  direct ← (if bool_decide (is_Some (relay : option R)) && composed then
              owed ← try (liftE (liftS (OwedDeliveriesBefore (qe_ThreadKey ev) (nth 0 ids 0))));
              match owed with
              | Err _ => mret false
              | Ok n => mret (negb (Z.ltb 0 n))
              end
            else mret false);
  t ← liftE (now clock);
  done ← try (liftE (liftS (if composed then MarkEventCompleted (qe_ID ev) t
                            else MarkEventCompletedReconciled (qe_ID ev) t)));
  match done with
  | Err _ => on_relay relay_Retract
  | Ok _ => send_reply keys ids direct
  end.

Definition finishTurn (ev : QueuedEvent) (text : string) : HM R unit :=
  if empty text then
    _ ← on_relay relay_Cancel;
    t ← liftE (now clock);
    _ ← try (liftE (liftS (MarkEventCompleted (qe_ID ev) t)));
    mret tt
  else
    let rows := reply_rows ev (ChunkMessage text) in
    let keys := map dv_DeliveryKey rows in
    _ ← claim keys;
    ins ← try (liftE (liftS (InsertDeliveries rows)));
    match ins with
    | Err _ => park_reply ev keys
    | Ok (ids, composed) => complete_reply ev keys ids composed
    end.

Definition failedTurn (ev : QueuedEvent) : HM R unit :=
  _ ← on_relay relay_Cancel;
  _ ← set_gate false;
  over ← liftE ctx_err;
  if (over : bool) then mret tt
  else
    relay ← get_turn_relay;
    if match (relay : option R) with Some r => relay_Posted r | None => false end
    then recover (ParkAmbiguous clock gated true ev)
    else recover (HandleEngineFailure clock gated true ev).

(** Reserve the target and decide whether this turn streams live. *)
Definition acquireRelay (ev : QueuedEvent) : HM R unit :=
  match newRelay with
  | None => mret tt
  | Some mk =>
      acquired ← try (liftE (liftS (AcquireTarget gated (qe_ThreadKey ev))));
      match acquired with
      | Err _ => mret tt
      | Ok _ =>
          _ ← set_gate gated;
          prior ← try (liftE (liftS (EventHasDeliveries (qe_ID ev))));
          relay ← (match prior with
                   | Err _ | Ok true => mret None
                   | Ok false =>
                       owed ← try (liftE (liftS (HasOwedDeliveries (qe_ThreadKey ev))));
                       match owed with
                       | Err _ | Ok true => mret None
                       | Ok false => mret (mk (qe_ThreadKey ev))
                       end
                   end);
          _ ← set_relay relay;
          match relay with None => set_gate false | Some _ => mret tt end
      end
  end.

Definition turn_request (ev : QueuedEvent) (prompt : string) : TurnRequest :=
  MkTurnRequest (qe_ThreadKey ev) (Floor [qe_Trust ev]) cwd (qe_Kind ev) prompt.

Definition runTurn (ev : QueuedEvent) (prompt : string) : HM R unit :=
  let req := turn_request ev prompt in
  _ ← liftE (emit (FxTurn (qe_ThreadKey ev) (rq_TrustFloor req) (qe_Kind ev) prompt));
  '(deltas, r) ← liftE (runner req);
  relay ← get_turn_relay;
  let '(reply, relay) := output_all deltas "" relay in
  _ ← set_relay relay;
  match r with
  | Err _ => failedTurn ev
  | Ok _ => finishTurn ev reply
  end.

(** The handler; the deferred releaseRelayTarget is its last action. *)
Definition productionTurn (ev : QueuedEvent) : HM R unit :=
  if negb (String.eqb (qe_Trust ev) "owner") then
    t ← liftE (now clock);
    _ ← try (liftE (liftS (SkipEvent (qe_ID ev) t)));
    mret tt
  else
    match event_text (qe_Payload ev) with
    | None => deadLetterMalformed ev
    | Some prompt =>
        _ ← set_relay None;
        _ ← set_gate false;
        _ ← acquireRelay ev;
        _ ← runTurn ev prompt;
        set_gate false
    end.
End handler.

(** ** Lemmas: frames *)

Lemma wph_liftE {R A} (m : EnvM A) (Q : result err A → hstate R → Prop) s :
  wpe m (λ r e', Q r (HState e' (hs_keys s) (hs_gate s) (hs_relay s))) (hs_env s) →
  wpm (liftE m) Q s.
Proof. unfold wpm, wpe, liftE. by destruct (m (hs_env s)). Qed.

(** The turns a trace records. *)
Definition is_turn (x : effect) : bool := match x with FxTurn _ _ _ _ => true | _ => false end.
Definition turns_of (tr : list effect) : list effect := List.filter is_turn tr.

Lemma turns_of_app l l' : turns_of (l ++ l') = turns_of l ++ turns_of l'.
Proof. unfold turns_of. apply List.filter_app. Qed.

(** A call that moves the store along its legal steps and starts no turn. *)
Definition tame {A} (m : EnvM A) : Prop := ∀ e,
  wpe m (λ _ e', rtc astep (env_db e) (env_db e')
                 ∧ turns_of (env_trace e') = turns_of (env_trace e)) e.

Lemma tame_lift {A} (m : StoreM A) : steps m → tame (liftS m).
Proof. intros Hm e. apply wpe_lift. eapply wpd_mono; [apply Hm|]. done. Qed.

Lemma tame_bind {A B} (m : EnvM A) (f : A → EnvM B) :
  tame m → (∀ a, tame (f a)) → tame (m ≫= f).
Proof.
  intros Hm Hf e. apply wpe_bind. eapply wpe_mono; [apply Hm|].
  intros [a|x] e' [H1 T1]; [|done]. eapply wpe_mono; [apply Hf|].
  intros r e'' [H2 T2]. split; [by etrans|congruence].
Qed.

Lemma tame_try {A} (m : EnvM A) : tame m → tame (try m).
Proof. intros Hm e. apply wpe_try, Hm. Qed.

Lemma tame_emit x : is_turn x = false → tame (emit x).
Proof.
  intros Hx e. apply wpe_emit. split; [done|]. cbn. rewrite turns_of_app. cbn.
  by rewrite Hx, app_nil_r.
Qed.

Lemma tame_ctx_err : tame ctx_err.
Proof. intros e. by apply wpe_ctx_err. Qed.

Ltac tame :=
  repeat (lazymatch goal with
  | |- tame (_ ≫= _) => apply tame_bind; [|intros ?]
  | |- tame (mbind _ _) => apply tame_bind; [|intros ?]
  | |- tame (try _) => apply tame_try
  | |- tame (liftS _) => apply tame_lift
  | |- tame (emit _) => by apply tame_emit
  | |- tame (mret _) => by intros ?
  | |- tame (fail _) => by intros ?
  | |- tame (now _) => by intros ?
  | |- tame ctx_err => apply tame_ctx_err
  | |- tame (if ?b then _ else _) => destruct b
  | |- tame (match ?x with _ => _ end) => destruct x
  end).

Lemma tame_park clock gated ev : tame (park clock gated true ev).
Proof.
  unfold park, kick. tame; [apply ParkEvent_steps|apply SurfaceInterrupted_steps].
Qed.

Lemma tame_HandleEngineFailure clock gated ev : tame (HandleEngineFailure clock gated true ev).
Proof.
  unfold HandleEngineFailure, AttemptsForEvent, deadLetter, kick. tame;
    auto using tame_park, steps_query, RequeueEventForRetry_steps, DeadLetterEvent_steps,
      SurfaceDeadLetter_steps.
Qed.

Lemma tame_stamp_chunk clock ids i : tame (stamp_chunk clock ids i).
Proof. unfold stamp_chunk. tame. apply MarkDeliveryAttempt_steps. Qed.

(** ** Lemmas: the event's own writes *)

Lemma event_write_wpd id sts t st why (Q : result err unit → db → Prop) d x :
  events d !! id = Some x →
  (∀ y, Q (Err y) d) →
  Q (Ok tt) (set_events (<[id := event_status_upd st t x]> (events d)) d) →
  wpd (n ← exec (upd_event id (has_status sts) (event_status_upd st t));
       if Z.eqb n 0 then refuse why else mret tt) Q d.
Proof.
  intros Hx Herr Hok. wpd_step. wpd_step; [done|]. upd_cases; simpl; wpd_step; [done|].
  by simplify_eq.
Qed.

Lemma SkipEvent_wpd id t (Q : result err unit → db → Prop) d x :
  events d !! id = Some x → (∀ y, Q (Err y) d) →
  Q (Ok tt) (set_events (<[id := event_status_upd Skipped t x]> (events d)) d) →
  wpd (SkipEvent id t) Q d.
Proof. apply event_write_wpd. Qed.

Lemma MarkEventCompleted_wpd id t (Q : result err unit → db → Prop) d x :
  events d !! id = Some x → (∀ y, Q (Err y) d) →
  Q (Ok tt) (set_events (<[id := event_status_upd Completed t x]> (events d)) d) →
  wpd (MarkEventCompleted id t) Q d.
Proof. apply event_write_wpd. Qed.

Lemma MarkEventCompletedReconciled_wpd id t (Q : result err unit → db → Prop) d x :
  events d !! id = Some x → (∀ y, Q (Err y) d) →
  (∀ st, st = Completed ∨ st = Replied →
     Q (Ok tt) (set_events (<[id := event_status_upd st t x]> (events d)) d)) →
  wpd (MarkEventCompletedReconciled id t) Q d.
Proof.
  intros Hx Herr Hok. unfold MarkEventCompletedReconciled. wpd_step. wpd_step; [done|].
  upd_cases; simpl; wpd_step; [done|]. simplify_eq. destruct (all_bound_acked id d); auto.
Qed.

(** ** Exits *)

Lemma reply_key_inj dedup i j : reply_key dedup i = reply_key dedup j → i = j.
Proof. unfold reply_key. intros H. by do 3 apply (inj (String.append _)) in H; apply (inj pretty) in H. Qed.

Lemma reply_rows_keys ev chunks :
  map dv_DeliveryKey (reply_rows ev chunks) = imap (λ i _, reply_key (qe_DedupKey ev) i) chunks.
Proof. unfold reply_rows. apply fmap_imap. Qed.

Lemma reply_keys_NoDup ev chunks : NoDup (map dv_DeliveryKey (reply_rows ev chunks)).
Proof.
  rewrite reply_rows_keys. apply NoDup_alt. intros i j k Hi Hj.
  rewrite list_lookup_imap in Hi, Hj.
  destruct (chunks !! i); [|done]. destruct (chunks !! j); [|done]. simpl in *.
  apply (reply_key_inj (qe_DedupKey ev)). congruence.
Qed.

(** The reply of [text] is in the outbox, one row per chunk. *)
Definition reply_stored (ev : QueuedEvent) (text : string) (d : db) : Prop :=
  ∀ i chunk, ChunkMessage text !! i = Some chunk →
  ∃ k r, deliveries d !! k = Some r ∧ dr_delivery_key r = reply_key (qe_DedupKey ev) i
    ∧ dr_event_id r = nullif_zero (qe_ID ev) ∧ dr_target r = qe_ThreadKey ev ∧ dr_payload r = chunk.

(** An earlier execution composed a reply for the event. *)
Definition reply_taken (ev : QueuedEvent) (text : string) (d : db) : Prop :=
  ∃ i, (i < length (ChunkMessage text))%nat
    ∧ exists_row (has_delivery_key (reply_key (qe_DedupKey ev) i)) (deliveries d) = true.

Lemma composed_stored ev text ids d d' :
  composed_rows (reply_rows ev (ChunkMessage text)) ids d d' → reply_stored ev text d'.
Proof.
  intros (Hf & _) i chunk Hc.
  assert (Hr : reply_rows ev (ChunkMessage text) !! i
    = Some (MkDelivery (reply_key (qe_DedupKey ev) i) (qe_ID ev) (qe_ThreadKey ev) chunk)).
  { unfold reply_rows. by rewrite list_lookup_imap, Hc. }
  destruct (Forall2_lookup_l _ _ _ _ _ Hf Hr) as (k & _ & Hk). eexists k, _. by split_and!.
Qed.

Lemma key_taken_reply ev text d :
  key_taken (reply_rows ev (ChunkMessage text)) d → reply_taken ev text d.
Proof.
  intros [(dv & Hdv & Hex)|Hd]; [|by destruct Hd; apply reply_keys_NoDup].
  apply list_elem_of_lookup in Hdv as [i Hi]. unfold reply_rows in Hi.
  rewrite list_lookup_imap in Hi. destruct (ChunkMessage text !! i) eqn:Hc; simplify_eq/=.
  exists i. split; [by eapply lookup_lt_Some|done].
Qed.

Lemma reply_stored_steps ev text d d' :
  rtc astep d d' → reply_stored ev text d → reply_stored ev text d'.
Proof.
  intros Hs Hr i chunk Hc. destruct (Hr i chunk Hc) as (k & r & Hk & H1 & H2 & H3 & H4).
  destruct (gr_deliveries _ _ (steps_grow _ _ Hs) _ _ Hk) as (r' & Hk' & Hg).
  exists k, r'. pose proof (dg_content _ _ Hg) as He. simplify_eq. split_and!; congruence.
Qed.

Lemma completed_steps d d' id x :
  rtc astep d d' → events d !! id = Some x → er_status x = Completed ∨ er_status x = Replied →
  ∃ x', events d' !! id = Some x' ∧ (er_status x' = Completed ∨ er_status x' = Replied).
Proof.
  intros Hs Hx Hst. destruct (gr_events _ _ (steps_grow _ _ Hs) _ _ Hx) as (x' & Hx' & Hg).
  exists x'. split; [done|]. pose proof (eg_status _ _ Hg) as He. unfold ev_after in He.
  destruct Hst as [Hst|Hst]; rewrite Hst in He; auto.
Qed.

(** The builder's half of the output sink. *)
Fixpoint sink (deltas : list string) (reply : string) : string :=
  match deltas with
  | [] => reply
  | delta :: deltas' =>
      sink deltas' ((if empty reply then reply else reply +:+ String "010" (String "010" EmptyString))
                    +:+ delta)
  end.
Definition reply_text (deltas : list string) : string := sink deltas "".

Section exits.
Context {R : Type} `{turnRelayOk R}.
Context (clock : nat → Z) (gated : bool) (newRelay : option (string → option R)).
Context (runner : TurnRequest → EnvM (list string * result err unit)) (cwd : string).

Lemma output_all_text deltas reply (relay : option R) :
  (output_all deltas reply relay).1 = sink deltas reply.
Proof.
  revert reply relay. induction deltas as [|d ds IH]; intros reply relay; cbn; [done|].
  destruct (empty reply); cbn; apply IH.
Qed.

(** *** What the success leg does *)

Definition hsteps (s s' : hstate R) : Prop :=
  rtc astep (hs_db s) (hs_db s')
  ∧ turns_of (env_trace (hs_env s')) = turns_of (env_trace (hs_env s)).

Lemma hsteps_refl s : hsteps s s.
Proof. done. Qed.
Lemma hsteps_trans s1 s2 s3 : hsteps s1 s2 → hsteps s2 s3 → hsteps s1 s3.
Proof. intros [H1 T1] [H2 T2]. split; [by etrans|congruence]. Qed.

Lemma wph_tame {A} (m : EnvM A) (Q : result err A → hstate R → Prop) s :
  tame m →
  (∀ r e', hsteps s (HState e' (hs_keys s) (hs_gate s) (hs_relay s)) →
     Q r (HState e' (hs_keys s) (hs_gate s) (hs_relay s))) →
  wpm (liftE m) Q s.
Proof.
  intros Hm HQ. apply wph_liftE. eapply wpe_mono; [apply Hm|]. intros r e' [H1 H2]. by apply HQ.
Qed.

Lemma journal_tame idx ids e :
  let e' := foldl (λ e i, (stamp_chunk clock ids i e).2) e idx in
  rtc astep (env_db e) (env_db e') ∧ turns_of (env_trace e') = turns_of (env_trace e).
Proof.
  revert e. induction idx as [|i idx IH]; intros e; [done|]. simpl.
  pose proof (tame_stamp_chunk clock ids i e) as H1. unfold wpe in H1.
  destruct (stamp_chunk clock ids i e) as [r e1]. simpl in *. destruct H1 as [H1 T1].
  destruct (IH e1) as [H2 T2]. split; [by etrans|congruence].
Qed.

Lemma ack_loop_spec acks ids s :
  wpm (ack_loop clock acks ids)
    (λ r s', r = Ok tt ∧ hsteps s s' ∧ hs_keys s' = hs_keys s ∧ hs_gate s' = hs_gate s
             ∧ hs_relay s' = hs_relay s) s.
Proof.
  revert ids s. induction acks as [|a acks IH]; intros ids s; [done|]. destruct ids as [|i ids]; [done|].
  cbn [ack_loop]. apply wpm_bind, wph_liftE, wpe_now. cbn.
  apply wpm_bind, wpm_try, wph_tame; [apply tame_lift, AckDelivery_steps|]. intros r e' Hs.
  eapply wpm_mono; [apply IH|]. intros r' s' (-> & H2 & -> & -> & ->). split_and!; try done.
  eapply hsteps_trans; [|exact H2]. exact Hs.
Qed.

Definition released (keys : list string) (ks : gset string) : gset string :=
  if gated then ks ∖ list_to_set keys else ks.
Definition claimed (keys : list string) (ks : gset string) : gset string :=
  if gated then ks ∪ list_to_set keys else ks.

Lemma send_reply_spec keys ids direct s :
  (direct = true → is_Some (hs_relay s)) →
  wpm (send_reply clock gated keys ids direct)
    (λ r s', r = Ok tt ∧ hsteps s s' ∧ hs_keys s' = released keys (hs_keys s)
             ∧ hs_gate s' = hs_gate s) s.
Proof.
  intros Hd. unfold send_reply.
  assert (Hkick : ∀ s1 : hstate R, hsteps s s1 → hs_keys s1 = released keys (hs_keys s) →
    hs_gate s1 = hs_gate s →
    wpm (liftE (emit FxKick)) (λ r s', r = Ok tt ∧ hsteps s s'
      ∧ hs_keys s' = released keys (hs_keys s) ∧ hs_gate s' = hs_gate s) s1).
  { intros s1 H1 K1 G1. apply wph_liftE, wpe_emit. split_and!; try done.
    eapply hsteps_trans; [exact H1|]. split; [done|]. cbn. rewrite turns_of_app. apply app_nil_r. }
  destruct direct; cbn [negb].
  - destruct (Hd eq_refl) as [rl Hrl]. apply wpm_bind. unfold wpm at 1, finish_relay. rewrite Hrl.
    pose proof (relay_finish_journal env (stamp_chunk clock ids) rl (hs_env s)) as [idx Hidx].
    destruct (relay_FinishJournaled _ _ _) as [[acks e] [r' e']]. cbn in Hidx.
    destruct (journal_tame idx ids (hs_env s)) as [J1 J2]. rewrite <-Hidx in J1, J2.
    set (s1 := HState e' _ _ _). apply wpm_bind.
    eapply wpm_mono; [apply ack_loop_spec|]. intros r s2 (-> & H2 & K2 & G2 & _).
    assert (H12 : hsteps s s2) by (eapply (hsteps_trans _ s1); [by split|exact H2]).
    destruct (bool_decide (e ≠ None) || _).
    + apply wpm_bind. destruct (bool_decide (acks = [])); apply wpm_bind; apply Hkick; cbn; done || by rewrite K2.
    + unfold wpm, unclaim, put_keys. cbn. split_and!; try done. by rewrite K2.
  - apply wpm_bind. unfold wpm at 1, on_relay. apply wpm_bind. unfold wpm at 1, unclaim, put_keys.
    by apply Hkick.
Qed.

(** How the success leg of a reply with text leaves the event. *)
Definition reply_exit (ev : QueuedEvent) (x : event_row) (text : string) (s s' : hstate R) : Prop :=
  let keys := map dv_DeliveryKey (reply_rows ev (ChunkMessage text)) in
  let answered := reply_stored ev text (hs_db s') ∨ reply_taken ev text (hs_db s) in
  let ks := claimed keys (hs_keys s) in
  ∃ x', events (hs_db s') !! qe_ID ev = Some x'
  ∧ ((x' = x ∨ er_status x' = Interrupted) ∧ hs_keys s' = released keys ks
     ∨ x' = x ∧ answered ∧ hs_keys s' = ks
     ∨ (er_status x' = Completed ∨ er_status x' = Replied) ∧ answered
       ∧ hs_keys s' = released keys ks).

(** A park in the wake of a failure: the row is parked, or as it was. *)
Lemma recover_park ev x s (Q : result err unit → hstate R → Prop) :
  hs_gate s = false → events (hs_db s) !! qe_ID ev = Some x → er_status x = Processing →
  (∀ s' x', hs_gate s' = false → hs_keys s' = hs_keys s → hs_relay s' = hs_relay s →
     turns_of (env_trace (hs_env s')) = turns_of (env_trace (hs_env s)) →
     events (hs_db s') !! qe_ID ev = Some x' →
     (x' = x ∨ er_status x' = Interrupted ∧ er_parks x' = er_parks x + 1) → Q (Ok tt) s') →
  wpm (recover (ParkAmbiguous clock gated true ev)) Q s.
Proof.
  intros Hg Hx Hst HQ. unfold wpm, recover. rewrite Hg. unfold ParkAmbiguous.
  pose proof (tame_park clock gated ev (hs_env s)) as Ht.
  assert (Hp : wpe (park clock gated true ev) (λ _ e', ∃ x', events (env_db e') !! qe_ID ev = Some x'
    ∧ (x' = x ∨ er_status x' = Interrupted ∧ er_parks x' = er_parks x + 1)) (hs_env s)).
  { eapply park_wpe; [exact Hx|by right| |].
    - intros y e' He'. exists x. rewrite He'. split; [exact Hx|by left].
    - intros e' x' Hx' Hi Hp _. eauto. }
  unfold wpe in Ht, Hp. destruct (park clock gated true ev (hs_env s)) as [r e'].
  destruct Ht as [_ Ht]. destruct Hp as (x' & Hx' & Hor). by eapply HQ.
Qed.

(** The completion stamp: nothing, or the event is completed or replied. *)
Lemma complete_wpd (composed : bool) id t d x :
  events d !! id = Some x →
  wpd (if composed then MarkEventCompleted id t else MarkEventCompletedReconciled id t)
    (λ r d', match r with
     | Err _ => d' = d
     | Ok _ => rtc astep d d' ∧ ∃ y, events d' !! id = Some y
                 ∧ (er_status y = Completed ∨ er_status y = Replied)
     end) d.
Proof.
  intros Hx. assert (Hl : ∀ y, (set_events (<[id := y]> (events d)) d).(events) !! id = Some y)
    by (intros; apply lookup_insert_eq).
  eapply wpd_mono; [apply wpd_conj|].
  - instantiate (1 := λ _ d', rtc astep d d').
    destruct composed; [apply MarkEventCompleted_steps|apply MarkEventCompletedReconciled_steps].
  - instantiate (1 := λ r d', match r with Err _ => d' = d | Ok _ => ∃ y, events d' !! id = Some y
      ∧ (er_status y = Completed ∨ er_status y = Replied) end).
    destruct composed.
    + eapply MarkEventCompleted_wpd; [exact Hx|done|eauto].
    + eapply MarkEventCompletedReconciled_wpd; [exact Hx|done|]. intros st Hst. eauto.
  - intros [] d' [H1 H2]; auto.
Qed.

Definition reply_post (ev : QueuedEvent) (x : event_row) (text : string) (s0 s : hstate R)
    (r : result err unit) (s' : hstate R) : Prop :=
  r = Ok tt ∧ hs_gate s' = hs_gate s ∧ reply_exit ev x text s0 s'
  ∧ turns_of (env_trace (hs_env s')) = turns_of (env_trace (hs_env s)).

Section answered.
Context (ev : QueuedEvent) (x : event_row) (text : string) (s0 s : hstate R).
Let keys := map dv_DeliveryKey (reply_rows ev (ChunkMessage text)).
Context (Hx : events (hs_db s) !! qe_ID ev = Some x).
Context (Hk : hs_keys s = claimed keys (hs_keys s0)).
Context (Hans : reply_stored ev text (hs_db s) ∨ reply_taken ev text (hs_db s0)).

Lemma stamp_and_send ids direct (composed : bool) :
  (direct = true → is_Some (hs_relay s)) →
  wpm (t ← liftE (now clock);
       done ← try (liftE (liftS (if composed then MarkEventCompleted (qe_ID ev) t
                                 else MarkEventCompletedReconciled (qe_ID ev) t)));
       match done with
       | Err _ => on_relay relay_Retract
       | Ok _ => send_reply clock gated keys ids direct
       end) (reply_post ev x text s0 s) s.
Proof.
  intros Hd. apply wpm_bind, wph_liftE, wpe_now. cbn.
  apply wpm_bind, wpm_try, wph_liftE, wpe_lift.
  eapply wpd_mono; [apply (complete_wpd composed _ _ _ x Hx)|].
  intros [[]|y] d' Hpost fs.
  - destruct Hpost as (Hs & y & Hy & Hst). eapply wpm_mono; [by apply send_reply_spec|].
    intros r s' (-> & [H1 T1] & K1 & G1). split_and!; try done.
    destruct (completed_steps _ _ _ _ H1 Hy Hst) as (x' & Hx' & Hst').
    exists x'. split; [done|]. right. right. split_and!; [done| |rewrite K1; cbn; by rewrite Hk].
    destruct Hans as [Ha|Ha]; [left|by right]. eapply reply_stored_steps; [|exact Ha].
    etrans; [exact Hs|exact H1].
  - cbn in Hpost. subst d'. split_and!; try done. exists x. split; [exact Hx|].
    right. left. split_and!; [done|exact Hans|exact Hk].
Qed.
End answered.

Lemma complete_reply_spec ev x text s0 s ids composed :
  let keys := map dv_DeliveryKey (reply_rows ev (ChunkMessage text)) in
  events (hs_db s) !! qe_ID ev = Some x → hs_keys s = claimed keys (hs_keys s0) →
  reply_stored ev text (hs_db s) ∨ reply_taken ev text (hs_db s0) →
  wpm (complete_reply clock gated ev keys ids composed) (reply_post ev x text s0 s) s.
Proof.
  intros keys Hx Hk Hans. unfold complete_reply. apply wpm_bind. unfold wpm at 1, get_turn_relay.
  apply wpm_bind. destruct (bool_decide (is_Some (hs_relay s)) && composed) eqn:Hb.
  - apply andb_true_iff in Hb as [Hr%bool_decide_eq_true _].
    apply wpm_bind, wpm_try, wph_liftE, wpe_lift. unfold OwedDeliveriesBefore.
    wpd_step; intros fs; apply wpm_ret; (eapply wpm_mono; [by eapply stamp_and_send|]);
      intros r s' Hp; exact Hp.
  - apply wpm_ret. by apply stamp_and_send.
Qed.

Lemma finishTurn_silent ev x s :
  events (hs_db s) !! qe_ID ev = Some x →
  wpm (finishTurn clock gated ev "")
    (λ r s', r = Ok tt ∧ hs_gate s' = hs_gate s ∧ hs_keys s' = hs_keys s
       ∧ turns_of (env_trace (hs_env s')) = turns_of (env_trace (hs_env s))
       ∧ ∃ x', events (hs_db s') !! qe_ID ev = Some x' ∧ (x' = x ∨ er_status x' = Completed)) s.
Proof.
  intros Hx. unfold finishTurn. cbn. apply wpm_bind. unfold wpm at 1, on_relay.
  apply wpm_bind, wph_liftE, wpe_now. cbn. apply wpm_bind, wpm_try, wph_liftE, wpe_lift.
  eapply MarkEventCompleted_wpd; [exact Hx|intros y fs|intros fs]; split_and!; try done.
  - exists x. split; [exact Hx|by left].
  - eexists. split; [apply lookup_insert_eq|by right].
Qed.

Lemma finishTurn_reply ev x text s :
  text ≠ ""%string →
  events (hs_db s) !! qe_ID ev = Some x → er_status x = Processing →
  wpm (finishTurn clock gated ev text)
    (λ r s', r = Ok tt ∧ (hs_gate s' = hs_gate s ∨ hs_gate s' = false) ∧ reply_exit ev x text s s'
       ∧ turns_of (env_trace (hs_env s')) = turns_of (env_trace (hs_env s))) s.
Proof.
  intros Hne Hx Hst. unfold finishTurn, empty. rewrite bool_decide_false by done. cbv zeta.
  set (keys := map dv_DeliveryKey (reply_rows ev (ChunkMessage text))).
  apply wpm_bind. unfold wpm at 1, claim, put_keys.
  apply wpm_bind, wpm_try, wph_liftE, wpe_lift.
  eapply wpd_mono; [apply InsertDeliveries_wpd|]. cbn.
  assert (Hc : ∀ ids composed d' fs, (∃ m, d' = set_deliveries m (env_db (hs_env s))) →
    reply_stored ev text d' ∨ reply_taken ev text (hs_db s) →
    wpm (complete_reply clock gated ev keys ids composed)
      (λ r s', r = Ok tt ∧ (hs_gate s' = hs_gate s ∨ hs_gate s' = false) ∧ reply_exit ev x text s s'
         ∧ turns_of (env_trace (hs_env s')) = turns_of (env_trace (hs_env s)))
      (HState (Env (World d' fs) (env_ticks (hs_env s)) (env_ctx (hs_env s)) (env_plat (hs_env s))
                 (env_trace (hs_env s)))
         (if gated then hs_keys s ∪ list_to_set keys else hs_keys s) (hs_gate s) (hs_relay s))).
  { intros ids composed d' fs [m Hm] Hans. eapply wpm_mono.
    - apply (complete_reply_spec ev x text s); [|done|done]. cbn. by rewrite Hm.
    - intros r s' (-> & G & He & T). cbn in *. split_and!; auto. }
  intros [[ids [|]]|y] d' Hpost fs.
  - pose proof (composed_stored _ _ _ _ _ Hpost). destruct Hpost as (_ & _ & _ & _ & _ & Hd).
    apply Hc; eauto.
  - destruct Hpost as (-> & -> & Hk). apply Hc; [|by right; apply key_taken_reply].
    exists (deliveries (env_db (hs_env s))). by destruct (env_db (hs_env s)).
  - subst d'. unfold park_reply. apply wpm_bind. unfold wpm at 1, on_relay.
    apply wpm_bind. unfold wpm at 1, set_gate. apply wpm_bind. unfold wpm at 1, unclaim, put_keys. cbn.
    eapply (recover_park ev x); [done|exact Hx|done|].
    intros s' x' G K _ T Hx' Hor. cbn in *. split_and!; auto.
    exists x'. split; [done|]. left. split; [|done]. destruct Hor as [?|[? _]]; auto.
Qed.

(** How a failed turn leaves its event, and whether anything was visible. *)
Definition failure_exit (ev : QueuedEvent) (x : event_row) (s s' : hstate R) : Prop :=
  hs_keys s' = hs_keys s ∧ ∃ x', events (hs_db s') !! qe_ID ev = Some x'
  ∧ (x' = x
     ∨ er_status x' = Interrupted ∧ er_parks x' = er_parks x + 1
     ∨ er_status x' = Received ∧ er_attempts x' = er_attempts x + 1 ∧ er_attempts x' ≤ 2
       ∧ (∀ r, hs_relay s' = Some r → relay_Posted r = false)
     ∨ er_status x' = Dead ∧ 2 ≤ er_attempts x).

Lemma failedTurn_spec ev x s :
  events (hs_db s) !! qe_ID ev = Some x → er_status x = Processing →
  wpm (failedTurn clock gated ev)
    (λ r s', r = Ok tt ∧ hs_gate s' = false ∧ failure_exit ev x s s'
       ∧ turns_of (env_trace (hs_env s')) = turns_of (env_trace (hs_env s))) s.
Proof.
  intros Hx Hst. unfold failedTurn. apply wpm_bind. unfold wpm at 1, on_relay.
  apply wpm_bind. unfold wpm at 1, set_gate. apply wpm_bind, wph_liftE.
  apply wpe_ctx_err. intros over cs. cbn. destruct over.
  { split_and!; try done. split; [done|]. exists x. split; [exact Hx|by left]. }
  apply wpm_bind. unfold wpm at 1, get_turn_relay. cbn.
  destruct (match relay_Cancel <$> hs_relay s with Some r => relay_Posted r | None => false end) eqn:Hp.
  - eapply (recover_park ev x); [done|exact Hx|done|].
    intros s' x' G K _ T Hx' Hor. cbn in *. split_and!; auto. split; [done|].
    exists x'. split; [done|]. destruct Hor as [Ho|Ho]; auto.
  - unfold wpm, recover. cbn.
    match goal with |- context [HandleEngineFailure clock gated true ev ?e] =>
      pose proof (tame_HandleEngineFailure clock gated ev e) as Ht;
      pose proof (HandleEngineFailure_wpe clock gated true ev x e Hx Hst) as Hl;
      unfold wpe in Ht, Hl; destruct (HandleEngineFailure clock gated true ev e) as [r e'] end.
    destruct Ht as [_ Ht]. split_and!; try done. split; [done|].
    assert (Hposted : ∀ r0, relay_Cancel <$> hs_relay s = Some r0 → relay_Posted r0 = false).
    { intros r0 Hr0. by rewrite Hr0 in Hp. }
    destruct r as [[| |]|y]; cbn in Hl.
    + destruct Hl as (x' & delay & Hx' & H1 & H2 & H3 & _). exists x'. split; [done|].
      right. right. left. split_and!; done.
    + destruct Hl as (x' & Hx' & H1 & H2). exists x'. split; [done|]. by right; left.
    + destruct Hl as (Ha & x' & r & Hx' & H1 & _). exists x'. split; [done|]. by do 3 right.
    + exists x. split; [|by left]. unfold hs_db. cbn. by rewrite Hl.
Qed.

(** Reserving the target reads the store; a gate is held only for a relay. *)
Definition reserved (s s' : hstate R) : Prop :=
  hs_db s' = hs_db s ∧ hs_keys s' = hs_keys s
  ∧ env_trace (hs_env s') = env_trace (hs_env s).

Lemma acquireRelay_spec ev s :
  hs_gate s = false → hs_relay s = None →
  wpm (acquireRelay gated newRelay ev) (λ r s', r = Ok tt ∧ reserved s s') s.
Proof.
  intros Hg Hr. unfold acquireRelay. destruct newRelay as [mk|]; [|done].
  apply wpm_bind, wpm_try, wph_liftE, wpe_lift, AcquireTarget_wpd. intros [a|y] fs; [|done].
  apply wpm_bind. unfold wpm at 1, set_gate. cbn.
  assert (Hend : ∀ rl s1, reserved s s1 →
    wpm (_ ← set_relay rl; match rl with None => set_gate false | Some _ => mret tt end)
      (λ r s', r = Ok tt ∧ reserved s s') s1).
  { intros rl s1 H1. apply wpm_bind. unfold wpm at 1, set_relay. by destruct rl. }
  apply wpm_bind, wpm_try, wph_liftE, wpe_lift. unfold EventHasDeliveries.
  wpd_step; intros fs1; apply wpm_bind; [apply wpm_ret; by apply Hend|].
  destruct (exists_row _ _); [apply wpm_ret; by apply Hend|].
  apply wpm_bind, wpm_try, wph_liftE, wpe_lift. unfold HasOwedDeliveries.
  wpd_step; intros fs2; [apply wpm_ret; by apply Hend|].
  destruct (exists_row _ _); apply wpm_ret; by apply Hend.
Qed.

(** What the handler relies on of the session manager: whatever a turn answers,
    the event, the outbox and the dead letters are as they were, and it starts
    no turn of its own. *)
Definition runner_ok : Prop := ∀ req e,
  wpe (runner req) (λ r e', is_ok r = true
    ∧ events (env_db e') = events (env_db e) ∧ deliveries (env_db e') = deliveries (env_db e)
    ∧ dead_letters (env_db e') = dead_letters (env_db e)
    ∧ turns_of (env_trace e') = turns_of (env_trace e)) e.

(** The one turn of an owner's event, and how it left the event. *)
Definition turn_run (ev : QueuedEvent) (x : event_row) (prompt : string) (s s' : hstate R) : Prop :=
  ∃ e1 e2 deltas r, env_db e1 = hs_db s
  ∧ runner (turn_request cwd ev prompt) e1 = (Ok (deltas, r), e2)
  ∧ turns_of (env_trace (hs_env s')) = turns_of (env_trace (hs_env s))
      ++ [FxTurn (qe_ThreadKey ev) (Floor [qe_Trust ev]) (qe_Kind ev) prompt]
  ∧ match r with
    | Err _ => failure_exit ev x s s'
    | Ok _ =>
        if empty (reply_text deltas) then
          hs_keys s' = hs_keys s ∧ ∃ x', events (hs_db s') !! qe_ID ev = Some x'
            ∧ (x' = x ∨ er_status x' = Completed)
        else reply_exit ev x (reply_text deltas) s s'
    end.

Lemma reply_exit_from ev x text s s1 s' :
  deliveries (hs_db s1) = deliveries (hs_db s) → hs_keys s1 = hs_keys s →
  reply_exit ev x text s1 s' → reply_exit ev x text s s'.
Proof. intros Hd Hk. unfold reply_exit, reply_taken. by rewrite Hd, Hk. Qed.

Lemma runTurn_spec ev x prompt s s1 :
  runner_ok → reserved s s1 →
  events (hs_db s) !! qe_ID ev = Some x → er_status x = Processing →
  wpm (runTurn clock gated runner cwd ev prompt)
    (λ r s', r = Ok tt ∧ turn_run ev x prompt s s') s1.
Proof.
  intros Hrun (D1 & K1 & T1) Hx Hst. unfold runTurn. cbv zeta.
  apply wpm_bind, wph_liftE, wpe_emit. cbn. set (e1 := Env _ _ _ _ _).
  apply wpm_bind, wph_liftE. pose proof (Hrun (turn_request cwd ev prompt) e1) as Hr.
  match goal with |- wpe _ ?Q _ => change (wpe (runner (turn_request cwd ev prompt)) Q e1) end.
  unfold wpe in *. destruct (runner (turn_request cwd ev prompt) e1) as [[[deltas r]|y] e2] eqn:Hq;
    destruct Hr as (Hok & E2 & L2 & _ & T2); [|done]. cbn.
  apply wpm_bind. unfold wpm at 1, get_turn_relay. cbn.
  pose proof (output_all_text deltas "" (hs_relay s1)) as Htext.
  destruct (output_all deltas "" (hs_relay s1)) as [reply rl]. cbn in Htext. subst reply.
  apply wpm_bind. unfold wpm at 1, set_relay. cbn. set (s2 := HState e2 _ _ _).
  change (env_db e1) with (hs_db s1) in E2, L2. rewrite D1 in E2, L2.
  cbn in T2. rewrite T1, turns_of_app in T2.
  assert (Hgoal : ∀ s', turns_of (env_trace (hs_env s')) = turns_of (env_trace (hs_env s2)) →
    match r with
    | Err _ => failure_exit ev x s s'
    | Ok _ => if empty (sink deltas "") then hs_keys s' = hs_keys s
          ∧ ∃ x', events (hs_db s') !! qe_ID ev = Some x' ∧ (x' = x ∨ er_status x' = Completed)
        else reply_exit ev x (sink deltas "") s s' end →
    turn_run ev x prompt s s').
  { intros s' T' Hm. exists e1, e2, deltas, r. split_and!; [exact D1|exact Hq|etrans; [exact T'|exact T2]|exact Hm]. }
  rewrite <-E2 in Hx. destruct r as [[]|y].
  - destruct (empty (sink deltas "")) eqn:He.
    + apply empty_true in He. rewrite He. eapply wpm_mono; [by apply (finishTurn_silent ev x)|].
      intros r s' (-> & _ & K & T & Hx'). split; [done|]. apply Hgoal; [done|].
      split; [by rewrite K|done].
    + apply empty_false in He. eapply wpm_mono; [by apply (finishTurn_reply ev x)|].
      intros r s' (-> & _ & Hex & T). split; [done|]. apply Hgoal; [done|].
      by apply (reply_exit_from ev x _ s s2).
  - eapply wpm_mono; [by apply (failedTurn_spec ev x)|].
    intros r s' (-> & _ & (K & Hf) & T). split; [done|]. apply Hgoal; [done|].
    split; [by rewrite K|exact Hf].
Qed.

(** How the handler leaves its event. *)
Definition turn_exit (ev : QueuedEvent) (x : event_row) (s s' : hstate R) : Prop :=
  let no_turn := turns_of (env_trace (hs_env s')) = turns_of (env_trace (hs_env s)) in
  if String.eqb (qe_Trust ev) "owner" then
    match event_text (qe_Payload ev) with
    | None => no_turn ∧ hs_keys s' = hs_keys s
        ∧ (hs_db s' = hs_db s
           ∨ ∃ x' r, events (hs_db s') !! qe_ID ev = Some x' ∧ er_status x' = Dead
             ∧ dead_letters (hs_db s') !! qe_ID ev = Some r
             ∧ dd_reason r = "malformed"%string ∧ dd_resolution r = None)
    | Some prompt => turn_run ev x prompt s s'
    end
  else no_turn ∧ hs_keys s' = hs_keys s ∧ deliveries (hs_db s') = deliveries (hs_db s)
    ∧ (hs_db s' = hs_db s
       ∨ ∃ x', events (hs_db s') !! qe_ID ev = Some x' ∧ er_status x' = Skipped).

Lemma malformed_spec ev x (s : hstate R) :
  events (hs_db s) !! qe_ID ev = Some x →
  wpm (deadLetterMalformed clock gated ev)
    (λ r s', r = Ok tt ∧ hs_gate s' = hs_gate s
       ∧ turns_of (env_trace (hs_env s')) = turns_of (env_trace (hs_env s))
       ∧ hs_keys s' = hs_keys s
       ∧ (hs_db s' = hs_db s
          ∨ ∃ x' r, events (hs_db s') !! qe_ID ev = Some x' ∧ er_status x' = Dead
            ∧ dead_letters (hs_db s') !! qe_ID ev = Some r
            ∧ dd_reason r = "malformed"%string ∧ dd_resolution r = None)) s.
Proof.
  intros Hx. unfold deadLetterMalformed. apply wpm_bind, wph_liftE, wpe_now. cbn.
  apply wpm_bind, wpm_try, wph_liftE, wpe_lift, DeadLetterEvent_wpd.
  { intros y fs. split_and!; try done. by left. }
  intros x0 r d' Hx0 _ Hev Hr Hre Hres fs.
  apply wpm_bind, wpm_try, wph_liftE, wpe_lift, SurfaceDeadLetter_wpd.
  intros sr d2 (Hev2 & Hdl2 & _) fs2. cbn in Hev2, Hdl2.
  assert (Hd : ∃ x' r, events d2 !! qe_ID ev = Some x' ∧ er_status x' = Dead
    ∧ dead_letters d2 !! qe_ID ev = Some r ∧ dd_reason r = "malformed"%string ∧ dd_resolution r = None).
  { eexists _, r. rewrite Hev2, Hdl2. unfold env_db. cbn. rewrite Hev.
    split_and!; [apply lookup_insert_eq|done..]. }
  destruct sr.
  - apply wph_liftE, wpe_emit. split_and!; try done; [|by right]. cbn.
    rewrite turns_of_app. apply app_nil_r.
  - split_and!; try done. by right.
Qed.

Lemma productionTurn_spec ev x s :
  runner_ok → hs_gate s = false →
  events (hs_db s) !! qe_ID ev = Some x → er_status x = Processing →
  wpm (productionTurn clock gated newRelay runner cwd ev)
    (λ r s', r = Ok tt ∧ hs_gate s' = false ∧ turn_exit ev x s s') s.
Proof.
  intros Hrun Hg Hx Hst. unfold productionTurn, turn_exit.
  destruct (String.eqb (qe_Trust ev) "owner"); cbn [negb].
  - destruct (event_text (qe_Payload ev)) as [prompt|].
    + apply wpm_bind. unfold wpm at 1, set_relay. apply wpm_bind. unfold wpm at 1, set_gate. cbn.
      apply wpm_bind. eapply wpm_mono; [by apply acquireRelay_spec|].
      intros r s1 (-> & H1). apply wpm_bind.
      eapply wpm_mono; [by eapply runTurn_spec|]. intros r s' (-> & H2). by unfold wpm, set_gate.
    + eapply wpm_mono; [by eapply malformed_spec|]. intros r s' (-> & G & T & K & Hd). cbn in *.
      split_and!; try done. by rewrite G.
  - apply wpm_bind, wph_liftE, wpe_now. cbn. apply wpm_bind, wpm_try, wph_liftE, wpe_lift.
    eapply SkipEvent_wpd; [exact Hx|intros y fs|intros fs]; split_and!; try done; [by left|].
    right. eexists. split; [apply lookup_insert_eq|done].
Qed.
End exits.

(** ** The discord relay as an instance *)

Section discord_relay.
Context (plat : nat → option string) (dead : nat → bool) (clock : nat → Z).

Definition discord_relay : turnRelay dstate := {|
  relay_Push := λ delta s, (Push plat dead clock delta s).2;
  relay_Cancel := λ s, (Cancel s).2;
  relay_Retract := λ s, (Retract plat s).2;
  relay_Posted := λ s, rl_posted (ds_relay s);
  relay_FinishJournaled := λ J before s j,
    match FinishJournaled plat dead (Some before) (s, j) with
    | (Ok a, sj) => (a, sj)
    | (Err e, sj) => (([], Some e), sj)
    end;
|}.

Lemma discord_relay_ok : @turnRelayOk dstate discord_relay.
Proof.
  split. intros J before s j. cbn [relay_FinishJournaled discord_relay FinishJournaled].
  pose proof (finish_ends plat dead before s j) as Hf. unfold wpm in Hf.
  destruct (finish _ _ _ _) as [r [s' j']].
  destruct Hf as (acks & e & log & -> & _ & _ & Hj & _). by exists (stamps log).
Qed.
End discord_relay.

(** ** The session manager as the runner *)

Definition queue_frame (d d' : db) : Prop :=
  events d' = events d ∧ deliveries d' = deliveries d ∧ dead_letters d' = dead_letters d.

(** A store call that leaves the queue, the outbox and the dead letters alone. *)
Definition framed {A} (m : StoreM A) : Prop := ∀ d, wpd m (λ _ d', queue_frame d d') d.

(** Its counterpart above the store, starting no turn of the handler's. *)
Definition sparing {A} (m : EnvM A) : Prop := ∀ e,
  wpe m (λ _ e', queue_frame (env_db e) (env_db e')
                 ∧ turns_of (env_trace e') = turns_of (env_trace e)) e.

Lemma framed_update id g f {A} (k : Z → StoreM A) :
  (∀ n, framed (k n)) → framed (n ← exec (upd_session id g f); k n).
Proof.
  intros Hk d. wpd_step. wpd_step; [done|].
  assert (Hf : queue_frame d d') by (unfold upd_session in *; by repeat case_match; simplify_eq).
  eapply wpd_mono; [apply Hk|]. intros r d2. destruct Hf as (E & L & D).
  unfold queue_frame. by rewrite E, L, D.
Qed.

Lemma framed_end (b : bool) x : framed (if b then refuse x else mret tt).
Proof. intros d. destruct b; by wpd_step. Qed.

Lemma sparing_lift {A} (m : StoreM A) : framed m → sparing (liftS m).
Proof. intros Hm e. apply wpe_lift. eapply wpd_mono; [apply Hm|]. by intros r d' H fs. Qed.

Lemma sparing_bind {A B} (m : EnvM A) (f : A → EnvM B) :
  sparing m → (∀ a, sparing (f a)) → sparing (m ≫= f).
Proof.
  intros Hm Hf e. apply wpe_bind. eapply wpe_mono; [apply Hm|].
  intros [a|x] e' [(E & L & D) T1]; [|done]. eapply wpe_mono; [apply Hf|].
  intros r e'' [H2 T2]. split; [|congruence]. unfold queue_frame in *. by rewrite <-E, <-L, <-D.
Qed.

Lemma sparing_try {A} (m : EnvM A) : sparing m → sparing (try m).
Proof. intros Hm e. apply wpe_try, Hm. Qed.

Lemma sparing_emit x : is_turn x = false → sparing (emit x).
Proof.
  intros Hx e. apply wpe_emit. split; [done|]. cbn. rewrite turns_of_app. cbn.
  by rewrite Hx, app_nil_r.
Qed.

Lemma sparing_local {A} (m : EnvM A) :
  (∀ e, env_world (m e).2 = env_world e ∧ env_trace (m e).2 = env_trace e) → sparing m.
Proof.
  intros Hm e. unfold wpe, env_db. destruct (m e) as [r e'] eqn:He. specialize (Hm e).
  rewrite He in Hm. simpl in Hm. by destruct Hm as [-> ->].
Qed.

Lemma sparing_query {A} (f : db → A) : sparing (liftS (query f)).
Proof. apply sparing_lift. intros d. by wpd_step. Qed.

Ltac sparing :=
  repeat (lazymatch goal with
  | |- sparing (_ ≫= _) => apply sparing_bind; [|intros ?]
  | |- sparing (mbind _ _) => apply sparing_bind; [|intros ?]
  | |- sparing (try _) => apply sparing_try
  | |- sparing (emit _) => by apply sparing_emit
  | |- sparing (liftS (ResolveLiveSession _)) => apply sparing_query
  | |- sparing (liftS (SessionDegraded _)) => apply sparing_query
  | |- sparing (if ?b then _ else _) => destruct b
  | |- sparing (let '(_, _) := ?x in _) => destruct x
  | |- sparing (match ?x with _ => _ end) => destruct x
  | |- sparing (mret _) => by apply sparing_local
  | |- sparing (fail _) => by apply sparing_local
  | |- sparing (now _) => by apply sparing_local
  | |- sparing (the_fs _) => by apply sparing_local
  end).

Section session_runner.
Context (m : Manager) (clock : nat → Z) (rand : nat → option (list Z)) (fs : nat → filesystem).
Context (start resume : Spec → EnvM unit).
Context (Hstart : ∀ s, sparing (start s)) (Hresume : ∀ s, sparing (resume s)).

Lemma sparing_mint tk floor cwd origin : sparing (mint m clock rand tk floor cwd origin).
Proof.
  apply sparing_local. intros e. unfold mint, newSessionID, mbind, EnvM_bind, M_bind.
  by destruct (rand _).
Qed.

Lemma sparing_ctx_err : sparing ctx_err.
Proof. apply sparing_local. intros e. unfold ctx_err. by destruct (next_fault _). Qed.

Lemma sparing_assertCwd cwd : sparing (assertCwd fs cwd).
Proof.
  apply sparing_local. intros e. unfold assertCwd, the_fs, mbind, EnvM_bind, M_bind.
  by destruct (fs_stat_is_dir (fs (env_ticks e)) cwd) as [[]|].
Qed.

Lemma sparing_retire f old s from retired ge : sparing (liftS (retireSession f old s from retired ge)).
Proof. apply sparing_lift. intros d. by apply retireSession_wpd. Qed.

Lemma sparing_insert f s : sparing (liftS (InsertSession f s)).
Proof. apply sparing_lift. intros d. by apply InsertSession_wpd. Qed.

Lemma sparing_activate sid : sparing (liftS (ActivateSession sid)).
Proof.
  apply sparing_lift. unfold ActivateSession, transitionCreating. apply framed_update.
  intros n. apply framed_end.
Qed.

Lemma sparing_touch sid : sparing (touch clock sid).
Proof.
  unfold touch. sparing. apply sparing_lift. unfold TouchSession. apply framed_update.
  intros n. apply framed_end.
Qed.

Lemma sparing_startNew live note kind prompt : sparing (startNew clock start live note kind prompt).
Proof. unfold startNew. sparing; auto using sparing_ctx_err, sparing_activate, sparing_touch. Qed.

Lemma sparing_degrade live cwd : sparing (degradeResumeFailed m clock rand fs live cwd).
Proof. unfold degradeResumeFailed. sparing; [apply sparing_mint|apply sparing_retire]. Qed.

Lemma sparing_Turn req : sparing (Turn m clock rand fs start resume req).
Proof.
  assert (Hon : ∀ live, sparing (turn_on m clock rand fs start resume live req)).
  { intros live. unfold turn_on, degradationNote, resumeTurn. sparing;
      auto using sparing_startNew, sparing_degrade, sparing_assertCwd, sparing_ctx_err, sparing_touch. }
  unfold Turn, rotationCause, Ensure, pin, rotate. sparing;
    first [apply sparing_mint|apply sparing_insert|apply sparing_retire|apply sparing_assertCwd
          |apply sparing_startNew|apply sparing_degrade|apply Hon].
Qed.

(** The manager's Turn behind the handler's interface: [says] is what the
    engine streamed. *)
Definition session_runner {SA : StoreAccess} (says : env → list string) : TurnRequest → EnvM (list string * result err unit) :=
  λ req e, let '(r, e') := Turn m clock rand fs start resume req e in (Ok (says e', r), e').

Lemma session_runner_ok says : runner_ok (session_runner says).
Proof.
  intros req e. pose proof (sparing_Turn req e) as Ht. unfold wpe, session_runner in *.
  destruct (Turn _ _ _ _ _ _ _ _) as [r e']. destruct Ht as [(E & L & D) T]. by split_and!.
Qed.
End session_runner.

(** ** Properties *)

(** Every exit of the handler is a durable state of its event, and a reply
    is never lost.  For an event the router marked processing, any relay that
    journals through its callback, and any failures of store, context, platform
    and engine: the handler returns (it never waits for a gate it still holds)
    with its gate released; an event not stamped owner never reaches the engine
    and is skipped with no reply; an unparseable payload never reaches it and is
    dead as malformed; otherwise the engine runs exactly once, with the
    payload's text and the floor of the stamp.  A failed turn leaves the event
    received again (within its budget, and never after a partial was posted),
    interrupted, dead, or untouched in processing; a silent one completed; and a
    turn that answered ends in one of three ways: completed or replied, the
    reply's chunks all in the outbox (or an earlier reply there) and their keys
    released; still processing with the reply in the outbox and its keys kept
    claimed against the pump; or parked (or still processing) with the keys
    released. *)
Theorem productionTurn_exits {R} `{turnRelayOk R} clock gated newRelay runner cwd ev x (s : hstate R) :
  runner_ok runner → hs_gate s = false →
  events (hs_db s) !! qe_ID ev = Some x → er_status x = Processing →
  let '(r, s') := productionTurn clock gated newRelay runner cwd ev s in
  r = Ok tt ∧ hs_gate s' = false ∧ turn_exit gated runner cwd ev x s s'.
Proof. apply productionTurn_spec. Qed.

Definition talking : TurnRequest → EnvM (list string * result err unit) :=
  λ _, mret (["Hello,"; "owner."]%string, Ok tt).

Lemma talking_ok : runner_ok talking.
Proof. by intros req e. Qed.

Definition fresh_dstate (key : string) : option dstate := Some (DState ∅ (NewRelay key) 0 []).

Definition talk_plat (n : nat) : option string := Some "m1"%string.

Definition talk_state : hstate dstate := HState running_env ∅ false None.

#[local] Instance talk_relay : turnRelay dstate :=
  discord_relay talk_plat (λ _, false) (λ _, 0).
#[local] Instance talk_relay_ok : turnRelayOk dstate :=
  discord_relay_ok talk_plat (λ _, false) (λ _, 0).

Definition talk : result err unit * hstate dstate :=
  productionTurn (λ _, 9) true (Some fresh_dstate) talking "/home" running_event talk_state.

(** The whole path on one event: the engine's two deltas are one reply row, the
    platform takes it, and the event is replied. *)
Lemma productionTurn_exits_witness :
  turn_exit true talking "/home" running_event
    (event_status_upd Processing 5 (received_row sample_event)) talk_state talk.2
  ∧ er_status <$> events (hs_db talk.2) !! 1 = Some Replied
  ∧ (λ r, (dr_delivery_key r, dr_payload r, dr_status r)) <$> deliveries (hs_db talk.2) !! 1
    = Some ("reply:discord:m1:0"%string,
            ("Hello," +:+ String "010" (String "010" "owner."))%string, Sent).
Proof.
  split; [|vm_compute; auto].
  pose proof (productionTurn_exits (λ _, 9) true (Some fresh_dstate) talking "/home" running_event
    (event_status_upd Processing 5 (received_row sample_event)) talk_state
    talking_ok eq_refl eq_refl eq_refl) as Hx.
  unfold talk. destruct (productionTurn _ _ _ _ _ _ _) as [r s']. apply Hx.
Defined.
