(* ===== verification/Healthy.v ===== *)
(** * Healthy runs (src/internal/store, src/internal/recovery, src/internal/session)

    What the parts answer while the store, the platform and the context are
    well: the store's calls succeed on the rows they are meant for, the recovery
    reaches a verdict, the attempt journal and the acks move the rows they name,
    and the session manager keeps the process well.  [Answer] composes these
    into the handler's behaviour. *)
From S2P Require Import Prelude Utf8 Trust Schema Events Event Deliveries ToolAttempts.
From S2P Require Import DeadLetters Surface StoreSpec StoreInv StoreOps Env Resend Sweep.
From S2P Require Import Recovery Router Restart Sessions SessionManager Relay TurnHandler.
Local Open Scope Z_scope.

(** ** Healthy runs above the store *)

(** The clock and the context may have been asked; nothing else moved. *)
Definition idle (e e' : env) : Prop :=
  healthy e' ∧ env_db e' = env_db e ∧ env_trace e' = env_trace e.

Lemma wpe_conj {A} (m : EnvM A) Q Q' e :
  wpe m Q e → wpe m Q' e → wpe m (λ r e', Q r e' ∧ Q' r e') e.
Proof. unfold wpe. by destruct (m e). Qed.

Lemma wpe_now_idle clock (Q : result err Z → env → Prop) e :
  healthy e → (∀ t e', idle e e' → Q (Ok t) e') → wpe (now clock) Q e.
Proof. intros (? & ? & ?) HQ. apply wpe_now, HQ. by split_and!. Qed.

Lemma wpe_ctx_idle (Q : result err bool → env → Prop) e :
  healthy e → (∀ e', idle e e' → Q (Ok false) e') → wpe ctx_err Q e.
Proof. intros (? & Hc & ?) HQ. unfold wpe, ctx_err. rewrite Hc. apply HQ. by split_and!. Qed.

(** A store call of a healthy process answers what its fault-free run does. *)
Lemma wpe_store {A} (m : StoreM A) (Q : result err A → env → Prop) e r d' :
  calm m → healthy e → run m (env_db e) = (r, d') →
  (∀ e', healthy e' → env_db e' = d' → env_trace e' = env_trace e → Q r e') →
  wpe (liftS m) Q e.
Proof.
  intros Hm (Hf & Hc & Hp) Hr HQ. destruct e as [[d fs] tk c p tr]. simpl in *. subst. unfold env_db in Hr. simpl in Hr.
  specialize (Hm d). unfold wpe, liftS, exclusive, store_call, run in *. simpl in *.
  destruct (m (World d [])) as [r0 [d0 fs0]]. simpl in *. simplify_eq. by apply HQ.
Qed.

(** The same with only a postcondition known. *)
Lemma wpe_store_post {A} (m : StoreM A) (P : result err A → db → Prop) (Q : result err A → env → Prop) e :
  calm m → healthy e → wpd m P (env_db e) →
  (∀ r e', healthy e' → P r (env_db e') → env_trace e' = env_trace e → Q r e') →
  wpe (liftS m) Q e.
Proof.
  intros Hm He HP HQ. apply wpd_run in HP. destruct (run m (env_db e)) as [r d'] eqn:Hr.
  eapply wpe_store; [done..|]. intros e' He' Hd Ht. apply HQ; [done| |done]. by rewrite Hd.
Qed.

(** ** Healthy runs of the store's calls *)

(** The event a handler was given: taken by the router, its row's thread. *)
Record taken (d : db) (ev : QueuedEvent) (x : event_row) : Prop := Taken {
  tk_id : 0 < qe_ID ev;
  tk_row : events d !! qe_ID ev = Some x;
  tk_status : er_status x = Processing;
  tk_thread : qe_ThreadKey ev ≠ ""%string;
  tk_own : er_thread_key x = qe_ThreadKey ev;
}.

Lemma processing_in x sts : er_status x = Processing → has_status (Processing :: sts) x = true.
Proof. intros Hx. apply has_status_true. rewrite Hx. by left. Qed.

(** The guarded write on the row of a running turn takes effect. *)
Lemma run_event_write id f why d x :
  events d !! id = Some x → er_status x = Processing →
  run (n ← exec (upd_event id (has_status [Processing]) f);
       if Z.eqb n 0 then refuse why else mret tt) d
  = (Ok tt, set_events (<[id := f x]> (events d)) d).
Proof.
  intros Hx Hs. unfold upd_event. run_simpl. by rewrite Hx, (processing_in x []).
Qed.

Lemma calm_event_write (f : db → Z * db) why :
  calm (n ← exec f; if Z.eqb n 0 then refuse why else mret tt).
Proof. apply calm_bind; [auto with calm|]. intros n. case_match; auto with calm. Qed.

Lemma calm_ParkEvent id t : calm (ParkEvent id t).
Proof. unfold ParkEvent. auto with calm. Qed.

Lemma run_ParkEvent id t d : ∃ d', run (ParkEvent id t) d = (Ok tt, d').
Proof.
  unfold ParkEvent. rewrite run_bind by auto with calm. rewrite run_exec.
  destruct (upd_event _ _ _ _). by eexists.
Qed.

Lemma calm_DeadLetterEvent id reason t : calm (DeadLetterEvent id reason t).
Proof.
  unfold DeadLetterEvent. case_match; [auto with calm|]. apply calm_in_tx, calm_bind; [auto with calm|].
  intros n. case_match; apply calm_bind; auto with calm. intros row. case_match; auto with calm.
Qed.

Lemma calm_InsertDelivery dv : calm (InsertDelivery dv).
Proof.
  unfold InsertDelivery. case_match; [|auto with calm]. apply calm_bind; [auto with calm|].
  intros [id|]; [auto with calm|]. apply calm_bind; [auto with calm|]. intros n. case_match; auto with calm.
Qed.

Lemma calm_insert_all ds ids : calm (insert_all ds ids).
Proof.
  revert ids. induction ds as [|dv ds IH]; intros ids; simpl; [auto with calm|].
  apply calm_bind; [apply calm_InsertDelivery|]. intros [id ins]. case_match; auto with calm.
Qed.

Lemma calm_InsertDeliveries ds : calm (InsertDeliveries ds).
Proof.
  unfold InsertDeliveries. apply calm_in_tx, calm_bind; [apply calm_insert_all|].
  intros [ids|]; auto with calm.
Qed.

Lemma calm_requeue id t : calm (RequeueEventForRetry id t).
Proof.
  unfold RequeueEventForRetry. apply calm_bind; [auto with calm|]. intros n. case_match; [|auto with calm].
  apply calm_bind; [auto with calm|]. intros row. repeat case_match; auto with calm.
Qed.

(** A row that can be composed: it says something, to someone, about an event
    the store has and has not sealed. *)
Definition composable (d : db) (dv : Delivery) : Prop :=
  delivery_validate dv = Ok tt ∧ 0 < dv_EventID dv
  ∧ ∃ x, events d !! dv_EventID dv = Some x ∧ er_status x ≠ Replied.

Lemma run_InsertDelivery dv d :
  composable d dv → ∃ id ins d', run (InsertDelivery dv) d = (Ok (id, ins), d') ∧ events d' = events d.
Proof.
  intros (Hv & Hid & x & Hx & Hs). unfold InsertDelivery. rewrite Hv.
  assert (Hn : nullif_zero (dv_EventID dv) = Some (dv_EventID dv)).
  { unfold nullif_zero. destruct (Z.eqb_spec (dv_EventID dv) 0); [lia|done]. }
  rewrite run_bind by auto with calm. rewrite run_stmt. unfold insert_delivery_row, event_sealed, insert_delivery_sql.
  rewrite Hn, Hx. unfold has_status. rewrite bool_decide_false by (rewrite list_elem_of_singleton; done).
  destruct (exists_row _ _) eqn:Hk; [|by eexists _, true, _].
  rewrite run_bind by auto with calm. rewrite run_query.
  assert (Hc : Z.eqb (count_rows (has_delivery_key (dv_DeliveryKey dv)) (deliveries d)) 0 = false).
  { unfold count_rows, exists_row in *. apply existsb_exists in Hk as (kv & Hin & Hp).
    assert (Hf : In kv (List.filter (λ kv, has_delivery_key (dv_DeliveryKey dv) kv.2) (map_to_list (deliveries d))))
      by (by apply filter_In).
    destruct (List.filter _ _); [done|]. apply Z.eqb_neq. simpl. lia. }
  rewrite Hc. by eexists _, false, _.
Qed.

Lemma run_insert_all ds ids d :
  Forall (composable d) ds → ∃ r d', run (insert_all ds ids) d = (Ok r, d').
Proof.
  revert ids d. induction ds as [|dv ds IH]; intros ids d Hds; [by eexists _, _|].
  apply Forall_cons in Hds as [Hdv Hds]. destruct (run_InsertDelivery dv d Hdv) as (id & ins & d1 & Hr & He).
  simpl. rewrite run_bind by apply calm_InsertDelivery. rewrite Hr. destruct ins; [|by eexists _, _].
  apply IH. eapply Forall_impl; [exact Hds|]. intros dv' (Hv & Hi & Hx). split_and!; [done..|]. by rewrite He.
Qed.

Lemma run_InsertDeliveries ds d :
  Forall (composable d) ds → ∃ ids composed d', run (InsertDeliveries ds) d = (Ok (ids, composed), d').
Proof.
  intros Hds. destruct (run_insert_all ds [] d Hds) as (r & d' & Hr). unfold InsertDeliveries.
  rewrite run_in_tx.
  - rewrite run_bind by apply calm_insert_all. rewrite Hr. destruct r; simpl; by eexists _, _, _.
  - apply calm_bind; [apply calm_insert_all|]. intros [?|]; auto with calm.
Qed.

Lemma chunk_nonempty text chunk : chunk ∈ ChunkMessage text → chunk ≠ ""%string.
Proof.
  intros Hin ->. unfold ChunkMessage, chunkRunes in Hin.
  destruct (empty text); [by apply elem_of_nil in Hin|].
  destruct (chunk_loop_spec (length (runes text)) messageCap (runes text)) as (_ & _ & H & _);
    [unfold messageCap; lia|done|apply runes_scalar|].
  rewrite Forall_forall in H. specialize (H _ Hin). simpl in H. lia.
Qed.

Lemma runes_nonempty s : s ≠ ""%string → runes s ≠ [].
Proof.
  intros Hs. destruct s as [|c s]; [done|]. unfold runes.
  assert (Hd : ∀ b bs, decode_rune (b :: bs) ≠ None) by (intros b bs; unfold decode_rune; by repeat case_match).
  change (bytes (String c s)) with (byte_of c :: bytes s). cbn [length decode_runes].
  specialize (Hd (byte_of c) (bytes s)). by destruct (decode_rune _) as [[]|].
Qed.

Lemma chunks_some text : text ≠ ""%string → ChunkMessage text ≠ [].
Proof.
  intros Hne. unfold ChunkMessage, chunkRunes, empty. rewrite bool_decide_false by done. intros H.
  destruct (chunk_loop_spec (length (runes text)) messageCap (runes text)) as (Hr & _);
    [unfold messageCap; lia|done|apply runes_scalar|].
  rewrite H in Hr. by apply (runes_nonempty text).
Qed.

Lemma reply_rows_composable ev text d x :
  taken d ev x → Forall (composable d) (reply_rows ev (ChunkMessage text)).
Proof.
  intros [Hid Hx Hs Ht _]. apply Forall_forall. intros dv Hin.
  apply list_elem_of_lookup in Hin as [i Hi]. unfold reply_rows in Hi. rewrite list_lookup_imap in Hi.
  destruct (ChunkMessage text !! i) as [c|] eqn:Hc; simplify_eq/=.
  split_and!; [|done|exists x; by rewrite Hs].
  unfold delivery_validate, empty. simpl. rewrite !bool_decide_false; try done.
  - destruct (Z.ltb_spec (qe_ID ev) 0); [lia|done].
  - apply (chunk_nonempty text). by eapply list_elem_of_lookup_2.
Qed.

(** ** The recovery of a failed turn *)

Section recovery.
Context (clock : nat → Z) (gated : bool).

(** A verdict was reached, and the process is as well as before. *)
Definition judged (r : result err Outcome) (e' : env) : Prop := is_ok r = true ∧ healthy e'.

Lemma park_judged ev e : healthy e → wpe (park clock gated true ev) judged e.
Proof.
  intros He. unfold park. wpe_step. apply wpe_now_idle; [done|]. intros t e1 (He1 & _). cbn beta iota.
  wpe_step. destruct (run_ParkEvent (qe_ID ev) t (env_db e1)) as [d' Hr].
  eapply wpe_store; [apply calm_ParkEvent|done|exact Hr|]. intros e2 He2 _ _. cbn beta iota.
  wpe_step. wpe_step. eapply (wpe_store_post _ (λ _ _, True));
    [apply calm_SurfaceInterrupted|done|by apply SurfaceInterrupted_wpd|].
  intros r e3 He3 _ _. cbn beta iota. destruct r; [|by wpe_step]. unfold kick. wpe_step. wpe_step. by wpe_step.
Qed.

Lemma deadLetter_judged ev e : healthy e → wpe (deadLetter clock gated true ev) judged e.
Proof.
  intros He. unfold deadLetter. wpe_step. apply wpe_now_idle; [done|]. intros t e1 (He1 & _). cbn beta iota.
  wpe_step. wpe_step. eapply (wpe_store_post _ (λ _ _, True));
    [apply calm_DeadLetterEvent|done|by apply DeadLetterEvent_wpd|].
  intros r e2 He2 _ _. cbn beta iota. destruct r as [u|y]; [|by apply park_judged].
  wpe_step. wpe_step. eapply (wpe_store_post _ (λ _ _, True));
    [apply calm_SurfaceDeadLetter|done|by apply SurfaceDeadLetter_wpd|].
  intros r e3 He3 _ _. cbn beta iota. destruct r; [|by wpe_step]. unfold kick. wpe_step. wpe_step. by wpe_step.
Qed.

(** The decision on a running turn answers a verdict, or one of its two refusals. *)
Lemma run_requeue id t d x :
  events d !! id = Some x → er_status x = Processing →
  ∃ r d', run (RequeueEventForRetry id t) d = (r, d')
    ∧ (r = Ok tt ∨ r = Err ERetryBudgetExhausted ∨ r = Err ESideEffectingAttempt).
Proof.
  intros Hx Hs. unfold RequeueEventForRetry, upd_event. run_simpl.
  rewrite Hx. destruct (_ && _ && _) eqn:Hg; simpl; [by eexists _, _; split; [|left]|].
  rewrite Hx. simpl. rewrite (processing_in x []) by done. simpl.
  destruct (Z.leb _ _); eexists _, _; split; eauto.
Qed.

Lemma HandleEngineFailure_judged ev x e :
  healthy e → events (env_db e) !! qe_ID ev = Some x → er_status x = Processing →
  wpe (HandleEngineFailure clock gated true ev) judged e.
Proof.
  intros He Hx Hs. unfold HandleEngineFailure, AttemptsForEvent. wpe_step.
  eapply wpe_store; [apply calm_query|done|apply run_query|]. intros e1 He1 Hd1 _. cbn beta iota.
  wpe_step; [by apply park_judged|]. wpe_step. apply wpe_now_idle; [done|]. intros t e2 (He2 & Hd2 & _). cbn beta iota.
  wpe_step. wpe_step. rewrite <-Hd1, <-Hd2 in Hx.
  destruct (run_requeue (qe_ID ev) t _ x Hx Hs) as (r & d' & Hr & Hcases).
  eapply wpe_store; [apply calm_requeue|done|exact Hr|]. intros e3 He3 _ _. cbn beta iota.
  destruct Hcases as [-> | [-> | ->]]; [|by apply deadLetter_judged|by apply park_judged].
  wpe_step. wpe_step. eapply wpe_store; [apply calm_query|done|apply run_query|]. intros e4 He4 _ _. cbn beta iota.
  wpe_step. wpe_step. by wpe_step.
Qed.
End recovery.

(** ** The send of a reply *)

(** The attempt journal stamps rows and changes nothing else of them. *)
Definition restamped (d d' : db) : Prop := ∀ k r, deliveries d !! k = Some r →
  ∃ r', deliveries d' !! k = Some r' ∧ dr_status r' = dr_status r ∧ dr_acked r' = dr_acked r
    ∧ dr_event_id r' = dr_event_id r.

Record journaled (e e' : env) : Prop := Journaled {
  jn_healthy : healthy e → healthy e';
  jn_advanced : advanced (env_db e) (env_db e');
  jn_restamped : restamped (env_db e) (env_db e');
  jn_trace : env_trace e' = env_trace e;
}.

#[global] Instance restamped_refl : Reflexive restamped.
Proof. intros d k r Hr. by exists r. Qed.
#[global] Instance restamped_trans : Transitive restamped.
Proof.
  intros d1 d2 d3 H1 H2 k r Hr. destruct (H1 k r Hr) as (r1 & Hr1 & S1 & A1 & E1).
  destruct (H2 k r1 Hr1) as (r2 & Hr2 & S2 & A2 & E2). exists r2. split_and!; congruence.
Qed.
#[global] Instance journaled_refl : Reflexive journaled.
Proof. intros e. by split. Qed.
#[global] Instance journaled_trans : Transitive journaled.
Proof. intros e1 e2 e3 [H1 A1 S1 T1] [H2 A2 S2 T2]. split; [auto|by etrans|by etrans|congruence]. Qed.

Lemma MarkDeliveryAttempt_stamps id t d :
  wpd (MarkDeliveryAttempt id t) (λ _ d', restamped d d') d.
Proof.
  apply MarkDeliveryAttempt_wpd; [done|]. intros r Hr _ k r0 Hk. simpl.
  destruct (decide (id = k)) as [<-|Hne]; [|rewrite lookup_insert_ne by done; by exists r0].
  rewrite lookup_insert_eq. eexists. split; [done|]. by simplify_eq.
Qed.

Lemma stamp_journaled clock ids i e : healthy e → journaled e (stamp_chunk clock ids i e).2.
Proof.
  intros He. assert (H : wpe (stamp_chunk clock ids i) (λ _ e', journaled e e') e).
  { unfold stamp_chunk. destruct (ids !! i) as [id|]; [|by wpe_step].
    wpe_step. apply wpe_now_idle; [done|]. intros t e1 (He1 & Hd1 & Ht1). cbn beta iota.
    eapply wpe_store_post; [apply calm_MarkDeliveryAttempt|done| |].
    - apply wpd_conj; [apply MarkDeliveryAttempt_advances|apply MarkDeliveryAttempt_stamps].
    - intros r e2 He2 [Ha Hs] Ht2. rewrite Hd1 in Ha, Hs. split; [done..|congruence]. }
  unfold wpe in H. by destruct (stamp_chunk clock ids i e).
Qed.

Lemma journal_journaled clock ids idx e :
  healthy e → journaled e (foldl (λ e i, (stamp_chunk clock ids i e).2) e idx).
Proof.
  revert e. induction idx as [|i idx IH]; intros e He; [done|]. simpl.
  assert (H1 := stamp_journaled clock ids i e He). etrans; [exact H1|]. apply IH. by apply H1.
Qed.

(** Row [id] is a chunk of event [i], still owed a send. *)
Definition unsent (i : Z) (d : db) (id : Z) : Prop :=
  ∃ r, deliveries d !! id = Some r ∧ owed r = true ∧ dr_event_id r = Some i.

Lemma unsent_restamped i d d' id : restamped d d' → unsent i d id → unsent i d' id.
Proof.
  intros H (r & Hr & Ho & Hi). destruct (H id r Hr) as (r' & Hr' & Hs & Ha & He). exists r'.
  split; [done|]. split; [|congruence]. apply owed_spec. rewrite Ha, Hs. by apply owed_spec.
Qed.

(** The event's turn is over. *)
Definition over (d : db) (i : Z) : Prop :=
  ∃ x, events d !! i = Some x ∧ er_status x ∉ [Received; Processing].

Lemma over_advanced d d' i : advanced d d' → over d i → over d' i.
Proof.
  intros Ha (x & Hx & Hs). destruct (ad_events _ _ Ha i) as [Hsame|(e & t & He & Hc & Hr)].
  - exists x. by rewrite Hsame.
  - eexists. split; [exact Hr|]. simpl. set_solver.
Qed.

Lemma run_AckDelivery_sends i id t d :
  unsent i d id → over d i →
  ∃ d', run (AckDelivery id t) d = (Ok tt, d') ∧ advanced d d'
  ∧ (∃ r, deliveries d' !! id = Some r ∧ dr_acked r ≠ None)
  ∧ ∀ k, k ≠ id → deliveries d' !! k = deliveries d !! k.
Proof.
  intros (r & Hr & Ho & Hi) (x & Hx & Hs).
  destruct (run_AckDelivery_settles id t d r Hr Ho) as (d' & Hrun & Hd & _).
  { intros j Hj. exists x. split; [congruence|done]. }
  exists d'. split; [done|]. split; [|split].
  - assert (Ha := wpd_run _ _ _ (AckDelivery_advances id t d)). by rewrite Hrun in Ha.
  - exists (sent_row t r). rewrite Hd, lookup_insert_eq. done.
  - intros k Hk. by rewrite Hd, lookup_insert_ne.
Qed.

(** ** The trace grows *)

Definition appends {A} (m : EnvM A) : Prop := ∀ e,
  wpe m (λ _ e', env_trace e `prefix_of` env_trace e') e.

Lemma appends_still {A} (m : EnvM A) : (∀ e, env_trace (m e).2 = env_trace e) → appends m.
Proof. intros Hm e. specialize (Hm e). unfold wpe. destruct (m e). simpl in Hm. by rewrite Hm. Qed.

Lemma appends_bind {A B} (m : EnvM A) (f : A → EnvM B) :
  appends m → (∀ a, appends (f a)) → appends (m ≫= f).
Proof.
  intros Hm Hf e. apply wpe_bind. eapply wpe_mono; [apply Hm|]. intros [a|x] e' H1; [|done].
  eapply wpe_mono; [apply Hf|]. intros r e'' H2. by etrans.
Qed.

Lemma appends_try {A} (m : EnvM A) : appends m → appends (try m).
Proof. intros Hm e. apply wpe_try, Hm. Qed.

Lemma appends_lift {A} (m : StoreM A) : appends (liftS m).
Proof. intros e. apply wpe_lift. intros fs. destruct (m _) as [r [d f]]. by intros fs'. Qed.

Lemma appends_emit x : appends (emit x).
Proof. intros e. apply wpe_emit. by eexists. Qed.

Ltac appends :=
  repeat (lazymatch goal with
  | |- appends (_ ≫= _) => apply appends_bind; [|intros ?]
  | |- appends (mbind _ _) => apply appends_bind; [|intros ?]
  | |- appends (try _) => apply appends_try
  | |- appends (liftS _) => apply appends_lift
  | |- appends (emit _) => apply appends_emit
  | |- appends (mret _) => by apply appends_still
  | |- appends (fail _) => by apply appends_still
  | |- appends (now _) => by apply appends_still
  | |- appends (if ?b then _ else _) => destruct b
  | |- appends (match ?x with _ => _ end) => destruct x
  end).

Lemma park_appends clock gated ev : appends (park clock gated true ev).
Proof. unfold park, kick. appends. Qed.

Lemma HandleEngineFailure_appends clock gated ev : appends (HandleEngineFailure clock gated true ev).
Proof. unfold HandleEngineFailure, AttemptsForEvent, deadLetter, kick. appends; apply park_appends. Qed.

(** The rows of event [i] are exactly [ids], and none is out. *)
Definition all_unsent (i : Z) (d : db) (ids : list Z) : Prop :=
  NoDup ids ∧ (∀ id, id ∈ ids → unsent i d id)
  ∧ ∀ k r, deliveries d !! k = Some r → dr_event_id r = Some i → k ∈ ids.

(** Once every row is acked, nothing of the event is outstanding. *)
Lemma none_unacked i d d' ids :
  all_unsent i d ids → advanced d d' →
  (∀ id, id ∈ ids → ∃ r, deliveries d' !! id = Some r ∧ dr_acked r ≠ None) →
  exists_row (bound_unacked i) (deliveries d') = false.
Proof.
  intros (_ & _ & Hall) Ha Hack. apply not_true_iff_false. intros (k & r & Hk & Hb)%exists_row_true.
  unfold bound_unacked, bound_to in Hb. apply andb_true_iff in Hb as [Hb%bool_decide_eq_true Hn%bool_decide_eq_true].
  assert (Hrel := ad_rows _ _ Ha k). rewrite Hk in Hrel.
  destruct (deliveries d !! k) as [r0|] eqn:Hr0; [|done]. destruct Hrel as (_ & He & _).
  destruct (Hack k) as (r1 & Hr1 & ?); [eapply Hall; [done|congruence]|]. by simplify_eq.
Qed.

(** ** The reply composed, and its event stamped *)

(** The status the completion stamp writes: an event whose earlier reply is
    already out goes straight to replied. *)
Definition stamp_of (composed : bool) (i : Z) (d : db) : ev_status :=
  if composed then Completed else if all_bound_acked i d then Replied else Completed.

Definition complete (composed : bool) (i t : Z) (x : event_row) (d : db) : db :=
  set_events (<[i := event_status_upd (stamp_of composed i d) t x]> (events d)) d.

Lemma run_complete (composed : bool) i t d x :
  events d !! i = Some x → er_status x = Processing →
  run (if composed then MarkEventCompleted i t else MarkEventCompletedReconciled i t) d
  = (Ok tt, complete composed i t x d).
Proof.
  intros Hx Hs. destruct composed; [by apply run_event_write|].
  unfold MarkEventCompletedReconciled, upd_event. run_simpl. by rewrite Hx, (processing_in x []).
Qed.

Lemma calm_complete (composed : bool) i t :
  calm (if composed then MarkEventCompleted i t else MarkEventCompletedReconciled i t).
Proof. destruct composed; apply calm_event_write. Qed.

Lemma over_complete composed i t x d : over (complete composed i t x d) i.
Proof.
  eexists. unfold complete. simpl. rewrite lookup_insert_eq. split; [done|]. simpl.
  unfold stamp_of. repeat case_match; set_solver.
Qed.

Definition composed_or_taken (ev : QueuedEvent) (text : string) (ids : list Z) (composed : bool) (d d1 : db) : Prop :=
  if composed then composed_rows (reply_rows ev (ChunkMessage text)) ids d d1
  else d1 = d ∧ reply_taken ev text d.

Lemma composed_bound ev text ids d d' :
  0 < qe_ID ev → composed_rows (reply_rows ev (ChunkMessage text)) ids d d' →
  ∀ id, id ∈ ids → ∃ key payload,
    deliveries d' !! id = Some (pending_row key (Some (qe_ID ev)) (qe_ThreadKey ev) payload).
Proof.
  intros Hid (Hf & _) id Hin. apply list_elem_of_lookup in Hin as [i Hi].
  destruct (Forall2_lookup_r _ _ _ _ _ Hf Hi) as (dv & Hdv & Hrow).
  unfold reply_rows in Hdv. rewrite list_lookup_imap in Hdv.
  destruct (ChunkMessage text !! i); simplify_eq/=. eexists _, _. rewrite Hrow.
  unfold nullif_zero. destruct (Z.eqb_spec (qe_ID ev) 0); [lia|done].
Qed.

Lemma composed_all_unsent ev text ids d d' :
  0 < qe_ID ev → composed_rows (reply_rows ev (ChunkMessage text)) ids d d' →
  (∀ k r, deliveries d !! k = Some r → dr_event_id r ≠ Some (qe_ID ev)) →
  all_unsent (qe_ID ev) d' ids.
Proof.
  intros Hid Hc Hno. pose proof (composed_bound _ _ _ _ _ Hid Hc) as Hb.
  destruct Hc as (_ & Hsort & _ & _ & Hnew & _). split_and!.
  - clear -Hsort. induction Hsort as [|k ks _ IH Hk]; constructor; [|done].
    intros Hin. rewrite Forall_forall in Hk. specialize (Hk k Hin). lia.
  - intros id Hin. destruct (Hb id Hin) as (key & payload & Hrow). eexists. split; [exact Hrow|]. done.
  - intros k r Hk Hi. destruct (Hnew k r Hk) as [Hold|]; [|done]. by destruct (Hno k r Hold).
Qed.

(** ** The session manager in a healthy process *)

(** A call that breaks nothing and only adds to the trace. *)
Definition well {A} (m : EnvM A) : Prop := ∀ e, healthy e →
  wpe m (λ _ e', healthy e' ∧ env_trace e `prefix_of` env_trace e') e.

Lemma well_bind {A B} (m : EnvM A) (f : A → EnvM B) :
  well m → (∀ a, well (f a)) → well (m ≫= f).
Proof.
  intros Hm Hf e He. apply wpe_bind. eapply wpe_mono; [by apply Hm|].
  intros [a|x] e' [H1 T1]; [|done]. eapply wpe_mono; [by apply Hf|]. intros r e'' [H2 T2]. split; [done|by etrans].
Qed.

Lemma well_try {A} (m : EnvM A) : well m → well (try m).
Proof. intros Hm e He. apply wpe_try. by apply Hm. Qed.

Lemma well_lift {A} (m : StoreM A) : calm m → well (liftS m).
Proof.
  intros Hm e He. destruct (run m (env_db e)) as [r d'] eqn:Hr.
  eapply wpe_store; [done..|]. intros e' He' _ Ht. by rewrite Ht.
Qed.

Lemma well_emit x : well (emit x).
Proof. intros e He. apply wpe_emit. split; [done|by eexists]. Qed.

(** A call that reads the process's surroundings, or nothing. *)
Lemma well_reads {A} (m : EnvM A) :
  (∀ e, healthy e → healthy (m e).2 ∧ env_trace (m e).2 = env_trace e) → well m.
Proof.
  intros Hm e He. unfold wpe. specialize (Hm e He). destruct (m e) as [r e']. simpl in Hm.
  destruct Hm as [H1 H2]. by rewrite H2.
Qed.

Lemma calm_InsertSession fs s : calm (InsertSession fs s).
Proof. unfold InsertSession. repeat case_match; auto with calm. Qed.

Lemma calm_retireSession fs old s from retired ge : calm (retireSession fs old s from retired ge).
Proof.
  unfold retireSession. apply calm_in_tx, calm_bind; [auto with calm|]. intros n. case_match; [auto with calm|].
  apply calm_bind; [apply calm_InsertSession|auto with calm].
Qed.

Ltac well :=
  repeat (lazymatch goal with
  | |- well (_ ≫= _) => apply well_bind; [|intros ?]
  | |- well (mbind _ _) => apply well_bind; [|intros ?]
  | |- well (try _) => apply well_try
  | |- well (emit _) => apply well_emit
  | |- well (liftS (ResolveLiveSession _)) => apply well_lift, calm_query
  | |- well (liftS (SessionDegraded _)) => apply well_lift, calm_query
  | |- well (liftS (InsertSession _ _)) => apply well_lift, calm_InsertSession
  | |- well (liftS (retireSession _ _ _ _ _ _)) => apply well_lift, calm_retireSession
  | |- well (if ?b then _ else _) => destruct b
  | |- well (let '(_, _) := ?x in _) => destruct x
  | |- well (match ?x with _ => _ end) => destruct x
  | |- well (mret _) => by apply well_reads
  | |- well (fail _) => by apply well_reads
  | |- well (now _) => by apply well_reads
  | |- well (the_fs _) => by apply well_reads
  end).

Section session.
Context (m : Manager) (clock : nat → Z) (rand : nat → option (list Z)) (fs : nat → filesystem).
Context (start resume : Spec → EnvM unit).
Context (Hstart : ∀ s, well (start s)) (Hresume : ∀ s, well (resume s)).

Lemma well_mint tk floor cwd origin : well (mint m clock rand tk floor cwd origin).
Proof.
  apply well_reads. intros e He. unfold mint, newSessionID, mbind, EnvM_bind, M_bind. by destruct (rand _).
Qed.

Lemma well_ctx_err : well ctx_err.
Proof. apply well_reads. intros e (H1 & H2 & H3). unfold ctx_err. rewrite H2. by split_and!. Qed.

Lemma well_assertCwd cwd : well (assertCwd fs cwd).
Proof.
  apply well_reads. intros e He. unfold assertCwd, the_fs, mbind, EnvM_bind, M_bind.
  by destruct (fs_stat_is_dir (fs (env_ticks e)) cwd) as [[]|].
Qed.

Lemma well_update id g f (k : Z → StoreM unit) :
  (∀ n, calm (k n)) → well (liftS (n ← exec (upd_session id g f); k n)).
Proof. intros Hk. apply well_lift, calm_bind; auto with calm. Qed.

Lemma well_touch sid : well (touch clock sid).
Proof.
  unfold touch. well. unfold TouchSession. apply well_update. intros n. case_match; auto with calm.
Qed.

Lemma well_activate sid : well (liftS (ActivateSession sid)).
Proof.
  unfold ActivateSession, transitionCreating. apply well_update. intros n. case_match; auto with calm.
Qed.

Lemma well_startNew live note kind prompt : well (startNew clock start live note kind prompt).
Proof. unfold startNew. well; auto using well_ctx_err, well_activate, well_touch. Qed.

Lemma well_degrade live cwd : well (degradeResumeFailed m clock rand fs live cwd).
Proof. unfold degradeResumeFailed. well; [apply well_mint|apply well_lift, calm_retireSession]. Qed.

Lemma well_Turn req : well (Turn m clock rand fs start resume req).
Proof.
  assert (Hon : ∀ live, well (turn_on m clock rand fs start resume live req)).
  { intros live. unfold turn_on, degradationNote, resumeTurn. well;
      auto using well_startNew, well_degrade, well_assertCwd, well_ctx_err, well_touch. }
  unfold Turn, rotationCause, Ensure, pin, rotate. well;
    first [apply well_mint|apply well_lift, calm_retireSession|apply well_assertCwd
          |apply well_startNew|apply well_degrade|apply Hon].
Qed.

Lemma session_runner_well says req : well (session_runner m clock rand fs start resume says req).
Proof.
  intros e He. pose proof (well_Turn req e He) as Ht. unfold wpe, session_runner in *.
  by destruct (Turn _ _ _ _ _ _ _ _) as [r e'].
Qed.
End session.
