(* ===== verification/Answer.v ===== *)
(** * A turn in a healthy process, and the pump behind it

    What the parts promise together when nothing fails: the handler settles
    the event it was given (src/internal/cli/turn.go), whatever its relay did
    with the reply, and one pump pass later the reply is out
    (src/internal/delivery/resend.go).  The definitions are those of the parts;
    the engine and the relay stay arbitrary. *)
From S2P Require Import Prelude Utf8 Trust Schema Events Event Deliveries ToolAttempts.
From S2P Require Import DeadLetters Surface StoreSpec StoreInv StoreOps Env Resend Sweep.
From S2P Require Import Recovery Router Restart SessionManager Relay TurnHandler Healthy.
Local Open Scope Z_scope.

(** ** The handler *)

Section handler.
Context {R : Type} `{turnRelayOk R}.
Context (clock : nat → Z) (gated : bool).

Definition with_env (s : hstate R) (e : env) : hstate R :=
  HState e (hs_keys s) (hs_gate s) (hs_relay s).

Lemma wph_now_idle (Q : result err Z → hstate R → Prop) s :
  healthy (hs_env s) → (∀ t e', idle (hs_env s) e' → Q (Ok t) (with_env s e')) →
  wpm (liftE (now clock)) Q s.
Proof. intros He HQ. apply wph_liftE, wpe_now_idle; [done|]. intros t e' Hi. by apply HQ. Qed.

Lemma wph_store {A} (m : StoreM A) (Q : result err A → hstate R → Prop) s r d' :
  calm m → healthy (hs_env s) → run m (hs_db s) = (r, d') →
  (∀ e', healthy e' → env_db e' = d' → env_trace e' = env_trace (hs_env s) → Q r (with_env s e')) →
  wpm (liftE (liftS m)) Q s.
Proof. intros Hm He Hr HQ. eapply wph_liftE, wpe_store; [done..|]. intros. by apply HQ. Qed.

(** Chunk by chunk, as many rows as there are acks. *)
Lemma ack_loop_rest i acks ids s :
  healthy (hs_env s) → NoDup ids → (∀ id, id ∈ ids → unsent i (hs_db s) id) → over (hs_db s) i →
  wpm (ack_loop clock acks ids)
    (λ r s', r = Ok tt ∧ s' = with_env s (hs_env s') ∧ healthy (hs_env s')
       ∧ env_trace (hs_env s') = env_trace (hs_env s) ∧ advanced (hs_db s) (hs_db s')
       ∧ (∀ k, k ∉ ids → deliveries (hs_db s') !! k = deliveries (hs_db s) !! k)
       ∧ ((length ids ≤ length acks)%nat →
            ∀ id, id ∈ ids → ∃ r, deliveries (hs_db s') !! id = Some r ∧ dr_acked r ≠ None)) s.
Proof.
  revert ids s. induction acks as [|a acks IH]; intros ids s He Hnd Hids Hover.
  { destruct s. split_and!; try done. intros Hl id Hin. destruct ids; [by apply elem_of_nil in Hin|simpl in Hl; lia]. }
  destruct ids as [|id ids]; [destruct s; split_and!; try done; by intros _ k ?%elem_of_nil|].
  cbn [ack_loop]. apply wpm_bind, wph_now_idle; [done|]. intros t e1 (He1 & Hd1 & Ht1). cbn beta iota.
  apply NoDup_cons in Hnd as [Hid Hnd].
  destruct (run_AckDelivery_sends i id t (hs_db s)) as (d2 & Hr & Ha & Hack & Hrest);
    [apply Hids; by left|done|].
  apply wpm_bind, wpm_try. eapply wph_store; [apply calm_AckDelivery|exact He1|unfold hs_db; cbn; rewrite Hd1; exact Hr|].
  intros e2 He2 Hd2 Ht2. cbn beta iota.
  eapply wpm_mono; [apply IH; [done|done| |]|].
  - intros k Hk. unfold hs_db. cbn. rewrite Hd2. destruct (Hids k ltac:(by right)) as (r & Hr' & ?).
    exists r. rewrite Hrest by (by intros ->). done.
  - unfold hs_db. cbn. rewrite Hd2. by eapply over_advanced.
  - unfold hs_db. cbn. intros r s' (-> & -> & H2 & T2 & A2 & K2 & L2). cbn in *. rewrite Hd2 in A2, K2.
    split_and!; [done|done|done|congruence|by etrans| |].
    + intros k Hk. rewrite K2, Hrest by set_solver. done.
    + intros Hl k [->|Hk]%elem_of_cons; [rewrite K2 by done; exact Hack|]. apply L2; [simpl in Hl; lia|done].
Qed.

(** The pump was woken, or nothing is left for it. *)
Definition woken (i : Z) (s s' : hstate R) : Prop :=
  env_trace (hs_env s') = env_trace (hs_env s) ++ [FxKick]
  ∨ env_trace (hs_env s') = env_trace (hs_env s)
    ∧ exists_row (bound_unacked i) (deliveries (hs_db s')) = false.

Record sent_rest (i : Z) (s s' : hstate R) : Prop := SentRest {
  sr_healthy : healthy (hs_env s');
  sr_advanced : advanced (hs_db s) (hs_db s');
  sr_woken : woken i s s';
}.

Lemma kick_rest i s s1 :
  healthy (hs_env s1) → advanced (hs_db s) (hs_db s1) →
  env_trace (hs_env s1) = env_trace (hs_env s) →
  wpm (liftE (emit FxKick)) (λ r s', r = Ok tt ∧ hs_keys s' = hs_keys s1 ∧ sent_rest i s s') s1.
Proof.
  intros He Ha Ht. apply wph_liftE, wpe_emit. split_and!; [done..|]. split; try done.
  left. cbn. by rewrite Ht.
Qed.

Lemma send_reply_rest i keys ids direct s :
  healthy (hs_env s) → over (hs_db s) i →
  (direct = true → is_Some (hs_relay s) ∧ all_unsent i (hs_db s) ids) →
  wpm (send_reply clock gated keys ids direct)
    (λ r s', r = Ok tt ∧ hs_keys s' = released gated keys (hs_keys s) ∧ sent_rest i s s') s.
Proof.
  intros He Hover Hd. unfold send_reply. destruct direct; cbn [negb].
  2: { apply wpm_bind. unfold wpm at 1, on_relay. apply wpm_bind. unfold wpm at 1, unclaim, put_keys.
       eapply wpm_mono; [by apply (kick_rest i s)|done]. }
  destruct (Hd eq_refl) as [[rl Hrl] Hall]. apply wpm_bind. unfold wpm at 1, finish_relay. rewrite Hrl.
  pose proof (relay_finish_journal env (stamp_chunk clock ids) rl (hs_env s)) as [idx Hidx].
  destruct (relay_FinishJournaled _ _ _) as [[acks e] [r' e']]. cbn in Hidx.
  destruct (journal_journaled clock ids idx (hs_env s) He) as [J1 J2 J3 J4]. rewrite <-Hidx in J1, J2, J3, J4.
  specialize (J1 He). destruct Hall as (Hnd & Hun & Hrows). apply wpm_bind.
  eapply wpm_mono; [apply (ack_loop_rest i); [exact J1|done| |by eapply over_advanced]|].
  { intros id Hin. eapply unsent_restamped; [exact J3|by apply Hun]. }
  intros r s2 (-> & -> & H2 & T2 & A2 & _ & L2). cbn in T2. cbn beta iota.
  assert (Ha : advanced (hs_db s) (hs_db (with_env (HState e' (hs_keys s) (hs_gate s) (Some r')) (hs_env s2))))
    by (etrans; [exact J2|exact A2]).
  assert (Ht : env_trace (hs_env s2) = env_trace (hs_env s)) by congruence.
  destruct (bool_decide (e ≠ None) || _) eqn:Hb; cbn beta iota.
  - apply wpm_bind. destruct (bool_decide (acks = [])); apply wpm_bind; unfold wpm at 1, unclaim, put_keys;
      (eapply wpm_mono; [by apply (kick_rest i s)|done]).
  - unfold wpm, unclaim, put_keys. cbn. split_and!; [done..|]. split; try done. right. split; [done|].
    apply orb_false_iff in Hb as [_ Hl%Nat.ltb_ge]. apply (none_unacked i (hs_db s) _ ids); [done|exact Ha|by apply L2].
Qed.

(** ** The reply composed and the event completed *)

(** From the stamp to the end of the send. *)
Definition closed (i : Z) (composed : bool) (x : event_row) (s s' : hstate R) : Prop :=
  ∃ t s2, hs_db s2 = complete composed i t x (hs_db s)
    ∧ env_trace (hs_env s2) = env_trace (hs_env s) ∧ sent_rest i s2 s'.

Lemma stamp_and_send_rest ev x keys ids direct (composed : bool) s :
  healthy (hs_env s) → events (hs_db s) !! qe_ID ev = Some x → er_status x = Processing →
  (direct = true → is_Some (hs_relay s) ∧ all_unsent (qe_ID ev) (hs_db s) ids) →
  wpm (t ← liftE (now clock);
       done ← try (liftE (liftS (if composed then MarkEventCompleted (qe_ID ev) t
                                 else MarkEventCompletedReconciled (qe_ID ev) t)));
       match done with
       | Err _ => on_relay relay_Retract
       | Ok _ => send_reply clock gated keys ids direct
       end)
    (λ r s', r = Ok tt ∧ hs_keys s' = released gated keys (hs_keys s) ∧ closed (qe_ID ev) composed x s s') s.
Proof.
  intros He Hx Hs Hd. apply wpm_bind, wph_now_idle; [done|]. intros t e1 (He1 & Hd1 & Ht1). cbn beta iota.
  apply wpm_bind, wpm_try. change (env_db (hs_env s)) with (hs_db s) in Hd1.
  eapply wph_store; [apply calm_complete|exact He1|unfold hs_db; cbn; rewrite Hd1; by apply run_complete|].
  intros e2 He2 Hd2 Ht2. cbn beta iota. cbn in Ht2.
  eapply wpm_mono; [apply (send_reply_rest (qe_ID ev)); [exact He2| |]|].
  - unfold hs_db. cbn. rewrite Hd2. apply over_complete.
  - intros Hdir. destruct (Hd Hdir) as [Hr Ha]. split; [exact Hr|]. unfold hs_db. cbn. by rewrite Hd2.
  - intros r s' (-> & K & Hr). split_and!; [done|done|]. exists t, (with_env (with_env s e1) e2).
    split_and!; [exact Hd2|cbn; congruence|done].
Qed.

Lemma complete_reply_rest ev x keys ids composed s :
  healthy (hs_env s) → events (hs_db s) !! qe_ID ev = Some x → er_status x = Processing →
  (is_Some (hs_relay s) → composed = true → all_unsent (qe_ID ev) (hs_db s) ids) →
  wpm (complete_reply clock gated ev keys ids composed)
    (λ r s', r = Ok tt ∧ hs_keys s' = released gated keys (hs_keys s) ∧ closed (qe_ID ev) composed x s s') s.
Proof.
  intros He Hx Hs Hall. unfold complete_reply. apply wpm_bind. unfold wpm at 1, get_turn_relay. apply wpm_bind.
  destruct (bool_decide (is_Some (hs_relay s)) && composed) eqn:Hb.
  2: { apply wpm_ret. by apply stamp_and_send_rest. }
  apply andb_true_iff in Hb as [Hr%bool_decide_eq_true Hc].
  apply wpm_bind, wpm_try. eapply wph_store; [apply calm_query|done|apply run_query|].
  intros e1 He1 Hd1 Ht1. cbn beta iota. apply wpm_ret.
  change (env_db e1) with (hs_db (with_env s e1)) in Hd1.
  eapply wpm_mono; [apply (stamp_and_send_rest ev x); [exact He1|by rewrite Hd1|done|]|].
  - intros _. split; [done|]. rewrite Hd1. by apply Hall.
  - intros r s' (-> & K & t & s2 & D2 & T2 & H2). split_and!; [done|done|]. exists t, s2.
    rewrite Hd1 in D2. split_and!; [done|cbn in T2; congruence|done].
Qed.

(** A relay is given only to an event without rows. *)
Definition fresh (ev : QueuedEvent) (s : hstate R) : Prop :=
  is_Some (hs_relay s) → ∀ k r, deliveries (hs_db s) !! k = Some r → dr_event_id r ≠ Some (qe_ID ev).

(** How a turn that answered ends. *)
Definition finished (ev : QueuedEvent) (x : event_row) (text : string) (s s' : hstate R) : Prop :=
  ∃ ids composed s1, composed_or_taken ev text ids composed (hs_db s) (hs_db s1)
    ∧ env_trace (hs_env s1) = env_trace (hs_env s) ∧ closed (qe_ID ev) composed x s1 s'.

Lemma finishTurn_rest ev x text s :
  text ≠ ""%string → healthy (hs_env s) → taken (hs_db s) ev x → fresh ev s →
  wpm (finishTurn clock gated ev text) (λ r s', r = Ok tt ∧ finished ev x text s s') s.
Proof.
  intros Hne He Ht Hf. unfold finishTurn, empty. rewrite bool_decide_false by done. cbv zeta.
  set (keys := map dv_DeliveryKey _). apply wpm_bind. unfold wpm at 1, claim, put_keys.
  destruct (run_InsertDeliveries (reply_rows ev (ChunkMessage text)) (hs_db s)
    (reply_rows_composable ev text _ x Ht)) as (ids & composed & d1 & Hr).
  assert (Hp := wpd_run _ _ _ (InsertDeliveries_wpd (reply_rows ev (ChunkMessage text)) (hs_db s))).
  rewrite Hr in Hp. apply wpm_bind, wpm_try.
  eapply wph_store; [apply calm_InsertDeliveries|exact He|exact Hr|]. intros e1 He1 Hd1 Ht1. cbn beta iota.
  assert (Hc : composed_or_taken ev text ids composed (hs_db s) d1).
  { destruct composed; [exact Hp|]. destruct Hp as (_ & -> & Hk). split; [done|]. by apply key_taken_reply. }
  assert (Hev : events d1 = events (hs_db s)).
  { destruct composed; [|by destruct Hp as (_ & -> & _)]. destruct Hp as (_ & _ & _ & _ & _ & ->). done. }
  set (s1 := with_env _ e1).
  eapply wpm_mono; [apply (complete_reply_rest ev x keys ids composed s1); [exact He1| |apply Ht|]|].
  - unfold hs_db. cbn. rewrite Hd1, Hev. apply Ht.
  - intros Hrel ->. unfold hs_db. cbn. rewrite Hd1.
    eapply composed_all_unsent; [apply Ht|exact Hp|by apply Hf].
  - intros r s' (-> & _ & Hcl). split; [done|]. exists ids, composed, s1.
    split_and!; [unfold hs_db at 2; cbn; by rewrite Hd1|exact Ht1|done].
Qed.

(** ** How a turn leaves its event *)

(** The event is out of the turn; one that waits for another try has a
    readmission scheduled, and reply rows this turn composed and did not get out
    have woken the pump. *)
Record at_rest (ev : QueuedEvent) (s s' : hstate R) (x' : event_row) (l : list effect) : Prop := Settled {
  st_healthy : healthy (hs_env s');
  st_event : events (hs_db s') !! qe_ID ev = Some x';
  st_done : er_status x' ≠ Processing;
  st_trace : env_trace (hs_env s') = env_trace (hs_env s) ++ l;
  st_again : er_status x' = Received → ∃ delay, FxReadmitAfter delay (requeued ev) ∈ l;
  st_kick : er_status x' = Completed → ∀ k r, deliveries (hs_db s') !! k = Some r →
    bound_unacked (qe_ID ev) r = true → deliveries (hs_db s) !! k = None → FxKick ∈ l;
}.

Lemma closed_event i composed x (s s' : hstate R) :
  closed i composed x s s' →
  ∃ x', events (hs_db s') !! i = Some x' ∧ (er_status x' = Completed ∨ er_status x' = Replied).
Proof.
  intros (t & s2 & D2 & _ & [_ Ha _]). rewrite D2 in Ha.
  destruct (ad_events _ _ Ha i) as [Hs|(e & t' & _ & _ & Hr)].
  - eexists. rewrite Hs. unfold complete. simpl. rewrite lookup_insert_eq. split; [done|]. simpl.
    unfold stamp_of. repeat case_match; auto.
  - eexists. split; [exact Hr|]. by right.
Qed.

Lemma finished_settled ev x text s s' :
  finished ev x text s s' → ∃ x' l, at_rest ev s s' x' l ∧ (er_status x' = Completed ∨ er_status x' = Replied).
Proof.
  intros (ids & composed & s1 & _ & T1 & Hcl). destruct (closed_event _ _ _ _ _ Hcl) as (x' & Hx' & Hst).
  destruct Hcl as (t & s2 & _ & T2 & [He _ Hw]). exists x'.
  destruct Hw as [Hw|[Hw Hn]]; [exists [FxKick]|exists []]; (split; [|done]); split; try done.
  - by destruct Hst as [-> | ->].
  - congruence.
  - by destruct Hst as [-> | ->].
  - intros _ k r _ _ _. by left.
  - by destruct Hst as [-> | ->].
  - rewrite app_nil_r. congruence.
  - by destruct Hst as [-> | ->].
  - intros _ k r Hk Hb _. exfalso. apply not_true_iff_false in Hn. apply Hn, exists_row_true. eauto.
Qed.

Lemma silent_rest ev x s :
  healthy (hs_env s) → taken (hs_db s) ev x →
  wpm (finishTurn clock gated ev "")
    (λ r s', r = Ok tt ∧ ∃ x' l, at_rest ev s s' x' l ∧ er_status x' = Completed) s.
Proof.
  intros He Ht. unfold finishTurn. cbn. apply wpm_bind. unfold wpm at 1, on_relay.
  apply wpm_bind, wph_now_idle; [done|]. intros t e1 (He1 & Hd1 & Ht1). cbn beta iota.
  apply wpm_bind, wpm_try. eapply wph_store; [apply calm_event_write|exact He1|unfold hs_db; cbn; rewrite Hd1|].
  { apply run_event_write; apply Ht. }
  intros e2 He2 Hd2 Ht2. apply wpm_ret. split; [done|]. eexists _, []. split; [split|]; try done.
  - unfold hs_db. cbn. rewrite Hd2. apply lookup_insert_eq.
  - discriminate.
  - rewrite app_nil_r. etrans; [exact Ht2|exact Ht1].
  - discriminate.
  - intros _ k r Hk _ Hno. unfold hs_db in Hk. cbn in Hk. rewrite Hd2 in Hk. simpl in Hk.
    change (env_db (hs_env s)) with (hs_db s) in Hk. congruence.
  - reflexivity.
Qed.

(** A failed turn in a live process: a verdict on the event was written. *)
Lemma recover_rest ev x s (m : EnvM Outcome) (s0 : hstate R) l0 :
  hs_gate s = false → env_trace (hs_env s) = env_trace (hs_env s0) ++ l0 →
  wpe m (λ r e', judged r e' ∧ landed ev x (hs_env s) r e') (hs_env s) → appends m →
  wpm (recover m) (λ r s', r = Ok tt ∧ hs_relay s' = hs_relay s ∧ ∃ x' l, at_rest ev s0 s' x' l
    ∧ (er_status x' = Received ∨ er_status x' = Interrupted ∨ er_status x' = Dead)) s.
Proof.
  intros Hg Ht Hm Ha. specialize (Ha (hs_env s)). unfold wpe, wpm, recover in *. rewrite Hg.
  destruct (m (hs_env s)) as [r e']. destruct Hm as [[Hok He] Hl]. destruct Ha as [l Hl']. split; [done|]. split; [done|].
  assert (Hend : ∀ x', events (env_db e') !! qe_ID ev = Some x' →
    er_status x' = Interrupted ∨ er_status x' = Dead
    ∨ er_status x' = Received ∧ (∃ delay, FxReadmitAfter delay (requeued ev) ∈ l) →
    ∃ x' l, at_rest ev s0 (HState e' (hs_keys s) false (hs_relay s)) x' l
      ∧ (er_status x' = Received ∨ er_status x' = Interrupted ∨ er_status x' = Dead)).
  { intros x' Hx' Hs. exists x', (l0 ++ l). split; [|naive_solver].
    split; [done|done| | |intros Hr|intros Hc].
    - destruct Hs as [-> | [-> | [-> _]]]; discriminate.
    - cbn. by rewrite Hl', Ht, (assoc_L app).
    - destruct Hs as [Hs|[Hs|[_ [delay Hd]]]]; [congruence..|]. exists delay. set_solver.
    - destruct Hs as [Hs|[Hs|[Hs _]]]; congruence. }
  destruct r as [[| |]|y]; [| | |done]; simpl in Hl.
  - destruct Hl as (x' & delay & Hx' & Hs & _ & _ & _ & Htr & _). apply (Hend x'); [done|]. right. right.
    split; [done|]. exists delay. rewrite Htr in Hl'. apply app_inv_head in Hl'. rewrite <-Hl'. by left.
  - destruct Hl as (x' & Hx' & Hs & _). by apply (Hend x'); [|left].
  - destruct Hl as (_ & x' & r & Hx' & Hs & _). by apply (Hend x'); [|right; left].
Qed.

Lemma failedTurn_rest ev x s s0 l0 :
  healthy (hs_env s) → taken (hs_db s) ev x → env_trace (hs_env s) = env_trace (hs_env s0) ++ l0 →
  wpm (failedTurn clock gated ev)
    (λ r s', r = Ok tt ∧ ∃ x' l, at_rest ev s0 s' x' l
      ∧ (er_status x' = Received ∨ er_status x' = Interrupted ∨ er_status x' = Dead)) s.
Proof.
  intros He [_ Hx Hs _ _] Ht. unfold failedTurn. apply wpm_bind. unfold wpm at 1, on_relay.
  apply wpm_bind. unfold wpm at 1, set_gate. apply wpm_bind, wph_liftE, wpe_ctx_idle; [exact He|].
  intros e1 (He1 & Hd1 & Ht1). cbn beta iota. apply wpm_bind. unfold wpm at 1, get_turn_relay.
  cbn in Hd1, Ht1. cbn [hs_relay]. rewrite <-Ht1 in Ht. unfold hs_db in Hx. rewrite <-Hd1 in Hx.
  assert (Hpark : wpe (park clock gated true ev) (λ r e', judged r e' ∧ landed ev x e1 r e') e1).
  { apply wpe_conj; [by apply park_judged|]. eapply park_wpe; [exact Hx|by right|done|].
    intros e' x' Hx' Hi Hp _. simpl. eauto. }
  destruct (match _ with Some r => relay_Posted r | None => false end).
  - eapply wpm_mono; [eapply (recover_rest ev x); [done|exact Ht|exact Hpark|apply park_appends]|].
    intros r s' (-> & _ & H1). by split.
  - eapply wpm_mono; [eapply (recover_rest ev x); [done|exact Ht| |apply HandleEngineFailure_appends]|].
    + apply wpe_conj; [by eapply HandleEngineFailure_judged|by apply HandleEngineFailure_wpe].
    + intros r s' (-> & _ & H1). by split.
Qed.

(** ** The whole turn *)

Context (newRelay : option (string → option R)).
Context (runner : TurnRequest → EnvM (list string * result err unit)) (cwd : string).

Lemma acquireRelay_rest ev s :
  healthy (hs_env s) → hs_gate s = false → hs_relay s = None → qe_ThreadKey ev ≠ ""%string →
  wpm (acquireRelay gated newRelay ev)
    (λ r s', r = Ok tt ∧ reserved s s' ∧ healthy (hs_env s') ∧ fresh ev s') s.
Proof.
  intros He Hg Hr Hth.
  assert (H1 : wpm (acquireRelay gated newRelay ev) (λ r s', healthy (hs_env s') ∧ fresh ev s') s).
  2: { pose proof (acquireRelay_spec gated newRelay ev s Hg Hr) as H2. unfold wpm in *.
       destruct (acquireRelay _ _ _ s) as [r s']. naive_solver. }
  assert (Hnone : ∀ s1, hs_relay s1 = None → healthy (hs_env s1) → healthy (hs_env s1) ∧ fresh ev s1).
  { intros s1 H1 ?. split; [done|]. intros [y Hy]. congruence. }
  unfold acquireRelay. destruct newRelay as [mk|]; [|by apply Hnone].
  apply wpm_bind, wpm_try. eapply wph_store; [apply calm_AcquireTarget|done|by apply run_AcquireTarget|].
  intros e1 He1 Hd1 _. cbn beta iota. apply wpm_bind. unfold wpm at 1, set_gate.
  apply wpm_bind, wpm_try. eapply wph_store; [apply calm_query|exact He1|apply run_query|].
  intros e2 He2 Hd2 _. cbn beta iota. apply wpm_bind.
  destruct (exists_row _ _) eqn:Hb; [by apply wpm_ret, Hnone|].
  assert (Hend : ∀ rl s1, healthy (hs_env s1) → deliveries (hs_db s1) = deliveries (hs_db s) →
    wpm (_ ← set_relay rl; match rl with None => set_gate false | Some _ => mret tt end)
      (λ r s', healthy (hs_env s') ∧ fresh ev s') s1).
  { intros rl s1 H1 Hdl. apply wpm_bind. unfold wpm at 1, set_relay.
    assert (Hf : ∀ b, healthy (hs_env s1) ∧ fresh ev (HState (hs_env s1) (hs_keys s1) b rl)).
    { intros b. split; [done|]. intros _ k r Hk Hi. unfold hs_db in Hk. cbn in Hk.
      change (env_db (hs_env s1)) with (hs_db s1) in Hk. rewrite Hdl in Hk.
      apply not_true_iff_false in Hb. apply Hb, exists_row_true. exists k, r. unfold hs_db. cbn. rewrite Hd1.
      split; [exact Hk|]. unfold bound_to. by rewrite bool_decide_true. }
    destruct rl; apply Hf. }
  apply wpm_bind, wpm_try. eapply wph_store; [apply calm_query|exact He2|apply run_query|].
  intros e3 He3 Hd3 _. cbn beta iota.
  assert (Hdl : deliveries (env_db e3) = deliveries (hs_db s)).
  { rewrite Hd3. unfold hs_db at 1. cbn. rewrite Hd2. unfold hs_db at 1. cbn. by rewrite Hd1. }
  case_match; apply wpm_ret; (apply Hend; [exact He3|exact Hdl]).
Qed.

(** What a healthy process needs of the engine's side beyond [runner_ok]: it
    breaks nothing, and only adds to the trace. *)
Definition runner_well : Prop := ∀ req, well (runner req).

Lemma settled_from ev (s s2 s' : hstate R) x' l l0 :
  env_trace (hs_env s2) = env_trace (hs_env s) ++ l0 → deliveries (hs_db s2) = deliveries (hs_db s) →
  at_rest ev s2 s' x' l → at_rest ev s s' x' (l0 ++ l).
Proof.
  intros Ht Hd [H1 H2 H3 H4 H5 H6]. rewrite Ht in H4. rewrite Hd in H6. split; try done.
  - by rewrite (assoc_L app).
  - intros Hs. destruct (H5 Hs) as [delay Hin]. exists delay. set_solver.
  - intros Hs k r Hk Hb Hn. apply elem_of_app. right. by eapply H6.
Qed.

(** What the one turn of an owner's event leaves, by what the engine answered. *)
Definition left_by (ev : QueuedEvent) (x x' : event_row) (deltas : list string) (r : result err unit) (s2 s' : hstate R) : Prop :=
  match r with
  | Err _ => er_status x' = Received ∨ er_status x' = Interrupted ∨ er_status x' = Dead
  | Ok _ => if empty (reply_text deltas) then er_status x' = Completed
            else finished ev x (reply_text deltas) s2 s'
  end.

Definition turn_rest (ev : QueuedEvent) (x : event_row) (prompt : string) (s s' : hstate R) : Prop :=
  ∃ e1 e2 deltas r s2 x' l, healthy e1 ∧ env_db e1 = hs_db s
  ∧ runner (turn_request cwd ev prompt) e1 = (Ok (deltas, r), e2)
  ∧ queue_frame (hs_db s) (hs_db s2) ∧ at_rest ev s s' x' l ∧ left_by ev x x' deltas r s2 s'.

Lemma output_all_relay deltas reply (relay : option R) :
  is_Some (output_all deltas reply relay).2 → is_Some relay.
Proof.
  revert reply relay. induction deltas as [|d ds IH]; intros reply relay; cbn; [done|].
  destruct (empty reply); cbn; intros Hs; apply IH in Hs; destruct relay; [done|by destruct Hs|done|by destruct Hs].
Qed.

Lemma runTurn_rest ev x prompt s s1 :
  runner_ok runner → runner_well → healthy (hs_env s1) → reserved s s1 → fresh ev s1 → taken (hs_db s) ev x →
  wpm (runTurn clock gated runner cwd ev prompt) (λ r s', r = Ok tt ∧ turn_rest ev x prompt s s') s1.
Proof.
  intros Hok Hwell He1 (D1 & K1 & T1) Hf Ht. unfold runTurn. cbv zeta.
  apply wpm_bind, wph_liftE, wpe_emit. cbn. set (e1 := Env _ _ _ _ _). assert (Hh : healthy e1) by exact He1.
  apply wpm_bind, wph_liftE. pose proof (Hok (turn_request cwd ev prompt) e1) as Hr.
  pose proof (Hwell (turn_request cwd ev prompt) e1 Hh) as Hw.
  match goal with |- wpe _ ?Q _ => change (wpe (runner (turn_request cwd ev prompt)) Q e1) end.
  unfold wpe in *. destruct (runner (turn_request cwd ev prompt) e1) as [[[deltas r]|y] e2] eqn:Hq;
    destruct Hr as (Ho & E2 & L2 & DL2 & _); [|done]. destruct Hw as [Hh2 [l2 T2]]. cbn.
  apply wpm_bind. unfold wpm at 1, get_turn_relay. cbn.
  pose proof (output_all_text deltas "" (hs_relay s1)) as Htext.
  destruct (output_all deltas "" (hs_relay s1)) as [reply rl] eqn:Hout. cbn in Htext. subst reply.
  apply wpm_bind. unfold wpm at 1, set_relay. cbn. set (s2 := HState e2 _ _ _).
  change (env_db e1) with (hs_db s1) in E2, L2, DL2. rewrite D1 in E2, L2, DL2.
  assert (Ht2 : taken (hs_db s2) ev x).
  { destruct Ht as [P1 P2 P3 P4 P5]. split; try done. change (hs_db s2) with (env_db e2). by rewrite E2. }
  assert (Hf2 : fresh ev s2).
  { intros Hrl k r0 Hk. cbn in Hrl. change (hs_db s2) with (env_db e2) in Hk. rewrite L2, <-D1 in Hk. eapply Hf; [|exact Hk].
    apply (f_equal snd) in Hout. cbn in Hout. subst rl. by apply output_all_relay in Hrl. }
  assert (Htr : env_trace (hs_env s2) = env_trace (hs_env s)
    ++ ([FxTurn (qe_ThreadKey ev) (Floor [qe_Trust ev]) (qe_Kind ev) prompt] ++ l2)).
  { cbn. rewrite T2. cbn. by rewrite T1, <-(assoc_L app). }
  assert (Hgoal : ∀ s' x' l, at_rest ev s s' x' l → left_by ev x x' deltas r s2 s' → turn_rest ev x prompt s s') by
    (intros s' x' l Hs Hm; exists e1, e2, deltas, r, s2, x', l;
       split; [exact Hh|split; [exact D1|split; [exact Hq|split; [by split_and!|by split]]]]).
  destruct r as [[]|y].
  - destruct (empty (sink deltas "")) eqn:Hem.
    + apply empty_true in Hem. rewrite Hem. eapply wpm_mono; [by apply (silent_rest ev x)|].
      intros r s' (-> & x' & l & Hs & Hc). split; [done|]. eapply Hgoal; [by eapply settled_from|].
      unfold left_by, reply_text. by rewrite Hem.
    + apply empty_false_iff in Hem as Hne. eapply wpm_mono; [by apply (finishTurn_rest ev x)|].
      intros r s' (-> & Hfin). split; [done|]. destruct (finished_settled _ _ _ _ _ Hfin) as (x' & l & Hs & _).
      eapply Hgoal; [by eapply settled_from|]. unfold left_by, reply_text. by rewrite Hem.
  - eapply wpm_mono; [eapply (failedTurn_rest ev x _ s); [exact Hh2|exact Ht2|exact Htr]|].
    intros r s' (-> & x' & l & Hs & Hc). split; [done|]. by eapply Hgoal.
Qed.

(** The handler in a healthy process: an event it may not run is skipped or
    dead, and any other has had its one turn. *)
Definition turn_leaves (ev : QueuedEvent) (x : event_row) (s s' : hstate R) : Prop :=
  if String.eqb (qe_Trust ev) "owner" then
    match event_text (qe_Payload ev) with
    | None => ∃ x' l, at_rest ev s s' x' l ∧ er_status x' = Dead
    | Some prompt => turn_rest ev x prompt s s'
    end
  else ∃ x' l, at_rest ev s s' x' l ∧ er_status x' = Skipped.

Lemma run_DeadLetterEvent id reason t d x :
  events d !! id = Some x → er_status x = Processing → reason_check reason = true →
  reason ∈ ["retries-exhausted"; "malformed"; "unroutable"; "surface-failed"]%string →
  ∃ d', run (DeadLetterEvent id reason t) d = (Ok tt, d')
    ∧ events d' = <[id := event_status_upd Dead t x]> (events d).
Proof.
  intros Hx Hs Hc Hin. unfold DeadLetterEvent. rewrite bool_decide_true by done. cbn [negb].
  unfold upd_event, upsert_dead. run_simpl.
  rewrite Hx, (processing_in x [Interrupted]) by done. simpl. rewrite Hc. by eexists.
Qed.

Lemma malformed_rest ev x s :
  healthy (hs_env s) → taken (hs_db s) ev x →
  wpm (deadLetterMalformed clock gated ev)
    (λ r s', r = Ok tt ∧ ∃ x' l, at_rest ev s s' x' l ∧ er_status x' = Dead) s.
Proof.
  intros He [_ Hx Hs _ _]. unfold deadLetterMalformed.
  apply wpm_bind, wph_now_idle; [done|]. intros t e1 (He1 & Hd1 & Ht1). cbn beta iota.
  destruct (run_DeadLetterEvent (qe_ID ev) "malformed" t (hs_db s) x Hx Hs eq_refl) as (d' & Hr & Hev).
  { right; left. }
  apply wpm_bind, wpm_try. eapply wph_store; [apply calm_DeadLetterEvent|exact He1|unfold hs_db; cbn; rewrite Hd1; exact Hr|].
  intros e2 He2 Hd2 Ht2. cbn beta iota.
  assert (Hend : ∀ s' l, healthy (hs_env s') → events (hs_db s') = events d' →
    env_trace (hs_env s') = env_trace (hs_env s) ++ l →
    ∃ x' l, at_rest ev s s' x' l ∧ er_status x' = Dead).
  { intros s' l H1 H2 H3. exists (event_status_upd Dead t x), l. split; [|done].
    split; try done. by rewrite H2, Hev, lookup_insert_eq. }
  assert (Htr : env_trace e2 = env_trace (hs_env s)) by (etrans; [exact Ht2|exact Ht1]).
  apply wpm_bind, wpm_try, wph_liftE. eapply wpe_store_post; [apply calm_SurfaceDeadLetter|exact He2| |].
  { apply SurfaceDeadLetter_wpd. intros r d3 Hq. instantiate (1 := λ _ d3, events d3 = events d'). cbn in Hq |- *.
    destruct Hq as [Hq _]. etrans; [exact Hq|by rewrite Hd2]. }
  intros r e3 He3 Hd3 Ht3. cbn in Ht3. destruct r.
  - apply wph_liftE, wpe_emit. split; [done|]. apply (Hend _ [FxKick]); [done|done|]. cbn. congruence.
  - apply wpm_ret. split; [done|]. apply (Hend _ []); [done|done|]. rewrite app_nil_r. cbn. congruence.
Qed.

(** Releasing the gate changes none of it. *)
Lemma turn_rest_env ev x prompt s s' s'' :
  hs_env s'' = hs_env s' → turn_rest ev x prompt s s' → turn_rest ev x prompt s s''.
Proof.
  intros He (e1 & e2 & deltas & r & s2 & x' & l & P1 & P0 & P2 & P3 & [S1 S2 S3 S4 S5 S6] & P4).
  assert (Hd : hs_db s'' = hs_db s') by (unfold hs_db; by rewrite He).
  exists e1, e2, deltas, r, s2, x', l. do 4 (split; [done|]). split.
  { by split; rewrite ?He, ?Hd. }
  unfold left_by in *. destruct r; [|done]. destruct (empty _); [done|].
  destruct P4 as (ids & composed & s1 & Q1 & Q2 & t & s3 & Q3 & Q4 & [R1 R2 R3]).
  exists ids, composed, s1. split; [done|split; [done|]]. exists t, s3. split; [done|split; [done|]].
  split; unfold woken in *; by rewrite ?He, ?Hd.
Qed.

Lemma productionTurn_rest ev x s :
  runner_ok runner → runner_well → healthy (hs_env s) → taken (hs_db s) ev x →
  wpm (productionTurn clock gated newRelay runner cwd ev) (λ r s', r = Ok tt ∧ turn_leaves ev x s s') s.
Proof.
  intros Hok Hwell He Ht. unfold productionTurn, turn_leaves.
  destruct (String.eqb (qe_Trust ev) "owner"); cbn [negb].
  2: { apply wpm_bind, wph_now_idle; [done|]. intros t e1 (He1 & Hd1 & Ht1). cbn beta iota.
       apply wpm_bind, wpm_try. eapply wph_store; [apply calm_event_write|exact He1|unfold hs_db; cbn; rewrite Hd1|].
       { apply run_event_write; apply Ht. }
       intros e2 He2 Hd2 Ht2. apply wpm_ret. split; [done|]. exists (event_status_upd Skipped t x), [].
       split; [split|reflexivity]; [exact He2| |discriminate| |discriminate|discriminate].
       - unfold hs_db. cbn. rewrite Hd2. apply lookup_insert_eq.
       - rewrite app_nil_r. etrans; [exact Ht2|exact Ht1]. }
  destruct (event_text (qe_Payload ev)) as [prompt|]; [|by eapply malformed_rest].
  apply wpm_bind. unfold wpm at 1, set_relay. apply wpm_bind. unfold wpm at 1, set_gate. cbn.
  apply wpm_bind. eapply wpm_mono; [apply acquireRelay_rest; [exact He|done|done|apply Ht]|].
  intros r s1 (-> & Hres & He1 & Hf). apply wpm_bind.
  eapply wpm_mono; [apply (runTurn_rest ev x prompt s); try done|]. intros r s' (-> & H2). unfold wpm, set_gate.
  split; [done|]. by eapply turn_rest_env; [|exact H2].
Qed.
End handler.

(** ** The reply, after the turn *)

(** The row of one chunk. *)
Definition says_chunk (ev : QueuedEvent) (i : nat) (chunk : string) (r : delivery_row) : Prop :=
  dr_delivery_key r = reply_key (qe_DedupKey ev) i ∧ dr_event_id r = Some (qe_ID ev)
  ∧ dr_target r = qe_ThreadKey ev ∧ dr_payload r = chunk.

(** No row is the event's, and none has a key of its reply. *)
Definition untouched (d : db) (ev : QueuedEvent) : Prop :=
  ∀ k r, deliveries d !! k = Some r →
    dr_event_id r ≠ Some (qe_ID ev) ∧ ∀ i, dr_delivery_key r ≠ reply_key (qe_DedupKey ev) i.

(** What a turn that answered made of the store. *)
Record answered (ev : QueuedEvent) (text : string) (d d' : db) : Prop := Answered {
  an_others : ∀ j, j ≠ qe_ID ev → replied_or_same (events d !! j) (events d' !! j);
  an_over : over d' (qe_ID ev);
  an_thread : er_thread_key <$> events d' !! qe_ID ev = Some (qe_ThreadKey ev);
  an_sealing : sealing d' (qe_ID ev);
  an_rows : ∀ k r', deliveries d' !! k = Some r' →
    (∃ r, deliveries d !! k = Some r ∧ rel_row (Some r) (Some r'))
    ∨ (dr_event_id r' = Some (qe_ID ev) ∧ dr_target r' = qe_ThreadKey ev ∧ dr_status r' ≠ Failed);
  an_reply : ∀ i chunk, ChunkMessage text !! i = Some chunk →
    ∃ k r', deliveries d' !! k = Some r' ∧ says_chunk ev i chunk r' ∧ dr_status r' ≠ Failed;
}.

Lemma reply_rows_lookup ev text i chunk :
  ChunkMessage text !! i = Some chunk →
  reply_rows ev (ChunkMessage text) !! i
  = Some (MkDelivery (reply_key (qe_DedupKey ev) i) (qe_ID ev) (qe_ThreadKey ev) chunk).
Proof. intros Hc. unfold reply_rows. by rewrite list_lookup_imap, Hc. Qed.

(** A row stays the chunk's, through sends. *)
Lemma chunk_advanced ev i chunk d d' k r :
  advanced d d' → deliveries d !! k = Some r → says_chunk ev i chunk r → dr_status r ≠ Failed →
  ∃ r', deliveries d' !! k = Some r' ∧ says_chunk ev i chunk r' ∧ dr_status r' ≠ Failed.
Proof.
  intros Ha Hr (S1 & S2 & S3 & S4) Hf. assert (Hrel := ad_rows _ _ Ha k). rewrite Hr in Hrel.
  destruct (deliveries d' !! k) as [r'|]; [|done]. destruct Hrel as (K & E & F & T & P & _).
  exists r'. split_and!; [done|split_and!; congruence|]. intros Hs. by apply Hf, F.
Qed.

Lemma composed_reply ev text ids d d' :
  0 < qe_ID ev → composed_rows (reply_rows ev (ChunkMessage text)) ids d d' →
  ∀ i chunk, ChunkMessage text !! i = Some chunk →
  ∃ k r, k ∈ ids ∧ deliveries d' !! k = Some r ∧ says_chunk ev i chunk r ∧ dr_status r = Pending ∧ dr_acked r = None.
Proof.
  intros Hid (Hf & _) i chunk Hc.
  destruct (Forall2_lookup_l _ _ _ _ _ Hf (reply_rows_lookup ev text i chunk Hc)) as (k & Hk & Hrow).
  exists k. eexists. split; [by eapply list_elem_of_lookup_2|]. split; [exact Hrow|]. split; [|done].
  unfold says_chunk. simpl. split_and!; try done. unfold nullif_zero. destruct (Z.eqb_spec (qe_ID ev) 0); [lia|done].
Qed.

Lemma composed_answered ev x text ids t d d1 d' :
  text ≠ ""%string → taken d ev x →
  composed_rows (reply_rows ev (ChunkMessage text)) ids d d1 →
  advanced (complete true (qe_ID ev) t x d1) d' → answered ev text d d'.
Proof.
  intros Hne [Hid Hx _ _ Hown] Hc Ha. pose proof (composed_reply _ _ _ _ _ Hid Hc) as Hrep.
  pose proof (composed_bound _ _ _ _ _ Hid Hc) as Hb. set (dc := complete true (qe_ID ev) t x d1) in *.
  destruct Hc as (_ & _ & _ & Hkeep & Hnew & Heq).
  assert (Hev : events d1 = events d) by by rewrite Heq.
  assert (Hdc : events dc = <[qe_ID ev := event_status_upd Completed t x]> (events d))
    by (unfold dc, complete; simpl; by rewrite Hev).
  split.
  - intros j Hj. pose proof (ad_events _ _ Ha j) as He. rewrite Hdc, lookup_insert_ne in He; done.
  - eapply over_advanced; [exact Ha|]. apply over_complete.
  - pose proof (ad_events _ _ Ha (qe_ID ev)) as He. rewrite Hdc, lookup_insert_eq in He.
    destruct He as [->|(e & t' & He & _ & ->)]; simplify_eq/=; by rewrite Hown.
  - apply (ad_sealing _ _ Ha). eexists. rewrite Hdc, lookup_insert_eq. split; [done|]. right. split; [done|].
    destruct (ChunkMessage text) as [|c cs] eqn:Hcs; [by apply chunks_some in Hne|].
    destruct (Hrep 0%nat c eq_refl) as (k & r & _ & Hk & (_ & Hi & _) & _ & Hn).
    apply exists_row_true. exists k, r. split; [exact Hk|]. unfold bound_unacked, bound_to. by rewrite Hi, Hn, !bool_decide_true.
  - intros k r' Hk. pose proof (ad_rows _ _ Ha k) as Hrel. rewrite Hk in Hrel.
    destruct (deliveries dc !! k) as [r1|] eqn:Hr1; [|done].
    destruct (Hnew k r1 Hr1) as [Hold|Hin]; [left; by exists r1|right].
    destruct (Hb k Hin) as (key & payload & Hrow). change (deliveries dc) with (deliveries d1) in Hr1.
    rewrite Hrow in Hr1. injection Hr1 as <-. destruct Hrel as (_ & E & F & T & _). simpl in *.
    split_and!; [done|done|]. intros Hs. by apply F in Hs.
  - intros i chunk Hchunk. destruct (Hrep i chunk Hchunk) as (k & r & _ & Hk & Hs & Hp & _).
    destruct (chunk_advanced ev i chunk dc d' k r Ha Hk Hs) as (r' & Hr'); [by rewrite Hp|]. by exists k, r'.
Qed.

Lemma taken_untouched ev text d : untouched d ev → ¬ reply_taken ev text d.
Proof.
  intros Hu (i & _ & (k & r & Hk & Hb)%exists_row_true). apply String.eqb_eq in Hb.
  by apply (Hu k r Hk) in Hb.
Qed.

(** Between the two states of a turn the queue is what it was at its start. *)
Lemma finished_answered {R} ev x text (s s2 s' : hstate R) :
  text ≠ ""%string → taken (hs_db s) ev x → untouched (hs_db s) ev →
  queue_frame (hs_db s) (hs_db s2) → finished ev x text s2 s' → answered ev text (hs_db s) (hs_db s').
Proof.
  intros Hne Ht Hu (E & L & _) (ids & composed & s1 & Hc & _ & t & s3 & D3 & _ & [_ Ha _]).
  assert (Ht2 : taken (hs_db s2) ev x) by (destruct Ht; split; try done; by rewrite E).
  destruct composed.
  - rewrite D3 in Ha. destruct (composed_answered ev x text ids t _ _ _ Hne Ht2 Hc Ha) as [A1 A2 A3 A4 A5 A6].
    rewrite E in A1. rewrite L in A5. by split.
  - destruct Hc as [_ Hk]. exfalso. apply (taken_untouched ev text (hs_db s) Hu).
    destruct Hk as (i & Hi & Hex). exists i. by rewrite <-L.
Qed.

(** ** The pump pass behind it *)

(** Composing notices keeps an event's seal. *)
Lemma sealing_noticed d d' i : noticed d d' → events d' = events d → sealing d i → sealing d' i.
Proof.
  intros Hn Hev (e & He & Hs). exists e. split; [by rewrite Hev|]. destruct Hs as [Hs|[Hs Hu]]; [by left|right].
  split; [done|]. apply exists_row_true in Hu as (k & r & Hk & Hb). apply exists_row_true. exists k, r.
  split; [by apply (nt_kept _ _ Hn)|done].
Qed.

Section pump.
Context (senders : string → bool) (held : nat → string → bool) (clock : nat → Z) (gated : bool).

Lemma pump_pass_healthy e :
  healthy e → (∀ j k, held j k = false) →
  map_Forall (λ _ x, er_thread_key x ≠ ""%string) (events (env_db e)) →
  (∀ d2, noticed (env_db e) d2 → events d2 = events (env_db e) → ∀ y, y ∈ owed_rows d2 → due senders d2 y) →
  let '(r, e') := pump_pass senders held clock gated e in
  r = Ok tt ∧ ∃ d2, noticed (env_db e) d2 ∧ events d2 = events (env_db e) ∧ advanced d2 (env_db e')
    ∧ env_trace e' = env_trace e ++ map sent_ok (owed_rows d2) ∧ owed_rows (env_db e') = [].
Proof.
  intros He Hheld Hth Hdue. destruct (sweep_spec gated (env_db e) Hth) as (d2 & Hsweep & Hev & _).
  pose proof (wpd_run _ _ _ (sweep_keeps gated (env_db e))) as Hk. rewrite Hsweep in Hk. destruct Hk as [Hk _].
  assert (Hrun : wpe (pump_pass senders held clock gated)
    (λ r e', r = Ok tt ∧ advanced d2 (env_db e') ∧ env_trace e' = env_trace e ++ map sent_ok (owed_rows d2)
       ∧ owed_rows (env_db e') = []) e).
  { unfold pump_pass. wpe_step. eapply wpe_store; [apply calm_sweep|done|exact Hsweep|].
    intros e2 He2 Hd2 Ht2. cbn beta iota.
    assert (Hs : wpe (ResendUnacked senders held clock) (λ r e', r = Ok tt
       ∧ env_trace e' = env_trace e2 ++ map sent_ok (owed_rows (env_db e2)) ∧ owed_rows (env_db e') = []) e2).
    { apply (ResendUnacked_healthy senders held clock e2 He2 Hheld). rewrite Hd2. by apply Hdue. }
    eapply wpe_mono; [apply wpe_conj; [exact Hs|apply ResendUnacked_advances]|].
    intros r e' [(Hr & Htr & Hno) Ha]. rewrite Hd2 in Ha, Htr. split_and!; congruence || done. }
  unfold wpe in Hrun. destruct (pump_pass _ _ _ _ e) as [r e']. destruct Hrun as (Hr & Ha & Htr & Hno).
  split; [exact Hr|]. by exists d2.
Qed.

(** The other owed rows of the store: someone can send them, and their turns
    are over. *)
Definition others_due (d : db) : Prop :=
  ∀ k r, deliveries d !! k = Some r → owed r = true →
    ∀ j, dr_event_id r = Some j → over d j.

Lemma over_replied d d' j : replied_or_same (events d !! j) (events d' !! j) → over d j → over d' j.
Proof.
  intros Hr (x & Hx & Hs). destruct Hr as [Hsame|(e & t & He & Hc & Hrep)].
  - exists x. by rewrite Hsame.
  - eexists. split; [exact Hrep|]. simpl. set_solver.
Qed.

(** The threads after the turn are the threads before it. *)
Lemma answered_threads ev text d d' i e' :
  answered ev text d d' → (∃ x, taken d ev x) → events d' !! i = Some e' →
  ∃ e, events d !! i = Some e ∧ er_thread_key e = er_thread_key e'.
Proof.
  intros Ha [x [_ Hx _ _ Hown]] He'. destruct (decide (i = qe_ID ev)) as [->|Hne].
  - exists x. split; [done|]. pose proof (an_thread _ _ _ _ Ha) as Ht. rewrite He' in Ht. simplify_eq/=. congruence.
  - destruct (an_others _ _ _ _ Ha i Hne) as [Hs|(e & t & He & _ & Hr)].
    + exists e'. by rewrite <-Hs.
    + exists e. split; [done|]. rewrite He' in Hr. by injection Hr as ->.
Qed.

Lemma answered_due ev text x d d' d2 y :
  taken d ev x → untouched d ev → deliverable senders d → others_due d → answered ev text d d' →
  noticed d' d2 → events d2 = events d' → y ∈ owed_rows d2 → due senders d2 y.
Proof.
  intros Ht Hu [Hn Hs] Hd Ha Hk Hev (r & Hr & Ho & Hy)%elem_of_owed_rows.
  assert (Htgt : rd_Target y = dr_target r) by by rewrite Hy.
  assert (Hnt : ∀ t, notice_target d' t → senders (channelOf t) = true).
  { intros t [(i & e' & He' & Ht')|Hdm]; [|apply Hn; by right].
    destruct (answered_threads ev text d d' i e' Ha (ex_intro _ x Ht) He') as (e & He & Hth).
    apply Hn. left. exists i, e. split; [done|congruence]. }
  assert (Hov : ∀ i, over d' i → ∃ e, events d2 !! i = Some e ∧ er_status e ∉ [Received; Processing]).
  { intros i Hi. by rewrite Hev. }
  destruct (nt_new _ _ Hk _ _ Hr) as [Hd'|[Hun Hnt']].
  2: { split; [rewrite Htgt; by apply Hnt|]. exists r. split_and!; [done..|]. intros j Hj. congruence. }
  destruct (an_rows _ _ _ _ Ha _ _ Hd') as [(r0 & Hr0 & _ & E & _ & T & _ & O)|(E & T & _)].
  - split.
    { rewrite Htgt, T. apply (Hs (resendable_of (rd_ID y) r0)), elem_of_owed_rows.
      exists r0. split_and!; [done|by apply O|done]. }
    exists r. split_and!; [done..|]. intros j Hj. apply Hov. rewrite E in Hj.
    apply (over_replied d); [|by apply (Hd _ _ Hr0 (O Ho))]. apply (an_others _ _ _ _ Ha).
    intros ->. by apply (Hu _ _ Hr0).
  - split. { rewrite Htgt, T. apply Hn. left. exists (qe_ID ev), x. split; apply Ht. }
    exists r. split_and!; [done..|]. intros j Hj. apply Hov. assert (j = qe_ID ev) as -> by congruence.
    apply (an_over _ _ _ _ Ha).
Qed.
End pump.

(** No row of the event was given up, from the turn to the end of the pass. *)
Lemma answered_not_failed ev text d d' d2 d3 k r :
  untouched d ev → answered ev text d d' → noticed d' d2 → advanced d2 d3 →
  deliveries d3 !! k = Some r → dr_event_id r = Some (qe_ID ev) → dr_status r ≠ Failed.
Proof.
  intros Hu Ha Hn Hadv Hk Hi Hf. pose proof (ad_rows _ _ Hadv k) as Hrel. rewrite Hk in Hrel.
  destruct (deliveries d2 !! k) as [r2|] eqn:Hr2; [|done]. destruct Hrel as (_ & E2 & F2 & _).
  destruct (nt_new _ _ Hn k r2 Hr2) as [Hd|[Hun _]]; [|congruence].
  destruct (an_rows _ _ _ _ Ha k r2 Hd) as [(r0 & Hr0 & _ & E0 & _)|(_ & _ & Hnf)]; [|by apply Hnf, F2].
  apply (Hu k r0 Hr0). congruence.
Qed.

Lemma nothing_owed d k r : owed_rows d = [] → deliveries d !! k = Some r → owed r = true → False.
Proof.
  intros Hno Hk Ho. assert (Hin : resendable_of k r ∈ owed_rows d) by (apply elem_of_owed_rows; by exists r).
  rewrite Hno in Hin. by apply elem_of_nil in Hin.
Qed.

(** ** Properties *)

Section properties.
Context {R : Type} `{turnRelayOk R}.
Context (clock : nat → Z) (gated : bool) (newRelay : option (string → option R)).
Context (runner : TurnRequest → EnvM (list string * result err unit)) (cwd : string).
Context (Hok : runner_ok runner) (Hwell : runner_well runner).

Lemma settled_keys ev x (s s' : hstate R) :
  turn_exit gated runner cwd ev x s s' → er_status x = Processing →
  (∃ x', events (hs_db s') !! qe_ID ev = Some x' ∧ er_status x' ≠ Processing) → hs_keys s' ⊆ hs_keys s.
Proof.
  intros Hex Hs (x' & Hx' & Hx). unfold turn_exit in Hex.
  destruct (String.eqb _ _); [|by destruct Hex as (_ & -> & _)].
  destruct (event_text _); [|by destruct Hex as (_ & -> & _)].
  assert (Hrel : ∀ keys, released gated keys (claimed gated keys (hs_keys s)) ⊆ hs_keys s)
    by (intros keys; unfold released, claimed; destruct gated; set_solver).
  destruct Hex as (e1 & e2 & deltas & r & _ & _ & _ & Hcase). destruct r; [|by destruct Hcase as [-> _]].
  destruct (empty _); [by destruct Hcase as [-> _]|]. destruct Hcase as (y & Hy & Hcases).
  destruct Hcases as [(_ & ->)|[(-> & _)|(_ & _ & ->)]]; [done| |done]. by simplify_eq.
Qed.

Lemma turn_leaves_settled ev x (s s' : hstate R) :
  turn_leaves runner cwd ev x s s' → ∃ x' l, at_rest ev s s' x' l.
Proof.
  unfold turn_leaves. destruct (String.eqb _ _); [|by intros (x' & l & Hs & _); eauto].
  destruct (event_text _); [|by intros (x' & l & Hs & _); eauto].
  intros (? & ? & ? & ? & ? & x' & l & _ & _ & _ & _ & Hs & _). eauto.
Qed.

Lemma turn_settles_spec ev x s :
  healthy (hs_env s) → hs_gate s = false → taken (hs_db s) ev x →
  let '(r, s') := productionTurn clock gated newRelay runner cwd ev s in
  r = Ok tt ∧ hs_gate s' = false ∧ hs_keys s' ⊆ hs_keys s ∧ turn_leaves runner cwd ev x s s'.
Proof.
  intros He Hg Ht. pose proof (productionTurn_rest clock gated newRelay runner cwd ev x s Hok Hwell He Ht) as Hr.
  pose proof (productionTurn_spec clock gated newRelay runner cwd ev x s Hok Hg (tk_row _ _ _ Ht) (tk_status _ _ _ Ht)) as Hx.
  unfold wpm in *. destruct (productionTurn _ _ _ _ _ _ s) as [r s']. destruct Hr as [-> Hl], Hx as (_ & Hg' & Hex).
  split_and!; [done..| |done]. destruct (turn_leaves_settled ev x s s' Hl) as (x' & l & Hs).
  eapply settled_keys; [exact Hex|apply Ht|]. exists x'. split; apply Hs.
Qed.

(** C4: in a healthy process no turn is left hanging.  For the event a drain
    took, while store and context are well, any relay and any engine that
    answers or fails: the handler returns with its gate and its claims
    released and the event out of processing.  An event that is not the
    owner's is skipped, an unreadable one dead; a failed turn leaves it received
    with its readmission scheduled, interrupted or dead; a silent one completed;
    and a turn that answered has composed the reply (unless an earlier one was
    there), stamped the event from exactly that store and then only stamped,
    sent and acked rows, and woke the pump for whatever row it did not get out. *)
Theorem turn_settles ev x s :
  healthy (hs_env s) → hs_gate s = false → taken (hs_db s) ev x →
  let '(r, s') := productionTurn clock gated newRelay runner cwd ev s in
  r = Ok tt ∧ hs_gate s' = false ∧ hs_keys s' ⊆ hs_keys s ∧ turn_leaves runner cwd ev x s s'.
Proof. apply turn_settles_spec. Qed.

(** On the store as it stands, the engine answers [text]. *)
Definition answers (d : db) (req : TurnRequest) (text : string) : Prop := ∀ e, healthy e → env_db e = d →
  ∃ deltas e', runner req e = (Ok (deltas, Ok tt), e') ∧ reply_text deltas = text.

Lemma answered_turn ev x prompt text s :
  healthy (hs_env s) → hs_gate s = false → hs_keys s = ∅ → taken (hs_db s) ev x →
  qe_Trust ev = "owner"%string → event_text (qe_Payload ev) = Some prompt →
  answers (hs_db s) (turn_request cwd ev prompt) text → text ≠ ""%string → untouched (hs_db s) ev →
  let '(r, s') := productionTurn clock gated newRelay runner cwd ev s in
  r = Ok tt ∧ hs_keys s' = ∅ ∧ healthy (hs_env s') ∧ answered ev text (hs_db s) (hs_db s').
Proof.
  intros He Hg Hk Ht Hown Htext Hans Hne Hu. pose proof (turn_settles_spec ev x s He Hg Ht) as Hs.
  destruct (productionTurn _ _ _ _ _ _ s) as [r s']. destruct Hs as (-> & _ & Hkeys & Hl).
  unfold turn_leaves in Hl. rewrite Hown, Htext in Hl. cbn in Hl.
  destruct Hl as (e1 & e2 & deltas & r & s2 & x' & l & He1 & Hd1 & Hrun & Hq & Hset & Hby).
  destruct (Hans e1 He1 Hd1) as (deltas' & e' & Hrun' & Htxt). rewrite Hrun in Hrun'. simplify_eq.
  unfold left_by, empty in Hby. rewrite bool_decide_false in Hby by done.
  split_and!; [done|set_solver|apply Hset|]. by eapply finished_answered.
Qed.

Context (senders : string → bool) (clock' : nat → Z).

(** The turn, then the pump's next pass, which skips what a live relay holds. *)
Definition turn_and_pass (ev : QueuedEvent) (s : hstate R) :=
  let turn := productionTurn clock gated newRelay runner cwd ev s in
  (turn, pump_pass senders (λ _ k, bool_decide (k ∈ hs_keys turn.2)) clock' gated (hs_env turn.2)).

(** For an owner's event the router took, with nothing yet in the outbox for it
    and an engine that answers [text]: after the turn and the pump's next pass
    the event is replied and every chunk accepted, by the turn's own relay or by
    the pump, and nothing is owed any more.  [Assembly.owner_answered] states it
    of the wired daemon. *)
Lemma event_answered ev x prompt text s :
  healthy (hs_env s) → hs_gate s = false → hs_keys s = ∅ → taken (hs_db s) ev x →
  qe_Trust ev = "owner"%string → event_text (qe_Payload ev) = Some prompt →
  answers (hs_db s) (turn_request cwd ev prompt) text → text ≠ ""%string → untouched (hs_db s) ev →
  map_Forall (λ _ e, er_thread_key e ≠ ""%string) (events (hs_db s)) →
  deliverable senders (hs_db s) → others_due (hs_db s) →
  let '((r, s'), (r', e')) := turn_and_pass ev s in
  r = Ok tt ∧ r' = Ok tt
  ∧ (∃ x', events (env_db e') !! qe_ID ev = Some x' ∧ er_status x' = Replied)
  ∧ (∀ i chunk, ChunkMessage text !! i = Some chunk →
       ∃ k row, deliveries (env_db e') !! k = Some row ∧ says_chunk ev i chunk row ∧ dr_acked row ≠ None
         ∧ ((∃ row0, deliveries (hs_db s') !! k = Some row0 ∧ dr_acked row0 ≠ None)
            ∨ FxSend k (qe_ThreadKey ev) chunk true ∈ env_trace e'))
  ∧ owed_rows (env_db e') = [].
Proof.
  intros He Hg Hk Ht Hown Htext Hans Hne Hu Hth Hdel Hoth.
  pose proof (answered_turn ev x prompt text s He Hg Hk Ht Hown Htext Hans Hne Hu) as Hturn.
  unfold turn_and_pass. destruct (productionTurn _ _ _ _ _ _ s) as [r s'] eqn:Hq. cbn [fst snd].
  destruct Hturn as (-> & Hkeys & He' & Ha).
  pose proof (pump_pass_healthy senders (λ _ k, bool_decide (k ∈ hs_keys s')) clock' gated (hs_env s') He') as Hp.
  destruct (pump_pass _ _ _ _ _) as [r' e']. destruct Hp as (-> & d2 & Hn & Hev & Hadv & Htr & Hno).
  { intros _ k. rewrite Hkeys. apply bool_decide_false. set_solver. }
  { intros i e He2. destruct (answered_threads ev text _ _ i e Ha (ex_intro _ x Ht) He2) as (e0 & He0 & <-). by eapply Hth. }
  { intros d2 Hn Hev y. by eapply answered_due. }
  split_and!; [done|done| | |done].
  - apply (sealed_after d2); [|done|apply (ad_sealing _ _ Hadv)|].
    + eapply sealing_noticed; [exact Hn|exact Hev|apply Ha].
    + intros k r3 Hr3 Hi Hf. eapply answered_not_failed; eauto.
  - intros i chunk Hchunk. destruct (an_reply _ _ _ _ Ha i chunk Hchunk) as (k & row & Hrow & Hsay & Hnf).
    pose proof (nt_kept _ _ Hn _ _ Hrow) as Hrow2.
    destruct (chunk_advanced ev i chunk d2 (env_db e') k row Hadv Hrow2 Hsay Hnf) as (row3 & Hrow3 & Hsay3 & Hnf3).
    exists k, row3. split_and!; [done|done| |].
    + intros Hack. eapply nothing_owed; [exact Hno|exact Hrow3|]. apply owed_spec. by split.
    + destruct (decide (dr_acked row = None)) as [Hun|Hack]; [right|left; by exists row].
      rewrite Htr. apply elem_of_app. right. apply list_elem_of_In, in_map_iff. exists (resendable_of k row).
      split; [|apply list_elem_of_In, elem_of_owed_rows; exists row; split_and!; [done|by apply owed_spec|done]].
      destruct Hsay as (_ & _ & <- & <-). done.
Qed.
End properties.

#[local] Existing Instance talk_relay.
#[local] Existing Instance talk_relay_ok.

Lemma talking_well : runner_well talking.
Proof. intros req e He. by split. Qed.

Lemma running_taken : taken (hs_db talk_state) running_event
  (event_status_upd Processing 5 (received_row sample_event)).
Proof. by split. Qed.

Lemma turn_settles_witness :
  hs_gate talk.2 = false ∧ hs_keys talk.2 ⊆ ∅
  ∧ turn_leaves talking "/home" running_event
      (event_status_upd Processing 5 (received_row sample_event)) talk_state talk.2.
Proof.
  pose proof (turn_settles (λ _, 9) true (Some fresh_dstate) talking "/home" talking_ok talking_well running_event
    (event_status_upd Processing 5 (received_row sample_event)) talk_state
    (conj eq_refl (conj eq_refl eq_refl)) eq_refl running_taken) as H.
  unfold talk. destruct (productionTurn _ _ _ _ _ _ _) as [r s']. apply H.
Defined.
