(* ===== verification/Drain.v ===== *)
(** * One thread's drain with its handler (src/internal/router/router.go, drain and dispatch)

    [Router] interleaves drains and leaves the handler's effect open; here one
    drain runs [TurnHandler]'s handler on the events it pops, one after the
    other.  A turn moves no event but its own, whatever fails, so in a healthy
    process every popped event is brought to rest, in order. *)
From S2P Require Import Prelude Utf8 Trust Schema Events Event Deliveries ToolAttempts.
From S2P Require Import DeadLetters Surface StoreSpec StoreInv StoreOps Env Resend Sweep Recovery.
From S2P Require Import Router Restart SessionManager Relay TurnHandler Healthy Answer.
Local Open Scope Z_scope.

(** ** Definitions *)

Section drain.
Context {SA : StoreAccess} {R : Type}.
Context (clock : nat → Z) (handler : QueuedEvent → HM R unit).

(** A quiet refusal on shutdown, the processing stamp, and the handler only
    behind a stamp that was written. *)
Definition dispatch (ev : QueuedEvent) : HM R unit :=
  stopped ← liftE ctx_err;
  if (stopped : bool) then mret tt
  else
    t ← liftE (now clock);
    stamped ← try (liftE (liftS (MarkEventProcessing (qe_ID ev) t)));
    match stamped with
    | Err _ => mret tt
    | Ok _ => handler ev
    end.

(** [evs]: what the thread's FIFO holds until the drain finds it empty. *)
Fixpoint drain (evs : list QueuedEvent) : HM R unit :=
  match evs with
  | [] => mret tt
  | ev :: evs' =>
      stopped ← liftE ctx_err;
      if (stopped : bool) then mret tt
      else _ ← dispatch ev; drain evs'
  end.
End drain.

(** ** Isolation: a turn moves no other event *)

(** Any event but [id] is as it was, or went from completed to replied. *)
Definition spared (id : Z) (d d' : db) : Prop :=
  ∀ j, j ≠ id → replied_or_same (events d !! j) (events d' !! j).

Lemma replied_or_same_trans o1 o2 o3 :
  replied_or_same o1 o2 → replied_or_same o2 o3 → replied_or_same o1 o3.
Proof.
  intros [H1|(e & t & H1 & Hc & H1')] [H2|(e2 & t2 & H2 & Hc2 & H2')].
  - left. congruence.
  - right. exists e2, t2. subst. by split_and!.
  - right. exists e, t. subst. by split_and!.
  - subst. injection H2 as <-. done.
Qed.

#[global] Instance spared_refl id : Reflexive (spared id).
Proof. intros d j _. by left. Qed.
#[global] Instance spared_trans id : Transitive (spared id).
Proof. intros d1 d2 d3 H1 H2 j Hj. eapply replied_or_same_trans; [by apply H1|by apply H2]. Qed.

Lemma spared_same id d d' : events d' = events d → spared id d d'.
Proof. intros He j _. left. by rewrite He. Qed.

Lemma spared_insert id x d m : m = <[id := x]> (events d) → spared id d (set_events m d).
Proof. intros -> j Hj. left. simpl. by rewrite lookup_insert_ne. Qed.

Lemma spared_advanced id d d' : advanced d d' → spared id d d'.
Proof. intros Ha j _. apply Ha. Qed.

(** A store program, a call above the store, and a handler's step that spare
    every event but [id]. *)
Definition spares (id : Z) {A} (m : StoreM A) : Prop := ∀ d, wpd m (λ _ d', spared id d d') d.
Definition sparesE (id : Z) {A} (m : EnvM A) : Prop := ∀ e,
  wpe m (λ _ e', spared id (env_db e) (env_db e')) e.
Definition sparesH (id : Z) {R A} (m : HM R A) : Prop := ∀ s,
  wpm m (λ _ s', spared id (hs_db s) (hs_db s')) s.

Lemma spares_bind id {A B} (m : StoreM A) (f : A → StoreM B) :
  spares id m → (∀ a, spares id (f a)) → spares id (m ≫= f).
Proof.
  intros Hm Hf d. apply wpd_bind. eapply wpd_mono; [apply Hm|]. intros [a|x] d1 H1; [|done].
  eapply wpd_mono; [apply Hf|]. intros r d2 H2. by etrans.
Qed.
Lemma spares_try id {A} (m : StoreM A) : spares id m → spares id (try m).
Proof. intros Hm d. apply wpd_try, Hm. Qed.
Lemma spares_tx id {A} (body : StoreM (bool * A)) : spares id body → spares id (in_tx body).
Proof.
  intros Hm d. apply wpd_in_tx; [done|]. eapply wpd_mono; [apply Hm|]. by intros [[[] a]|x] d' H.
Qed.
Lemma spares_stmt id {A} (f : db → result err (A * db)) :
  (∀ d a d', f d = Ok (a, d') → spared id d d') → spares id (stmt f).
Proof. intros Hf d. apply wpd_stmt; [done|]. destruct (f d) as [[a d']|x] eqn:E; [by eapply Hf|done]. Qed.
Lemma spares_query id {A} (f : db → A) : spares id (query f).
Proof. apply spares_stmt. intros d a d' H. by simplify_eq. Qed.
Lemma spares_exec id (g : db → event_row → bool) (h : db → event_row → event_row) :
  spares id (exec (λ d, upd_event id (g d) (h d) d)).
Proof.
  intros d. apply wpd_exec; [done|]. intros n d' H. upd_cases; [done|]. by eapply spared_insert.
Qed.

Ltac spares :=
  repeat (lazymatch goal with
  | |- spares _ (_ ≫= _) => apply spares_bind; [|intros ?]
  | |- spares _ (mbind _ _) => apply spares_bind; [|intros ?]
  | |- spares _ (try _) => apply spares_try
  | |- spares _ (in_tx _) => apply spares_tx
  | |- spares _ (query _) => apply spares_query
  | |- spares _ (exec (upd_event _ ?g ?h)) => apply (spares_exec _ (λ _, g) (λ _, h))
  | |- spares _ (if ?b then _ else _) => destruct b
  | |- spares _ (match ?x with _ => _ end) => destruct x
  | |- spares _ (mret _) => by intros d; apply wpd_ret
  | |- spares _ (refuse _) => by intros d; apply wpd_refuse
  end).

Lemma spares_mark id t : spares id (MarkEventProcessing id t).
Proof. unfold MarkEventProcessing. spares. Qed.
Lemma spares_skip id t : spares id (SkipEvent id t).
Proof. unfold SkipEvent. spares. Qed.
Lemma spares_park id t : spares id (ParkEvent id t).
Proof. unfold ParkEvent. spares. Qed.
Lemma spares_complete id (composed : bool) t :
  spares id (if composed then MarkEventCompleted id t else MarkEventCompletedReconciled id t).
Proof.
  destruct composed; [unfold MarkEventCompleted; spares|]. unfold MarkEventCompletedReconciled.
  apply spares_bind; [|intros n; spares].
  apply (spares_exec id (λ _, has_status [Processing])
    (λ d, event_status_upd (if all_bound_acked id d then Replied else Completed) t)).
Qed.
Lemma spares_requeue id t : spares id (RequeueEventForRetry id t).
Proof.
  unfold RequeueEventForRetry. apply spares_bind; [|intros n; spares].
  apply (spares_exec id (λ d e, has_status [Processing] e && Z.ltb (er_attempts e) maxEventRetries
      && negb (exists_row (unkeyed_for id) (tool_attempts d)))
    (λ _ e, event_upd Received (er_attempts e + 1) (er_parks e) (Some t) e)).
Qed.
Lemma spares_dead id reason t : spares id (DeadLetterEvent id reason t).
Proof.
  unfold DeadLetterEvent. spares. apply spares_stmt. intros d u d'. unfold upsert_dead.
  destruct (reason_check reason); intros; simplify_eq. by apply spared_same.
Qed.
Lemma spares_compose id ds : spares id (InsertDeliveries ds).
Proof.
  intros d. eapply wpd_mono; [apply InsertDeliveries_wpd|]. cbn.
  intros [[ids [|]]|x] d' Hp; [|by destruct Hp as (_ & -> & _)|by subst].
  destruct Hp as (_ & _ & _ & _ & _ & ->). by apply spared_same.
Qed.
Lemma spares_ack id k t : spares id (AckDelivery k t).
Proof. intros d. eapply wpd_mono; [apply AckDelivery_advances|]. intros r d'. apply spared_advanced. Qed.
Lemma spares_attempt id k t : spares id (MarkDeliveryAttempt k t).
Proof. intros d. eapply wpd_mono; [apply MarkDeliveryAttempt_advances|]. intros r d'. apply spared_advanced. Qed.
Lemma spares_interrupted id gated ev : spares id (SurfaceInterruptedCoordinated gated ev).
Proof. intros d. apply SurfaceInterrupted_wpd. intros r d' (He & _). by apply spared_same. Qed.
Lemma spares_death id gated ev : spares id (SurfaceDeadLetterCoordinated gated ev).
Proof. intros d. apply SurfaceDeadLetter_wpd. intros r d' (He & _). by apply spared_same. Qed.
Lemma spares_acquire id gated target : spares id (AcquireTarget gated target).
Proof. intros d. by apply AcquireTarget_wpd. Qed.

Create HintDb spares.
#[export] Hint Resolve spares_mark spares_skip spares_park spares_complete spares_requeue spares_dead
  spares_compose spares_ack spares_attempt spares_interrupted spares_death spares_acquire spares_query : spares.

(** *** Above the store *)

Lemma sparesE_lift id {A} (m : StoreM A) : spares id m → sparesE id (liftS m).
Proof. intros Hm e. apply wpe_lift. eapply wpd_mono; [apply Hm|]. by intros r d' H fs. Qed.
Lemma sparesE_bind id {A B} (m : EnvM A) (f : A → EnvM B) :
  sparesE id m → (∀ a, sparesE id (f a)) → sparesE id (m ≫= f).
Proof.
  intros Hm Hf e. apply wpe_bind. eapply wpe_mono; [apply Hm|]. intros [a|x] e1 H1; [|done].
  eapply wpe_mono; [apply Hf|]. intros r e2 H2. by etrans.
Qed.
Lemma sparesE_try id {A} (m : EnvM A) : sparesE id m → sparesE id (try m).
Proof. intros Hm e. apply wpe_try, Hm. Qed.
(** A call that leaves the store alone. *)
Lemma sparesE_local id {A} (m : EnvM A) : (∀ e, env_db (m e).2 = env_db e) → sparesE id m.
Proof. intros Hm e. unfold wpe. specialize (Hm e). destruct (m e). simpl in Hm. by rewrite Hm. Qed.
Lemma sparesE_ctx id : sparesE id ctx_err.
Proof. apply sparesE_local. intros e. unfold ctx_err. by destruct (next_fault _). Qed.

Ltac sparesE :=
  repeat (lazymatch goal with
  | |- sparesE _ (_ ≫= _) => apply sparesE_bind; [|intros ?]
  | |- sparesE _ (mbind _ _) => apply sparesE_bind; [|intros ?]
  | |- sparesE _ (try _) => apply sparesE_try
  | |- sparesE _ (liftS _) => apply sparesE_lift; auto with spares
  | |- sparesE _ ctx_err => apply sparesE_ctx
  | |- sparesE _ (if ?b then _ else _) => destruct b
  | |- sparesE _ (match ?x with _ => _ end) => destruct x
  | |- sparesE _ _ => by apply sparesE_local
  end).

Lemma sparesE_park clock gated ev : sparesE (qe_ID ev) (park clock gated true ev).
Proof. unfold park, kick. sparesE. Qed.
Lemma sparesE_failure clock gated ev : sparesE (qe_ID ev) (HandleEngineFailure clock gated true ev).
Proof.
  unfold HandleEngineFailure, AttemptsForEvent, deadLetter, kick. sparesE; apply sparesE_park.
Qed.
Lemma sparesE_stamp id clock ids i : sparesE id (stamp_chunk clock ids i).
Proof. unfold stamp_chunk. sparesE. Qed.

(** *** The handler *)

Section isolation.
Context {R : Type} `{turnRelayOk R}.
Context (clock : nat → Z) (gated : bool) (newRelay : option (string → option R)).
Context (runner : TurnRequest → EnvM (list string * result err unit)) (cwd : string).
Context (Hok : runner_ok runner).

Lemma sparesH_lift id {A} (m : EnvM A) : sparesE id m → sparesH (R := R) id (liftE m).
Proof. intros Hm s. apply wph_liftE. eapply wpe_mono; [apply Hm|]. done. Qed.
Lemma sparesH_bind id {A B} (m : HM R A) (f : A → HM R B) :
  sparesH id m → (∀ a, sparesH id (f a)) → sparesH id (m ≫= f).
Proof.
  intros Hm Hf s. apply wpm_bind. eapply wpm_mono; [apply Hm|]. intros [a|x] s1 H1; [|done].
  eapply wpm_mono; [apply Hf|]. intros r s2 H2. by etrans.
Qed.
Lemma sparesH_try id {A} (m : HM R A) : sparesH id m → sparesH id (try m).
Proof. intros Hm s. apply wpm_try, Hm. Qed.
(** A step on the handler's own state. *)
Lemma sparesH_local id {A} (m : HM R A) : (∀ s, hs_db (m s).2 = hs_db s) → sparesH id m.
Proof. intros Hm s. unfold wpm. specialize (Hm s). destruct (m s). simpl in Hm. by rewrite Hm. Qed.

Lemma sparesH_recover ev {A} (m : EnvM A) : sparesE (qe_ID ev) m → sparesH (R := R) (qe_ID ev) (recover m).
Proof.
  intros Hm s. unfold wpm, recover. destruct (hs_gate s); [done|]. specialize (Hm (hs_env s)). unfold wpe in Hm.
  by destruct (m (hs_env s)).
Qed.

Lemma sparesH_finish id ids : sparesH (R := R) id (finish_relay clock ids).
Proof.
  intros s. unfold wpm, finish_relay. destruct (hs_relay s) as [r|]; [|done].
  pose proof (relay_finish_journal env (stamp_chunk clock ids) r (hs_env s)) as [idx Hidx].
  destruct (relay_FinishJournaled _ _ _) as [a [r' e']]. cbn in Hidx. subst e'. unfold hs_db. cbn.
  generalize (hs_env s). induction idx as [|i idx IH]; intros e; [done|]. simpl.
  etrans; [|apply IH]. pose proof (sparesE_stamp id clock ids i e) as Hs. unfold wpe in Hs.
  by destruct (stamp_chunk clock ids i e).
Qed.

Lemma sparesH_runner id req : sparesH (R := R) id (liftE (runner req)).
Proof.
  apply sparesH_lift. intros e. eapply wpe_mono; [apply Hok|]. intros r e' (_ & He & _). by apply spared_same.
Qed.

Ltac sparesH :=
  repeat (lazymatch goal with
  | |- sparesH _ (_ ≫= _) => apply sparesH_bind; [|intros ?]
  | |- sparesH _ (mbind _ _) => apply sparesH_bind; [|intros ?]
  | |- sparesH _ (try _) => apply sparesH_try
  | |- sparesH _ (liftE (runner _)) => apply sparesH_runner
  | |- sparesH _ (liftE _) => apply sparesH_lift; sparesE
  | |- sparesH _ (finish_relay _ _) => apply sparesH_finish
  | |- sparesH _ (recover _) => apply sparesH_recover; auto using sparesE_park, sparesE_failure
  | |- sparesH _ (if ?b then _ else _) => destruct b
  | |- sparesH _ (let '(_, _) := ?x in _) => destruct x
  | |- sparesH _ (match ?x with _ => _ end) => destruct x
  | |- sparesH _ _ => by apply sparesH_local
  end).

Lemma sparesH_acks id acks ids : sparesH (R := R) id (ack_loop clock acks ids).
Proof.
  revert ids. induction acks as [|a acks IH]; intros [|k ids]; try by apply sparesH_local.
  cbn [ack_loop]. sparesH. apply IH.
Qed.

Lemma sparesH_send id keys ids direct : sparesH (R := R) id (send_reply clock gated keys ids direct).
Proof. unfold send_reply, unclaim. sparesH; apply sparesH_acks. Qed.

Lemma sparesH_reply ev keys ids composed :
  sparesH (R := R) (qe_ID ev) (complete_reply clock gated ev keys ids composed).
Proof.
  unfold complete_reply, OwedDeliveriesBefore.
  apply sparesH_bind; [by apply sparesH_local|]. intros relay. apply sparesH_bind; [sparesH|]. intros direct.
  apply sparesH_bind; [sparesH|]. intros t. apply sparesH_bind; [sparesH|].
  intros [u|x]; [apply sparesH_send|by apply sparesH_local].
Qed.

Lemma sparesH_finishTurn ev text : sparesH (R := R) (qe_ID ev) (finishTurn clock gated ev text).
Proof.
  unfold finishTurn. destruct (empty text).
  { apply sparesH_bind; [by apply sparesH_local|]. intros _. apply sparesH_bind; [sparesH|]. intros t.
    apply sparesH_bind; [|intros _; by apply sparesH_local]. apply sparesH_try, sparesH_lift, sparesE_lift.
    apply (spares_complete (qe_ID ev) true). }
  cbv zeta. unfold claim, park_reply, unclaim, ParkAmbiguous. sparesH; apply sparesH_reply.
Qed.

Lemma sparesH_failedTurn ev : sparesH (R := R) (qe_ID ev) (failedTurn clock gated ev).
Proof. unfold failedTurn, ParkAmbiguous. sparesH. Qed.

Lemma sparesH_acquireRelay ev : sparesH (R := R) (qe_ID ev) (acquireRelay gated newRelay ev).
Proof. unfold acquireRelay, EventHasDeliveries, HasOwedDeliveries. sparesH. Qed.

Lemma sparesH_productionTurn ev : sparesH (qe_ID ev) (productionTurn clock gated newRelay runner cwd ev).
Proof.
  unfold productionTurn, deadLetterMalformed, runTurn. cbv zeta.
  sparesH; first [apply sparesH_acquireRelay|apply sparesH_finishTurn|apply sparesH_failedTurn].
Qed.
End isolation.

(** ** The drain in a healthy process *)

(** A queued event: received, its row's thread. *)
Record waiting (d : db) (ev : QueuedEvent) : Prop := Waiting {
  wt_id : 0 < qe_ID ev;
  wt_thread : qe_ThreadKey ev ≠ ""%string;
  wt_row : ∃ x, events d !! qe_ID ev = Some x ∧ er_status x = Received ∧ er_thread_key x = qe_ThreadKey ev;
}.

Lemma waiting_spared id d d' ev : qe_ID ev ≠ id → spared id d d' → waiting d ev → waiting d' ev.
Proof.
  intros Hne Hs [H1 H2 (x & Hx & Hr & Ht)]. split; [done..|]. exists x. split; [|done].
  destruct (Hs _ Hne) as [->|(e & t & He & Hc & _)]; [done|]. rewrite Hx in He. simplify_eq. congruence.
Qed.

Lemma run_MarkEventProcessing id t d x :
  events d !! id = Some x → er_status x = Received →
  run (MarkEventProcessing id t) d
  = (Ok tt, set_events (<[id := event_status_upd Processing t x]> (events d)) d).
Proof.
  intros Hx Hs. unfold MarkEventProcessing, upd_event. run_simpl.
  by rewrite Hx, (proj2 (has_status_true _ _)) by (rewrite Hs; by left).
Qed.

(** The engine turn an event gets: one, if it is the owner's and readable. *)
Definition turns_for (ev : QueuedEvent) : list effect :=
  if String.eqb (qe_Trust ev) "owner" then
    match event_text (qe_Payload ev) with
    | Some prompt => [FxTurn (qe_ThreadKey ev) (Floor [qe_Trust ev]) (qe_Kind ev) prompt]
    | None => []
    end
  else [].

(** An event the drain is done with. *)
Definition done_with (d : db) (l : list effect) (ev : QueuedEvent) : Prop :=
  ∃ x', events d !! qe_ID ev = Some x' ∧ er_status x' ≠ Processing
    ∧ (er_status x' = Received → ∃ delay, FxReadmitAfter delay (requeued ev) ∈ l).

Lemma done_with_spared id d d' l l' ev :
  qe_ID ev ≠ id → spared id d d' → done_with d l ev → done_with d' (l ++ l') ev.
Proof.
  intros Hne Hs (x & Hx & Hp & Hr). destruct (Hs _ Hne) as [Heq|(e & t & He & Hc & Heq)].
  - exists x. rewrite Heq. split_and!; [done..|]. intros H. destruct (Hr H) as [delay Hd]. exists delay. set_solver.
  - eexists. split; [exact Heq|]. by split.
Qed.

Section drained.
Context {R : Type} `{turnRelayOk R}.
Context (clock : nat → Z) (gated : bool) (newRelay : option (string → option R)).
Context (runner : TurnRequest → EnvM (list string * result err unit)) (cwd : string).
Context (Hok : runner_ok runner) (Hwell : runner_well runner).

(** From [s] to [s'], a stretch of the drain that popped [evs]. *)
Record drained (evs : list QueuedEvent) (s s' : hstate R) (l : list effect) : Prop := Drained {
  dn_healthy : healthy (hs_env s');
  dn_gate : hs_gate s' = false;
  dn_keys : hs_keys s' ⊆ hs_keys s;
  dn_trace : env_trace (hs_env s') = env_trace (hs_env s) ++ l;
  dn_turns : turns_of l = concat (map turns_for evs);
  dn_done : ∀ ev, ev ∈ evs → done_with (hs_db s') l ev;
  dn_others : ∀ j, j ∉ map qe_ID evs → replied_or_same (events (hs_db s) !! j) (events (hs_db s') !! j);
}.

Lemma turn_exit_turns ev x (s s' : hstate R) :
  turn_exit gated runner cwd ev x s s' →
  turns_of (env_trace (hs_env s')) = turns_of (env_trace (hs_env s)) ++ turns_for ev.
Proof.
  unfold turn_exit, turns_for. destruct (String.eqb _ _); [|by intros (-> & _); rewrite app_nil_r].
  destruct (event_text _); [|by intros (-> & _); rewrite app_nil_r]. by intros (? & ? & ? & ? & _ & _ & -> & _).
Qed.

Lemma handler_drained ev x s :
  healthy (hs_env s) → hs_gate s = false → taken (hs_db s) ev x →
  wpm (productionTurn clock gated newRelay runner cwd ev) (λ r s', r = Ok tt ∧ ∃ l, drained [ev] s s' l) s.
Proof.
  intros He Hg Ht. pose proof (turn_settles_spec clock gated newRelay runner cwd Hok Hwell ev x s He Hg Ht) as H1.
  pose proof (productionTurn_spec clock gated newRelay runner cwd ev x s Hok Hg (tk_row _ _ _ Ht) (tk_status _ _ _ Ht)) as H2.
  pose proof (sparesH_productionTurn clock gated newRelay runner cwd Hok ev s) as H3. unfold wpm in *.
  destruct (productionTurn _ _ _ _ _ _ s) as [r s']. destruct H1 as (-> & G & K & Hl), H2 as (_ & _ & Hex).
  destruct (turn_leaves_settled _ _ ev x s s' Hl) as (x' & l & [S1 S2 S3 S4 S5 _]). split; [done|]. exists l.
  apply turn_exit_turns in Hex. rewrite S4, turns_of_app in Hex. apply app_inv_head in Hex.
  split; [done|done|done|done| | |].
  - cbn. by rewrite app_nil_r.
  - intros ev' Hev. apply list_elem_of_singleton in Hev as ->. by exists x'.
  - intros j Hj. apply H3. cbn in Hj. set_solver.
Qed.

(** The turn of an event from its pop to its rest. *)
Lemma dispatch_drained ev s :
  healthy (hs_env s) → hs_gate s = false → waiting (hs_db s) ev →
  wpm (dispatch clock (productionTurn clock gated newRelay runner cwd) ev) (λ r s', r = Ok tt ∧ ∃ l, drained [ev] s s' l) s.
Proof.
  intros He Hg [Hid Hth (x & Hx & Hr & Hown)]. unfold dispatch.
  apply wpm_bind, wph_liftE, wpe_ctx_idle; [done|]. intros e1 (He1 & Hd1 & Ht1). cbn beta iota.
  set (s1 := HState e1 _ _ _). apply wpm_bind, wph_now_idle; [exact He1|]. intros t e2 (He2 & Hd2 & Ht2). cbn beta iota.
  apply wpm_bind, wpm_try. eapply wph_store; [apply calm_event_write|exact He2| |].
  { unfold hs_db. cbn. cbn in Hd2. rewrite Hd2, Hd1. by apply run_MarkEventProcessing. }
  intros e3 He3 Hd3 Ht3. cbn beta iota. set (s3 := with_env _ e3).
  assert (Ht : taken (hs_db s3) ev (event_status_upd Processing t x)).
  { split; try done. change (hs_db s3) with (env_db e3). rewrite Hd3. apply lookup_insert_eq. }
  eapply wpm_mono; [eapply (handler_drained ev _ s3); [exact He3|exact Hg|exact Ht]|]. intros r s' (-> & l & [D1 D2 D3 D4 D5 D6 D7]).
  split; [done|]. exists l. cbn in Ht2, Ht3. split; [done|done|exact D3| |done|done|].
  - rewrite D4. cbn. by rewrite Ht3, Ht2, Ht1.
  - intros j Hj. eapply replied_or_same_trans; [|by apply D7]. left.
    change (hs_db s3) with (env_db e3). rewrite Hd3. cbn. rewrite lookup_insert_ne; [done|]. cbn in Hj. set_solver.
Qed.

Lemma drained_step ev evs s s1 s2 l1 l2 :
  qe_ID ev ∉ map qe_ID evs → drained [ev] s s1 l1 → drained evs s1 s2 l2 → drained (ev :: evs) s s2 (l1 ++ l2).
Proof.
  intros Hnin [A1 A2 A3 A4 A5 A6 A7] [B1 B2 B3 B4 B5 B6 B7]. split; [done|done|set_solver| | | |].
  - by rewrite B4, A4, (assoc_L app).
  - rewrite turns_of_app, A5, B5. cbn. by rewrite app_nil_r.
  - intros ev' [->|Hin]%elem_of_cons.
    + destruct (A6 ev ltac:(by left)) as (x' & Hx' & Hp & Hr). destruct (B7 (qe_ID ev) Hnin) as [Heq|(e & t & He & Hc & Heq)].
      * exists x'. rewrite Heq. split_and!; [done..|]. intros Hrec. destruct (Hr Hrec) as [delay Hd]. exists delay. set_solver.
      * eexists. split; [exact Heq|]. by split.
    + destruct (B6 ev' Hin) as (x' & Hx' & Hp & Hr). exists x'. split_and!; [done..|].
      intros Hrec. destruct (Hr Hrec) as [delay Hd]. exists delay. set_solver.
  - intros j Hj. cbn in Hj. eapply replied_or_same_trans; [apply A7|apply B7]; cbn; set_solver.
Qed.

Lemma drain_drained evs s :
  healthy (hs_env s) → hs_gate s = false → NoDup (map qe_ID evs) → (∀ ev, ev ∈ evs → waiting (hs_db s) ev) →
  wpm (drain clock (productionTurn clock gated newRelay runner cwd) evs) (λ r s', r = Ok tt ∧ ∃ l, drained evs s s' l) s.
Proof.
  revert s. induction evs as [|ev evs IH]; intros s He Hg Hnd Hw; cbn [drain].
  { split; [done|]. exists []. split; try done; [by rewrite app_nil_r|by intros ev ?%elem_of_nil|]. intros j _. by left. }
  apply NoDup_cons in Hnd as [Hnin Hnd].
  apply wpm_bind, wph_liftE, wpe_ctx_idle; [done|]. intros e1 (He1 & Hd1 & Ht1). cbn beta iota.
  set (s1 := HState e1 _ _ _). assert (Hd : hs_db s1 = hs_db s) by exact Hd1.
  apply wpm_bind. eapply wpm_mono; [apply (dispatch_drained ev s1); [exact He1|exact Hg|rewrite Hd; apply Hw; by left]|].
  intros r s2 (-> & l1 & D1). eapply wpm_mono; [apply IH; [apply D1|apply D1|done|]|].
  - intros ev' Hin. eapply waiting_spared with (id := qe_ID ev); [| |apply Hw; by right].
    + intros Heq. apply Hnin. rewrite <-Heq. apply list_elem_of_In, in_map, list_elem_of_In, Hin.
    + rewrite <-Hd. intros j Hj. apply (dn_others _ _ _ _ D1). cbn. set_solver.
  - intros r s3 (-> & l2 & D2). split; [done|]. exists (l1 ++ l2).
    destruct (drained_step ev evs s1 s2 s3 l1 l2 Hnin D1 D2) as [A1 A2 A3 A4 A5 A6 A7].
    rewrite Hd in A7. split; try done. rewrite A4. cbn. by rewrite Ht1.
Qed.
End drained.

(** ** A restart, to the last drain *)

(** A schedule of turns over the queues: each thread's events in FIFO order,
    the threads interleaved at will. *)
Definition schedule (q : Queues) (evs : list QueuedEvent) : Prop :=
  ∀ t, List.filter (λ ev, String.eqb (qe_ThreadKey ev) t) evs = map en_event (pending_of t q).

(** An event the boot queued. *)
Definition booted (d : db) (ev : QueuedEvent) : Prop :=
  ∃ x, events d !! qe_ID ev = Some x ∧ er_status x = Received ∧ ev = scanQueuedEvent (qe_ID ev) x.

Definition booted_queue (d : db) (q : Queues) : Prop := ∀ t,
  pending_of t q = map (λ ev, Entry ev true)
    (List.filter (λ ev, bool_decide (qe_Status ev = Received) && String.eqb (qe_ThreadKey ev) t)
       (select_events (λ _ e, has_status [Received; Processing] e) d)).

Lemma booted_pending d q t : booted_queue d q → map en_event (pending_of t q)
  = List.filter (λ ev, bool_decide (qe_Status ev = Received) && String.eqb (qe_ThreadKey ev) t)
      (select_events (λ _ e, has_status [Received; Processing] e) d).
Proof. intros ->. rewrite map_map. apply map_id. Qed.

Lemma scheduled_in d q evs ev :
  booted_queue d q → schedule q evs → ev ∈ evs ↔ booted d ev.
Proof.
  intros Hq Hs.
  assert (Hin : ev ∈ evs ↔ In ev (List.filter (λ e, String.eqb (qe_ThreadKey e) (qe_ThreadKey ev)) evs)).
  { rewrite filter_In, String.eqb_refl, list_elem_of_In. tauto. }
  rewrite Hin, Hs, (booted_pending d q) by done. rewrite filter_In, String.eqb_refl, andb_true_r, bool_decide_eq_true.
  rewrite <-list_elem_of_In, elem_of_select_events. split.
  - intros [(x & Hx & _ & Heq) Hr]. exists x. split; [done|]. split; [|done]. by rewrite Heq in Hr.
  - intros (x & Hx & Hr & Heq). split; [|by rewrite Heq]. exists x. split; [done|]. split; [|done].
    apply has_status_true. rewrite Hr. by left.
Qed.

Lemma scheduled_NoDup d q evs : booted_queue d q → schedule q evs → NoDup (map qe_ID evs).
Proof.
  intros Hq Hs.
  assert (Hnd : ∀ t, NoDup (map qe_ID (List.filter (λ ev, String.eqb (qe_ThreadKey ev) t) evs))).
  { intros t. rewrite Hs, (booted_pending d q) by done.
    pose proof (select_events_sorted (λ _ e, has_status [Received; Processing] e) d) as Hsort.
    revert Hsort. generalize (select_events (λ _ e, has_status [Received; Processing] e) d). clear.
    induction 1 as [|x l _ IH Hall]; simpl; [constructor|]. destruct (_ && _); [|done]. simpl. constructor; [|done].
    intros (y & Hy & Hin)%list_elem_of_fmap. apply list_elem_of_In, filter_In in Hin as [Hin%list_elem_of_In _].
    rewrite Forall_forall in Hall. specialize (Hall y Hin). lia. }
  assert (Hbt : ∀ ev, ev ∈ evs → booted d ev) by (intros ev; by apply (scheduled_in d q)). clear Hq Hs.
  induction evs as [|ev evs IH]; [constructor|]. cbn. constructor.
  - intros (y & Hy & Hin)%list_elem_of_fmap. specialize (Hnd (qe_ThreadKey ev)). cbn in Hnd.
    rewrite String.eqb_refl in Hnd. cbn in Hnd. apply NoDup_cons in Hnd as [Hnin _]. apply Hnin, list_elem_of_fmap.
    exists y. split; [done|]. apply list_elem_of_In, filter_In. split; [by apply list_elem_of_In|]. apply String.eqb_eq.
    destruct (Hbt ev ltac:(by left)) as (x & Hx & _ & ->). destruct (Hbt y ltac:(by right)) as (x' & Hx' & _ & ->).
    cbn in Hy |- *. rewrite <-Hy in Hx'. by simplify_eq.
  - apply IH; [|intros ev' Hin; apply Hbt; by right]. intros t. specialize (Hnd t). cbn in Hnd.
    destruct (String.eqb _ _); [|done]. by apply NoDup_cons in Hnd as [_ ?].
Qed.

Lemma booted_waiting d d1 ev :
  store_inv d → booted_events d d1 → booted d ev → waiting d1 ev.
Proof.
  intros Hi Hb (x & Hx & Hr & Heq). destruct (Hb _ _ Hx) as (x1 & Hx1 & _ & Hsame).
  rewrite Hsame in Hx1 by congruence. assert (Ht : qe_ThreadKey ev = er_thread_key x) by by rewrite Heq.
  split; [by apply (qi_ids _ (inv_queue _ Hi) _ _ Hx)| |by exists x].
  rewrite Ht. apply (eo_thread _ (ei_ok _ (qi_rows _ (inv_queue _ Hi) _ x Hx))).
Qed.

Section restart.
Context {R : Type} `{turnRelayOk R}.
Context (clock : nat → Z) (gated : bool) (newRelay : option (string → option R)).
Context (runner : TurnRequest → EnvM (list string * result err unit)) (cwd : string).
Context (Hok : runner_ok runner) (Hwell : runner_well runner).

(** C6: a healthy restart comes to rest.  From the store after any history of
    calls under any failures: the boot succeeds, and whatever order the threads
    take their turns in (each thread's own events in receipt order), once the
    drains are through every queued event has had its turn: the engine ran for
    exactly the owner's readable messages, once each and in that order; no event
    is in processing; one that waits in received is waiting for a readmission
    this run scheduled; and no gate or claim is left behind. *)
Theorem restart_to_rest ops fs clock0 evs (s : hstate R) :
  let '(r, q) := Rebuild daemon_onPark clock0 [] (New (lived ops fs)) in
  healthy (hs_env s) → hs_gate s = false → hs_db s = q_db q → schedule q evs →
  let '(r', s') := drain clock (productionTurn clock gated newRelay runner cwd) evs s in
  r = Ok tt ∧ r' = Ok tt ∧ hs_gate s' = false ∧ hs_keys s' ⊆ hs_keys s
  ∧ ∃ l, env_trace (hs_env s') = env_trace (hs_env s) ++ l ∧ turns_of l = concat (map turns_for evs)
    ∧ ∀ i x', events (hs_db s') !! i = Some x' → er_status x' ≠ Processing
      ∧ (er_status x' = Received → ∃ ev delay, ev ∈ evs ∧ qe_ID ev = i ∧ FxReadmitAfter delay (requeued ev) ∈ l).
Proof.
  pose proof (lived_inv ops fs) as Hinv. set (d := lived ops fs) in *. clearbody d.
  destruct (boot_keeps clock0 d) as (q & Hboot & Hk).
  pose proof (Rebuild_spec daemon_onPark daemon_onPark_steps daemon_onPark_events clock0 [] d) as Hq.
  rewrite Hboot in *. destruct Hq as [Hb Hpend]. intros He Hg Hd Hs.
  pose proof (drain_drained clock gated newRelay runner cwd Hok Hwell evs s He Hg (scheduled_NoDup d q evs Hpend Hs)) as Hdr.
  unfold wpm in Hdr. destruct (drain _ _ evs s) as [r' s']. destruct Hdr as (-> & l & [_ D2 D3 D4 D5 D6 D7]).
  { intros ev Hin. rewrite Hd. apply (booted_waiting d); [done|exact Hb|]. by apply (scheduled_in d q evs). }
  split_and!; [done..|]. exists l. split_and!; [done..|]. intros i x' Hx'.
  destruct (decide (i ∈ map qe_ID evs)) as [(ev & -> & Hin)%list_elem_of_fmap|Hnin].
  - destruct (D6 ev Hin) as (y & Hy & Hp & Hr). rewrite Hx' in Hy. injection Hy as <-. split; [done|].
    intros Hrec. destruct (Hr Hrec) as [delay Hdel]. by exists ev, delay.
  - destruct (D7 i Hnin) as [Hsame|(e & t & _ & _ & Heq)]; [|rewrite Hx' in Heq; by injection Heq as ->].
    rewrite Hx', Hd in Hsame. pose proof (nt_threads _ _ Hk i) as Hth. rewrite <-Hsame in Hth. simpl in Hth.
    destruct (events d !! i) as [x|] eqn:Hx; [|done]. destruct (Hb i x Hx) as (x1 & Hx1 & Hp & Hn).
    rewrite <-Hsame in Hx1. injection Hx1 as <-. destruct (decide (er_status x = Processing)) as [Hpr|Hnp].
    + destruct (Hp Hpr) as [Hi _]. rewrite Hi. done.
    + rewrite (Hn Hnp). split; [done|]. intros Hrec. exfalso. apply Hnin, list_elem_of_fmap.
      exists (scanQueuedEvent i x). split; [done|]. apply (scheduled_in d q evs); [exact Hpend|done|]. by exists x.
Qed.
End restart.

#[local] Existing Instance talk_relay.
#[local] Existing Instance talk_relay_ok.

(** A daemon that died before it ran the one message it had received. *)
Definition rest_boot : Queues := (Rebuild daemon_onPark (λ _, 9) [] (New (lived (firstn 1 demo_ops) []))).2.
Definition rest_event : QueuedEvent := scanQueuedEvent 1 (received_row demo_event).
Definition rest_state : hstate dstate := HState (healthy_env (q_db rest_boot)) ∅ false None.
Definition rest_run : result err unit * hstate dstate :=
  drain (λ _, 9) (productionTurn (λ _, 9) true (Some fresh_dstate) talking "/home") [rest_event] rest_state.

Lemma rest_schedule : schedule rest_boot [rest_event].
Proof.
  intros t. assert (Hq : q_pending rest_boot = {["discord:dm:7"%string := [Entry rest_event true]]})
    by (vm_compute; reflexivity).
  unfold pending_of. rewrite Hq. cbn [List.filter]. change (qe_ThreadKey rest_event) with "discord:dm:7"%string.
  destruct (String.eqb_spec "discord:dm:7" t) as [<-|Hne].
  - by rewrite lookup_singleton_eq.
  - by rewrite lookup_singleton_ne by (intros Heq; by apply Hne).
Qed.

Lemma restart_to_rest_witness :
  rest_run.1 = Ok tt ∧ er_status <$> events (hs_db rest_run.2) !! 1 = Some Replied
  ∧ ∃ l, env_trace (hs_env rest_run.2) = l ∧ turns_of l = turns_for rest_event.
Proof.
  pose proof (restart_to_rest (λ _, 9) true (Some fresh_dstate) talking "/home" talking_ok talking_well
    (firstn 1 demo_ops) [] (λ _, 9) [rest_event] rest_state) as H.
  destruct (Rebuild daemon_onPark (λ _, 9) [] (New (lived (firstn 1 demo_ops) []))) as [r q] eqn:Hq.
  assert (Hq' : rest_boot = q) by (unfold rest_boot; by rewrite Hq). subst q.
  specialize (H (conj eq_refl (conj eq_refl eq_refl)) eq_refl eq_refl rest_schedule).
  split; [|split; [vm_compute; reflexivity|]]; unfold rest_run; destruct (drain _ _ _ _) as [r' s'];
    destruct H as (_ & Hr & _ & _ & l & Hl & Ht & _); [exact Hr|].
  exists l. split; [exact Hl|]. rewrite Ht. cbn. apply app_nil_r.
Defined.
