(* ===== verification/Daemon.v ===== *)
(** * The daemon's life (src/internal/cli/daemon.go)

    [runDaemon] is a straight line of phases, each of which can refuse the
    boot, then a wait for Serve, then the shutdown.  The phases call the
    modelled parts: config's Parse, the adapter's and the engine's validation,
    the identities sync, the router's Rebuild.  What the machine answers (the
    lock, files, the version probe, the store file, the gateway, the socket) is
    a [machine]; what the running daemon does between Rebuild and the drain is
    its [mc_serving].  A panic that escapes the main
    goroutine may come after any phase.  Logging is not modelled. *)
From Stdlib Require Import SpecFloat.
From S2P Require Import Prelude Paths Utf8 Migrate StoreOpen Trust Schema Events DeadLetters Identities Turns.
From S2P Require Import StoreSpec StoreOps Config Engine Router Event Ingest Gateway SessionManager Admin.
Local Open Scope Z_scope.

(** ** Layout *)

(** $APPROACH_HOME/state, else ~/approach/state, else a relative directory. *)
Definition defaultStateDir (approachHome : string) (userHome : option string) : string :=
  if negb (empty approachHome) then Join [approachHome; "state"%string]
  else match userHome with
       | None => "state"
       | Some home => Join [home; "approach"; "state"]
       end%string.

Definition socket_path (state : string) : string := Join [state; "approach.sock"%string].

(** The state directory's parent: the root sessions run in, and where the
    defaulted configuration lives. *)
Definition home_of (state : string) : string := Dir (Clean state).

Definition config_path (path state : string) : string :=
  if empty path then Join [home_of state; "approach.toml"%string] else path.

(** ** Startup checks *)

Inductive file_answer : Type :=
| FileMissing
| FileUnreadable
| FileText (data : string).

Inductive load_error : Type :=
| LoadMissing
| LoadUnreadable
| LoadInvalid (problems : list problem).

Section checks.
Context (decode : string → Config.Config → option (Config.Config * MetaData)).
Context (read : string → file_answer).

(** config.Load *)
Definition Load (path : string) : result load_error Config.Config :=
  match read path with
  | FileMissing => Err LoadMissing
  | FileUnreadable => Err LoadUnreadable
  | FileText data =>
      match Config.Parse decode data with
      | Ok c => Ok c
      | Err ps => Err (LoadInvalid ps)
      end
  end.

(** Only the defaulted path may be absent: [Ok None] enrols nobody. *)
Definition loadDaemonConfig (path state : string) : result load_error (option Config.Config) :=
  match Load (config_path path state) with
  | Ok c => Ok (Some c)
  | Err LoadMissing => if empty path then Ok None else Err LoadMissing
  | Err e => Err e
  end.

Definition read_data (path : string) : option string :=
  match read path with FileText data => Some data | _ => None end.

(** The discord channel with a credential, if there is one. *)
Definition discord_channel (cfg : option Config.Config) : option Channel :=
  match cfg with
  | None => None
  | Some c =>
      match cf_Channels c !! "discord"%string with
      | None => None
      | Some ch => if empty (ch_TokenFile ch) then None else Some ch
      end
  end.

(** The credential read and the adapter built from it; [session]: discordgo
    built a session. *)
Definition build_adapter (session : bool) (ch : Channel) : result string unit :=
  match ReadToken (read_data (ch_TokenFile ch)) with
  | Err e => Err e
  | Ok token => NewAdapter token true true session
  end.

Definition validateDiscordAdapter (session : bool) (cfg : option Config.Config) : result string unit :=
  match discord_channel cfg with
  | None => Ok tt
  | Some ch => build_adapter session ch
  end.

(** newDiscordRunner: the adapter, or nothing to run. *)
Definition newDiscordRunner (session : bool) (cfg : option Config.Config)
    : result string (option string) :=
  match discord_channel cfg with
  | None => Ok None
  | Some ch =>
      match build_adapter session ch with
      | Err e => Err e
      | Ok _ => Ok (Some (ch_Auth ch))
      end
  end.

Definition verifyEnginePin (probe : string → bool * list (list Z)) (cfg : option Config.Config)
    : result string unit :=
  match cfg with
  | None => Ok tt
  | Some c =>
      match Config.cf_Engine c with
      | None => Ok tt
      | Some e => VerifyVersion (en_Bin e) (en_Version e) (probe (en_Bin e))
      end
  end.
End checks.

(** ** Identities *)

Definition store_identity (id : ConfIdentity) : Identity :=
  MkIdentity (ci_Channel id) (ci_NativeID id) (ci_Trust id) (ci_OwnerID id) (ci_Label id).

Definition seed_rows (cfg : option Config.Config) : list Identity :=
  match cfg with None => [] | Some c => map store_identity (cf_Identities c) end.

Definition seedIdentities (cfg : option Config.Config) : StoreM unit := SeedIdentities (seed_rows cfg).

(** ** Wiring *)

(** The engine configuration the daemon derives. *)
Definition engine_config (c : Config.Config) (e : Engine) : EngineConfig :=
  MkEngineConfig (en_Bin e) (mo_Message (cf_Models c)) (en_MaxTurns e) (en_TurnTimeout e)
    (Some record_turn).

Definition manager_config (c : Config.Config) : SessionManager.Config :=
  SessionManager.MkConfig 0 (se_IdleTTL (Config.cf_Sessions c)) (se_TurnCap (Config.cf_Sessions c)).

(** What turns run with; [None]: the dormant handler, placeholderTurn. *)
Record wiring : Type := MkWiring {
  wi_pin : EnginePin;
  wi_manager : Manager;
  wi_cwd : string;
}.

Definition wire (state : string) (cfg : option Config.Config) : result string (option wiring) :=
  match cfg with
  | None => Ok None
  | Some c =>
      match Config.cf_Engine c with
      | None => Ok None
      | Some e =>
          match NewEngine (engine_config c e) with
          | Err x => Err x
          | Ok pin => Ok (Some (MkWiring pin (NewManager (manager_config c)) (home_of state)))
          end
      end
  end.

(** ** The life *)

Inductive phase : Type :=
| PhLocked
| PhConfig (cfg : option Config.Config)
| PhValidated
| PhPinned
| PhOpened
| PhSeeded
| PhWired (w : option wiring)
| PhRebuilt
| PhAdapter (auth : option string)
| PhServed
| PhAdapterDone
| PhPumpDone
| PhDrained
| PhStoreClosed
| PhUnlocked.

Inductive open_answer : Type := OpenOk | OpenTooNew | OpenFailed.

(** errors.Is(err, store.ErrSchemaTooNew), through every join. *)
Definition open_outcome (r : result open_err unit) : open_answer :=
  match r with Ok _ => OpenOk | Err (OMigrate MTooNew) => OpenTooNew | Err _ => OpenFailed end.

Record machine : Type := MkMachine {
  mc_lock : string → bool;
  mc_read : string → file_answer;            (* before the store opens *)
  mc_read_late : string → file_answer;       (* when the adapter is built *)
  mc_session : bool;
  mc_session_late : bool;
  mc_probe : string → bool * list (list Z);
  mc_open : result open_err unit;            (* store.Open *)
  mc_seed_faults : list bool;
  mc_rebuild_faults : list bool;
  mc_clock : nat → Z;
  mc_serving : Queues → Queues;
  mc_gateway : list answers;
  mc_serve_failed : bool;
  mc_panic : nat → bool;                     (* a panic escapes after that many phases *)
}.

Definition opened (m : machine) : open_answer := open_outcome (mc_open m).

(** The database, the queues once they are rebuilt, and the phases reached. *)
Record life : Type := Life {
  lf_db : db;
  lf_queues : option Queues;
  lf_phases : list phase;
}.

(** A boot step; an error is the exit code it ends the daemon with. *)
Definition Boot (A : Type) : Type := M life Z A.
#[global] Instance Boot_ret : MRet Boot := λ A, @M_ret life Z A.
#[global] Instance Boot_bind : MBind Boot := λ A B, @M_bind life Z A B.

(** [if err != nil { return code }] *)
Definition must {E A} (code : Z) (r : result E A) : Boot A := λ l,
  (match r with Ok a => Ok a | Err _ => Err code end, l).

(** Go's defer, for a function that notes a phase. *)
Definition deferred {A} (m : Boot A) (p : phase) : Boot A := λ l,
  let '(r, l') := m l in (r, Life (lf_db l') (lf_queues l') (lf_phases l' ++ [p])).

Definition exitUnrecoverable : Z := 3.

Section daemon.
Context (decode : string → Config.Config → option (Config.Config * MetaData)) (m : machine).

Definition note (p : phase) : Boot unit := λ l,
  (Ok tt, Life (lf_db l) (lf_queues l) (lf_phases l ++ [p])).

(** A panic of the main goroutine here unwinds through the deferred calls and is
    recovered by runDaemon, as an exit code. *)
Definition panics : Boot unit := λ l, (if mc_panic m (length (lf_phases l)) then Err 1 else Ok tt, l).

Definition reached (p : phase) : Boot unit := _ ← note p; panics.

Definition open_store : Boot unit :=
  match opened m with
  | OpenOk => note PhOpened
  | OpenTooNew => fail exitUnrecoverable
  | OpenFailed => fail 1
  end.

(** A store call of the boot, its faults given. *)
Definition boot_store {A} (code : Z) (call : StoreM A) (faults : list bool) : Boot A := λ l,
  let '(r, w) := call (World (lf_db l) faults) in
  (match r with Ok a => Ok a | Err _ => Err code end, Life (w_db w) (lf_queues l) (lf_phases l)).

Definition rebuild : Boot unit := λ l,
  let '(r, q) := Rebuild daemon_onPark (mc_clock m) (mc_rebuild_faults m) (New (lf_db l)) in
  (match r with Ok a => Ok a | Err _ => Err 1 end, Life (q_db q) (Some q) (lf_phases l)).

(** The daemon serves; Serve returned, or the adapter's end cancelled it. *)
Definition serving : Boot unit := λ l,
  match lf_queues l with
  | Some q => let q' := mc_serving m q in (Ok tt, Life (q_db q') (Some q') (lf_phases l))
  | None => (Ok tt, l)
  end.

(** The adapter's Run ended for good, if there was an adapter. *)
Definition adapter_terminated (auth : option string) : bool :=
  match auth with
  | None => false
  | Some _ => match snd (Gateway.Run 0 (mc_gateway m)) with Some ExitTerminal => true | _ => false end
  end.

(** From the open store to the drained queues. *)
Definition store_life (state : string) (cfg : option Config.Config) : Boot unit :=
  _ ← panics;
  _ ← boot_store 1 (seedIdentities cfg) (mc_seed_faults m);
  _ ← reached PhSeeded;
  w ← must exitUnrecoverable (wire state cfg);
  _ ← reached (PhWired w);
  _ ← rebuild;
  _ ← reached PhRebuilt;
  auth ← must exitUnrecoverable (newDiscordRunner (mc_read_late m) (mc_session_late m) cfg);
  _ ← reached (PhAdapter auth);
  _ ← serving;
  _ ← reached PhServed;
  _ ← reached PhAdapterDone;
  _ ← reached PhPumpDone;
  _ ← reached PhDrained;
  if adapter_terminated auth then fail exitUnrecoverable
  else if mc_serve_failed m then fail 1
  else mret tt.

(** Under the daemon's lock. *)
Definition locked_life (path state : string) : Boot unit :=
  _ ← panics;
  cfg ← must 1 (loadDaemonConfig decode (mc_read m) path state);
  _ ← reached (PhConfig cfg);
  _ ← must exitUnrecoverable (validateDiscordAdapter (mc_read m) (mc_session m) cfg);
  _ ← reached PhValidated;
  _ ← must exitUnrecoverable (verifyEnginePin (mc_probe m) cfg);
  _ ← reached PhPinned;
  _ ← open_store;
  deferred (store_life state cfg) PhStoreClosed.

Definition daemon_life (path state : string) : Boot unit :=
  _ ← panics;
  if mc_lock m (socket_path state) then
    _ ← note PhLocked;
    deferred (locked_life path state) PhUnlocked
  else fail 1.

Definition exit_code (r : result Z unit) : Z := match r with Ok _ => 0 | Err code => code end.

(** The command: its exit code, and the life it led from the database it
    found. *)
Definition runDaemon (stateDefault : string) (args : list string) (d : db) : Z * life :=
  match parse_flags (length args) ["state"; "config"]%string [] args with
  | Some (set, []) =>
      let '(r, l) := daemon_life (flag_value set "config" "") (flag_value set "state" stateDefault)
                       (Life d None []) in
      (exit_code r, l)
  | _ => (2, Life d None [])
  end.
End daemon.

(** ** The admin hooks *)

(** Queues.Readmit, run when no other ingest holds the thread's shard. *)
Definition readmit (ev : QueuedEvent) (q : Queues) : option Queues :=
  let pid := fresh (dom (q_ingest q)) in
  q1 ← Readmit_lock pid ev q;
  q2 ← ingest_enqueue pid q1;
  ingest_unlock pid q2.

Section hooks.
(** What the other goroutines do until the thread's shard is free, the clock,
    and the faults the call meets. *)
Context (settle : string → Queues → Queues) (now : Z) (fs : list bool).

Definition not_ready : err := EInvalid "daemon still starting".

(** OnRetry and OnDeadRequeue: the durable move, then the readmission. *)
Definition requeue_hook (call : Z → Z → StoreM QueuedEvent) (id : Z)
    : hook (option Queues) (result err unit) :=
  λ d, match d with
       | None => (Some (Err not_ready), d)
       | Some q =>
           let '(r, w) := call id now (World (q_db q) fs) in
           let q := Router.set_db (w_db w) q in
           match r with
           | Err e => (Some (Err e), Some q)
           | Ok ev =>
               let q := settle (qe_ThreadKey ev) q in
               (Some (Ok tt), Some (default q (readmit ev q)))
           end
       end.

Definition discard_hook (id : Z) : hook (option Queues) (result err unit) :=
  λ d, match d with
       | None => (Some (Err not_ready), d)
       | Some q =>
           let '(r, w) := ResolveDeadLetterDiscard id (World (q_db q) fs) in
           (Some r, Some (Router.set_db (w_db w) q))
       end.

(** The options but for the poke counter, which [counting] adds; the marshalling
    of the status fields is not modelled. *)
Definition daemon_options (status : hook (option Queues) (option string)) : Options (option Queues) :=
  MkOptions (Some (λ d, (Some tt, d))) (Some status) (Some (requeue_hook RequeueInterruptedEvent))
    (Some (requeue_hook ResolveDeadLetterRequeue)) (Some discard_hook).
End hooks.

(** pokes, an atomic.Int64 beside the state the other hooks run on. *)
Definition beside {D A} (h : hook D A) : hook (Z * D) A := λ s,
  let '(a, d) := h s.2 in (a, (s.1, d)).
Definition poke : hook (Z * option Queues) unit := λ s, (Some tt, (wrap64 (s.1 + 1), s.2)).
Definition counting (status : Z → hook (option Queues) (option string)) (opts : Options (option Queues))
    : Options (Z * option Queues) :=
  MkOptions (Some poke) (Some (λ s, beside (status s.1) s))
    (option_map (λ f id, beside (f id)) (OnRetry opts)) (option_map (λ f id, beside (f id)) (OnDeadRequeue opts))
    (option_map (λ f id, beside (f id)) (OnDeadDiscard opts)).

(** ** The spend checklist *)

Record spend_fields : Type := MkSpendFields {
  sf_today_usd : float64;
  sf_today_turns : Z;
  sf_unknown_usage : Z;
  sf_alarm : option (float64 * bool);      (* the threshold, and whether it is reached *)
}.

(** spendStatus's fields, [None] for spend_error. [midnight]: the local day's
    first second. *)
Definition spendStatus (sum : list float64 → float64) (alarmUSD : float64) (midnight now : Z)
    : StoreM (option spend_fields) :=
  spend ← try (DailySpend sum midnight (now + 1));
  match spend with
  | Err _ => mret None
  | Ok s =>
      mret (Some (MkSpendFields (sp_KnownUSD s) (sp_Turns s) (sp_UnknownTurns s)
        (if SFltb f64_zero alarmUSD then Some (alarmUSD, SFleb alarmUSD (sp_KnownUSD s)) else None)))
  end.

(** ** The phases of a life *)

(** Every phase, in the order of the code. *)
Definition full_life (cfg : option Config.Config) (w : option wiring) (auth : option string) : list phase :=
  [PhLocked; PhConfig cfg; PhValidated; PhPinned; PhOpened; PhSeeded; PhWired w; PhRebuilt;
   PhAdapter auth; PhServed; PhAdapterDone; PhPumpDone; PhDrained].

(** What is released after the [k]th: the store, then the lock. *)
Definition releases (k : nat) : list phase :=
  (if Nat.leb 5 k then [PhStoreClosed] else []) ++ (if Nat.leb 1 k then [PhUnlocked] else []).

(** The exit code of a life that got as far as the [k]th phase. *)
Definition stop_code (m : machine) (auth : option string) (k : nat) (code : Z) : Prop :=
  mc_panic m k = true ∧ code = 1
  ∨ match k with
  | 0%nat => code = 2 ∨ code = 1
  | 1%nat | 5%nat | 7%nat => code = 1
  | 2%nat | 3%nat | 8%nat => code = exitUnrecoverable
  | 4%nat => opened m = OpenTooNew ∧ code = exitUnrecoverable ∨ opened m = OpenFailed ∧ code = 1
  | 13%nat => code = if adapter_terminated m auth then exitUnrecoverable
                     else if mc_serve_failed m then 1 else 0
  | _ => False
  end.

(** ** Lemmas *)

(** A valid engine section always constructs. *)
Lemma wire_valid state c : config_ok c → ∃ w, wire state (Some c) = Ok w.
Proof.
  intros Hc. unfold wire. destruct (Config.cf_Engine c) as [e|] eqn:He; [|eauto].
  destruct (fo_engine c Hc e He) as [[Hb Ha] _ Hm Ht _ _]. unfold NewEngine, engine_config.
  cbn [ec_Bin ec_Model ec_MaxTurns ec_TurnTimeout ec_RecordTurn].
  rewrite (proj2 (empty_false_iff _) Hb), Ha, (proj2 (empty_false_iff _) (proj1 (fo_models c Hc))),
    (proj2 (Z.ltb_ge _ _)) by done.
  rewrite (proj2 (Z.leb_gt _ _)) by (unfold time_Second in *; lia). simpl. eauto.
Qed.

Lemma with_matrix_ok c : config_ok c → config_ok (with_matrix (mergeMatrix (cf_Matrix c)) c).
Proof.
  intros Hc. pose proof Hc as [H1 H2 H3 H4 H5 H6 H7]. split; try done.
  intros capability row Hr. split; [by apply (matrix_total c capability Hc); exists row|].
  intros column _. by apply (matrix_known c capability row column Hc Hr).
Qed.

Lemma Parse_valid decode doc c : Config.Parse decode doc = Ok c → config_ok c.
Proof. intros (c0 & md & _ & _ & _ & _ & Hc & ->)%Parse_Ok. by apply with_matrix_ok. Qed.

Lemma load_valid decode read path state c :
  loadDaemonConfig decode read path state = Ok (Some c) → config_ok c.
Proof.
  unfold loadDaemonConfig, Load. destruct (read _) as [| |data]; [by destruct (empty path)|done|].
  destruct (Config.Parse decode data) as [c'|] eqn:Hp; [|done]. intros [= ->]. by eapply Parse_valid.
Qed.

(** What a life has done when it stops after its [k]th phase. *)
Definition stopped (decode : string → Config.Config → option (Config.Config * MetaData)) (m : machine)
    (path state : string) (d : db) (r : result Z unit) (l : life) : Prop :=
  ∃ k cfg w auth,
    lf_phases l = take k (full_life cfg w auth) ++ releases k
    ∧ stop_code m auth k (exit_code r)
    ∧ ((k < 5)%nat → lf_db l = d ∧ lf_queues l = None)
    ∧ ((2 ≤ k)%nat → loadDaemonConfig decode (mc_read m) path state = Ok cfg)
    ∧ ((3 ≤ k)%nat → validateDiscordAdapter (mc_read m) (mc_session m) cfg = Ok tt)
    ∧ ((4 ≤ k)%nat → verifyEnginePin (mc_probe m) cfg = Ok tt)
    ∧ ((5 ≤ k)%nat → opened m = OpenOk)
    ∧ ((7 ≤ k)%nat → wire state cfg = Ok w)
    ∧ ((9 ≤ k)%nat → newDiscordRunner (mc_read_late m) (mc_session_late m) cfg = Ok auth).

Ltac boot := cbv [mbind Boot_bind M_bind mret Boot_ret M_ret fail].
Ltac stops_at k cfg w auth :=
  exists k, cfg, w, auth; split_and!;
  first [done|intros; lia|intros; done|left; split; done|right; by right|right; by left|by right|auto].

(** The life panics here or goes on. *)
Ltac may_panic k cfg w auth :=
  unfold panics at 1; boot; cbn [lf_db lf_queues lf_phases app length];
  destruct (mc_panic _ k) eqn:?; [by stops_at k cfg w auth|].
Ltac next_phase k cfg w auth := unfold reached at 1, note at 1; boot; may_panic k cfg w auth.

Lemma daemon_life_stopped decode m path state d :
  let '(r, l) := daemon_life decode m path state (Life d None []) in stopped decode m path state d r l.
Proof.
  unfold daemon_life. boot. may_panic 0%nat (@None Config.Config) (@None wiring) (@None string).
  destruct (mc_lock m _); [|by stops_at 0%nat (@None Config.Config) (@None wiring) (@None string)].
  unfold deferred, locked_life, note at 1. boot. may_panic 1%nat (@None Config.Config) (@None wiring) (@None string).
  unfold must at 1. destruct (loadDaemonConfig decode (mc_read m) path state) as [cfg|] eqn:Hcfg;
    [|by stops_at 1%nat (@None Config.Config) (@None wiring) (@None string)].
  next_phase 2%nat cfg (@None wiring) (@None string).
  unfold must at 1. destruct (validateDiscordAdapter _ _ cfg) as [[]|] eqn:Hval;
    [|by stops_at 2%nat cfg (@None wiring) (@None string)].
  next_phase 3%nat cfg (@None wiring) (@None string).
  unfold must at 1. destruct (verifyEnginePin _ cfg) as [[]|] eqn:Hpin;
    [|by stops_at 3%nat cfg (@None wiring) (@None string)].
  next_phase 4%nat cfg (@None wiring) (@None string). unfold open_store.
  destruct (opened m) eqn:Hopen; [|by stops_at 4%nat cfg (@None wiring) (@None string)..].
  unfold note at 1, deferred, store_life. boot. may_panic 5%nat cfg (@None wiring) (@None string).
  unfold boot_store at 1. destruct (seedIdentities cfg _) as [[[]|] w1];
    [|by stops_at 5%nat cfg (@None wiring) (@None string)].
  next_phase 6%nat cfg (@None wiring) (@None string).
  unfold must at 1. destruct (wire state cfg) as [w|x] eqn:Hw.
  2:{ exfalso. destruct cfg as [c|]; [|done].
      destruct (wire_valid state c) as [w Hw']; [by eapply load_valid|congruence]. }
  next_phase 7%nat cfg w (@None string).
  unfold rebuild at 1. destruct (Rebuild _ _ _ _) as [[[]|] q];
    [|by stops_at 7%nat cfg w (@None string)].
  next_phase 8%nat cfg w (@None string).
  unfold must at 1. destruct (newDiscordRunner _ _ cfg) as [auth|x] eqn:Hrun;
    [|by stops_at 8%nat cfg w (@None string)].
  next_phase 9%nat cfg w auth. unfold serving at 1. cbn [lf_queues].
  next_phase 10%nat cfg w auth. next_phase 11%nat cfg w auth. next_phase 12%nat cfg w auth.
  next_phase 13%nat cfg w auth.
  destruct (adapter_terminated m auth) eqn:Ha; [|destruct (mc_serve_failed m) eqn:Hs];
    exists 13%nat, cfg, w, auth; split_and!;
    first [done|intros; lia|intros; done|right; cbn; rewrite ?Ha, ?Hs; done|auto].
Qed.

(** *** The seeded identities *)

Definition ident_key (i : Identity) : string * string := (idn_Channel i, idn_NativeID i).

Lemma insert_identities_valid ids : ∀ m d,
  Forall (λ i, ident_check (ident_of i) = true) ids → NoDup (map ident_key ids) →
  (∀ i, i ∈ ids → m !! ident_key i = None) →
  wpd (insert_identities ids) (λ r _, ∀ x, r = Err x → x = EIO) (set_identities m d).
Proof.
  induction ids as [|i ids IH]; intros m d Hc Hk Hf; cbn [insert_identities]; [by wpd_step|].
  apply Forall_cons in Hc as [Hi Hc]. cbn [map] in Hk. apply NoDup_cons in Hk as [Hni Hk].
  wpd_step. wpd_step; [by intros x [= <-]|]. unfold insert_identity. rewrite Hi. cbn [negb].
  change (identities (set_identities m d) !! (idn_Channel i, idn_NativeID i)) with (m !! ident_key i).
  rewrite (Hf i) by (by left). apply (IH (<[ident_key i := ident_of i]> m) d); [done|done|].
  intros j Hj. rewrite lookup_insert_ne; [apply Hf; by right|]. intros Heq. destruct Hni. rewrite Heq.
  by apply list_elem_of_fmap_2.
Qed.

(** Valid rows are refused by a failing statement only. *)
Lemma SeedIdentities_valid ids d :
  Forall (λ i, ident_check (ident_of i) = true) ids → NoDup (map ident_key ids) →
  wpd (SeedIdentities ids) (λ r _, ∀ x, r = Err x → x = EIO) d.
Proof.
  intros Hc Hk. unfold SeedIdentities. wpd_step; [by intros x [= <-]|].
  wpd_step. wpd_step; [by intros x [= <-]|]. wpd_step.
  eapply wpd_mono; [by apply (insert_identities_valid ids ∅ d)|].
  intros [u|x] d' H; [by wpd_step|]. intros y Hy. by apply H.
Qed.

Lemma store_identity_check channels id :
  identity_ok channels id → ident_check (ident_of (store_identity id)) = true.
Proof.
  intros [_ Ht _]. unfold ident_check, ident_of, nullif_empty. cbn.
  destruct Ht as [[-> Ho]|[-> ->]]; [|done].
  rewrite !(bool_decide_false (ci_OwnerID id = ""%string)) by done. done.
Qed.

Lemma seed_rows_keys c : map ident_key (seed_rows (Some c)) = map identity_key (cf_Identities c).
Proof. cbn [seed_rows]. rewrite map_map. by apply map_ext. Qed.

(** The level the configuration declares for a sender. *)
Definition declared (c : Config.Config) (channel nativeID : string) : Level :=
  match List.find (λ id, bool_decide (identity_key id = (channel, nativeID))) (cf_Identities c) with
  | Some id => ci_Trust id
  | None => Untrusted
  end.

Lemma declared_stored (c : Config.Config) (m : gmap (string * string) ident_row) (channel nativeID : string) :
  config_ok c →
  (∀ key row, m !! key = Some row ↔ ∃ i, i ∈ seed_rows (Some c) ∧ key = ident_key i ∧ row = ident_of i) →
  stored_level (m !! (channel, nativeID)) = declared c channel nativeID
  ∧ ∀ x, m !! (channel, nativeID) = Some x → ans_err (judge_row x) = None.
Proof.
  intros Hc Hm. unfold declared.
  assert (Hjudge : ∀ id, id ∈ cf_Identities c →
    judge_row (ident_of (store_identity id)) = MkAnswer (ci_Trust id) None).
  { intros id Hin. pose proof (fo_identities c Hc) as Hall. rewrite Forall_forall in Hall.
    destruct (Hall id Hin) as [_ Ht _]. unfold judge_row, ident_of, nullif_empty. cbn.
    destruct Ht as [[-> Ho]|[-> ->]]; [|done].
    rewrite (bool_decide_false (ci_OwnerID id = ""%string)) by done. cbv zeta.
    change (Trust.Parse "owner") with (@Ok string _ Owner). cbv iota beta.
    by rewrite (bool_decide_false (ci_OwnerID id = ""%string)) by done. }
  assert (Hrow : ∀ id, id ∈ cf_Identities c → identity_key id = (channel, nativeID) →
    m !! (channel, nativeID) = Some (ident_of (store_identity id))).
  { intros id Hin Hk. apply Hm. exists (store_identity id). split_and!; [by apply list_elem_of_fmap_2|done|done]. }
  destruct (List.find _ _) as [id|] eqn:Hf.
  - apply find_some in Hf as [Hin%list_elem_of_In Hk%bool_decide_eq_true].
    rewrite (Hrow id Hin Hk). cbn [stored_level]. rewrite (Hjudge id Hin). split; [done|].
    intros x [= <-]. by rewrite (Hjudge id Hin).
  - destruct (m !! (channel, nativeID)) as [x|] eqn:Hx; [|done]. exfalso.
    apply Hm in Hx as (i & Hi & Hk & _). apply list_elem_of_fmap in Hi as (id & -> & Hin).
    pose proof (find_none _ _ Hf id) as Hn. apply bool_decide_eq_false in Hn; [|by apply list_elem_of_In].
    by destruct Hn.
Qed.

(** On a valid configuration the channel's clamp changes no declared level. *)
Lemma stamp_declared c name ch nativeID :
  config_ok c → cf_Channels c !! name = Some ch →
  Stamp (ch_Auth ch) (declared c name nativeID)
  = MkStamped (declared c name nativeID) (ReadOnly ch) (MayApprove ch)
  ∧ rank (declared c name nativeID) ≤ rank (MaxTrust ch).
Proof.
  intros Hc Hch. pose proof (co_auth _ _ (fo_channels c Hc name ch Hch)) as Ha.
  assert (Hl : declared c name nativeID = Untrusted ∨ declared c name nativeID = Known
    ∨ declared c name nativeID = Owner ∧ ch_Auth ch ≠ "weak"%string).
  { unfold declared. destruct (List.find _ _) as [id|] eqn:Hf; [|by left].
    apply find_some in Hf as [Hin%list_elem_of_In Hk%bool_decide_eq_true].
    pose proof (fo_identities c Hc) as Hall. rewrite Forall_forall in Hall.
    destruct (Hall id Hin) as [_ Ht (ch' & Hch' & Hw)]. injection Hk as Hk1 Hk2.
    rewrite Hk1, Hch in Hch'. injection Hch' as <-.
    destruct Ht as [[Ht _]|[Ht _]]; rewrite Ht; auto. }
  unfold ReadOnly, MayApprove, MaxTrust, Stamp.
  destruct Ha as [Ha|Ha]; rewrite Ha in *;
    destruct Hl as [-> | [-> | [-> Hn]]]; split; first [done|vm_compute; done].
Qed.

(** *** The manual verbs *)

Definition requeued (from : ev_status) (id now : Z) (d : db) (r : result err QueuedEvent) (d' : db) : Prop :=
  rtc astep d d'
  ∧ match r with
    | Err _ => d' = d
    | Ok ev => ∃ e, events d !! id = Some e ∧ er_status e = from
        ∧ ev = scanQueuedEvent id (event_status_upd Received now e)
        ∧ events d' = <[id := event_status_upd Received now e]> (events d)
    end.

Lemma upd_event_one id st now d n d' :
  upd_event id (has_status [st]) (event_status_upd Received now) d = (n, d') →
  (n = 0 ∧ d' = d)
  ∨ ∃ e, n = 1 ∧ events d !! id = Some e ∧ er_status e = st
      ∧ d' = set_events (<[id := event_status_upd Received now e]> (events d)) d.
Proof.
  unfold upd_event. destruct (events d !! id) as [e|]; [|by intros [= <- <-]; left].
  destruct (has_status [st] e) eqn:Hs; intros [= <- <-]; [right|by left].
  exists e. split_and!; try done. unfold has_status in Hs. apply bool_decide_eq_true in Hs.
  by apply list_elem_of_singleton in Hs.
Qed.

Lemma RequeueInterruptedEvent_wpd id now d :
  wpd (RequeueInterruptedEvent id now) (requeued Interrupted id now d) d.
Proof.
  apply wpd_conj; [apply RequeueInterruptedEvent_steps|]. unfold RequeueInterruptedEvent.
  wpd_step; [done|]. wpd_step. wpd_step; [done|].
  apply upd_event_one in H as [[-> ->]|(e & -> & He & Hs & ->)]; cbn [Z.eqb].
  - wpd_step. wpd_step; [done|]. by destruct (events d !! id).
  - wpd_step. wpd_step; [done|]. cbn [events set_events]. rewrite lookup_insert_eq.
    wpd_step. exists e. by split_and!.
Qed.

Lemma ResolveDeadLetterRequeue_wpd id now d :
  wpd (ResolveDeadLetterRequeue id now) (requeued Dead id now d) d.
Proof.
  apply wpd_conj; [apply ResolveDeadLetterRequeue_steps|]. unfold ResolveDeadLetterRequeue.
  wpd_step; [done|]. wpd_step. wpd_step; [done|]. wpd_step; [by wpd_step|].
  assert (He0 : events d' = events d) by (unfold upd_dead in H; by repeat case_match; simplify_eq).
  wpd_step. wpd_step; [done|].
  apply upd_event_one in H0 as [[-> ->]|(e & -> & He & Hs & ->)]; cbn [Z.eqb]; [by wpd_step|].
  wpd_step. wpd_step; [done|]. cbn [events set_events]. rewrite lookup_insert_eq.
  wpd_step. exists e. rewrite <-He0. by split_and!.
Qed.

Lemma readmit_runs ev q :
  q_locks q !! ingestLock (qe_ThreadKey ev) = None →
  ∃ q', readmit ev q = Some q' ∧ rtc (qstep daemon_onPark) q q' ∧ q_db q' = q_db q
  ∧ ∀ t, pending_of t q' = pending_of t (Enqueue (Entry ev false) q).
Proof.
  intros Hl. unfold readmit. set (pid := fresh (dom (q_ingest q))).
  assert (Hp : q_ingest q !! pid = None) by (apply not_elem_of_dom, is_fresh).
  set (q1 := MkQueues (q_db q) (q_over q) (q_pending q) (q_claimed q) (q_drains q)
    (<[ingestLock (qe_ThreadKey ev) := pid]> (q_locks q)) (<[pid := IReady (Entry ev false)]> (q_ingest q))
    (q_log q) (q_received q)).
  assert (H1 : Readmit_lock pid ev q = Some q1).
  { unfold Readmit_lock, lock_ingest. cbn [ingest_thread en_event]. by rewrite Hp, Hl. }
  set (q2 := set_ingest pid (IUnlocking (qe_ThreadKey ev)) (Enqueue (Entry ev false) q1)).
  assert (H2 : ingest_enqueue pid q1 = Some q2).
  { unfold ingest_enqueue. change (q_ingest q1) with (<[pid := IReady (Entry ev false)]> (q_ingest q)).
    by rewrite lookup_insert_eq. }
  assert (H3 : ∃ q3, ingest_unlock pid q2 = Some q3 ∧ q_db q3 = q_db q2 ∧ q_pending q3 = q_pending q2).
  { unfold ingest_unlock. change (q_ingest q2) with
      (<[pid := IUnlocking (qe_ThreadKey ev)]> (q_ingest (Enqueue (Entry ev false) q1))).
    rewrite lookup_insert_eq. eauto. }
  destruct H3 as (q3 & H3 & Hdb & Hpend). rewrite H1. cbn [mbind option_bind]. rewrite H2.
  cbn [mbind option_bind]. exists q3. split_and!; [done| | |].
  - eapply rtc_l; [by eapply qs_readmit|]. eapply rtc_l; [by eapply qs_enqueue|].
    eapply rtc_l; [by eapply qs_unlock|]. done.
  - rewrite Hdb. change (q_db (Enqueue (Entry ev false) q1) = q_db q1). apply q_db_Enqueue.
  - intros t. unfold pending_of. rewrite Hpend.
    change (default [] (q_pending (Enqueue (Entry ev false) q1) !! t)
            = default [] (q_pending (Enqueue (Entry ev false) q) !! t)).
    unfold Enqueue. change (q_over q1) with (q_over q). change (q_claimed q1) with (q_claimed q).
    unfold pending_of. change (q_pending q1) with (q_pending q). destruct (q_over q); [done|].
    by case_bool_decide.
Qed.

(** A store call on the side, as steps of the router's machine. *)
Lemma store_qsteps q d' : rtc astep (q_db q) d' → rtc (qstep daemon_onPark) q (Router.set_db d' q).
Proof.
  intros H. remember (q_db q) as d eqn:Hd. revert q Hd.
  induction H as [d|d d1 d2 H1 _ IH]; intros q ->; [by destruct q|].
  eapply rtc_l; [by apply qs_store|]. specialize (IH (Router.set_db d1 q) eq_refl). exact IH.
Qed.

Lemma run_hook_beside {D A} (h : hook D A) k s : (run_hook (beside h) k s).2.1 = s.1.
Proof. unfold run_hook, beside. by destruct (h s.2) as [[]]. Qed.

Lemma handleIDVerb_beside {D} name arg (f : option (Z → hook D (result err unit))) s :
  (handleIDVerb name arg (option_map (λ f id, beside (f id)) f) s).2.1 = s.1.
Proof.
  unfold handleIDVerb. destruct f as [f|]; [|done]. cbn [option_map]. destruct (event_id _); [|done].
  apply run_hook_beside.
Qed.

(** A poke is counted, and nothing else is. *)
Lemma pokes_counted status opts input n d :
  let '(_, _, s) := handle (counting status opts) input (n, d) in
  s.1 = if bool_decide (of_bytes <$> read_line input = Some "poke"%string) then wrap64 (n + 1) else n.
Proof.
  unfold handle. destruct (read_line input) as [line|]; [|done]. cbn [fmap option_fmap option_map].
  assert (Hd : (dispatch (counting status opts) (of_bytes line) (n, d)).2.1
    = if String.eqb (of_bytes line) "poke" then wrap64 (n + 1) else n).
  { destruct (String.eqb_spec (of_bytes line) "poke") as [->|Hne]; [done|]. unfold dispatch.
    destruct (verb_arg "retry" _); [apply handleIDVerb_beside|].
    destruct (verb_arg "dead-requeue" _); [apply handleIDVerb_beside|].
    destruct (verb_arg "dead-discard" _); [apply handleIDVerb_beside|].
    rewrite (proj2 (String.eqb_neq _ _) Hne). destruct (String.eqb _ "status"); [|by destruct (String.eqb _ "drain")].
    apply (run_hook_beside (status n) _ (n, d)). }
  destruct (dispatch _ _ _) as [[r b] s]. cbn in Hd. rewrite Hd.
  destruct (String.eqb_spec (of_bytes line) "poke") as [->|Hne]; [done|]. rewrite bool_decide_eq_false_2; [done|].
  congruence.
Qed.

(** ** Properties *)


(** The configuration's trust is the trust the daemon acts on.  Seeding a
    parsed configuration is refused by a failing statement only; afterwards, for
    every declared channel, the lookup the ingest path makes answers exactly the
    level the configuration declares for that sender (untrusted for a stranger)
    with the channel's own read-only and approval bits, or, when the read fails,
    the bottom stamp; no declared level exceeds the channel's ceiling; and an
    ingested event carries that level or none. *)
Theorem seeded_trust decode doc c d :
  Config.Parse decode doc = Ok c →
  wpd (seedIdentities (Some c)) (λ r d', match r with
    | Err x => x = EIO ∧ d' = d
    | Ok _ => d' = set_identities (identities d') d
        ∧ ∀ name ch nativeID, cf_Channels c !! name = Some ch →
            rank (declared c name nativeID) ≤ rank (MaxTrust ch)
            ∧ wpd (ResolveStamped name nativeID (ch_Auth ch)) (λ r d2, d2 = d' ∧ ∃ a, r = Ok a
                ∧ ((ans_err a = None ∧ ans_value a = MkStamped (declared c name nativeID) (ReadOnly ch) (MayApprove ch))
                   ∨ (ans_err a ≠ None ∧ ans_value a = bottom_stamp))) d'
            ∧ ∀ e, e_Channel e = name → e_Sender e = nativeID → e_OwnerID e = None →
                wpd (stampEvent (ch_Auth ch) e) (λ r d2, d2 = d' ∧ ∃ e', r = Ok e'
                  ∧ (e_Trust e' = declared c name nativeID ∨ e_Trust e' = Untrusted)) d'
    end) d.
Proof.
  intros Hp. apply Parse_valid in Hp as Hc. unfold seedIdentities.
  eapply wpd_mono; [apply wpd_conj; [apply SeedIdentities_wpd|apply (SeedIdentities_valid _ d)]|].
  - apply Forall_forall. intros i Hi. cbn in Hi. apply list_elem_of_fmap in Hi as (id & -> & Hin).
    pose proof (fo_identities c Hc) as Hall. rewrite Forall_forall in Hall.
    by eapply store_identity_check, Hall.
  - rewrite seed_rows_keys. apply (fo_keys c Hc).
  - intros [u|x] d' [H1 H2]; [|split; [by apply H2|done]]. destruct H1 as [Hd Hm]. split; [done|].
    intros name ch nativeID Hch. destruct (stamp_declared c name ch nativeID Hc Hch) as [Hs Hr].
    destruct (declared_stored c (identities d') name nativeID Hc Hm) as [Hl He]. split_and!; [done| |].
    + eapply wpd_mono; [apply ResolveStamped_wpd|]. intros r d2 (-> & a & -> & Ha). split; [done|].
      exists a. split; [done|]. destruct Ha as [(? & Hv & _)|?]; [left|by right].
      split; [done|]. by rewrite Hv, Hl.
    + intros e <- <- Ho. eapply wpd_mono; [by apply stampEvent_wpd|].
      intros r d2 (-> & e' & -> & (tr & own & -> & Ht & _)). split; [done|]. eexists. split; [done|].
      unfold row_of in Ht. rewrite Hl, Hs in Ht. exact Ht.
Qed.

Lemma seeded_trust_witness :
  let '(r, d') := run (seedIdentities (Some parsed)) empty_db in
  r = Ok tt ∧ declared parsed "discord" "7" = Owner ∧ declared parsed "discord" "8" = Untrusted
  ∧ rank (declared parsed "discord" "7") ≤ rank (MaxTrust (MkChannel "strong" "/run/token"))
  ∧ (run (ResolveStamped "discord" "7" "strong") d').1 = Ok (MkAnswer (MkStamped Owner false true) None).
Proof.
  pose proof (wpd_run _ _ _ (seeded_trust sample_decode "" parsed empty_db sample_parses)) as H.
  assert (Hok : (run (seedIdentities (Some parsed)) empty_db).1 = Ok tt) by (vm_compute; reflexivity).
  assert (Hres : (run (ResolveStamped "discord" "7" "strong") (run (seedIdentities (Some parsed)) empty_db).2).1
    = Ok (MkAnswer (MkStamped Owner false true) None)) by (vm_compute; reflexivity).
  destruct (run (seedIdentities (Some parsed)) empty_db) as [r d']. cbn [fst snd] in *. subst r.
  destruct H as [_ H]. split_and!; [done|vm_compute; reflexivity|vm_compute; reflexivity| |exact Hres].
  apply (H "discord"%string (MkChannel "strong" "/run/token") "7"%string). vm_compute. reflexivity.
Defined.

(** C37: a manual requeue is durable first and queued second.  The line the
    command sends for a positive id, handled by a serving daemon whatever its
    state and whatever fails: the answer is a refusal and nothing moved, or it
    is done, and then the event was parked (for retry) or dead (for
    dead-requeue), the store says received with the payload and stamp it always
    had, and, unless shutdown began, the event waits at the tail of its thread's
    queue; the daemon went there by steps of the router's own machine. *)
Theorem manual_requeue settle now fs status q id verb call from :
  (∀ t d', let q1 := Router.set_db d' q in
     rtc (qstep daemon_onPark) q1 (settle t q1) ∧ q_locks (settle t q1) !! ingestLock t = None) →
  0 < id ≤ int64_max →
  (verb, call, from) ∈ [("retry"%string, RequeueInterruptedEvent, Interrupted);
                        ("dead-requeue"%string, ResolveDeadLetterRequeue, Dead)] →
  let '(r, drain, d') :=
    handle (daemon_options settle now fs status) (bytes (id_line verb id) ++ [10]) (Some q) in
  drain = false ∧ ∃ q', d' = Some q' ∧ rtc (qstep daemon_onPark) q q'
  ∧ ((∃ x, r = Some (RRefused verb id x) ∧ q' = q)
     ∨ r = Some (RDone verb id) ∧ ∃ e q1, events (q_db q) !! id = Some e ∧ er_status e = from
         ∧ let e' := event_status_upd Received now e in
           let ev := scanQueuedEvent id e' in
           events (q_db q1) = <[id := e']> (events (q_db q))
           ∧ let q2 := settle (qe_ThreadKey ev) q1 in
             q_db q' = q_db q2
             ∧ ∀ t, pending_of t q' = pending_of t (Enqueue (Entry ev false) q2)).
Proof.
  intros Hsettle Hid Hin.
  assert (Hcall : (verb, Some (requeue_hook settle now fs call)) ∈
      [("retry"%string, OnRetry (daemon_options settle now fs status));
       ("dead-requeue"%string, OnDeadRequeue (daemon_options settle now fs status));
       ("dead-discard"%string, OnDeadDiscard (daemon_options settle now fs status))]
    ∧ requeued from id now (q_db q) (call id now (World (q_db q) fs)).1
        (w_db (call id now (World (q_db q) fs)).2)).
  { apply elem_of_cons in Hin as [[= -> -> ->]|Hin].
    { split; [by left|]. pose proof (RequeueInterruptedEvent_wpd id now (q_db q) fs) as H.
      by destruct (RequeueInterruptedEvent _ _ _) as [r w]. }
    apply elem_of_cons in Hin as [[= -> -> ->]|Hin%elem_of_nil]; [|done].
    split; [by right; left|]. pose proof (ResolveDeadLetterRequeue_wpd id now (q_db q) fs) as H.
    by destruct (ResolveDeadLetterRequeue _ _ _) as [r w]. }
  destruct Hcall as [Hverb Hrq]. rewrite (handle_id_verb _ verb _ id (Some q) Hid Hverb).
  unfold id_answer, run_hook, requeue_hook.
  destruct (call id now _) as [[ev|x] w]; cbn [fst snd] in Hrq; destruct Hrq as [Hst Hrq].
  - destruct Hrq as (e & He & Hs & -> & Hev). set (ev := scanQueuedEvent _ _).
    set (q1 := Router.set_db (w_db w) q).
    destruct (Hsettle (qe_ThreadKey ev) (w_db w)) as [Hq2 Hlock]. fold q1 in Hq2, Hlock.
    destruct (readmit_runs ev _ Hlock) as (q' & Hr & Hsteps & Hdb & Hpend). rewrite Hr. cbn [default].
    split; [done|]. exists q'. split; [done|]. split.
    { etrans; [by apply store_qsteps|]. by etrans. }
    right. split; [done|]. exists e, q1. by split_and!.
  - rewrite Hrq. split; [done|]. exists q. split; [by destruct q|]. split; [done|].
    left. by exists x.
Qed.

(** The owner retries the turn a crash interrupted. *)
Definition retry_queues : Queues := (Rebuild daemon_onPark (λ _, 9) [] (New crash_db)).2.

Lemma manual_requeue_witness :
  let '(r, drain, d') := handle (daemon_options (λ _ q, q) 50 [] (λ d, (Some None, d)))
      (bytes (id_line "retry" 1) ++ [10]) (Some retry_queues) in
  r = Some (RDone "retry" 1) ∧ drain = false
  ∧ ∃ q', d' = Some q' ∧ rtc (qstep daemon_onPark) retry_queues q'
      ∧ map (λ en, qe_ID (en_event en)) (pending_of "discord:dm:7" q') = [2; 1].
Proof.
  assert (Hlock : q_locks retry_queues = ∅) by (vm_compute; reflexivity).
  assert (H := manual_requeue (λ _ q, q) 50 [] (λ d, (Some None, d)) retry_queues 1 "retry"%string
    RequeueInterruptedEvent Interrupted).
  destruct (handle _ _ _) as [[r drain] d'] eqn:Hh. destruct H as (Hd & q' & Hq & Hsteps & _).
  - intros t d1. split; [done|]. change (q_locks retry_queues !! ingestLock t = None). by rewrite Hlock.
  - done.
  - by left.
  - assert (Hc : r = Some (RDone "retry" 1)
        ∧ (map (λ en, qe_ID (en_event en)) ∘ pending_of "discord:dm:7") <$> d' = Some [2; 1]).
    { vm_compute in Hh. injection Hh as <- _ <-. split; vm_compute; reflexivity. }
    destruct Hc as [Hr Hp]. split; [done|]. split; [done|]. exists q'. split; [done|]. split; [done|].
    rewrite Hq in Hp. by injection Hp.
Defined.
