(* ===== verification/Assembly.v ===== *)
(** * The turn path as the daemon wires it (src/internal/cli/daemon.go)

    [Daemon.wire] fixes the engine's pins, the session manager and the working
    directory; here the pieces are put together: the engine's Start and Resume
    under the manager, the manager as the handler's runner, the handler on the
    rows ingest wrote.  Every assumption the parts' theorems make of each other
    is discharged by the other part. *)
From S2P Require Import Prelude Utf8 Trust Schema Events Event Identities Turns.
From S2P Require Import Sessions StoreInv StoreOps Config Env Stream Engine Router Ingest SessionManager.
From S2P Require Import Deliveries Resend Restart Relay TurnHandler Healthy Answer Daemon.
Local Open Scope Z_scope.

(** ** Definitions *)

Section wired.
Context {SA : StoreAccess} (w : wiring) (clock : nat → Z) (rand : nat → option (list Z)) (fs : nat → filesystem).
(** The children, and what each turn streamed to its output. *)
Context (spawn : nat → invocation → child) (says : env → list string).

(** The relay is the turn's output sink, so the collector streams. *)
Definition wired_Turn : TurnRequest → EnvM unit :=
  Turn (wi_manager w) clock rand fs (Engine.Start clock true spawn (wi_pin w)) (Engine.Resume clock true spawn (wi_pin w)).

Definition wired_runner : TurnRequest → EnvM (list string * result err unit) :=
  session_runner (wi_manager w) clock rand fs (Engine.Start clock true spawn (wi_pin w))
    (Engine.Resume clock true spawn (wi_pin w)) says.

(** productionTurn with the daemon's dependencies. *)
Definition wired_handler {R} `{turnRelay R} (newRelay : option (string → option R)) (ev : QueuedEvent)
    : HM R unit :=
  productionTurn clock true newRelay wired_runner (wi_cwd w) ev.
End wired.

(** The dormant handler: the row stays processing, for the next boot to park. *)
Definition placeholderTurn {R} (ev : QueuedEvent) : HM R unit := mret tt.

(** The handler the daemon gives its router. *)
Definition daemon_handler {SA : StoreAccess} (w : option wiring) (clock : nat → Z) (rand : nat → option (list Z))
    (fs : nat → filesystem) (spawn : nat → invocation → child) (says : env → list string)
    {R} `{turnRelay R} (newRelay : option (string → option R)) (ev : QueuedEvent) : HM R unit :=
  match w with
  | None => placeholderTurn ev
  | Some w => wired_handler w clock rand fs spawn says newRelay ev
  end.

(** ** Lemmas *)

(** Without an engine section nothing runs and nothing of the store moves. *)
Lemma dormant_daemon {SA : StoreAccess} {R} `{turnRelay R} state cfg w clock rand fs spawn says newRelay ev (s : hstate R) :
  wire state cfg = Ok w → (∀ c, cfg = Some c → Config.cf_Engine c = None) →
  daemon_handler w clock rand fs spawn says newRelay ev s = (Ok tt, s).
Proof.
  unfold wire. intros Hw He. destruct cfg as [c|]; [rewrite (He c eq_refl) in Hw|]; by injection Hw as <-.
Qed.

Lemma wire_recorder state cfg w : wire state cfg = Ok (Some w) → ep_recordTurn (wi_pin w) = record_turn.
Proof.
  unfold wire. destruct cfg as [c|]; [|done]. destruct (Config.cf_Engine c) as [e|]; [|done].
  destruct (NewEngine _) as [pin|] eqn:Hn; [|done]. intros [= <-]. cbn.
  revert Hn. unfold NewEngine, engine_config. cbn. repeat case_match; try done. by intros [= <-].
Qed.

(** A turn of the engine touches the turns table and nothing else. *)
Definition accounts {A} (m : EnvM A) : Prop := ∀ x,
  wpe m (λ _ x', env_trace x' = env_trace x
    ∧ (env_db x' = env_db x ∨ ∃ t, env_db x' = turn_row_appended t (env_db x))) x.

Lemma engine_accounts clock relay spawn e spec flag :
  ep_recordTurn e = record_turn → accounts (engine_run clock relay spawn e spec flag).
Proof.
  intros Hrec x. unfold engine_run. rewrite Hrec. wpe_step. unfold wpe at 1, spawn_child.
  wpe_step. wpe_step. wpe_step. wpe_step. wpe_step.
  eapply wpd_mono; [apply record_turn_wpd|]. intros r d' Hd fs.
  assert (Hdb : d' = env_db x ∨ ∃ t, d' = turn_row_appended t (env_db x)).
  { unfold env_db in Hd |- *. cbn in Hd. destruct r; [right; eauto|left; by destruct Hd]. }
  destruct (turn_error _); wpe_step; by split.
Qed.

Lemma accounts_quiet {A} (m : EnvM A) : accounts m → quiet m.
Proof.
  intros Hm x. eapply wpe_mono; [apply Hm|]. intros r x' [T Hd]. split; [|done].
  destruct Hd as [->|[t ->]]; done.
Qed.

Lemma accounts_sparing {A} (m : EnvM A) : accounts m → sparing m.
Proof.
  intros Hm x. eapply wpe_mono; [apply Hm|]. intros r x' [T Hd]. split; [|by rewrite T].
  destruct Hd as [->|[t ->]]; done.
Qed.

Lemma wired_runner_ok w clock rand fs spawn says :
  ep_recordTurn (wi_pin w) = record_turn → runner_ok (wired_runner w clock rand fs spawn says).
Proof.
  intros Hrec. apply session_runner_ok; intros s; by apply accounts_sparing, engine_accounts.
Qed.

Lemma calm_InsertTurn t : calm (InsertTurn t).
Proof. unfold InsertTurn. repeat case_match; auto with calm. Qed.

Lemma engine_well clock relay spawn e spec flag :
  ep_recordTurn e = record_turn → well (engine_run clock relay spawn e spec flag).
Proof.
  intros Hrec x Hx. unfold engine_run. rewrite Hrec. wpe_step. unfold wpe at 1, spawn_child. cbv zeta.
  wpe_step. apply wpe_now_idle; [done|]. intros ts x1 (H1 & _ & T1). cbn beta iota. wpe_step. wpe_step.
  eapply wpe_mono; [apply (well_lift (record_turn _)); [|done];
    unfold record_turn; apply calm_bind; [apply calm_InsertTurn|auto with calm]|].
  intros r x2 [H2 T2]. rewrite T1 in T2. destruct (turn_error _); by wpe_step.
Qed.

Lemma wired_runner_well w clock rand fs spawn says :
  ep_recordTurn (wi_pin w) = record_turn → runner_well (wired_runner w clock rand fs spawn says).
Proof. intros Hrec req. apply session_runner_well; intros s; by apply engine_well. Qed.

(** The trust ingest stamped on a message, when the seeded rows are the
    configuration's. *)
Lemma stamped_declared c ch m author d e :
  config_ok c → cf_Channels c !! "discord"%string = Some ch →
  (∀ key row, identities d !! key = Some row
     ↔ ∃ i, i ∈ seed_rows (Some c) ∧ key = ident_key i ∧ row = ident_of i) →
  stamped (ch_Auth ch) d (event_of m author) e →
  e_Trust e = declared c "discord" author ∨ e_Trust e = Untrusted.
Proof.
  intros Hc Hch Hm (tr & own & -> & Ht & _). cbn.
  destruct (declared_stored c (identities d) "discord" author Hc Hm) as [Hl _].
  destruct (stamp_declared c _ ch author Hc Hch) as [Hs _].
  unfold row_of in Ht. cbn in Ht. rewrite Hl, Hs in Ht. exact Ht.
Qed.

(** The handler reads back the text the sender wrote. *)
Lemma ingested_text auth d m author received id e :
  message_ok m → identified m author → principals_ok d → stamped auth d (event_of m author) e →
  event_text (qe_Payload (queued_of id (store_event e received))) = Some (m_Content m).
Proof.
  intros Hmok Hid Hp Hst. unfold event_text.
  change (qe_Payload (queued_of id (store_event e received))) with (MarshalJSON e). rewrite Unmarshal_MarshalJSON.
  - destruct Hst as (tr & own & -> & _). done.
  - eapply stamped_encodable; [|done|exact Hst]. apply event_of_encodable; [done|by destruct Hid].
Qed.

(** ** Properties *)

(** C1: only the declared owner's words reach the engine, and they reach it as
    written.  For a message ingested by a daemon that seeded a valid
    configuration, on the row ingest queued and the router marked processing,
    whatever fails: if the configuration does not declare the author owner, no
    turn starts and the event ends skipped or untouched; if the row carries
    owner trust, the author is a declared owner and exactly one turn starts,
    with the message's own text as its prompt, and every exit is durable as the
    handler promises; and each of the manager's turns under the wired engine
    keeps the registry's invariant, leaves the queue and the outbox alone and
    spawns the engine only where the registry says. *)
Theorem owner_words {R} `{turnRelayOk R} state c w ch clock rand fs spawn says newRelay
    m author received id d e x (s : hstate R) :
  config_ok c → wire state (Some c) = Ok (Some w) → cf_Channels c !! "discord"%string = Some ch →
  (∀ key row, identities d !! key = Some row
     ↔ ∃ i, i ∈ seed_rows (Some c) ∧ key = ident_key i ∧ row = ident_of i) →
  message_ok m → identified m author → principals_ok d →
  stamped (ch_Auth ch) d (event_of m author) e →
  let ev := queued_of id (store_event e received) in
  hs_gate s = false → events (hs_db s) !! id = Some x → er_status x = Processing →
  let '(r, s') := wired_handler w clock rand fs spawn says newRelay ev s in
  r = Ok tt ∧ hs_gate s' = false
  ∧ (declared c "discord" author ≠ Owner →
       turns_of (env_trace (hs_env s')) = turns_of (env_trace (hs_env s))
       ∧ (hs_db s' = hs_db s ∨ ∃ x', events (hs_db s') !! id = Some x' ∧ er_status x' = Skipped))
  ∧ (e_Trust e = Owner → declared c "discord" author = Owner
       ∧ turn_run true (wired_runner w clock rand fs spawn says) (wi_cwd w) ev x (m_Content m) s s')
  ∧ ∀ req e0, session_inv (sessions (env_db e0)) →
      wpe (wired_Turn w clock rand fs spawn req) (λ r e1,
        session_inv (sessions (env_db e1)) ∧ queue_frame (env_db e0) (env_db e1)
        ∧ turn_post req e0 r e1) e0.
Proof.
  intros Hc Hw Hch Hm Hmok Hid Hp Hst ev Hg Hx Hs.
  pose proof (wire_recorder _ _ _ Hw) as Hrec.
  assert (Hacc : ∀ flag sp, accounts (engine_run clock true spawn (wi_pin w) sp flag)).
  { intros flag sp. by apply engine_accounts. }
  pose proof (productionTurn_spec clock true newRelay (wired_runner w clock rand fs spawn says)
    (wi_cwd w) ev x s (wired_runner_ok w clock rand fs spawn says Hrec) Hg Hx Hs) as Ht.
  unfold wpm in Ht. unfold wired_handler. destruct (productionTurn _ _ _ _ _ ev s) as [r s'].
  destruct Ht as (-> & Hg' & Ht).
  pose proof (stamped_declared c ch m author d e Hc Hch Hm Hst) as Htrust.
  unfold turn_exit in Ht. change (qe_Trust ev) with (e_Trust e) in Ht.
  assert (Htext : event_text (qe_Payload ev) = Some (m_Content m)) by (by eapply ingested_text).
  rewrite Htext in Ht. split_and!; [done|done| | |].
  - intros Hno. assert (Hne : String.eqb (e_Trust e) "owner" = false).
    { apply String.eqb_neq. intros He. destruct Htrust as [Htr|Htr]; [|by rewrite Htr in He].
      apply Hno. by rewrite <-Htr. }
    rewrite Hne in Ht. destruct Ht as (T & _ & _ & Hd). by split.
  - intros He. split; [destruct Htrust as [<-|Htr]; [done|by rewrite Htr in He]|].
    rewrite He in Ht. exact Ht.
  - intros req e0 Hi. unfold wired_Turn, wpe.
    pose proof (Turn_advances (wi_manager w) clock rand fs _ _
      (λ sp, accounts_quiet _ (Hacc "--session-id"%string sp)) (λ sp, accounts_quiet _ (Hacc "--resume"%string sp))
      req e0) as H1.
    pose proof (Turn_post (wi_manager w) clock rand fs _ _
      (λ sp, accounts_quiet _ (Hacc "--session-id"%string sp)) (λ sp, accounts_quiet _ (Hacc "--resume"%string sp))
      req e0) as H2.
    pose proof (sparing_Turn (wi_manager w) clock rand fs _ _
      (λ sp, accounts_sparing _ (Hacc "--session-id"%string sp)) (λ sp, accounts_sparing _ (Hacc "--resume"%string sp))
      req e0) as H3.
    unfold wpe in H1, H2, H3. unfold Engine.Start, Engine.Resume. destruct (Turn _ _ _ _ _ _ req e0) as [r e1].
    destruct (H1 Hi) as [H1' _]. destruct H3 as [H3 _]. by split_and!.
Qed.


(** A daemon at /w whose configuration pins an engine and enrols one owner, and
    that owner's first message. *)
Definition demo_config : Config.Config :=
  Config.MkConfig (MkModels "haiku" "opus" "" "") {["discord" := MkChannel "strong" "/run/token"]}
    [MkConfIdentity "discord" "7" "owner" "brian" ""] (cf_Sessions initial)
    (Some (MkEngine "/opt/claude" "2.1.0" 25 (600 * time_Second) ["pre"] f64_zero)) ∅ %string.
Definition demo_db : db := (run (seedIdentities (Some demo_config)) empty_db).2.
Definition demo_wiring : wiring :=
  MkWiring (MkPin "/opt/claude" "opus" 25 (600 * time_Second) record_turn)
    (NewManager (manager_config demo_config)) "/w".
Definition demo_stamped : Event := set_owner (Some "brian"%string) (set_trust Owner (event_of dm_message "7")).
Definition demo_row : event_row :=
  event_status_upd Processing 5 (received_row (store_event demo_stamped 100)).
Definition demo_state : hstate dstate :=
  HState (Env (World (set_events {[1 := demo_row]} demo_db) []) 0 [] [] []) ∅ false None.
#[local] Existing Instance talk_relay.
#[local] Existing Instance talk_relay_ok.

Definition demo_run : result err unit * hstate dstate :=
  wired_handler demo_wiring (λ _, 100 * Second) (λ _, Some (repeat 7 16)) (λ _, sample_fs)
    sample_child (λ _, ["hi"%string]) (Some fresh_dstate)
    (queued_of 1 (store_event demo_stamped 100)) demo_state.

Lemma demo_config_ok : config_ok demo_config.
Proof. apply validate_nil. vm_compute. reflexivity. Qed.

Lemma demo_identities key row :
  identities demo_db !! key = Some row
  ↔ ∃ i, i ∈ seed_rows (Some demo_config) ∧ key = ident_key i ∧ row = ident_of i.
Proof.
  pose proof (wpd_run _ _ _ (SeedIdentities_wpd (seed_rows (Some demo_config)) empty_db)) as H.
  change (run (SeedIdentities (seed_rows (Some demo_config))) empty_db)
    with (run (seedIdentities (Some demo_config)) empty_db) in H.
  assert (Hok : (run (seedIdentities (Some demo_config)) empty_db).1 = Ok tt) by (vm_compute; reflexivity).
  unfold demo_db. destruct (run (seedIdentities (Some demo_config)) empty_db) as [r d']. cbn in Hok. subst r.
  apply H.
Qed.

Lemma demo_principals : principals_ok demo_db.
Proof.
  intros key row Hk o Ho. apply demo_identities in Hk as (i & Hi & _ & ->).
  apply list_elem_of_singleton in Hi as ->. change (Some "brian"%string = Some o) in Ho. injection Ho as <-. vm_compute. reflexivity.
Qed.

Lemma demo_stamped_ok : stamped "strong" demo_db (event_of dm_message "7") demo_stamped.
Proof.
  exists Owner, (Some "brian"%string). split_and!.
  - reflexivity.
  - left. vm_compute. reflexivity.
  - by right; right.
  - intros _. split; [done|]. exists (IdentRow "owner" (Some "brian"%string) None), "brian"%string.
    split_and!; [vm_compute; reflexivity|done..].
  - intros o [= <-]. split; [done|]. exists (IdentRow "owner" (Some "brian"%string) None).
    split; [vm_compute; reflexivity|done].
Qed.

Lemma demo_wire : wire "/w/state" (Some demo_config) = Ok (Some demo_wiring).
Proof. vm_compute. reflexivity. Qed.

Lemma demo_channel : cf_Channels demo_config !! "discord"%string = Some (MkChannel "strong" "/run/token")%string.
Proof. vm_compute. reflexivity. Qed.

Lemma demo_identified : identified dm_message "7".
Proof. split_and!; done. Qed.

Lemma demo_event : events (hs_db demo_state) !! 1 = Some demo_row.
Proof. apply lookup_insert_eq. Qed.

Lemma owner_words_witness :
  declared demo_config "discord" "7" = Owner
  ∧ turn_run true (wired_runner demo_wiring (λ _, 100 * Second) (λ _, Some (repeat 7 16))
      (λ _, sample_fs) sample_child (λ _, ["hi"%string])) "/w"
      (queued_of 1 (store_event demo_stamped 100)) demo_row "hello" demo_state demo_run.2.
Proof.
  assert (H := owner_words "/w/state" demo_config demo_wiring
    (MkChannel "strong" "/run/token")%string (λ _, 100 * Second) (λ _, Some (repeat 7 16)) (λ _, sample_fs)
    sample_child (λ _, ["hi"%string]) (Some fresh_dstate) dm_message "7" 100 1 demo_db demo_stamped demo_row
    demo_state demo_config_ok demo_wire demo_channel demo_identities dm_message_ok demo_identified
    demo_principals demo_stamped_ok eq_refl demo_event eq_refl).
  unfold demo_run. destruct (wired_handler _ _ _ _ _ _ _ _ demo_state) as [r s'].
  destruct H as (_ & _ & _ & H & _). exact (H eq_refl).
Defined.

(** And where it leads: one reply, sent and acked, the event replied, the
    session active, the turn on the books. *)
Example demo_run_replied :
  er_status <$> events (hs_db demo_run.2) !! 1 = Some Replied
  ∧ (λ r, (dr_payload r, dr_status r)) <$> deliveries (hs_db demo_run.2) !! 1 = Some ("hi"%string, Sent)
  ∧ (tr_outcome <$> turns (hs_db demo_run.2) !! 1 = Some "ok"%string).
Proof. vm_compute. auto. Qed.

(** The same message behind a platform that refuses the turn's own relay: the
    pump takes the reply out. *)
Definition mute_relay : turnRelay dstate := discord_relay (λ _, None) (λ _, false) (λ _, 0).
Definition demo_pass :=
  @turn_and_pass dstate mute_relay (λ _, 100 * Second) true (Some fresh_dstate)
    (wired_runner demo_wiring (λ _, 100 * Second) (λ _, Some (repeat 7 16)) (λ _, sample_fs)
       sample_child (λ _, ["hi"%string])) "/w" (String.eqb "discord") (λ _, 200)
    (queued_of 1 (store_event demo_stamped 100)) demo_state.

Lemma demo_rows k r : deliveries (hs_db demo_state) !! k = Some r → False.
Proof.
  assert (H : deliveries (hs_db demo_state) = ∅) by (vm_compute; reflexivity). intros Hk.
  rewrite H in Hk. by rewrite lookup_empty in Hk.
Qed.

Lemma demo_events i y : events (hs_db demo_state) !! i = Some y → er_thread_key y = "discord:dm:7"%string.
Proof.
  assert (H : events (hs_db demo_state) = {[1 := demo_row]}) by (vm_compute; reflexivity). intros Hy.
  rewrite H in Hy. apply lookup_singleton_Some in Hy as [_ <-]. vm_compute. reflexivity.
Qed.

Lemma demo_threads : map_Forall (λ _ y, er_thread_key y ≠ ""%string) (events (hs_db demo_state)).
Proof. intros i y Hy. by rewrite (demo_events i y Hy). Qed.

Lemma demo_answers :
  answers (wired_runner demo_wiring (λ _, 100 * Second) (λ _, Some (repeat 7 16)) (λ _, sample_fs)
      sample_child (λ _, ["hi"%string])) (hs_db demo_state)
    (turn_request "/w" (queued_of 1 (store_event demo_stamped 100)) "hello") "hi".
Proof.
  intros [[d f] n c p tr] (Hf & Hc & _) Hd. unfold env_db in Hd. cbn in Hf, Hc, Hd. subst.
  eexists _, _. split; [vm_compute; reflexivity|reflexivity].
Qed.

Lemma demo_deliverable : deliverable (String.eqb "discord") (hs_db demo_state).
Proof.
  split.
  - intros t [(i & y & Hy & <-)|[o ->]]; [by rewrite (demo_events i y Hy)|reflexivity].
  - intros y (r & Hr & _)%elem_of_owed_rows. by destruct (demo_rows _ _ Hr).
Qed.

