(* ===== verification/Neighbours.v ===== *)
(** * What goroutines may do to each other's events

    The daemon's goroutines share one store: the drains of every thread, the
    pump, ingest, the session manager, the operator's verbs.  This file says
    what a turn may do to the store ([own_move]), what it needs of everybody
    else ([undisturbed]), and proves that the one implies the other for turns
    of different events, and that every other caller of the store keeps to it. *)
From S2P Require Import Prelude Schema Events Event Deliveries ToolAttempts DeadLetters Surface.
From S2P Require Import StoreSpec StoreInv StoreOps Env Resend Sweep Recovery Router Restart Relay TurnHandler Drain.
Local Open Scope Z_scope.

(** ** Keys and dead letters *)

Definition key_in (k : string) (d : db) : Prop := exists_row (has_delivery_key k) (deliveries d) = true.

Definition notice_key (k : string) : Prop :=
  ∃ dedup n, k = interrupted_key dedup n ∨ k = dead_key dedup n.

Lemma reply_key_dedup a b i j : reply_key a i = reply_key b j → a = b.
Proof.
  unfold reply_key. intros H. apply (inj (String.append "reply:")) in H.
  by apply (str_split_last ":"%char) in H as [-> _]; [|apply pretty_N_no_colon..].
Qed.

Lemma reply_key_no_notice dedup i : ¬ notice_key (reply_key dedup i).
Proof. by intros (a & n & [H | H]). Qed.

(** A dead letter that is not resolved away and keeps its reason. *)
Definition dead_kept (o o' : option dead_row) : Prop :=
  ∀ r, o = Some r → ∃ r', o' = Some r' ∧ dd_reason r' = dd_reason r ∧ dd_resolution r' = dd_resolution r.

Lemma dead_kept_refl o : dead_kept o o.
Proof. intros r Hr. by exists r. Qed.
Lemma dead_kept_trans o1 o2 o3 : dead_kept o1 o2 → dead_kept o2 o3 → dead_kept o1 o3.
Proof.
  intros H1 H2 r Hr. destruct (H1 r Hr) as (r1 & Hr1 & E1 & F1).
  destruct (H2 r1 Hr1) as (r2 & Hr2 & E2 & F2). exists r2. split_and!; [done|congruence..].
Qed.

(** ** The two relations *)

(** The rows a turn of [ev] may add, and the dead letter it may open. *)
Record tidy (ev : QueuedEvent) (d d' : db) : Prop := Tidy {
  td_keys : ∀ k, key_in k d' →
    key_in k d ∨ notice_key k ∨ ∃ i, k = reply_key (qe_DedupKey ev) i;
  td_dead : ∀ j, j ≠ qe_ID ev → dead_kept (dead_letters d !! j) (dead_letters d' !! j);
}.

(** One call of [ev]'s turn: legal, sparing every other event, adding only its
    own reply and notices. *)
Record own_move (ev : QueuedEvent) (d d' : db) : Prop := OwnMove {
  om_steps : rtc astep d d';
  om_spared : spared (qe_ID ev) d d';
  om_tidy : tidy ev d d';
}.

(** What the others may do while [ev]'s turn runs: anything legal that leaves
    its row (but for the last ack), its reply's keys and its dead letter alone. *)
Record undisturbed (ev : QueuedEvent) (d d' : db) : Prop := Undisturbed {
  un_steps : rtc astep d d';
  un_row : replied_or_same (events d !! qe_ID ev) (events d' !! qe_ID ev);
  un_keys : ∀ i, key_in (reply_key (qe_DedupKey ev) i) d' → key_in (reply_key (qe_DedupKey ev) i) d;
  un_dead : dead_kept (dead_letters d !! qe_ID ev) (dead_letters d' !! qe_ID ev);
}.

#[global] Instance tidy_refl ev : Reflexive (tidy ev).
Proof. intros d. split; auto using dead_kept_refl. Qed.
#[global] Instance tidy_trans ev : Transitive (tidy ev).
Proof.
  intros x y z [K1 D1] [K2 D2]. split.
  - intros k Hk. destruct (K2 k Hk) as [H|H]; [by apply K1|by right].
  - intros j Hj. eapply dead_kept_trans; [by apply D1|by apply D2].
Qed.

#[global] Instance own_move_refl ev : Reflexive (own_move ev).
Proof. by intros d. Qed.
#[global] Instance own_move_trans ev : Transitive (own_move ev).
Proof. intros x y z [] []. split; by etrans. Qed.

#[global] Instance undisturbed_refl ev : Reflexive (undisturbed ev).
Proof. intros d. split; auto using dead_kept_refl; [done|by left]. Qed.
#[global] Instance undisturbed_trans ev : Transitive (undisturbed ev).
Proof.
  intros x y z [] []. split; [by etrans|by eapply replied_or_same_trans|auto|by eapply dead_kept_trans].
Qed.

(** Turns of different events leave each other alone. *)
Lemma own_move_undisturbed ev ev' d d' :
  qe_ID ev' ≠ qe_ID ev → qe_DedupKey ev' ≠ qe_DedupKey ev → own_move ev' d d' → undisturbed ev d d'.
Proof.
  intros Hid Hkey [Hs Hsp [Hk Hd]]. split; [done|by apply Hsp| |by apply Hd].
  intros i Hi. destruct (Hk _ Hi) as [?|[Hn|[j Hj]]]; [done|by apply reply_key_no_notice in Hn|].
  by apply reply_key_dedup in Hj.
Qed.

(** A call that leaves the queue, the outbox and the dead letters alone. *)
Definition aside (d d' : db) : Prop := rtc astep d d' ∧ queue_frame d d'.

Lemma aside_own ev d d' : aside d d' → own_move ev d d'.
Proof.
  intros [Hs (E & L & D)]. split; [done|by apply spared_same|].
  split; unfold key_in; rewrite ?L, ?D; auto using dead_kept_refl.
Qed.
Lemma aside_undisturbed ev d d' : aside d d' → undisturbed ev d d'.
Proof.
  intros [Hs (E & L & D)]. split; unfold key_in; rewrite ?E, ?L, ?D; auto using dead_kept_refl. by left.
Qed.

(** ** Store calls that add no foreign key *)

Definition tidies (ev : QueuedEvent) {A} (m : StoreM A) : Prop := ∀ d, wpd m (λ _ d', tidy ev d d') d.

Section tidies.
Context (ev : QueuedEvent).

Lemma tidies_bind {A B} (m : StoreM A) (f : A → StoreM B) :
  tidies ev m → (∀ a, tidies ev (f a)) → tidies ev (m ≫= f).
Proof.
  intros Hm Hf d. apply wpd_bind. eapply wpd_mono; [apply Hm|]. intros [a|x] d1 H1; [|done].
  eapply wpd_mono; [apply Hf|]. intros r d2 H2. by etrans.
Qed.
Lemma tidies_try {A} (m : StoreM A) : tidies ev m → tidies ev (try m).
Proof. intros Hm d. apply wpd_try, Hm. Qed.
Lemma tidies_tx {A} (body : StoreM (bool * A)) : tidies ev body → tidies ev (in_tx body).
Proof.
  intros Hm d. apply wpd_in_tx; [done|]. eapply wpd_mono; [apply Hm|]. by intros [[[] a]|x] d' H.
Qed.
Lemma tidies_stmt {A} (f : db → result err (A * db)) :
  (∀ d a d', f d = Ok (a, d') → tidy ev d d') → tidies ev (stmt f).
Proof. intros Hf d. apply wpd_stmt; [done|]. destruct (f d) as [[a d']|x] eqn:E; [by eapply Hf|done]. Qed.
Lemma tidies_query {A} (f : db → A) : tidies ev (query f).
Proof. apply tidies_stmt. intros d a d' H. by simplify_eq. Qed.

Lemma tidy_dead d d' :
  deliveries d' = deliveries d → (∀ j, j ≠ qe_ID ev → dead_letters d' !! j = dead_letters d !! j) → tidy ev d d'.
Proof.
  intros L D. split; [unfold key_in; rewrite L; auto|]. intros j Hj. rewrite D by done. apply dead_kept_refl.
Qed.

(** An UPDATE of an event row, whatever its guard reads. *)
Lemma tidies_event id (g : db → event_row → bool) (h : db → event_row → event_row) :
  tidies ev (exec (λ d, upd_event id (g d) (h d) d)).
Proof.
  intros d. apply wpd_exec; [done|]. intros n d' H. upd_cases; [done|by apply tidy_dead].
Qed.

Lemma tidies_upsert reason t : tidies ev (stmt (upsert_dead (qe_ID ev) reason t)).
Proof.
  apply tidies_stmt. intros d a d'. unfold upsert_dead. destruct (reason_check reason); [|done].
  intros H. simplify_eq. apply tidy_dead; [done|]. intros j Hj. simpl. by rewrite lookup_insert_ne.
Qed.

(** One row inserted under [key]. *)
Lemma tidy_row d n r :
  notice_key (dr_delivery_key r) ∨ (∃ i, dr_delivery_key r = reply_key (qe_DedupKey ev) i) →
  tidy ev d (set_deliveries (<[n := r]> (deliveries d)) d).
Proof.
  intros Hr. split; [|intros; apply dead_kept_refl]. unfold key_in. intros k (i & x & Hi & Hx)%exists_row_true.
  simpl in Hi. apply lookup_insert_Some in Hi as [[_ <-]|[_ Hi]].
  - apply String.eqb_eq in Hx. subst k. by right.
  - left. apply exists_row_true. eauto.
Qed.

Lemma tidies_notice sel target :
  (∀ d k p, sel d = Some (k, p) → notice_key k) → tidies ev (stmt (insert_notice sel target)).
Proof.
  intros Hsel. apply tidies_stmt. intros d [] d'. unfold insert_notice, insert_delivery_sql.
  destruct (sel d) as [[k p]|] eqn:Hs; [|intros; by simplify_eq].
  destruct (exists_row _ _); intros; simplify_eq; [done|]. apply tidy_row. left. by eapply Hsel.
Qed.

Lemma interrupted_notice ev' d k p : select_interrupted ev' d = Some (k, p) → notice_key k.
Proof.
  unfold select_interrupted. destruct (events d !! qe_ID ev') as [e|]; [|done].
  destruct (has_status _ e); [|done]. intros [= <- _]. eexists _, _. by left.
Qed.
Lemma dead_notice ev' d k p : select_dead ev' d = Some (k, p) → notice_key k.
Proof.
  unfold select_dead. destruct (dead_letters d !! qe_ID ev'); [|done].
  destruct (events d !! qe_ID ev'); [|done]. case_bool_decide; [|done]. intros [= <- _]. eexists _, _. by right.
Qed.

Lemma tidy_advanced d d' : advanced d d' → tidy ev d d'.
Proof.
  intros Ha. split; [|intros j _; rewrite (ad_dead _ _ Ha); apply dead_kept_refl].
  unfold key_in. intros k (i & r' & Hr' & Hk)%exists_row_true. left. apply exists_row_true.
  pose proof (ad_rows _ _ Ha i) as Hrel. rewrite Hr' in Hrel. destruct (deliveries d !! i) as [r|] eqn:Hr; [|done].
  destruct Hrel as (Hkey & _). exists i, r. split; [done|]. unfold has_delivery_key in *. by rewrite <-Hkey.
Qed.
End tidies.

Ltac tidies :=
  repeat (lazymatch goal with
  | |- tidies _ (_ ≫= _) => apply tidies_bind; [|intros ?]
  | |- tidies _ (mbind _ _) => apply tidies_bind; [|intros ?]
  | |- tidies _ (try _) => apply tidies_try
  | |- tidies _ (in_tx _) => apply tidies_tx
  | |- tidies _ (query _) => apply tidies_query
  | |- tidies _ (exec (upd_event _ ?g ?h)) => apply (tidies_event _ _ (λ _, g) (λ _, h))
  | |- tidies _ (stmt (upsert_dead _ _ _)) => apply tidies_upsert
  | |- tidies _ (stmt (insert_notice (select_interrupted _) _)) =>
      apply tidies_notice, interrupted_notice
  | |- tidies _ (stmt (insert_notice (select_dead _) _)) => apply tidies_notice, dead_notice
  | |- tidies _ (if ?b then _ else _) => destruct b
  | |- tidies _ (match ?x with _ => _ end) => destruct x
  | |- tidies _ (mret _) => by intros d; apply wpd_ret
  | |- tidies _ (refuse _) => by intros d; apply wpd_refuse
  | |- tidies _ (stmt (λ d, Ok (tt, d))) => by apply tidies_stmt; intros; simplify_eq
  end).

(** ** The store calls of a turn *)

Definition owns (ev : QueuedEvent) {A} (m : StoreM A) : Prop := ∀ d, wpd m (λ _ d', own_move ev d d') d.

Lemma owns_intro ev {A} (m : StoreM A) : steps m → spares (qe_ID ev) m → tidies ev m → owns ev m.
Proof.
  intros H1 H2 H3 d. eapply wpd_mono; [apply wpd_conj; [apply H1|apply wpd_conj; [apply H2|apply H3]]|].
  intros r d' (S & E & T). by split.
Qed.

Section owns.
Context (ev : QueuedEvent).

Lemma owns_mark t : owns ev (MarkEventProcessing (qe_ID ev) t).
Proof. apply owns_intro; [apply MarkEventProcessing_steps|apply spares_mark|]. unfold MarkEventProcessing. tidies. Qed.
Lemma owns_skip t : owns ev (SkipEvent (qe_ID ev) t).
Proof. apply owns_intro; [apply SkipEvent_steps|apply spares_skip|]. unfold SkipEvent. tidies. Qed.
Lemma owns_park t : owns ev (ParkEvent (qe_ID ev) t).
Proof. apply owns_intro; [apply ParkEvent_steps|apply spares_park|]. unfold ParkEvent. tidies. Qed.
Lemma owns_complete (composed : bool) t :
  owns ev (if composed then MarkEventCompleted (qe_ID ev) t else MarkEventCompletedReconciled (qe_ID ev) t).
Proof.
  apply owns_intro; [destruct composed; [apply MarkEventCompleted_steps|apply MarkEventCompletedReconciled_steps]
                    |apply spares_complete|].
  destruct composed; [unfold MarkEventCompleted; tidies|]. unfold MarkEventCompletedReconciled.
  apply tidies_bind; [|intros n; tidies]. apply (tidies_event ev _ (λ _, has_status [Processing])
    (λ d, event_status_upd (if all_bound_acked (qe_ID ev) d then Replied else Completed) t)).
Qed.
Lemma owns_requeue t : owns ev (RequeueEventForRetry (qe_ID ev) t).
Proof.
  apply owns_intro; [apply RequeueEventForRetry_steps|apply spares_requeue|].
  unfold RequeueEventForRetry. apply tidies_bind; [|intros n; tidies].
  apply (tidies_event ev _ (λ d e, has_status [Processing] e && Z.ltb (er_attempts e) maxEventRetries
      && negb (exists_row (unkeyed_for (qe_ID ev)) (tool_attempts d)))
    (λ _ e, event_upd Received (er_attempts e + 1) (er_parks e) (Some t) e)).
Qed.
Lemma owns_dead reason t : owns ev (DeadLetterEvent (qe_ID ev) reason t).
Proof.
  apply owns_intro; [apply DeadLetterEvent_steps|apply spares_dead|]. unfold DeadLetterEvent. tidies.
Qed.
Lemma owns_interrupted gated ev' : owns ev (SurfaceInterruptedCoordinated gated ev').
Proof.
  apply owns_intro; [apply SurfaceInterrupted_steps|apply spares_interrupted|].
  unfold SurfaceInterruptedCoordinated, AcquireTarget. tidies.
Qed.
Lemma owns_death gated ev' : owns ev (SurfaceDeadLetterCoordinated gated ev').
Proof.
  apply owns_intro; [apply SurfaceDeadLetter_steps|apply spares_death|].
  unfold SurfaceDeadLetterCoordinated, AcquireTarget. tidies.
Qed.
Lemma owns_acquire gated target : owns ev (AcquireTarget gated target).
Proof.
  apply owns_intro; [apply AcquireTarget_steps|apply spares_acquire|]. unfold AcquireTarget. tidies.
Qed.
Lemma owns_query {A} (f : db → A) : owns ev (query f).
Proof. apply owns_intro; [apply steps_query|apply spares_query|apply tidies_query]. Qed.
Lemma owns_attempt id t : owns ev (MarkDeliveryAttempt id t).
Proof.
  apply owns_intro; [apply MarkDeliveryAttempt_steps|apply spares_attempt|]. intros d.
  eapply wpd_mono; [apply MarkDeliveryAttempt_advances|]. intros r d'. apply tidy_advanced.
Qed.
Lemma owns_ack id t : owns ev (AckDelivery id t).
Proof.
  apply owns_intro; [apply AckDelivery_steps|apply spares_ack|]. intros d.
  eapply wpd_mono; [apply AckDelivery_advances|]. intros r d'. apply tidy_advanced.
Qed.

(** The reply's keys are its own. *)
Lemma owns_compose text : owns ev (InsertDeliveries (reply_rows ev (ChunkMessage text))).
Proof.
  apply owns_intro; [apply InsertDeliveries_steps|apply spares_compose|]. intros d.
  eapply wpd_mono; [apply InsertDeliveries_wpd|]. cbn. intros [[ids [|]]|x] d' Hp;
    [|by destruct Hp as (_ & -> & _)|by subst].
  destruct Hp as (Hf & _ & _ & Hkeep & Hnew & ->). split; [|intros; apply dead_kept_refl].
  unfold key_in. cbn [deliveries set_deliveries]. intros k (i & r & Hr & Hk)%exists_row_true.
  destruct (Hnew i r Hr) as [Hold|Hin]; [left; apply exists_row_true; eauto|].
  apply list_elem_of_lookup in Hin as [j Hj]. destruct (Forall2_lookup_r _ _ _ _ _ Hf Hj) as (dv & Hdv & Hrow).
  rewrite Hr in Hrow. injection Hrow as ->. apply String.eqb_eq in Hk. cbn in Hk. subst k. right. right.
  unfold reply_rows in Hdv. rewrite list_lookup_imap in Hdv. destruct (ChunkMessage text !! j); simplify_eq/=.
  by exists j.
Qed.

(** An operator's verbs on the event, the sweep, and a given-up row. *)
Lemma owns_retry t : owns ev (RequeueInterruptedEvent (qe_ID ev) t).
Proof.
  apply owns_intro; [apply RequeueInterruptedEvent_steps| |]; unfold RequeueInterruptedEvent; [spares|tidies].
Qed.

Lemma spares_dead_row id k g f : spares id (exec (upd_dead k g f)).
Proof.
  intros d. apply wpd_exec; [done|]. intros n d' H. unfold upd_dead in H.
  by repeat case_match; simplify_eq/=; apply spared_same.
Qed.
Lemma tidies_dead_row g f : tidies ev (exec (upd_dead (qe_ID ev) g f)).
Proof.
  intros d. apply wpd_exec; [done|]. intros n d' H. unfold upd_dead in H. repeat case_match; simplify_eq; [|done..].
  apply tidy_dead; [done|]. intros j Hj. simpl. by rewrite lookup_insert_ne.
Qed.

Lemma owns_revive t : owns ev (ResolveDeadLetterRequeue (qe_ID ev) t).
Proof.
  apply owns_intro; [apply ResolveDeadLetterRequeue_steps| |]; unfold ResolveDeadLetterRequeue.
  - spares. apply spares_dead_row.
  - tidies. apply tidies_dead_row.
Qed.
Lemma owns_discard : owns ev (ResolveDeadLetterDiscard (qe_ID ev)).
Proof.
  apply owns_intro; [apply ResolveDeadLetterDiscard_steps| |]; unfold ResolveDeadLetterDiscard.
  - spares. apply spares_dead_row.
  - tidies. apply tidies_dead_row.
Qed.

Lemma owns_bind {A B} (m : StoreM A) (f : A → StoreM B) : owns ev m → (∀ a, owns ev (f a)) → owns ev (m ≫= f).
Proof.
  intros Hm Hf d. apply wpd_bind. eapply wpd_mono; [apply Hm|]. intros [a|x] d1 H1; [|done].
  eapply wpd_mono; [apply Hf|]. intros r d2 H2. by etrans.
Qed.
Lemma owns_try {A} (m : StoreM A) : owns ev m → owns ev (try m).
Proof. intros Hm d. apply wpd_try, Hm. Qed.
Lemma owns_ret {A} (a : A) : owns ev (mret a).
Proof. intros d. by apply wpd_ret. Qed.

Lemma owns_surface_all surface evs : (∀ e, owns ev (surface e)) → owns ev (surface_all surface evs).
Proof.
  intros Hs. induction evs as [|e evs IH]; simpl; [apply owns_ret|].
  apply owns_bind; [by apply owns_try|done].
Qed.

Lemma owns_sweep gated : owns ev (sweepUnsurfacedParks gated).
Proof.
  unfold sweepUnsurfacedParks. apply owns_bind; [apply owns_try, owns_query|]. intros [evs|x]; [|apply owns_ret].
  apply owns_bind; [apply owns_surface_all, owns_interrupted|]. intros _.
  apply owns_bind; [apply owns_try, owns_query|]. intros [deaths|x]; [|apply owns_ret].
  apply owns_surface_all, owns_death.
Qed.
End owns.

Create HintDb owns.
#[export] Hint Resolve owns_mark owns_skip owns_park owns_complete owns_requeue owns_dead owns_interrupted
  owns_death owns_acquire owns_query owns_attempt owns_ack owns_compose owns_retry
  owns_revive owns_discard owns_sweep : owns.

(** ** Everybody else *)

(** A call ran, with whatever outcome. *)
Definition ran {A} (m : StoreM A) (d d' : db) : Prop := ∃ fs r fs', m (World d fs) = (r, World d' fs').

Lemma ran_wpd {A} (m : StoreM A) (P : db → Prop) d d' : wpd m (λ _ x, P x) d → ran m d d' → P d'.
Proof. intros H (fs & r & fs' & Hm). specialize (H fs). by rewrite Hm in H. Qed.

(** What the rest of the daemon does to the store beside the turn of [ev]: calls
    of other events' turns, receipts, the pump's stamps, acks and sweep, an
    operator's verbs on other events, and whatever only touches sessions, turn
    records, identities and journals. *)
Inductive neighbour (ev : QueuedEvent) (d : db) : db → Prop :=
| nb_turn ev' d' :
    qe_ID ev' ≠ qe_ID ev → qe_DedupKey ev' ≠ qe_DedupKey ev → own_move ev' d d' → neighbour ev d d'
| nb_receive se d' : ran (InsertEvent se) d d' → neighbour ev d d'
| nb_attempt id t d' : ran (MarkDeliveryAttempt id t) d d' → neighbour ev d d'
| nb_ack id t d' : ran (AckDelivery id t) d d' → neighbour ev d d'
| nb_sweep gated d' : ran (sweepUnsurfacedParks gated) d d' → neighbour ev d d'
| nb_retry id t d' : id ≠ qe_ID ev → ran (RequeueInterruptedEvent id t) d d' → neighbour ev d d'
| nb_requeue id t d' : id ≠ qe_ID ev → ran (ResolveDeadLetterRequeue id t) d d' → neighbour ev d d'
| nb_discard id d' : id ≠ qe_ID ev → ran (ResolveDeadLetterDiscard id) d d' → neighbour ev d d'
| nb_aside d' : aside d d' → neighbour ev d d'.

(** Another event, with any id but this one's. *)
Definition someone (ev : QueuedEvent) (id : Z) : QueuedEvent :=
  MkQueuedEvent id (String "x" (qe_DedupKey ev)) "" "" "" "" Received 0 "".

Lemma someone_else ev id d d' : id ≠ qe_ID ev → own_move (someone ev id) d d' → undisturbed ev d d'.
Proof.
  intros Hid. apply own_move_undisturbed; [done|]. cbn. intros H. apply (f_equal String.length) in H.
  cbn in H. lia.
Qed.

Lemma neighbour_undisturbed ev d d' :
  is_Some (events d !! qe_ID ev) → neighbour ev d d' → undisturbed ev d d'.
Proof.
  intros Hev [ev' d1 H1 H2 Hm|se d1 H|id t d1 H|id t d1 H|g d1 H|id t d1 Hid H|id t d1 Hid H|id d1 Hid H|d1 H].
  - by eapply own_move_undisturbed.
  - eapply (ran_wpd _ (undisturbed ev d)); [|exact H].
    eapply wpd_mono; [apply wpd_conj; [apply (InsertEvent_steps se)|apply InsertEvent_wpd]|].
    cbn. intros [[id [|]]|x] d2 [Hs Hr]; [destruct Hr as [-> ->]|by subst..].
    split; [done| |done|apply dead_kept_refl]. left. cbn. rewrite lookup_insert_ne; [done|].
    intros Heq. rewrite <-Heq, next_id_fresh in Hev. by destruct Hev.
  - apply (someone_else ev (qe_ID ev + 1)); [lia|]. eapply ran_wpd; [|exact H]. apply owns_attempt.
  - apply (someone_else ev (qe_ID ev + 1)); [lia|]. eapply ran_wpd; [|exact H]. apply owns_ack.
  - apply (someone_else ev (qe_ID ev + 1)); [lia|]. eapply ran_wpd; [|exact H]. apply owns_sweep.
  - apply (someone_else ev id); [done|]. eapply ran_wpd; [|exact H]. apply (owns_retry (someone ev id)).
  - apply (someone_else ev id); [done|]. eapply ran_wpd; [|exact H]. apply (owns_revive (someone ev id)).
  - apply (someone_else ev id); [done|]. eapply ran_wpd; [|exact H]. apply (owns_discard (someone ev id)).
  - by apply aside_undisturbed.
Qed.

Lemma undisturbed_row ev d d' : is_Some (events d !! qe_ID ev) → undisturbed ev d d' → is_Some (events d' !! qe_ID ev).
Proof. intros Hs [_ [->|(e & t & _ & _ & ->)] _ _]; [done|by eexists]. Qed.

Lemma neighbours_undisturbed ev d d' :
  is_Some (events d !! qe_ID ev) → rtc (neighbour ev) d d' → undisturbed ev d d'.
Proof.
  intros Hev H. induction H as [d|d d1 d2 H1 _ IH]; [done|]. apply neighbour_undisturbed in H1; [|done].
  etrans; [exact H1|]. apply IH. by eapply undisturbed_row.
Qed.
