(* ===== verification/Overlap.v ===== *)
(** * Turns among other goroutines (src/internal/cli/turn.go, over a shared store)

    The handler of [TurnHandler], run while the rest of the daemon uses the
    store: between any two of its store calls the drains of other threads, the
    pump, ingest, the session manager and the operator may have moved the
    database ([shared]).  As long as they keep to what [Neighbours] proves of
    them, the handler leaves its event in the same durable states as when it is
    alone, and each of its own calls is a neighbour's call to everyone else. *)
From S2P Require Import Prelude Utf8 Json Trust Schema Events Event Deliveries ToolAttempts.
From S2P Require Import DeadLetters Surface Sessions Turns StoreSpec StoreInv StoreOps Env.
From S2P Require Import Resend Sweep Recovery Stream Engine SessionManager Router Relay TurnHandler.
From S2P Require Import Restart Drain Ingest Daemon Assembly Neighbours.
Local Open Scope Z_scope.

(** ** A store that others move *)

(** The call finds the store as [others] left it.  [others] may read everything
    the program has left in the environment, the remaining statement faults
    included, so each call can find a different history behind it. *)
Definition shared_call (others : env → db) {A} (m : StoreM A) : EnvM A := λ e,
  store_call m (Env (World (others e) (w_faults (env_world e))) (env_ticks e) (env_ctx e)
                  (env_plat e) (env_trace e)).

Definition shared (others : env → db) : StoreAccess := {| liftS := @shared_call others |}.

(** What the others did before one of the calls. *)
Definition others_move (others : env → db) (d d' : db) : Prop := ∃ e, env_db e = d ∧ others e = d'.

(** The store's history between two points of the turn: its own calls and the
    others' moves. *)
Definition history (others : env → db) (ev : QueuedEvent) : db → db → Prop :=
  rtc (λ d d', own_move ev d d' ∨ others_move others d d').

(** The others keep clear of the event. *)
Definition keep_clear (others : env → db) (ev : QueuedEvent) : Prop :=
  ∀ e, is_Some (events (env_db e) !! qe_ID ev) → undisturbed ev (env_db e) (others e).

(** ** Lemmas: calls above the store *)

Section above.
Context (others : env → db) (ev : QueuedEvent).
#[local] Instance access : StoreAccess := shared others.

Lemma wpe_shared {A} (m : StoreM A) (Q : result err A → env → Prop) e :
  wpd m (λ r d', ∀ fs, Q r (Env (World d' fs) (env_ticks e) (env_ctx e) (env_plat e) (env_trace e)))
    (others e) →
  wpe (liftS m) Q e.
Proof.
  intros H. unfold wpe, liftS, access, shared, shared_call, store_call. cbn.
  specialize (H (w_faults (env_world e))). destruct (m _) as [r [d' fs']]. apply H.
Qed.

(** A program whose store calls are all the turn's own, and that starts no turn. *)
Definition minds {A} (m : EnvM A) : Prop := ∀ e,
  wpe m (λ _ e', history others ev (env_db e) (env_db e')
                 ∧ turns_of (env_trace e') = turns_of (env_trace e)) e.

Lemma minds_lift {A} (m : StoreM A) : owns ev m → minds (liftS m).
Proof.
  intros Hm e. apply wpe_shared. eapply wpd_mono; [apply Hm|]. intros r d' H fs. split; [|done].
  eapply rtc_l; [right; by exists e|]. apply rtc_once. by left.
Qed.
Lemma minds_bind {A B} (m : EnvM A) (f : A → EnvM B) : minds m → (∀ a, minds (f a)) → minds (m ≫= f).
Proof.
  intros Hm Hf e. apply wpe_bind. eapply wpe_mono; [apply Hm|]. intros [a|x] e1 [H1 T1]; [|done].
  eapply wpe_mono; [apply Hf|]. intros r e2 [H2 T2]. split; [by etrans|congruence].
Qed.
Lemma minds_try {A} (m : EnvM A) : minds m → minds (try m).
Proof. intros Hm e. apply wpe_try, Hm. Qed.
(** A call that leaves the store and the record of turns alone. *)
Lemma minds_local {A} (m : EnvM A) :
  (∀ e, env_db (m e).2 = env_db e ∧ turns_of (env_trace (m e).2) = turns_of (env_trace e)) → minds m.
Proof. intros Hm e. unfold wpe. specialize (Hm e). destruct (m e). cbn in Hm. by destruct Hm as [-> ->]. Qed.
Lemma minds_ctx : minds ctx_err.
Proof. apply minds_local. intros e. unfold ctx_err. by destruct (next_fault _). Qed.
Lemma minds_emit x : is_turn x = false → minds (emit x).
Proof. intros Hx. apply minds_local. intros e. cbn. rewrite turns_of_app. cbn. by rewrite Hx, app_nil_r. Qed.

Ltac minds :=
  repeat (lazymatch goal with
  | |- minds (_ ≫= _) => apply minds_bind; [|intros ?]
  | |- minds (mbind _ _) => apply minds_bind; [|intros ?]
  | |- minds (try _) => apply minds_try
  | |- minds (liftS _) => apply minds_lift; auto with owns
  | |- minds (emit _) => by apply minds_emit
  | |- minds ctx_err => apply minds_ctx
  | |- minds (if ?b then _ else _) => destruct b
  | |- minds (match ?x with _ => _ end) => destruct x
  | |- minds _ => by apply minds_local
  end).

Context (clock : nat → Z) (gated : bool).

Lemma minds_park : minds (park clock gated true ev).
Proof. unfold park, kick. minds. Qed.
Lemma minds_failure : minds (HandleEngineFailure clock gated true ev).
Proof. unfold HandleEngineFailure, AttemptsForEvent, deadLetter, kick. minds; apply minds_park. Qed.
Lemma minds_stamp ids i : minds (stamp_chunk clock ids i).
Proof. unfold stamp_chunk. minds. Qed.

(** ** Lemmas: the event's row, seen again *)

Context (Hclear : keep_clear others ev).

Definition row_is (d : db) (x : event_row) : Prop := events d !! qe_ID ev = Some x.

Lemma seen e x : row_is (env_db e) x → er_status x ≠ Completed → row_is (others e) x.
Proof.
  unfold row_is. intros Hx Hs. destruct (Hclear e) as [_ [Heq|(y & t & Hy & Hc & _)] _ _]; [by eexists|congruence|].
  by simplify_eq.
Qed.

Lemma history_steps d d' :
  is_Some (events d !! qe_ID ev) → history others ev d d' →
  rtc astep d d' ∧ is_Some (events d' !! qe_ID ev).
Proof.
  intros Hd H. induction H as [d|d d1 d2 H1 _ IH]; [done|].
  assert (H01 : rtc astep d d1 ∧ is_Some (events d1 !! qe_ID ev)).
  { destruct H1 as [H1|(e & <- & <-)].
    - split; [apply H1|]. destruct Hd as [x Hx].
      destruct (gr_events _ _ (steps_grow _ _ (om_steps _ _ _ H1)) _ _ Hx) as (y & Hy & _). by eexists.
    - split; [by apply Hclear|]. eapply undisturbed_row; [exact Hd|by apply Hclear]. }
  destruct H01 as [S1 D1], (IH D1) as [S2 D2]. split; [by etrans|done].
Qed.

(** A park: the row is parked, or as it was. *)
Lemma park_row x e :
  row_is (env_db e) x → er_status x = Received ∨ er_status x = Processing →
  wpe (park clock gated true ev) (λ r e', ∃ x', row_is (env_db e') x'
    ∧ match r with
      | Ok o => o = Parked ∧ er_status x' = Interrupted ∧ er_parks x' = er_parks x + 1
      | Err _ => x' = x
      end) e.
Proof.
  intros Hx Hst. assert (Hnc : er_status x ≠ Completed) by (destruct Hst; congruence).
  unfold park. apply wpe_bind, wpe_now. apply wpe_bind, wpe_shared.
  set (e1 := Env _ _ _ _ _). pose proof (seen e1 x Hx Hnc) as Hx1.
  eapply ParkEvent_wpd; [exact Hx1|done|intros y fs; by exists x|]. intros fs.
  apply wpe_bind, wpe_try, wpe_shared. set (e2 := Env (World _ fs) _ _ _ _).
  set (x1 := event_upd Interrupted (er_attempts x) (er_parks x + 1) (Some (clock (env_ticks e))) x).
  assert (Hx2 : row_is (others e2) x1) by (apply seen; [apply lookup_insert_eq|done]).
  apply SurfaceInterrupted_wpd. intros r d' (Hev & _) fs'.
  assert (Hl : row_is d' x1) by by unfold row_is; rewrite Hev.
  unfold kick. destruct r as [u|y]; [apply wpe_bind, wpe_emit|]; by exists x1.
Qed.

(** Where a failed turn's event lands, with others about. *)
Definition lands (x : event_row) (r : result err Outcome) (x' : event_row) : Prop :=
  match r with
  | Ok Retried => er_status x' = Received ∧ er_attempts x' = er_attempts x + 1 ∧ er_attempts x' ≤ 2
  | Ok Parked => er_status x' = Interrupted ∧ er_parks x' = er_parks x + 1
  | Ok ODead => er_status x' = Dead ∧ 2 ≤ er_attempts x
  | Err _ => x' = x
  end.

Definition landed_on x : result err Outcome → env → Prop := λ r e', ∃ x', row_is (env_db e') x' ∧ lands x r x'.

Lemma park_lands x e :
  row_is (env_db e) x → er_status x = Processing → wpe (park clock gated true ev) (landed_on x) e.
Proof.
  intros Hx Hst. eapply wpe_mono; [apply (park_row x); [done|by right]|].
  intros [o|y] e' (x' & Hx' & Hr); exists x'; (split; [done|]); [by destruct Hr as (-> & ? & ?)|done].
Qed.

Lemma deadLetter_row x e :
  row_is (env_db e) x → er_status x = Processing → 2 ≤ er_attempts x →
  wpe (deadLetter clock gated true ev) (landed_on x) e.
Proof.
  intros Hx Hst Ha. unfold deadLetter. apply wpe_bind, wpe_now. apply wpe_bind, wpe_try, wpe_shared.
  set (e1 := Env _ _ _ _ _). assert (Hx1 : row_is (others e1) x) by (apply seen; [done|congruence]).
  apply DeadLetterEvent_wpd.
  { intros y fs. by apply park_lands. }
  intros x0 r d' Hx0 _ Hev _ _ _ fs. unfold row_is in Hx1. simplify_eq.
  apply wpe_bind, wpe_try, wpe_shared. set (e2 := Env (World _ fs) _ _ _ _).
  set (x1 := event_status_upd Dead _ _) in Hev.
  assert (Hx2 : row_is (others e2) x1).
  { apply seen; [|done]. unfold row_is, env_db. cbn. rewrite Hev. apply lookup_insert_eq. }
  apply SurfaceDeadLetter_wpd. intros s d2 (Hev2 & _) fs2.
  assert (Hl : row_is d2 x1) by by unfold row_is; rewrite Hev2.
  unfold kick. destruct s as [u|y]; [apply wpe_bind, wpe_emit|]; by exists x1.
Qed.

Lemma HandleEngineFailure_row x e :
  row_is (env_db e) x → er_status x = Processing →
  wpe (HandleEngineFailure clock gated true ev) (landed_on x) e.
Proof.
  intros Hx Hst. assert (Hnc : er_status x ≠ Completed) by congruence.
  unfold HandleEngineFailure, AttemptsForEvent. apply wpe_bind, wpe_shared, wpd_query; intros fs; [exists x; by split; [apply seen|]|].
  pose proof (seen e x Hx Hnc) as Hx1. destruct (negb _); [by apply park_lands|].
  apply wpe_bind, wpe_now. apply wpe_bind, wpe_try, wpe_shared.
  match goal with |- wpd _ _ (others ?e) => assert (Hx2 : row_is (others e) x) by by apply seen end.
  apply RequeueEventForRetry_wpd.
  - intros y Hb Hs fs'. destruct y; first [done | by exists x].
  - intros x0 Hx0 Hp Ha fs'. unfold row_is in Hx2. simplify_eq. by apply deadLetter_row.
  - intros x0 _ _ _ _ fs'. by apply park_lands.
  - intros x0 Hx0 Hp Ha _ fs'. unfold row_is in Hx2. simplify_eq.
    set (x1 := event_upd Received _ _ _ _). apply wpe_bind, wpe_try, wpe_shared.
    set (e3 := Env (World _ fs') _ _ _ _).
    assert (Hx3 : row_is (others e3) x1) by (apply seen; [apply lookup_insert_eq|done]).
    apply wpd_query; intros fs1; apply wpe_bind, wpe_emit; exists x1; (split; [exact Hx3|]); cbn; split_and!; try done; lia.
Qed.

(** ** Lemmas: the handler's calls are its own *)

Context {R : Type} `{turnRelayOk R}.
Context (newRelay : option (string → option R)).
Context (runner : TurnRequest → EnvM (list string * result err unit)) (cwd : string).

Definition onward (s s' : hstate R) : Prop :=
  history others ev (hs_db s) (hs_db s')
  ∧ turns_of (env_trace (hs_env s')) = turns_of (env_trace (hs_env s)).

Lemma onward_refl s : onward s s.
Proof. done. Qed.
Lemma onward_trans s1 s2 s3 : onward s1 s2 → onward s2 s3 → onward s1 s3.
Proof. intros [H1 T1] [H2 T2]. split; [by etrans|congruence]. Qed.

Definition mindsH {A} (m : HM R A) : Prop := ∀ s, wpm m (λ _ s', onward s s') s.

Lemma mindsH_lift {A} (m : EnvM A) : minds m → mindsH (liftE m).
Proof. intros Hm s. apply wph_liftE. eapply wpe_mono; [apply Hm|]. done. Qed.
Lemma mindsH_bind {A B} (m : HM R A) (f : A → HM R B) : mindsH m → (∀ a, mindsH (f a)) → mindsH (m ≫= f).
Proof.
  intros Hm Hf s. apply wpm_bind. eapply wpm_mono; [apply Hm|]. intros [a|x] s1 H1; [|done].
  eapply wpm_mono; [apply Hf|]. intros r s2 H2. by eapply onward_trans.
Qed.
Lemma mindsH_try {A} (m : HM R A) : mindsH m → mindsH (try m).
Proof. intros Hm s. apply wpm_try, Hm. Qed.
Lemma mindsH_local {A} (m : HM R A) : (∀ s, hs_env (m s).2 = hs_env s) → mindsH m.
Proof. intros Hm s. unfold wpm, onward, hs_db. specialize (Hm s). destruct (m s). cbn in Hm. by rewrite Hm. Qed.
Lemma mindsH_recover {A} (m : EnvM A) : minds m → mindsH (recover m).
Proof.
  intros Hm s. unfold wpm, recover. destruct (hs_gate s); [done|]. specialize (Hm (hs_env s)). unfold wpe in Hm.
  by destruct (m (hs_env s)).
Qed.
Lemma mindsH_finish ids : mindsH (finish_relay clock ids).
Proof.
  intros s. unfold wpm, finish_relay. destruct (hs_relay s) as [r|]; [|done].
  pose proof (relay_finish_journal env (stamp_chunk clock ids) r (hs_env s)) as [idx Hidx].
  destruct (relay_FinishJournaled _ _ _) as [a [r' e']]. cbn in Hidx. subst e'. unfold onward, hs_db. cbn.
  generalize (hs_env s). induction idx as [|i idx IH]; intros e; [done|]. cbn [foldl].
  pose proof (minds_stamp ids i e) as Hs. unfold wpe in Hs. destruct (stamp_chunk clock ids i e) as [r0 e1].
  destruct Hs as [H1 T1], (IH e1) as [H2 T2]. cbn [snd]. split; [by etrans|congruence].
Qed.

Ltac mindsH :=
  repeat (lazymatch goal with
  | |- mindsH (_ ≫= _) => apply mindsH_bind; [|intros ?]
  | |- mindsH (mbind _ _) => apply mindsH_bind; [|intros ?]
  | |- mindsH (try _) => apply mindsH_try
  | |- mindsH (liftE _) => apply mindsH_lift; minds
  | |- mindsH (finish_relay _ _) => apply mindsH_finish
  | |- mindsH (recover _) => apply mindsH_recover; auto using minds_park, minds_failure
  | |- mindsH (if ?b then _ else _) => destruct b
  | |- mindsH (let '(_, _) := ?x in _) => destruct x
  | |- mindsH (match ?x with _ => _ end) => destruct x
  | |- mindsH _ => by apply mindsH_local
  end).

Lemma mindsH_acks acks ids : mindsH (ack_loop clock acks ids).
Proof.
  revert ids. induction acks as [|a acks IH]; intros [|k ids]; try by apply mindsH_local.
  cbn [ack_loop]. mindsH. apply IH.
Qed.
Lemma mindsH_send keys ids direct : mindsH (send_reply clock gated keys ids direct).
Proof. unfold send_reply, unclaim. mindsH; apply mindsH_acks. Qed.
Lemma mindsH_reply keys ids composed : mindsH (complete_reply clock gated ev keys ids composed).
Proof.
  unfold complete_reply, OwedDeliveriesBefore.
  apply mindsH_bind; [by apply mindsH_local|]. intros relay. apply mindsH_bind; [mindsH|]. intros direct.
  apply mindsH_bind; [mindsH|]. intros t. apply mindsH_bind; [mindsH|].
  intros [u|x]; [apply mindsH_send|by apply mindsH_local].
Qed.
Lemma mindsH_finishTurn text : mindsH (finishTurn clock gated ev text).
Proof.
  unfold finishTurn. destruct (empty text).
  { apply mindsH_bind; [by apply mindsH_local|]. intros _. apply mindsH_bind; [mindsH|]. intros t.
    apply mindsH_bind; [|intros _; by apply mindsH_local]. apply mindsH_try, mindsH_lift, minds_lift.
    apply (owns_complete ev true). }
  cbv zeta. unfold claim, park_reply, unclaim, ParkAmbiguous. mindsH; apply mindsH_reply.
Qed.
Lemma mindsH_failedTurn : mindsH (failedTurn clock gated ev).
Proof. unfold failedTurn, ParkAmbiguous. mindsH. Qed.
Lemma mindsH_malformed : mindsH (deadLetterMalformed clock gated ev).
Proof. unfold deadLetterMalformed. mindsH. Qed.

(** ** Lemmas: exits *)

Lemma wpm_both {A} (m : HM R A) (Q Q' : result err A → hstate R → Prop) s :
  wpm m Q s → wpm m Q' s → wpm m (λ r s', Q r s' ∧ Q' r s') s.
Proof. unfold wpm. destruct (m s). auto. Qed.

Lemma undisturbed_others e x : row_is (env_db e) x → undisturbed ev (env_db e) (others e).
Proof. intros Hx. apply Hclear. by exists x. Qed.

Lemma taken_back text d d' : undisturbed ev d d' → reply_taken ev text d' → reply_taken ev text d.
Proof. intros Hu (i & Hi & Hk). exists i. split; [done|]. by apply (un_keys _ _ _ Hu). Qed.

(** The turn's own state, beside the store. *)
Definition beside (s s' : hstate R) : Prop :=
  hs_keys s' = hs_keys s ∧ hs_gate s' = hs_gate s ∧ hs_relay s' = hs_relay s.

Lemma acks_beside acks ids s : wpm (ack_loop clock acks ids) (λ r s', r = Ok tt ∧ beside s s') s.
Proof.
  revert ids s. induction acks as [|a acks IH]; intros ids s; [done|]. destruct ids as [|i ids]; [done|].
  cbn [ack_loop]. apply wpm_bind, wph_liftE, wpe_now. apply wpm_bind, wpm_try, wph_liftE.
  unfold wpe. destruct (liftS _ _) as [r e']. eapply wpm_mono; [apply IH|]. by intros r' s' [-> H1].
Qed.

Lemma send_beside keys ids direct s :
  (direct = true → is_Some (hs_relay s)) →
  wpm (send_reply clock gated keys ids direct)
    (λ r s', r = Ok tt ∧ hs_keys s' = released gated keys (hs_keys s) ∧ hs_gate s' = hs_gate s) s.
Proof.
  intros Hd. unfold send_reply. destruct direct; [|done]. destruct (Hd eq_refl) as [rl Hrl]. cbn [negb].
  apply wpm_bind. unfold wpm at 1, finish_relay. rewrite Hrl.
  destruct (relay_FinishJournaled _ _ _) as [[acks e] [r' e']].
  apply wpm_bind. eapply wpm_mono; [apply acks_beside|]. intros r s1 (-> & K1 & G1 & _). cbn in K1, G1.
  destruct (bool_decide (e ≠ None) || _); [destruct (bool_decide (acks = []))|];
    unfold wpm, unclaim, put_keys, mbind, HM_bind, M_bind, on_relay, mret, HM_ret, M_ret, liftE, emit; cbn; by rewrite K1, G1.
Qed.

Definition done_row (d : db) : Prop :=
  ∃ y, row_is d y ∧ (er_status y = Completed ∨ er_status y = Replied).

Lemma send_done keys ids direct s :
  (direct = true → is_Some (hs_relay s)) → done_row (hs_db s) →
  wpm (send_reply clock gated keys ids direct)
    (λ r s', r = Ok tt ∧ hs_keys s' = released gated keys (hs_keys s) ∧ hs_gate s' = hs_gate s
       ∧ rtc astep (hs_db s) (hs_db s') ∧ done_row (hs_db s')) s.
Proof.
  intros Hd (y & Hy & Hst). eapply wpm_mono; [apply wpm_both; [by apply send_beside|apply mindsH_send]|].
  intros r s' [(-> & K & G) [Hh _]]. apply history_steps in Hh as [Hs _]; [|by exists y]. split_and!; try done.
  exact (completed_steps _ _ _ _ Hs Hy Hst).
Qed.

(** The completion stamp and the send, from a store that holds the reply. *)
Lemma stamp_send_row x text s0 ids direct (composed : bool) s :
  let keys := map dv_DeliveryKey (reply_rows ev (ChunkMessage text)) in
  row_is (hs_db s) x → er_status x = Processing → hs_keys s = claimed gated keys (hs_keys s0) →
  reply_stored ev text (hs_db s) ∨ reply_taken ev text (hs_db s0) →
  (direct = true → is_Some (hs_relay s)) →
  wpm (t ← liftE (now clock);
       done ← try (liftE (liftS (if composed then MarkEventCompleted (qe_ID ev) t
                                 else MarkEventCompletedReconciled (qe_ID ev) t)));
       match done with
       | Err _ => on_relay relay_Retract
       | Ok _ => send_reply clock gated keys ids direct
       end) (λ r s', r = Ok tt ∧ hs_gate s' = hs_gate s ∧ reply_exit gated ev x text s0 s') s.
Proof.
  intros keys Hx Hst Hk Hans Hd. apply wpm_bind, wph_liftE, wpe_now. apply wpm_bind, wpm_try, wph_liftE, wpe_shared.
  match goal with |- wpd _ _ (others ?e) => set (e1 := e) end.
  assert (Hx1 : row_is (others e1) x) by (apply seen; [done|congruence]).
  pose proof (un_steps _ _ _ (undisturbed_others e1 x Hx)) as Hs1.
  eapply wpd_mono; [apply (complete_wpd composed _ _ _ x Hx1)|]. intros [[]|y] d' Hp fs.
  - destruct Hp as (Hs & y & Hy & Hyst). eapply wpm_mono; [apply send_done; [done|by exists y]|].
    intros r s' (-> & K & G & Hs2 & (x' & Hx' & Hst')). split_and!; try done. exists x'. split; [done|].
    right. right. split_and!; [done| |rewrite K; cbn; by rewrite Hk]. destruct Hans as [Ha|Ha]; [left|by right].
    eapply reply_stored_steps; [|exact Ha]. etrans; [exact Hs1|]. by etrans.
  - cbn in Hp. subst d'. split_and!; try done. exists x. split; [exact Hx1|]. right. left.
    split_and!; [done| |exact Hk]. destruct Hans as [Ha|Ha]; [left|by right].
    by eapply reply_stored_steps.
Qed.

Lemma complete_reply_row x text s0 ids composed s :
  let keys := map dv_DeliveryKey (reply_rows ev (ChunkMessage text)) in
  row_is (hs_db s) x → er_status x = Processing → hs_keys s = claimed gated keys (hs_keys s0) →
  reply_stored ev text (hs_db s) ∨ reply_taken ev text (hs_db s0) →
  wpm (complete_reply clock gated ev keys ids composed)
    (λ r s', r = Ok tt ∧ hs_gate s' = hs_gate s ∧ reply_exit gated ev x text s0 s') s.
Proof.
  intros keys Hx Hst Hk Hans. unfold complete_reply. apply wpm_bind. unfold wpm at 1, get_turn_relay.
  apply wpm_bind. destruct (bool_decide (is_Some (hs_relay s)) && composed) eqn:Hb.
  - apply andb_true_iff in Hb as [Hr%bool_decide_eq_true _].
    apply wpm_bind, wpm_try, wph_liftE, wpe_shared. unfold OwedDeliveriesBefore.
    assert (Hx1 : row_is (others (hs_env s)) x) by (apply seen; [done|congruence]).
    pose proof (un_steps _ _ _ (undisturbed_others (hs_env s) x Hx)) as Hs1.
    assert (Hans' : reply_stored ev text (others (hs_env s)) ∨ reply_taken ev text (hs_db s0)).
    { destruct Hans; [left|by right]. by eapply reply_stored_steps. }
    apply wpd_query; intros fs; apply wpm_ret; (eapply wpm_mono; [by eapply stamp_send_row|]);
      intros r s' Hp; exact Hp.
  - apply wpm_ret. by apply stamp_send_row.
Qed.

(** A park after a failure, with the gate released. *)
Lemma recover_park_row x s :
  hs_gate s = false → row_is (hs_db s) x → er_status x = Processing →
  wpm (recover (ParkAmbiguous clock gated true ev))
    (λ r s', r = Ok tt ∧ beside s s' ∧ ∃ x', row_is (hs_db s') x'
       ∧ (x' = x ∨ er_status x' = Interrupted ∧ er_parks x' = er_parks x + 1)) s.
Proof.
  intros Hg Hx Hst. unfold wpm, recover. rewrite Hg. unfold ParkAmbiguous.
  pose proof (park_row x (hs_env s) Hx (or_intror Hst)) as Hp. unfold wpe in Hp.
  destruct (park clock gated true ev (hs_env s)) as [r e']. destruct Hp as (x' & Hx' & Hr).
  split_and!; try done. exists x'. split; [done|]. destruct r; [right|by left]. by destruct Hr as (_ & ? & ?).
Qed.

Lemma finishTurn_row x text s :
  text ≠ ""%string → row_is (hs_db s) x → er_status x = Processing →
  wpm (finishTurn clock gated ev text)
    (λ r s', r = Ok tt ∧ (hs_gate s' = hs_gate s ∨ hs_gate s' = false) ∧ reply_exit gated ev x text s s') s.
Proof.
  intros Hne Hx Hst. unfold finishTurn, empty. rewrite bool_decide_false by done. cbv zeta.
  set (keys := map dv_DeliveryKey (reply_rows ev (ChunkMessage text))).
  apply wpm_bind. unfold wpm at 1, claim, put_keys. apply wpm_bind, wpm_try, wph_liftE, wpe_shared.
  cbn [hs_env]. assert (Hx1 : row_is (others (hs_env s)) x) by (apply seen; [done|congruence]).
  pose proof (undisturbed_others (hs_env s) x Hx) as Hu.
  eapply wpd_mono; [apply InsertDeliveries_wpd|]. cbn. intros [[ids [|]]|y] d' Hp fs.
  - pose proof (composed_stored _ _ _ _ _ Hp) as Hstored. destruct Hp as (_ & _ & _ & _ & _ & Hd).
    eapply wpm_mono; [eapply (complete_reply_row x text s); [|done|done|by left]|].
    + unfold row_is, hs_db, env_db. cbn. by rewrite Hd.
    + intros r s' (-> & G & He). split_and!; auto.
  - destruct Hp as (-> & -> & Hk). eapply wpm_mono; [eapply (complete_reply_row x text s); [exact Hx1|done|done|]|].
    + right. eapply taken_back; [exact Hu|]. by apply key_taken_reply.
    + intros r s' (-> & G & He). split_and!; auto.
  - subst d'. unfold park_reply. apply wpm_bind. unfold wpm at 1, on_relay. apply wpm_bind. unfold wpm at 1, set_gate.
    apply wpm_bind. unfold wpm at 1, unclaim, put_keys. cbn. eapply wpm_mono; [by apply (recover_park_row x)|].
    intros r s' (-> & (K & G & _) & x' & Hx' & Hor). cbn in *. split_and!; auto.
    exists x'. split; [done|]. left. split; [|done]. destruct Hor as [?|[? _]]; auto.
Qed.

Lemma finishTurn_silent_row x s :
  row_is (hs_db s) x → er_status x = Processing →
  wpm (finishTurn clock gated ev "")
    (λ r s', r = Ok tt ∧ hs_gate s' = hs_gate s ∧ hs_keys s' = hs_keys s
       ∧ ∃ x', row_is (hs_db s') x' ∧ (x' = x ∨ er_status x' = Completed)) s.
Proof.
  intros Hx Hst. unfold finishTurn. cbn. apply wpm_bind. unfold wpm at 1, on_relay.
  apply wpm_bind, wph_liftE, wpe_now. apply wpm_bind, wpm_try, wph_liftE, wpe_shared.
  match goal with |- wpd _ _ (others ?e) => assert (Hx1 : row_is (others e) x) by (apply seen; [done|congruence]) end.
  eapply MarkEventCompleted_wpd; [exact Hx1|intros y fs|intros fs]; split_and!; try done.
  - exists x. split; [exact Hx1|by left].
  - eexists. split; [apply lookup_insert_eq|by right].
Qed.

Lemma failedTurn_row x s :
  row_is (hs_db s) x → er_status x = Processing →
  wpm (failedTurn clock gated ev) (λ r s', r = Ok tt ∧ hs_gate s' = false ∧ failure_exit ev x s s') s.
Proof.
  intros Hx Hst. unfold failedTurn. apply wpm_bind. unfold wpm at 1, on_relay.
  apply wpm_bind. unfold wpm at 1, set_gate. apply wpm_bind, wph_liftE.
  apply wpe_ctx_err. intros over cs. cbn. destruct over.
  { split_and!; try done. split; [done|]. exists x. split; [exact Hx|by left]. }
  apply wpm_bind. unfold wpm at 1, get_turn_relay. cbn.
  destruct (match relay_Cancel <$> hs_relay s with Some r => relay_Posted r | None => false end) eqn:Hp.
  - eapply wpm_mono; [by apply (recover_park_row x)|].
    intros r s' (-> & (K & G & _) & x' & Hx' & Hor). cbn in *. split_and!; auto. split; [done|].
    exists x'. split; [done|]. destruct Hor; auto.
  - unfold wpm, recover. cbn.
    match goal with |- context [HandleEngineFailure clock gated true ev ?e] =>
      pose proof (HandleEngineFailure_row x e Hx Hst) as Hl;
      unfold wpe in Hl; destruct (HandleEngineFailure clock gated true ev e) as [r e'] end.
    split_and!; try done. split; [done|]. destruct Hl as (x' & Hx' & Hr). exists x'. split; [exact Hx'|].
    destruct r as [[| |]|y]; cbn in Hr; [right; right; left|by right; left|by do 3 right|by left].
    destruct Hr as (? & ? & ?). split_and!; try done. cbn. intros r0 Hr0. by rewrite Hr0 in Hp.
Qed.

(** ** Lemmas: the way to the engine and back *)

Definition waited (s s' : hstate R) : Prop :=
  undisturbed ev (hs_db s) (hs_db s') ∧ hs_keys s' = hs_keys s
  ∧ env_trace (hs_env s') = env_trace (hs_env s).

(** A store call that only reads, found after the others' moves. *)
Lemma wait_read {A} (m : StoreM A) (Q : result err A → hstate R → Prop) s x :
  (∀ (P : result err A → db → Prop) d, (∀ r, P r d) → wpd m P d) →
  row_is (hs_db s) x → er_status x ≠ Completed →
  (∀ r s', waited s s' → hs_gate s' = hs_gate s → hs_relay s' = hs_relay s → row_is (hs_db s') x → Q r s') →
  wpm (liftE (liftS m)) Q s.
Proof.
  intros Hm Hx Hs HQ. apply wph_liftE, wpe_shared, Hm. intros r fs. apply HQ; try done; [|by apply seen].
  split_and!; try done. by eapply undisturbed_others.
Qed.

Lemma query_reads {A} (f : db → A) (P : result err A → db → Prop) d : (∀ r, P r d) → wpd (query f) P d.
Proof. intros HP. by apply wpd_query. Qed.

Lemma waited_trans s1 s2 s3 : waited s1 s2 → waited s2 s3 → waited s1 s3.
Proof. intros (U1 & K1 & T1) (U2 & K2 & T2). split_and!; [by etrans|congruence..]. Qed.

Lemma acquire_row x s :
  row_is (hs_db s) x → er_status x ≠ Completed →
  wpm (acquireRelay gated newRelay ev) (λ r s', r = Ok tt ∧ waited s s' ∧ row_is (hs_db s') x) s.
Proof.
  intros Hx Hnc. unfold acquireRelay. destruct newRelay as [mk|]; [|done].
  apply wpm_bind, wpm_try. apply (wait_read _ _ _ x); [intros P d HP; by apply AcquireTarget_wpd|done..|].
  intros [u|y] s1 W1 _ _ X1; [|done]. apply wpm_bind. unfold wpm at 1, set_gate.
  assert (Hend : ∀ rl s2, waited s s2 → row_is (hs_db s2) x →
    wpm (_ ← set_relay rl; match rl with None => set_gate false | Some _ => mret tt end)
      (λ r s', r = Ok tt ∧ waited s s' ∧ row_is (hs_db s') x) s2).
  { intros rl s2 H2 X2. apply wpm_bind. unfold wpm at 1, set_relay. by destruct rl. }
  apply wpm_bind, wpm_try. apply (wait_read _ _ _ x); [intros; by apply query_reads|done..|].
  intros prior s2 W2 _ _ X2. assert (W02 : waited s s2) by (by eapply waited_trans; [exact W1|]).
  apply wpm_bind. destruct prior as [[]|y]; [by apply Hend| |by apply Hend].
  apply wpm_bind, wpm_try. apply (wait_read _ _ _ x); [intros; by apply query_reads|done..|].
  intros owed s3 W3 _ _ X3. assert (W03 : waited s s3) by (by eapply waited_trans).
  destruct owed as [[]|y]; by apply Hend.
Qed.

Lemma mindsH_acquire : mindsH (acquireRelay gated newRelay ev).
Proof. unfold acquireRelay, EventHasDeliveries, HasOwedDeliveries. mindsH. Qed.

(** The session manager beside the others: its calls leave the queue, the
    outbox and the dead letters alone. *)
Definition beside_others : db → db → Prop := rtc (λ d d', aside d d' ∨ others_move others d d').

Definition runner_among : Prop := ∀ req e,
  wpe (runner req) (λ r e', is_ok r = true ∧ beside_others (env_db e) (env_db e')
    ∧ turns_of (env_trace e') = turns_of (env_trace e)) e.

Lemma beside_history d d' : beside_others d d' → history others ev d d'.
Proof.
  intros Hb. induction Hb as [|d d1 d2 H1 _ IH]; [done|]. eapply rtc_l; [|exact IH].
  destruct H1; [left; by apply aside_own|by right].
Qed.
Lemma beside_undisturbed d d' : is_Some (events d !! qe_ID ev) → beside_others d d' → undisturbed ev d d'.
Proof.
  intros Hd Hb. induction Hb as [d|d d1 d2 H1 _ IH]; [done|].
  assert (Hu : undisturbed ev d d1) by (destruct H1 as [H1|(e & <- & <-)]; [by apply aside_undisturbed|by apply Hclear]).
  etrans; [exact Hu|]. apply IH. by eapply undisturbed_row.
Qed.

Lemma undisturbed_running d d' x :
  undisturbed ev d d' → row_is d x → er_status x ≠ Completed → row_is d' x.
Proof. intros [_ [Heq|(y & t & Hy & Hc & _)] _ _] Hx Hs; unfold row_is in *; [congruence|by simplify_eq]. Qed.

(** The one engine turn of an owner's event, with others about. *)
Definition turn_run_among (x : event_row) (prompt : string) (s s' : hstate R) : Prop :=
  ∃ e1 e2 deltas r, undisturbed ev (hs_db s) (env_db e1)
  ∧ runner (turn_request cwd ev prompt) e1 = (Ok (deltas, r), e2)
  ∧ undisturbed ev (env_db e1) (env_db e2)
  ∧ turns_of (env_trace (hs_env s')) = turns_of (env_trace (hs_env s))
      ++ [FxTurn (qe_ThreadKey ev) (Floor [qe_Trust ev]) (qe_Kind ev) prompt]
  ∧ match r with
    | Err _ => failure_exit ev x s s'
    | Ok _ =>
        if empty (reply_text deltas) then
          hs_keys s' = hs_keys s ∧ ∃ x', row_is (hs_db s') x' ∧ (x' = x ∨ er_status x' = Completed)
        else reply_exit gated ev x (reply_text deltas) s s'
    end.

Lemma runTurn_among x prompt s s1 :
  runner_among → waited s s1 → row_is (hs_db s1) x → er_status x = Processing →
  wpm (runTurn clock gated runner cwd ev prompt)
    (λ r s', r = Ok tt ∧ turn_run_among x prompt s s' ∧ history others ev (hs_db s1) (hs_db s')) s1.
Proof.
  intros Hrun (U1 & K1 & T1) Hx Hst. assert (Hnc : er_status x ≠ Completed) by congruence.
  unfold runTurn. cbv zeta. apply wpm_bind, wph_liftE, wpe_emit. cbn. set (e1 := Env _ _ _ _ _).
  apply wpm_bind, wph_liftE. pose proof (Hrun (turn_request cwd ev prompt) e1) as Hr.
  match goal with |- wpe _ ?Q _ => change (wpe (runner (turn_request cwd ev prompt)) Q e1) end.
  unfold wpe in *. destruct (runner (turn_request cwd ev prompt) e1) as [[[deltas r]|y] e2] eqn:Hq;
    destruct Hr as (Hok & B2 & T2); [|done]. cbn.
  assert (U2 : undisturbed ev (env_db e1) (env_db e2)) by (apply beside_undisturbed; [by exists x|exact B2]).
  apply beside_history in B2. cbn in T2. rewrite T1, turns_of_app in T2.
  apply wpm_bind. unfold wpm at 1, get_turn_relay. cbn.
  pose proof (output_all_text deltas "" (hs_relay s1)) as Htext.
  destruct (output_all deltas "" (hs_relay s1)) as [reply rl]. cbn in Htext. subst reply.
  apply wpm_bind. unfold wpm at 1, set_relay. cbn. set (s2 := HState e2 _ _ _).
  assert (Hx2 : row_is (hs_db s2) x) by (eapply undisturbed_running; [exact U2|exact Hx|done]).
  assert (U02 : undisturbed ev (hs_db s) (hs_db s2)) by (etrans; [exact U1|exact U2]).
  assert (Hgoal : ∀ s', onward s2 s' →
    match r with
    | Err _ => failure_exit ev x s s'
    | Ok _ => if empty (sink deltas "") then hs_keys s' = hs_keys s
          ∧ ∃ x', row_is (hs_db s') x' ∧ (x' = x ∨ er_status x' = Completed)
        else reply_exit gated ev x (sink deltas "") s s' end →
    turn_run_among x prompt s s' ∧ history others ev (hs_db s1) (hs_db s')).
  { intros s' [Hh T'] Hm. split; [|by etrans].
    exists e1, e2, deltas, r. split_and!; [exact U1|exact Hq|exact U2|etrans; [exact T'|exact T2]|exact Hm]. }
  destruct r as [[]|y].
  - destruct (empty (sink deltas "")) eqn:He.
    + apply empty_true in He. rewrite He.
      eapply wpm_mono; [apply wpm_both; [by apply (finishTurn_silent_row x)|apply mindsH_finishTurn]|].
      intros r s' [(-> & _ & K & Hx') Hw]. split; [done|]. apply Hgoal; [done|]. split; [by rewrite K|done].
    + apply empty_false in He.
      eapply wpm_mono; [apply wpm_both; [by apply (finishTurn_row x)|apply mindsH_finishTurn]|].
      intros r s' [(-> & _ & x' & Hx' & Hex) Hw]. split; [done|]. apply Hgoal; [done|].
      exists x'. split; [done|]. cbn in Hex. rewrite K1 in Hex.
      destruct Hex as [?|[(? & [?|Ht] & ?)|(? & [?|Ht] & ?)]]; try apply (taken_back _ _ _ U02) in Ht; auto 8.
  - eapply wpm_mono; [apply wpm_both; [by apply (failedTurn_row x)|apply mindsH_failedTurn]|].
    intros r s' [(-> & _ & K & Hf) Hw]. split; [done|]. apply Hgoal; [done|]. split; [by rewrite K|exact Hf].
Qed.

(** How the handler leaves its event, with others about. *)
Definition exit_among (x : event_row) (s s' : hstate R) : Prop :=
  let no_turn := turns_of (env_trace (hs_env s')) = turns_of (env_trace (hs_env s)) in
  if String.eqb (qe_Trust ev) "owner" then
    match event_text (qe_Payload ev) with
    | None => no_turn ∧ hs_keys s' = hs_keys s ∧ ∃ x', row_is (hs_db s') x'
        ∧ (x' = x ∨ er_status x' = Dead ∧ ∃ r, dead_letters (hs_db s') !! qe_ID ev = Some r
             ∧ dd_reason r = "malformed"%string ∧ dd_resolution r = None)
    | Some prompt => turn_run_among x prompt s s'
    end
  else no_turn ∧ hs_keys s' = hs_keys s
    ∧ ∃ x', row_is (hs_db s') x' ∧ (x' = x ∨ er_status x' = Skipped).

Lemma malformed_row x (s : hstate R) :
  row_is (hs_db s) x → er_status x = Processing →
  wpm (deadLetterMalformed clock gated ev)
    (λ r s', r = Ok tt ∧ hs_gate s' = hs_gate s ∧ hs_keys s' = hs_keys s
       ∧ ∃ x', row_is (hs_db s') x'
         ∧ (x' = x ∨ er_status x' = Dead ∧ ∃ r, dead_letters (hs_db s') !! qe_ID ev = Some r
              ∧ dd_reason r = "malformed"%string ∧ dd_resolution r = None)) s.
Proof.
  intros Hx Hst. unfold deadLetterMalformed. apply wpm_bind, wph_liftE, wpe_now.
  apply wpm_bind, wpm_try, wph_liftE, wpe_shared.
  match goal with |- wpd _ _ (others ?e) => assert (Hx1 : row_is (others e) x) by (apply seen; [done|congruence]) end.
  apply DeadLetterEvent_wpd.
  { intros y fs. split_and!; try done. exists x. split; [exact Hx1|by left]. }
  intros x0 r d' Hx0 _ Hev Hr Hre Hres fs. apply wpm_bind, wpm_try, wph_liftE, wpe_shared.
  match goal with |- wpd _ _ (others ?e) => set (e2 := e) end.
  set (x1 := event_status_upd Dead _ _) in Hev.
  assert (Hd : row_is (env_db e2) x1) by (unfold row_is, env_db; cbn; rewrite Hev; apply lookup_insert_eq).
  assert (Hd2 : row_is (others e2) x1) by by apply seen.
  destruct (un_dead _ _ _ (undisturbed_others e2 x1 Hd) r Hr) as (r2 & Hr2 & Hre2 & Hres2).
  apply SurfaceDeadLetter_wpd. intros sr d2 (Hev2 & Hdl2 & _) fs2.
  assert (Hend : ∃ x', row_is d2 x' ∧ (x' = x ∨ er_status x' = Dead ∧ ∃ r, dead_letters d2 !! qe_ID ev = Some r
      ∧ dd_reason r = "malformed"%string ∧ dd_resolution r = None)).
  { exists x1. unfold row_is. rewrite Hev2. split; [exact Hd2|]. right. split; [done|]. exists r2. rewrite Hdl2.
    split_and!; [done|congruence..]. }
  destruct sr; [apply wph_liftE, wpe_emit|]; by split_and!.
Qed.

Lemma skip_row x (s : hstate R) :
  row_is (hs_db s) x → er_status x = Processing →
  wpm (t ← liftE (now clock); _ ← try (liftE (liftS (SkipEvent (qe_ID ev) t))); mret tt)
    (λ r s', r = Ok tt ∧ hs_gate s' = hs_gate s ∧ hs_keys s' = hs_keys s
       ∧ ∃ x', row_is (hs_db s') x' ∧ (x' = x ∨ er_status x' = Skipped)) s.
Proof.
  intros Hx Hst. apply wpm_bind, wph_liftE, wpe_now. apply wpm_bind, wpm_try, wph_liftE, wpe_shared.
  match goal with |- wpd _ _ (others ?e) => assert (Hx1 : row_is (others e) x) by (apply seen; [done|congruence]) end.
  eapply SkipEvent_wpd; [exact Hx1|intros y fs|intros fs]; split_and!; try done.
  - exists x. split; [exact Hx1|by left].
  - eexists. split; [apply lookup_insert_eq|by right].
Qed.
Lemma mindsH_skip : mindsH (t ← liftE (now clock); _ ← try (liftE (liftS (SkipEvent (qe_ID ev) t))); mret tt).
Proof. mindsH. Qed.

Lemma productionTurn_among x s :
  runner_among → hs_gate s = false → row_is (hs_db s) x → er_status x = Processing →
  wpm (productionTurn clock gated newRelay runner cwd ev)
    (λ r s', r = Ok tt ∧ hs_gate s' = false ∧ exit_among x s s'
       ∧ history others ev (hs_db s) (hs_db s')) s.
Proof.
  intros Hrun Hg Hx Hst. unfold productionTurn, exit_among.
  destruct (String.eqb (qe_Trust ev) "owner"); cbn [negb].
  - destruct (event_text (qe_Payload ev)) as [prompt|].
    + apply wpm_bind. unfold wpm at 1, set_relay. apply wpm_bind. unfold wpm at 1, set_gate. cbn.
      apply wpm_bind. eapply wpm_mono; [apply wpm_both; [apply (acquire_row x); [done|congruence]|apply mindsH_acquire]|].
      intros r s1 [(-> & W1 & X1) [H1 _]]. apply wpm_bind.
      eapply wpm_mono; [by eapply runTurn_among|]. intros r s' (-> & H2 & H3). unfold wpm, set_gate.
      split_and!; try done. by etrans.
    + eapply wpm_mono; [apply wpm_both; [by apply (malformed_row x)|apply mindsH_malformed]|].
      intros r s' [(-> & G & K & Hd) [Hh T]]. split_and!; try done. by rewrite G.
  - eapply wpm_mono; [apply wpm_both; [by apply (skip_row x)|apply mindsH_skip]|].
    intros r s' [(-> & G & K & Hd) [Hh T]]. split_and!; try done. by rewrite G.
Qed.
End above.

(** ** The session manager beside the others *)

Section manager.
Context (others : env → db) (m : Manager) (clock : nat → Z) (rand : nat → option (list Z)) (fs : nat → filesystem).
Context (start resume : Spec → EnvM unit).
#[local] Instance manager_access : StoreAccess := shared others.

Definition manages {A} (p : EnvM A) : Prop := ∀ e,
  wpe p (λ _ e', beside_others others (env_db e) (env_db e')
                 ∧ turns_of (env_trace e') = turns_of (env_trace e)) e.

Context (Hstart : ∀ s, manages (start s)) (Hresume : ∀ s, manages (resume s)).

Lemma manages_lift {A} (p : StoreM A) : steps p → framed p → manages (liftS p).
Proof.
  intros Hs Hf e. apply wpe_shared. eapply wpd_mono; [apply wpd_conj; [apply Hs|apply Hf]|].
  intros r d' [H1 H2] fs'. split; [|done]. eapply rtc_l; [right; by exists e|]. apply rtc_once. by left.
Qed.
Lemma manages_bind {A B} (p : EnvM A) (f : A → EnvM B) : manages p → (∀ a, manages (f a)) → manages (p ≫= f).
Proof.
  intros Hm Hf e. apply wpe_bind. eapply wpe_mono; [apply Hm|]. intros [a|x] e1 [H1 T1]; [|done].
  eapply wpe_mono; [apply Hf|]. intros r e2 [H2 T2]. split; [by etrans|congruence].
Qed.
Lemma manages_try {A} (p : EnvM A) : manages p → manages (try p).
Proof. intros Hm e. apply wpe_try, Hm. Qed.
Lemma manages_local {A} (p : EnvM A) :
  (∀ e, env_world (p e).2 = env_world e ∧ turns_of (env_trace (p e).2) = turns_of (env_trace e)) → manages p.
Proof.
  intros Hm e. unfold wpe, env_db. specialize (Hm e). destruct (p e). cbn in Hm. by destruct Hm as [-> ->].
Qed.
Lemma manages_emit x : is_turn x = false → manages (emit x).
Proof. intros Hx. apply manages_local. intros e. cbn. rewrite turns_of_app. cbn. by rewrite Hx, app_nil_r. Qed.
Lemma manages_ctx : manages ctx_err.
Proof. apply manages_local. intros e. unfold ctx_err. by destruct (next_fault _). Qed.
Lemma manages_mint tk floor cwd origin : manages (mint m clock rand tk floor cwd origin).
Proof.
  apply manages_local. intros e. unfold mint, newSessionID, mbind, EnvM_bind, M_bind.
  by destruct (rand _).
Qed.
Lemma manages_assert cwd : manages (assertCwd fs cwd).
Proof.
  apply manages_local. intros e. unfold assertCwd, the_fs, mbind, EnvM_bind, M_bind.
  by destruct (fs_stat_is_dir (fs (env_ticks e)) cwd) as [[]|].
Qed.
Lemma manages_query {A} (f : db → A) : manages (liftS (query f)).
Proof. apply manages_lift; [apply steps_query|]. intros d. by apply wpd_query. Qed.
Lemma manages_retire f old s from retired ge :
  retire_edge from retired → manages (liftS (retireSession f old s from retired ge)).
Proof. intros He. apply manages_lift; [by apply retireSession_steps|]. intros d. by apply retireSession_wpd. Qed.
Lemma manages_insert f s : manages (liftS (InsertSession f s)).
Proof. apply manages_lift; [apply InsertSession_steps|]. intros d. by apply InsertSession_wpd. Qed.
Lemma manages_activate sid : manages (liftS (ActivateSession sid)).
Proof.
  apply manages_lift; [by apply transitionCreating_steps; constructor|].
  unfold ActivateSession, transitionCreating. apply framed_update. intros n. apply framed_end.
Qed.
Lemma manages_touch sid : manages (touch clock sid).
Proof.
  unfold touch. apply manages_bind; [by apply manages_local|]. intros t. apply manages_bind; [|intros r; by apply manages_local].
  apply manages_try, manages_lift; [apply TouchSession_steps|]. unfold TouchSession. apply framed_update.
  intros n. apply framed_end.
Qed.

Ltac manages :=
  repeat (lazymatch goal with
  | |- manages (_ ≫= _) => apply manages_bind; [|intros ?]
  | |- manages (mbind _ _) => apply manages_bind; [|intros ?]
  | |- manages (try _) => apply manages_try
  | |- manages (emit _) => by apply manages_emit
  | |- manages ctx_err => apply manages_ctx
  | |- manages (start _) => apply Hstart
  | |- manages (resume _) => apply Hresume
  | |- manages (liftS (ResolveLiveSession _)) => apply manages_query
  | |- manages (liftS (SessionDegraded _)) => apply manages_query
  | |- manages (if ?b then _ else _) => destruct b
  | |- manages (let '(_, _) := ?x in _) => destruct x
  | |- manages (match ?x with _ => _ end) => destruct x
  | |- manages (mret _) => by apply manages_local
  | |- manages (fail _) => by apply manages_local
  | |- manages (now _) => by apply manages_local
  | |- manages (the_fs _) => by apply manages_local
  end).

Lemma manages_startNew live note kind prompt : manages (startNew clock start live note kind prompt).
Proof. unfold startNew. manages; auto using manages_activate, manages_touch. Qed.
Lemma manages_degrade live cwd : manages (degradeResumeFailed m clock rand fs live cwd).
Proof. unfold degradeResumeFailed. manages; [apply manages_mint|apply manages_retire; constructor]. Qed.
Lemma manages_turn_on live req : manages (turn_on m clock rand fs start resume live req).
Proof.
  unfold turn_on, degradationNote, resumeTurn. manages;
    auto using manages_startNew, manages_degrade, manages_assert, manages_touch.
Qed.
Lemma manages_Turn req : manages (Turn m clock rand fs start resume req).
Proof.
  unfold Turn, Ensure, rotationCause, pin, rotate. manages;
    first [apply manages_mint|apply manages_insert|apply manages_retire; constructor|apply manages_assert
          |apply manages_startNew|apply manages_degrade|apply manages_turn_on].
Qed.

Lemma session_runner_among says : runner_among others (session_runner m clock rand fs start resume says).
Proof.
  intros req e. pose proof (manages_Turn req e) as Ht. unfold wpe, session_runner in *.
  destruct (Turn _ _ _ _ _ _ _ _) as [r e']. by destruct Ht as [H T].
Qed.
End manager.

(** ** The wired handler *)

Lemma record_turn_framed row : framed (record_turn row).
Proof.
  intros d. eapply wpd_mono; [apply record_turn_wpd|]. intros [u|x] d' Hd; [by subst|].
  by destruct Hd as [-> _].
Qed.

#[local] Existing Instance talk_relay.
#[local] Existing Instance talk_relay_ok.

Section wired.
Context (others : env → db) (w : wiring) (clock : nat → Z) (rand : nat → option (list Z)) (fs : nat → filesystem).
Context (spawn : nat → invocation → child) (says : env → list string).
Context (Hrec : ep_recordTurn (wi_pin w) = record_turn).
#[local] Instance wired_access : StoreAccess := shared others.

Lemma engine_manages spec flag : manages others (engine_run clock true spawn (wi_pin w) spec flag).
Proof.
  unfold engine_run. apply manages_bind; [by apply manages_local|]. intros c. apply manages_bind; [by apply manages_local|].
  intros ts. apply manages_bind.
  - rewrite Hrec. apply manages_try, manages_lift; [|apply record_turn_framed].
    unfold record_turn. apply steps_bind; [apply InsertTurn_steps|intros; apply steps_ret].
  - intros r. destruct (turn_error _); by apply manages_local.
Qed.

Lemma wired_runner_among : runner_among others (wired_runner w clock rand fs spawn says).
Proof. apply session_runner_among; intros s; apply engine_manages. Qed.
End wired.

(** ** Properties *)


(** Before each call of the demo's turn another message has arrived, and its
    own turn has begun. *)
Definition other_event : QueuedEvent := queued_of 2 sample_event.
Definition busy (e : env) : db :=
  (run (MarkEventProcessing 2 101) (run (InsertEvent sample_event) (env_db e)).2).2.
Definition demo_queued : QueuedEvent := queued_of 1 (store_event demo_stamped 100).
Definition busy_run : result err unit * hstate dstate :=
  wired_handler (SA := shared busy) demo_wiring (λ _, 100 * Second) (λ _, Some (repeat 7 16)) (λ _, sample_fs)
    sample_child (λ _, ["hi"%string]) (Some fresh_dstate) demo_queued demo_state.

Lemma run_ran {A} (m : StoreM A) d : ran m d (run m d).2.
Proof. exists [], (run m d).1. unfold run. destruct (m (World d [])) as [r [d' fs]]. by exists fs. Qed.

Lemma busy_neighbours e : rtc (neighbour demo_queued) (env_db e) (busy e).
Proof.
  eapply rtc_l; [eapply nb_receive, run_ran|]. apply rtc_once, (nb_turn _ _ other_event); [done|done|].
  eapply ran_wpd; [apply (owns_mark other_event)|apply run_ran].
Qed.

