(* ===== verification/Shutdown.v ===== *)
(** * Bringing the daemon down (src/internal/cli/daemon.go, runDaemon from Rebuild on)

    [Daemon] has the phases of a life in order; here the goroutines behind its
    last phases interleave: the admin server's handlers, the adapter, the pump
    and the router's drains, with signals, a drain verb or a terminal gateway
    refusal arriving whenever they like.  The main goroutine joins all of them
    before the deferred close of the store. *)
From S2P Require Import Prelude Daemon.
Local Open Scope Z_scope.

(** ** State *)

(** The main goroutine. *)
Inductive main_at : Type :=
| Building                 (* Rebuild returned; its drains may be running *)
| InServe                  (* srv.Serve accepts *)
| EndServe                 (* srv.Serve waits for its handlers *)
| Served                   (* srv.Serve returned *)
| AwaitAdapter | AwaitPump | AwaitDrains
| Leaving (code : Z)       (* only the deferred calls are left *)
| Gone (code : Z).
#[global] Instance main_at_eq_dec : EqDecision main_at.
Proof. solve_decision. Defined.

(** The adapter's goroutine: [AFailed] has noted adapterErr and not yet called
    cancel, [ACanceled] has not yet closed adapterDone. *)
Inductive adapter_at : Type := ARunning | AFailed | ACanceled | ADone.
#[global] Instance adapter_at_eq_dec : EqDecision adapter_at.
Proof. solve_decision. Defined.

Record process : Type := Process {
  pr_main : main_at;
  pr_ctx : bool;             (* ctx is canceled *)
  pr_verb : bool;            (* the drain verb closed s.drain *)
  pr_adapter : adapter_at;
  pr_pump : bool;            (* the pump's goroutine runs *)
  pr_drains : nat;           (* the router's wait group *)
  pr_handlers : nat;         (* admin handlers *)
  pr_adapterErr : bool;
  pr_serveErr : bool;
  pr_store : bool;           (* the store is open *)
}.

(** After Rebuild, which started a drain per queued thread. *)
Definition rebuilt (drains : nat) : process :=
  Process Building false false ADone false drains 0 false false true.

Definition at_main (m : main_at) (s : process) : process :=
  Process m (pr_ctx s) (pr_verb s) (pr_adapter s) (pr_pump s) (pr_drains s) (pr_handlers s)
    (pr_adapterErr s) (pr_serveErr s) (pr_store s).
Definition canceled (s : process) : process :=
  Process (pr_main s) true (pr_verb s) (pr_adapter s) (pr_pump s) (pr_drains s) (pr_handlers s)
    (pr_adapterErr s) (pr_serveErr s) (pr_store s).
Definition at_adapter (a : adapter_at) (err : bool) (s : process) : process :=
  Process (pr_main s) (pr_ctx s) (pr_verb s) a (pr_pump s) (pr_drains s) (pr_handlers s)
    err (pr_serveErr s) (pr_store s).
Definition set_drains (n : nat) (s : process) : process :=
  Process (pr_main s) (pr_ctx s) (pr_verb s) (pr_adapter s) (pr_pump s) n (pr_handlers s)
    (pr_adapterErr s) (pr_serveErr s) (pr_store s).
Definition set_handlers (n : nat) (s : process) : process :=
  Process (pr_main s) (pr_ctx s) (pr_verb s) (pr_adapter s) (pr_pump s) (pr_drains s) n
    (pr_adapterErr s) (pr_serveErr s) (pr_store s).

(** ** The main goroutine *)

(** The adapter is built and its goroutine and the pump's start; without an
    adapter both channels are closed at once. *)
Definition start_adapter (runner : option bool) (s : process) : option process :=
  match pr_main s with
  | Building =>
      let '(a, pump) := match runner with None => (ADone, false) | Some sender => (ARunning, sender) end in
      Some (Process InServe (pr_ctx s) (pr_verb s) a pump (pr_drains s) (pr_handlers s)
              (pr_adapterErr s) (pr_serveErr s) (pr_store s))
  | _ => None
  end.

(** newDiscordRunner's error returns at once. *)
Definition refuse_adapter (s : process) : option process :=
  match pr_main s with Building => Some (at_main (Leaving exitUnrecoverable) s) | _ => None end.

(** Serve leaves its loop: the context or the verb closed the listener, or it
    failed by itself. *)
Definition leave_serve (failed : bool) (s : process) : option process :=
  match pr_main s with
  | InServe =>
      if failed || pr_ctx s || pr_verb s then
        Some (Process EndServe (pr_ctx s) (pr_verb s) (pr_adapter s) (pr_pump s) (pr_drains s)
                (pr_handlers s) (pr_adapterErr s) failed (pr_store s))
      else None
  | _ => None
  end.

Definition serve_returns (s : process) : option process :=
  match pr_main s, pr_handlers s with EndServe, O => Some (at_main Served s) | _, _ => None end.

Definition exit_of (s : process) : Z :=
  if pr_adapterErr s then exitUnrecoverable else if pr_serveErr s then 1 else 0.

(** cancel(); <-adapterDone; <-resendDone; queues.Wait(); the exit code. *)
Definition join (s : process) : option process :=
  match pr_main s with
  | Served => Some (canceled (at_main AwaitAdapter s))
  | AwaitAdapter => if bool_decide (pr_adapter s = ADone) then Some (at_main AwaitPump s) else None
  | AwaitPump => if pr_pump s then None else Some (at_main AwaitDrains s)
  | AwaitDrains =>
      if Nat.eqb (pr_drains s) 0 then Some (at_main (Leaving (exit_of s)) s) else None
  | _ => None
  end.

(** The deferred cancel, stop and db.Close. *)
Definition deferred_close (s : process) : option process :=
  match pr_main s with
  | Leaving code =>
      Some (Process (Gone code) true (pr_verb s) (pr_adapter s) (pr_pump s) (pr_drains s)
              (pr_handlers s) (pr_adapterErr s) (pr_serveErr s) false)
  | _ => None
  end.

(** ** The other goroutines *)

(** runner.Run ended: with an error of its own, or because of the context. *)
Definition adapter_ends (own : bool) (s : process) : option process :=
  match pr_adapter s with
  | ARunning =>
      if own then Some (at_adapter AFailed true s)
      else if pr_ctx s then Some (at_adapter ADone (pr_adapterErr s) s) else None
  | _ => None
  end.
Definition adapter_cancels (s : process) : option process :=
  match pr_adapter s with
  | AFailed => Some (at_adapter ACanceled (pr_adapterErr s) (canceled s))
  | _ => None
  end.
Definition adapter_closes (s : process) : option process :=
  match pr_adapter s with ACanceled => Some (at_adapter ADone (pr_adapterErr s) s) | _ => None end.

Definition pump_ends (s : process) : option process :=
  if pr_pump s && pr_ctx s then
    Some (Process (pr_main s) (pr_ctx s) (pr_verb s) (pr_adapter s) false (pr_drains s)
            (pr_handlers s) (pr_adapterErr s) (pr_serveErr s) (pr_store s))
  else None.

(** A signal, the drain verb, and the admin handlers. *)
Definition signaled (s : process) : option process := if pr_ctx s then None else Some (canceled s).
Definition drain_verb (s : process) : option process :=
  if Nat.ltb 0 (pr_handlers s) && negb (pr_verb s) then
    Some (Process (pr_main s) (pr_ctx s) true (pr_adapter s) (pr_pump s) (pr_drains s)
            (pr_handlers s) (pr_adapterErr s) (pr_serveErr s) (pr_store s))
  else None.
Definition accept (s : process) : option process :=
  match pr_main s with InServe => Some (set_handlers (S (pr_handlers s)) s) | _ => None end.
Definition handled (s : process) : option process :=
  match pr_handlers s with S n => Some (set_handlers n s) | O => None end.

(** Queues.Enqueue, from ingest, a readmission or a retry's timer, starts a
    drain unless the context is over; a drain that finds its queue empty or the
    context over ends. *)
Definition enqueue (s : process) : option process :=
  if pr_ctx s then None else Some (set_drains (S (pr_drains s)) s).
Definition drain_ends (s : process) : option process :=
  match pr_drains s with S n => Some (set_drains n s) | O => None end.

Inductive sstep (s : process) : process → Prop :=
| ss_start runner s' : start_adapter runner s = Some s' → sstep s s'
| ss_refuse s' : refuse_adapter s = Some s' → sstep s s'
| ss_leave failed s' : leave_serve failed s = Some s' → sstep s s'
| ss_return s' : serve_returns s = Some s' → sstep s s'
| ss_join s' : join s = Some s' → sstep s s'
| ss_close s' : deferred_close s = Some s' → sstep s s'
| ss_adapter own s' : adapter_ends own s = Some s' → sstep s s'
| ss_cancels s' : adapter_cancels s = Some s' → sstep s s'
| ss_closes s' : adapter_closes s = Some s' → sstep s s'
| ss_pump s' : pump_ends s = Some s' → sstep s s'
| ss_signal s' : signaled s = Some s' → sstep s s'
| ss_verb s' : drain_verb s = Some s' → sstep s s'
| ss_accept s' : accept s = Some s' → sstep s s'
| ss_handled s' : handled s = Some s' → sstep s s'
| ss_enqueue s' : enqueue s = Some s' → sstep s s'
| ss_drained s' : drain_ends s = Some s' → sstep s s'.

(** ** Invariant *)

(** Nothing but the drains can still use the store. *)
Definition quiet_but_drains (s : process) : Prop :=
  pr_adapter s = ADone ∧ pr_pump s = false ∧ pr_handlers s = 0%nat.

(** The way out: everything joined, or the adapter refused before it began. *)
Definition left_by (code : Z) (s : process) : Prop :=
  quiet_but_drains s ∧ (pr_ctx s = true ∧ pr_drains s = 0%nat ∧ code = exit_of s
                        ∨ pr_adapterErr s = false ∧ code = exitUnrecoverable).

Definition stage (s : process) : Prop :=
  match pr_main s with
  | Building => quiet_but_drains s ∧ pr_adapterErr s = false ∧ pr_store s = true
  | InServe | EndServe => pr_store s = true
  | Served => pr_handlers s = 0%nat ∧ pr_store s = true
  | AwaitAdapter => pr_ctx s = true ∧ pr_handlers s = 0%nat ∧ pr_store s = true
  | AwaitPump => pr_ctx s = true ∧ pr_handlers s = 0%nat ∧ pr_adapter s = ADone ∧ pr_store s = true
  | AwaitDrains => pr_ctx s = true ∧ quiet_but_drains s ∧ pr_store s = true
  | Leaving code => left_by code s ∧ pr_store s = true
  | Gone code => left_by code s ∧ pr_store s = false
  end.

(** Past the daemon's own cancel. *)
Definition joining (s : process) : bool :=
  match pr_main s with AwaitAdapter | AwaitPump | AwaitDrains => true | _ => false end.

Definition main_rank (m : main_at) : nat :=
  match m with
  | AwaitAdapter => 4 | AwaitPump => 3 | AwaitDrains => 2 | Leaving _ => 1 | _ => 0
  end.
Definition adapter_rank (a : adapter_at) : nat :=
  match a with ARunning => 3 | AFailed => 2 | ACanceled => 1 | ADone => 0 end.

(** What is left to do once the context is over. *)
Definition rank (s : process) : nat :=
  main_rank (pr_main s) + adapter_rank (pr_adapter s) + Nat.b2n (pr_pump s) + pr_drains s.

(** ** Lemmas *)

#[local] Ltac step_cases :=
  match goal with H : sstep ?s _ |- _ =>
    destruct s as [mn ctx verb ad pump drains handlers aerr serr store]; inversion H; clear H; subst end;
  unfold start_adapter, refuse_adapter, leave_serve, serve_returns, join, deferred_close, adapter_ends,
    adapter_cancels, adapter_closes, pump_ends, signaled, drain_verb, accept, handled, enqueue, drain_ends in *;
  cbn in *; repeat case_match; simplify_eq/=;
  repeat match goal with
  | H : bool_decide _ = true |- _ => apply bool_decide_eq_true in H
  | H : _ && _ = true |- _ => apply andb_true_iff in H as [? ?]
  | H : Nat.eqb _ _ = true |- _ => apply Nat.eqb_eq in H
  end; subst.

Lemma stage_step s s' : stage s → sstep s s' → stage s'.
Proof.
  intros Hi Hs. step_cases; unfold stage, left_by, quiet_but_drains, exit_of in *; cbn in *;
    try (match goal with m : main_at |- _ => destruct m end); cbn in *;
    intuition (first [congruence | left; congruence | auto]).
Qed.

Lemma stage_reachable n s : rtc sstep (rebuilt n) s → stage s.
Proof.
  assert (H0 : stage (rebuilt n)) by by split. intros H. revert H0.
  induction H as [s|s s1 s2 H1 _ IH]; [done|]. intros H0. apply IH. by eapply stage_step.
Qed.

(** Past the daemon's own cancel, up to the end. *)
Definition over (s : process) : Prop :=
  match pr_main s with
  | AwaitAdapter | AwaitPump | AwaitDrains => True
  | Leaving _ | Gone _ => pr_ctx s = true ∧ pr_drains s = 0%nat
  | _ => False
  end.

(** Every step from there is one of the ways down. *)
Lemma over_step s s' : stage s → over s → sstep s s' → (rank s' < rank s)%nat ∧ over s'.
Proof.
  intros Hi Hj Hs. unfold over, rank in *. step_cases; unfold stage, left_by, quiet_but_drains in *; cbn in *;
    try (match goal with m : main_at |- _ => destruct m end); try done; cbn in *;
    destruct_and?; subst; cbn in *; try discriminate; (split; [lia|auto]).
Qed.

Lemma over_progress s : stage s → over s → (∃ code, pr_main s = Gone code) ∨ ∃ s', sstep s s'.
Proof.
  destruct s as [mn ctx verb ad pump drains handlers aerr serr store]. unfold stage, over, quiet_but_drains.
  destruct mn; cbn; try done; intros Hi Ho; destruct_and?; subst; [right..|by left; eexists].
  - destruct ad; eexists; [by apply (ss_adapter _ false)|by apply ss_cancels|by apply ss_closes|by apply ss_join].
  - destruct pump; eexists; [by apply ss_pump|by apply ss_join].
  - destruct drains; eexists; [by apply ss_join|by apply ss_drained].
  - eexists. by apply ss_close.
Qed.

Lemma over_bounded k s s' : stage s → over s → nsteps sstep k s s' → (k + rank s' ≤ rank s)%nat ∧ stage s' ∧ over s'.
Proof.
  intros Hi Ho H. induction H as [s|k s s1 s2 H1 _ IH]; [by split_and!|].
  destruct (over_step s s1 Hi Ho H1) as [Hr Ho1], (IH (stage_step _ _ Hi H1) Ho1) as (Hk & Hi2 & Ho2).
  split_and!; [lia|done..].
Qed.

Lemma over_ends s : stage s → over s → ∃ s' code, rtc sstep s s' ∧ pr_main s' = Gone code.
Proof.
  remember (rank s) as k eqn:Hk. revert s Hk. induction (lt_wf k) as [k _ IH]. intros s -> Hi Ho.
  destruct (over_progress s Hi Ho) as [[code Hc]|[s1 H1]]; [by exists s, code|].
  destruct (over_step s s1 Hi Ho H1) as [Hr Ho1].
  destruct (IH (rank s1) Hr s1 eq_refl (stage_step _ _ Hi H1) Ho1) as (s' & code & Hs' & Hc).
  exists s', code. split; [|done]. by eapply rtc_l.
Qed.

(** A shutdown is always possible: from wherever the life has got to. *)
Lemma handlers_finish s : ∃ s', rtc sstep s s' ∧ pr_main s' = pr_main s ∧ pr_ctx s' = pr_ctx s ∧ pr_handlers s' = 0%nat.
Proof.
  remember (pr_handlers s) as n eqn:Hn. revert s Hn. induction n as [|n IH]; intros s Hn; [by exists s|].
  destruct (IH (set_handlers n s) eq_refl) as (s' & H1 & H2 & H3 & H4). exists s'. split_and!; try done.
  eapply rtc_l; [|exact H1]. apply ss_handled. unfold handled. by rewrite <-Hn.
Qed.

Lemma end_serve_over s : pr_main s = EndServe → ∃ s', rtc sstep s s' ∧ over s'.
Proof.
  intros Hm. destruct (handlers_finish s) as (s1 & H1 & M1 & _ & Z1). rewrite Hm in M1.
  exists (canceled (at_main AwaitAdapter (at_main Served s1))). split; [|done]. etrans; [exact H1|].
  eapply rtc_l; [apply ss_return; unfold serve_returns; by rewrite M1, Z1|]. apply rtc_once. by apply ss_join.
Qed.

Lemma in_serve_over s : pr_main s = InServe → ∃ s', rtc sstep s s' ∧ over s'.
Proof.
  intros Hm. edestruct (end_serve_over (Process EndServe (pr_ctx s) (pr_verb s) (pr_adapter s) (pr_pump s)
    (pr_drains s) (pr_handlers s) (pr_adapterErr s) true (pr_store s)) eq_refl) as (s' & H & Ho).
  exists s'. split; [|done]. eapply rtc_l; [|exact H]. apply (ss_leave _ true). unfold leave_serve. by rewrite Hm.
Qed.

Lemma always_ends s : stage s → ∃ s' code, rtc sstep s s' ∧ pr_main s' = Gone code.
Proof.
  intros Hi. assert (Hover : ∀ s1, rtc sstep s s1 → over s1 → ∃ s' code, rtc sstep s s' ∧ pr_main s' = Gone code).
  { intros s1 H1 Ho. assert (Hi1 : stage s1) by (clear Ho; induction H1; eauto using stage_step).
    destruct (over_ends s1 Hi1 Ho) as (s' & code & H & Hc). exists s', code. split; [by etrans|done]. }
  destruct (pr_main s) eqn:Hm; try (eapply Hover; [done|unfold over; by rewrite Hm]).
  - destruct (in_serve_over (Process InServe (pr_ctx s) (pr_verb s) ADone false (pr_drains s) (pr_handlers s)
      (pr_adapterErr s) (pr_serveErr s) (pr_store s)) eq_refl) as (s' & H & Ho).
    eapply Hover; [|exact Ho]. eapply rtc_l; [|exact H]. apply (ss_start _ None). unfold start_adapter. by rewrite Hm.
  - destruct (in_serve_over s Hm) as (s' & H & Ho). by eapply Hover.
  - destruct (end_serve_over s Hm) as (s' & H & Ho). by eapply Hover.
  - eapply Hover; [apply rtc_once, ss_join; unfold join; by rewrite Hm|done].
  - eexists _, code. split; [apply rtc_once, ss_close; unfold deferred_close; by rewrite Hm|done].
  - by exists s, code.
Qed.

(** ** Properties *)


(** A life with an adapter and a pump: the gateway refuses for good while a
    turn runs; the daemon waits for the turn. *)
Definition refused_mid_turn : process :=
  Process AwaitDrains true false ADone false 1 0 true false true.

Lemma refused_mid_turn_reached : rtc sstep (rebuilt 1) refused_mid_turn.
Proof.
  eapply rtc_l; [by apply (ss_start _ (Some true))|]. eapply rtc_l; [by apply (ss_adapter _ true)|].
  eapply rtc_l; [by apply ss_cancels|]. eapply rtc_l; [by apply (ss_leave _ false)|].
  eapply rtc_l; [by apply ss_return|]. eapply rtc_l; [by apply ss_join|]. eapply rtc_l; [by apply ss_closes|].
  eapply rtc_l; [by apply ss_pump|]. eapply rtc_l; [by apply ss_join|]. eapply rtc_l; [by apply ss_join|]. done.
Qed.


(** The refusal that is not joined: an adapter that cannot be built after
    Rebuild started its drains closes the store under a running turn. *)
Theorem refusal_closes_under_turns n :
  ∃ s, rtc sstep (rebuilt (S n)) s ∧ pr_store s = false ∧ pr_drains s = S n.
Proof.
  eexists. split; [eapply rtc_l; [by apply ss_refuse|]; apply rtc_once; by apply ss_close|]. by split.
Qed.
